(* ===== verification/_CoqProject ===== *)
-Q . S2P
Prelude.v
Effects.v
Crypto.v
Messages.v
Signing.v
H2Wire.v
H2WireTheory.v
H2Codec.v
H2Bridge.v
H2Witnesses.v
ValidatorSet.v
Epoch.v
EpochTheory.v
Quorum.v
QuorumTheory.v
Fifo.v
Pacemaker.v
Round.v
VoteLog.v
Engine.v
Authentication.v
Handlers.v
Machine.v
Refinement.v
Caches.v
HandlerSteps.v
Termination.v
Node.v
Scenario.v
Rules.v
Progress.v
Agreement.v
Safety.v
BmtCore.v
BmtTree.v
BmtArena.v
BmtTheory.v
BmtProofs.v
ShardTree.v
ShardedBmt.v
ShardedBmtTheory.v
StateTree.v
BmtWitnesses.v
FlatIndex.v
FlatIndexTheory.v
Twig.v
TwigHeap.v
TwigLog.v
TwigForest.v
TwigTheory.v
TwigCalls.v
TwigSnapshot.v
TwigProofs.v
ShardedTwigTheory.v
TwigRestore.v
TwigState.v
TwigStateTheory.v
TwigWitnesses.v
MvMemory.v
BlockStm.v
BlockStmTheory.v
BlockStmInvariant.v
BlockStmSafety.v
BlockStmRaces.v
BlockStmWitnesses.v
Transfer.v
ParallelTransfer.v
TransferGroups.v
TransferTheory.v
ParallelTransferTheory.v
TransferGraft.v
TransferOrder.v
TransferSerial.v
TransferWitnesses.v
Staking.v
StakingTheory.v
MobileReward.v
Withdrawals.v
StakingWitnesses.v
Witnesses.v
