(* ===== verification/Prelude.v ===== *)
(** * N42: a verification development

    N42 is a blockchain node: a HotStuff-2 style consensus engine, the state trees
    that blocks are committed to, a parallel executor over revm and the node around
    them.  This library models the parts below as Rocq definitions, one per function
    of the source, under the source's names where they are free, and proves what
    makes each part correct.  Paths are relative to [src/].

    ** The program and the files that model it

    Shared.  [Prelude]: machine integers, bytes, lists, automation.  [Effects]: a
    method on [&mut self] that returns a [Result] is a computation [ST S E A], which
    returns the state it leaves, also when it fails, beside a value, an error, a panic
    or the end of its fuel.

    Consensus ([crates/n42-consensus], [crates/n42-primitives]).  [Crypto]: the BLS
    wrappers.  [Messages], [Signing]: messages, certificates and the bytes that are
    signed.  [ValidatorSet], [Epoch], [EpochTheory]: validator sets, leaders and the
    reconfiguration of the set.  [Quorum], [QuorumTheory]: vote and timeout
    collectors, and the building and verification of certificates.  [Fifo],
    [Pacemaker], [Round]: the bounded map, the timeouts and the round state with its
    voting rule.  [VoteLog]: the vote log as an interface and the file that implements
    it.  [Engine], [Authentication], [Handlers]: the engine with its environment (clock,
    output channel, disk, sudden death), batch authentication, and every handler of
    [proposal.rs], [voting.rs], [timeout.rs], [decision.rs] and [state_machine.rs].  A
    message goes from the orchestrator to [process_event], through the handlers, to the
    collectors and the round state, and its votes go to the vote log before they are
    signed.  [Machine], [Refinement], [HandlerSteps], [Caches], [Termination]: the
    engine as a transition system, its invariant, that every handler only makes its
    steps, that its caches are bounded and that it terminates.  [Node]: a validator over
    all its restarts ([bin/n42-node/src/main.rs]).  [Rules], [Progress], [Agreement],
    [Safety]: what is signed, what certificates do, agreement, and the statements about
    whole lives.  [Scenario] and [Witnesses]: a committee of four, run by the kernel.

    Cross-client messages ([crates/n42-network/src/h2_wire.rs], [h2_v4.rs],
    [h2_bridge.rs]).  [H2Wire], [H2WireTheory], [H2Codec], [H2Bridge], [H2Witnesses]:
    the binary format, and the conversion of the engine's messages to it and back.

    State trees ([crates/n42-bmt-core], [crates/n42-jmt], [crates/n42-twig-core],
    [crates/n42-mobile/src/state_proof.rs]).  [BmtCore] and [ShardedBmt]: the sparse
    Merkle tree in its arena and the state made of sixteen of them.  [BmtTree],
    [BmtArena], [BmtTheory], [BmtProofs], [ShardTree], [ShardedBmtTheory], [StateTree],
    [BmtWitnesses]: their theory.  [FlatIndex], [Twig] and [TwigState]: the twig engine,
    an append-only log with an index and a Merkle forest, which can take their place.
    [FlatIndexTheory], [TwigHeap], [TwigLog], [TwigForest], [TwigTheory], [TwigCalls],
    [TwigSnapshot], [TwigProofs], [ShardedTwigTheory], [TwigRestore], [TwigStateTheory],
    [TwigWitnesses]: its theory.

    Execution ([crates/n42-parallel-evm], [crates/n42-execution]).  [MvMemory] and
    [BlockStm]: the optimistic executor, its multi-version memory, scheduler and workers;
    there a call of the scheduler is one step, and [BlockStmRaces] has the calls as the
    sequences of atomic operations that they are in the source ([call_op]).
    [BlockStmTheory], [BlockStmInvariant], [BlockStmSafety], [BlockStmWitnesses]: its
    theory.  [Transfer] and
    [ParallelTransfer]: plain transfers without the interpreter, grouped by sender, run
    in batches on views of the parent and merged into the block; [TransferGroups],
    [TransferTheory], [ParallelTransferTheory], [TransferGraft], [TransferOrder],
    [TransferSerial], [TransferWitnesses]: their theory.

    Staking and rewards ([crates/n42-node/src/staking.rs], [mobile_reward.rs],
    [sinks/mod.rs]).  [Staking] and [MobileReward]: stakes read from committed blocks,
    rewards of an epoch, and the withdrawals of a block; [StakingTheory],
    [Withdrawals], [StakingWitnesses]: their theory.

    ** What the theorems show

    - Consensus: at most one vote of each kind per view over all restarts, durable
      before it is signed; two CommitQCs of one view certify the same block, in every
      signing profile; when votes are given; what a Decide, a NewView and a future
      certificate do, exactly; that [process_event] terminates, is monotone and keeps its
      caches bounded; that the vote that completes a quorum makes the leader send the
      certificate, and the commit vote that does commits the block.  One theorem is a
      run in which restarts from an old snapshot commit two conflicting blocks.
    - Certificates, epochs, timeouts, vote log, bounded map: exact acceptance, round
      trips of collecting and verifying for every iteration order of the collectors'
      maps, batch authentication up to its limit of 10000 votes, well-formedness of every
      operation, bounds, and refinement of their specifications.
    - Wire: the decoder accepts exactly the encoder's bytes, and a message of a committee
      of at most 4096 validators arrives as it was sent.
    - State trees: both engines refine finite maps for any sequence of calls (the sparse
      Merkle trees for up to 2^32 / 257 leaf writes, because the indices of their arena
      have 32 bits and are not checked); their proofs are complete and sound; snapshots
      are restored exactly or refused; the two engines agree.
    - Execution: the optimistic executor is serialisable when the scheduler's calls
      exclude each other and the base database can be read, and a run shows that it is
      not when the calls interleave as the source lets them; blocks of transfers built or
      imported in parallel are serial executions, when transfers of nothing go to
      accounts of the parent.
    - Staking: the lookup maps stay in step with the stakes, restarts read back the same
      manager, a manager returns no more than was staked when it restarts from its last
      state; two nodes return a stake twice.

    ** Assumptions

    Third-party code is a class of operations, with what is documented of it as the laws
    of a second class or as hypotheses: [Blst] and [BlstLaws] (blst), [Digest] (bincode
    and blake3), [QcCodec] (bincode), [SignatureEncoding], [Snappy], [BaseDb] and [Revm],
    [RevmTx], [RevmState] and [RevmStateLaws] (revm), [Keccak], [PayloadCodec],
    [AddressText], [StakeOrder] (the iteration order of a hash map), [F64].  Witness files
    give an instance of each.  Some laws are idealisations: [verify_multiple_sound] says
    that the randomised batch verification of blst never accepts a bad signature, which
    holds up to a probability of 2^-64 per batch; [aggregate_verifies] leaves out keys
    that add up to the point at infinity; unforgeability is the hypothesis [attested] of
    the agreement theorems, that a correct signer named by a certificate signed its
    message.  Hash
    functions are not assumed injective: soundness of proofs is stated for inputs on
    which blake3 has no collision, and reward addresses for keys whose addresses differ.
    Theorems about the twig engine need keys that differ in the sixteen bytes its index
    keeps; soundness of its proofs excludes values of 31 bytes, for which [TwigProofs]
    has a forgery.  A disk may fail and the process may die at any point; overwriting the
    eight bytes of a field of the vote log and renaming a file are atomic.

    ** Bounds and fuel

    A [u64] or wider integer is an [N]; [+w] wraps as the release profile does, [+s],
    [-s], [*s] saturate, and a [checked_] operation returns an option.  A [usize] that
    counts elements in memory is a [nat].  Fuel only appears where the source loops or
    recurses without a visible bound: the replay of buffered messages (one more than the
    messages buffered is enough and more changes nothing, [Termination]) and the epochs a
    view change crosses; the walks in the Merkle arena (the 256 bits of a key) and the
    levels of a heap of hashes; the probes of [FlatIndex] (an eighth of the table is
    empty); the searches in the disjoint sets (the number of nodes, [TransferGroups]); the
    queue of the scheduler (its length).  The theorems about these operations say that
    they return, and not only what they return when they do.

    ** Not modelled

    Networking and gossip ([crates/n42-network] besides the H2 files), the orchestrator
    and its background tasks, observers and finality service ([crates/
    n42-consensus-service] besides the vote log files and the restart), RPC and payload
    building over reth ([crates/n42-node] besides staking and rewards), the committee
    pool and the headers of the other client, block execution through the interpreter,
    the Jellyfish and the compatibility trees, vector kernels, snapshot files, mobile
    verifiers, native transaction types, zero-knowledge provers and the command-line
    tools: they are input and output around the modelled parts, or wrap libraries whose
    behaviour would have to be assumed.  Logging, metrics and timings have no counterpart;
    workers that share nothing run one after the other.  Of the parallel transfers the
    reverts of a bundle and the merge that drops the cache are left out, of staking the
    writing of its file. *)

From stdpp Require Export base numbers list fin_maps gmap sets strings sorting pretty.
From Stdlib Require Export Ascii.
From Stdlib Require Export Lia.

#[global] Open Scope N_scope.

(** ** Machine integers

    A [u8], [u32] or [u64] is an [N]; the bound is an explicit hypothesis where
    a theorem needs it.  A [usize] that counts the elements of a collection is a
    [nat].  Plain [+] on [u64] is the release profile's wrapping addition;
    [saturating_add], [saturating_sub] and [saturating_mul] clamp. *)

Definition u32_max : N := 4294967295.
Definition u64_max : N := 18446744073709551615.
Definition u64_modulus : N := 18446744073709551616.

Definition u64_wrap (x : N) : N := x mod u64_modulus.
Definition u64_wadd (a b : N) : N := u64_wrap (a + b).
Definition u64_sat_add (a b : N) : N := N.min (a + b) u64_max.
Definition u64_sat_sub (a b : N) : N := a - b.
Definition u64_sat_mul (a b : N) : N := N.min (a * b) u64_max.

Declare Scope n42_scope.
Delimit Scope n42_scope with n42.
Notation "a +w b" := (u64_wadd a b) (at level 50, left associativity) : n42_scope.
Notation "a +s b" := (u64_sat_add a b) (at level 50, left associativity) : n42_scope.
Notation "a -s b" := (u64_sat_sub a b) (at level 50, left associativity) : n42_scope.
Notation "a *s b" := (u64_sat_mul a b) (at level 40, left associativity) : n42_scope.
#[global] Open Scope n42_scope.

Lemma u64_sat_add_le a b : a +s b <= u64_max.
Proof. unfold u64_sat_add. lia. Qed.

Lemma u64_sat_add_exact a b : a + b <= u64_max -> a +s b = a + b.
Proof. unfold u64_sat_add. lia. Qed.

Lemma u64_sat_add_mono a b c : a <= b -> a +s c <= b +s c.
Proof. unfold u64_sat_add. lia. Qed.

Lemma u64_sat_mul_mono a b c : a <= b -> a *s c <= b *s c.
Proof. unfold u64_sat_mul. nia. Qed.

Lemma u64_wadd_exact a b : a + b <= u64_max -> a +w b = a + b.
Proof.
  intros H. unfold u64_wadd, u64_wrap. apply N.mod_small.
  unfold u64_max, u64_modulus in *. lia.
Qed.

(** ** Byte strings

    A byte is an [N] below 256.  [le_bytes n x] is [x.to_le_bytes()] for an
    [8 * n]-bit integer, [be_bytes n x] the big-endian one (the bytes of a
    fixed-size hash, whose value is read as one big-endian number). *)

Definition bytes : Type := list N.

Fixpoint le_bytes (n : nat) (x : N) : bytes :=
  match n with
  | O => []
  | S n' => (x mod 256) :: le_bytes n' (x / 256)
  end.

Definition be_bytes (n : nat) (x : N) : bytes := rev (le_bytes n x).

Fixpoint le_value (bs : bytes) : N :=
  match bs with
  | [] => 0
  | b :: bs' => b + 256 * le_value bs'
  end.

Lemma length_le_bytes n x : length (le_bytes n x) = n.
Proof. revert x. induction n; intros; simpl; auto. Qed.

Lemma length_be_bytes n x : length (be_bytes n x) = n.
Proof. unfold be_bytes. rewrite length_rev. apply length_le_bytes. Qed.

Lemma le_value_le_bytes n x : x < 256 ^ N.of_nat n -> le_value (le_bytes n x) = x.
Proof.
  revert x. induction n as [|n IH]; intros x Hx.
  - simpl in *. lia.
  - cbn [le_bytes le_value]. rewrite IH.
    + pose proof (N.div_mod x 256). lia.
    + rewrite Nat2N.inj_succ, N.pow_succ_r' in Hx.
      apply N.Div0.div_lt_upper_bound. lia.
Qed.

Lemma le_bytes_inj n x y :
  x < 256 ^ N.of_nat n -> y < 256 ^ N.of_nat n ->
  le_bytes n x = le_bytes n y -> x = y.
Proof.
  intros Hx Hy E. rewrite <- (le_value_le_bytes n x Hx), <- (le_value_le_bytes n y Hy).
  by rewrite E.
Qed.

Lemma be_bytes_inj n x y :
  x < 256 ^ N.of_nat n -> y < 256 ^ N.of_nat n ->
  be_bytes n x = be_bytes n y -> x = y.
Proof.
  unfold be_bytes. intros Hx Hy E. apply (le_bytes_inj n); auto.
  by rewrite <- (rev_involutive (le_bytes n x)), E, rev_involutive.
Qed.

Definition be_value (bs : bytes) : N := le_value (rev bs).

Definition is_bytes (bs : bytes) : Prop := Forall (fun b => b < 256) bs.

Lemma is_bytes_le_bytes n x : is_bytes (le_bytes n x).
Proof.
  revert x. induction n as [|n IH]; intros x; constructor; [|apply IH].
  apply N.mod_lt. done.
Qed.

Lemma is_bytes_rev bs : is_bytes bs -> is_bytes (rev bs).
Proof. apply Forall_rev. Qed.

Lemma is_bytes_be_bytes n x : is_bytes (be_bytes n x).
Proof. apply is_bytes_rev, is_bytes_le_bytes. Qed.

Lemma is_bytes_app a b : is_bytes (a ++ b) <-> is_bytes a /\ is_bytes b.
Proof. apply Forall_app. Qed.

Lemma le_value_lt bs : is_bytes bs -> le_value bs < 256 ^ N.of_nat (length bs).
Proof.
  induction 1 as [|b bs Hb Hbs IH]; [done|].
  cbn [le_value length]. rewrite Nat2N.inj_succ, N.pow_succ_r'. lia.
Qed.

Lemma le_bytes_le_value bs : is_bytes bs -> le_bytes (length bs) (le_value bs) = bs.
Proof.
  induction 1 as [|b bs Hb Hbs IH]; [done|]. cbn [le_value length le_bytes].
  rewrite (N.mul_comm 256). f_equal.
  - rewrite N.Div0.mod_add. by apply N.mod_small.
  - rewrite N.div_add by done. by rewrite N.div_small.
Qed.

Lemma be_value_lt bs : is_bytes bs -> be_value bs < 256 ^ N.of_nat (length bs).
Proof. intros H%is_bytes_rev. apply le_value_lt in H. by rewrite length_rev in H. Qed.

Lemma be_bytes_be_value bs : is_bytes bs -> be_bytes (length bs) (be_value bs) = bs.
Proof.
  intros H%is_bytes_rev. apply le_bytes_le_value in H. rewrite length_rev in H.
  unfold be_bytes, be_value. by rewrite H, rev_involutive.
Qed.

Lemma be_value_be_bytes n x : x < 256 ^ N.of_nat n -> be_value (be_bytes n x) = x.
Proof. intros H. unfold be_value, be_bytes. rewrite rev_involutive. by apply le_value_le_bytes. Qed.

Lemma app_inj_len {A} (a b c d : list A) :
  length a = length b -> a ++ c = b ++ d -> a = b /\ c = d.
Proof. intros L E. by apply app_inj_1. Qed.

(** The bytes of a byte-string literal. *)
Fixpoint ascii_bytes (s : string) : bytes :=
  match s with
  | EmptyString => []
  | String c s' => N_of_ascii c :: ascii_bytes s'
  end.

(** Fixed-size values of the source: a [B256] is a number below [2^256], an
    [Address] one below [2^160]. *)

Definition B256 : Type := N.
Definition Address : Type := N.
Definition B256_ZERO : B256 := 0.
Definition is_u64 (x : N) : Prop := x < 256 ^ 8.
Definition is_b256 (h : B256) : Prop := h < 256 ^ 32.

Definition u64_le (x : N) : bytes := le_bytes 8 x.
Definition b256_bytes (h : B256) : bytes := be_bytes 32 h.

Lemma length_u64_le x : length (u64_le x) = 8%nat.
Proof. apply length_le_bytes. Qed.
Lemma length_b256_bytes h : length (b256_bytes h) = 32%nat.
Proof. apply length_be_bytes. Qed.
Lemma u64_le_inj x y : is_u64 x -> is_u64 y -> u64_le x = u64_le y -> x = y.
Proof. apply (le_bytes_inj 8). Qed.
Lemma b256_bytes_inj x y : is_b256 x -> is_b256 y -> b256_bytes x = b256_bytes y -> x = y.
Proof. apply (be_bytes_inj 32). Qed.

#[global] Arguments Nat.ltb : simpl never.
#[global] Arguments N.eqb : simpl never.
#[global] Arguments N.ltb : simpl never.
#[global] Arguments N.leb : simpl never.
#[global] Arguments u64_wadd : simpl never.
#[global] Arguments u64_sat_add : simpl never.
#[global] Arguments u64_sat_sub : simpl never.
#[global] Arguments u64_sat_mul : simpl never.
#[global] Arguments le_bytes : simpl never.
#[global] Arguments be_bytes : simpl never.
#[global] Arguments u64_le : simpl never.
#[global] Arguments b256_bytes : simpl never.

Create Rewrite HintDb n42_len.
#[export] Hint Rewrite @length_app length_u64_le length_b256_bytes : n42_len.

Lemma filter_all {A} (P : A -> Prop) `{forall x, Decision (P x)} (l : list A) :
  Forall P l -> filter P l = l.
Proof. induction 1 as [|x l Hx Hl IH]; [done|]. by rewrite filter_cons_True, IH. Qed.
Lemma filter_none {A} (P : A -> Prop) `{forall x, Decision (P x)} (l : list A) :
  Forall (fun x => ~ P x) l -> filter P l = [].
Proof. induction 1 as [|x l Hx Hl IH]; [done|]. by rewrite filter_cons_False. Qed.

(** ** Automation *)

Create HintDb n42.

(** Case analysis on the scrutinee of the first match or [if] of the goal. *)
Ltac case_step :=
  match goal with
  | |- context [match ?x with _ => _ end] =>
      lazymatch x with
      | context [match _ with _ => _ end] => fail
      | _ => destruct x eqn:?
      end
  end.

Ltac bool_simpl :=
  repeat match goal with
  | H : (_ <? _) = true |- _ => apply N.ltb_lt in H
  | H : (_ <? _) = false |- _ => apply N.ltb_ge in H
  | H : (_ <=? _) = true |- _ => apply N.leb_le in H
  | H : (_ <=? _) = false |- _ => apply N.leb_gt in H
  | H : (_ =? _) = true |- _ => apply N.eqb_eq in H
  | H : (_ =? _) = false |- _ => apply N.eqb_neq in H
  | H : (_ <? _)%nat = true |- _ => apply Nat.ltb_lt in H
  | H : (_ <? _)%nat = false |- _ => apply Nat.ltb_ge in H
  | H : (_ <=? _)%nat = true |- _ => apply Nat.leb_le in H
  | H : (_ <=? _)%nat = false |- _ => apply Nat.leb_gt in H
  | H : (_ && _)%bool = true |- _ => apply andb_true_iff in H as [? ?]
  | H : (_ || _)%bool = false |- _ => apply orb_false_iff in H as [? ?]
  | H : negb _ = true |- _ => apply negb_true_iff in H
  | H : negb _ = false |- _ => apply negb_false_iff in H
  | H : bool_decide _ = true |- _ => apply bool_decide_eq_true in H
  | H : bool_decide _ = false |- _ => apply bool_decide_eq_false in H
  end.
