(* ===== verification/Effects.v ===== *)
(** * The effect of a method with [&mut self] that returns a [Result]

    A Rust method on [&mut self] that fails with [?] keeps every mutation it
    made before the failing call.  [ST S E A] therefore returns the state next
    to the outcome: the outcome is a value, an error, a panic (a failed
    [assert!]) or the exhaustion of the fuel that bounds the replay recursion.
    The file gives the monad and the two program logics the components share:
    [holds_at R m s], "running [m] from [s] moves the state along [R]", for a
    preorder [R], and [wp m s Q]. *)

From S2P Require Import Prelude.

Inductive outcome (E A : Type) : Type :=
| Ok (a : A)
| Err (e : E)
| Panic
| OutOfFuel.
Arguments Ok {E A} a.
Arguments Err {E A} e.
Arguments Panic {E A}.
Arguments OutOfFuel {E A}.

Definition ST (S E A : Type) : Type := S -> S * outcome E A.

(** A fallible computation that reads no mutable state ([Result<A, E>]). *)
Definition result (E A : Type) : Type := outcome E A.

Definition outcome_bind {E A B} (k : A -> outcome E B) (r : outcome E A) : outcome E B :=
  match r with
  | Ok a => k a
  | Err e => Err e
  | Panic => Panic
  | OutOfFuel => OutOfFuel
  end.

#[export] Instance result_ret E : MRet (result E) := fun A a => @Ok E A a.
#[export] Instance result_bind E : MBind (result E) := fun A B k r => outcome_bind k r.

Section ops.
Context {S E : Type}.

#[global] Instance st_ret : MRet (ST S E) := fun A a s => (s, Ok a).
#[global] Instance st_bind : MBind (ST S E) := fun A B k m s =>
  match m s with
  | (s', Ok a) => k a s'
  | (s', Err e) => (s', Err e)
  | (s', Panic) => (s', Panic)
  | (s', OutOfFuel) => (s', OutOfFuel)
  end.

Definition get : ST S E S := fun s => (s, Ok s).
Definition gets {A} (f : S -> A) : ST S E A := fun s => (s, Ok (f s)).
Definition modify (f : S -> S) : ST S E unit := fun s => (f s, Ok tt).
Definition fail {A} (e : E) : ST S E A := fun s => (s, Err e).
Definition panic {A} : ST S E A := fun s => (s, Panic).
Definition out_of_fuel {A} : ST S E A := fun s => (s, OutOfFuel).

(** [expr?] on a [Result] computed from the current state. *)
Definition try_ {A} (f : S -> result E A) : ST S E A := fun s => (s, f s).

(** [match expr { Ok(a) => .., Err(e) => .. }]: an error becomes a value, a
    panic still unwinds. *)
Definition catch {A} (m : ST S E A) : ST S E (E + A) := fun s =>
  match m s with
  | (s', Ok a) => (s', Ok (inr a))
  | (s', Err e) => (s', Ok (inl e))
  | (s', Panic) => (s', Panic)
  | (s', OutOfFuel) => (s', OutOfFuel)
  end.

Definition when (b : bool) (m : ST S E unit) : ST S E unit := if b then m else mret tt.

Fixpoint for_each {A} (f : A -> ST S E unit) (l : list A) : ST S E unit :=
  match l with
  | [] => mret tt
  | x :: l' => f x ;; for_each f l'
  end.
End ops.

(** A run whose first call is known goes on with the rest. *)
Section bind.
Context {S E : Type}.

Lemma bind_ok {A B} (m : ST S E A) (k : A -> ST S E B) s s' a :
  m s = (s', Ok a) -> (m ≫= k) s = k a s'.
Proof. intros H. unfold mbind, st_bind. by rewrite H. Qed.

Lemma bind_err {A B} (m : ST S E A) (k : A -> ST S E B) s s' e :
  m s = (s', Err e) -> (m ≫= k) s = (s', Err e).
Proof. intros H. unfold mbind, st_bind. by rewrite H. Qed.

Lemma bind_gets {A B} (f : S -> A) (k : A -> ST S E B) s : (gets f ≫= k) s = k (f s) s.
Proof. done. Qed.

Lemma bind_state {B} (k : S -> ST S E B) s : (get ≫= k) s = k s s.
Proof. done. Qed.
End bind.

(** ** Relational Hoare logic *)

Section logic.
Context {S E : Type} (R : relation S) `{!PreOrder R}.

Definition holds_at {A} (m : ST S E A) (s : S) : Prop := R s (m s).1.

Lemma holds_ret {A} (a : A) s : holds_at (mret a) s.
Proof. unfold holds_at. simpl. reflexivity. Qed.
Lemma holds_fail {A} e s : @holds_at A (fail e) s.
Proof. unfold holds_at. simpl. reflexivity. Qed.
Lemma holds_panic {A} s : @holds_at A panic s.
Proof. unfold holds_at. simpl. reflexivity. Qed.
Lemma holds_out_of_fuel {A} s : @holds_at A out_of_fuel s.
Proof. unfold holds_at. simpl. reflexivity. Qed.
Lemma holds_gets {A} (f : S -> A) s : holds_at (gets f) s.
Proof. unfold holds_at. simpl. reflexivity. Qed.
Lemma holds_get s : holds_at get s.
Proof. unfold holds_at. simpl. reflexivity. Qed.
Lemma holds_try {A} (f : S -> result E A) s : holds_at (try_ f) s.
Proof. unfold holds_at. simpl. reflexivity. Qed.
Lemma holds_modify f s : R s (f s) -> holds_at (modify f) s.
Proof. done. Qed.

Lemma holds_bind {A B} (m : ST S E A) (k : A -> ST S E B) s :
  holds_at m s ->
  (forall a s', m s = (s', Ok a) -> R s s' -> holds_at (k a) s') ->
  holds_at (m ≫= k) s.
Proof.
  unfold holds_at, mbind, st_bind. intros Hm Hk.
  destruct (m s) as [s' [a|e| |]] eqn:E1; simpl in *; auto.
  transitivity s'; auto.
Qed.

(** Reading the state binds the state itself. *)
Lemma holds_bind_gets {A B} (f : S -> A) (k : A -> ST S E B) s :
  holds_at (k (f s)) s -> holds_at (gets f ≫= k) s.
Proof. done. Qed.
Lemma holds_bind_get {B} (k : S -> ST S E B) s :
  holds_at (k s) s -> holds_at (get ≫= k) s.
Proof. done. Qed.
Lemma holds_bind_try {A B} (f : S -> result E A) (k : A -> ST S E B) s :
  (forall a, f s = Ok a -> holds_at (k a) s) -> holds_at (try_ f ≫= k) s.
Proof.
  unfold holds_at, mbind, st_bind, try_. intros Hk.
  destruct (f s) as [a|e| |] eqn:E1; simpl; [by apply Hk|reflexivity..].
Qed.
Lemma holds_bind_modify {B} (f : S -> S) (k : unit -> ST S E B) s :
  R s (f s) -> holds_at (k tt) (f s) -> holds_at (modify f ≫= k) s.
Proof. unfold holds_at. simpl. intros H1 H2. by transitivity (f s). Qed.

Lemma holds_catch {A} (m : ST S E A) s : holds_at m s -> holds_at (catch m) s.
Proof.
  unfold holds_at, catch. destruct (m s) as [s' [a|e| |]]; simpl; auto.
Qed.
Lemma holds_when b m s : (b = true -> holds_at m s) -> holds_at (when b m) s.
Proof. unfold when. destruct b; intros; [auto|apply holds_ret]. Qed.

Lemma holds_for_each {A} (f : A -> ST S E unit) l s :
  (forall x s', x ∈ l -> holds_at (f x) s') -> holds_at (for_each f l) s.
Proof.
  revert s. induction l as [|x l IH]; intros s H; simpl.
  - apply holds_ret.
  - apply holds_bind; [apply H; left|]. intros _ s' _ _. apply IH.
    intros y s'' Hy. apply H. by right.
Qed.
End logic.

(** ** Weakest preconditions *)

Section wp.
Context {S E : Type}.

Definition wp {A} (m : ST S E A) (s : S) (Q : S -> outcome E A -> Prop) : Prop :=
  Q (m s).1 (m s).2.

Lemma wp_bind {A B} (m : ST S E A) (k : A -> ST S E B) s Q :
  wp m s (fun s' r =>
    match r with
    | Ok a => wp (k a) s' Q
    | Err e => Q s' (Err e)
    | Panic => Q s' Panic
    | OutOfFuel => Q s' OutOfFuel
    end) ->
  wp (m ≫= k) s Q.
Proof.
  unfold wp, mbind, st_bind. destruct (m s) as [s' [a|e| |]]; simpl; auto.
Qed.

Lemma wp_mono {A} (m : ST S E A) s (P Q : S -> outcome E A -> Prop) :
  wp m s P -> (forall s' r, P s' r -> Q s' r) -> wp m s Q.
Proof. unfold wp. auto. Qed.
End wp.

(** ** Record update

    [r <| f := v |>] replaces one field of a record; a record type gives one
    [Setter] instance per field, built by [solve_setter] from its eta expansion. *)

Class Setter {R T : Type} (f : R -> T) : Type := set : (T -> T) -> R -> R.
Arguments set {R T} f {_} g r /.

#[warnings="-postfix-notation-not-level-1"]
Notation "r <| f := v |>" := (set f (fun _ => v) r)
  (at level 12, left associativity, f at next level) : n42_scope.
#[warnings="-postfix-notation-not-level-1"]
Notation "r <| f ::= g |>" := (set f g r)
  (at level 12, left associativity, f at next level) : n42_scope.

Ltac solve_setter eta :=
  lazymatch goal with
  | |- @Setter ?R ?T ?f =>
      let g := fresh "g" in let r := fresh "r" in
      refine (fun g r => _);
      let t := eval cbv beta delta [eta] in (eta r) in
      lazymatch eval pattern (f r) in t with
      | ?h _ => let u := eval cbv beta in (h (g (f r))) in exact u
      end
  end.
