(* ===== verification/Crypto.v ===== *)
(** * BLS primitives ([crates/n42-primitives/src/bls])

    The curve arithmetic is the third-party crate [blst]; the randomness of the
    batch verifier is the third-party crate [getrandom].  Both are operations of
    the class [Blst], with the documented facts the consensus layer relies on in
    [BlstLaws].  Keys and signatures are their compressed encodings, read as
    numbers: the source compares them by [to_bytes()].  The definitions model
    the wrappers of the repository: [keys.rs], [aggregate.rs] and [verify.rs]. *)

From S2P Require Import Prelude Effects.

Definition BlsSecretKey : Type := N.
Definition BlsPublicKey : Type := N.
Definition BlsSignature : Type := N.

Inductive BLST_ERROR : Type :=
| BLST_SUCCESS
| BLST_BAD_ENCODING
| BLST_OTHER (code : N).

#[export] Instance BLST_ERROR_eq_dec : EqDecision BLST_ERROR.
Proof. solve_decision. Defined.

Inductive BlsError : Type :=
| KeyGeneration
| SigningFailed
| RandomGenerationFailed
| VerificationFailed (e : BLST_ERROR)
| InvalidPublicKey
| BlsInvalidSignature
| InvalidSecretKey
| BatchTooLarge (size max : nat).

(** ** The third-party operations *)

Class Blst : Type := {
  sk_to_pk : BlsSecretKey -> BlsPublicKey;
  blst_key_gen : bytes -> option BlsSecretKey;
  pk_validate : BlsPublicKey -> BLST_ERROR;
  blst_sign : BlsSecretKey -> bytes -> bytes -> BlsSignature;
  (** [Signature::verify(true, msg, dst, &[], pk, pk_validate)] *)
  blst_verify : BlsSignature -> bytes -> bytes -> BlsPublicKey -> bool -> BLST_ERROR;
  (** [AggregateSignature::aggregate(sigs, true)] *)
  blst_aggregate : list BlsSignature -> option BlsSignature;
  blst_fast_aggregate_verify : BlsSignature -> bytes -> bytes -> list BlsPublicKey -> BLST_ERROR;
  blst_verify_multiple :
    list bytes -> bytes -> list BlsPublicKey -> list BlsSignature -> list N -> BLST_ERROR;
  (** the [i]-th draw of eight random bytes of one batch verification *)
  getrandom_u64 : nat -> option N
}.

(** ** [bls/mod.rs], [bls/keys.rs] *)

Definition DST : bytes := ascii_bytes "BLS_SIG_BLS12381G2_XMD:SHA-256_SSWU_RO_NUL_".
Definition H2_V4_DST : bytes := ascii_bytes "BLS_SIG_BLS12381G2_XMD:SHA-256_SSWU_RO_POP_".

Section wrappers.
Context {blst : Blst}.

Definition key_gen (ikm : bytes) : result BlsError BlsSecretKey :=
  match blst_key_gen ikm with
  | Some sk => Ok sk
  | None => Err KeyGeneration
  end.

Definition public_key (sk : BlsSecretKey) : BlsPublicKey := sk_to_pk sk.
Definition sign (sk : BlsSecretKey) (message : bytes) : BlsSignature := blst_sign sk message DST.
Definition sign_h2_v4 (sk : BlsSecretKey) (message : bytes) : BlsSignature :=
  blst_sign sk message H2_V4_DST.

Definition of_blst (r : BLST_ERROR) : result BlsError unit :=
  if decide (r = BLST_SUCCESS) then Ok tt else Err (VerificationFailed r).

Definition validate (pk : BlsPublicKey) : result BlsError unit := of_blst (pk_validate pk).
Definition verify (pk : BlsPublicKey) (message : bytes) (signature : BlsSignature)
  : result BlsError unit :=
  of_blst (blst_verify signature message DST pk true).
Definition verify_prevalidated (pk : BlsPublicKey) (message : bytes) (signature : BlsSignature)
  : result BlsError unit :=
  of_blst (blst_verify signature message DST pk false).
Definition verify_h2_v4_prevalidated (pk : BlsPublicKey) (message : bytes)
  (signature : BlsSignature) : result BlsError unit :=
  of_blst (blst_verify signature message H2_V4_DST pk false).

Definition is_ok {E A} (r : result E A) : bool :=
  match r with Ok _ => true | _ => false end.

(** ** [bls/aggregate.rs] *)

Definition aggregate (signatures : list BlsSignature) : result BlsError BlsSignature :=
  match signatures with
  | [] => Err SigningFailed
  | _ =>
      match blst_aggregate signatures with
      | Some agg => Ok agg
      | None => Err SigningFailed
      end
  end.

Definition verify_aggregate (message : bytes) (signature : BlsSignature)
  (public_keys : list BlsPublicKey) : result BlsError unit :=
  of_blst (blst_fast_aggregate_verify signature message DST public_keys).
Definition verify_h2_v4_aggregate (message : bytes) (signature : BlsSignature)
  (public_keys : list BlsPublicKey) : result BlsError unit :=
  of_blst (blst_fast_aggregate_verify signature message H2_V4_DST public_keys).

(** ** [bls/verify.rs] *)

Definition MAX_BATCH_SIZE : nat := N.to_nat 10000.

Record Ciphersuite : Type := mkCiphersuite {
  suite_dst : bytes;
  verify_one : BlsPublicKey -> bytes -> BlsSignature -> result BlsError unit
}.

Definition NATIVE : Ciphersuite := mkCiphersuite DST verify.
Definition H2_V4 : Ciphersuite := mkCiphersuite H2_V4_DST verify_h2_v4_prevalidated.

(** The random 64-bit scalars: a zero draw is replaced by one. *)
Fixpoint random_scalars (i : nat) (n : nat) : result BlsError (list N) :=
  match n with
  | O => Ok []
  | S n' =>
      match getrandom_u64 i with
      | None => Err RandomGenerationFailed
      | Some val =>
          rest ← random_scalars (S i) n';
          Ok ((if val =? 0 then 1 else val) :: rest)
      end
  end.

Definition batch_verify_with_suite (messages : list bytes) (signatures : list BlsSignature)
  (public_keys : list BlsPublicKey) (suite : Ciphersuite) : result BlsError unit :=
  if bool_decide (length messages ≠ length signatures)
     || bool_decide (length signatures ≠ length public_keys)
  then Err (VerificationFailed BLST_BAD_ENCODING)
  else if (MAX_BATCH_SIZE <? length messages)%nat
  then Err (BatchTooLarge (length messages) MAX_BATCH_SIZE)
  else match messages, signatures, public_keys with
  | [], _, _ => Ok tt
  | [m], [s], [pk] => verify_one suite pk m s
  | _, _, _ =>
      rands ← random_scalars 0 (length messages);
      of_blst (blst_verify_multiple messages (suite_dst suite) public_keys signatures rands)
  end.

Definition batch_verify (messages : list bytes) (signatures : list BlsSignature)
  (public_keys : list BlsPublicKey) : result BlsError unit :=
  batch_verify_with_suite messages signatures public_keys NATIVE.

(** The positions the localizing fallback reports, counted from [i]. *)
Fixpoint bad_positions (suite : Ciphersuite) (i : nat)
  (items : list (bytes * BlsSignature * BlsPublicKey)) : list nat :=
  match items with
  | [] => []
  | (m, s, pk) :: rest =>
      if is_ok (verify_one suite pk m s)
      then bad_positions suite (S i) rest
      else i :: bad_positions suite (S i) rest
  end.

Definition batch_verify_with_fallback_suite (messages : list bytes)
  (signatures : list BlsSignature) (public_keys : list BlsPublicKey) (suite : Ciphersuite)
  : result (list nat) unit :=
  if bool_decide (length messages ≠ length signatures)
     || bool_decide (length signatures ≠ length public_keys)
  then Err (seq 0 (length messages))
  else if (MAX_BATCH_SIZE <? length messages)%nat
  then Err (seq 0 (length messages))
  else if bool_decide (messages = []) then Ok tt
  else if is_ok (batch_verify_with_suite messages signatures public_keys suite) then Ok tt
  else match bad_positions suite 0 (zip (zip messages signatures) public_keys) with
  | [] => Ok tt
  | bad => Err bad
  end.

Definition batch_verify_with_fallback (messages : list bytes) (signatures : list BlsSignature)
  (public_keys : list BlsPublicKey) : result (list nat) unit :=
  batch_verify_with_fallback_suite messages signatures public_keys NATIVE.
Definition batch_verify_h2_v4_with_fallback (messages : list bytes)
  (signatures : list BlsSignature) (public_keys : list BlsPublicKey)
  : result (list nat) unit :=
  batch_verify_with_fallback_suite messages signatures public_keys H2_V4.
End wrappers.

(** ** What the consensus layer relies on

    The documented behaviour of [blst]: signatures verify, verification with
    key validation is key validation followed by verification, aggregation
    (which checks that every signature is in the group, as verification does)
    succeeds on signatures that verify and is their (commutative) sum, and the
    randomized multi-pairing accepts only when each of its signatures
    verifies. *)

Class BlstLaws (blst : Blst) : Prop := {
  sign_verifies : forall sk m dst,
    blst_verify (blst_sign sk m dst) m dst (sk_to_pk sk) false = BLST_SUCCESS;
  verify_with_validation : forall s m dst pk,
    blst_verify s m dst pk true = BLST_SUCCESS <->
    pk_validate pk = BLST_SUCCESS /\ blst_verify s m dst pk false = BLST_SUCCESS;
  aggregate_some : forall m dst (items : list (BlsSignature * BlsPublicKey)),
    items ≠ [] -> Forall (fun x => blst_verify x.1 m dst x.2 false = BLST_SUCCESS) items ->
    is_Some (blst_aggregate (items.*1));
  aggregate_verifies : forall m dst (items : list (BlsSignature * BlsPublicKey)) agg,
    Forall (fun x => blst_verify x.1 m dst x.2 false = BLST_SUCCESS) items ->
    blst_aggregate (items.*1) = Some agg ->
    blst_fast_aggregate_verify agg m dst (items.*2) = BLST_SUCCESS;
  fast_aggregate_perm : forall s m dst pks pks',
    pks ≡ₚ pks' ->
    blst_fast_aggregate_verify s m dst pks = blst_fast_aggregate_verify s m dst pks';
  verify_multiple_sound : forall (items : list (bytes * BlsSignature * BlsPublicKey)) dst rands,
    blst_verify_multiple (items.*1.*1) dst (items.*2) (items.*1.*2) rands = BLST_SUCCESS ->
    Forall (fun x => blst_verify x.1.2 x.1.1 dst x.2 false = BLST_SUCCESS) items
}.

Section batch.
Context {blst : Blst} {laws : BlstLaws blst}.

Lemma of_blst_ok r : is_ok (of_blst r) = true <-> r = BLST_SUCCESS.
Proof. unfold of_blst. case_decide; simpl; naive_solver. Qed.

(** A tuple passes the single-signature check of a suite. *)
Definition item_ok (suite : Ciphersuite) (x : bytes * BlsSignature * BlsPublicKey) : bool :=
  is_ok (verify_one suite x.2 x.1.1 x.1.2).

Lemma bad_positions_spec suite items i p :
  p ∈ bad_positions suite i items <->
  exists k x, p = (i + k)%nat /\ items !! k = Some x /\ item_ok suite x = false.
Proof.
  revert i. induction items as [|[[m s] pk] rest IH]; intros i; cbn [bad_positions].
  - split; [by intros H%not_elem_of_nil|]. intros (k & x & _ & H & _). done.
  - assert (Hshift : p ∈ bad_positions suite (S i) rest <->
      exists k x, p = (i + S k)%nat /\ rest !! k = Some x /\ item_ok suite x = false).
    { rewrite IH. split; intros (k & x & -> & ? & ?); exists k, x; repeat split; auto; lia. }
    destruct (is_ok (verify_one suite pk m s)) eqn:Ev; [|rewrite elem_of_cons]; rewrite Hshift.
    + split.
      * intros (k & x & -> & ? & ?). exists (S k), x. auto.
      * intros ([|k] & x & -> & Hl & Hx); simpl in Hl.
        -- simplify_eq. unfold item_ok in Hx. simpl in Hx. congruence.
        -- eauto.
    + split.
      * intros [->|(k & x & -> & ? & ?)].
        -- exists 0%nat, (m, s, pk). repeat split; [lia|]. exact Ev.
        -- exists (S k), x. auto.
      * intros ([|k] & x & -> & Hl & Hx); [left; lia|right; eauto].
Qed.

(** A suite whose keys have passed validation checks each tuple like [blst]
    does in the batch. *)
Definition suite_sound (suite : Ciphersuite) (x : bytes * BlsSignature * BlsPublicKey) : Prop :=
  blst_verify x.1.2 x.1.1 (suite_dst suite) x.2 false = BLST_SUCCESS ->
  item_ok suite x = true.

Lemma native_suite_sound x : pk_validate x.2 = BLST_SUCCESS -> suite_sound NATIVE x.
Proof.
  intros Hv Hs. unfold item_ok, NATIVE, verify. simpl.
  apply of_blst_ok, verify_with_validation. auto.
Qed.
Lemma h2_v4_suite_sound x : suite_sound H2_V4 x.
Proof. intros Hs. unfold item_ok. simpl. by apply of_blst_ok. Qed.

Lemma zip3_unzip (ms : list bytes) (sigs : list BlsSignature) (pks : list BlsPublicKey) :
  length ms = length sigs -> length sigs = length pks ->
  let items := zip (zip ms sigs) pks in
  items.*1.*1 = ms /\ items.*1.*2 = sigs /\ items.*2 = pks.
Proof.
  intros H1 H2 items. subst items.
  assert (length (zip ms sigs) = length pks) by (rewrite length_zip; lia).
  rewrite fst_zip by lia. rewrite snd_zip by lia.
  rewrite fst_zip by lia. by rewrite snd_zip by lia.
Qed.

(** The batch verifier is sound: it accepts only tuples that verify singly. *)
Lemma batch_verify_with_suite_sound suite ms sigs pks :
  Forall (suite_sound suite) (zip (zip ms sigs) pks) ->
  is_ok (batch_verify_with_suite ms sigs pks suite) = true ->
  length ms = length sigs /\ length sigs = length pks /\
  Forall (fun x => item_ok suite x = true) (zip (zip ms sigs) pks).
Proof.
  intros Hsuite. unfold batch_verify_with_suite.
  destruct (bool_decide (length ms ≠ length sigs)) eqn:E1; [done|].
  destruct (bool_decide (length sigs ≠ length pks)) eqn:E2; [done|]. bool_simpl.
  assert (length ms = length sigs) as L1 by (by destruct (decide (length ms = length sigs))).
  assert (length sigs = length pks) as L2 by (by destruct (decide (length sigs = length pks))).
  simpl. destruct (Nat.ltb _ _); [done|]. intros H. split_and!; auto.
  destruct ms as [|m [|m' ms]]; [by constructor| |].
  - destruct sigs as [|s [|]], pks as [|pk [|]]; try done.
    repeat constructor. exact H.
  - set (all := m :: m' :: ms) in *.
    assert (Hm : is_ok (rands ← random_scalars 0 (length all);
      of_blst (blst_verify_multiple all (suite_dst suite) pks sigs rands)) = true).
    { by destruct sigs as [|s [|]], pks as [|pk [|]]. }
    destruct (random_scalars 0 (length all)) as [rands| | |]; try done. simpl in Hm.
    apply of_blst_ok in Hm. destruct (zip3_unzip all sigs pks L1 L2) as (E1' & E2' & E3').
    pose proof (verify_multiple_sound (zip (zip all sigs) pks) (suite_dst suite) rands) as Hv.
    rewrite E1', E2', E3' in Hv. specialize (Hv Hm).
    rewrite Forall_forall in Hsuite |- *. rewrite Forall_forall in Hv.
    intros x Hx. by apply Hsuite, Hv.
Qed.
End batch.

(** ** A concrete instance

    The algebra of BLS over the integers: the public key is the secret scalar,
    a signature is the scalar times the hash of the message, aggregation is
    addition.  It has no cryptographic strength; it satisfies every law, so
    theorems stated against [BlstLaws] can be evaluated on it. *)

Module LinearBlst.
Definition hash_to_curve (m dst : bytes) : N := 1 + foldr (fun b acc => b + 3 * acc) 0 (m ++ dst).
Definition check (b : bool) : BLST_ERROR := if b then BLST_SUCCESS else BLST_OTHER 1.
Definition sum (l : list N) : N := foldr N.add 0 l.

#[export] Instance linear : Blst := {|
  sk_to_pk sk := sk;
  blst_key_gen ikm := Some (1 + le_value ikm);
  pk_validate pk := BLST_SUCCESS;
  blst_sign sk m dst := sk * hash_to_curve m dst;
  blst_verify s m dst pk _ := check (s =? pk * hash_to_curve m dst);
  blst_aggregate sigs := Some (sum sigs);
  blst_fast_aggregate_verify s m dst pks := check (s =? sum pks * hash_to_curve m dst);
  blst_verify_multiple ms dst pks sigs _ :=
    check (forallb (fun x => x.1.2 =? x.2 * hash_to_curve x.1.1 dst) (zip (zip ms sigs) pks));
  getrandom_u64 _ := Some 7
|}.

Lemma check_ok b : check b = BLST_SUCCESS <-> b = true.
Proof. destruct b; simpl; naive_solver. Qed.

Lemma zip3_items {A B C} (items : list (A * B * C)) :
  zip (zip (items.*1.*1) (items.*1.*2)) (items.*2) = items.
Proof. induction items as [|[[a b] c] l IH]; simpl; [done|]. f_equal. exact IH. Qed.

Lemma sum_perm l l' : l ≡ₚ l' -> sum l = sum l'.
Proof. unfold sum. induction 1; simpl; lia. Qed.

Lemma sum_verifies m dst (items : list (N * N)) :
  Forall (fun x => check (x.1 =? x.2 * hash_to_curve m dst) = BLST_SUCCESS) items ->
  sum (items.*1) = sum (items.*2) * hash_to_curve m dst.
Proof.
  induction 1 as [|[s pk] l Hx Hl IH]; [done|].
  simpl in Hx. apply check_ok, N.eqb_eq in Hx.
  change (s + sum (l.*1) = (pk + sum (l.*2)) * hash_to_curve m dst).
  rewrite IH, Hx. lia.
Qed.

#[export] Instance linear_laws : BlstLaws linear.
Proof.
  constructor; cbn.
  - intros. apply check_ok, N.eqb_refl.
  - naive_solver.
  - eauto.
  - intros m dst items agg Hall [= <-]. apply check_ok, N.eqb_eq. by apply sum_verifies.
  - intros s m dst pks pks' Hp. by rewrite (sum_perm _ _ Hp).
  - intros items dst _ H. change (check (forallb (fun x => x.1.2 =? x.2 * hash_to_curve x.1.1 dst)
      (zip (zip (items.*1.*1) (items.*1.*2)) (items.*2))) = BLST_SUCCESS) in H.
    rewrite zip3_items, check_ok, forallb_forall in H. apply Forall_forall.
    intros x Hx. apply check_ok, H. by apply list_elem_of_In.
Qed.
End LinearBlst.
