(* ===== verification/Messages.v ===== *)
(** * Consensus data: certificates, messages, errors

    [crates/n42-primitives/src/consensus/messages.rs],
    [crates/n42-consensus/src/error.rs] and the [ValidatorInfo] of
    [crates/n42-chainspec/src/lib.rs].  A signer bitmap [BitVec<u8, Msb0>] is a
    list of booleans; its packed wire form is modelled by [packed_bits]. *)

From S2P Require Import Prelude Effects Crypto.

Definition ViewNumber : Type := N.
Definition ValidatorIndex : Type := N.

(** ** Certificates *)

Record QuorumCertificate : Type := mkQC {
  qc_view : ViewNumber;
  qc_block_hash : B256;
  qc_aggregate_signature : BlsSignature;
  qc_signers : list bool
}.

#[export] Instance QuorumCertificate_eq_dec : EqDecision QuorumCertificate.
Proof. solve_decision. Defined.

Definition count_ones (bits : list bool) : nat := length (filter (fun b => b = true) bits).
#[global] Arguments count_ones : simpl never.
Definition signer_count (qc : QuorumCertificate) : nat := count_ones (qc_signers qc).

(** The genesis certificate's dummy signature comes from a fixed 32-byte key
    seed, for which key generation cannot fail. *)
Definition genesis {blst : Blst} : QuorumCertificate := {|
  qc_view := 0;
  qc_block_hash := B256_ZERO;
  qc_aggregate_signature :=
    match key_gen (replicate 32 1) with
    | Ok sk => sign sk (ascii_bytes "genesis")
    | _ => 0
    end;
  qc_signers := []
|}.

Record TimeoutCertificate : Type := mkTC {
  tc_view : ViewNumber;
  tc_aggregate_signature : BlsSignature;
  tc_signers : list bool;
  tc_high_qc : QuorumCertificate
}.

(** ** Validators and validator changes *)

Record ValidatorInfo : Type := mkValidatorInfo {
  vi_address : Address;
  vi_bls_public_key : BlsPublicKey;
  vi_p2p_peer_id : option string
}.

#[export] Instance ValidatorInfo_eq_dec : EqDecision ValidatorInfo.
Proof. solve_decision. Defined.

Inductive ValidatorChange : Type :=
| Add (address : Address) (bls_public_key : BlsPublicKey) (p2p_peer_id : option string)
| Remove (address : Address).

#[export] Instance ValidatorChange_eq_dec : EqDecision ValidatorChange.
Proof. solve_decision. Defined.

(** The third-party serializer and hash of a change list. *)
Class Digest : Type := {
  bincode_changes : list ValidatorChange -> bytes;
  blake3 : bytes -> B256
}.

(** ** Messages *)

Record Proposal : Type := mkProposal {
  p_view : ViewNumber;
  p_block_hash : B256;
  p_justify_qc : QuorumCertificate;
  p_proposer : ValidatorIndex;
  p_signature : BlsSignature;
  p_prepare_qc : option QuorumCertificate;
  p_tx_root_hash : option B256;
  p_validator_changes : option (list ValidatorChange)
}.

Record Vote : Type := mkVote {
  v_view : ViewNumber;
  v_block_hash : B256;
  v_voter : ValidatorIndex;
  v_signature : BlsSignature
}.

Record CommitVote : Type := mkCommitVote {
  cv_view : ViewNumber;
  cv_block_hash : B256;
  cv_voter : ValidatorIndex;
  cv_signature : BlsSignature
}.

Record TimeoutMessage : Type := mkTimeoutMessage {
  t_view : ViewNumber;
  t_high_qc : QuorumCertificate;
  t_sender : ValidatorIndex;
  t_signature : BlsSignature
}.

Record NewView : Type := mkNewView {
  nv_view : ViewNumber;
  nv_timeout_cert : TimeoutCertificate;
  nv_leader : ValidatorIndex;
  nv_signature : BlsSignature
}.

Record PrepareQC : Type := mkPrepareQC {
  pqc_view : ViewNumber;
  pqc_block_hash : B256;
  pqc_qc : QuorumCertificate
}.

Record Decide : Type := mkDecide {
  d_view : ViewNumber;
  d_block_hash : B256;
  d_commit_qc : QuorumCertificate;
  d_validator_changes_hash : B256
}.

Inductive ConsensusMessage : Type :=
| MProposal (p : Proposal)
| MVote (v : Vote)
| MCommitVote (cv : CommitVote)
| MPrepareQC (pqc : PrepareQC)
| MTimeout (t : TimeoutMessage)
| MNewView (nv : NewView)
| MDecide (d : Decide).

Definition message_view (m : ConsensusMessage) : ViewNumber :=
  match m with
  | MProposal p => p_view p
  | MVote v => v_view v
  | MCommitVote cv => cv_view cv
  | MPrepareQC pqc => pqc_view pqc
  | MTimeout t => t_view t
  | MNewView nv => nv_view nv
  | MDecide d => d_view d
  end.

(** ** Errors ([error.rs]) *)

Inductive ConsensusError : Type :=
| InvalidSignature (view : ViewNumber) (validator_index : N)
| InvalidProposer (view : ViewNumber) (expected actual : N)
| InsufficientVotes (view : ViewNumber) (have need : nat)
| ViewMismatch (current received : ViewNumber)
| DuplicateVote (view : ViewNumber) (validator_index : N)
| InvalidQC (view : ViewNumber) (reason : string)
| InvalidTC (view : ViewNumber) (reason : string)
| UnknownValidator (index set_size : N)
| SafetyViolation (qc_view locked_view : ViewNumber)
| BlockHashMismatch (expected got : B256)
| Bls (e : BlsError)
| OutputChannelClosed
| EpochScheduleEmpty
| InvalidValidatorSetParams (validator_count fault_tolerance max_fault_tolerance : N)
| LocalValidatorNotInSet (epoch : N)
| InsufficientValidators (have need : nat)
| InsufficientQuorumOverlap (have need : nat)
| ValidatorAlreadyExists (address : Address)
| ValidatorNotFound (address : Address)
| ValidatorAlreadyPendingRemoval (address : Address)
| EpochTransitionAlreadyStaged
| TooManyValidatorChanges (count max : nat)
| EpochsDisabled
| H2V4ValidatorChangesUnsupported
| InvalidValidatorPubkey (index : N)
| VoteLogFsync (msg : string).

Definition cresult (A : Type) : Type := result ConsensusError A.

(** ** The packed wire form of a signer bitmap ([mod packed_bits])

    [(bit_count as u16, packed bytes)], most significant bit first. *)

Definition byte_of_bits (bits : list bool) : N :=
  foldl (fun acc (b : bool) => 2 * acc + (if b then 1 else 0)) 0 (take 8 (bits ++ replicate 8 false)).

Definition bits_of_byte (x : N) : list bool :=
  (fun i => N.testbit x (7 - N.of_nat i)) <$> seq 0 8.

Definition div_ceil8 (n : nat) : nat := ((n + 7) / 8)%nat.

Fixpoint chunks8 (n : nat) (bits : list bool) : bytes :=
  match n with
  | O => []
  | S n' => byte_of_bits (take 8 bits) :: chunks8 n' (drop 8 bits)
  end.

Definition packed_bits_serialize (bv : list bool) : N * bytes :=
  (N.of_nat (length bv) mod 65536, chunks8 (div_ceil8 (length bv)) bv).

Definition packed_bits_deserialize (x : N * bytes) : option (list bool) :=
  let '(bit_count, raw_bytes) := x in
  let needed := div_ceil8 (N.to_nat bit_count) in
  if bool_decide (length raw_bytes = needed)
  then Some (take (N.to_nat bit_count) (raw_bytes ≫= bits_of_byte))
  else None.

Lemma bits_of_byte_of_bits (l : list bool) :
  length l = 8%nat -> bits_of_byte (byte_of_bits l) = l.
Proof.
  intros H. do 8 (destruct l as [|[] l]; try done); destruct l; try done; reflexivity.
Qed.

Lemma byte_of_bits_pad (l : list bool) :
  (length l <= 8)%nat -> byte_of_bits l = byte_of_bits (l ++ replicate (8 - length l) false).
Proof.
  intros H. unfold byte_of_bits. f_equal.
  do 9 (destruct l as [|? l]; [done|simpl in *]). lia.
Qed.

Lemma chunks8_unpack n (bits : list bool) :
  (length bits <= 8 * n)%nat ->
  take (length bits) (chunks8 n bits ≫= bits_of_byte) = bits.
Proof.
  revert bits. induction n as [|n IH]; intros bits Hlen; cbn [chunks8].
  - assert (length bits = 0)%nat as H0 by lia. by apply nil_length_inv in H0 as ->.
  - rewrite bind_cons. rewrite byte_of_bits_pad by (rewrite length_take; lia).
    rewrite bits_of_byte_of_bits by (rewrite length_app, length_replicate, length_take; lia).
    destruct (decide (length bits <= 8)%nat) as [Hs|Hs].
    + rewrite (take_ge bits 8) by done. rewrite <- app_assoc. by rewrite take_app_length.
    + rewrite length_take, (Nat.min_l 8) by lia. cbn [replicate]. rewrite app_nil_r.
      rewrite take_app_ge by (rewrite length_take; lia).
      rewrite length_take, (Nat.min_l 8) by lia.
      rewrite <- (take_drop 8 bits) at 4. f_equal.
      rewrite <- (length_drop bits 8). apply IH. rewrite length_drop. lia.
Qed.

Lemma length_chunks8 n bits : length (chunks8 n bits) = n.
Proof. revert bits. induction n; intros; simpl; auto. Qed.

(** The packed encoding of a signer bitmap of at most 65535 validators
    decodes to the bitmap, with no padding bit left. *)
Lemma packed_bits_roundtrip bv :
  N.of_nat (length bv) < 65536 -> packed_bits_deserialize (packed_bits_serialize bv) = Some bv.
Proof.
  intros Hlen. unfold packed_bits_deserialize, packed_bits_serialize.
  rewrite N.mod_small by lia. rewrite Nat2N.id, length_chunks8.
  rewrite bool_decide_eq_true_2 by done. f_equal. apply chunks8_unpack.
  unfold div_ceil8. pose proof (Nat.div_mod_eq (length bv + 7) 8).
  pose proof (Nat.mod_upper_bound (length bv + 7) 8). lia.
Qed.
