(* ===== verification/Signing.v ===== *)
(** * Signing domains

    The signed bytes of every consensus message:
    [crates/n42-primitives/src/consensus/h2_v4.rs] and the signing part of
    [crates/n42-consensus/src/protocol/quorum.rs] ([ConsensusSigningProfile] and
    the [*_signing_message] functions).  The theorems show that, in the native
    and the H2-v4 profile, a signature over one kind of message is never a
    signature over another one, and that the signed bytes determine every field
    they cover.  In the gov5 legacy profile proposals and votes sign the same
    bytes, but commit votes are still separated from everything else. *)

From S2P Require Import Prelude Effects Crypto Messages.

(** ** Chain-bound H2-v4 domains ([h2_v4.rs]) *)

Record H2V4ChainIdentity : Type := mkIdentity {
  chain_id : N;
  genesis_hash : B256
}.

#[export] Instance H2V4ChainIdentity_eq_dec : EqDecision H2V4ChainIdentity.
Proof. solve_decision. Defined.

Inductive H2Phase : Type := PhProposal | PhVote | PhCommit | PhTimeout | PhNewView.

Definition h2_phase_byte (p : H2Phase) : N :=
  match p with
  | PhProposal => 1
  | PhVote => 2
  | PhCommit => 3
  | PhTimeout => 4
  | PhNewView => 5
  end.

Definition h2_v4_base (identity : H2V4ChainIdentity) (phase : H2Phase) (view : N) : bytes :=
  ascii_bytes "N42H2V4" ++ [h2_phase_byte phase] ++ u64_le (chain_id identity)
    ++ b256_bytes (genesis_hash identity) ++ u64_le view.

Definition h2_v4_proposal_signing_message (identity : H2V4ChainIdentity) (view : N)
  (block_hash changes_hash : B256) : bytes :=
  h2_v4_base identity PhProposal view ++ b256_bytes block_hash ++ b256_bytes changes_hash.
Definition h2_v4_vote_signing_message (identity : H2V4ChainIdentity) (view : N)
  (block_hash : B256) : bytes :=
  h2_v4_base identity PhVote view ++ b256_bytes block_hash.
Definition h2_v4_commit_signing_message (identity : H2V4ChainIdentity) (view : N)
  (block_hash changes_hash : B256) : bytes :=
  h2_v4_base identity PhCommit view ++ b256_bytes block_hash ++ b256_bytes changes_hash.
Definition h2_v4_timeout_signing_message (identity : H2V4ChainIdentity) (view : N) : bytes :=
  h2_v4_base identity PhTimeout view.
Definition h2_v4_new_view_signing_message (identity : H2V4ChainIdentity) (view : N) : bytes :=
  h2_v4_base identity PhNewView view.

(** ** Native domains ([quorum.rs]) *)

Section digest.
Context {digest : Digest}.

Definition validator_changes_hash (validator_changes : option (list ValidatorChange)) : B256 :=
  match validator_changes with
  | Some ((_ :: _) as changes) => blake3 (bincode_changes changes)
  | _ => B256_ZERO
  end.

Definition signing_message (view : ViewNumber) (block_hash : B256) : bytes :=
  u64_le view ++ b256_bytes block_hash.

Definition proposal_signing_message (view : ViewNumber) (block_hash : B256)
  (validator_changes : option (list ValidatorChange)) : bytes :=
  u64_le view ++ b256_bytes block_hash
    ++ b256_bytes (match validator_changes with
                   | Some ((_ :: _) as changes) => blake3 (bincode_changes changes)
                   | _ => 0
                   end).

Definition commit_signing_message (view : ViewNumber) (block_hash changes_hash : B256) : bytes :=
  ascii_bytes "commit" ++ u64_le view ++ b256_bytes block_hash ++ b256_bytes changes_hash.

Definition timeout_signing_message (view : ViewNumber) : bytes :=
  ascii_bytes "timeout" ++ u64_le view.

Definition newview_signing_message (view : ViewNumber) : bytes :=
  ascii_bytes "newview" ++ u64_le view.

Definition gov5_legacy_signing_message (view : ViewNumber) (block_hash : B256) : bytes :=
  signing_message view block_hash.

Definition gov5_legacy_commit_signing_message (view : ViewNumber) (block_hash : B256) : bytes :=
  ascii_bytes "commit" ++ u64_le view ++ b256_bytes block_hash.

(** ** [ConsensusSigningProfile] *)

Inductive ConsensusSigningProfile : Type :=
| Native
| H2V4 (identity : H2V4ChainIdentity)
| Gov5Legacy.

Definition is_gov5 (profile : ConsensusSigningProfile) : bool :=
  match profile with
  | Native => false
  | H2V4 _ | Gov5Legacy => true
  end.

Definition proposal_message (profile : ConsensusSigningProfile) (view : ViewNumber)
  (block_hash : B256) (validator_changes : option (list ValidatorChange)) : bytes :=
  match profile with
  | Native => proposal_signing_message view block_hash validator_changes
  | H2V4 identity => h2_v4_proposal_signing_message identity view block_hash B256_ZERO
  | Gov5Legacy => gov5_legacy_signing_message view block_hash
  end.

Definition vote_message (profile : ConsensusSigningProfile) (view : ViewNumber)
  (block_hash : B256) : bytes :=
  match profile with
  | Native => signing_message view block_hash
  | H2V4 identity => h2_v4_vote_signing_message identity view block_hash
  | Gov5Legacy => gov5_legacy_signing_message view block_hash
  end.

Definition commit_message (profile : ConsensusSigningProfile) (view : ViewNumber)
  (block_hash changes_hash : B256) : bytes :=
  match profile with
  | Native => commit_signing_message view block_hash changes_hash
  | H2V4 identity => h2_v4_commit_signing_message identity view block_hash B256_ZERO
  | Gov5Legacy => gov5_legacy_commit_signing_message view block_hash
  end.

Definition timeout_message (profile : ConsensusSigningProfile) (view : ViewNumber) : bytes :=
  match profile with
  | Native | Gov5Legacy => timeout_signing_message view
  | H2V4 identity => h2_v4_timeout_signing_message identity view
  end.

Definition new_view_message (profile : ConsensusSigningProfile) (view : ViewNumber) : bytes :=
  match profile with
  | Native | Gov5Legacy => newview_signing_message view
  | H2V4 identity => h2_v4_new_view_signing_message identity view
  end.

Section profile_crypto.
Context {blst : Blst}.

Definition profile_sign (profile : ConsensusSigningProfile) (secret_key : BlsSecretKey)
  (message : bytes) : BlsSignature :=
  match profile with
  | Native => sign secret_key message
  | H2V4 _ | Gov5Legacy => sign_h2_v4 secret_key message
  end.

Definition verify_single (profile : ConsensusSigningProfile) (public_key : BlsPublicKey)
  (message : bytes) (signature : BlsSignature) : bool :=
  is_ok match profile with
        | Native => verify_prevalidated public_key message signature
        | H2V4 _ | Gov5Legacy => verify_h2_v4_prevalidated public_key message signature
        end.

Definition profile_batch_verify (profile : ConsensusSigningProfile) (messages : list bytes)
  (signatures : list BlsSignature) (public_keys : list BlsPublicKey) : result (list nat) unit :=
  match profile with
  | Native => batch_verify_with_fallback messages signatures public_keys
  | H2V4 _ | Gov5Legacy => batch_verify_h2_v4_with_fallback messages signatures public_keys
  end.

Definition profile_verify_aggregate (profile : ConsensusSigningProfile) (message : bytes)
  (signature : BlsSignature) (public_keys : list BlsPublicKey) : bool :=
  is_ok match profile with
        | Native => verify_aggregate message signature public_keys
        | H2V4 _ | Gov5Legacy => verify_h2_v4_aggregate message signature public_keys
        end.

(** The domain tag of a profile. *)
Definition profile_dst (profile : ConsensusSigningProfile) : bytes :=
  match profile with
  | Native => DST
  | H2V4 _ | Gov5Legacy => H2_V4_DST
  end.

Lemma profile_verify_aggregate_spec profile m s pks :
  profile_verify_aggregate profile m s pks = true <->
  blst_fast_aggregate_verify s m (profile_dst profile) pks = BLST_SUCCESS.
Proof.
  unfold profile_verify_aggregate, verify_aggregate, verify_h2_v4_aggregate.
  destruct profile; apply of_blst_ok.
Qed.
Lemma verify_single_spec profile pk m s :
  verify_single profile pk m s = true <->
  blst_verify s m (profile_dst profile) pk false = BLST_SUCCESS.
Proof.
  unfold verify_single, verify_prevalidated, verify_h2_v4_prevalidated.
  destruct profile; apply of_blst_ok.
Qed.
Lemma verify_single_signed {laws : BlstLaws blst} profile sk m :
  verify_single profile (public_key sk) m (profile_sign profile sk m) = true.
Proof.
  apply verify_single_spec. unfold profile_sign, sign, sign_h2_v4, public_key.
  destruct profile; apply sign_verifies.
Qed.
End profile_crypto.

(** ** Domain separation *)

#[local] Opaque u64_le b256_bytes.

(** What a consensus signature may be about. *)
Inductive SignedFact : Type :=
| SProposal (view : ViewNumber) (block_hash : B256) (changes : option (list ValidatorChange))
| SVote (view : ViewNumber) (block_hash : B256)
| SCommit (view : ViewNumber) (block_hash changes_hash : B256)
| STimeout (view : ViewNumber)
| SNewView (view : ViewNumber).

#[export] Instance SignedFact_eq_dec : EqDecision SignedFact.
Proof. solve_decision. Defined.

Definition fact_message (profile : ConsensusSigningProfile) (f : SignedFact) : bytes :=
  match f with
  | SProposal v h c => proposal_message profile v h c
  | SVote v h => vote_message profile v h
  | SCommit v h c => commit_message profile v h c
  | STimeout v => timeout_message profile v
  | SNewView v => new_view_message profile v
  end.

(** The fields fit their machine types. *)
Definition fact_wf (f : SignedFact) : Prop :=
  match f with
  | SProposal v h c => is_u64 v /\ is_b256 h /\ is_b256 (validator_changes_hash c)
  | SVote v h => is_u64 v /\ is_b256 h
  | SCommit v h c => is_u64 v /\ is_b256 h /\ is_b256 c
  | STimeout v | SNewView v => is_u64 v
  end.

(** Equality of two facts up to what a profile binds: the H2-v4 profile signs
    a zero changes hash, every other one the hash of the changes. *)
Definition same_fact (profile : ConsensusSigningProfile) (f g : SignedFact) : Prop :=
  match f, g with
  | SProposal v h c, SProposal v' h' c' =>
      v = v' /\ h = h' /\
      (profile = Native -> validator_changes_hash c = validator_changes_hash c')
  | SVote v h, SVote v' h' => v = v' /\ h = h'
  | SCommit v h c, SCommit v' h' c' => v = v' /\ h = h' /\ (profile = Native -> c = c')
  | STimeout v, STimeout v' => v = v'
  | SNewView v, SNewView v' => v = v'
  | _, _ => False
  end.

Lemma proposal_signing_message_eq v h c :
  proposal_signing_message v h c =
  u64_le v ++ b256_bytes h ++ b256_bytes (validator_changes_hash c).
Proof. unfold proposal_signing_message, validator_changes_hash. by destruct c as [[|]|]. Qed.

Lemma length_h2_v4_base id ph v : length (h2_v4_base id ph v) = 56%nat.
Proof. unfold h2_v4_base. by autorewrite with n42_len. Qed.

Lemma h2_v4_base_phase id ph v id' ph' v' rest rest' :
  h2_v4_base id ph v ++ rest = h2_v4_base id' ph' v' ++ rest' -> ph = ph'.
Proof.
  intros E. apply (f_equal (fun l => l !! 7%nat)) in E.
  unfold h2_v4_base in E. rewrite <- !app_assoc in E. simpl in E.
  destruct ph, ph'; simpl in E; congruence.
Qed.

Lemma h2_v4_base_inj id ph v v' :
  is_u64 v -> is_u64 v' -> h2_v4_base id ph v = h2_v4_base id ph v' -> v = v'.
Proof.
  unfold h2_v4_base. intros Hv Hv' E. repeat apply app_inv_head in E. by apply u64_le_inj.
Qed.

(** Splits an equation between concatenations of fixed-width fields. *)
Ltac split_fields :=
  repeat match goal with
  | H : ?a ++ ?c = ?b ++ ?d |- _ =>
      apply app_inj_len in H;
      [destruct H | by rewrite ?length_u64_le, ?length_b256_bytes, ?length_h2_v4_base]
  end.
Ltac inj_fields :=
  repeat match goal with
  | H : u64_le _ = u64_le _ |- _ => apply u64_le_inj in H; [|done..]
  | H : b256_bytes _ = b256_bytes _ |- _ => apply b256_bytes_inj in H; [|done..]
  | H : h2_v4_base _ _ _ = h2_v4_base _ _ _ |- _ => apply h2_v4_base_inj in H; [|done..]
  end.

Lemma native_facts_separate f g :
  fact_wf f -> fact_wf g ->
  fact_message Native f = fact_message Native g -> same_fact Native f g.
Proof.
  intros Hf Hg E.
  assert (L : length (fact_message Native f) = length (fact_message Native g)) by (by rewrite E).
  destruct f, g; cbn in L |- *;
    rewrite ?proposal_signing_message_eq in L;
    unfold signing_message, commit_signing_message, timeout_signing_message,
      newview_signing_message in L;
    autorewrite with n42_len in L; try done; clear L;
    cbn [fact_message proposal_message vote_message commit_message timeout_message
         new_view_message] in E;
    rewrite ?proposal_signing_message_eq in E;
    unfold signing_message, commit_signing_message, timeout_signing_message,
      newview_signing_message in E; try done; try apply app_inv_head in E;
    cbn in Hf, Hg; destruct_and?; split_fields; inj_fields; auto.
Qed.

Definition fact_phase (f : SignedFact) : H2Phase :=
  match f with
  | SProposal _ _ _ => PhProposal
  | SVote _ _ => PhVote
  | SCommit _ _ _ => PhCommit
  | STimeout _ => PhTimeout
  | SNewView _ => PhNewView
  end.
Definition fact_view (f : SignedFact) : ViewNumber :=
  match f with
  | SProposal v _ _ | SVote v _ | SCommit v _ _ | STimeout v | SNewView v => v
  end.
Definition fact_tail (f : SignedFact) : bytes :=
  match f with
  | SProposal _ h _ | SCommit _ h _ => b256_bytes h ++ b256_bytes B256_ZERO
  | SVote _ h => b256_bytes h
  | STimeout _ | SNewView _ => []
  end.

Lemma h2_v4_message_shape id f :
  fact_message (H2V4 id) f = h2_v4_base id (fact_phase f) (fact_view f) ++ fact_tail f.
Proof. destruct f; cbn; rewrite ?app_nil_r; reflexivity. Qed.

Lemma h2_v4_facts_separate id f g :
  fact_wf f -> fact_wf g ->
  fact_message (H2V4 id) f = fact_message (H2V4 id) g -> same_fact (H2V4 id) f g.
Proof.
  intros Hf Hg. rewrite !h2_v4_message_shape. intros E.
  pose proof (h2_v4_base_phase _ _ _ _ _ _ _ _ E) as Hph.
  apply app_inj_len in E as [Eb Et]; [|by rewrite !length_h2_v4_base].
  destruct f, g; try discriminate Hph; clear Hph; cbn in Hf, Hg |- *;
    cbn [fact_phase fact_view fact_tail] in Eb, Et;
    destruct_and?; split_fields; inj_fields; split_and?; auto; try (intros [=]).
Qed.

(** A gov5 legacy commit vote is longer than every other signed message. *)
Lemma gov5_legacy_commit_separate f v h c :
  fact_wf f -> fact_wf (SCommit v h c) ->
  fact_message Gov5Legacy f = fact_message Gov5Legacy (SCommit v h c) ->
  same_fact Gov5Legacy f (SCommit v h c).
Proof.
  intros Hf Hg E.
  assert (L : length (fact_message Gov5Legacy f) = length (fact_message Gov5Legacy (SCommit v h c)))
    by (by rewrite E).
  destruct f; cbn in L |- *;
    unfold gov5_legacy_signing_message, signing_message, gov5_legacy_commit_signing_message,
      timeout_signing_message, newview_signing_message in L;
    autorewrite with n42_len in L; try done; clear L.
  cbn [fact_message commit_message] in E. unfold gov5_legacy_commit_signing_message in E.
  apply app_inv_head in E.
  cbn in Hf, Hg; destruct_and?; split_fields; inj_fields. split_and!; [done..|by intros [=]].
Qed.

(** In every profile the bytes of a commit vote are those of no other kind of
    statement and determine its view and block. *)
Lemma commit_facts_separate profile f v h c :
  fact_wf f -> fact_wf (SCommit v h c) ->
  fact_message profile f = fact_message profile (SCommit v h c) ->
  same_fact profile f (SCommit v h c).
Proof.
  destruct profile; [apply native_facts_separate|apply h2_v4_facts_separate
                    |apply gov5_legacy_commit_separate].
Qed.

Lemma facts_separate profile f g :
  profile ≠ Gov5Legacy -> fact_wf f -> fact_wf g ->
  fact_message profile f = fact_message profile g -> same_fact profile f g.
Proof.
  destruct profile; [intros _|intros _|done];
    [apply native_facts_separate|apply h2_v4_facts_separate].
Qed.

(** C18: in the native and in the H2-v4 profile the signed bytes determine the
    kind of the signed statement, its view, its block and, in the native
    profile, its validator changes: no signature is valid for two statements. *)
Theorem signing_domains_separate profile f g :
  profile ≠ Gov5Legacy -> fact_wf f -> fact_wf g ->
  fact_message profile f = fact_message profile g -> same_fact profile f g.
Proof. apply facts_separate. Qed.
End digest.
