(* ===== verification/H2Wire.v ===== *)
(** * The wire format of cross-client consensus messages
    ([crates/n42-network/src/h2_wire.rs] and [h2_v4.rs])

    A reader takes [data] and a mutable [offset]: it is a computation over the
    offset.  A writer appends to [out]: it is a computation over [out].  Lengths
    and offsets are [usize] values counting bytes in memory, so their
    [checked_add] does not fail.

    [Signature::from_bytes] of [blst] is the class [SignatureEncoding]: whether
    ninety-six bytes are the compressed encoding of a point.  [snap] is the class
    [Snappy]. *)

From S2P Require Import Prelude Effects Crypto Messages Signing.

Class SignatureEncoding : Type := {
  signature_decodes : BlsSignature -> bool
}.

Class Snappy : Type := {
  snap_compress : bytes -> result string bytes;
  snap_decompress_len : bytes -> result string nat;
  snap_decompress : bytes -> result string bytes
}.

(** [encoder.compress_vec] and [decoder.decompress_vec] are inverse, and
    [decompress_len] reads the length of the original. *)
Class SnappyLaws (snappy : Snappy) : Prop := {
  snap_compress_ok : forall x, exists y, snap_compress x = Ok y;
  snap_roundtrip : forall x y, snap_compress x = Ok y -> snap_decompress y = Ok x;
  snap_length : forall x y, snap_compress x = Ok y -> snap_decompress_len y = Ok (length x)
}.

(** ** Data *)

Definition MAX_ENVELOPE_PAYLOAD : nat := N.to_nat 8192.
Definition MAX_SIGNATURE : nat := 256.
Definition MAX_BITMAP : nat := N.to_nat 1024.
Definition MAX_QC : nat := N.to_nat 2048.
Definition MAX_HIGH_TC : nat := N.to_nat 4096.
Definition H2_MAX_VALIDATORS : N := 4096.

Inductive H2MessageKind : Type :=
| KProposal
| KVote
| KCommitVote
| KPrepareQc
| KTimeout
| KNewView
| KDecide.

Definition kind_byte (k : H2MessageKind) : N :=
  match k with
  | KProposal => 1
  | KVote => 2
  | KCommitVote => 3
  | KPrepareQc => 4
  | KTimeout => 5
  | KNewView => 6
  | KDecide => 7
  end.

Inductive H2WireError : Type :=
| WireTruncated
| TrailingBytes
| EnvelopeTooLarge (actual max : nat)
| FieldTooLarge (actual max : nat)
| UnknownMessageKind (value : N)
| WrongMessageKind (kind : H2MessageKind)
| InvalidBlockHashLength (len : nat)
| InvalidSignatureLength (len : nat)
| WireInvalidSignature
| WireInvalidBitmap
| WireInvalidSnappy (msg : string).

Definition wresult (A : Type) : Type := result H2WireError A.

Definition kind_of_byte (value : N) : wresult H2MessageKind :=
  if value =? 1 then Ok KProposal
  else if value =? 2 then Ok KVote
  else if value =? 3 then Ok KCommitVote
  else if value =? 4 then Ok KPrepareQc
  else if value =? 5 then Ok KTimeout
  else if value =? 6 then Ok KNewView
  else if value =? 7 then Ok KDecide
  else Err (UnknownMessageKind value).

Record H2Envelope : Type := mkEnvelope {
  env_kind : H2MessageKind;
  env_payload : bytes
}.

Record H2QuorumCertificate : Type := mkH2QC {
  hq_view : N;
  hq_block_hash : B256;
  hq_aggregate_signature : bytes;
  hq_signers_bitmap : bytes
}.

Record H2TimeoutCertificate : Type := mkH2TC {
  ht_view : N;
  ht_aggregate_signature : bytes;
  ht_signers_bitmap : bytes;
  ht_high_qc : H2QuorumCertificate
}.

Record H2Proposal : Type := mkH2Proposal {
  hp_view : N;
  hp_block_hash : B256;
  hp_justify_qc : H2QuorumCertificate;
  hp_proposer : N;
  hp_signature : BlsSignature;
  hp_prepare_qc : option H2QuorumCertificate;
  hp_tx_root_hash : B256
}.

Record H2Vote : Type := mkH2Vote {
  hv_view : N;
  hv_block_hash : B256;
  hv_voter : N;
  hv_signature : BlsSignature;
  hv_high_tc : option H2TimeoutCertificate
}.

Record H2PrepareQc : Type := mkH2PrepareQc {
  hpq_view : N;
  hpq_block_hash : B256;
  hpq_qc : H2QuorumCertificate
}.

Record H2Timeout : Type := mkH2Timeout {
  hto_view : N;
  hto_high_qc : H2QuorumCertificate;
  hto_sender : N;
  hto_signature : BlsSignature;
  hto_high_tc : option H2TimeoutCertificate
}.

Record H2NewView : Type := mkH2NewView {
  hn_view : N;
  hn_timeout_certificate : H2TimeoutCertificate;
  hn_leader : N;
  hn_signature : BlsSignature
}.

Record H2Decide : Type := mkH2Decide {
  hd_view : N;
  hd_block_hash : B256;
  hd_commit_qc : H2QuorumCertificate
}.

Inductive H2Message : Type :=
| H2MProposal (value : H2Proposal)
| H2MVote (value : H2Vote)
| H2MCommitVote (value : H2Vote)
| H2MPrepareQc (value : H2PrepareQc)
| H2MTimeout (value : H2Timeout)
| H2MNewView (value : H2NewView)
| H2MDecide (value : H2Decide).

Definition message_kind (m : H2Message) : H2MessageKind :=
  match m with
  | H2MProposal _ => KProposal
  | H2MVote _ => KVote
  | H2MCommitVote _ => KCommitVote
  | H2MPrepareQc _ => KPrepareQc
  | H2MTimeout _ => KTimeout
  | H2MNewView _ => KNewView
  | H2MDecide _ => KDecide
  end.

(** ** Readers *)

Definition Reader (A : Type) : Type := bytes -> ST nat H2WireError A.

(** [data.get(from..to)] *)
Definition get_range (from to : nat) (data : bytes) : option bytes :=
  if (from <=? to)%nat && (to <=? length data)%nat
  then Some (take (to - from) (drop from data))
  else None.

Definition of_option {E A} (e : E) (o : option A) : result E A :=
  match o with Some a => Ok a | None => Err e end.

Definition lift_result {S E A} (r : result E A) : ST S E A := try_ (fun _ => r).

Definition take_bytes (data : bytes) (len : nat) : ST nat H2WireError bytes :=
  offset ← get;
  bs ← lift_result (of_option WireTruncated (get_range offset (offset + len) data));
  modify (fun _ => (offset + len)%nat) ;;
  mret bs.

Definition read_u64 (data : bytes) : ST nat H2WireError N :=
  bs ← take_bytes data 8; mret (le_value bs).
Definition read_u32 (data : bytes) : ST nat H2WireError N :=
  bs ← take_bytes data 4; mret (le_value bs).

Definition read_bytes (data : bytes) (max : nat) : wresult (bytes * nat) :=
  if (length data <? 4)%nat then Err WireTruncated
  else
    let len := N.to_nat (le_value (take 4 data)) in
    if (max <? len)%nat then Err (FieldTooLarge len max)
    else
      bs ← of_option WireTruncated (get_range 4 (4 + len) data);
      Ok (bs, (4 + len)%nat).

Definition read_bytes_at (data : bytes) (max : nat) : ST nat H2WireError bytes :=
  offset ← get;
  '(bs, consumed) ← lift_result
    (rest ← of_option WireTruncated (get_range offset (length data) data);
     read_bytes rest max);
  modify (fun _ => (offset + consumed)%nat) ;;
  mret bs.

Definition read_hash (data : bytes) : ST nat H2WireError B256 :=
  bs ← read_bytes_at data 32;
  if negb (length bs =? 32)%nat then fail (InvalidBlockHashLength (length bs))
  else mret (be_value bs).

Definition finish (data : bytes) : ST nat H2WireError unit :=
  offset ← get;
  if (offset =? length data)%nat then mret tt else fail TrailingBytes.

(** A decoder of a whole payload starts at offset zero. *)
Definition from_start {A} (m : ST nat H2WireError A) : wresult A := (m 0%nat).2.

(** ** Writers *)

Definition Writer : Type := ST bytes H2WireError unit.

Definition extend (bs : bytes) : Writer := modify (fun out => out ++ bs).

Definition put_bytes (data : bytes) : Writer :=
  if u32_max <? N.of_nat (length data) then fail (FieldTooLarge (length data) (N.to_nat u32_max))
  else
    extend (le_bytes 4 (N.of_nat (length data))) ;;
    extend data.

Definition put_limited_bytes (data : bytes) (max : nat) : Writer :=
  if (max <? length data)%nat then fail (FieldTooLarge (length data) max)
  else put_bytes data.

(** [let mut out = Vec::new(); ..; Ok(out)] *)
Definition collect (w : Writer) : wresult bytes :=
  match w [] with
  | (out, Ok _) => Ok out
  | (_, Err e) => Err e
  | (_, Panic) => Panic
  | (_, OutOfFuel) => OutOfFuel
  end.

(** ** Signer bitmaps *)

Definition used_mask (count : N) : N := N.shiftl 1 (count mod 8) - 1.

Definition validate_bitmap (bitmap : list N) : wresult unit :=
  match bitmap with
  | [] => Ok tt
  | [_] => Err WireInvalidBitmap
  | lo :: hi :: _ =>
      let count := le_value [lo; hi] in
      if (count =? 0) || (H2_MAX_VALIDATORS <? count) then Err WireInvalidBitmap
      else
        let expected := (2 + div_ceil8 (N.to_nat count))%nat in
        if negb (length bitmap =? expected)%nat then Err WireInvalidBitmap
        else if negb (count mod 8 =? 0) then
          match bitmap !! (expected - 1)%nat with
          | None => Panic
          | Some b =>
              if negb (N.ldiff b (used_mask count) =? 0) then Err WireInvalidBitmap else Ok tt
          end
        else Ok tt
  end.

Section codec.
Context {enc : SignatureEncoding}.

Definition signature_bytes (s : BlsSignature) : bytes := be_bytes 96 s.

Definition signature_from_bytes (bs : bytes) : option BlsSignature :=
  let s := be_value bs in if signature_decodes s then Some s else None.

Definition read_signature (data : bytes) : ST nat H2WireError BlsSignature :=
  bs ← read_bytes_at data MAX_SIGNATURE;
  if negb (length bs =? 96)%nat then fail (InvalidSignatureLength (length bs))
  else lift_result (of_option WireInvalidSignature (signature_from_bytes bs)).

Definition put_signature (signature : BlsSignature) : Writer :=
  put_limited_bytes (signature_bytes signature) MAX_SIGNATURE.

(** ** Certificates *)

Definition decode_qc (data : bytes) : wresult H2QuorumCertificate :=
  from_start (
    view ← read_u64 data;
    block_hash ← read_hash data;
    aggregate_signature ← read_bytes_at data MAX_SIGNATURE;
    signers_bitmap ← read_bytes_at data MAX_BITMAP;
    _ ← lift_result (validate_bitmap signers_bitmap);
    _ ← finish data;
    mret (mkH2QC view block_hash aggregate_signature signers_bitmap)).

Definition encode_qc (value : H2QuorumCertificate) : wresult bytes :=
  _ ← validate_bitmap (hq_signers_bitmap value);
  collect (
    extend (u64_le (hq_view value)) ;;
    put_limited_bytes (b256_bytes (hq_block_hash value)) 32 ;;
    put_limited_bytes (hq_aggregate_signature value) MAX_SIGNATURE ;;
    put_limited_bytes (hq_signers_bitmap value) MAX_BITMAP).

Definition decode_tc (data : bytes) : wresult H2TimeoutCertificate :=
  from_start (
    view ← read_u64 data;
    aggregate_signature ← read_bytes_at data MAX_SIGNATURE;
    signers_bitmap ← read_bytes_at data MAX_BITMAP;
    _ ← lift_result (validate_bitmap signers_bitmap);
    qc ← read_bytes_at data MAX_QC;
    high_qc ← lift_result (decode_qc qc);
    _ ← finish data;
    mret (mkH2TC view aggregate_signature signers_bitmap high_qc)).

Definition encode_tc (value : H2TimeoutCertificate) : wresult bytes :=
  _ ← validate_bitmap (ht_signers_bitmap value);
  high_qc ← encode_qc (ht_high_qc value);
  collect (
    extend (u64_le (ht_view value)) ;;
    put_limited_bytes (ht_aggregate_signature value) MAX_SIGNATURE ;;
    put_limited_bytes (ht_signers_bitmap value) MAX_BITMAP ;;
    put_limited_bytes high_qc MAX_QC).

Definition decode_optional_tc (data : bytes) : wresult (option H2TimeoutCertificate) :=
  match data with
  | [] => Ok None
  | _ => tc ← decode_tc data; Ok (Some tc)
  end.

Definition encode_high_tc (value : H2TimeoutCertificate) : wresult bytes :=
  encoded ← encode_tc value;
  if (MAX_HIGH_TC <? length encoded)%nat then Err (FieldTooLarge (length encoded) MAX_HIGH_TC)
  else Ok encoded.

(** [value.as_ref().map(encode).transpose()?] followed by
    [as_deref().unwrap_or_default()]. *)
Definition encode_optional {A} (f : A -> wresult bytes) (value : option A) : wresult bytes :=
  match value with
  | None => Ok []
  | Some a => f a
  end.

(** ** Messages *)

Definition decode_proposal (data : bytes) : wresult H2Proposal :=
  from_start (
    view ← read_u64 data;
    block_hash ← read_hash data;
    qc ← read_bytes_at data MAX_QC;
    justify_qc ← lift_result (decode_qc qc);
    proposer ← read_u32 data;
    signature ← read_signature data;
    prepare_qc_bytes ← read_bytes_at data MAX_QC;
    prepare_qc ← lift_result match prepare_qc_bytes with
                             | [] => Ok None
                             | _ => qc ← decode_qc prepare_qc_bytes; Ok (Some qc)
                             end;
    tx_root_hash ← read_hash data;
    _ ← finish data;
    mret (mkH2Proposal view block_hash justify_qc proposer signature prepare_qc tx_root_hash)).

Definition encode_proposal (value : H2Proposal) : wresult bytes :=
  justify_qc ← encode_qc (hp_justify_qc value);
  prepare_qc ← encode_optional encode_qc (hp_prepare_qc value);
  collect (
    extend (u64_le (hp_view value)) ;;
    put_limited_bytes (b256_bytes (hp_block_hash value)) 32 ;;
    put_limited_bytes justify_qc MAX_QC ;;
    extend (le_bytes 4 (hp_proposer value)) ;;
    put_signature (hp_signature value) ;;
    put_limited_bytes prepare_qc MAX_QC ;;
    put_limited_bytes (b256_bytes (hp_tx_root_hash value)) 32).

(** The optional trailing certificate of a vote or a timeout: older messages
    end before it. *)
Definition read_optional_tc (data : bytes) : ST nat H2WireError (option H2TimeoutCertificate) :=
  offset ← get;
  if (offset =? length data)%nat then mret None
  else
    bs ← read_bytes_at data MAX_HIGH_TC;
    lift_result (decode_optional_tc bs).

Definition decode_vote_payload (data : bytes) : wresult H2Vote :=
  from_start (
    view ← read_u64 data;
    block_hash ← read_hash data;
    voter ← read_u32 data;
    signature ← read_signature data;
    high_tc ← read_optional_tc data;
    _ ← finish data;
    mret (mkH2Vote view block_hash voter signature high_tc)).

Definition encode_vote_payload (value : H2Vote) : wresult bytes :=
  high_tc ← encode_optional encode_high_tc (hv_high_tc value);
  collect (
    extend (u64_le (hv_view value)) ;;
    put_limited_bytes (b256_bytes (hv_block_hash value)) 32 ;;
    extend (le_bytes 4 (hv_voter value)) ;;
    put_signature (hv_signature value) ;;
    put_limited_bytes high_tc MAX_HIGH_TC).

Definition decode_prepare_qc (data : bytes) : wresult H2PrepareQc :=
  from_start (
    view ← read_u64 data;
    block_hash ← read_hash data;
    bs ← read_bytes_at data MAX_QC;
    qc ← lift_result (decode_qc bs);
    _ ← finish data;
    mret (mkH2PrepareQc view block_hash qc)).

Definition encode_prepare_qc (value : H2PrepareQc) : wresult bytes :=
  qc ← encode_qc (hpq_qc value);
  collect (
    extend (u64_le (hpq_view value)) ;;
    put_limited_bytes (b256_bytes (hpq_block_hash value)) 32 ;;
    put_limited_bytes qc MAX_QC).

Definition decode_timeout (data : bytes) : wresult H2Timeout :=
  from_start (
    view ← read_u64 data;
    bs ← read_bytes_at data MAX_QC;
    high_qc ← lift_result (decode_qc bs);
    sender ← read_u32 data;
    signature ← read_signature data;
    high_tc ← read_optional_tc data;
    _ ← finish data;
    mret (mkH2Timeout view high_qc sender signature high_tc)).

Definition encode_timeout (value : H2Timeout) : wresult bytes :=
  high_qc ← encode_qc (hto_high_qc value);
  high_tc ← encode_optional encode_high_tc (hto_high_tc value);
  collect (
    extend (u64_le (hto_view value)) ;;
    put_limited_bytes high_qc MAX_QC ;;
    extend (le_bytes 4 (hto_sender value)) ;;
    put_signature (hto_signature value) ;;
    put_limited_bytes high_tc MAX_HIGH_TC).

Definition decode_new_view (data : bytes) : wresult H2NewView :=
  from_start (
    view ← read_u64 data;
    bs ← read_bytes_at data MAX_HIGH_TC;
    timeout_certificate ← lift_result (decode_tc bs);
    leader ← read_u32 data;
    signature ← read_signature data;
    _ ← finish data;
    mret (mkH2NewView view timeout_certificate leader signature)).

Definition encode_new_view (value : H2NewView) : wresult bytes :=
  tc ← encode_high_tc (hn_timeout_certificate value);
  collect (
    extend (u64_le (hn_view value)) ;;
    put_limited_bytes tc MAX_HIGH_TC ;;
    extend (le_bytes 4 (hn_leader value)) ;;
    put_signature (hn_signature value)).

Definition decode_decide (data : bytes) : wresult H2Decide :=
  from_start (
    view ← read_u64 data;
    block_hash ← read_hash data;
    bs ← read_bytes_at data MAX_QC;
    commit_qc ← lift_result (decode_qc bs);
    _ ← finish data;
    mret (mkH2Decide view block_hash commit_qc)).

Definition encode_decide (value : H2Decide) : wresult bytes :=
  qc ← encode_qc (hd_commit_qc value);
  collect (
    extend (u64_le (hd_view value)) ;;
    put_limited_bytes (b256_bytes (hd_block_hash value)) 32 ;;
    put_limited_bytes qc MAX_QC).

Definition decode_envelope (data : bytes) : wresult H2Envelope :=
  match data with
  | [] => Err WireTruncated
  | kind :: rest =>
      '(payload, consumed) ← read_bytes rest MAX_ENVELOPE_PAYLOAD;
      if negb (consumed =? length rest)%nat then Err TrailingBytes
      else
        kind ← kind_of_byte kind;
        Ok (mkEnvelope kind payload)
  end.

Definition encode_envelope (kind : H2MessageKind) (payload : bytes) : wresult bytes :=
  if (MAX_ENVELOPE_PAYLOAD <? length payload)%nat
  then Err (EnvelopeTooLarge (length payload) MAX_ENVELOPE_PAYLOAD)
  else
    collect (
      extend [kind_byte kind] ;;
      put_bytes payload).

Definition decode_message (data : bytes) : wresult H2Message :=
  envelope ← decode_envelope data;
  let payload := env_payload envelope in
  match env_kind envelope with
  | KProposal => value ← decode_proposal payload; Ok (H2MProposal value)
  | KVote => value ← decode_vote_payload payload; Ok (H2MVote value)
  | KCommitVote => value ← decode_vote_payload payload; Ok (H2MCommitVote value)
  | KPrepareQc => value ← decode_prepare_qc payload; Ok (H2MPrepareQc value)
  | KTimeout => value ← decode_timeout payload; Ok (H2MTimeout value)
  | KNewView => value ← decode_new_view payload; Ok (H2MNewView value)
  | KDecide => value ← decode_decide payload; Ok (H2MDecide value)
  end.

Definition encode_message (message : H2Message) : wresult bytes :=
  payload ← match message with
            | H2MProposal value => encode_proposal value
            | H2MVote value | H2MCommitVote value => encode_vote_payload value
            | H2MPrepareQc value => encode_prepare_qc value
            | H2MTimeout value => encode_timeout value
            | H2MNewView value => encode_new_view value
            | H2MDecide value => encode_decide value
            end;
  encode_envelope (message_kind message) payload.

Definition decode_vote (data : bytes) : wresult H2Vote :=
  message ← decode_message data;
  match message with
  | H2MVote vote => Ok vote
  | other => Err (WrongMessageKind (message_kind other))
  end.

Definition encode_vote (vote : H2Vote) : wresult bytes := encode_message (H2MVote vote).

(** ** Gossip *)

Definition map_err {E F A} (f : E -> F) (r : result E A) : result F A :=
  match r with
  | Ok a => Ok a
  | Err e => Err (f e)
  | Panic => Panic
  | OutOfFuel => OutOfFuel
  end.

Context {snappy : Snappy}.

Definition decode_gov5_gossip_message (data : bytes) : wresult H2Message :=
  decoded_len ← map_err WireInvalidSnappy (snap_decompress_len data);
  if (MAX_ENVELOPE_PAYLOAD + 5 <? decoded_len)%nat
  then Err (EnvelopeTooLarge decoded_len (MAX_ENVELOPE_PAYLOAD + 5))
  else
    decoded ← map_err WireInvalidSnappy (snap_decompress data);
    decode_message decoded.

Definition encode_gov5_gossip_message (message : H2Message) : wresult bytes :=
  encoded ← encode_message message;
  map_err WireInvalidSnappy (snap_compress encoded).

(** ** The chain-bound envelope ([h2_v4.rs]) *)

Definition PREFIX : bytes := ascii_bytes "N42H2V4".
Definition MAX_WIRE_SIZE : nat := N.to_nat 8192.
Definition HEADER_SIZE : nat := 7 + 8 + 32 + 32 + 4.

Record H2V4Envelope : Type := mkH2V4Envelope {
  v4_identity : H2V4ChainIdentity;
  v4_changes_hash : B256;
  v4_message : H2Message
}.

Inductive H2V4Error : Type :=
| V4Truncated
| InvalidMagic
| ChainIdentityMismatch
| InvalidLength
| V4InvalidSnappy (msg : string)
| NonCanonicalPayload
| Wire (e : H2WireError).

Definition h2_v4_encode_envelope (envelope : H2V4Envelope) : result H2V4Error bytes :=
  wire ← map_err Wire (encode_message (v4_message envelope));
  if (MAX_WIRE_SIZE <? length wire)%nat then Err InvalidLength
  else Ok (PREFIX ++ u64_le (chain_id (v4_identity envelope))
             ++ b256_bytes (genesis_hash (v4_identity envelope))
             ++ b256_bytes (v4_changes_hash envelope)
             ++ le_bytes 4 (N.of_nat (length wire)) ++ wire).

(** [&data[from..to]] for a range that was checked. *)
Definition range (from to : nat) (data : bytes) : bytes := take (to - from) (drop from data).

Definition h2_v4_decode_envelope (data : bytes) (expected : H2V4ChainIdentity)
  : result H2V4Error H2V4Envelope :=
  if (length data <? HEADER_SIZE)%nat then Err V4Truncated
  else if negb (bool_decide (range 0 7 data = PREFIX)) then Err InvalidMagic
  else
    let chain_id := le_value (range 7 15 data) in
    let genesis_hash := be_value (range 15 47 data) in
    let identity := mkIdentity chain_id genesis_hash in
    if negb (bool_decide (identity = expected)) then Err ChainIdentityMismatch
    else
      let changes_hash := be_value (range 47 79 data) in
      let wire_len := N.to_nat (le_value (range 79 83 data)) in
      if (MAX_WIRE_SIZE <? wire_len)%nat || negb (wire_len =? length data - HEADER_SIZE)%nat
      then Err InvalidLength
      else
        let wire := drop HEADER_SIZE data in
        message ← map_err Wire (decode_message wire);
        canonical ← map_err Wire (encode_message message);
        if negb (bool_decide (canonical = wire)) then Err NonCanonicalPayload
        else Ok (mkH2V4Envelope identity changes_hash message).

Definition encode_gossip (envelope : H2V4Envelope) : result H2V4Error bytes :=
  wire ← h2_v4_encode_envelope envelope;
  map_err V4InvalidSnappy (snap_compress wire).

Definition decode_gossip (data : bytes) (expected : H2V4ChainIdentity)
  : result H2V4Error H2V4Envelope :=
  len ← map_err V4InvalidSnappy (snap_decompress_len data);
  if (HEADER_SIZE + MAX_WIRE_SIZE <? len)%nat then Err InvalidLength
  else
    wire ← map_err V4InvalidSnappy (snap_decompress data);
    h2_v4_decode_envelope wire expected.
End codec.
