(* ===== verification/H2WireTheory.v ===== *)
(** * Every cross-client message has one encoding

    [Codec d P w]: the reader [d] reads exactly the bytes [w a], for the values
    [a] of [P].  [Exact dec P w] says the same of a decoder of a whole payload.
    The decoders of [H2Wire] are sequences of such readers, so each accepts
    exactly the bytes its encoder writes; votes and timeouts of older peers, which
    end before the optional certificate, are the one exception, and the
    chain-bound envelope rejects them. *)

From S2P Require Import Prelude Effects Crypto Messages Signing H2Wire.

Definition no_panic {E A} (r : outcome E A) : Prop :=
  match r with
  | Ok _ | Err _ => True
  | Panic | OutOfFuel => False
  end.

Lemma no_panic_bind {E A B} (r : result E A) (k : A -> result E B) :
  no_panic r -> (forall a, no_panic (k a)) -> no_panic (r ≫= k).
Proof. destruct r; simpl; auto. Qed.

Lemma no_panic_st_bind {S E A B} (m : ST S E A) (k : A -> ST S E B) s :
  (forall s, no_panic (m s).2) -> (forall a s, no_panic (k a s).2) -> no_panic ((m ≫= k) s).2.
Proof.
  intros Hm Hk. unfold mbind, st_bind. specialize (Hm s).
  destruct (m s) as [s' []]; simpl in *; auto.
Qed.

Lemma no_panic_map_err {E F A} (f : E -> F) (r : result E A) :
  no_panic r -> no_panic (map_err f r).
Proof. by destruct r. Qed.

Lemma no_panic_cases {E A} (r : outcome E A) :
  no_panic r -> (exists a, r = Ok a) \/ (exists e, r = Err e).
Proof. destruct r; naive_solver. Qed.

(** The run of a bind ended well: so did its first part. *)
Lemma bind_ok_inv {E A B} (r : result E A) (k : A -> result E B) b :
  r ≫= k = Ok b -> exists a, r = Ok a /\ k a = Ok b.
Proof. destruct r; simpl; naive_solver. Qed.

Lemma st_bind_ok_inv {S E A B} (m : ST S E A) (k : A -> ST S E B) s s' b :
  (m ≫= k) s = (s', Ok b) -> exists s1 a, m s = (s1, Ok a) /\ k a s1 = (s', Ok b).
Proof. unfold mbind, st_bind. destruct (m s) as [s1 []]; naive_solver. Qed.

(** ** Readers that read one encoding *)

Record Codec {A} (d : Reader A) (P : A -> Prop) (w : A -> bytes) : Prop := {
  codec_reads : forall pre a post,
    P a -> d (pre ++ w a ++ post) (length pre) = (length (pre ++ w a), Ok a);
  codec_only : forall pre rest o a,
    is_bytes rest -> d (pre ++ rest) (length pre) = (o, Ok a) ->
    P a /\ exists post, rest = w a ++ post /\ o = length (pre ++ w a);
  codec_np : forall data o, no_panic (d data o).2
}.

Record Exact {A} (dec : bytes -> wresult A) (P : A -> Prop) (w : A -> bytes) : Prop := {
  exact_reads : forall a, P a -> dec (w a) = Ok a;
  exact_only : forall data a, is_bytes data -> dec data = Ok a -> P a /\ data = w a;
  exact_bytes : forall a, P a -> is_bytes (w a);
  exact_np : forall data, no_panic (dec data)
}.

Lemma get_range_at (pre bs post : bytes) :
  get_range (length pre) (length pre + length bs) (pre ++ bs ++ post) = Some bs.
Proof.
  unfold get_range. rewrite !length_app.
  rewrite (proj2 (Nat.leb_le _ _)) by lia. rewrite (proj2 (Nat.leb_le _ _)) by lia. simpl.
  rewrite drop_app_length. replace (_ - _)%nat with (length bs) by lia. by rewrite take_app_length.
Qed.

Lemma get_range_only (pre rest bs : bytes) n :
  get_range (length pre) (length pre + n) (pre ++ rest) = Some bs ->
  length bs = n /\ exists post, rest = bs ++ post.
Proof.
  unfold get_range. rewrite length_app. intros H.
  destruct ((_ <=? _)%nat && (_ <=? _)%nat) eqn:E; [|done]. bool_simpl. simplify_eq.
  rewrite drop_app_length. replace (_ - _)%nat with n by lia. split.
  - rewrite length_take. lia.
  - exists (drop n rest). by rewrite take_drop.
Qed.

Lemma take_bytes_reads (pre bs post : bytes) :
  take_bytes (pre ++ bs ++ post) (length bs) (length pre) = (length (pre ++ bs), Ok bs).
Proof.
  unfold take_bytes. rewrite bind_state. unfold lift_result. erewrite bind_ok; cycle 1.
  { unfold try_. by rewrite get_range_at. }
  by rewrite length_app.
Qed.

Lemma take_bytes_only (pre rest bs : bytes) n o :
  take_bytes (pre ++ rest) n (length pre) = (o, Ok bs) ->
  length bs = n /\ exists post, rest = bs ++ post /\ o = length (pre ++ bs).
Proof.
  unfold take_bytes. rewrite bind_state. unfold lift_result, try_, mbind, st_bind.
  destruct (get_range _ _ _) as [bs'|] eqn:E; simpl; [|done]. intros [= <- ->].
  apply get_range_only in E as [Hl [post ->]]. split; [done|]. exists post. split; [done|].
  rewrite length_app. lia.
Qed.

Lemma take_bytes_np data n o : no_panic (take_bytes data n o).2.
Proof.
  unfold take_bytes, lift_result, try_, mbind, st_bind, get, modify.
  by destruct (get_range _ _ _).
Qed.

(** A fixed-width integer. *)
Lemma int_codec n :
  Codec (fun data => bs ← take_bytes data n; mret (le_value bs))
    (fun x => x < 256 ^ N.of_nat n) (le_bytes n).
Proof.
  split.
  - intros pre x post Hx. erewrite bind_ok; cycle 1.
    { pose proof (take_bytes_reads pre (le_bytes n x) post) as H.
      rewrite (length_le_bytes n x) in H. exact H. }
    by rewrite le_value_le_bytes.
  - intros pre rest o x Hb H. apply st_bind_ok_inv in H as (o1 & bs & H & E).
    unfold mret, st_ret in E. simplify_eq.
    apply take_bytes_only in H as [Hl [post [-> ->]]]. apply is_bytes_app in Hb as [Hb _].
    rewrite <- Hl. rewrite le_bytes_le_value by done. split; [by apply le_value_lt|eauto].
  - intros data o. apply no_panic_st_bind; [intros; apply take_bytes_np|done].
Qed.

Definition u64_codec : Codec read_u64 is_u64 u64_le := int_codec 8.
Definition u32_codec : Codec read_u32 (fun x => x < 256 ^ 4) (le_bytes 4) := int_codec 4.

(** A length-prefixed field. *)
Definition field (bs : bytes) : bytes := le_bytes 4 (N.of_nat (length bs)) ++ bs.

Lemma length_field bs : length (field bs) = (4 + length bs)%nat.
Proof. unfold field. by rewrite length_app, length_le_bytes. Qed.

Lemma is_bytes_field bs : is_bytes bs -> is_bytes (field bs).
Proof. intros H. apply is_bytes_app. split; [apply is_bytes_le_bytes|done]. Qed.

Lemma read_bytes_reads bs post max :
  (length bs <= max)%nat -> N.of_nat max <= u32_max ->
  read_bytes (field bs ++ post) max = Ok (bs, (4 + length bs)%nat).
Proof.
  intros Hl Hm. unfold read_bytes. rewrite length_app, length_field.
  rewrite (proj2 (Nat.ltb_ge _ _)) by lia. unfold field. rewrite <- app_assoc.
  rewrite (take_app_length' (le_bytes 4 _)) by (by rewrite length_le_bytes).
  rewrite le_value_le_bytes by (unfold u32_max in *; lia). rewrite Nat2N.id.
  rewrite (proj2 (Nat.ltb_ge _ _)) by lia.
  assert (E : get_range 4 (4 + length bs) (le_bytes 4 (N.of_nat (length bs)) ++ bs ++ post)
              = Some bs).
  { pose proof (get_range_at (le_bytes 4 (N.of_nat (length bs))) bs post) as G.
    by rewrite length_le_bytes in G. }
  by rewrite E.
Qed.

Lemma read_bytes_only data max bs n :
  is_bytes data -> read_bytes data max = Ok (bs, n) ->
  is_bytes bs /\ (length bs <= max)%nat /\ n = length (field bs) /\
  exists post, data = field bs ++ post.
Proof.
  intros Hb. unfold read_bytes. destruct (length data <? 4)%nat eqn:E1; [done|]. bool_simpl.
  set (len := N.to_nat (le_value (take 4 data))).
  destruct (max <? len)%nat eqn:E2; [done|]. bool_simpl. intros H.
  apply bind_ok_inv in H as (bs' & H & E). simplify_eq.
  rewrite <- (take_drop 4 data) in Hb, H |- *. apply is_bytes_app in Hb as [Hh Hd].
  assert (L4 : length (take 4 data) = 4%nat) by (rewrite length_take; lia).
  destruct (get_range _ _ _) as [x|] eqn:G; simpl in H; simplify_eq.
  pose proof (get_range_only (take 4 data) (drop 4 data) bs len) as K. rewrite L4 in K.
  destruct (K G) as [Hl [post Ed]]. rewrite Ed in Hd |- *.
  apply is_bytes_app in Hd as [Hd _]. split_and!; [done|lia|rewrite length_field; lia|].
  exists post. rewrite app_assoc. f_equal. unfold field. f_equal.
  rewrite Hl. subst len. rewrite N2Nat.id. rewrite <- L4 at 2. by rewrite le_bytes_le_value.
Qed.

Lemma read_bytes_np data max : no_panic (read_bytes data max).
Proof.
  unfold read_bytes. destruct (_ <? _)%nat; [done|]. destruct (_ <? _)%nat; [done|].
  apply no_panic_bind; [|done]. by destruct (get_range _ _ _).
Qed.

Lemma get_range_rest (pre rest : bytes) :
  get_range (length pre) (length (pre ++ rest)) (pre ++ rest) = Some rest.
Proof.
  pose proof (get_range_at pre rest []) as H. rewrite app_nil_r in H.
  by rewrite length_app.
Qed.

Lemma field_codec max :
  N.of_nat max <= u32_max ->
  Codec (fun data => read_bytes_at data max)
    (fun bs => is_bytes bs /\ (length bs <= max)%nat) field.
Proof.
  intros Hm. split.
  - intros pre bs post [Hb Hl]. unfold read_bytes_at. rewrite bind_state.
    erewrite bind_ok; cycle 1.
    { unfold lift_result, try_. rewrite get_range_rest.
      cbn [of_option mbind result_bind outcome_bind].
      by rewrite (read_bytes_reads bs post max). }
    unfold mbind, st_bind, modify, mret, st_ret. simpl. f_equal.
    rewrite length_app, length_field. lia.
  - intros pre rest o bs Hb H. unfold read_bytes_at in H. rewrite bind_state in H.
    apply st_bind_ok_inv in H as (o1 & [bs' n] & H & E).
    unfold lift_result, try_ in H. rewrite get_range_rest in H. simpl in H.
    injection H as <- H. injection E as <- ->.
    destruct (read_bytes_only _ _ _ _ Hb H) as (Hbs & Hl & -> & post & ->).
    split; [done|]. exists post. split; [done|]. rewrite length_app. lia.
  - intros data o. unfold read_bytes_at. apply no_panic_st_bind; [done|]. intros a s.
    apply no_panic_st_bind; [|by intros [] ?]. intros s'. unfold lift_result, try_. simpl.
    apply no_panic_bind; [by destruct (get_range _ _ _)|]. intros. apply read_bytes_np.
Qed.

(** A field whose content has one encoding. *)
Lemma nested_codec {A} max (dec : bytes -> wresult A) P w :
  N.of_nat max <= u32_max -> Exact dec P w -> (forall a, P a -> (length (w a) <= max)%nat) ->
  Codec (fun data => bs ← read_bytes_at data max; lift_result (dec bs)) P (fun a => field (w a)).
Proof.
  intros Hm Hd Hl. destruct (field_codec max Hm) as [F1 F2 F3]. split.
  - intros pre a post Ha. erewrite bind_ok; cycle 1.
    { apply F1. split; [by eapply exact_bytes|auto]. }
    unfold lift_result, try_. by rewrite (exact_reads _ _ _ Hd).
  - intros pre rest o a Hb H. apply st_bind_ok_inv in H as (o1 & bs & H & E).
    apply F2 in H as ([Hbs Hlen] & post & -> & ->); [|done].
    unfold lift_result, try_ in E. injection E as <- E.
    apply (exact_only _ _ _ Hd) in E as [Ha ->]; [|done]. eauto.
  - intros data o. apply no_panic_st_bind; [auto|]. intros a s.
    unfold lift_result, try_. simpl. apply (exact_np _ _ _ Hd).
Qed.

(** A reader followed by a check of what it read. *)
Lemma checked_codec {A B} (d : Reader A) P w (f : A -> wresult B) (Q : B -> Prop) (v : B -> A) :
  Codec d P w ->
  (forall b, Q b -> P (v b) /\ f (v b) = Ok b) ->
  (forall a b, P a -> f a = Ok b -> Q b /\ v b = a) ->
  (forall a, no_panic (f a)) ->
  Codec (fun data => a ← d data; lift_result (f a)) Q (fun b => w (v b)).
Proof.
  intros [C1 C2 C3] Hr Ho Hn. split.
  - intros pre b post Hb. destruct (Hr b Hb) as [HP E].
    erewrite bind_ok; [|by apply C1]. unfold lift_result, try_. by rewrite E.
  - intros pre rest o b Hb H. apply st_bind_ok_inv in H as (o1 & a & H & E).
    apply C2 in H as (Ha & post & -> & ->); [|done].
    unfold lift_result, try_ in E. injection E as <- E.
    destruct (Ho _ _ Ha E) as [HQ ->]. eauto.
  - intros data o. apply no_panic_st_bind; [auto|]. intros a s. apply Hn.
Qed.

Lemma codec_ext {A} (d d' : Reader A) P w :
  (forall data o, d data o = d' data o) -> Codec d P w -> Codec d' P w.
Proof.
  intros E [C1 C2 C3]. split; intros *; rewrite <- ?E; auto.
Qed.

Lemma hash_codec : Codec read_hash is_b256 (fun h => field (b256_bytes h)).
Proof.
  eapply codec_ext; cycle 1.
  { apply (checked_codec (fun data => read_bytes_at data 32) _ field
      (fun bs => if negb (length bs =? 32)%nat then Err (InvalidBlockHashLength (length bs))
                 else Ok (be_value bs)) is_b256 b256_bytes (field_codec 32 ltac:(done))).
    - intros h Hh. rewrite length_b256_bytes. split; [split; [apply is_bytes_be_bytes|lia]|].
      simpl. f_equal. by apply (be_value_be_bytes 32).
    - intros bs h [Hb _]. destruct (length bs =? 32)%nat eqn:E; simpl; [|done].
      intros [= <-]. apply Nat.eqb_eq in E. pose proof (be_value_lt bs Hb) as Hlt.
      rewrite E in Hlt. split; [exact Hlt|]. unfold b256_bytes. rewrite <- E.
      by apply be_bytes_be_value.
    - intros bs. by destruct (negb _). }
  intros data o. unfold read_hash, mbind, st_bind.
  destruct (read_bytes_at data 32 o) as [o' [bs| | |]]; try done. by destruct (negb _).
Qed.

Section theory.
Context {enc : SignatureEncoding}.

(** The values of [BlsSignature]: the encodings of points. *)
Definition is_signature (s : BlsSignature) : Prop :=
  s < 256 ^ 96 /\ signature_decodes s = true.

Lemma length_signature_bytes s : length (signature_bytes s) = 96%nat.
Proof. apply length_be_bytes. Qed.

Lemma signature_codec : Codec read_signature is_signature (fun s => field (signature_bytes s)).
Proof.
  eapply codec_ext; cycle 1.
  { apply (checked_codec (fun data => read_bytes_at data MAX_SIGNATURE) _ field
      (fun bs => if negb (length bs =? 96)%nat then Err (InvalidSignatureLength (length bs))
                 else of_option WireInvalidSignature (signature_from_bytes bs))
      is_signature signature_bytes (field_codec MAX_SIGNATURE ltac:(done))).
    - intros s [Hs Hd]. rewrite length_signature_bytes.
      split; [split; [apply is_bytes_be_bytes|unfold MAX_SIGNATURE; lia]|].
      cbn [Nat.eqb negb]. unfold signature_from_bytes, signature_bytes.
      rewrite (be_value_be_bytes 96) by exact Hs. by rewrite Hd.
    - intros bs s [Hb _]. destruct (length bs =? 96)%nat eqn:E; simpl; [|done].
      unfold signature_from_bytes. destruct (signature_decodes _) eqn:Ed; simpl; [|done].
      intros [= <-]. apply Nat.eqb_eq in E. pose proof (be_value_lt bs Hb) as Hlt.
      rewrite E in Hlt. split; [by split|]. unfold signature_bytes. rewrite <- E.
      by apply be_bytes_be_value.
    - intros bs. destruct (negb _); [done|]. by destruct (signature_from_bytes bs). }
  intros data o. unfold read_signature, mbind, st_bind.
  destruct (read_bytes_at data MAX_SIGNATURE o) as [o' [bs| | |]]; try done. by destruct (negb _).
Qed.

(** ** Signer bitmaps *)

Lemma validate_bitmap_np bm : no_panic (validate_bitmap bm).
Proof.
  destruct bm as [|lo [|hi rest]]; try done. cbn [validate_bitmap].
  destruct (_ || _)%bool; [done|]. destruct (length _ =? _)%nat eqn:E; simpl; [|done].
  destruct (negb _); [|done]. apply Nat.eqb_eq in E.
  destruct (_ !! _) as [b|] eqn:El.
  - by destruct (negb _).
  - apply lookup_ge_None in El. simpl in *. lia.
Qed.

Lemma validate_bitmap_length bm :
  validate_bitmap bm = Ok tt -> (length bm <= 514)%nat.
Proof.
  destruct bm as [|lo [|hi rest]]; [simpl; lia|done|]. cbn [validate_bitmap].
  set (count := le_value _). destruct (_ || _)%bool eqn:Ec; [done|]. bool_simpl.
  destruct (length _ =? _)%nat eqn:E; simpl; [|done]. apply Nat.eqb_eq in E. intros _.
  simpl in *. unfold div_ceil8, H2_MAX_VALIDATORS in *.
  assert (N.to_nat count + 7 < 8 * 513)%nat by lia.
  assert ((N.to_nat count + 7) / 8 < 513)%nat by (apply Nat.Div0.div_lt_upper_bound; lia). lia.
Qed.

Lemma bitmap_codec :
  Codec (fun data => bs ← read_bytes_at data MAX_BITMAP; lift_result (_ ← validate_bitmap bs; Ok bs))
    (fun bs => is_bytes bs /\ validate_bitmap bs = Ok tt) field.
Proof.
  apply (checked_codec _ _ field (fun bs => _ ← validate_bitmap bs; Ok bs) _ id
           (field_codec MAX_BITMAP ltac:(done))).
  - intros bs [Hb Hv]. unfold id. rewrite Hv. split; [|done]. split; [done|].
    apply validate_bitmap_length in Hv. unfold MAX_BITMAP. lia.
  - intros bs b [Hb _] H. apply bind_ok_inv in H as ([] & Hv & [= <-]). done.
  - intros bs. apply no_panic_bind; [apply validate_bitmap_np|done].
Qed.

(** ** Sequences of readers *)

Lemma step_reads {A B} {d : Reader A} {P w} (C : Codec d P w) (k : A -> ST nat H2WireError B)
  data pre a post r :
  data = pre ++ w a ++ post -> P a ->
  k a (length (pre ++ w a)) = r -> (d data ≫= k) (length pre) = r.
Proof. intros -> Ha <-. erewrite bind_ok; [done|]. by apply (codec_reads _ _ _ C). Qed.

Lemma step_only {A B} {d : Reader A} {P w} (C : Codec d P w) (k : A -> ST nat H2WireError B)
  data pre rest o b :
  data = pre ++ rest -> is_bytes rest -> (d data ≫= k) (length pre) = (o, Ok b) ->
  exists a post, P a /\ rest = w a ++ post /\ is_bytes post /\
    data = (pre ++ w a) ++ post /\ k a (length (pre ++ w a)) = (o, Ok b).
Proof.
  intros -> Hb H. apply st_bind_ok_inv in H as (o1 & a & H & E).
  apply (codec_only _ _ _ C) in H as (Ha & post & -> & ->); [|done].
  exists a, post. rewrite <- app_assoc. apply is_bytes_app in Hb as [_ Hp]. auto.
Qed.

(** The same for a field that is decoded, or checked, in the next call. *)
Lemma bind_assoc_st {S E A B D} (m : ST S E A) (k : A -> ST S E B) (l : B -> ST S E D) s :
  (m ≫= (fun a => k a ≫= l)) s = ((m ≫= k) ≫= l) s.
Proof. unfold mbind, st_bind. by destruct (m s) as [s' []]. Qed.

Lemma bind_check_st {S E A B D} (m : ST S E A) (f : A -> result E B) (l : A -> ST S E D) s :
  (m ≫= (fun a => lift_result (f a) ≫= fun _ => l a)) s
  = ((m ≫= fun a => lift_result (_ ← f a; Ok a)) ≫= l) s.
Proof.
  unfold mbind, st_bind, lift_result, try_. destruct (m s) as [s' []]; try done.
  simpl. by destruct (f a).
Qed.

Lemma step_reads_decoded {A B D} {d : Reader A} {f : A -> wresult B} {P w}
  (C : Codec (fun data => a ← d data; lift_result (f a)) P w) (k : B -> ST nat H2WireError D)
  data pre a post r :
  data = pre ++ w a ++ post -> P a -> k a (length (pre ++ w a)) = r ->
  (d data ≫= fun a => lift_result (f a) ≫= k) (length pre) = r.
Proof. rewrite bind_assoc_st. apply (step_reads C). Qed.

Lemma step_reads_checked {A B D} {d : Reader A} {f : A -> wresult B} {P w}
  (C : Codec (fun data => a ← d data; lift_result (_ ← f a; Ok a)) P w)
  (k : A -> ST nat H2WireError D) data pre a post r :
  data = pre ++ w a ++ post -> P a -> k a (length (pre ++ w a)) = r ->
  (d data ≫= fun a => lift_result (f a) ≫= fun _ => k a) (length pre) = r.
Proof. rewrite bind_check_st. apply (step_reads C). Qed.

Lemma step_only_decoded {A B D} {d : Reader A} {f : A -> wresult B} {P w}
  (C : Codec (fun data => a ← d data; lift_result (f a)) P w) (k : B -> ST nat H2WireError D)
  data pre rest o b :
  data = pre ++ rest -> is_bytes rest ->
  (d data ≫= fun a => lift_result (f a) ≫= k) (length pre) = (o, Ok b) ->
  exists a post, P a /\ rest = w a ++ post /\ is_bytes post /\
    data = (pre ++ w a) ++ post /\ k a (length (pre ++ w a)) = (o, Ok b).
Proof. rewrite bind_assoc_st. apply (step_only C). Qed.

Lemma step_only_checked {A B D} {d : Reader A} {f : A -> wresult B} {P w}
  (C : Codec (fun data => a ← d data; lift_result (_ ← f a; Ok a)) P w)
  (k : A -> ST nat H2WireError D) data pre rest o b :
  data = pre ++ rest -> is_bytes rest ->
  (d data ≫= fun a => lift_result (f a) ≫= fun _ => k a) (length pre) = (o, Ok b) ->
  exists a post, P a /\ rest = w a ++ post /\ is_bytes post /\
    data = (pre ++ w a) ++ post /\ k a (length (pre ++ w a)) = (o, Ok b).
Proof. rewrite bind_check_st. apply (step_only C). Qed.

Lemma from_start_reads {A} (m : ST nat H2WireError A) o a :
  m (length (@nil N)) = (o, Ok a) -> from_start m = Ok a.
Proof. intros H. unfold from_start. change 0%nat with (length (@nil N)). by rewrite H. Qed.

Lemma from_start_only {A} (m : ST nat H2WireError A) a :
  from_start m = Ok a -> exists o, m (length (@nil N)) = (o, Ok a).
Proof. unfold from_start. cbn [length]. intros H. exists (m 0%nat).1. rewrite <- H. apply surjective_pairing. Qed.

Lemma finish_reads (data pre : bytes) : data = pre -> finish data (length pre) = (length pre, Ok tt).
Proof. intros ->. unfold finish. rewrite bind_state. by rewrite Nat.eqb_refl. Qed.

Lemma finish_only (data pre rest : bytes) o :
  data = pre ++ rest -> finish data (length pre) = (o, Ok tt) -> rest = [].
Proof.
  intros ->. unfold finish. rewrite bind_state. destruct (_ =? _)%nat eqn:E; [|done].
  apply Nat.eqb_eq in E. rewrite length_app in E. intros _. apply nil_length_inv. lia.
Qed.

Lemma finish_np data o : no_panic (finish data o).2.
Proof. unfold finish. rewrite bind_state. by destruct (_ =? _)%nat. Qed.
End theory.

(** Reads the next field of [H : data = pre ++ w a ++ post]. *)
Ltac reads C H :=
  first
    [ refine (step_reads C _ _ _ _ _ _ H _ _)
    | refine (step_reads_decoded C _ _ _ _ _ _ H _ _)
    | refine (step_reads_checked C _ _ _ _ _ _ H _ _) ];
  [ | rewrite app_assoc in H ].

(** What the next field of an accepted [data = pre ++ rest] is.  [Hd] is the
    equation of [data], [Hb] that the rest are bytes, [H] the run. *)
Ltac accepts C Hd Hb H x Hx :=
  let post := fresh "post" in
  let E := fresh "E" in
  first
    [ apply (step_only C _ _ _ _ _ _ Hd Hb) in H
    | apply (step_only_decoded C _ _ _ _ _ _ Hd Hb) in H
    | apply (step_only_checked C _ _ _ _ _ _ Hd Hb) in H ];
  clear Hd Hb; destruct H as (x & post & Hx & E & Hb & Hd & H); clear E.


Lemma reads_start {A} (dec : bytes -> wresult A) w a :
  (forall data, data = [] ++ w ++ [] -> dec data = Ok a) -> dec w = Ok a.
Proof. intros H. apply H. by rewrite app_nil_r. Qed.

Ltac reads_start w E :=
  let data := fresh "data" in
  apply reads_start; intros data E; unfold w in E; rewrite <- ?app_assoc in E;
  cbn [hq_view hq_block_hash hq_aggregate_signature hq_signers_bitmap
       ht_view ht_aggregate_signature ht_signers_bitmap ht_high_qc
       hp_view hp_block_hash hp_justify_qc hp_proposer hp_signature hp_prepare_qc hp_tx_root_hash
       hv_view hv_block_hash hv_voter hv_signature hv_high_tc hpq_view hpq_block_hash hpq_qc
       hto_view hto_high_qc hto_sender hto_signature hto_high_tc
       hn_view hn_timeout_certificate hn_leader hn_signature
       hd_view hd_block_hash hd_commit_qc] in E;
  eapply from_start_reads.

Ltac reads_finish E :=
  rewrite app_nil_r in E; erewrite bind_ok by (by apply finish_reads); reflexivity.

Ltac accepts_start Hb H Hd :=
  lazymatch type of Hb with
  | is_bytes ?data =>
      apply from_start_only in H as [? H];
      assert (exists rest, data = [] ++ rest /\ is_bytes rest) as (? & Hd & ?)
        by (by exists data);
      clear Hb; rename select (is_bytes _) into Hb
  end.

(** The end of an accepted payload. *)
Ltac accepts_finish Hd H :=
  apply st_bind_ok_inv in H as (? & [] & Hfin & H);
  apply (finish_only _ _ _ _ Hd) in Hfin; subst; injection H as <- <-;
  rewrite ?app_nil_r, <- ?app_assoc.

(** The parts of an encoding are bytes. *)
Ltac is_bytes :=
  repeat match goal with
  | |- is_bytes (_ ++ _) => apply is_bytes_app; split
  | |- is_bytes (field _) => apply is_bytes_field
  | |- is_bytes [] => constructor
  | |- is_bytes (u64_le _) => apply is_bytes_le_bytes
  | |- is_bytes (le_bytes _ _) => apply is_bytes_le_bytes
  | |- is_bytes (b256_bytes _) => apply is_bytes_be_bytes
  | |- is_bytes (signature_bytes _) => apply is_bytes_be_bytes
  end; try tauto.

Create HintDb no_panic.
#[export] Hint Extern 1 (no_panic (finish _ _).2) => apply finish_np : no_panic.
#[export] Hint Extern 2 (no_panic (lift_result _ _).2) =>
  unfold lift_result, try_; cbn [snd] : no_panic.
#[export] Hint Extern 1 (no_panic (validate_bitmap _)) => apply validate_bitmap_np : no_panic.
#[export] Hint Extern 1 (no_panic (read_u64 _ _).2) => apply (codec_np _ _ _ u64_codec) : no_panic.
#[export] Hint Extern 1 (no_panic (read_u32 _ _).2) => apply (codec_np _ _ _ u32_codec) : no_panic.
#[export] Hint Extern 1 (no_panic (read_hash _ _).2) => apply (codec_np _ _ _ hash_codec) : no_panic.
#[export] Hint Extern 1 (no_panic (read_signature _ _).2) =>
  apply (codec_np _ _ _ signature_codec) : no_panic.
#[export] Hint Extern 1 (no_panic (read_bytes_at _ ?max _).2) =>
  apply (codec_np _ _ _ (field_codec max ltac:(done))) : no_panic.
#[export] Hint Extern 3 (no_panic (mret _ _).2) => exact I : no_panic.

Ltac np :=
  unfold from_start;
  repeat (apply no_panic_st_bind; [intros; eauto with no_panic|intros]);
  eauto with no_panic.

(** ** Writers *)

Lemma put_bytes_writes data out :
  N.of_nat (length data) <= u32_max -> put_bytes data out = (out ++ field data, Ok tt).
Proof.
  intros H. unfold put_bytes. rewrite (proj2 (N.ltb_ge _ _)) by done.
  unfold field. rewrite app_assoc. done.
Qed.

Lemma put_limited_writes data max out :
  (length data <= max)%nat -> N.of_nat max <= u32_max ->
  put_limited_bytes data max out = (out ++ field data, Ok tt).
Proof.
  intros H Hm. unfold put_limited_bytes. rewrite (proj2 (Nat.ltb_ge _ _)) by done.
  apply put_bytes_writes. lia.
Qed.

Lemma put_limited_only data max out out' :
  put_limited_bytes data max out = (out', Ok tt) -> (length data <= max)%nat.
Proof. unfold put_limited_bytes. destruct (_ <? _)%nat eqn:E; [done|]. by bool_simpl. Qed.

Lemma collect_writes m out : m [] = (out, Ok tt) -> collect m = Ok out.
Proof. intros H. unfold collect. by rewrite H. Qed.

Lemma collect_only m out : collect m = Ok out -> m [] = (out, Ok tt).
Proof. unfold collect. destruct (m []) as [o [[]| | |]]; naive_solver. Qed.

(** [e] encodes the values of [P], among those of the types of the source, as
    [w] says, and rejects the others. *)
Record Encodes {A} (e : A -> wresult bytes) (T P : A -> Prop) (w : A -> bytes) : Prop := {
  encodes_ok : forall a, P a -> e a = Ok (w a);
  encodes_only : forall a bs, T a -> e a = Ok bs -> P a;
  encodes_typed : forall a, P a -> T a
}.

(** Every field of a writer fits. *)
Ltac writes :=
  apply collect_writes;
  repeat first
    [ erewrite bind_ok; [|by apply put_limited_writes; [|done]]
    | erewrite bind_ok; [|reflexivity] ];
  first [ rewrite put_limited_writes by done | idtac ];
  rewrite ?app_nil_r, <- ?app_assoc; cbn [app].

(** The fields of a writer that ended well fit. *)
Ltac written H :=
  apply collect_only in H;
  repeat match type of H with
  | (_ ≫= _) _ = _ =>
      let H1 := fresh "Hw" in
      apply st_bind_ok_inv in H as (? & [] & H1 & H);
      try apply put_limited_only in H1
  end;
  try apply put_limited_only in H.

Section certificates.
Context {enc : SignatureEncoding}.

(** ** Certificates *)

Definition qc_ok (q : H2QuorumCertificate) : Prop :=
  is_u64 (hq_view q) /\ is_b256 (hq_block_hash q) /\
  (is_bytes (hq_aggregate_signature q) /\
   (length (hq_aggregate_signature q) <= MAX_SIGNATURE)%nat) /\
  (is_bytes (hq_signers_bitmap q) /\ validate_bitmap (hq_signers_bitmap q) = Ok tt).

Definition qc_wire (q : H2QuorumCertificate) : bytes :=
  u64_le (hq_view q) ++ field (b256_bytes (hq_block_hash q)) ++
  field (hq_aggregate_signature q) ++ field (hq_signers_bitmap q).

Definition signature_field_codec := field_codec MAX_SIGNATURE ltac:(done).

Lemma qc_exact : Exact decode_qc qc_ok qc_wire.
Proof.
  split.
  - intros [v h s bm] (Hv & Hh & Hs & Hbm). reads_start qc_wire E.
    reads u64_codec E; [done|]. reads hash_codec E; [done|].
    reads signature_field_codec E; [done|]. reads bitmap_codec E; [done|]. reads_finish E.
  - intros data q Hb H. accepts_start Hb H Hd.
    accepts u64_codec Hd Hb H v Hv. accepts hash_codec Hd Hb H h Hh.
    accepts signature_field_codec Hd Hb H s Hs. accepts bitmap_codec Hd Hb H bm Hbm.
    accepts_finish Hd H. done.
  - intros [v h s bm] (Hv & Hh & Hs & Hbm). unfold qc_wire. cbn in *.
    is_bytes.
  - intros data. np.
Qed.

Definition qc_typed (q : H2QuorumCertificate) : Prop :=
  is_u64 (hq_view q) /\ is_b256 (hq_block_hash q) /\
  is_bytes (hq_aggregate_signature q) /\ is_bytes (hq_signers_bitmap q).

Lemma qc_bitmap_fits q : qc_ok q -> (length (hq_signers_bitmap q) <= MAX_BITMAP)%nat.
Proof.
  intros (_ & _ & _ & _ & H%validate_bitmap_length). unfold MAX_BITMAP. lia.
Qed.

Lemma b256_fits h : (length (b256_bytes h) <= 32)%nat.
Proof. by rewrite length_b256_bytes. Qed.

Lemma qc_encodes : Encodes encode_qc qc_typed qc_ok qc_wire.
Proof.
  split.
  - intros q Hq. pose proof (qc_bitmap_fits q Hq). pose proof (b256_fits (hq_block_hash q)).
    destruct Hq as (_ & _ & [_ Hs] & _ & Hv). unfold encode_qc. rewrite Hv.
    cbn [mbind result_bind outcome_bind]. writes. done.
  - intros q bs (Hv & Hh & Hs & Hb) H. unfold encode_qc in H.
    apply bind_ok_inv in H as ([] & Hbm & H). written H. unfold qc_ok. tauto.
  - intros q (?&?&[]&[]). unfold qc_typed. tauto.
Qed.

Lemma length_qc_wire q : qc_ok q -> (0 < length (qc_wire q) <= 822)%nat.
Proof.
  intros Hq. pose proof Hq as (_ & _ & [_ Hs] & _ & Hv%validate_bitmap_length).
  unfold qc_wire. rewrite !length_app, !length_field, length_u64_le, length_b256_bytes.
  unfold MAX_SIGNATURE in *. lia.
Qed.

Lemma qc_fits q : qc_ok q -> (length (qc_wire q) <= MAX_QC)%nat.
Proof. intros H%length_qc_wire. unfold MAX_QC. lia. Qed.

Definition qc_field_codec := nested_codec MAX_QC decode_qc qc_ok qc_wire ltac:(done) qc_exact qc_fits.

Definition tc_ok (t : H2TimeoutCertificate) : Prop :=
  is_u64 (ht_view t) /\
  (is_bytes (ht_aggregate_signature t) /\
   (length (ht_aggregate_signature t) <= MAX_SIGNATURE)%nat) /\
  (is_bytes (ht_signers_bitmap t) /\ validate_bitmap (ht_signers_bitmap t) = Ok tt) /\
  qc_ok (ht_high_qc t).

Definition tc_typed (t : H2TimeoutCertificate) : Prop :=
  is_u64 (ht_view t) /\ is_bytes (ht_aggregate_signature t) /\
  is_bytes (ht_signers_bitmap t) /\ qc_typed (ht_high_qc t).

Definition tc_wire (t : H2TimeoutCertificate) : bytes :=
  u64_le (ht_view t) ++ field (ht_aggregate_signature t) ++
  field (ht_signers_bitmap t) ++ field (qc_wire (ht_high_qc t)).

Lemma tc_exact : Exact decode_tc tc_ok tc_wire.
Proof.
  split.
  - intros [v s bm q] (Hv & Hs & Hbm & Hq). reads_start tc_wire E.
    reads u64_codec E; [done|]. reads signature_field_codec E; [done|].
    reads bitmap_codec E; [done|]. reads qc_field_codec E; [done|]. reads_finish E.
  - intros data t Hb H. accepts_start Hb H Hd.
    accepts u64_codec Hd Hb H v Hv. accepts signature_field_codec Hd Hb H s Hs.
    accepts bitmap_codec Hd Hb H bm Hbm. accepts qc_field_codec Hd Hb H q Hq.
    accepts_finish Hd H. done.
  - intros t (_ & Hs & Hbm & Hq). unfold tc_wire. pose proof (exact_bytes _ _ _ qc_exact _ Hq).
    is_bytes.
  - intros data. np.
Qed.

Lemma tc_encodes : Encodes encode_tc tc_typed tc_ok tc_wire.
Proof.
  split.
  - intros t (_ & [_ Hs] & [_ Hv] & Hq). pose proof (qc_fits _ Hq).
    assert (length (ht_signers_bitmap t) <= MAX_BITMAP)%nat.
    { apply validate_bitmap_length in Hv. unfold MAX_BITMAP. lia. }
    unfold encode_tc. rewrite Hv. cbn [mbind result_bind outcome_bind].
    rewrite (encodes_ok _ _ _ _ qc_encodes) by done. cbn [mbind result_bind outcome_bind].
    writes. done.
  - intros t bs (Hv & Hs & Hb & Hq) H. unfold encode_tc in H.
    apply bind_ok_inv in H as ([] & Hbm & H). apply bind_ok_inv in H as (qc & Hqc & H).
    apply (encodes_only _ _ _ _ qc_encodes) in Hqc; [|done]. written H. unfold tc_ok. tauto.
  - intros t (?&[]&[]&?). unfold tc_typed.
    pose proof (encodes_typed _ _ _ _ qc_encodes (ht_high_qc t)). tauto.
Qed.

Lemma length_tc_wire t : tc_ok t -> (0 < length (tc_wire t) <= 1612)%nat.
Proof.
  intros (_ & [_ Hs] & [_ Hv%validate_bitmap_length] & Hq%length_qc_wire).
  unfold tc_wire. rewrite !length_app, !length_field, length_u64_le.
  unfold MAX_SIGNATURE in *. lia.
Qed.

Lemma tc_fits t : tc_ok t -> (length (tc_wire t) <= MAX_HIGH_TC)%nat.
Proof. intros H%length_tc_wire. unfold MAX_HIGH_TC. lia. Qed.

Definition tc_field_codec :=
  nested_codec MAX_HIGH_TC decode_tc tc_ok tc_wire ltac:(done) tc_exact tc_fits.

Lemma high_tc_encodes : Encodes encode_high_tc tc_typed tc_ok tc_wire.
Proof.
  split.
  - intros t Ht. unfold encode_high_tc. rewrite (encodes_ok _ _ _ _ tc_encodes) by done.
    cbn [mbind result_bind outcome_bind].
    rewrite (proj2 (Nat.ltb_ge _ _)) by (by apply tc_fits). done.
  - intros t bs Ht H. unfold encode_high_tc in H. apply bind_ok_inv in H as (x & Hx & H).
    by apply (encodes_only _ _ _ _ tc_encodes) in Hx.
  - apply (encodes_typed _ _ _ _ tc_encodes).
Qed.

(** ** Optional certificates: no bytes for none *)

Definition opt_ok {A} (P : A -> Prop) (o : option A) : Prop :=
  match o with Some a => P a | None => True end.
Definition opt_wire {A} (w : A -> bytes) (o : option A) : bytes :=
  match o with Some a => w a | None => [] end.

Lemma optional_exact {A} (dec : bytes -> wresult A) P w :
  Exact dec P w -> (forall a, P a -> (0 < length (w a))%nat) ->
  Exact (fun bs => match bs with [] => Ok None | _ => x ← dec bs; Ok (Some x) end)
    (opt_ok P) (opt_wire w).
Proof.
  intros Hd Hl. split.
  - intros [a|] Ha; [|done]. simpl. pose proof (Hl a Ha) as Hlen.
    pose proof (exact_reads _ _ _ Hd a Ha) as Er. destruct (w a) as [|b bs]; [simpl in Hlen; lia|].
    by rewrite Er.
  - intros data o Hb H. destruct data as [|b bs]; [by simplify_eq|].
    apply bind_ok_inv in H as (a & Ha & [= <-]). by apply (exact_only _ _ _ Hd).
  - intros [a|] Ha; [|constructor]. by apply (exact_bytes _ _ _ Hd).
  - intros [|b bs]; [done|]. apply no_panic_bind; [apply (exact_np _ _ _ Hd)|done].
Qed.

Lemma optional_encodes {A} (e : A -> wresult bytes) T P w :
  Encodes e T P w -> Encodes (encode_optional e) (opt_ok T) (opt_ok P) (opt_wire w).
Proof.
  intros He. split.
  - intros [a|] Ha; [|done]. by apply (encodes_ok _ _ _ _ He).
  - intros [a|] bs Ha H; [|done]. by apply (encodes_only _ _ _ _ He) in H.
  - intros [a|] Ha; [|done]. by apply (encodes_typed _ _ _ _ He).
Qed.

Lemma opt_fits {A} (P : A -> Prop) w max o :
  (forall a, P a -> (length (w a) <= max)%nat) ->
  opt_ok P o -> (length (opt_wire w o) <= max)%nat.
Proof. destruct o; simpl; [auto|lia]. Qed.

Definition opt_qc_field_codec :=
  nested_codec MAX_QC _ _ _ ltac:(done)
    (optional_exact decode_qc qc_ok qc_wire qc_exact (fun q H => proj1 (length_qc_wire q H)))
    (fun o => opt_fits qc_ok qc_wire MAX_QC o qc_fits).

Definition opt_tc_field_codec :
  Codec (fun data => bs ← read_bytes_at data MAX_HIGH_TC; lift_result (decode_optional_tc bs))
    (opt_ok tc_ok) (fun o => field (opt_wire tc_wire o)) :=
  nested_codec MAX_HIGH_TC decode_optional_tc _ _ ltac:(done)
    (optional_exact decode_tc tc_ok tc_wire tc_exact (fun q H => proj1 (length_tc_wire q H)))
    (fun o => opt_fits tc_ok tc_wire MAX_HIGH_TC o tc_fits).
End certificates.
