(* ===== verification/H2Codec.v ===== *)
(** * The cross-client codec as a whole

    The payloads of the seven message kinds, their envelope, and the chain-bound
    envelope of H2-v4: what is accepted, what is written, and that the two are
    inverse. *)

From S2P Require Import Prelude Effects Crypto Messages Signing H2Wire H2WireTheory.

Definition is_u32 (x : N) : Prop := x < 256 ^ 4.

Section codec.
Context {enc : SignatureEncoding}.

(** ** Payloads

    For each kind: the values that can be sent, the values of its Rust type, and
    the bytes. *)

Definition proposal_ok (p : H2Proposal) : Prop :=
  is_u64 (hp_view p) /\ is_b256 (hp_block_hash p) /\ qc_ok (hp_justify_qc p) /\
  is_u32 (hp_proposer p) /\ is_signature (hp_signature p) /\
  opt_ok qc_ok (hp_prepare_qc p) /\ is_b256 (hp_tx_root_hash p).
Definition proposal_typed (p : H2Proposal) : Prop :=
  is_u64 (hp_view p) /\ is_b256 (hp_block_hash p) /\ qc_typed (hp_justify_qc p) /\
  is_u32 (hp_proposer p) /\ is_signature (hp_signature p) /\
  opt_ok qc_typed (hp_prepare_qc p) /\ is_b256 (hp_tx_root_hash p).
Definition proposal_wire (p : H2Proposal) : bytes :=
  u64_le (hp_view p) ++ field (b256_bytes (hp_block_hash p)) ++
  field (qc_wire (hp_justify_qc p)) ++ le_bytes 4 (hp_proposer p) ++
  field (signature_bytes (hp_signature p)) ++ field (opt_wire qc_wire (hp_prepare_qc p)) ++
  field (b256_bytes (hp_tx_root_hash p)).

Definition vote_ok (v : H2Vote) : Prop :=
  is_u64 (hv_view v) /\ is_b256 (hv_block_hash v) /\ is_u32 (hv_voter v) /\
  is_signature (hv_signature v) /\ opt_ok tc_ok (hv_high_tc v).
Definition vote_typed (v : H2Vote) : Prop :=
  is_u64 (hv_view v) /\ is_b256 (hv_block_hash v) /\ is_u32 (hv_voter v) /\
  is_signature (hv_signature v) /\ opt_ok tc_typed (hv_high_tc v).
Definition vote_body (v : H2Vote) : bytes :=
  u64_le (hv_view v) ++ field (b256_bytes (hv_block_hash v)) ++ le_bytes 4 (hv_voter v) ++
  field (signature_bytes (hv_signature v)).
Definition vote_wire (v : H2Vote) : bytes :=
  vote_body v ++ field (opt_wire tc_wire (hv_high_tc v)).

Definition prepare_ok (p : H2PrepareQc) : Prop :=
  is_u64 (hpq_view p) /\ is_b256 (hpq_block_hash p) /\ qc_ok (hpq_qc p).
Definition prepare_typed (p : H2PrepareQc) : Prop :=
  is_u64 (hpq_view p) /\ is_b256 (hpq_block_hash p) /\ qc_typed (hpq_qc p).
Definition prepare_wire (p : H2PrepareQc) : bytes :=
  u64_le (hpq_view p) ++ field (b256_bytes (hpq_block_hash p)) ++ field (qc_wire (hpq_qc p)).

Definition timeout_ok (t : H2Timeout) : Prop :=
  is_u64 (hto_view t) /\ qc_ok (hto_high_qc t) /\ is_u32 (hto_sender t) /\
  is_signature (hto_signature t) /\ opt_ok tc_ok (hto_high_tc t).
Definition timeout_typed (t : H2Timeout) : Prop :=
  is_u64 (hto_view t) /\ qc_typed (hto_high_qc t) /\ is_u32 (hto_sender t) /\
  is_signature (hto_signature t) /\ opt_ok tc_typed (hto_high_tc t).
Definition timeout_body (t : H2Timeout) : bytes :=
  u64_le (hto_view t) ++ field (qc_wire (hto_high_qc t)) ++ le_bytes 4 (hto_sender t) ++
  field (signature_bytes (hto_signature t)).
Definition timeout_wire (t : H2Timeout) : bytes :=
  timeout_body t ++ field (opt_wire tc_wire (hto_high_tc t)).

Definition new_view_ok (n : H2NewView) : Prop :=
  is_u64 (hn_view n) /\ tc_ok (hn_timeout_certificate n) /\ is_u32 (hn_leader n) /\
  is_signature (hn_signature n).
Definition new_view_typed (n : H2NewView) : Prop :=
  is_u64 (hn_view n) /\ tc_typed (hn_timeout_certificate n) /\ is_u32 (hn_leader n) /\
  is_signature (hn_signature n).
Definition new_view_wire (n : H2NewView) : bytes :=
  u64_le (hn_view n) ++ field (tc_wire (hn_timeout_certificate n)) ++
  le_bytes 4 (hn_leader n) ++ field (signature_bytes (hn_signature n)).

Definition decide_ok (d : H2Decide) : Prop :=
  is_u64 (hd_view d) /\ is_b256 (hd_block_hash d) /\ qc_ok (hd_commit_qc d).
Definition decide_typed (d : H2Decide) : Prop :=
  is_u64 (hd_view d) /\ is_b256 (hd_block_hash d) /\ qc_typed (hd_commit_qc d).
Definition decide_wire (d : H2Decide) : bytes :=
  u64_le (hd_view d) ++ field (b256_bytes (hd_block_hash d)) ++ field (qc_wire (hd_commit_qc d)).

(** Bytes of the nested certificates. *)
Lemma opt_qc_bytes o : opt_ok qc_ok o -> is_bytes (opt_wire qc_wire o).
Proof. destruct o; [apply (exact_bytes _ _ _ qc_exact)|constructor]. Qed.
Lemma opt_tc_bytes o : opt_ok tc_ok o -> is_bytes (opt_wire tc_wire o).
Proof. destruct o; [apply (exact_bytes _ _ _ tc_exact)|constructor]. Qed.

Lemma proposal_exact : Exact decode_proposal proposal_ok proposal_wire.
Proof.
  split.
  - intros [v h q i s pq r] (Hv & Hh & Hq & Hi & Hs & Hpq & Hr). reads_start proposal_wire E.
    reads u64_codec E; [done|]. reads hash_codec E; [done|]. reads qc_field_codec E; [done|].
    reads u32_codec E; [done|]. reads signature_codec E; [done|].
    reads opt_qc_field_codec E; [done|]. reads hash_codec E; [done|]. reads_finish E.
  - intros data p Hb H. accepts_start Hb H Hd.
    accepts u64_codec Hd Hb H v Hv. accepts hash_codec Hd Hb H h Hh.
    accepts qc_field_codec Hd Hb H q Hq. accepts u32_codec Hd Hb H i Hi.
    accepts signature_codec Hd Hb H s Hs. accepts opt_qc_field_codec Hd Hb H pq Hpq.
    accepts hash_codec Hd Hb H r Hr. accepts_finish Hd H. done.
  - intros p (_ & _ & Hq & _ & _ & Hpq & _). unfold proposal_wire.
    pose proof (exact_bytes _ _ _ qc_exact _ Hq). apply opt_qc_bytes in Hpq. is_bytes.
  - intros data. np. case_match; [done|].
    apply no_panic_bind; [apply (exact_np _ _ _ qc_exact)|done].
Qed.

Lemma prepare_exact : Exact decode_prepare_qc prepare_ok prepare_wire.
Proof.
  split.
  - intros [v h q] (Hv & Hh & Hq). reads_start prepare_wire E.
    reads u64_codec E; [done|]. reads hash_codec E; [done|]. reads qc_field_codec E; [done|].
    reads_finish E.
  - intros data p Hb H. accepts_start Hb H Hd.
    accepts u64_codec Hd Hb H v Hv. accepts hash_codec Hd Hb H h Hh.
    accepts qc_field_codec Hd Hb H q Hq. accepts_finish Hd H. done.
  - intros p (_ & _ & Hq). unfold prepare_wire.
    pose proof (exact_bytes _ _ _ qc_exact _ Hq). is_bytes.
  - intros data. np.
Qed.

Lemma decide_exact : Exact decode_decide decide_ok decide_wire.
Proof.
  split.
  - intros [v h q] (Hv & Hh & Hq). reads_start decide_wire E.
    reads u64_codec E; [done|]. reads hash_codec E; [done|]. reads qc_field_codec E; [done|].
    reads_finish E.
  - intros data p Hb H. accepts_start Hb H Hd.
    accepts u64_codec Hd Hb H v Hv. accepts hash_codec Hd Hb H h Hh.
    accepts qc_field_codec Hd Hb H q Hq. accepts_finish Hd H. done.
  - intros p (_ & _ & Hq). unfold decide_wire.
    pose proof (exact_bytes _ _ _ qc_exact _ Hq). is_bytes.
  - intros data. np.
Qed.

Lemma new_view_exact : Exact decode_new_view new_view_ok new_view_wire.
Proof.
  split.
  - intros [v t i s] (Hv & Ht & Hi & Hs). reads_start new_view_wire E.
    reads u64_codec E; [done|]. reads tc_field_codec E; [done|]. reads u32_codec E; [done|].
    reads signature_codec E; [done|]. reads_finish E.
  - intros data p Hb H. accepts_start Hb H Hd.
    accepts u64_codec Hd Hb H v Hv. accepts tc_field_codec Hd Hb H t Ht.
    accepts u32_codec Hd Hb H i Hi. accepts signature_codec Hd Hb H s Hs.
    accepts_finish Hd H. done.
  - intros p (_ & Ht & _). unfold new_view_wire.
    pose proof (exact_bytes _ _ _ tc_exact _ Ht). is_bytes.
  - intros data. np.
Qed.

(** ** The optional certificate at the end *)

Lemma read_optional_tc_reads data pre o post :
  data = pre ++ field (opt_wire tc_wire o) ++ post -> opt_ok tc_ok o ->
  read_optional_tc data (length pre) = (length (pre ++ field (opt_wire tc_wire o)), Ok o).
Proof.
  intros -> Ho. unfold read_optional_tc. rewrite bind_state.
  rewrite (proj2 (Nat.eqb_neq _ _)).
  - by apply (codec_reads _ _ _ opt_tc_field_codec).
  - rewrite !length_app, length_field. lia.
Qed.

(** What an accepted message ends with: nothing, or the field and the end. *)
Lemma read_optional_tc_only {B} data pre rest (k : option H2TimeoutCertificate -> B) o b :
  data = pre ++ rest -> is_bytes rest ->
  (t ← read_optional_tc data; _ ← finish data; mret (k t)) (length pre) = (o, Ok b) ->
  exists t, b = k t /\ opt_ok tc_ok t /\
    (rest = field (opt_wire tc_wire t) \/ t = None /\ rest = []).
Proof.
  intros Hd Hb H. apply st_bind_ok_inv in H as (o1 & t & Ht & H).
  apply st_bind_ok_inv in H as (o2 & [] & Hf & H). injection H as <- <-.
  exists t. split; [done|]. unfold read_optional_tc in Ht. rewrite bind_state in Ht.
  destruct (length pre =? length data)%nat eqn:E.
  - injection Ht as <- <-. split; [done|]. right. split; [done|].
    apply Nat.eqb_eq in E. rewrite Hd, length_app in E. apply nil_length_inv. lia.
  - rewrite Hd in Ht. apply (codec_only _ _ _ opt_tc_field_codec) in Ht
      as (Ht & post & -> & ->); [|done].
    split; [done|]. left. rewrite app_assoc in Hd.
    apply (finish_only _ _ _ _ Hd) in Hf as ->. by rewrite app_nil_r.
Qed.

Lemma read_optional_tc_np data o : no_panic (read_optional_tc data o).2.
Proof.
  unfold read_optional_tc. rewrite bind_state. destruct (_ =? _)%nat; [done|].
  apply (codec_np _ _ _ opt_tc_field_codec).
Qed.
#[local] Hint Resolve read_optional_tc_np : no_panic.

(** A decoder that also accepts the body alone, for no certificate. *)
Record ExactOrShort {A} (dec : bytes -> wresult A) (P : A -> Prop) (w short : A -> bytes)
  (none : A -> Prop) : Prop := {
  short_reads : forall a, P a -> dec (w a) = Ok a;
  short_reads_short : forall a, P a -> none a -> dec (short a) = Ok a;
  short_only : forall data a,
    is_bytes data -> dec data = Ok a -> P a /\ (data = w a \/ none a /\ data = short a);
  short_bytes : forall a, P a -> is_bytes (w a);
  short_np : forall data, no_panic (dec data)
}.

Lemma vote_exact :
  ExactOrShort decode_vote_payload vote_ok vote_wire vote_body (fun v => hv_high_tc v = None).
Proof.
  split.
  - intros [v h i s t] (Hv & Hh & Hi & Hs & Ht). unfold vote_wire. reads_start vote_body E.
    reads u64_codec E; [done|]. reads hash_codec E; [done|]. reads u32_codec E; [done|].
    reads signature_codec E; [done|].
    erewrite bind_ok by (by apply (read_optional_tc_reads _ _ _ _ E)).
    rewrite app_assoc in E. reads_finish E.
  - intros [v h i s t] (Hv & Hh & Hi & Hs & Ht) Hn. cbn in Hn. subst t. reads_start vote_body E.
    reads u64_codec E; [done|]. reads hash_codec E; [done|]. reads u32_codec E; [done|].
    reads signature_codec E; [done|]. rewrite app_nil_r in E. rewrite E.
    unfold read_optional_tc. erewrite bind_ok; [|rewrite bind_state, Nat.eqb_refl; reflexivity].
    erewrite bind_ok by (by apply finish_reads). reflexivity.
  - intros data a Hb H. accepts_start Hb H Hd.
    accepts u64_codec Hd Hb H v Hv. accepts hash_codec Hd Hb H h Hh.
    accepts u32_codec Hd Hb H i Hi. accepts signature_codec Hd Hb H s Hs.
    destruct (read_optional_tc_only _ _ _ (mkH2Vote v h i s) _ _ Hd Hb H)
      as (t & -> & Ht & Hr). split; [done|]. subst data. unfold vote_wire, vote_body. cbn.
    destruct Hr as [->|[-> ->]]; [left|right]; rewrite ?app_nil_r, <- ?app_assoc; done.
  - intros v (_ & _ & _ & _ & Ht%opt_tc_bytes). unfold vote_wire, vote_body. is_bytes.
  - intros data. np.
Qed.

Lemma timeout_exact :
  ExactOrShort decode_timeout timeout_ok timeout_wire timeout_body
    (fun t => hto_high_tc t = None).
Proof.
  split.
  - intros [v q i s t] (Hv & Hq & Hi & Hs & Ht). unfold timeout_wire. reads_start timeout_body E.
    reads u64_codec E; [done|]. reads qc_field_codec E; [done|]. reads u32_codec E; [done|].
    reads signature_codec E; [done|].
    erewrite bind_ok by (by apply (read_optional_tc_reads _ _ _ _ E)).
    rewrite app_assoc in E. reads_finish E.
  - intros [v q i s t] (Hv & Hq & Hi & Hs & Ht) Hn. cbn in Hn. subst t.
    reads_start timeout_body E.
    reads u64_codec E; [done|]. reads qc_field_codec E; [done|]. reads u32_codec E; [done|].
    reads signature_codec E; [done|]. rewrite app_nil_r in E. rewrite E.
    unfold read_optional_tc. erewrite bind_ok; [|rewrite bind_state, Nat.eqb_refl; reflexivity].
    erewrite bind_ok by (by apply finish_reads). reflexivity.
  - intros data a Hb H. accepts_start Hb H Hd.
    accepts u64_codec Hd Hb H v Hv. accepts qc_field_codec Hd Hb H q Hq.
    accepts u32_codec Hd Hb H i Hi. accepts signature_codec Hd Hb H s Hs.
    destruct (read_optional_tc_only _ _ _ (mkH2Timeout v q i s) _ _ Hd Hb H)
      as (t & -> & Ht & Hr). split; [done|]. subst data. unfold timeout_wire, timeout_body. cbn.
    destruct Hr as [->|[-> ->]]; [left|right]; rewrite ?app_nil_r, <- ?app_assoc; done.
  - intros t (_ & Hq & _ & _ & Ht%opt_tc_bytes). unfold timeout_wire, timeout_body.
    pose proof (exact_bytes _ _ _ qc_exact _ Hq). is_bytes.
  - intros data. np.
Qed.

(** ** Encoders *)

Lemma signature_fits s : (length (signature_bytes s) <= MAX_SIGNATURE)%nat.
Proof. rewrite length_signature_bytes. unfold MAX_SIGNATURE. lia. Qed.

Definition opt_qc_encodes := optional_encodes _ _ _ _ qc_encodes.
Definition opt_tc_encodes := optional_encodes _ _ _ _ high_tc_encodes.
Definition opt_qc_fits o := opt_fits qc_ok qc_wire MAX_QC o qc_fits.
Definition opt_tc_fits o := opt_fits tc_ok tc_wire MAX_HIGH_TC o tc_fits.

(** The certificates of a value that can be sent are encoded. *)
Ltac encoded C := rewrite (encodes_ok _ _ _ _ C) by done; cbn [mbind result_bind outcome_bind].
(** The certificates of an encoded value can be sent. *)
Ltac sendable C H :=
  let x := fresh "x" in let Hx := fresh "Hx" in
  apply bind_ok_inv in H as (x & Hx & H); apply (encodes_only _ _ _ _ C) in Hx; [|done].

Lemma proposal_encodes : Encodes encode_proposal proposal_typed proposal_ok proposal_wire.
Proof.
  split.
  - intros p (_ & _ & Hq & _ & _ & Hpq & _). unfold encode_proposal.
    encoded qc_encodes. encoded opt_qc_encodes.
    pose proof (qc_fits _ Hq). pose proof (opt_qc_fits _ Hpq).
    pose proof (b256_fits (hp_block_hash p)). pose proof (b256_fits (hp_tx_root_hash p)).
    pose proof (signature_fits (hp_signature p)). unfold put_signature. writes. done.
  - intros p bs (T1 & T2 & T3 & T4 & T5 & T6 & T7) H. unfold encode_proposal in H.
    sendable qc_encodes H. sendable opt_qc_encodes H. unfold proposal_ok. tauto.
  - intros p (? & ? & Hq & ? & ? & Hpq & ?). apply (encodes_typed _ _ _ _ qc_encodes) in Hq.
    apply (encodes_typed _ _ _ _ opt_qc_encodes) in Hpq. unfold proposal_typed. tauto.
Qed.

Lemma vote_encodes : Encodes encode_vote_payload vote_typed vote_ok vote_wire.
Proof.
  split.
  - intros v (_ & _ & _ & _ & Ht). unfold encode_vote_payload. encoded opt_tc_encodes.
    pose proof (opt_tc_fits _ Ht). pose proof (b256_fits (hv_block_hash v)).
    pose proof (signature_fits (hv_signature v)). unfold put_signature. writes.
    unfold vote_wire, vote_body. by rewrite <- !app_assoc.
  - intros v bs (T1 & T2 & T3 & T4 & T5) H. unfold encode_vote_payload in H.
    sendable opt_tc_encodes H. unfold vote_ok. tauto.
  - intros v (? & ? & ? & ? & Ht). apply (encodes_typed _ _ _ _ opt_tc_encodes) in Ht.
    unfold vote_typed. tauto.
Qed.

Lemma prepare_encodes : Encodes encode_prepare_qc prepare_typed prepare_ok prepare_wire.
Proof.
  split.
  - intros p (_ & _ & Hq). unfold encode_prepare_qc. encoded qc_encodes.
    pose proof (qc_fits _ Hq). pose proof (b256_fits (hpq_block_hash p)). writes. done.
  - intros p bs (T1 & T2 & T3) H. unfold encode_prepare_qc in H. sendable qc_encodes H.
    unfold prepare_ok. tauto.
  - intros p (? & ? & Hq). apply (encodes_typed _ _ _ _ qc_encodes) in Hq.
    unfold prepare_typed. tauto.
Qed.

Lemma timeout_encodes : Encodes encode_timeout timeout_typed timeout_ok timeout_wire.
Proof.
  split.
  - intros t (_ & Hq & _ & _ & Ht). unfold encode_timeout.
    encoded qc_encodes. encoded opt_tc_encodes.
    pose proof (qc_fits _ Hq). pose proof (opt_tc_fits _ Ht).
    pose proof (signature_fits (hto_signature t)). unfold put_signature. writes.
    unfold timeout_wire, timeout_body. by rewrite <- !app_assoc.
  - intros t bs (T1 & T2 & T3 & T4 & T5) H. unfold encode_timeout in H.
    sendable qc_encodes H. sendable opt_tc_encodes H. unfold timeout_ok. tauto.
  - intros t (? & Hq & ? & ? & Ht). apply (encodes_typed _ _ _ _ qc_encodes) in Hq.
    apply (encodes_typed _ _ _ _ opt_tc_encodes) in Ht. unfold timeout_typed. tauto.
Qed.

Lemma new_view_encodes : Encodes encode_new_view new_view_typed new_view_ok new_view_wire.
Proof.
  split.
  - intros n (_ & Ht & _ & _). unfold encode_new_view. encoded high_tc_encodes.
    pose proof (tc_fits _ Ht). pose proof (signature_fits (hn_signature n)).
    unfold put_signature. writes. done.
  - intros n bs (T1 & T2 & T3 & T4) H. unfold encode_new_view in H. sendable high_tc_encodes H.
    unfold new_view_ok. tauto.
  - intros n (? & Ht & ? & ?). apply (encodes_typed _ _ _ _ high_tc_encodes) in Ht.
    unfold new_view_typed. tauto.
Qed.

Lemma decide_encodes : Encodes encode_decide decide_typed decide_ok decide_wire.
Proof.
  split.
  - intros d (_ & _ & Hq). unfold encode_decide. encoded qc_encodes.
    pose proof (qc_fits _ Hq). pose proof (b256_fits (hd_block_hash d)). writes. done.
  - intros d bs (T1 & T2 & T3) H. unfold encode_decide in H. sendable qc_encodes H.
    unfold decide_ok. tauto.
  - intros d (? & ? & Hq). apply (encodes_typed _ _ _ _ qc_encodes) in Hq.
    unfold decide_typed. tauto.
Qed.

(** ** Messages *)

Definition msg_ok (m : H2Message) : Prop :=
  match m with
  | H2MProposal p => proposal_ok p
  | H2MVote v | H2MCommitVote v => vote_ok v
  | H2MPrepareQc p => prepare_ok p
  | H2MTimeout t => timeout_ok t
  | H2MNewView n => new_view_ok n
  | H2MDecide d => decide_ok d
  end.

(** The values of the Rust type. *)
Definition msg_typed (m : H2Message) : Prop :=
  match m with
  | H2MProposal p => proposal_typed p
  | H2MVote v | H2MCommitVote v => vote_typed v
  | H2MPrepareQc p => prepare_typed p
  | H2MTimeout t => timeout_typed t
  | H2MNewView n => new_view_typed n
  | H2MDecide d => decide_typed d
  end.

Definition payload_wire (m : H2Message) : bytes :=
  match m with
  | H2MProposal p => proposal_wire p
  | H2MVote v | H2MCommitVote v => vote_wire v
  | H2MPrepareQc p => prepare_wire p
  | H2MTimeout t => timeout_wire t
  | H2MNewView n => new_view_wire n
  | H2MDecide d => decide_wire d
  end.

(** The payload an older peer sends, for a message that has one. *)
Definition short_payload (m : H2Message) : option bytes :=
  match m with
  | H2MVote v | H2MCommitVote v =>
      match hv_high_tc v with None => Some (vote_body v) | Some _ => None end
  | H2MTimeout t => match hto_high_tc t with None => Some (timeout_body t) | Some _ => None end
  | _ => None
  end.

Definition envelope_wire (k : H2MessageKind) (payload : bytes) : bytes :=
  kind_byte k :: field payload.
Definition msg_wire (m : H2Message) : bytes := envelope_wire (message_kind m) (payload_wire m).

Lemma length_vote_body v : length (vote_body v) = 148%nat.
Proof.
  unfold vote_body. rewrite !length_app, !length_field, length_u64_le, length_le_bytes,
    length_b256_bytes, length_signature_bytes. done.
Qed.

Lemma length_payload_wire m : msg_ok m -> (length (payload_wire m) <= 2700)%nat.
Proof.
  assert (Hopt : forall {A} (P : A -> Prop) w n o, (forall a, P a -> (0 < length (w a) <= n)%nat) ->
    opt_ok P o -> (length (opt_wire w o) <= n)%nat).
  { intros A P w n [a|] H; simpl; [intros Ha%H; lia|lia]. }
  destruct m as [p|v|v|p|t|n|d]; cbn [msg_ok payload_wire].
  - intros (_ & _ & Hq%length_qc_wire & _ & _ & Hpq & _). unfold proposal_wire.
    apply (Hopt _ _ qc_wire _ _ length_qc_wire) in Hpq.
    rewrite !length_app, !length_field, length_u64_le, length_le_bytes, !length_b256_bytes,
      length_signature_bytes. lia.
  - intros (_ & _ & _ & _ & Ht). apply (Hopt _ _ tc_wire _ _ length_tc_wire) in Ht.
    unfold vote_wire. rewrite length_app, length_vote_body, length_field. lia.
  - intros (_ & _ & _ & _ & Ht). apply (Hopt _ _ tc_wire _ _ length_tc_wire) in Ht.
    unfold vote_wire. rewrite length_app, length_vote_body, length_field. lia.
  - intros (_ & _ & Hq%length_qc_wire). unfold prepare_wire.
    rewrite !length_app, !length_field, length_u64_le, length_b256_bytes. lia.
  - intros (_ & Hq%length_qc_wire & _ & _ & Ht).
    apply (Hopt _ _ tc_wire _ _ length_tc_wire) in Ht. unfold timeout_wire, timeout_body.
    rewrite !length_app, !length_field, length_u64_le, length_le_bytes, length_signature_bytes. lia.
  - intros (_ & Ht%length_tc_wire & _). unfold new_view_wire.
    rewrite !length_app, !length_field, length_u64_le, length_le_bytes, length_signature_bytes. lia.
  - intros (_ & _ & Hq%length_qc_wire). unfold decide_wire.
    rewrite !length_app, !length_field, length_u64_le, length_b256_bytes. lia.
Qed.

Lemma kind_of_kind_byte k : kind_of_byte (kind_byte k) = Ok k.
Proof. by destruct k. Qed.

Lemma kind_of_byte_only b k : kind_of_byte b = Ok k -> b = kind_byte k.
Proof.
  unfold kind_of_byte.
  do 7 (case_match eqn:E; [bool_simpl; subst; by intros [= <-]|clear E]). done.
Qed.

Lemma kind_of_byte_np b : no_panic (kind_of_byte b).
Proof. unfold kind_of_byte. do 7 (case_match; [done|]). done. Qed.

Lemma decode_envelope_reads k payload :
  (length payload <= MAX_ENVELOPE_PAYLOAD)%nat ->
  decode_envelope (envelope_wire k payload) = Ok (mkEnvelope k payload).
Proof.
  intros Hl. unfold envelope_wire, decode_envelope.
  pose proof (read_bytes_reads payload [] MAX_ENVELOPE_PAYLOAD Hl ltac:(done)) as R.
  rewrite app_nil_r in R. rewrite R. cbn [mbind result_bind outcome_bind].
  rewrite length_field, Nat.eqb_refl. cbn [negb]. by rewrite kind_of_kind_byte.
Qed.

Lemma decode_envelope_only data e :
  is_bytes data -> decode_envelope data = Ok e ->
  is_bytes (env_payload e) /\ (length (env_payload e) <= MAX_ENVELOPE_PAYLOAD)%nat /\
  data = envelope_wire (env_kind e) (env_payload e).
Proof.
  intros Hb H. destruct data as [|b rest]; [done|]. unfold decode_envelope in H.
  apply bind_ok_inv in H as ([payload n] & Hr & H). inversion Hb as [|? ? _ Hrest]; subst.
  destruct (read_bytes_only _ _ _ _ Hrest Hr) as (Hp & Hl & -> & post & ->).
  destruct (length (field payload) =? _)%nat eqn:E; cbn [negb] in H; [|done].
  apply Nat.eqb_eq in E. rewrite length_app in E.
  assert (post = []) as -> by (apply nil_length_inv; lia).
  apply bind_ok_inv in H as (k & Hk & [= <-]). apply kind_of_byte_only in Hk as ->.
  rewrite app_nil_r. done.
Qed.

Lemma decode_envelope_np data : no_panic (decode_envelope data).
Proof.
  destruct data; [done|]. apply no_panic_bind; [apply read_bytes_np|]. intros [p n'].
  destruct (negb _); [done|]. apply no_panic_bind; [apply kind_of_byte_np|done].
Qed.

Lemma decode_message_reads m : msg_ok m -> decode_message (msg_wire m) = Ok m.
Proof.
  intros Hm. unfold decode_message, msg_wire. rewrite decode_envelope_reads.
  - cbn [mbind result_bind outcome_bind env_kind env_payload].
    destruct m; cbn [message_kind payload_wire msg_ok] in *;
      first [ rewrite (exact_reads _ _ _ proposal_exact) by done
            | rewrite (short_reads _ _ _ _ _ vote_exact) by done
            | rewrite (exact_reads _ _ _ prepare_exact) by done
            | rewrite (short_reads _ _ _ _ _ timeout_exact) by done
            | rewrite (exact_reads _ _ _ new_view_exact) by done
            | rewrite (exact_reads _ _ _ decide_exact) by done ]; done.
  - apply length_payload_wire in Hm. unfold MAX_ENVELOPE_PAYLOAD. lia.
Qed.

Lemma length_timeout_body t : timeout_ok t -> (length (timeout_body t) <= 2700)%nat.
Proof.
  intros Ht. pose proof (length_payload_wire (H2MTimeout t) Ht) as Hl.
  cbn [payload_wire] in Hl. unfold timeout_wire in Hl. rewrite length_app in Hl. lia.
Qed.

Lemma decode_message_reads_short m s :
  msg_ok m -> short_payload m = Some s ->
  decode_message (envelope_wire (message_kind m) s) = Ok m.
Proof.
  intros Hm Hs. unfold decode_message. rewrite decode_envelope_reads.
  - cbn [mbind result_bind outcome_bind env_kind env_payload].
    destruct m as [p|v|v|p|t|n|d]; cbn [message_kind short_payload msg_ok] in *; try done.
    + destruct (hv_high_tc v) eqn:E; simplify_eq.
      by rewrite (short_reads_short _ _ _ _ _ vote_exact).
    + destruct (hv_high_tc v) eqn:E; simplify_eq.
      by rewrite (short_reads_short _ _ _ _ _ vote_exact).
    + destruct (hto_high_tc t) eqn:E; simplify_eq.
      by rewrite (short_reads_short _ _ _ _ _ timeout_exact).
  - unfold MAX_ENVELOPE_PAYLOAD. destruct m as [p|v|v|p|t|n|d]; cbn [short_payload msg_ok] in *;
      try done; [case_match; simplify_eq..|].
    + rewrite length_vote_body. lia.
    + rewrite length_vote_body. lia.
    + case_match; simplify_eq. apply length_timeout_body in Hm. lia.
Qed.

(** Every accepted message can be sent, and is written as it was read or is one
    of an older peer. *)
Lemma decode_message_only data m :
  is_bytes data -> decode_message data = Ok m ->
  msg_ok m /\
  (data = msg_wire m \/
   exists s, short_payload m = Some s /\ data = envelope_wire (message_kind m) s).
Proof.
  intros Hb H. unfold decode_message in H. apply bind_ok_inv in H as (e & He & H).
  destruct (decode_envelope_only _ _ Hb He) as (Hp & _ & ->). destruct e as [k payload].
  cbn [env_kind env_payload] in *. unfold msg_wire.
  destruct k; apply bind_ok_inv in H as (x & Hx & [= <-]);
    cbn [msg_ok message_kind payload_wire short_payload].
  - apply (exact_only _ _ _ proposal_exact) in Hx as [? ->]; auto.
  - apply (short_only _ _ _ _ _ vote_exact) in Hx as [? [->|[-> ->]]]; eauto.
  - apply (short_only _ _ _ _ _ vote_exact) in Hx as [? [->|[-> ->]]]; eauto.
  - apply (exact_only _ _ _ prepare_exact) in Hx as [? ->]; auto.
  - apply (short_only _ _ _ _ _ timeout_exact) in Hx as [? [->|[-> ->]]]; eauto.
  - apply (exact_only _ _ _ new_view_exact) in Hx as [? ->]; auto.
  - apply (exact_only _ _ _ decide_exact) in Hx as [? ->]; auto.
Qed.

Lemma decode_message_np data : no_panic (decode_message data).
Proof.
  apply no_panic_bind; [apply decode_envelope_np|]. intros [[] payload]; cbn [env_kind env_payload];
    (apply no_panic_bind; [|done]).
  - apply (exact_np _ _ _ proposal_exact).
  - apply (short_np _ _ _ _ _ vote_exact).
  - apply (short_np _ _ _ _ _ vote_exact).
  - apply (exact_np _ _ _ prepare_exact).
  - apply (short_np _ _ _ _ _ timeout_exact).
  - apply (exact_np _ _ _ new_view_exact).
  - apply (exact_np _ _ _ decide_exact).
Qed.

Lemma encode_envelope_writes k payload :
  (length payload <= MAX_ENVELOPE_PAYLOAD)%nat ->
  encode_envelope k payload = Ok (envelope_wire k payload).
Proof.
  intros Hl. unfold encode_envelope. rewrite (proj2 (Nat.ltb_ge _ _)) by done.
  apply collect_writes. erewrite bind_ok by reflexivity. rewrite put_bytes_writes; [done|].
  unfold MAX_ENVELOPE_PAYLOAD, u32_max in *. lia.
Qed.

Lemma message_encodes : Encodes encode_message msg_typed msg_ok msg_wire.
Proof.
  split.
  - intros m Hm. unfold encode_message.
    assert (Hp : (length (payload_wire m) <= MAX_ENVELOPE_PAYLOAD)%nat).
    { apply length_payload_wire in Hm. unfold MAX_ENVELOPE_PAYLOAD. lia. }
    unfold msg_wire. rewrite <- encode_envelope_writes by done.
    destruct m; cbn [msg_ok payload_wire] in *;
      first [ encoded proposal_encodes | encoded vote_encodes | encoded prepare_encodes
            | encoded timeout_encodes | encoded new_view_encodes | encoded decide_encodes ]; done.
  - intros m bs Hm H. unfold encode_message in H. destruct m; cbn [msg_typed msg_ok] in *;
      first [ sendable proposal_encodes H | sendable vote_encodes H | sendable prepare_encodes H
            | sendable timeout_encodes H | sendable new_view_encodes H
            | sendable decide_encodes H ]; done.
  - intros []; cbn [msg_ok msg_typed]; first [ apply (encodes_typed _ _ _ _ proposal_encodes)
      | apply (encodes_typed _ _ _ _ vote_encodes) | apply (encodes_typed _ _ _ _ prepare_encodes)
      | apply (encodes_typed _ _ _ _ timeout_encodes)
      | apply (encodes_typed _ _ _ _ new_view_encodes)
      | apply (encodes_typed _ _ _ _ decide_encodes) ].
Qed.

(** The encoder ends a message of an older peer with an empty field. *)
Lemma short_payload_wire m s :
  short_payload m = Some s ->
  msg_wire m = kind_byte (message_kind m) :: field (s ++ [0; 0; 0; 0]).
Proof.
  unfold msg_wire, envelope_wire. intros H. f_equal. f_equal.
  destruct m as [p|v|v|p|t|n|d]; cbn [short_payload payload_wire] in *; try done;
    case_match; simplify_eq; unfold vote_wire, timeout_wire; by rewrite H0.
Qed.

(** ** The chain-bound envelope *)

Definition v4_typed (e : H2V4Envelope) : Prop :=
  is_u64 (chain_id (v4_identity e)) /\ is_b256 (genesis_hash (v4_identity e)) /\
  is_b256 (v4_changes_hash e) /\ msg_typed (v4_message e).

Definition v4_header (identity : H2V4ChainIdentity) (changes_hash : B256) (len : nat) : bytes :=
  PREFIX ++ u64_le (chain_id identity) ++ b256_bytes (genesis_hash identity) ++
  b256_bytes changes_hash ++ le_bytes 4 (N.of_nat len).

Lemma length_v4_header i c n : length (v4_header i c n) = HEADER_SIZE.
Proof.
  unfold v4_header. by rewrite !length_app, length_u64_le, !length_b256_bytes, length_le_bytes.
Qed.

Lemma range_at (pre bs post : bytes) from to :
  from = length pre -> to = (from + length bs)%nat -> range from to (pre ++ bs ++ post) = bs.
Proof.
  intros -> ->. unfold range. rewrite drop_app_length.
  replace (_ - _)%nat with (length bs) by lia. by rewrite take_app_length.
Qed.

(** The fields of a header, as the decoder reads them. *)
Lemma v4_header_fields i c n wire :
  is_u64 (chain_id i) -> is_b256 (genesis_hash i) -> is_b256 c -> N.of_nat n < 256 ^ 4 ->
  let data := v4_header i c n ++ wire in
  range 0 7 data = PREFIX /\ le_value (range 7 15 data) = chain_id i /\
  be_value (range 15 47 data) = genesis_hash i /\ be_value (range 47 79 data) = c /\
  N.to_nat (le_value (range 79 83 data)) = n /\ drop HEADER_SIZE data = wire.
Proof.
  intros Hi Hg Hc Hn data. subst data.
  set (p1 := PREFIX). set (p2 := u64_le (chain_id i)). set (p3 := b256_bytes (genesis_hash i)).
  set (p4 := b256_bytes c). set (p5 := le_bytes 4 (N.of_nat n)).
  assert (L1 : length p1 = 7%nat) by done.
  assert (L2 : length p2 = 8%nat) by apply length_u64_le.
  assert (L3 : length p3 = 32%nat) by apply length_b256_bytes.
  assert (L4 : length p4 = 32%nat) by apply length_b256_bytes.
  assert (L5 : length p5 = 4%nat) by apply length_le_bytes.
  assert (E : v4_header i c n ++ wire = p1 ++ p2 ++ p3 ++ p4 ++ p5 ++ wire).
  { unfold v4_header. by rewrite <- !app_assoc. }
  split_and!.
  - rewrite E. apply (range_at []); [done|]. by rewrite L1.
  - rewrite E. rewrite (range_at p1) by lia. by apply (le_value_le_bytes 8).
  - rewrite E, app_assoc. rewrite (range_at (p1 ++ p2)) by (rewrite ?length_app; lia).
    by apply (be_value_be_bytes 32).
  - rewrite E, !app_assoc, <- (app_assoc _ p5), <- (app_assoc _ p4).
    rewrite (range_at ((p1 ++ p2) ++ p3)) by (rewrite ?length_app; lia).
    by apply (be_value_be_bytes 32).
  - rewrite E, !app_assoc, <- (app_assoc _ p5).
    rewrite (range_at (((p1 ++ p2) ++ p3) ++ p4)) by (rewrite ?length_app; lia).
    unfold p5. rewrite (le_value_le_bytes 4) by done. by rewrite Nat2N.id.
  - rewrite <- (length_v4_header i c n). apply drop_app_length.
Qed.

Lemma le_bytes_of n bs : is_bytes bs -> length bs = n -> le_bytes n (le_value bs) = bs.
Proof. intros Hb <-. by apply le_bytes_le_value. Qed.
Lemma be_bytes_of n bs : is_bytes bs -> length bs = n -> be_bytes n (be_value bs) = bs.
Proof. intros Hb <-. by apply be_bytes_be_value. Qed.

(** Every byte string that is long enough is a header and the rest. *)
Lemma v4_header_split data :
  is_bytes data -> (HEADER_SIZE <= length data)%nat -> range 0 7 data = PREFIX ->
  let i := mkIdentity (le_value (range 7 15 data)) (be_value (range 15 47 data)) in
  let c := be_value (range 47 79 data) in
  let n := N.to_nat (le_value (range 79 83 data)) in
  is_u64 (chain_id i) /\ is_b256 (genesis_hash i) /\ is_b256 c /\
  data = v4_header i c n ++ drop HEADER_SIZE data.
Proof.
  intros Hb Hl Hp i c n. subst i c n. cbn [chain_id genesis_hash].
  assert (Hr : forall a b, (a <= b)%nat -> (b <= HEADER_SIZE)%nat ->
    is_bytes (range a b data) /\ length (range a b data) = (b - a)%nat).
  { intros a b Hab Hbl. unfold range. split.
    - by apply Forall_take, Forall_drop.
    - rewrite length_take, length_drop. lia. }
  assert (Hd : forall a b, (a <= b)%nat -> drop a data = range a b data ++ drop b data).
  { intros a b Hab. unfold range. rewrite <- (take_drop (b - a) (drop a data)) at 1.
    f_equal. rewrite drop_drop. f_equal. lia. }
  change HEADER_SIZE with 83%nat in *.
  destruct (Hr 7 15)%nat as [B1 L1]; [lia..|]. destruct (Hr 15 47)%nat as [B2 L2]; [lia..|].
  destruct (Hr 47 79)%nat as [B3 L3]; [lia..|]. destruct (Hr 79 83)%nat as [B4 L4]; [lia..|].
  pose proof (le_value_lt _ B1) as V1. pose proof (be_value_lt _ B2) as V2.
  pose proof (be_value_lt _ B3) as V3. rewrite L1 in V1. rewrite L2 in V2. rewrite L3 in V3.
  split_and!; [exact V1|exact V2|exact V3|].
  unfold v4_header, u64_le, b256_bytes. cbn [chain_id genesis_hash]. rewrite N2Nat.id.
  rewrite (le_bytes_of 8 _ B1 L1), (be_bytes_of 32 _ B2 L2), (be_bytes_of 32 _ B3 L3),
    (le_bytes_of 4 _ B4 L4).
  rewrite <- !app_assoc, <- Hp.
  rewrite <- (Hd 79 83)%nat by lia. rewrite <- (Hd 47 79)%nat by lia.
  rewrite <- (Hd 15 47)%nat by lia. rewrite <- (Hd 7 15)%nat by lia.
  rewrite <- (Hd 0 7)%nat by lia. done.
Qed.

Lemma h2_v4_encode_writes e :
  msg_ok (v4_message e) ->
  h2_v4_encode_envelope e =
    Ok (v4_header (v4_identity e) (v4_changes_hash e) (length (msg_wire (v4_message e)))
          ++ msg_wire (v4_message e)).
Proof.
  intros Hm. unfold h2_v4_encode_envelope. rewrite (encodes_ok _ _ _ _ message_encodes) by done.
  cbn [map_err mbind result_bind outcome_bind]. rewrite (proj2 (Nat.ltb_ge _ _)).
  - f_equal.
  - apply length_payload_wire in Hm. unfold msg_wire, envelope_wire, MAX_WIRE_SIZE.
    cbn [length]. rewrite length_field. lia.
Qed.

Lemma Ok_inj {E A} (a b : A) : @Ok E A a = Ok b -> a = b.
Proof. congruence. Qed.

Lemma length_msg_wire m : msg_ok m -> (length (msg_wire m) <= 2705)%nat.
Proof.
  intros Hm%length_payload_wire. unfold msg_wire, envelope_wire. cbn [length].
  rewrite length_field. lia.
Qed.

(** An encoded envelope carries a message that can be sent. *)
Lemma h2_v4_encode_only e bs :
  msg_typed (v4_message e) -> h2_v4_encode_envelope e = Ok bs -> msg_ok (v4_message e).
Proof.
  intros Ht He. unfold h2_v4_encode_envelope in He. apply bind_ok_inv in He as (w & Hw & _).
  destruct (encode_message (v4_message e)) eqn:Ee; try done.
  by apply (encodes_only _ _ _ _ message_encodes) in Ee.
Qed.

Lemma h2_v4_decode_only data expected e :
  is_bytes data -> h2_v4_decode_envelope data expected = Ok e ->
  v4_typed e /\ v4_identity e = expected /\ h2_v4_encode_envelope e = Ok data.
Proof.
  intros Hb. unfold h2_v4_decode_envelope.
  destruct (length data <? HEADER_SIZE)%nat eqn:El; [done|].
  destruct (bool_decide (range 0 7 data = PREFIX)) eqn:Ep; [|done]. cbn [negb]. bool_simpl.
  destruct (v4_header_split data Hb El Ep) as (Hi & Hg & Hc & Hd).
  set (i := mkIdentity _ _) in *. set (c := be_value (range 47 79 data)) in *.
  set (n := N.to_nat _) in *.
  destruct (bool_decide (i = expected)) eqn:Ei; [|done]. cbn [negb]. bool_simpl.
  destruct (MAX_WIRE_SIZE <? n)%nat; [done|].
  destruct (n =? length data - HEADER_SIZE)%nat eqn:En; [|done]. cbn [negb orb].
  apply Nat.eqb_eq in En. intros H. apply bind_ok_inv in H as (m & Hm & H).
  apply bind_ok_inv in H as (canonical & Hcan & H).
  destruct (bool_decide (canonical = _)) eqn:Ew; cbn [negb] in H; [|done]. bool_simpl.
  injection H as <-. destruct (decode_message (drop HEADER_SIZE data)) eqn:Edec; try done.
  cbn [map_err] in Hm. injection Hm as ->.
  destruct (encode_message m) eqn:Eenc; try done. cbn [map_err] in Hcan. injection Hcan as ->.
  apply decode_message_only in Edec as [Hok _]; [|by apply Forall_drop].
  rewrite (encodes_ok _ _ _ _ message_encodes) in Eenc by done. injection Eenc as Ewire.
  split; [split_and!; try done; by apply (encodes_typed _ _ _ _ message_encodes)|].
  split; [done|]. rewrite h2_v4_encode_writes by done.
  cbn [v4_identity v4_changes_hash v4_message].
  f_equal. etransitivity; [|symmetry; exact Hd]. rewrite Ewire, Ew, En, length_drop. done.
Qed.

Lemma h2_v4_decode_reads e data :
  v4_typed e -> h2_v4_encode_envelope e = Ok data ->
  h2_v4_decode_envelope data (v4_identity e) = Ok e.
Proof.
  intros (Hi & Hg & Hc & Ht) He. pose proof (h2_v4_encode_only _ _ Ht He) as Hm.
  rewrite h2_v4_encode_writes in He by done. apply Ok_inj in He as <-.
  pose proof (length_msg_wire _ Hm) as Hlw. set (wire := msg_wire (v4_message e)) in *.
  destruct (v4_header_fields (v4_identity e) (v4_changes_hash e) (length wire) wire)
    as (F1 & F2 & F3 & F4 & F5 & F6); [done..|lia|].
  unfold h2_v4_decode_envelope. rewrite F1, F2, F3, F4, F5, F6.
  rewrite length_app, length_v4_header. rewrite (proj2 (Nat.ltb_ge _ _)) by lia.
  rewrite !bool_decide_eq_true_2; [|by destruct (v4_identity e)|done].
  cbn [negb]. rewrite (proj2 (Nat.ltb_ge _ _)) by (unfold MAX_WIRE_SIZE; lia).
  replace (_ + _ - _)%nat with (length wire) by lia. rewrite Nat.eqb_refl. cbn [negb orb].
  unfold wire. rewrite decode_message_reads by done.
  cbn [map_err mbind result_bind outcome_bind].
  rewrite (encodes_ok _ _ _ _ message_encodes) by done.
  cbn [map_err mbind result_bind outcome_bind].
  rewrite bool_decide_eq_true_2 by done. by destruct e as [[]].
Qed.

(** Another chain's envelope is recognised by its header. *)
Lemma h2_v4_decode_other_chain e data expected :
  v4_typed e -> h2_v4_encode_envelope e = Ok data -> expected ≠ v4_identity e ->
  h2_v4_decode_envelope data expected = Err ChainIdentityMismatch.
Proof.
  intros (Hi & Hg & Hc & Ht) He Hne. pose proof (h2_v4_encode_only _ _ Ht He) as Hm.
  rewrite h2_v4_encode_writes in He by done. apply Ok_inj in He as <-.
  pose proof (length_msg_wire _ Hm) as Hlw. set (wire := msg_wire (v4_message e)) in *.
  destruct (v4_header_fields (v4_identity e) (v4_changes_hash e) (length wire) wire)
    as (F1 & F2 & F3 & F4 & F5 & F6); [done..|lia|].
  unfold h2_v4_decode_envelope. rewrite F1, F2, F3. rewrite length_app, length_v4_header.
  rewrite (proj2 (Nat.ltb_ge _ _)) by lia. rewrite bool_decide_eq_true_2 by done. cbn [negb].
  rewrite bool_decide_eq_false_2; [done|]. by destruct (v4_identity e).
Qed.

Lemma h2_v4_decode_np data expected :
  is_bytes data -> no_panic (h2_v4_decode_envelope data expected).
Proof.
  intros Hb. unfold h2_v4_decode_envelope. destruct (_ <? _)%nat; [done|].
  destruct (negb _); [done|]. destruct (negb _); [done|]. destruct (_ || _)%bool; [done|].
  pose proof (decode_message_np (drop HEADER_SIZE data)) as Hn.
  destruct (decode_message _) eqn:E; try done. cbn [map_err mbind result_bind outcome_bind].
  apply decode_message_only in E as [Hok _]; [|by apply Forall_drop].
  rewrite (encodes_ok _ _ _ _ message_encodes) by done. cbn [map_err mbind result_bind outcome_bind].
  by destruct (negb _).
Qed.

(** C30: the chain-bound decoder is exact.  Of all byte strings, whatever a peer
    sends, it accepts for the expected chain exactly those the encoder writes for
    an envelope of that chain, and returns that envelope; everything else is an
    error, never a panic.  The inner decoder accepts beyond that only votes and
    timeouts that end before the length of their empty optional certificate. *)
Theorem h2_v4_accepts_exactly_encodings data expected :
  is_bytes data ->
  (forall e, h2_v4_decode_envelope data expected = Ok e <->
     v4_typed e /\ v4_identity e = expected /\ h2_v4_encode_envelope e = Ok data) /\
  ((exists e, h2_v4_decode_envelope data expected = Ok e) \/
   (exists err, h2_v4_decode_envelope data expected = Err err)) /\
  (forall m, decode_message data = Ok m ->
     encode_message m = Ok data \/
     exists body, short_payload m = Some body /\
       data = kind_byte (message_kind m) :: field body /\
       encode_message m = Ok (kind_byte (message_kind m) :: field (body ++ [0; 0; 0; 0]))).
Proof.
  intros Hb. split_and!.
  - intros e. split; [by apply h2_v4_decode_only|]. intros (Ht & <- & He).
    by apply h2_v4_decode_reads.
  - by apply no_panic_cases, h2_v4_decode_np.
  - intros m Hm. destruct (decode_message_only _ _ Hb Hm) as [Hok Hw].
    rewrite (encodes_ok _ _ _ _ message_encodes) by done.
    destruct Hw as [->|(s & Hs & ->)]; [by left|right]. exists s.
    rewrite (short_payload_wire _ _ Hs). done.
Qed.
End codec.
