(* ===== verification/H2Bridge.v ===== *)
(** * Native messages over the cross-client wire
    ([crates/n42-network/src/h2_bridge.rs])

    The conversion between the messages of the engine and those of [H2Wire], with
    its two representations of signer bitmaps, and what arrives at the other end
    of a gossip link. *)

From S2P Require Import Prelude Effects Crypto Messages Signing H2Wire H2WireTheory H2Codec.

Inductive H2BridgeError : Type :=
| NonZeroChangesHash
| BridgeInvalidBitmap
| InvalidAggregateSignature
| ValidatorChangesUnsupported.

Definition bresult (A : Type) : Type := result H2BridgeError A.

(** ** Signer bitmaps *)

(** [for (index, bit) in signers.iter().enumerate()], from [index] on.  The byte
    that is updated exists, as [native_bitmap_to_h2] allocates one for every eight
    signers. *)
Fixpoint set_bits (index : nat) (signers : list bool) (encoded : list N) : list N :=
  match signers with
  | [] => encoded
  | bit :: rest =>
      set_bits (S index) rest
        (if bit then alter (fun b => N.lor b (N.shiftl 1 (N.of_nat (index mod 8))))
                       (2 + index / 8)%nat encoded
         else encoded)
  end.

Definition native_bitmap_to_h2 (signers : list bool) : bresult bytes :=
  if 65535 <? N.of_nat (length signers) then Err BridgeInvalidBitmap
  else
    let count := N.of_nat (length signers) in
    if count =? 0 then Ok []
    else Ok (set_bits 0 signers
               (le_bytes 2 count ++ replicate (div_ceil8 (length signers)) 0)).

(** [rest[index / 8] & (1 << (index % 8)) != 0] for the next [n] indices. *)
Fixpoint read_bits (rest : list N) (index n : nat) : bresult (list bool) :=
  match n with
  | O => Ok []
  | S n' =>
      match rest !! (index / 8)%nat with
      | None => Panic
      | Some b =>
          bits ← read_bits rest (S index) n';
          Ok (negb (N.land b (N.shiftl 1 (N.of_nat (index mod 8))) =? 0) :: bits)
      end
  end.

Definition h2_bitmap_to_native (encoded : bytes) : bresult (list bool) :=
  match encoded with
  | [] => Ok []
  | [_] => Err BridgeInvalidBitmap
  | lo :: hi :: rest =>
      let count := le_value [lo; hi] in
      if (count =? 0) || negb (length rest =? div_ceil8 (N.to_nat count))%nat
      then Err BridgeInvalidBitmap
      else if negb (count mod 8 =? 0)
              && match last rest with
                 | Some b => negb (N.ldiff b (used_mask count) =? 0)
                 | None => false
                 end
      then Err BridgeInvalidBitmap
      else read_bits rest 0 (N.to_nat count)
  end.

Section bridge.
Context {blst : Blst} {enc : SignatureEncoding}.

(** ** Certificates *)

(** [qc.signers.not_any()] *)
Definition not_any (signers : list bool) : bool := forallb negb signers.

Definition qc_to_h2 (qc : QuorumCertificate) : bresult H2QuorumCertificate :=
  if (qc_view qc =? 0) && (qc_block_hash qc =? B256_ZERO) && not_any (qc_signers qc)
  then Ok (mkH2QC 0 B256_ZERO [] [])
  else
    signers_bitmap ← native_bitmap_to_h2 (qc_signers qc);
    Ok (mkH2QC (qc_view qc) (qc_block_hash qc)
          (signature_bytes (qc_aggregate_signature qc)) signers_bitmap).

(** [aggregate_signature.try_into()] and [BlsSignature::from_bytes]. *)
Definition aggregate_from_bytes (bs : bytes) : bresult BlsSignature :=
  if negb (length bs =? 96)%nat then Err InvalidAggregateSignature
  else of_option InvalidAggregateSignature (signature_from_bytes bs).

Definition qc_from_h2 (qc : H2QuorumCertificate) : bresult QuorumCertificate :=
  if (hq_view qc =? 0) && (hq_block_hash qc =? B256_ZERO)
     && bool_decide (hq_aggregate_signature qc = []) && bool_decide (hq_signers_bitmap qc = [])
  then Ok genesis
  else
    aggregate_signature ← aggregate_from_bytes (hq_aggregate_signature qc);
    signers ← h2_bitmap_to_native (hq_signers_bitmap qc);
    Ok (mkQC (hq_view qc) (hq_block_hash qc) aggregate_signature signers).

Definition tc_to_h2 (tc : TimeoutCertificate) : bresult H2TimeoutCertificate :=
  signers_bitmap ← native_bitmap_to_h2 (tc_signers tc);
  high_qc ← qc_to_h2 (tc_high_qc tc);
  Ok (mkH2TC (tc_view tc) (signature_bytes (tc_aggregate_signature tc)) signers_bitmap high_qc).

Definition tc_from_h2 (tc : H2TimeoutCertificate) : bresult TimeoutCertificate :=
  aggregate_signature ← aggregate_from_bytes (ht_aggregate_signature tc);
  signers ← h2_bitmap_to_native (ht_signers_bitmap tc);
  high_qc ← qc_from_h2 (ht_high_qc tc);
  Ok (mkTC (ht_view tc) aggregate_signature signers high_qc).

(** [option.map(f).transpose()] *)
Definition transpose {E A B} (f : A -> result E B) (o : option A) : result E (option B) :=
  match o with
  | None => Ok None
  | Some a => b ← f a; Ok (Some b)
  end.

(** ** Messages *)

Definition consensus_to_h2 (message : ConsensusMessage) : bresult H2Message :=
  match message with
  | MProposal p =>
      match p_validator_changes p with
      | Some (_ :: _) => Err ValidatorChangesUnsupported
      | _ =>
          justify_qc ← qc_to_h2 (p_justify_qc p);
          prepare_qc ← transpose qc_to_h2 (p_prepare_qc p);
          Ok (H2MProposal (mkH2Proposal (p_view p) (p_block_hash p) justify_qc (p_proposer p)
                (p_signature p) prepare_qc (default B256_ZERO (p_tx_root_hash p))))
      end
  | MVote v =>
      Ok (H2MVote (mkH2Vote (v_view v) (v_block_hash v) (v_voter v) (v_signature v) None))
  | MCommitVote v =>
      Ok (H2MCommitVote (mkH2Vote (cv_view v) (cv_block_hash v) (cv_voter v) (cv_signature v) None))
  | MPrepareQC p =>
      qc ← qc_to_h2 (pqc_qc p);
      Ok (H2MPrepareQc (mkH2PrepareQc (pqc_view p) (pqc_block_hash p) qc))
  | MTimeout t =>
      high_qc ← qc_to_h2 (t_high_qc t);
      Ok (H2MTimeout (mkH2Timeout (t_view t) high_qc (t_sender t) (t_signature t) None))
  | MNewView n =>
      tc ← tc_to_h2 (nv_timeout_cert n);
      Ok (H2MNewView (mkH2NewView (nv_view n) tc (nv_leader n) (nv_signature n)))
  | MDecide d =>
      if negb (d_validator_changes_hash d =? B256_ZERO) then Err NonZeroChangesHash
      else
        commit_qc ← qc_to_h2 (d_commit_qc d);
        Ok (H2MDecide (mkH2Decide (d_view d) (d_block_hash d) commit_qc))
  end.

Definition consensus_to_h2_v4 (identity : H2V4ChainIdentity) (message : ConsensusMessage)
  : bresult H2V4Envelope :=
  message ← consensus_to_h2 message;
  Ok (mkH2V4Envelope identity B256_ZERO message).

Definition consensus_from_h2 (message : H2Message) : bresult ConsensusMessage :=
  match message with
  | H2MProposal p =>
      justify_qc ← qc_from_h2 (hp_justify_qc p);
      prepare_qc ← transpose qc_from_h2 (hp_prepare_qc p);
      Ok (MProposal (mkProposal (hp_view p) (hp_block_hash p) justify_qc (hp_proposer p)
            (hp_signature p) prepare_qc (Some (hp_tx_root_hash p)) None))
  | H2MVote v =>
      Ok (MVote (mkVote (hv_view v) (hv_block_hash v) (hv_voter v) (hv_signature v)))
  | H2MCommitVote v =>
      Ok (MCommitVote (mkCommitVote (hv_view v) (hv_block_hash v) (hv_voter v) (hv_signature v)))
  | H2MPrepareQc p =>
      qc ← qc_from_h2 (hpq_qc p);
      Ok (MPrepareQC (mkPrepareQC (hpq_view p) (hpq_block_hash p) qc))
  | H2MTimeout t =>
      high_qc ← qc_from_h2 (hto_high_qc t);
      Ok (MTimeout (mkTimeoutMessage (hto_view t) high_qc (hto_sender t) (hto_signature t)))
  | H2MNewView n =>
      tc ← tc_from_h2 (hn_timeout_certificate n);
      Ok (MNewView (mkNewView (hn_view n) tc (hn_leader n) (hn_signature n)))
  | H2MDecide d =>
      commit_qc ← qc_from_h2 (hd_commit_qc d);
      Ok (MDecide (mkDecide (hd_view d) (hd_block_hash d) commit_qc B256_ZERO))
  end.

Definition consensus_from_h2_v4 (envelope : H2V4Envelope) : bresult ConsensusMessage :=
  if negb (v4_changes_hash envelope =? B256_ZERO) then Err NonZeroChangesHash
  else consensus_from_h2 (v4_message envelope).
End bridge.

(** ** Bitmaps bit by bit *)

Lemma land_bit b k : negb (N.land b (N.shiftl 1 k) =? 0) = N.testbit b k.
Proof.
  rewrite N.shiftl_1_l. destruct (N.testbit b k) eqn:E.
  - apply negb_true_iff, N.eqb_neq. intros H.
    assert (N.testbit (N.land b (2 ^ k)) k = true) as H1.
    { rewrite N.land_spec, E, N.pow2_bits_true. done. }
    rewrite H, N.bits_0 in H1. done.
  - apply negb_false_iff, N.eqb_eq. apply N.bits_inj. intros j.
    rewrite N.land_spec, N.pow2_bits_eqb, N.bits_0. destruct (k =? j) eqn:Ek.
    + bool_simpl. subst j. by rewrite E.
    + by rewrite andb_false_r.
Qed.

(** The bit of a signer in the bytes after the count. *)
Definition bit_of (body : list N) (idx : nat) : bool :=
  match body !! (idx / 8)%nat with
  | Some b => N.testbit b (N.of_nat (idx mod 8))
  | None => false
  end.

Lemma div8_lt i n : (i < 8 * n)%nat -> (i / 8 < n)%nat.
Proof. intros. apply Nat.Div0.div_lt_upper_bound. lia. Qed.

Lemma read_bits_spec body i n :
  (i + n <= 8 * length body)%nat -> read_bits body i n = Ok (bit_of body <$> seq i n).
Proof.
  revert i. induction n as [|n IH]; intros i Hl; [done|]. cbn [read_bits seq fmap list_fmap].
  destruct (lookup_lt_is_Some_2 body (i / 8)) as [b Hb]; [apply div8_lt; lia|].
  rewrite Hb, IH by lia. cbn [mbind result_bind outcome_bind]. f_equal. f_equal.
  rewrite land_bit. unfold bit_of. by rewrite Hb.
Qed.

Fixpoint set_body (index : nat) (signers : list bool) (body : list N) : list N :=
  match signers with
  | [] => body
  | bit :: rest =>
      set_body (S index) rest
        (if bit then alter (fun b => N.lor b (N.shiftl 1 (N.of_nat (index mod 8)))) (index / 8)%nat body
         else body)
  end.

Lemma set_bits_body i s lo hi body :
  set_bits i s (lo :: hi :: body) = lo :: hi :: set_body i s body.
Proof.
  revert i body. induction s as [|[] s IH]; intros i body; cbn [set_bits set_body]; [done| |apply IH].
  rewrite <- IH. done.
Qed.

Lemma length_set_body i s body : length (set_body i s body) = length body.
Proof.
  revert i body. induction s as [|[] s IH]; intros i body; cbn [set_body]; [done| |apply IH].
  by rewrite IH, length_alter.
Qed.

Lemma bit_of_alter body i idx :
  (i < 8 * length body)%nat ->
  bit_of (alter (fun b => N.lor b (N.shiftl 1 (N.of_nat (i mod 8)))) (i / 8)%nat body) idx
  = bit_of body idx || (i =? idx)%nat.
Proof.
  intros Hi. unfold bit_of. destruct (decide (i / 8 = idx / 8)%nat) as [Ed|Ed].
  - rewrite <- Ed. rewrite list_lookup_alter.
    destruct (lookup_lt_is_Some_2 body (i / 8)) as [b Hb]; [by apply div8_lt|].
    rewrite Hb. unfold fmap, option_fmap, option_map.
    rewrite decide_True by done. rewrite N.lor_spec, N.shiftl_1_l, N.pow2_bits_eqb.
    f_equal. pose proof (Nat.div_mod_eq i 8). pose proof (Nat.div_mod_eq idx 8).
    destruct (i =? idx)%nat eqn:Ei.
    + apply Nat.eqb_eq in Ei. subst. apply N.eqb_refl.
    + apply Nat.eqb_neq in Ei. apply N.eqb_neq. lia.
  - rewrite list_lookup_alter_ne by done.
    assert ((i =? idx)%nat = false) as -> by (apply Nat.eqb_neq; congruence).
    by rewrite orb_false_r.
Qed.

Lemma set_body_bit i s body idx :
  (i + length s <= 8 * length body)%nat ->
  bit_of (set_body i s body) idx
  = bit_of body idx || ((i <=? idx)%nat && default false (s !! (idx - i)%nat)).
Proof.
  revert i body. induction s as [|x s IH]; intros i body Hl; cbn [set_body length] in *.
  - rewrite lookup_nil. cbn. by rewrite andb_false_r, orb_false_r.
  - rewrite IH by (destruct x; rewrite ?length_alter; lia).
    assert (Ex : bit_of (if x then alter (fun b => N.lor b (N.shiftl 1 (N.of_nat (i mod 8))))
                                     (i / 8)%nat body else body) idx
                 = bit_of body idx || (x && (i =? idx)%nat)).
    { destruct x; cbn [andb]; [apply bit_of_alter; lia|by rewrite orb_false_r]. }
    rewrite Ex, <- orb_assoc. f_equal.
    destruct (lt_eq_lt_dec i idx) as [[Hlt|Heq]|Hgt].
    + rewrite (proj2 (Nat.eqb_neq _ _)) by lia. rewrite !(proj2 (Nat.leb_le _ _)) by lia.
      rewrite andb_false_r. cbn [orb andb]. replace (idx - i)%nat with (S (idx - S i)) by lia. done.
    + subst. rewrite Nat.eqb_refl, Nat.sub_diag. rewrite (proj2 (Nat.leb_gt _ _)) by lia.
      rewrite (proj2 (Nat.leb_le _ _)) by lia. cbn. by rewrite andb_true_r, orb_false_r.
    + rewrite (proj2 (Nat.eqb_neq _ _)) by lia. rewrite !(proj2 (Nat.leb_gt _ _)) by lia.
      by rewrite andb_false_r.
Qed.

Lemma bit_of_zeros n idx : bit_of (replicate n 0) idx = false.
Proof.
  unfold bit_of. destruct (replicate n 0 !! _) eqn:E; [|done].
  apply lookup_replicate in E as [-> _]. apply N.bits_0.
Qed.

Lemma lor_byte b k : b < 256 -> k < 8 -> N.lor b (N.shiftl 1 k) < 256.
Proof.
  intros Hb Hk. apply N.log2_lt_cancel. change (N.log2 256) with 8.
  rewrite N.log2_lor, N.shiftl_1_l. rewrite N.log2_pow2 by lia.
  destruct (decide (b = 0)) as [->|]; [cbn; lia|].
  assert (N.log2 b < 8) by (apply N.log2_lt_pow2; [lia|done]). lia.
Qed.

Lemma is_bytes_set_body i s body : is_bytes body -> is_bytes (set_body i s body).
Proof.
  revert i body. induction s as [|[] s IH]; intros i body Hb; cbn [set_body]; [done| |by apply IH].
  apply IH. apply Forall_alter; [done|]. intros b _ Hlt. apply lor_byte; [done|].
  pose proof (Nat.mod_upper_bound i 8). lia.
Qed.

Lemma used_mask_ones count : used_mask count = N.ones (count mod 8).
Proof. unfold used_mask. rewrite N.ones_equiv, N.shiftl_1_l. lia. Qed.

(** No bit outside the mask. *)
Lemma ldiff_zero b r :
  b < 256 -> (forall k, r <= k -> k < 8 -> N.testbit b k = false) -> N.ldiff b (N.ones r) = 0.
Proof.
  intros Hb H. apply N.bits_inj. intros k. rewrite N.ldiff_spec, N.bits_0.
  destruct (N.ltb_spec k r).
  - rewrite N.ones_spec_low by done. apply andb_false_r.
  - rewrite N.ones_spec_high by done. rewrite andb_true_r.
    destruct (N.ltb_spec k 8) as [Hk|Hk]; [by apply H|].
    destruct (decide (b = 0)) as [->|]; [apply N.bits_0|]. apply N.bits_above_log2.
    assert (N.log2 b < 8) by (apply N.log2_lt_pow2; [lia|done]). lia.
Qed.

(** The bytes of a bitmap after its count. *)
Definition bitmap_body (s : list bool) : list N :=
  set_body 0 s (replicate (div_ceil8 (length s)) 0).

Lemma div_ceil8_bounds n :
  (n <= 8 * div_ceil8 n)%nat /\ (8 * div_ceil8 n < n + 8)%nat.
Proof.
  unfold div_ceil8. pose proof (Nat.div_mod_eq (n + 7) 8).
  pose proof (Nat.mod_upper_bound (n + 7) 8). lia.
Qed.

Lemma length_bitmap_body s : length (bitmap_body s) = div_ceil8 (length s).
Proof. unfold bitmap_body. by rewrite length_set_body, length_replicate. Qed.

Lemma bitmap_body_bit s idx : bit_of (bitmap_body s) idx = default false (s !! idx).
Proof.
  unfold bitmap_body. rewrite set_body_bit.
  - rewrite bit_of_zeros, Nat.sub_0_r. done.
  - rewrite length_replicate. apply div_ceil8_bounds.
Qed.

Lemma is_bytes_bitmap_body s : is_bytes (bitmap_body s).
Proof.
  apply is_bytes_set_body. apply Forall_replicate. done.
Qed.

Lemma read_bitmap_body s : read_bits (bitmap_body s) 0 (length s) = Ok s.
Proof.
  rewrite read_bits_spec; [|rewrite length_bitmap_body; apply div_ceil8_bounds].
  f_equal. apply list_eq. intros j. rewrite list_lookup_fmap.
  destruct (decide (j < length s)%nat) as [Hj|Hj].
  - rewrite lookup_seq_lt by done. cbn. rewrite bitmap_body_bit.
    destruct (lookup_lt_is_Some_2 s j Hj) as [x ->]. done.
  - rewrite lookup_seq_ge by lia. by rewrite lookup_ge_None_2 by lia.
Qed.

(** The last byte has no bit beyond the count. *)
Lemma bitmap_padding s b :
  last (bitmap_body s) = Some b ->
  negb (N.ldiff b (used_mask (N.of_nat (length s))) =? 0) = false \/
  N.of_nat (length s) mod 8 = 0.
Proof.
  intros Hb. destruct (decide (N.of_nat (length s) mod 8 = 0)) as [|Hm]; [by right|left].
  apply negb_false_iff, N.eqb_eq. rewrite used_mask_ones. rewrite last_lookup in Hb.
  rewrite length_bitmap_body in Hb. pose proof (div_ceil8_bounds (length s)) as [B1 B2].
  apply ldiff_zero.
  - pose proof (is_bytes_bitmap_body s) as Hby. by eapply Forall_lookup_1 in Hby.
  - intros k Hk1 Hk2. pose proof (bitmap_body_bit s (8 * Nat.pred (div_ceil8 (length s)) + N.to_nat k)) as E.
    unfold bit_of in E.
    replace ((8 * Nat.pred (div_ceil8 (length s)) + N.to_nat k) / 8)%nat
      with (Nat.pred (div_ceil8 (length s))) in E
      by (symmetry; rewrite Nat.mul_comm, Nat.div_add_l by lia; rewrite Nat.div_small by lia; lia).
    replace ((8 * Nat.pred (div_ceil8 (length s)) + N.to_nat k) mod 8)%nat with (N.to_nat k) in E
      by (symmetry; rewrite Nat.mul_comm, Nat.add_comm, Nat.Div0.mod_add; apply Nat.mod_small; lia).
    rewrite Hb, N2Nat.id in E. rewrite E. rewrite lookup_ge_None_2; [done|].
    pose proof (N.div_mod (N.of_nat (length s)) 8 ltac:(done)).
    pose proof (N.mod_lt (N.of_nat (length s)) 8 ltac:(done)).
    revert H H0 Hm Hk1 B1 B2. generalize (N.of_nat (length s) / 8) as q.
    generalize (N.of_nat (length s) mod 8) as r. generalize (div_ceil8 (length s)) as d.
    generalize (length s) as n. intros n d r q. intros. lia.
Qed.

(** The bitmap of [s] on the wire. *)
Definition bitmap_wire (s : list bool) : list N :=
  match s with
  | [] => []
  | _ => le_bytes 2 (N.of_nat (length s)) ++ bitmap_body s
  end.

Lemma native_bitmap_to_h2_ok s :
  N.of_nat (length s) <= 65535 -> native_bitmap_to_h2 s = Ok (bitmap_wire s).
Proof.
  intros Hl. unfold native_bitmap_to_h2. rewrite (proj2 (N.ltb_ge _ _)) by done.
  destruct s as [|x s]; [done|]. set (l := x :: s) in *.
  rewrite (proj2 (N.eqb_neq _ _)) by (subst l; cbn [length]; lia).
  unfold bitmap_wire, bitmap_body. f_equal.
  change (le_bytes 2 (N.of_nat (length l))) with
    [N.of_nat (length l) mod 256; N.of_nat (length l) / 256 mod 256].
  cbn [app]. apply set_bits_body.
Qed.

Lemma bitmap_count (s : list bool) :
  N.of_nat (length s) <= 65535 ->
  le_value [N.of_nat (length s) mod 256; N.of_nat (length s) / 256 mod 256]
  = N.of_nat (length s).
Proof. intros Hl. apply (le_value_le_bytes 2). cbn. lia. Qed.

Lemma h2_bitmap_roundtrip s :
  N.of_nat (length s) <= 65535 -> h2_bitmap_to_native (bitmap_wire s) = Ok s.
Proof.
  intros Hl. destruct s as [|x s]; [done|]. set (l := x :: s) in *.
  change (bitmap_wire l) with (N.of_nat (length l) mod 256
    :: N.of_nat (length l) / 256 mod 256 :: bitmap_body l).
  cbn [h2_bitmap_to_native]. rewrite bitmap_count by done. rewrite Nat2N.id.
  rewrite length_bitmap_body, Nat.eqb_refl. rewrite (proj2 (N.eqb_neq _ _)) by (subst l; cbn [length]; lia).
  cbn [negb orb]. rewrite read_bitmap_body.
  destruct (last (bitmap_body l)) as [b|] eqn:El.
  - destruct (bitmap_padding l b El) as [-> | ->]; [by rewrite andb_false_r|done].
  - by rewrite andb_false_r.
Qed.

Lemma bitmap_wire_valid s :
  N.of_nat (length s) <= H2_MAX_VALIDATORS ->
  is_bytes (bitmap_wire s) /\ validate_bitmap (bitmap_wire s) = Ok tt.
Proof.
  intros Hl. destruct s as [|x s]; [split; [constructor|done]|]. set (l := x :: s) in *. split.
  { apply is_bytes_app. split; [apply is_bytes_le_bytes|apply is_bytes_bitmap_body]. }
  change (bitmap_wire l) with (N.of_nat (length l) mod 256
    :: N.of_nat (length l) / 256 mod 256 :: bitmap_body l).
  unfold H2_MAX_VALIDATORS in *.
  cbn [validate_bitmap]. rewrite bitmap_count by lia. rewrite Nat2N.id.
  rewrite (proj2 (N.eqb_neq _ _)) by (subst l; cbn [length]; lia).
  unfold H2_MAX_VALIDATORS. rewrite (proj2 (N.ltb_ge _ _)) by done. cbn [orb length].
  rewrite length_bitmap_body, Nat.eqb_refl. cbn [negb].
  destruct (N.of_nat (length l) mod 8 =? 0) eqn:Em; [done|]. cbn [negb].
  pose proof (div_ceil8_bounds (length l)) as [B1 B2].
  assert (Hlast : (N.of_nat (length l) mod 256 :: N.of_nat (length l) / 256 mod 256 :: bitmap_body l)
                    !! (2 + div_ceil8 (length l) - 1)%nat = last (bitmap_body l)).
  { assert (1 <= div_ceil8 (length l))%nat by (subst l; cbn [length] in *; lia).
    replace (2 + div_ceil8 (length l) - 1)%nat with (S (S (Nat.pred (div_ceil8 (length l))))) by lia.
    cbn [lookup list_lookup]. rewrite last_lookup, length_bitmap_body. done. }
  match goal with
  | |- context [@lookup ?K ?A ?M ?I ?n ?x] =>
      replace (@lookup K A M I n x) with (last (bitmap_body l)) by (symmetry; exact Hlast)
  end.
  destruct (last (bitmap_body l)) as [b|] eqn:El.
  - destruct (bitmap_padding l b El) as [-> | Hz]; [done|]. bool_simpl. done.
  - apply last_None in El. pose proof (length_bitmap_body l) as Hlen. rewrite El in Hlen.
    subst l. cbn [length] in *. lia.
Qed.

(** ** What arrives *)

Section delivery.
Context {blst : Blst} {enc : SignatureEncoding} {snappy : Snappy} {snap_laws : SnappyLaws snappy}.

(** The values of the native types, for committees the wire format can name. *)
Definition native_qc (q : QuorumCertificate) : Prop :=
  is_u64 (qc_view q) /\ is_b256 (qc_block_hash q) /\ is_signature (qc_aggregate_signature q) /\
  N.of_nat (length (qc_signers q)) <= H2_MAX_VALIDATORS.
Definition native_tc (t : TimeoutCertificate) : Prop :=
  is_u64 (tc_view t) /\ is_signature (tc_aggregate_signature t) /\
  N.of_nat (length (tc_signers t)) <= H2_MAX_VALIDATORS /\ native_qc (tc_high_qc t).

Definition native_message (m : ConsensusMessage) : Prop :=
  match m with
  | MProposal p =>
      is_u64 (p_view p) /\ is_b256 (p_block_hash p) /\ native_qc (p_justify_qc p) /\
      is_u32 (p_proposer p) /\ is_signature (p_signature p) /\
      opt_ok native_qc (p_prepare_qc p) /\ opt_ok is_b256 (p_tx_root_hash p)
  | MVote v =>
      is_u64 (v_view v) /\ is_b256 (v_block_hash v) /\ is_u32 (v_voter v) /\
      is_signature (v_signature v)
  | MCommitVote v =>
      is_u64 (cv_view v) /\ is_b256 (cv_block_hash v) /\ is_u32 (cv_voter v) /\
      is_signature (cv_signature v)
  | MPrepareQC p => is_u64 (pqc_view p) /\ is_b256 (pqc_block_hash p) /\ native_qc (pqc_qc p)
  | MTimeout t =>
      is_u64 (t_view t) /\ native_qc (t_high_qc t) /\ is_u32 (t_sender t) /\
      is_signature (t_signature t)
  | MNewView n =>
      is_u64 (nv_view n) /\ native_tc (nv_timeout_cert n) /\ is_u32 (nv_leader n) /\
      is_signature (nv_signature n)
  | MDecide d => is_u64 (d_view d) /\ is_b256 (d_block_hash d) /\ native_qc (d_commit_qc d)
  end.

(** The committee does not change with this message. *)
Definition static_message (m : ConsensusMessage) : bool :=
  match m with
  | MProposal p => match p_validator_changes p with Some (_ :: _) => false | _ => true end
  | MDecide d => d_validator_changes_hash d =? B256_ZERO
  | _ => true
  end.

(** What the wire does not tell apart: every certificate of view zero and block
    zero without signers is the genesis certificate, no transaction root is the
    zero root, and no changes are an empty list of changes. *)
Definition canonical_qc (q : QuorumCertificate) : QuorumCertificate :=
  if (qc_view q =? 0) && (qc_block_hash q =? B256_ZERO) && not_any (qc_signers q)
  then genesis else q.
Definition canonical_tc (t : TimeoutCertificate) : TimeoutCertificate :=
  mkTC (tc_view t) (tc_aggregate_signature t) (tc_signers t) (canonical_qc (tc_high_qc t)).

Definition canonical_message (m : ConsensusMessage) : ConsensusMessage :=
  match m with
  | MProposal p =>
      MProposal (mkProposal (p_view p) (p_block_hash p) (canonical_qc (p_justify_qc p))
        (p_proposer p) (p_signature p) (canonical_qc <$> p_prepare_qc p)
        (Some (default B256_ZERO (p_tx_root_hash p))) None)
  | MVote v => MVote v
  | MCommitVote v => MCommitVote v
  | MPrepareQC p =>
      MPrepareQC (mkPrepareQC (pqc_view p) (pqc_block_hash p) (canonical_qc (pqc_qc p)))
  | MTimeout t =>
      MTimeout (mkTimeoutMessage (t_view t) (canonical_qc (t_high_qc t)) (t_sender t) (t_signature t))
  | MNewView n =>
      MNewView (mkNewView (nv_view n) (canonical_tc (nv_timeout_cert n)) (nv_leader n)
        (nv_signature n))
  | MDecide d =>
      MDecide (mkDecide (d_view d) (d_block_hash d) (canonical_qc (d_commit_qc d)) B256_ZERO)
  end.

Lemma aggregate_roundtrip s :
  is_signature s -> aggregate_from_bytes (signature_bytes s) = Ok s.
Proof.
  intros [Hs Hd]. unfold aggregate_from_bytes. rewrite length_signature_bytes.
  cbn [Nat.eqb negb]. unfold signature_from_bytes, signature_bytes.
  rewrite (be_value_be_bytes 96) by exact Hs. by rewrite Hd.
Qed.

Lemma committee_u16 (s : list bool) :
  N.of_nat (length s) <= H2_MAX_VALIDATORS -> N.of_nat (length s) <= 65535.
Proof. unfold H2_MAX_VALIDATORS. lia. Qed.

Lemma aggregate_ok s :
  is_bytes (signature_bytes s) /\ (length (signature_bytes s) <= MAX_SIGNATURE)%nat.
Proof. split; [apply is_bytes_be_bytes|apply signature_fits]. Qed.

Lemma qc_bridge q :
  native_qc q ->
  exists h, qc_to_h2 q = Ok h /\ qc_ok h /\ qc_from_h2 h = Ok (canonical_qc q).
Proof.
  intros (Hv & Hh & Hs & Hl). unfold qc_to_h2, canonical_qc. destruct (_ && _)%bool eqn:Eg.
  - eexists. split; [done|]. split; [|done]. repeat split; try done; try constructor.
    unfold MAX_SIGNATURE. cbn. lia.
  - rewrite native_bitmap_to_h2_ok by (by apply committee_u16). eexists. split; [done|].
    split; [split; [done|split; [done|split; [apply aggregate_ok|by apply bitmap_wire_valid]]]|].
    unfold qc_from_h2. cbn [hq_view hq_block_hash hq_aggregate_signature hq_signers_bitmap].
    rewrite (bool_decide_eq_false_2 (signature_bytes _ = [])).
    + rewrite andb_false_r. cbn [andb]. rewrite aggregate_roundtrip by done.
      cbn [mbind result_bind outcome_bind].
      rewrite h2_bitmap_roundtrip by (by apply committee_u16). by destruct q.
    + intros E. pose proof (length_signature_bytes (qc_aggregate_signature q)) as H.
      by rewrite E in H.
Qed.

Lemma tc_bridge t :
  native_tc t ->
  exists h, tc_to_h2 t = Ok h /\ tc_ok h /\ tc_from_h2 h = Ok (canonical_tc t).
Proof.
  intros (Hv & Hs & Hl & Hq). destruct (qc_bridge _ Hq) as (hq & E1 & Hok & E2).
  unfold tc_to_h2. rewrite native_bitmap_to_h2_ok by (by apply committee_u16).
  cbn [mbind result_bind outcome_bind]. rewrite E1. eexists. split; [done|].
  split; [split; [done|split; [apply aggregate_ok|split; [by apply bitmap_wire_valid|done]]]|].
  unfold tc_from_h2. cbn [ht_view ht_aggregate_signature ht_signers_bitmap ht_high_qc].
  rewrite aggregate_roundtrip by done. cbn [mbind result_bind outcome_bind].
  rewrite h2_bitmap_roundtrip by (by apply committee_u16).
  cbn [mbind result_bind outcome_bind]. by rewrite E2.
Qed.

Lemma opt_qc_bridge o :
  opt_ok native_qc o ->
  exists h, transpose qc_to_h2 o = Ok h /\ opt_ok qc_ok h /\
    transpose qc_from_h2 h = Ok (canonical_qc <$> o).
Proof.
  destruct o as [q|]; intros H; [|by exists None].
  destruct (qc_bridge q H) as (h & E1 & Hok & E2). exists (Some h). cbn.
  rewrite E1, E2. done.
Qed.

Lemma message_bridge m :
  native_message m -> static_message m = true ->
  exists h, consensus_to_h2 m = Ok h /\ msg_ok h /\
    consensus_from_h2 h = Ok (canonical_message m).
Proof.
  destruct m as [p|v|v|p|t|n|d]; cbn [native_message static_message].
  - intros (Hv & Hh & Hq & Hi & Hs & Hpq & Hr) Hst.
    destruct (qc_bridge _ Hq) as (hq & E1 & Hok1 & E2).
    destruct (opt_qc_bridge _ Hpq) as (hpq & E3 & Hok2 & E4).
    exists (H2MProposal (mkH2Proposal (p_view p) (p_block_hash p) hq (p_proposer p)
                (p_signature p) hpq (default B256_ZERO (p_tx_root_hash p)))).
    split_and!.
    + cbn [consensus_to_h2]. rewrite E1. cbn [mbind result_bind outcome_bind]. rewrite E3.
      by destruct (p_validator_changes p) as [[|]|].
    + split_and!; try done. by destruct (p_tx_root_hash p).
    + cbn [consensus_from_h2 hp_justify_qc hp_prepare_qc]. rewrite E2.
      cbn [mbind result_bind outcome_bind]. by rewrite E4.
  - intros (Hv & Hh & Hi & Hs) _. eexists. split; [done|]. split; [by split_and!|]. by destruct v.
  - intros (Hv & Hh & Hi & Hs) _. eexists. split; [done|]. split; [by split_and!|]. by destruct v.
  - intros (Hv & Hh & Hq) _. destruct (qc_bridge _ Hq) as (hq & E1 & Hok1 & E2).
    exists (H2MPrepareQc (mkH2PrepareQc (pqc_view p) (pqc_block_hash p) hq)).
    cbn [consensus_to_h2 consensus_from_h2 hpq_qc]. rewrite E1, E2. by split_and!.
  - intros (Hv & Hq & Hi & Hs) _. destruct (qc_bridge _ Hq) as (hq & E1 & Hok1 & E2).
    exists (H2MTimeout (mkH2Timeout (t_view t) hq (t_sender t) (t_signature t) None)).
    cbn [consensus_to_h2 consensus_from_h2 hto_high_qc]. rewrite E1, E2. by split_and!.
  - intros (Hv & Ht & Hi & Hs) _. destruct (tc_bridge _ Ht) as (ht & E1 & Hok1 & E2).
    exists (H2MNewView (mkH2NewView (nv_view n) ht (nv_leader n) (nv_signature n))).
    cbn [consensus_to_h2 consensus_from_h2 hn_timeout_certificate]. rewrite E1, E2. by split_and!.
  - intros (Hv & Hh & Hq) Hst. destruct (qc_bridge _ Hq) as (hq & E1 & Hok1 & E2).
    exists (H2MDecide (mkH2Decide (d_view d) (d_block_hash d) hq)).
    cbn [consensus_to_h2 consensus_from_h2 hd_commit_qc]. rewrite Hst, E1, E2. by split_and!.
Qed.

Lemma gossip_roundtrip e :
  v4_typed e -> msg_ok (v4_message e) ->
  exists bs, encode_gossip e = Ok bs /\ decode_gossip bs (v4_identity e) = Ok e /\
    forall other, other ≠ v4_identity e -> decode_gossip bs other = Err ChainIdentityMismatch.
Proof.
  intros Ht Hm. pose proof (h2_v4_encode_writes e Hm) as Ew. set (wire := _ ++ _) in Ew.
  destruct (snap_compress_ok wire) as [bs Hbs]. exists bs.
  assert (Hlen : (HEADER_SIZE + MAX_WIRE_SIZE <? length wire)%nat = false).
  { apply Nat.ltb_ge. subst wire. rewrite length_app, length_v4_header.
    pose proof (length_msg_wire _ Hm). unfold MAX_WIRE_SIZE. lia. }
  assert (Hdec : forall other, decode_gossip bs other = h2_v4_decode_envelope wire other).
  { intros other. unfold decode_gossip. rewrite (snap_length _ _ Hbs).
    cbn [map_err mbind result_bind outcome_bind]. rewrite Hlen, (snap_roundtrip _ _ Hbs). done. }
  split_and!.
  - unfold encode_gossip. rewrite Ew. cbn [mbind result_bind outcome_bind]. by rewrite Hbs.
  - rewrite Hdec. by apply h2_v4_decode_reads.
  - intros other Hne. rewrite Hdec. by eapply h2_v4_decode_other_chain.
Qed.

(** C31: gossip delivers.  A native message whose committee does not change is
    converted, encoded and compressed, and a peer of the same chain decodes it to
    the same message (up to the representation of the genesis certificate, of a
    missing transaction root and of an empty list of changes); a peer of another
    chain rejects it.  A message that changes the committee is not sent.  The
    certificates of the message are of committees of at most 4096 validators, the
    most that the wire format can name ([native_message]). *)
Theorem h2_gossip_delivers identity m :
  is_u64 (chain_id identity) -> is_b256 (genesis_hash identity) -> native_message m ->
  if static_message m
  then exists envelope bs,
    consensus_to_h2_v4 identity m = Ok envelope /\ encode_gossip envelope = Ok bs /\
    (received ← map_err inl (decode_gossip bs identity);
     map_err inr (consensus_from_h2_v4 received)) = Ok (canonical_message m) /\
    forall other, other ≠ identity -> decode_gossip bs other = Err ChainIdentityMismatch
  else exists err, consensus_to_h2_v4 identity m = Err err.
Proof.
  intros Hc Hg Hm. destruct (static_message m) eqn:Est.
  - destruct (message_bridge m Hm Est) as (h & E1 & Hok & E2).
    pose proof (encodes_typed _ _ _ _ message_encodes _ Hok) as Ht.
    destruct (gossip_roundtrip (mkH2V4Envelope identity B256_ZERO h)) as (bs & E3 & E4 & E5);
      [by split_and!|done|].
    eexists _, bs. unfold consensus_to_h2_v4. rewrite E1. split; [done|]. split; [done|].
    split; [|done]. cbn [v4_identity] in E4. rewrite E4.
    cbn [map_err mbind result_bind outcome_bind]. unfold consensus_from_h2_v4. cbn. by rewrite E2.
  - unfold consensus_to_h2_v4. destruct m as [p| | | | | |d]; cbn [static_message] in Est; try done.
    + destruct (p_validator_changes p) as [[|c cs]|] eqn:Ec; try done. cbn. rewrite Ec. by eexists.
    + cbn. rewrite Est. by eexists.
Qed.
End delivery.
