(* ===== verification/H2Witnesses.v ===== *)
(** * Instances of the theorems about the cross-client wire

    A vote and a NewView of a committee of seven, with every number a valid
    signature and a compressor that stores its input. *)

From S2P Require Import Prelude Effects Crypto Messages Signing H2Wire H2WireTheory H2Codec H2Bridge.

#[local] Instance any_signature : SignatureEncoding := {| signature_decodes _ := true |}.

#[local] Instance stored : Snappy := {|
  snap_compress x := Ok x;
  snap_decompress_len x := Ok (length x);
  snap_decompress x := Ok x
|}.

#[local] Instance stored_laws : SnappyLaws stored.
Proof. split; cbn; [by eexists|congruence|congruence]. Qed.

#[local] Instance linear_blst : Blst := LinearBlst.linear.

Definition sample_identity : H2V4ChainIdentity := mkIdentity 94 17.
Definition sample_vote : H2V4Envelope :=
  mkH2V4Envelope sample_identity 51 (H2MVote (mkH2Vote 8 34 2 5 None)).
Definition sample_bytes : bytes :=
  Eval vm_compute in match h2_v4_encode_envelope sample_vote with Ok bs => bs | _ => [] end.

Lemma sample_bytes_ok : is_bytes sample_bytes.
Proof. unfold is_bytes. apply (bool_decide_unpack _). vm_compute. exact I. Qed.

(** The bytes of a vote, decoded for its chain; a legacy vote without the
    trailing field is read, and written with it. *)
Lemma h2_v4_accepts_exactly_encodings_witness :
  h2_v4_decode_envelope sample_bytes sample_identity = Ok sample_vote /\
  exists data, is_bytes data /\ decode_message data = Ok (v4_message sample_vote) /\
    encode_message (v4_message sample_vote) ≠ Ok data.
Proof.
  split.
  - apply (h2_v4_accepts_exactly_encodings sample_bytes sample_identity sample_bytes_ok).
    split; [repeat split; vm_compute; done|]. split; vm_compute; reflexivity.
  - exists (kind_byte KVote :: field (vote_body (mkH2Vote 8 34 2 5 None))).
    split; [unfold is_bytes; apply (bool_decide_unpack _); vm_compute; exact I|].
    split; [vm_compute; reflexivity|vm_compute; congruence].
Defined.

Definition sample_new_view : ConsensusMessage :=
  MNewView (mkNewView 9
    (mkTC 8 77 [true; true; true; false; true; true; false]
       (mkQC 7 34 78 [true; false; true; true; true; true; false])) 4 79).

Lemma h2_gossip_delivers_witness :
  static_message sample_new_view = true /\
  exists envelope bs,
    consensus_to_h2_v4 sample_identity sample_new_view = Ok envelope /\
    encode_gossip envelope = Ok bs /\
    (received ← map_err inl (decode_gossip bs sample_identity);
     map_err inr (consensus_from_h2_v4 received)) = Ok sample_new_view /\
    forall other, other ≠ sample_identity -> decode_gossip bs other = Err ChainIdentityMismatch.
Proof.
  split; [reflexivity|].
  apply (h2_gossip_delivers sample_identity sample_new_view); repeat split; vm_compute; done.
Defined.
