(* ===== verification/ValidatorSet.v ===== *)
(** * Validator sets and leader selection

    [crates/n42-consensus/src/validator/set.rs] and [.../selection.rs], with the
    counting facts the protocol rests on: two quorums of [n - f] signers share
    an honest one. *)

From S2P Require Import Prelude Effects Crypto Messages.

Record ValidatorEntry : Type := mkEntry {
  ve_address : Address;
  ve_public_key : BlsPublicKey;
  ve_p2p_peer_id : option string
}.

#[export] Instance ValidatorEntry_eq_dec : EqDecision ValidatorEntry.
Proof. solve_decision. Defined.

Record ValidatorSet : Type := mkValidatorSet {
  validators : list ValidatorEntry;
  fault_tolerance : N
}.

#[export] Instance ValidatorSet_eq_dec : EqDecision ValidatorSet.
Proof. solve_decision. Defined.

(** [len as u32] *)
Definition as_u32 (n : nat) : N := N.of_nat n mod (u32_max + 1).

Definition max_fault_tolerance_for_len (len : nat) : N := (as_u32 len - 1) / 3.

Definition validate_params (validator_count : nat) (f : N) : cresult unit :=
  let max_f := max_fault_tolerance_for_len validator_count in
  if max_f <? f
  then Err (InvalidValidatorSetParams (as_u32 validator_count) f max_f)
  else Ok tt.

Definition len (set : ValidatorSet) : N := as_u32 (length (validators set)).
Definition is_empty (set : ValidatorSet) : bool := bool_decide (validators set = []).

Definition quorum_size (set : ValidatorSet) : nat :=
  (length (validators set) - N.to_nat (fault_tolerance set))%nat.

Definition validator_infos (set : ValidatorSet) : list ValidatorInfo :=
  (fun entry => mkValidatorInfo (ve_address entry) (ve_public_key entry) (ve_p2p_peer_id entry))
    <$> validators set.

Definition get_public_key (set : ValidatorSet) (index : N) : cresult BlsPublicKey :=
  match validators set !! N.to_nat index with
  | Some v => Ok (ve_public_key v)
  | None => Err (UnknownValidator index (len set))
  end.

Definition get_address (set : ValidatorSet) (index : N) : cresult Address :=
  match validators set !! N.to_nat index with
  | Some v => Ok (ve_address v)
  | None => Err (UnknownValidator index (len set))
  end.

(** [iter().position(|entry| p(entry))] *)
Fixpoint position {A} (p : A -> bool) (l : list A) : option nat :=
  match l with
  | [] => None
  | x :: l' => if p x then Some 0%nat else S <$> position p l'
  end.

Definition index_of_public_key (set : ValidatorSet) (pk : BlsPublicKey) : option N :=
  as_u32 <$> position (fun entry => ve_public_key entry =? pk) (validators set).

Definition contains (set : ValidatorSet) (index : N) : bool :=
  (N.to_nat index <? length (validators set))%nat.

Definition contains_address (set : ValidatorSet) (addr : Address) : bool :=
  existsb (fun v => ve_address v =? addr) (validators set).

Definition all_public_keys (set : ValidatorSet) : list BlsPublicKey :=
  ve_public_key <$> validators set.

Fixpoint result_map {E A B} (f : A -> result E B) (l : list A) : result E (list B) :=
  match l with
  | [] => Ok []
  | x :: l' => y ← f x; ys ← result_map f l'; Ok (y :: ys)
  end.

Definition public_keys_for_signers (set : ValidatorSet) (signer_indices : list N)
  : cresult (list BlsPublicKey) :=
  result_map (get_public_key set) signer_indices.

Section construction.
Context {blst : Blst}.

Fixpoint try_new_entries (index : nat) (infos : list ValidatorInfo)
  : cresult (list ValidatorEntry) :=
  match infos with
  | [] => Ok []
  | v :: rest =>
      match validate (vi_bls_public_key v) with
      | Ok _ =>
          entries ← try_new_entries (S index) rest;
          Ok (mkEntry (vi_address v) (vi_bls_public_key v) (vi_p2p_peer_id v) :: entries)
      | _ => Err (InvalidValidatorPubkey (as_u32 index))
      end
  end.

Definition try_new (infos : list ValidatorInfo) (f : N) : cresult ValidatorSet :=
  _ ← validate_params (length infos) f;
  entries ← try_new_entries 0 infos;
  Ok (mkValidatorSet entries f).
End construction.

(** ** Leader selection ([selection.rs])

    [None] is the panic on an empty set. *)

Definition leader_for_view (view : ViewNumber) (set : ValidatorSet) : option N :=
  if is_empty set || (len set =? 0) then None else Some (view mod len set).

Definition is_leader (validator_index : N) (view : ViewNumber) (set : ValidatorSet)
  : option bool :=
  (fun leader => leader =? validator_index) <$> leader_for_view view set.

(** ** Well-formed sets *)

(** What [try_new] guarantees: the fault bound and validated keys. *)
Record set_wf {blst : Blst} (set : ValidatorSet) : Prop := {
  wf_faults : fault_tolerance set <= max_fault_tolerance_for_len (length (validators set));
  wf_keys : Forall (fun v => pk_validate (ve_public_key v) = BLST_SUCCESS) (validators set)
}.

Section theory.
Context {blst : Blst}.

Lemma try_new_entries_spec infos i entries :
  try_new_entries i infos = Ok entries ->
  entries = (fun v => mkEntry (vi_address v) (vi_bls_public_key v) (vi_p2p_peer_id v)) <$> infos /\
  Forall (fun v => pk_validate (vi_bls_public_key v) = BLST_SUCCESS) infos.
Proof.
  revert i entries. induction infos as [|v rest IH]; intros i entries H; cbn in H.
  - by simplify_eq.
  - destruct (validate (vi_bls_public_key v)) as [[]| | |] eqn:Ev; try done.
    destruct (try_new_entries (S i) rest) as [es| | |] eqn:Er; try done.
    cbn in H. simplify_eq. apply IH in Er as [-> Hf].
    split; [done|]. constructor; [|done]. apply of_blst_ok. unfold validate in Ev. by rewrite Ev.
Qed.

Lemma try_new_ok infos f set :
  try_new infos f = Ok set ->
  set_wf set /\ validator_infos set = infos /\ fault_tolerance set = f.
Proof.
  unfold try_new, validate_params. cbn.
  destruct (max_fault_tolerance_for_len (length infos) <? f) eqn:Ef; [done|]. cbn.
  destruct (try_new_entries 0 infos) as [es| | |] eqn:Ee; try done. cbn. intros [= <-].
  apply try_new_entries_spec in Ee as [-> Hk]. bool_simpl. split_and!; [|..|done].
  - constructor; cbn; [by rewrite length_fmap|]. by apply Forall_fmap.
  - unfold validator_infos. cbn. rewrite <- list_fmap_compose.
    rewrite <- (list_fmap_id infos) at 2. apply list_fmap_ext. by intros ? [].
Qed.

Lemma as_u32_le n : as_u32 n <= N.of_nat n.
Proof. unfold as_u32. apply N.Div0.mod_le. Qed.

(** The fault bound leaves at least three times as many validators as faults. *)
Lemma fault_bound set :
  set_wf set -> validators set ≠ [] ->
  (3 * N.to_nat (fault_tolerance set) < length (validators set))%nat.
Proof.
  intros [Hf _] Hne. unfold max_fault_tolerance_for_len in Hf.
  pose proof (as_u32_le (length (validators set))).
  assert (0 < length (validators set))%nat by (destruct (validators set); [done|cbn; lia]).
  pose proof (N.Div0.mul_div_le (as_u32 (length (validators set)) - 1) 3). lia.
Qed.

Lemma get_public_key_ok set i pk :
  get_public_key set i = Ok pk <->
  exists v, validators set !! N.to_nat i = Some v /\ ve_public_key v = pk.
Proof.
  unfold get_public_key. destruct (validators set !! _) as [v|]; split.
  - intros [= <-]. eauto.
  - by intros (? & [= <-] & <-).
  - done.
  - by intros (? & ? & ?).
Qed.

Lemma position_some {A} (p : A -> bool) l i :
  position p l = Some i -> exists x, l !! i = Some x /\ p x = true.
Proof.
  revert i. induction l as [|x l IH]; intros i H; cbn in H; [done|].
  destruct (p x) eqn:Ep; [by simplify_eq; eauto|].
  destruct (position p l) as [j|] eqn:Ej; cbn in H; simplify_eq. by apply IH.
Qed.

Lemma index_of_public_key_spec set pk i :
  N.of_nat (length (validators set)) <= u32_max ->
  index_of_public_key set pk = Some i -> get_public_key set i = Ok pk.
Proof.
  unfold index_of_public_key. intros Hlen H.
  apply fmap_Some in H as (j & Hj & ->). apply position_some in Hj as (v & Hv & Hp).
  pose proof (lookup_lt_Some _ _ _ Hv). apply N.eqb_eq in Hp.
  apply get_public_key_ok. exists v. split; [|done].
  unfold as_u32. rewrite N.mod_small by lia. by rewrite Nat2N.id.
Qed.

Lemma leader_for_view_bound view set l :
  leader_for_view view set = Some l -> l < len set.
Proof.
  unfold leader_for_view. destruct (is_empty set || (len set =? 0)) eqn:E; [done|].
  intros [= <-]. apply orb_false_iff in E as [_ E]. bool_simpl. by apply N.mod_lt.
Qed.
End theory.

(** Leaders rotate: the leader of a view is always a validator of the set,
    and among any [len] consecutive views every validator leads exactly one. *)
Theorem leaders_rotate set start i :
  validators set ≠ [] -> i < len set ->
  (forall view, exists l, leader_for_view view set = Some l /\ l < len set) /\
  exists k, (k < len set /\ leader_for_view (start + k) set = Some i) /\
    forall k', k' < len set -> leader_for_view (start + k') set = Some i -> k' = k.
Proof.
  intros Hne Hi.
  assert (Hl : forall view, leader_for_view view set = Some (view mod len set)).
  { intros view. unfold leader_for_view, is_empty. rewrite bool_decide_false by done.
    by rewrite (proj2 (N.eqb_neq _ _)) by lia. }
  split.
  { intros view. exists (view mod len set). split; [done|]. apply N.mod_lt. lia. }
  assert (Hs : start mod len set < len set) by (apply N.mod_lt; lia).
  pose proof (N.div_mod start (len set) ltac:(lia)) as Hd.
  set (r := start mod len set) in *. set (q := start / len set) in *.
  exists (if r <=? i then i - r else len set + i - r). split.
  - destruct (r <=? i) eqn:E; bool_simpl; (split; [lia|]); rewrite Hl; f_equal; symmetry.
    + apply (N.mod_unique _ _ q); lia.
    + apply (N.mod_unique _ _ (q + 1)); lia.
  - intros k' Hk'. rewrite Hl. intros [= Hm].
    pose proof (N.div_mod (start + k') (len set) ltac:(lia)) as Hd'. rewrite Hm in Hd'.
    set (q' := (start + k') / len set) in *.
    assert (q' = q \/ q' = q + 1) as [->| ->] by nia.
    + destruct (r <=? i) eqn:E; bool_simpl; lia.
    + destruct (r <=? i) eqn:E; bool_simpl; lia.
Qed.

(** ** Counting signers *)

Definition honest_overlap (byz a b : list bool) (i : nat) : Prop :=
  a !! i = Some true /\ b !! i = Some true /\ byz !! i = Some false.

Lemma count_ones_cons b l : count_ones (b :: l) = ((if b then 1 else 0) + count_ones l)%nat.
Proof. unfold count_ones. by destruct b. Qed.

Lemma count_overlap byz a b :
  length a = length byz -> length b = length byz ->
  (forall i, ~ honest_overlap byz a b i) ->
  (count_ones a + count_ones b <= length byz + count_ones byz)%nat.
Proof.
  revert a b. induction byz as [|z byz IH]; intros [|x a] [|y b]; cbn; try lia; try done.
  intros La Lb H. rewrite !count_ones_cons.
  assert (Hrec : (count_ones a + count_ones b <= length byz + count_ones byz)%nat).
  { apply IH; [lia|lia|]. intros i Hi. apply (H (S i)). exact Hi. }
  assert (~ (x = true /\ y = true /\ z = false)).
  { intros (-> & -> & ->). by apply (H 0%nat). }
  destruct x, y, z; lia || (exfalso; auto).
Qed.

(** Quorum intersection: with at most [f] faulty validators out of [n > 3f],
    two sets of at least [n - f] signers share a correct one. *)
Lemma quorum_intersection (byz a b : list bool) (f : nat) :
  length a = length byz -> length b = length byz ->
  (3 * f < length byz)%nat -> (count_ones byz <= f)%nat ->
  (length byz - f <= count_ones a)%nat -> (length byz - f <= count_ones b)%nat ->
  exists i, honest_overlap byz a b i.
Proof.
  intros La Lb Hn Hf Ha Hb.
  destruct (decide (Exists (fun i => honest_overlap byz a b i) (seq 0 (length byz)))) as [He|He].
  - apply Exists_exists in He as (i & _ & Hi). eauto.
  - exfalso. assert (Hno : forall i, ~ honest_overlap byz a b i).
    { intros i Hi. apply He, Exists_exists. exists i. split; [|done].
      destruct Hi as (_ & _ & Hz). apply lookup_lt_Some in Hz. apply elem_of_seq. lia. }
    pose proof (count_overlap byz a b La Lb Hno). lia.
Qed.
