(* ===== verification/Epoch.v ===== *)
(** * Epochs and dynamic validator sets
    ([crates/n42-consensus/src/validator/epoch.rs])

    [EpochManager] keeps the validator set of the current epoch, the staged set
    of the next one, a bounded history, and the queue of changes waiting for a
    CommitQC.  Its methods on [&mut self] are [ST EpochManager] computations. *)

From S2P Require Import Prelude Effects Crypto Messages Signing ValidatorSet.

Definition DEFAULT_MAX_HISTORICAL_EPOCHS : nat := 32.
Definition MAX_HISTORICAL_EPOCHS_LIMIT : nat := 256.
Definition MIN_VALIDATOR_COUNT : nat := 4.

Definition clamp_max_historical (value : nat) : nat :=
  Nat.min (Nat.max value 1) MAX_HISTORICAL_EPOCHS_LIMIT.

Record EpochManager : Type := mkEpochManager {
  epoch_length : N;
  current_epoch : N;
  current_set : ValidatorSet;
  next_set : option ValidatorSet;
  staged_info : option (list ValidatorInfo * N);
  historical_sets : gmap N ValidatorSet;
  max_historical_epochs : nat;
  pending_adds : list ValidatorInfo;
  pending_removes : list Address
}.

Definition EpochManager_eta (m : EpochManager) : EpochManager :=
  mkEpochManager (epoch_length m) (current_epoch m) (current_set m) (next_set m)
    (staged_info m) (historical_sets m) (max_historical_epochs m) (pending_adds m)
    (pending_removes m).

#[export] Instance set_epoch_length : Setter epoch_length.
Proof. solve_setter EpochManager_eta. Defined.
#[export] Instance set_current_epoch : Setter current_epoch.
Proof. solve_setter EpochManager_eta. Defined.
#[export] Instance set_current_set : Setter current_set.
Proof. solve_setter EpochManager_eta. Defined.
#[export] Instance set_next_set : Setter next_set.
Proof. solve_setter EpochManager_eta. Defined.
#[export] Instance set_staged_info : Setter staged_info.
Proof. solve_setter EpochManager_eta. Defined.
#[export] Instance set_historical_sets : Setter historical_sets.
Proof. solve_setter EpochManager_eta. Defined.
#[export] Instance set_pending_adds : Setter pending_adds.
Proof. solve_setter EpochManager_eta. Defined.
#[export] Instance set_pending_removes : Setter pending_removes.
Proof. solve_setter EpochManager_eta. Defined.

#[global] Arguments set_epoch_length _ _ /.
#[global] Arguments set_current_epoch _ _ /.
#[global] Arguments set_current_set _ _ /.
#[global] Arguments set_next_set _ _ /.
#[global] Arguments set_staged_info _ _ /.
#[global] Arguments set_historical_sets _ _ /.
#[global] Arguments set_pending_adds _ _ /.
#[global] Arguments set_pending_removes _ _ /.

(** ** Constructors *)

Definition EpochManager_new (set : ValidatorSet) : EpochManager :=
  mkEpochManager 0 0 set None None ∅ DEFAULT_MAX_HISTORICAL_EPOCHS [] [].

Definition with_epoch_length_and_history (set : ValidatorSet) (epoch_length : N)
  (max_historical : nat) : EpochManager :=
  mkEpochManager epoch_length 0 set None None ∅ (clamp_max_historical max_historical) [] [].

Definition with_epoch_length (set : ValidatorSet) (epoch_length : N) : EpochManager :=
  with_epoch_length_and_history set epoch_length DEFAULT_MAX_HISTORICAL_EPOCHS.

Definition from_epoch_with_history (set : ValidatorSet) (epoch_length starting_epoch : N)
  (max_historical : nat) : EpochManager :=
  mkEpochManager epoch_length starting_epoch set None None ∅
    (clamp_max_historical max_historical) [] [].

(** The smallest key of a [BTreeMap]. *)
Definition min_key {A} (m : gmap N A) : option N :=
  foldr (fun k acc => match acc with None => Some k | Some a => Some (N.min k a) end)
    None (map_to_list m).*1.

(** The loop that drops the oldest epochs while there are more than [bound]. *)
Fixpoint trim_loop (fuel : nat) (bound : nat) (m : gmap N ValidatorSet) : gmap N ValidatorSet :=
  match fuel with
  | O => m
  | S fuel' =>
      if (bound <? size m)%nat
      then trim_loop fuel' bound
             (match min_key m with Some oldest => delete oldest m | None => m end)
      else m
  end.

Definition trim (bound : nat) (m : gmap N ValidatorSet) : gmap N ValidatorSet :=
  trim_loop (size m) bound m.

(** ** Queries *)

Definition epochs_enabled (m : EpochManager) : bool := 0 <? epoch_length m.

Definition epoch_for_view (m : EpochManager) (view : N) : N :=
  if epoch_length m =? 0 then 0 else (view -s 1) / epoch_length m.

Definition is_epoch_boundary (m : EpochManager) (view : N) : bool :=
  if (epoch_length m =? 0) || (view <=? 1) then false
  else (view -s 1) mod epoch_length m =? 0.

Definition validator_set_for_view (m : EpochManager) (view : N) : ValidatorSet :=
  if epoch_length m =? 0 then current_set m
  else
    let epoch := epoch_for_view m view in
    if epoch =? current_epoch m then current_set m
    else
      match (if epoch =? current_epoch m +w 1 then next_set m else None) with
      | Some next => next
      | None =>
          match historical_sets m !! epoch with
          | Some set => set
          | None => current_set m
          end
      end.

Definition known_validator_set_for_view (m : EpochManager) (view : N) : option ValidatorSet :=
  if epoch_length m =? 0 then Some (current_set m)
  else
    let epoch := epoch_for_view m view in
    if epoch =? current_epoch m then Some (current_set m)
    else if epoch =? current_epoch m +w 1 then next_set m
    else historical_sets m !! epoch.

Definition has_staged_next (m : EpochManager) : bool :=
  match next_set m with Some _ => true | None => false end.

Definition staged_epoch_info (m : EpochManager) : option (N * list ValidatorInfo * N) :=
  (fun x => (current_epoch m +w 1, x.1, x.2)) <$> staged_info m.

Definition has_pending_changes (m : EpochManager) : bool :=
  match pending_adds m, pending_removes m with
  | [], [] => false
  | _, _ => true
  end.

Definition pending_change_count (m : EpochManager) : nat :=
  (length (pending_adds m) + length (pending_removes m))%nat.

Definition pending_changes_for_proposal (m : EpochManager) : option (list ValidatorChange) :=
  if has_pending_changes m
  then Some (((fun info => Add (vi_address info) (vi_bls_public_key info) (vi_p2p_peer_id info))
                <$> pending_adds m)
             ++ (Remove <$> pending_removes m))
  else None.

(** [HashSet] of the addresses of a list. *)
Definition address_set (l : list ValidatorInfo) : gset N := list_to_set (vi_address <$> l).

(** [sort_by_key(|v| v.address)] is stable: insertion from the right. *)
Fixpoint insert_by_address (v : ValidatorInfo) (l : list ValidatorInfo) : list ValidatorInfo :=
  match l with
  | [] => [v]
  | w :: l' => if vi_address v <=? vi_address w then v :: l else w :: insert_by_address v l'
  end.
Definition sort_by_address (l : list ValidatorInfo) : list ValidatorInfo :=
  foldr insert_by_address [] l.

(** [dedup_by_key(|v| v.address)]: the first of a run of equal keys stays. *)
Fixpoint dedup_from (prev : ValidatorInfo) (l : list ValidatorInfo) : list ValidatorInfo :=
  match l with
  | [] => []
  | v :: l' => if vi_address v =? vi_address prev then dedup_from prev l' else v :: dedup_from v l'
  end.
Definition dedup_by_address (l : list ValidatorInfo) : list ValidatorInfo :=
  match l with
  | [] => []
  | v :: l' => v :: dedup_from v l'
  end.

(** The validator list [commit_pending_changes] builds: current minus removes
    plus adds, sorted by address, without duplicate addresses. *)
Definition next_validators (m : EpochManager) : list ValidatorInfo :=
  dedup_by_address (sort_by_address
    (filter (fun v => vi_address v ∉ pending_removes m) (validator_infos (current_set m))
     ++ pending_adds m)).

(** Current validators (by index) whose address is in [addrs]. *)
Definition overlap_count (set : ValidatorSet) (addrs : gset N) : nat :=
  length (filter (fun v => ve_address v ∈ addrs) (take (N.to_nat (len set)) (validators set))).

Definition validate_transition (m : EpochManager) (new_validators : list ValidatorInfo)
  : cresult unit :=
  if (length new_validators <? MIN_VALIDATOR_COUNT)%nat
  then Err (InsufficientValidators (length new_validators) MIN_VALIDATOR_COUNT)
  else
    let overlap := overlap_count (current_set m) (address_set new_validators) in
    let required := quorum_size (current_set m) in
    if (overlap <? required)%nat then Err (InsufficientQuorumOverlap overlap required)
    else Ok tt.

Section digest.
Context {digest : Digest}.

Definition hash_changes (changes : list ValidatorChange) : B256 :=
  match changes with
  | [] => B256_ZERO
  | _ => blake3 (bincode_changes changes)
  end.

Definition pending_changes_hash (m : EpochManager) : B256 :=
  match pending_changes_for_proposal m with
  | Some ((_ :: _) as changes) => hash_changes changes
  | _ => B256_ZERO
  end.
End digest.

(** ** Mutations *)

Section mutations.
Context {blst : Blst}.

Fixpoint schedule_history (schedule : list (N * list ValidatorInfo * N))
  (acc : gmap N ValidatorSet) : cresult (gmap N ValidatorSet) :=
  match schedule with
  | [] => Ok acc
  | (epoch, infos, f) :: rest =>
      set ← try_new infos f;
      schedule_history rest (<[epoch := set]> acc)
  end.

Definition from_schedule_with_history (epoch_length : N)
  (schedule : list (N * list ValidatorInfo * N)) (max_historical : nat)
  : cresult EpochManager :=
  match last schedule with
  | None => Err EpochScheduleEmpty
  | Some (epoch, infos, f) =>
      let bound := clamp_max_historical max_historical in
      historical ← schedule_history (take (length schedule - 1) schedule) ∅;
      let historical := trim bound historical in
      current ← try_new infos f;
      Ok (mkEpochManager epoch_length epoch current None None historical bound [] [])
  end.

Definition stage_next_epoch (infos : list ValidatorInfo) (f : N)
  : ST EpochManager ConsensusError unit :=
  set ← try_ (fun _ => try_new infos f);
  modify (fun m => m <| next_set := Some set |>) ;;
  modify (fun m => m <| staged_info := Some (infos, f) |>).

(** [trim_historical] after the current set went into history. *)
Definition retire_current (m : EpochManager) : EpochManager :=
  m <| historical_sets :=
         trim (max_historical_epochs m) (<[current_epoch m := current_set m]> (historical_sets m)) |>.

Definition advance_epoch (m : EpochManager) : EpochManager * bool :=
  match next_set m with
  | None => (m, false)
  | Some next =>
      let m := m <| next_set := None |> <| staged_info := None |> in
      let m := retire_current m in
      (m <| current_epoch := current_epoch m +w 1 |> <| current_set := next |>, true)
  end.

Definition carry_epoch_forward (m : EpochManager) : EpochManager * bool :=
  if has_staged_next m || (epoch_length m =? 0) then (m, false)
  else
    let m := retire_current m in
    (m <| current_epoch := current_epoch m +w 1 |>, true).

Definition check_proposals_allowed (m : EpochManager) : cresult unit :=
  if epoch_length m =? 0 then Err EpochsDisabled
  else if has_staged_next m then Err EpochTransitionAlreadyStaged
  else Ok tt.

Definition propose_add_validator (info : ValidatorInfo) : ST EpochManager ConsensusError unit :=
  _ ← try_ check_proposals_allowed;
  m ← get;
  let addr := vi_address info in
  if contains_address (current_set m) addr then fail (ValidatorAlreadyExists addr)
  else if existsb (fun v => vi_address v =? addr) (pending_adds m)
  then fail (ValidatorAlreadyExists addr)
  else modify (fun m => m <| pending_adds ::= (fun l => l ++ [info]) |>).

Definition propose_remove_validator (addr : Address) : ST EpochManager ConsensusError unit :=
  _ ← try_ check_proposals_allowed;
  m ← get;
  if negb (contains_address (current_set m) addr) then fail (ValidatorNotFound addr)
  else if bool_decide (addr ∈ pending_removes m) then fail (ValidatorAlreadyPendingRemoval addr)
  else
    let future_count :=
      (N.to_nat (len (current_set m)) + length (pending_adds m)
       - length (pending_removes m) - 1)%nat in
    if (future_count <? MIN_VALIDATOR_COUNT)%nat
    then fail (InsufficientValidators future_count MIN_VALIDATOR_COUNT)
    else modify (fun m => m <| pending_removes ::= (fun l => l ++ [addr]) |>).

Definition commit_pending_changes : ST EpochManager ConsensusError unit :=
  m ← get;
  if negb (has_pending_changes m) then mret tt
  else
    let new_validators := next_validators m in
    _ ← try_ (fun m => validate_transition m new_validators);
    let new_f := max_fault_tolerance_for_len (length new_validators) in
    stage_next_epoch new_validators new_f ;;
    modify (fun m => m <| pending_adds := [] |>) ;;
    modify (fun m => m <| pending_removes := [] |>).

(** One step of the loop of [replace_pending_from_proposal]. *)
Definition push_change (m : EpochManager) (change : ValidatorChange) : EpochManager :=
  match change with
  | Add a pk peer => m <| pending_adds ::= (fun l => l ++ [mkValidatorInfo a pk peer]) |>
  | Remove a => m <| pending_removes ::= (fun l => l ++ [a]) |>
  end.

Definition replace_pending_from_proposal (changes : list ValidatorChange) (m : EpochManager)
  : EpochManager :=
  foldl push_change (m <| pending_adds := [] |> <| pending_removes := [] |>) changes.

Definition apply_committed_changes_from_sync (changes : list ValidatorChange)
  : ST EpochManager ConsensusError unit :=
  modify (replace_pending_from_proposal changes) ;;
  commit_pending_changes.

Definition clear_pending_changes (m : EpochManager) : EpochManager :=
  if has_pending_changes m then m <| pending_adds := [] |> <| pending_removes := [] |> else m.
End mutations.
