(* ===== verification/EpochTheory.v ===== *)
(** * Theory of the epoch manager

    The invariant [epoch_wf] of [EpochManager] and its preservation by every
    mutation; the arithmetic of epochs; what a committed reconfiguration
    stages; that every follower stages what the leader staged; that an epoch
    transition keeps the sets of the epochs around it resolvable. *)

From S2P Require Import Prelude Effects Crypto Messages Signing ValidatorSet Epoch.

(** ** Epoch arithmetic *)

Lemma epoch_for_view_bounds m view :
  epoch_length m ≠ 0 -> 1 <= view ->
  epoch_for_view m view * epoch_length m < view /\
  view <= (epoch_for_view m view + 1) * epoch_length m.
Proof.
  intros HL Hv. unfold epoch_for_view, u64_sat_sub.
  rewrite (proj2 (N.eqb_neq _ _) HL).
  pose proof (N.div_mod (view - 1) (epoch_length m) HL) as Hd.
  pose proof (N.mod_lt (view - 1) (epoch_length m) HL).
  set (q := (view - 1) / epoch_length m) in *. set (r := (view - 1) mod epoch_length m) in *.
  assert (view = epoch_length m * q + r + 1) by lia. lia.
Qed.

Lemma epoch_for_view_unique m view e :
  epoch_length m ≠ 0 -> e * epoch_length m < view -> view <= (e + 1) * epoch_length m ->
  epoch_for_view m view = e.
Proof.
  intros HL Hlo Hhi.
  destruct (epoch_for_view_bounds m view HL ltac:(lia)) as [Hlo' Hhi']. nia.
Qed.

Lemma epoch_for_view_mono m v w : v <= w -> epoch_for_view m v <= epoch_for_view m w.
Proof.
  intros H. unfold epoch_for_view, u64_sat_sub. destruct (epoch_length m =? 0) eqn:E; [done|].
  bool_simpl. apply N.Div0.div_le_mono. lia.
Qed.

Lemma epoch_for_view_le m v : epoch_for_view m v <= v - 1.
Proof.
  unfold epoch_for_view, u64_sat_sub. destruct (epoch_length m =? 0) eqn:E; [lia|].
  bool_simpl. apply N.Div0.div_le_upper_bound. nia.
Qed.

(** A boundary is exactly a view whose epoch is one more than its predecessor's. *)
Lemma epoch_boundary_iff m view :
  is_epoch_boundary m view = true <->
  epoch_length m ≠ 0 /\ 1 < view /\
  epoch_for_view m view = epoch_for_view m (view - 1) + 1.
Proof.
  unfold is_epoch_boundary.
  destruct (epoch_length m =? 0) eqn:E0; cbn [orb]; bool_simpl.
  { split; [done|]. intros [H _]. done. }
  destruct (view <=? 1) eqn:E1; bool_simpl.
  { split; [done|]. intros (_ & H & _). lia. }
  unfold u64_sat_sub. rewrite N.eqb_eq.
  destruct (epoch_for_view_bounds m view E0 ltac:(lia)) as [Hlo Hhi].
  destruct (epoch_for_view_bounds m (view - 1) E0 ltac:(lia)) as [Hlo' Hhi'].
  pose proof (epoch_for_view_mono m (view - 1) view ltac:(lia)).
  split.
  - intros Hm. split_and!; auto. apply N.Div0.mod_divides in Hm as [c Hc].
    assert (c ≠ 0) by (intros ->; lia).
    rewrite (epoch_for_view_unique m view c) by nia.
    rewrite (epoch_for_view_unique m (view - 1) (c - 1)) by nia. lia.
  - intros (_ & _ & He). apply N.Div0.mod_divides. exists (epoch_for_view m view). nia.
Qed.

(** ** The bounded history *)

Lemma min_key_none {A} (m : gmap N A) : min_key m = None -> m = ∅.
Proof.
  unfold min_key. intros H. destruct (map_to_list m) as [|[k x] l] eqn:E.
  - by apply map_to_list_empty_iff.
  - cbn in H. destruct (foldr _ _ _) in H; done.
Qed.

Lemma min_key_foldr (l : list N) k :
  foldr (fun k acc => match acc with None => Some k | Some a => Some (N.min k a) end) None l
    = Some k ->
  k ∈ l /\ forall x, x ∈ l -> k <= x.
Proof.
  revert k. induction l as [|y l IH]; intros k H; cbn in H; [done|].
  destruct (foldr _ None l) as [a|] eqn:E.
  - simplify_eq. destruct (IH a eq_refl) as [Ha Hle]. split.
    + destruct (N.min_spec y a) as [[_ ->]|[_ ->]]; [left|by right].
    + intros x [->|Hx]%elem_of_cons; [lia|]. specialize (Hle x Hx). lia.
  - simplify_eq. destruct l as [|z l]; [|cbn in E; destruct (foldr _ None l); done].
    split; [left|]. intros x Hx. apply list_elem_of_singleton in Hx. lia.
Qed.

Lemma min_key_some {A} (m : gmap N A) k :
  min_key m = Some k -> is_Some (m !! k) /\ forall j, is_Some (m !! j) -> k <= j.
Proof.
  intros H. apply min_key_foldr in H as [Hk Hle]. split.
  - apply list_elem_of_fmap in Hk as ([k' x] & -> & Hx). apply elem_of_map_to_list in Hx. eauto.
  - intros j [x Hx]. apply Hle. apply list_elem_of_fmap. exists (j, x).
    split; [done|]. by apply elem_of_map_to_list.
Qed.

Lemma trim_loop_subseteq fuel b m : trim_loop fuel b m ⊆ m.
Proof.
  revert m. induction fuel as [|fuel IH]; intros m; cbn; [reflexivity|].
  destruct (b <? size m)%nat; [|reflexivity]. etrans; [apply IH|].
  destruct (min_key m); [apply delete_subseteq|reflexivity].
Qed.
Lemma trim_subseteq b m : trim b m ⊆ m.
Proof. apply trim_loop_subseteq. Qed.

Lemma trim_loop_size fuel b m :
  (size m <= fuel)%nat -> (size (trim_loop fuel b m) <= b)%nat.
Proof.
  revert m. induction fuel as [|fuel IH]; intros m Hs; cbn; [lia|].
  destruct (b <? size m)%nat eqn:E; bool_simpl; [|lia]. apply IH.
  destruct (min_key m) as [k|] eqn:Ek.
  - apply min_key_some in Ek as [Hk _]. rewrite map_size_delete_Some by done. lia.
  - apply min_key_none in Ek as ->. rewrite map_size_empty. lia.
Qed.
Lemma trim_size b m : (size (trim b m) <= b)%nat.
Proof. by apply trim_loop_size. Qed.

(** The newest epoch is never the one that is dropped. *)
Lemma trim_loop_newest fuel b m k :
  (1 <= b)%nat -> is_Some (m !! k) -> (forall j, is_Some (m !! j) -> j <= k) ->
  trim_loop fuel b m !! k = m !! k.
Proof.
  intros Hb. revert m. induction fuel as [|fuel IH]; intros m Hk Hmax; cbn; [done|].
  destruct (b <? size m)%nat eqn:E; bool_simpl; [|done].
  destruct (min_key m) as [k'|] eqn:Ek; [|by apply IH].
  apply min_key_some in Ek as [[x Hx] Hmin].
  assert (k' ≠ k) as Hne.
  { intros ->. assert (m = {[k := x]}) as ->.
    - apply map_eq. intros j. rewrite lookup_singleton. case_decide as Ej; [by subst|].
      destruct (m !! j) as [y|] eqn:Hj; [|done]. exfalso. apply Ej.
      assert (is_Some (m !! j)) by eauto. specialize (Hmax j ltac:(done)).
      specialize (Hmin j ltac:(done)). lia.
    - rewrite map_size_singleton in E. lia. }
  rewrite IH.
  - by rewrite lookup_delete_ne.
  - by rewrite lookup_delete_ne.
  - intros j Hj. apply Hmax. destruct (decide (j = k')) as [->|];
      [by rewrite lookup_delete_eq in Hj; destruct Hj|by rewrite lookup_delete_ne in Hj].
Qed.

Lemma trim_newest b m k :
  (1 <= b)%nat -> is_Some (m !! k) -> (forall j, is_Some (m !! j) -> j <= k) ->
  trim b m !! k = m !! k.
Proof. apply trim_loop_newest. Qed.

(** ** The invariant *)

Section wf.
Context {blst : Blst}.

Record epoch_wf (m : EpochManager) : Prop := {
  ewf_current : set_wf (current_set m);
  ewf_next : forall s, next_set m = Some s -> set_wf s;
  ewf_history : map_Forall (fun _ s => set_wf s) (historical_sets m);
  ewf_past : forall e, is_Some (historical_sets m !! e) -> e < current_epoch m;
  ewf_bound : (1 <= max_historical_epochs m <= MAX_HISTORICAL_EPOCHS_LIMIT)%nat;
  ewf_size : (size (historical_sets m) <= max_historical_epochs m)%nat;
  ewf_staged :
    staged_info m = (fun s => (validator_infos s, fault_tolerance s)) <$> next_set m
}.

Lemma clamp_bounds v : (1 <= clamp_max_historical v <= MAX_HISTORICAL_EPOCHS_LIMIT)%nat.
Proof. unfold clamp_max_historical, MAX_HISTORICAL_EPOCHS_LIMIT. lia. Qed.

Lemma fresh_epoch_wf set l e h :
  set_wf set -> (1 <= h <= MAX_HISTORICAL_EPOCHS_LIMIT)%nat ->
  epoch_wf (mkEpochManager l e set None None ∅ h [] []).
Proof.
  intros H Hb. split; cbn; [done|done|apply map_Forall_empty| |done| |done].
  - intros e' [? He]. by rewrite lookup_empty in He.
  - rewrite map_size_empty. lia.
Qed.

Lemma epoch_new_wf set : set_wf set -> epoch_wf (EpochManager_new set).
Proof.
  intros H. apply fresh_epoch_wf; [done|].
  unfold DEFAULT_MAX_HISTORICAL_EPOCHS, MAX_HISTORICAL_EPOCHS_LIMIT. lia.
Qed.

Lemma from_epoch_wf set l e h :
  set_wf set -> epoch_wf (from_epoch_with_history set l e h).
Proof. intros H. apply fresh_epoch_wf; [done|apply clamp_bounds]. Qed.

Lemma retired_history m :
  epoch_wf m ->
  let h := trim (max_historical_epochs m)
             (<[current_epoch m := current_set m]> (historical_sets m)) in
  map_Forall (fun _ s => set_wf s) h /\
  (forall e, is_Some (h !! e) -> e <= current_epoch m) /\
  (size h <= max_historical_epochs m)%nat /\
  h !! current_epoch m = Some (current_set m).
Proof.
  intros [Hc _ Hh Hp Hb _ _] h. subst h. set (h := <[_ := _]> _).
  assert (Hle : forall e, is_Some (h !! e) -> e <= current_epoch m).
  { intros e He. subst h. destruct (decide (e = current_epoch m)) as [->|Hne]; [lia|].
    rewrite lookup_insert_ne in He by done. apply Hp in He. lia. }
  pose proof (trim_subseteq (max_historical_epochs m) h) as Hsub.
  split_and!.
  - apply map_Forall_lookup. intros e s Hs. apply (lookup_weaken _ _ _ _ Hs) in Hsub.
    subst h. destruct (decide (e = current_epoch m)) as [->|Hne].
    + rewrite lookup_insert_eq in Hsub. by simplify_eq.
    + rewrite lookup_insert_ne in Hsub by done. by apply (Hh e).
  - intros e [s Hs]. apply Hle. exists s. by apply (lookup_weaken _ _ _ _ Hs).
  - apply trim_size.
  - rewrite trim_newest; [|lia| |done]; subst h; by rewrite lookup_insert_eq.
Qed.

Lemma wadd_succ e : e < u64_max -> e +w 1 = e + 1.
Proof. intros H. apply u64_wadd_exact. lia. Qed.

Lemma wadd_twice_ne e : e < u64_max -> (e =? e + 1 +w 1) = false.
Proof.
  intros H. apply N.eqb_neq. unfold u64_wadd, u64_wrap, u64_modulus, u64_max in *.
  destruct (decide (e + 1 + 1 = 18446744073709551616)) as [Heq|].
  - rewrite Heq, N.Div0.mod_same. lia.
  - rewrite N.mod_small by lia. lia.
Qed.

Lemma advance_epoch_wf m :
  epoch_wf m -> current_epoch m < u64_max -> epoch_wf (advance_epoch m).1.
Proof.
  intros Hwf He. unfold advance_epoch. destruct (next_set m) as [s|] eqn:En; [|done].
  destruct (retired_history m Hwf) as (H1 & H2 & H3 & _). destruct Hwf. cbn in *.
  constructor; cbn; rewrite ?wadd_succ by done; auto; try done.
  intros e Hx. apply H2 in Hx. lia.
Qed.

Lemma carry_epoch_forward_wf m :
  epoch_wf m -> current_epoch m < u64_max -> epoch_wf (carry_epoch_forward m).1.
Proof.
  intros Hwf He. unfold carry_epoch_forward.
  destruct (has_staged_next m || (epoch_length m =? 0)); [done|].
  destruct (retired_history m Hwf) as (H1 & H2 & H3 & _). destruct Hwf. cbn in *.
  constructor; cbn; rewrite ?wadd_succ by done; auto; try done.
  intros e Hx. apply H2 in Hx. lia.
Qed.

(** The pending queues are outside the invariant. *)
Lemma epoch_wf_pending m a r :
  epoch_wf m -> epoch_wf (m <| pending_adds := a |> <| pending_removes := r |>).
Proof. intros []. by constructor. Qed.

Definition same_but_pending (m m' : EpochManager) : Prop :=
  m' = m <| pending_adds := pending_adds m' |> <| pending_removes := pending_removes m' |>.

Lemma replace_pending_frame changes m :
  same_but_pending m (replace_pending_from_proposal changes m).
Proof.
  unfold replace_pending_from_proposal, same_but_pending.
  set (m0 := m <| pending_adds := [] |> <| pending_removes := [] |>).
  assert (H0 : same_but_pending m m0) by done. unfold same_but_pending in H0.
  clearbody m0. revert m0 H0. induction changes as [|[a pk peer|a] l IH]; intros m0 H0; [done|..];
    cbn [foldl]; apply IH; cbn; rewrite H0; done.
Qed.

Lemma replace_pending_wf changes m :
  epoch_wf m -> epoch_wf (replace_pending_from_proposal changes m).
Proof. intros H. rewrite (replace_pending_frame changes m). by apply epoch_wf_pending. Qed.

Lemma stage_next_epoch_wf infos f m :
  epoch_wf m -> epoch_wf (stage_next_epoch infos f m).1.
Proof.
  intros H. unfold stage_next_epoch, mbind, st_bind, try_, modify. cbn.
  destruct (try_new infos f) as [s| | |] eqn:E; [|done..]. cbn.
  apply try_new_ok in E as (Hs & Hi & Hf). destruct H. constructor; cbn; auto.
  - by intros ? [= <-].
  - by rewrite Hi, Hf.
Qed.

Lemma propose_add_wf info m : epoch_wf m -> epoch_wf (propose_add_validator info m).1.
Proof.
  intros H. unfold propose_add_validator, mbind, st_bind, try_, modify, get, fail. cbn.
  repeat case_step; cbn; try done. by destruct H; constructor.
Qed.

Lemma propose_remove_wf addr m : epoch_wf m -> epoch_wf (propose_remove_validator addr m).1.
Proof.
  intros H. unfold propose_remove_validator, mbind, st_bind, try_, modify, get, fail. cbn.
  repeat case_step; cbn; try done. by destruct H; constructor.
Qed.

Lemma commit_pending_wf m : epoch_wf m -> epoch_wf (commit_pending_changes m).1.
Proof.
  intros H. unfold commit_pending_changes. unfold mbind, st_bind, get, try_. cbn.
  destruct (negb (has_pending_changes m)); [done|]. cbn.
  destruct (validate_transition _ _); try done. cbn.
  pose proof (stage_next_epoch_wf (next_validators m)
    (max_fault_tolerance_for_len (length (next_validators m))) m H) as Hs.
  destruct (stage_next_epoch _ _ m) as [m' [[]| | |]]; cbn in *; try done.
  by apply epoch_wf_pending.
Qed.

Lemma clear_pending_wf m : epoch_wf m -> epoch_wf (clear_pending_changes m).
Proof.
  unfold clear_pending_changes. case_match; [|done]. apply epoch_wf_pending.
Qed.

(** ** Resolution of validator sets *)

(** A set that is known exactly is the one the best-effort lookup returns. *)
Lemma known_is_resolved m view s :
  known_validator_set_for_view m view = Some s -> validator_set_for_view m view = s.
Proof.
  unfold known_validator_set_for_view, validator_set_for_view.
  destruct (epoch_length m =? 0); [by intros [= <-]|].
  destruct (_ =? current_epoch m); [by intros [= <-]|].
  destruct (_ =? current_epoch m +w 1); intros H; by rewrite H.
Qed.

Lemma known_wf m view s :
  epoch_wf m -> known_validator_set_for_view m view = Some s -> set_wf s.
Proof.
  intros [Hc Hn Hh _ _ _ _]. unfold known_validator_set_for_view.
  repeat case_match; intros H'; try (by simplify_eq); [by apply Hn|by apply (Hh _ _ H')].
Qed.

Lemma resolved_wf m view : epoch_wf m -> set_wf (validator_set_for_view m view).
Proof.
  intros [Hc Hn Hh _ _ _ _]. unfold validator_set_for_view.
  repeat case_match; try done; simplify_eq; auto; by eapply Hh.
Qed.

(** Both ways of crossing an epoch boundary keep the exact set of every view
    of the two epochs around it. *)
Lemma cross_epoch_known m view s :
  epoch_wf m -> epoch_length m ≠ 0 -> current_epoch m < u64_max ->
  epoch_for_view m view = current_epoch m \/ epoch_for_view m view = current_epoch m + 1 ->
  known_validator_set_for_view m view = Some s ->
  known_validator_set_for_view
    (if has_staged_next m then (advance_epoch m).1 else (carry_epoch_forward m).1) view = Some s.
Proof.
  intros Hwf HL He Hep Hk. destruct (retired_history m Hwf) as (_ & _ & _ & Hret).
  unfold known_validator_set_for_view in Hk. rewrite (proj2 (N.eqb_neq _ _) HL) in Hk.
  unfold has_staged_next, advance_epoch, carry_epoch_forward, has_staged_next.
  destruct (next_set m) as [nxt|] eqn:En; cbn [orb];
    rewrite ?(proj2 (N.eqb_neq _ _) HL);
    unfold known_validator_set_for_view, retire_current; cbn;
    rewrite ?(proj2 (N.eqb_neq _ _) HL), wadd_succ in * by done;
    change (epoch_for_view _ view) with (epoch_for_view m view) in *.
  all: destruct Hep as [Hep|Hep]; rewrite Hep in *;
    rewrite ?N.eqb_refl; rewrite ?N.eqb_refl in Hk.
  all: try (rewrite (proj2 (N.eqb_neq (current_epoch m) (current_epoch m + 1))) by lia).
  all: try (rewrite (proj2 (N.eqb_neq (current_epoch m + 1) (current_epoch m))) in Hk by lia).
  all: rewrite ?(wadd_twice_ne (current_epoch m)) by done.
  all: congruence.
Qed.
End wf.

(** ** The committed reconfiguration *)

Lemma insert_by_address_perm v l : insert_by_address v l ≡ₚ v :: l.
Proof.
  induction l as [|w l IH]; cbn; [done|]. case_match; [done|]. rewrite IH. apply perm_swap.
Qed.
Lemma sort_by_address_perm l : sort_by_address l ≡ₚ l.
Proof. induction l as [|v l IH]; cbn; [done|]. by rewrite insert_by_address_perm, IH. Qed.

Definition addr_le (v w : ValidatorInfo) : Prop := vi_address v <= vi_address w.
Definition addr_lt (v w : ValidatorInfo) : Prop := vi_address v < vi_address w.

Lemma insert_by_address_sorted v l :
  StronglySorted addr_le l -> StronglySorted addr_le (insert_by_address v l).
Proof.
  induction 1 as [|w l Hs IH Hw]; cbn; [repeat constructor|].
  case_match eqn:E; bool_simpl.
  - constructor; [by constructor|]. constructor; [done|].
    eapply Forall_impl; [exact Hw|]. unfold addr_le. intros; lia.
  - constructor; [done|]. rewrite insert_by_address_perm. constructor; [unfold addr_le; lia|done].
Qed.
Lemma sort_by_address_sorted l : StronglySorted addr_le (sort_by_address l).
Proof. induction l; cbn; [constructor|by apply insert_by_address_sorted]. Qed.

Lemma dedup_from_spec prev l :
  StronglySorted addr_le l -> Forall (addr_le prev) l ->
  StronglySorted addr_lt (dedup_from prev l) /\ Forall (addr_lt prev) (dedup_from prev l) /\
  dedup_from prev l ⊆ l /\
  (forall v, v ∈ l -> vi_address v = vi_address prev \/ vi_address v ∈ vi_address <$> dedup_from prev l).
Proof.
  revert prev. induction l as [|w l IH]; intros prev Hs Hp; cbn.
  { split_and!; [constructor|constructor|done|]. by intros v Hv%not_elem_of_nil. }
  inversion Hs as [|? ? Hs' Hw]; subst. inversion Hp as [|? ? Hpw Hp']; subst.
  case_match eqn:E; bool_simpl.
  - destruct (IH prev Hs' Hp') as (H1 & H2 & H3 & H4). split_and!; auto; [set_solver|].
    intros v [->|Hv]%elem_of_cons; auto.
  - destruct (IH w Hs' Hw) as (H1 & H2 & H3 & H4). unfold addr_le, addr_lt in *.
    split_and!; [by constructor| | |].
    + constructor; [lia|]. eapply Forall_impl; [exact H2|]. cbn. intros; lia.
    + set_solver.
    + intros v [->|Hv]%elem_of_cons; right; cbn; [left|].
      destruct (H4 v Hv) as [->|Hin]; [left|by right].
Qed.

Lemma dedup_sorted_spec l :
  StronglySorted addr_le l ->
  StronglySorted addr_lt (dedup_by_address l) /\ dedup_by_address l ⊆ l /\
  (forall v, v ∈ l -> vi_address v ∈ vi_address <$> dedup_by_address l).
Proof.
  destruct l as [|w l]; cbn.
  { intros _. split_and!; [constructor|done|]. by intros v Hv%not_elem_of_nil. }
  intros Hs. inversion Hs as [|? ? Hs' Hw]; subst.
  destruct (dedup_from_spec w l Hs' Hw) as (H1 & H2 & H3 & H4). split_and!.
  - by constructor.
  - set_solver.
  - intros v [->|Hv]%elem_of_cons; cbn; [left|]. destruct (H4 v Hv) as [->|Hin]; [left|by right].
Qed.

(** The staged list is strictly ordered by address, and its addresses are the
    current ones without the removed ones, plus the added ones. *)
Lemma next_validators_spec m :
  StronglySorted addr_lt (next_validators m) /\
  (forall a, a ∈ vi_address <$> next_validators m <->
     (a ∈ ve_address <$> validators (current_set m) /\ a ∉ pending_removes m) \/
     a ∈ vi_address <$> pending_adds m) /\
  (forall v, v ∈ next_validators m ->
     v ∈ validator_infos (current_set m) \/ v ∈ pending_adds m).
Proof.
  unfold next_validators. set (base := filter _ _ ++ _).
  destruct (dedup_sorted_spec _ (sort_by_address_sorted base)) as (H1 & H2 & H3).
  assert (Hb : forall v, v ∈ sort_by_address base <-> v ∈ base).
  { intros v. by rewrite (sort_by_address_perm base). }
  split_and!; [done| |].
  - intros a. rewrite list_elem_of_fmap. split.
    + intros (v & -> & Hv). apply H2, Hb in Hv. subst base.
      apply elem_of_app in Hv as [Hv|Hv]; [left|right; apply list_elem_of_fmap; eauto].
      apply list_elem_of_filter in Hv as [Hr Hv]. split; [|done].
      unfold validator_infos in Hv. apply list_elem_of_fmap in Hv as (e & -> & He).
      apply list_elem_of_fmap. by exists e.
    + intros Ha. assert (exists v, v ∈ base /\ a = vi_address v) as (v & Hv & ->).
      { subst base. destruct Ha as [[Ha Hr]|Ha].
        - apply list_elem_of_fmap in Ha as (e & -> & He).
          exists (mkValidatorInfo (ve_address e) (ve_public_key e) (ve_p2p_peer_id e)).
          split; [|done]. apply elem_of_app. left. apply list_elem_of_filter. split; [done|].
          apply list_elem_of_fmap. by exists e.
        - apply list_elem_of_fmap in Ha as (v & -> & Hv). exists v. split; [|done].
          apply elem_of_app. by right. }
      apply list_elem_of_fmap. apply H3. by apply Hb.
  - intros v Hv. apply H2, Hb in Hv. subst base.
    apply elem_of_app in Hv as [Hv|Hv]; [left|by right]. by apply list_elem_of_filter in Hv as [_ Hv].
Qed.

Section commit.
Context {blst : Blst}.

(** Success stages exactly [next_validators]; failure leaves the manager as it
    was. *)
Lemma commit_pending_outcome m :
  has_pending_changes m = true ->
  match commit_pending_changes m with
  | (m', Ok _) =>
      (MIN_VALIDATOR_COUNT <= length (next_validators m))%nat /\
      (quorum_size (current_set m) <=
         overlap_count (current_set m) (address_set (next_validators m)))%nat /\
      exists s, try_new (next_validators m)
                  (max_fault_tolerance_for_len (length (next_validators m))) = Ok s /\
        m' = m <| next_set := Some s |>
               <| staged_info := Some (next_validators m,
                    max_fault_tolerance_for_len (length (next_validators m))) |>
               <| pending_adds := [] |> <| pending_removes := [] |>
  | (m', _) => m' = m
  end.
Proof.
  intros Hp. unfold commit_pending_changes, stage_next_epoch.
  unfold mbind, st_bind, get, try_, modify, mret, st_ret. rewrite Hp. cbn [negb].
  unfold validate_transition.
  destruct (length (next_validators m) <? MIN_VALIDATOR_COUNT)%nat eqn:E1; [done|].
  destruct (overlap_count _ _ <? quorum_size _)%nat eqn:E2; [done|]. bool_simpl.
  destruct (try_new _ _) as [s| | |] eqn:Et; try done. split_and!; [done|done|]. by exists s.
Qed.
End commit.

(** ** Leader and follower *)

Lemma push_adds l m :
  foldl push_change m
    ((fun i => Add (vi_address i) (vi_bls_public_key i) (vi_p2p_peer_id i)) <$> l) =
  m <| pending_adds ::= (fun x => x ++ l) |>.
Proof.
  revert m. induction l as [|[a pk peer] l IH]; intros [? ? ? ? ? ? ? ? ?]; cbn.
  - by rewrite app_nil_r.
  - rewrite IH. cbn. by rewrite <- app_assoc.
Qed.
Lemma push_removes l m :
  foldl push_change m (Remove <$> l) = m <| pending_removes ::= (fun x => x ++ l) |>.
Proof.
  revert m. induction l as [|a l IH]; intros [? ? ? ? ? ? ? ? ?]; cbn.
  - by rewrite app_nil_r.
  - rewrite IH. cbn. by rewrite <- app_assoc.
Qed.

(** Installing the leader's proposed changes gives a follower the leader's
    queues. *)
Lemma replace_pending_roundtrip leader follower changes :
  pending_changes_for_proposal leader = Some changes ->
  replace_pending_from_proposal changes follower =
  follower <| pending_adds := pending_adds leader |>
           <| pending_removes := pending_removes leader |>.
Proof.
  unfold pending_changes_for_proposal. destruct (has_pending_changes leader); [|done].
  intros [= <-]. unfold replace_pending_from_proposal.
  rewrite foldl_app, push_adds, push_removes. by destruct follower.
Qed.

(** ** What the epoch manager promises *)

Section promises.
Context {blst : Blst} {digest : Digest}.

(** With epochs enabled the views from 1 on are partitioned into
    consecutive epochs of [epoch_length] views, and a view is a boundary exactly
    when it is the first of an epoch other than epoch 0. *)
Lemma epochs_partition_views m view e :
  epoch_length m ≠ 0 -> 1 <= view ->
  (epoch_for_view m view = e <->
     e * epoch_length m < view /\ view <= (e + 1) * epoch_length m) /\
  (is_epoch_boundary m view = true <->
     1 < view /\ epoch_for_view m view = epoch_for_view m (view - 1) + 1).
Proof.
  intros Hl Hv. split.
  - split; [intros <-; by apply epoch_for_view_bounds|].
    intros [? ?]. by apply epoch_for_view_unique.
  - rewrite epoch_boundary_iff. tauto.
Qed.

(** C19: every operation of the epoch manager keeps it well formed: all stored
    sets satisfy the fault bound and have validated keys, the history holds only
    past epochs and stays within its bound, and the staged description matches
    the staged set. *)
Theorem epoch_operations_keep_wf m :
  epoch_wf m ->
  (forall info, epoch_wf (propose_add_validator info m).1) /\
  (forall addr, epoch_wf (propose_remove_validator addr m).1) /\
  (forall changes, epoch_wf (replace_pending_from_proposal changes m)) /\
  epoch_wf (commit_pending_changes m).1 /\
  (forall infos f, epoch_wf (stage_next_epoch infos f m).1) /\
  (current_epoch m < u64_max ->
   epoch_wf (advance_epoch m).1 /\ epoch_wf (carry_epoch_forward m).1).
Proof.
  intros Hm. split_and!; intros;
    eauto using propose_add_wf, propose_remove_wf, replace_pending_wf, commit_pending_wf,
      stage_next_epoch_wf, conj, advance_epoch_wf, carry_epoch_forward_wf.
Qed.

(** C20: crossing an epoch boundary, with a staged set or without, never changes
    the exactly known validator set of a view of the two epochs around it, so
    certificates of the epoch that just ended keep verifying. *)
Theorem epoch_change_keeps_known_sets m view s :
  epoch_wf m -> epoch_length m ≠ 0 -> current_epoch m < u64_max ->
  epoch_for_view m view = current_epoch m \/ epoch_for_view m view = current_epoch m + 1 ->
  known_validator_set_for_view m view = Some s ->
  known_validator_set_for_view
    (if has_staged_next m then (advance_epoch m).1 else (carry_epoch_forward m).1) view = Some s.
Proof. apply cross_epoch_known. Qed.

(** C21: committing the pending changes either stages exactly the new validator
    list (current addresses without the removed ones, plus the added ones, in
    strict address order), with at least four validators of which at least a
    quorum of the current ones remains, and empties the queues, or is an error
    that leaves the manager as it was. *)
Theorem commit_pending_spec m :
  has_pending_changes m = true ->
  match commit_pending_changes m with
  | (m', Ok _) =>
      (MIN_VALIDATOR_COUNT <= length (next_validators m))%nat /\
      (quorum_size (current_set m) <=
         overlap_count (current_set m) (address_set (next_validators m)))%nat /\
      StronglySorted addr_lt (next_validators m) /\
      (forall a, a ∈ vi_address <$> next_validators m <->
         (a ∈ ve_address <$> validators (current_set m) /\ a ∉ pending_removes m) \/
         a ∈ vi_address <$> pending_adds m) /\
      exists s, try_new (next_validators m)
                  (max_fault_tolerance_for_len (length (next_validators m))) = Ok s /\
        next_set m' = Some s /\ current_set m' = current_set m /\
        has_pending_changes m' = false
  | (m', _) => m' = m
  end.
Proof.
  intros Hp. pose proof (commit_pending_outcome m Hp) as Ho.
  destruct (next_validators_spec m) as (Hs & Ha & _).
  destruct (commit_pending_changes m) as [m' [u|err| |]]; try done.
  destruct Ho as (Hmin & Hov & s & Hn & ->). split_and!; try done. by exists s.
Qed.

(** A follower that installs the changes of a leader's proposal holds the
    leader's queues, so both stage the same validators for the same hash. *)
Lemma proposed_changes_roundtrip leader follower changes :
  pending_changes_for_proposal leader = Some changes ->
  pending_adds (replace_pending_from_proposal changes follower) = pending_adds leader /\
  pending_removes (replace_pending_from_proposal changes follower) = pending_removes leader /\
  pending_changes_hash (replace_pending_from_proposal changes follower)
    = pending_changes_hash leader.
Proof.
  intros Hc. rewrite (replace_pending_roundtrip _ _ _ Hc). split_and!; done.
Qed.
End promises.
