(* ===== verification/Quorum.v ===== *)
(** * Vote and timeout collectors, certificate verification
    ([crates/n42-consensus/src/protocol/quorum.rs])

    A collector's [HashMap] is a [gmap]; the order in which Rust iterates over
    it is unspecified, so the functions that build certificates take the list
    of entries, and the collector passes [map_to_list].  [QuorumTheory] shows
    what they build for every order of the entries. *)

From S2P Require Import Prelude Effects Crypto Messages Signing ValidatorSet.

(** ** Collectors *)

Record VoteCollector : Type := mkVoteCollector {
  vc_view : ViewNumber;
  vc_block_hash : B256;
  vc_votes : gmap N BlsSignature;
  vc_set_size : N;
  vc_verified : gset N
}.

Definition VoteCollector_new (view : ViewNumber) (block_hash : B256) (set_size : N)
  : VoteCollector := mkVoteCollector view block_hash ∅ set_size ∅.

Definition add_vote (validator_index : N) (signature : BlsSignature)
  : ST VoteCollector ConsensusError unit := fun c =>
  match vc_votes c !! validator_index with
  | Some _ => (c, Err (DuplicateVote (vc_view c) validator_index))
  | None =>
      (mkVoteCollector (vc_view c) (vc_block_hash c)
         (<[validator_index := signature]> (vc_votes c)) (vc_set_size c) (vc_verified c), Ok tt)
  end.

Definition add_verified_vote (validator_index : N) (signature : BlsSignature)
  : ST VoteCollector ConsensusError unit :=
  add_vote validator_index signature ;;
  modify (fun c => mkVoteCollector (vc_view c) (vc_block_hash c) (vc_votes c) (vc_set_size c)
                     ({[validator_index]} ∪ vc_verified c)).

Definition vote_count (c : VoteCollector) : nat := size (vc_votes c).
Definition vc_has_quorum (c : VoteCollector) (quorum : nat) : bool :=
  (quorum <=? size (vc_votes c))%nat.

Record TimeoutCollector : Type := mkTimeoutCollector {
  tcl_view : ViewNumber;
  tcl_timeouts : gmap N (BlsSignature * QuorumCertificate);
  tcl_set_size : N;
  tcl_verified : gset N
}.

Definition TimeoutCollector_new (view : ViewNumber) (set_size : N) : TimeoutCollector :=
  mkTimeoutCollector view ∅ set_size ∅.

Definition add_timeout (validator_index : N) (signature : BlsSignature)
  (high_qc : QuorumCertificate) : ST TimeoutCollector ConsensusError unit := fun c =>
  match tcl_timeouts c !! validator_index with
  | Some _ => (c, Err (DuplicateVote (tcl_view c) validator_index))
  | None =>
      (mkTimeoutCollector (tcl_view c)
         (<[validator_index := (signature, high_qc)]> (tcl_timeouts c))
         (tcl_set_size c) (tcl_verified c), Ok tt)
  end.

Definition add_verified_timeout (validator_index : N) (signature : BlsSignature)
  (high_qc : QuorumCertificate) : ST TimeoutCollector ConsensusError unit :=
  add_timeout validator_index signature high_qc ;;
  modify (fun c => mkTimeoutCollector (tcl_view c) (tcl_timeouts c) (tcl_set_size c)
                     ({[validator_index]} ∪ tcl_verified c)).

Definition timeout_count (c : TimeoutCollector) : nat := size (tcl_timeouts c).
Definition tcl_has_quorum (c : TimeoutCollector) (quorum : nat) : bool :=
  (quorum <=? size (tcl_timeouts c))%nat.

(** ** Building certificates *)

Definition mismatch_reason (set_size actual : N) : string :=
  "validator_set size mismatch: collector set_size=" +:+ pretty set_size
    +:+ ", validator_set.len()=" +:+ pretty actual.

(** The first pass over the entries: votes of out-of-range indices are skipped,
    those the caller verified are accepted, the others are kept with their key
    for the batch verifier. [X] is the rest of an entry (a timeout's QC). *)
Fixpoint split_entries {X} (set : ValidatorSet) (set_size : N) (verified : gset N)
  (entries : list (N * (BlsSignature * X)))
  : list (N * (BlsSignature * X)) * list (N * (BlsSignature * X) * BlsPublicKey) :=
  match entries with
  | [] => ([], [])
  | (idx, x) :: rest =>
      let '(trusted, unverified) := split_entries set set_size verified rest in
      if set_size <=? idx then (trusted, unverified)
      else if bool_decide (idx ∈ verified) then ((idx, x) :: trusted, unverified)
      else match get_public_key set idx with
      | Ok pk => (trusted, ((idx, x), pk) :: unverified)
      | _ => (trusted, unverified)
      end
  end.

(** The entries at the positions the batch verifier did not report. *)
Fixpoint keep_good {A B} (bad : list nat) (position : nat) (l : list (A * B)) : list A :=
  match l with
  | [] => []
  | (x, _) :: rest =>
      if bool_decide (position ∈ bad) then keep_good bad (S position) rest
      else x :: keep_good bad (S position) rest
  end.

Definition set_signers (n : nat) (indices : list N) : list bool :=
  foldl (fun bits idx => <[N.to_nat idx := true]> bits) (replicate n false) indices.

(** [if highest_qc.is_none_or(|hq| high_qc.view > hq.view) { .. }] *)
Definition pick_highest (acc : option QuorumCertificate) (high_qc : QuorumCertificate)
  : option QuorumCertificate :=
  match acc with
  | None => Some high_qc
  | Some hq => if qc_view hq <? qc_view high_qc then Some high_qc else Some hq
  end.

Section build.
Context {blst : Blst} {digest : Digest}.

Definition accepted_entries {X} (set : ValidatorSet) (set_size : N) (verified : gset N)
  (profile : ConsensusSigningProfile) (message : bytes)
  (entries : list (N * (BlsSignature * X))) : list (N * (BlsSignature * X)) :=
  let '(trusted, unverified) := split_entries set set_size verified entries in
  match unverified with
  | [] => trusted
  | _ =>
      let messages := replicate (length unverified) message in
      let signatures := (fun u => u.1.2.1) <$> unverified in
      let public_keys := snd <$> unverified in
      let bad := match profile_batch_verify profile messages signatures public_keys with
                 | Err bad => bad
                 | _ => []
                 end in
      trusted ++ keep_good bad 0 unverified
  end.

Definition lift_bls {A} (r : result BlsError A) : cresult A :=
  match r with
  | Ok a => Ok a
  | Err e => Err (Bls e)
  | Panic => Panic
  | OutOfFuel => OutOfFuel
  end.

Definition build_qc_from (c : VoteCollector) (set : ValidatorSet) (message : bytes)
  (profile : ConsensusSigningProfile) (entries : list (N * (BlsSignature * unit)))
  : cresult QuorumCertificate :=
  if bool_decide (len set ≠ vc_set_size c)
  then Err (InvalidQC (vc_view c) (mismatch_reason (vc_set_size c) (len set)))
  else
    let quorum := quorum_size set in
    if (length entries <? quorum)%nat
    then Err (InsufficientVotes (vc_view c) (length entries) quorum)
    else
      let valid := accepted_entries set (vc_set_size c) (vc_verified c) profile message entries in
      if (length valid <? quorum)%nat
      then Err (InsufficientVotes (vc_view c) (length valid) quorum)
      else
        agg ← lift_bls (aggregate ((fun e => e.2.1) <$> valid));
        Ok (mkQC (vc_view c) (vc_block_hash c) agg
              (set_signers (N.to_nat (vc_set_size c)) (valid.*1))).

Definition vote_entries (c : VoteCollector) : list (N * (BlsSignature * unit)) :=
  (fun e => (e.1, (e.2, tt))) <$> map_to_list (vc_votes c).

Definition build_qc_with_profile_message (c : VoteCollector) (set : ValidatorSet)
  (message : bytes) (profile : ConsensusSigningProfile) : cresult QuorumCertificate :=
  build_qc_from c set message profile (vote_entries c).

Definition build_qc_with_message (c : VoteCollector) (set : ValidatorSet) (message : bytes)
  : cresult QuorumCertificate :=
  build_qc_with_profile_message c set message Native.

Definition build_qc (c : VoteCollector) (set : ValidatorSet) : cresult QuorumCertificate :=
  build_qc_with_message c set (signing_message (vc_view c) (vc_block_hash c)).

Definition build_tc_from (c : TimeoutCollector) (set : ValidatorSet)
  (profile : ConsensusSigningProfile) (entries : list (N * (BlsSignature * QuorumCertificate)))
  : cresult TimeoutCertificate :=
  if bool_decide (len set ≠ tcl_set_size c)
  then Err (InvalidTC (tcl_view c) (mismatch_reason (tcl_set_size c) (len set)))
  else
    let quorum := quorum_size set in
    if (length entries <? quorum)%nat
    then Err (InsufficientVotes (tcl_view c) (length entries) quorum)
    else
      let message := timeout_message profile (tcl_view c) in
      let valid :=
        accepted_entries set (tcl_set_size c) (tcl_verified c) profile message entries in
      let highest := foldl pick_highest None ((fun e => e.2.2) <$> valid) in
      if (length valid <? quorum)%nat
      then Err (InsufficientVotes (tcl_view c) (length valid) quorum)
      else
        agg ← lift_bls (aggregate ((fun e => e.2.1) <$> valid));
        match highest with
        | None => Err (InvalidTC (tcl_view c) "no high_qc found in timeout messages")
        | Some high_qc =>
            Ok (mkTC (tcl_view c) agg
                  (set_signers (N.to_nat (tcl_set_size c)) (valid.*1)) high_qc)
        end.

Definition timeout_entries (c : TimeoutCollector)
  : list (N * (BlsSignature * QuorumCertificate)) := map_to_list (tcl_timeouts c).

Definition build_tc_with_profile (c : TimeoutCollector) (set : ValidatorSet)
  (profile : ConsensusSigningProfile) : cresult TimeoutCertificate :=
  build_tc_from c set profile (timeout_entries c).

(** ** Verifying certificates *)

Inductive CertKind : Type := KQC | KTC.

Definition invalid_error (kind : CertKind) (view : ViewNumber) (reason : string)
  : ConsensusError :=
  match kind with
  | KQC => InvalidQC view reason
  | KTC => InvalidTC view reason
  end.

(** The indices of the set bits, from [i] on. *)
Fixpoint signer_indices (i : nat) (signers : list bool) : list N :=
  match signers with
  | [] => []
  | b :: rest =>
      if b then as_u32 i :: signer_indices (S i) rest else signer_indices (S i) rest
  end.

Definition collect_signer_keys (signers : list bool) (set : ValidatorSet) (quorum : nat)
  (view : ViewNumber) (kind : CertKind) : cresult (list BlsPublicKey) :=
  let expected_len := N.to_nat (len set) in
  if bool_decide (length signers ≠ expected_len)
  then Err (invalid_error kind view
         ("signers bitmap length mismatch: got " +:+ pretty (length signers)
            +:+ ", expected " +:+ pretty expected_len))
  else if (count_ones signers <? quorum)%nat
  then Err (invalid_error kind view
         ("insufficient signers: have " +:+ pretty (count_ones signers)
            +:+ ", need " +:+ pretty quorum))
  else result_map (get_public_key set) (signer_indices 0 signers).

Definition verify_qc_with_profile (qc : QuorumCertificate) (set : ValidatorSet)
  (profile : ConsensusSigningProfile) : cresult unit :=
  pks ← collect_signer_keys (qc_signers qc) set (quorum_size set) (qc_view qc) KQC;
  let message := vote_message profile (qc_view qc) (qc_block_hash qc) in
  if profile_verify_aggregate profile message (qc_aggregate_signature qc) pks then Ok tt
  else Err (InvalidQC (qc_view qc) "aggregated signature verification failed").

Definition verify_commit_qc_with_profile (qc : QuorumCertificate) (set : ValidatorSet)
  (changes_hash : B256) (profile : ConsensusSigningProfile) : cresult unit :=
  pks ← collect_signer_keys (qc_signers qc) set (quorum_size set) (qc_view qc) KQC;
  let message := commit_message profile (qc_view qc) (qc_block_hash qc) changes_hash in
  if profile_verify_aggregate profile message (qc_aggregate_signature qc) pks then Ok tt
  else Err (InvalidQC (qc_view qc) "commit QC aggregated signature verification failed").

Definition verify_qc_any_domain_with_profile (qc : QuorumCertificate) (set : ValidatorSet)
  (changes_hash : B256) (profile : ConsensusSigningProfile) : cresult unit :=
  pks ← collect_signer_keys (qc_signers qc) set (quorum_size set) (qc_view qc) KQC;
  let prepare_msg := vote_message profile (qc_view qc) (qc_block_hash qc) in
  if profile_verify_aggregate profile prepare_msg (qc_aggregate_signature qc) pks then Ok tt
  else
    let commit_msg := commit_message profile (qc_view qc) (qc_block_hash qc) changes_hash in
    if profile_verify_aggregate profile commit_msg (qc_aggregate_signature qc) pks then Ok tt
    else Err (InvalidQC (qc_view qc)
      "aggregated signature verification failed (tried both prepare and commit domains)").

Definition verify_tc_with_profile (tc : TimeoutCertificate) (set : ValidatorSet)
  (profile : ConsensusSigningProfile) : cresult unit :=
  pks ← collect_signer_keys (tc_signers tc) set (quorum_size set) (tc_view tc) KTC;
  let message := timeout_message profile (tc_view tc) in
  if profile_verify_aggregate profile message (tc_aggregate_signature tc) pks then Ok tt
  else Err (InvalidTC (tc_view tc) "aggregated signature verification failed").
End build.
