(* ===== verification/QuorumTheory.v ===== *)
(** * Theory of certificates

    What verification of a certificate establishes, and that a collector of
    verified votes builds certificates that name exactly its voters and that
    every node with the same validator set accepts, whatever the unspecified
    iteration order of the collector's map. *)

From S2P Require Import Prelude Effects Crypto Messages Signing ValidatorSet Quorum.

(** ** Bitmaps and indices *)

Lemma as_u32_id n : N.of_nat n <= u32_max -> as_u32 n = N.of_nat n.
Proof. intros H. unfold as_u32. apply N.mod_small. unfold u32_max in *. lia. Qed.

Lemma len_le_u32 set : len set <= u32_max.
Proof.
  unfold len, as_u32. pose proof (N.mod_lt (N.of_nat (length (validators set))) (u32_max + 1)).
  unfold u32_max in *. lia.
Qed.

Lemma len_le_length set : (N.to_nat (len set) <= length (validators set))%nat.
Proof. unfold len. pose proof (as_u32_le (length (validators set))). lia. Qed.

(** Set bits, as the list of their positions. *)
Fixpoint ones (i : nat) (bits : list bool) : list nat :=
  match bits with
  | [] => []
  | b :: rest => if b then i :: ones (S i) rest else ones (S i) rest
  end.

Lemma length_ones i bits : length (ones i bits) = count_ones bits.
Proof.
  revert i. induction bits as [|[] bits IH]; intros i; cbn; [done|..];
    rewrite count_ones_cons, <- (IH (S i)); lia.
Qed.

Lemma elem_of_ones i bits k : k ∈ ones i bits <-> exists j, k = (i + j)%nat /\ bits !! j = Some true.
Proof.
  revert i. induction bits as [|b bits IH]; intros i.
  { split; [by intros H%not_elem_of_nil|]. by intros (j & _ & H). }
  assert (Hs : k ∈ ones (S i) bits <-> exists j, k = (i + S j)%nat /\ bits !! j = Some true).
  { rewrite IH. split; intros (j & -> & H); exists j; split; auto; lia. }
  destruct b; cbn; [rewrite elem_of_cons|]; rewrite Hs; split.
  - intros [->|(j & -> & H)]; [exists 0%nat; split; [lia|done]|by exists (S j)].
  - intros ([|j] & -> & H); [left; lia|right; eauto].
  - intros (j & -> & H). by exists (S j).
  - intros ([|j] & -> & H); [done|eauto].
Qed.

Lemma NoDup_ones i bits : NoDup (ones i bits).
Proof.
  revert i. induction bits as [|[] bits IH]; intros i; cbn; [constructor| |done].
  constructor; [|done]. rewrite elem_of_ones. intros (j & H & _). lia.
Qed.

Lemma signer_indices_ones i bits :
  N.of_nat (i + length bits) <= u32_max + 1 -> signer_indices i bits = N.of_nat <$> ones i bits.
Proof.
  revert i. induction bits as [|[] bits IH]; intros i H; cbn in *; [done|..].
  - rewrite IH by lia. by rewrite as_u32_id by (unfold u32_max in *; lia).
  - apply IH. lia.
Qed.

Lemma length_set_signers n l : length (set_signers n l) = n.
Proof.
  unfold set_signers. rewrite <- (length_replicate n false) at 2.
  generalize (replicate n false). induction l as [|x l IH]; intros bits; cbn; [done|].
  by rewrite IH, length_insert.
Qed.

Lemma lookup_set_signers n l k :
  (k < n)%nat -> (set_signers n l !! k = Some true <-> N.of_nat k ∈ l).
Proof.
  intros Hk. unfold set_signers.
  enough (forall bits : list bool, (k < length bits)%nat ->
    (foldl (fun b i => <[N.to_nat i := true]> b) bits l !! k = Some true <->
     bits !! k = Some true \/ N.of_nat k ∈ l)) as Hgen.
  { rewrite Hgen by (by rewrite length_replicate). rewrite lookup_replicate.
    split; [intros [[? ?]|?]; [done|done]|auto]. }
  induction l as [|x l IH]; intros bits Hl; cbn.
  { split; [auto|]. intros [H|H%not_elem_of_nil]; done. }
  rewrite IH by (by rewrite length_insert). rewrite elem_of_cons.
  destruct (decide (N.to_nat x = k)) as [<-|Hne].
  - rewrite list_lookup_insert_eq by done. rewrite N2Nat.id. naive_solver.
  - rewrite list_lookup_insert_ne by done. split; [tauto|].
    intros [?|[<-|?]]; [tauto| |tauto]. by rewrite Nat2N.id in Hne.
Qed.

(** The bitmap of a duplicate-free index list has those indices, in order. *)
Lemma signer_indices_set n l :
  NoDup l -> Forall (fun i => i < N.of_nat n) l -> N.of_nat n <= u32_max ->
  signer_indices 0 (set_signers n l) ≡ₚ l.
Proof.
  intros Hnd Hall Hn. rewrite signer_indices_ones by (rewrite length_set_signers; lia).
  apply NoDup_Permutation; [|done|].
  - apply NoDup_fmap; [apply _|apply NoDup_ones].
  - intros x. rewrite list_elem_of_fmap. setoid_rewrite elem_of_ones. split.
    + intros (k & -> & j & -> & Hj). cbn.
      pose proof (lookup_lt_Some _ _ _ Hj) as Hlt. rewrite length_set_signers in Hlt.
      by apply (lookup_set_signers n l j Hlt) in Hj.
    + intros Hx. rewrite Forall_forall in Hall. specialize (Hall x Hx).
      exists (N.to_nat x). split; [by rewrite N2Nat.id|]. exists (N.to_nat x). split; [done|].
      apply lookup_set_signers; [lia|]. by rewrite N2Nat.id.
Qed.

Lemma count_ones_set n l :
  NoDup l -> Forall (fun i => i < N.of_nat n) l -> N.of_nat n <= u32_max ->
  count_ones (set_signers n l) = length l.
Proof.
  intros Hnd Hall Hn. rewrite <- (length_ones 0).
  pose proof (Permutation_length (signer_indices_set n l Hnd Hall Hn)) as Hp.
  rewrite signer_indices_ones, length_fmap in Hp by (rewrite length_set_signers; lia). done.
Qed.

(** ** Keys of a list of indices *)

Definition key_of (set : ValidatorSet) (i : N) : BlsPublicKey :=
  match validators set !! N.to_nat i with
  | Some v => ve_public_key v
  | None => 0
  end.

Lemma get_public_key_in_range set i :
  i < len set -> get_public_key set i = Ok (key_of set i).
Proof.
  intros H. unfold get_public_key, key_of.
  destruct (validators set !! N.to_nat i) eqn:E; [done|].
  apply lookup_ge_None in E. pose proof (len_le_length set). lia.
Qed.

Lemma result_map_keys set l :
  Forall (fun i => i < len set) l -> result_map (get_public_key set) l = Ok (key_of set <$> l).
Proof.
  induction 1 as [|i l Hi Hl IH]; cbn; [done|].
  rewrite get_public_key_in_range by done. cbn. by rewrite IH.
Qed.

(** ** What verification establishes *)

Section verify.
Context {blst : Blst} {digest : Digest}.

(** A bitmap of quorum weight whose aggregate signature verifies [message]
    under the keys of exactly the validators it names. *)
Record certified (profile : ConsensusSigningProfile) (set : ValidatorSet) (message : bytes)
  (signature : BlsSignature) (signers : list bool) : Prop := {
  cert_length : length signers = N.to_nat (len set);
  cert_quorum : (quorum_size set <= count_ones signers)%nat;
  cert_signature :
    blst_fast_aggregate_verify signature message (profile_dst profile)
      (key_of set <$> (N.of_nat <$> ones 0 signers)) = BLST_SUCCESS
}.

Lemma collect_signer_keys_ok signers set q view kind pks :
  collect_signer_keys signers set q view kind = Ok pks ->
  length signers = N.to_nat (len set) /\ (q <= count_ones signers)%nat /\
  pks = key_of set <$> (N.of_nat <$> ones 0 signers).
Proof.
  unfold collect_signer_keys.
  destruct (bool_decide (length signers ≠ N.to_nat (len set))) eqn:E1; [done|].
  destruct (count_ones signers <? q)%nat eqn:E2; [done|]. bool_simpl. intros H.
  assert (Hl : length signers = N.to_nat (len set))
    by (by destruct (decide (length signers = N.to_nat (len set)))).
  split_and!; [done|done|]. pose proof (len_le_u32 set).
  rewrite signer_indices_ones in H by lia. rewrite result_map_keys in H; [by simplify_eq|].
  apply Forall_fmap, Forall_forall. intros k (j & -> & Hj)%elem_of_ones.
  apply lookup_lt_Some in Hj. cbn. lia.
Qed.

Lemma collect_signer_keys_complete signers set q view kind :
  length signers = N.to_nat (len set) -> (q <= count_ones signers)%nat ->
  collect_signer_keys signers set q view kind =
  Ok (key_of set <$> (N.of_nat <$> ones 0 signers)).
Proof.
  intros Hl Hq. unfold collect_signer_keys. rewrite bool_decide_eq_false_2 by (by intros H).
  rewrite (proj2 (Nat.ltb_ge _ _) Hq). pose proof (len_le_u32 set).
  rewrite signer_indices_ones by lia. apply result_map_keys.
  apply Forall_fmap, Forall_forall. intros k (j & -> & Hj)%elem_of_ones.
  apply lookup_lt_Some in Hj. cbn. lia.
Qed.

(** The four verifiers accept exactly the certificates of their message. *)
Lemma verify_shape profile set message signature signers view kind e :
  (pks ← collect_signer_keys signers set (quorum_size set) view kind;
   if profile_verify_aggregate profile message signature pks then Ok tt else Err e : cresult unit)
    = Ok tt <->
  certified profile set message signature signers.
Proof.
  split.
  - destruct (collect_signer_keys _ _ _ _ _) as [pks| | |] eqn:E; try done. cbn.
    destruct (profile_verify_aggregate _ _ _ _) eqn:Ev; [|done]. intros _.
    apply collect_signer_keys_ok in E as (Hl & Hq & ->).
    apply profile_verify_aggregate_spec in Ev. by constructor.
  - intros [Hl Hq Hs]. rewrite collect_signer_keys_complete by done. cbn.
    apply profile_verify_aggregate_spec in Hs. by rewrite Hs.
Qed.

Lemma verify_qc_iff qc set profile :
  verify_qc_with_profile qc set profile = Ok tt <->
  certified profile set (vote_message profile (qc_view qc) (qc_block_hash qc))
    (qc_aggregate_signature qc) (qc_signers qc).
Proof. apply verify_shape. Qed.

Lemma verify_commit_qc_iff qc set changes_hash profile :
  verify_commit_qc_with_profile qc set changes_hash profile = Ok tt <->
  certified profile set (commit_message profile (qc_view qc) (qc_block_hash qc) changes_hash)
    (qc_aggregate_signature qc) (qc_signers qc).
Proof. apply verify_shape. Qed.

Lemma verify_tc_iff tc set profile :
  verify_tc_with_profile tc set profile = Ok tt <->
  certified profile set (timeout_message profile (tc_view tc))
    (tc_aggregate_signature tc) (tc_signers tc).
Proof. apply verify_shape. Qed.

Lemma verify_any_domain_iff qc set changes_hash profile :
  verify_qc_any_domain_with_profile qc set changes_hash profile = Ok tt <->
  verify_qc_with_profile qc set profile = Ok tt \/
  verify_commit_qc_with_profile qc set changes_hash profile = Ok tt.
Proof.
  unfold verify_qc_any_domain_with_profile, verify_qc_with_profile, verify_commit_qc_with_profile.
  destruct (collect_signer_keys _ _ _ _ _) as [pks| | |]; cbn; try naive_solver.
  repeat case_match; naive_solver.
Qed.
End verify.

(** ** Building certificates *)

Section build.
Context {blst : Blst} {digest : Digest} {laws : BlstLaws blst}.

Definition suite_of (profile : ConsensusSigningProfile) : Ciphersuite :=
  match profile with
  | Native => NATIVE
  | H2V4 _ | Gov5Legacy => H2_V4
  end.

Lemma profile_batch_verify_suite profile ms sigs pks :
  profile_batch_verify profile ms sigs pks =
  batch_verify_with_fallback_suite ms sigs pks (suite_of profile).
Proof. by destruct profile. Qed.

Lemma suite_dst_of profile : suite_dst (suite_of profile) = profile_dst profile.
Proof. by destruct profile. Qed.

Lemma suite_of_sound profile x :
  pk_validate x.2 = BLST_SUCCESS -> suite_sound (suite_of profile) x.
Proof.
  destruct profile; [apply native_suite_sound|intros _; apply h2_v4_suite_sound..].
Qed.

Lemma item_ok_verifies profile x :
  item_ok (suite_of profile) x = true ->
  blst_verify x.1.2 x.1.1 (profile_dst profile) x.2 false = BLST_SUCCESS.
Proof.
  unfold item_ok. destruct profile; cbn; intros H; apply of_blst_ok in H; [|done..].
  by apply verify_with_validation in H as [_ H].
Qed.

(** Positions that the localizing verifier does not report verify singly. *)
Lemma fallback_unreported profile ms sigs pks k x :
  length ms = length sigs -> length sigs = length pks ->
  Forall (fun y => pk_validate y.2 = BLST_SUCCESS) (zip (zip ms sigs) pks) ->
  zip (zip ms sigs) pks !! k = Some x ->
  k ∉ (match profile_batch_verify profile ms sigs pks with Err bad => bad | _ => [] end) ->
  blst_verify x.1.2 x.1.1 (profile_dst profile) x.2 false = BLST_SUCCESS.
Proof.
  intros L1 L2 Hval Hk. rewrite profile_batch_verify_suite.
  unfold batch_verify_with_fallback_suite.
  rewrite !bool_decide_eq_false_2 by (by intros ?). cbn [orb].
  assert (Hlt : (k < length ms)%nat).
  { apply lookup_lt_Some in Hk. rewrite !length_zip in Hk. lia. }
  destruct (MAX_BATCH_SIZE <? length ms)%nat.
  { intros Hn. exfalso. apply Hn, elem_of_seq. lia. }
  destruct (bool_decide (ms = [])) eqn:Em; bool_simpl; [by subst; simpl in Hlt; lia|].
  assert (Hs : Forall (suite_sound (suite_of profile)) (zip (zip ms sigs) pks)).
  { eapply Forall_impl; [exact Hval|]. intros. by apply suite_of_sound. }
  destruct (is_ok (batch_verify_with_suite ms sigs pks (suite_of profile))) eqn:Eb.
  { intros _. apply item_ok_verifies.
    apply batch_verify_with_suite_sound in Eb as (_ & _ & Hall); [|done].
    by apply (Forall_lookup_1 _ _ k x Hall). }
  intros Hn. apply item_ok_verifies. destruct (item_ok (suite_of profile) x) eqn:Ex; [done|].
  exfalso. assert (Hin : k ∈ bad_positions (suite_of profile) 0 (zip (zip ms sigs) pks)).
  { apply bad_positions_spec. by exists k, x. }
  destruct (bad_positions _ _ _); [by apply not_elem_of_nil in Hin|done].
Qed.

Lemma elem_of_keep_good {A B} bad i (l : list (A * B)) x :
  x ∈ keep_good bad i l <->
  exists k y, l !! k = Some (x, y) /\ (i + k)%nat ∉ bad.
Proof.
  revert i. induction l as [|[a b] l IH]; intros i; cbn [keep_good].
  { split; [by intros H%not_elem_of_nil|]. by intros (k & y & H & _). }
  assert (Hs : x ∈ keep_good bad (S i) l <->
    exists k y, l !! k = Some (x, y) /\ (i + S k)%nat ∉ bad).
  { rewrite IH. split; intros (k & y & H & Hn); exists k, y; (split; [done|]);
      by replace (i + S k)%nat with (S i + k)%nat in * by lia. }
  case_bool_decide as Hb; [|rewrite elem_of_cons]; rewrite Hs; split.
  - intros (k & y & H & Hn). by exists (S k), y.
  - intros ([|k] & y & H & Hn); [by rewrite Nat.add_0_r in Hn|eauto].
  - intros [->|(k & y & H & Hn)]; [|by exists (S k), y].
    exists 0%nat, b. by rewrite Nat.add_0_r.
  - intros ([|k] & y & H & Hn); [left; by simplify_eq/=|right; eauto].
Qed.

Lemma keep_good_sublist {A B} bad i (l : list (A * B)) : keep_good bad i l `sublist_of` l.*1.
Proof.
  revert i. induction l as [|[a b] l IH]; intros i; cbn; [done|].
  case_bool_decide; by constructor.
Qed.

(** The entries of a collector that a certificate may use. *)
Definition entry_valid {X} (set : ValidatorSet) (profile : ConsensusSigningProfile)
  (message : bytes) (e : N * (BlsSignature * X)) : Prop :=
  e.1 < len set /\
  blst_verify e.2.1 message (profile_dst profile) (key_of set e.1) false = BLST_SUCCESS.

(** The caller's promise behind [add_verified_vote]. *)
Definition entries_trusted {X} (set : ValidatorSet) (profile : ConsensusSigningProfile)
  (message : bytes) (verified : gset N) (entries : list (N * (BlsSignature * X))) : Prop :=
  forall e, e ∈ entries -> e.1 ∈ verified -> e.1 < len set -> entry_valid set profile message e.

Lemma split_entries_spec {X} set verified (entries : list (N * (BlsSignature * X))) :
  let '(trusted, unverified) := split_entries set (len set) verified entries in
  (forall e, e ∈ trusted <-> e ∈ entries /\ e.1 < len set /\ e.1 ∈ verified) /\
  (forall e pk, (e, pk) ∈ unverified -> e ∈ entries /\ e.1 < len set /\ pk = key_of set e.1) /\
  trusted `sublist_of` entries /\ (unverified.*1) `sublist_of` entries /\
  (forall e, e ∈ unverified.*1 -> e.1 ∉ verified).
Proof.
  induction entries as [|[idx x] rest IH]; cbn [split_entries].
  { split_and!; try done; [|by intros e pk H%not_elem_of_nil|by intros e H%not_elem_of_nil].
    intros e. rewrite elem_of_nil. naive_solver. }
  destruct (split_entries set (len set) verified rest) as [tr un].
  destruct IH as (H1 & H2 & H3 & H4 & H5).
  destruct (len set <=? idx) eqn:E1; bool_simpl.
  { split_and!; [| |by constructor|by constructor|done].
    - intros e. rewrite H1, elem_of_cons. split; [naive_solver|].
      intros ([->|?] & ? & ?); [cbn in *; lia|done].
    - intros e pk He. apply H2 in He. rewrite elem_of_cons. naive_solver. }
  case_bool_decide as E2.
  { split_and!; [| |by constructor|by constructor|done].
    - intros e. rewrite !elem_of_cons, H1. naive_solver.
    - intros e pk He. apply H2 in He. rewrite elem_of_cons. naive_solver. }
  rewrite get_public_key_in_range by done. split_and!; [| |by constructor|cbn; by constructor|].
  - intros e. rewrite H1, elem_of_cons. split; [naive_solver|].
    intros ([->|?] & ? & ?); [done|done].
  - intros e pk [[= -> ->]|He]%elem_of_cons; [rewrite elem_of_cons; auto|].
    apply H2 in He. rewrite elem_of_cons. naive_solver.
  - intros e [->|He]%elem_of_cons; [done|by apply H5].
Qed.

Lemma accepted_entries_spec {X} set verified profile message
  (entries : list (N * (BlsSignature * X))) :
  set_wf set -> NoDup (entries.*1) -> entries_trusted set profile message verified entries ->
  let valid := accepted_entries set (len set) verified profile message entries in
  Forall (entry_valid set profile message) valid /\ NoDup (valid.*1) /\ valid ⊆ entries /\
  (forall e, e ∈ entries -> e.1 < len set -> e.1 ∈ verified -> e ∈ valid).
Proof.
  intros Hwf Hnd Htr valid. unfold accepted_entries in valid.
  pose proof (split_entries_spec set verified entries) as Hspec.
  destruct (split_entries set (len set) verified entries) as [tr un].
  destruct Hspec as (H1 & H2 & H3 & H4 & H5).
  set (bad := match profile_batch_verify profile (replicate (length un) message)
    ((fun u => u.1.2.1) <$> un) (snd <$> un) with Err bad => bad | _ => [] end) in *.
  assert (valid = tr ++ keep_good bad 0 un) as ->.
  { subst valid. destruct un; [by rewrite app_nil_r|done]. }
  assert (Hgood : forall e, e ∈ keep_good bad 0 un -> entry_valid set profile message e /\ e ∈ un.*1).
  { intros e (k & pk & Hk & Hn)%elem_of_keep_good. cbn in Hn.
    pose proof (list_elem_of_lookup_2 _ _ _ Hk) as Hin. apply H2 in Hin as (He & Hr & ->).
    split; [|apply list_elem_of_fmap; eexists (e, _); split; [done|by eapply list_elem_of_lookup_2]].
    split; [done|].
    pose proof (fallback_unreported profile (replicate (length un) message)
      ((fun u => u.1.2.1) <$> un) (snd <$> un) k (message, e.2.1, key_of set e.1)) as Hf.
    cbn in Hf. apply Hf; try by rewrite ?length_replicate, ?length_fmap.
    - apply Forall_forall. intros [[m s] pk] Hz%elem_of_zip_r. cbn.
      apply list_elem_of_fmap in Hz as ([e' pk'] & -> & Hz). apply H2 in Hz as (_ & Hr' & ->).
      cbn. unfold key_of. pose proof (len_le_length set).
      destruct (validators set !! N.to_nat e'.1) as [v|] eqn:Ev.
      + by apply (Forall_lookup_1 _ _ _ _ (wf_keys _ Hwf) Ev).
      + apply lookup_ge_None in Ev. lia.
    - rewrite !lookup_zip_with, lookup_replicate_2 by (by eapply lookup_lt_Some).
      rewrite !list_lookup_fmap, Hk. done. }
  assert (Hsub : tr ++ keep_good bad 0 un ⊆ entries).
  { intros e [He|He]%elem_of_app; [by apply H1|]. apply Hgood in He as [_ He].
    by eapply elem_of_sublist. }
  split_and!; [| |done|].
  - apply Forall_app. split; apply Forall_forall; intros e He; [|by apply Hgood].
    apply H1 in He as (? & ? & ?). by apply Htr.
  - rewrite fmap_app. apply NoDup_app. split_and!.
    + eapply sublist_NoDup; [exact Hnd|]. by apply fmap_sublist.
    + intros i Hi Hj. apply list_elem_of_fmap in Hi as (e & -> & He).
      apply list_elem_of_fmap in Hj as (e' & Heq & He'). apply H1 in He as (_ & _ & Hv).
      apply Hgood in He' as [_ He']. apply H5 in He'. congruence.
    + eapply sublist_NoDup; [exact Hnd|]. apply fmap_sublist.
      etrans; [apply keep_good_sublist|done].
  - intros e He Hr Hv. apply elem_of_app. left. by apply H1.
Qed.

Lemma keys_of_signers set (l : list N) :
  NoDup l -> Forall (fun i => i < len set) l ->
  key_of set <$> (N.of_nat <$> ones 0 (set_signers (N.to_nat (len set)) l)) ≡ₚ key_of set <$> l.
Proof.
  intros Hnd Hall. pose proof (len_le_u32 set).
  rewrite <- signer_indices_ones by (rewrite length_set_signers; lia).
  apply fmap_Permutation, signer_indices_set; [done|by rewrite N2Nat.id|by rewrite N2Nat.id].
Qed.

(** The signatures of valid entries, with their keys. *)
Definition entry_items {X} (set : ValidatorSet) (valid : list (N * (BlsSignature * X)))
  : list (BlsSignature * BlsPublicKey) := (fun e => (e.2.1, key_of set e.1)) <$> valid.

Lemma entry_items_fst {X} set (valid : list (N * (BlsSignature * X))) :
  (entry_items set valid).*1 = (fun e => e.2.1) <$> valid.
Proof. unfold entry_items. rewrite <- list_fmap_compose. by apply list_fmap_ext. Qed.

Lemma entry_items_verify {X} set profile message (valid : list (N * (BlsSignature * X))) :
  Forall (entry_valid set profile message) valid ->
  Forall (fun x => blst_verify x.1 message (profile_dst profile) x.2 false = BLST_SUCCESS)
    (entry_items set valid).
Proof. intros Hv. apply Forall_fmap. eapply Forall_impl; [exact Hv|]. by intros e [_ ?]. Qed.

(** Enough valid entries aggregate to a certificate. *)
Lemma valid_entries_certify {X} set profile message (valid : list (N * (BlsSignature * X))) agg :
  Forall (entry_valid set profile message) valid -> NoDup (valid.*1) ->
  (quorum_size set <= length valid)%nat ->
  aggregate ((fun e => e.2.1) <$> valid) = Ok agg ->
  certified profile set message agg (set_signers (N.to_nat (len set)) (valid.*1)).
Proof.
  intros Hv Hnd Hq Hagg. pose proof (len_le_u32 set).
  assert (Hr : Forall (fun i => i < len set) (valid.*1)).
  { apply Forall_fmap. eapply Forall_impl; [exact Hv|]. by intros e [? _]. }
  constructor.
  - apply length_set_signers.
  - rewrite count_ones_set by (rewrite ?N2Nat.id; done). by rewrite length_fmap.
  - rewrite (fast_aggregate_perm _ _ _ _ _ (keys_of_signers set _ Hnd Hr)).
    assert (E2 : (entry_items set valid).*2 = key_of set <$> valid.*1).
    { unfold entry_items. rewrite <- !list_fmap_compose. by apply list_fmap_ext. }
    rewrite <- E2. apply aggregate_verifies; [by apply entry_items_verify|].
    rewrite entry_items_fst. unfold aggregate in Hagg. destruct ((fun e => e.2.1) <$> valid); [done|].
    destruct (blst_aggregate _); by simplify_eq.
Qed.

Lemma aggregate_valid {X} set profile message (valid : list (N * (BlsSignature * X))) :
  Forall (entry_valid set profile message) valid -> valid ≠ [] ->
  exists agg, aggregate ((fun e => e.2.1) <$> valid) = Ok agg.
Proof.
  intros Hv Hne. rewrite <- (entry_items_fst set). unfold aggregate.
  destruct (aggregate_some message (profile_dst profile) (entry_items set valid)) as [agg ->].
  - by intros ?%fmap_nil_inv.
  - by apply entry_items_verify.
  - exists agg. by destruct valid.
Qed.

(** ** Collectors of verified votes *)

(** The invariant of a collector whose votes all came through
    [add_verified_vote] after a signature check for [message]. *)
Definition votes_verified (set : ValidatorSet) (profile : ConsensusSigningProfile)
  (message : bytes) (c : VoteCollector) : Prop :=
  forall (i : N) sig, vc_votes c !! i = Some sig ->
    i ∈ vc_verified c /\ entry_valid set profile message (i, (sig, tt)).

Definition timeouts_verified (set : ValidatorSet) (profile : ConsensusSigningProfile)
  (c : TimeoutCollector) : Prop :=
  forall (i : N) (x : BlsSignature * QuorumCertificate), tcl_timeouts c !! i = Some x ->
    i ∈ tcl_verified c /\
    entry_valid set profile (timeout_message profile (tcl_view c)) (i, x).

Lemma elem_of_vote_entries c i sig u :
  (i, (sig, u)) ∈ vote_entries c <-> vc_votes c !! i = Some sig.
Proof.
  unfold vote_entries. rewrite list_elem_of_fmap. split.
  - intros ([j s] & He & H). simplify_eq/=. by apply elem_of_map_to_list in H.
  - intros H. exists (i, sig). destruct u. split; [done|]. by apply elem_of_map_to_list.
Qed.

Lemma vote_entries_fst c : (vote_entries c).*1 = (map_to_list (vc_votes c)).*1.
Proof. unfold vote_entries. rewrite <- list_fmap_compose. by apply list_fmap_ext. Qed.

Lemma length_vote_entries c : length (vote_entries c) = vote_count c.
Proof. unfold vote_entries. by rewrite length_fmap, length_map_to_list. Qed.

Lemma accepted_perm {X} set verified profile message (entries : list (N * (BlsSignature * X))) :
  set_wf set -> NoDup (entries.*1) ->
  (forall e, e ∈ entries -> e.1 ∈ verified /\ entry_valid set profile message e) ->
  let valid := accepted_entries set (len set) verified profile message entries in
  valid ≡ₚ entries /\ Forall (entry_valid set profile message) valid /\ NoDup (valid.*1).
Proof.
  intros Hwf Hnd Htr valid.
  destruct (accepted_entries_spec set verified profile message entries Hwf Hnd)
    as (H1 & H2 & H3 & H4); [by intros e He _ _; apply Htr|].
  fold valid in H1, H2, H3, H4. split_and!; [|done|done].
  apply NoDup_Permutation; [by eapply NoDup_fmap_1|by eapply NoDup_fmap_1|].
  intros e. split; [apply H3|]. intros He. destruct (Htr e He) as [? [? ?]]. by apply H4.
Qed.

Lemma elem_of_fst_map_to_list {A} (m : gmap N A) i : i ∈ (map_to_list m).*1 <-> is_Some (m !! i).
Proof.
  rewrite list_elem_of_fmap. split.
  - intros ([j x] & -> & Hj%elem_of_map_to_list). by exists x.
  - intros [x Hx]. exists (i, x). split; [done|]. by apply elem_of_map_to_list.
Qed.

(** The bits of [signers] are the validators with an entry in [m]. *)
Definition names {A} (signers : list bool) (m : gmap N A) : Prop :=
  forall i, signers !! N.to_nat i = Some true <-> is_Some (m !! i).

Lemma set_signers_names {A} n (l : list N) (m : gmap N A) :
  (forall i, i ∈ l <-> is_Some (m !! i)) -> Forall (fun i => i < N.of_nat n) l ->
  names (set_signers n l) m.
Proof.
  intros Hl Hall i. rewrite <- Hl. rewrite Forall_forall in Hall.
  destruct (decide (N.to_nat i < n)%nat) as [Hi|Hi].
  - by rewrite (lookup_set_signers n l _ Hi), N2Nat.id.
  - rewrite lookup_ge_None_2 by (rewrite length_set_signers; lia).
    split; [done|]. intros Hin. apply Hall in Hin. lia.
Qed.

(** From the verified entries of a collector, in any order, comes a certificate
    of exactly their validators. *)
Lemma verified_entries_certify {X Y} set verified profile message
  (entries : list (N * (BlsSignature * X))) (m : gmap N Y) :
  set_wf set -> NoDup (entries.*1) ->
  (forall e, e ∈ entries -> e.1 ∈ verified /\ entry_valid set profile message e) ->
  (forall i, i ∈ entries.*1 <-> is_Some (m !! i)) ->
  (0 < quorum_size set)%nat -> (quorum_size set <= length entries)%nat ->
  let valid := accepted_entries set (len set) verified profile message entries in
  valid ≡ₚ entries /\ exists agg, aggregate ((fun e => e.2.1) <$> valid) = Ok agg /\
    let signers := set_signers (N.to_nat (len set)) (valid.*1) in
    certified profile set message agg signers /\ names signers m.
Proof.
  intros Hwf Hnd Htr Hm Hpos Hq valid.
  destruct (accepted_perm set verified profile message entries Hwf Hnd Htr) as (Hp & H1 & H2).
  fold valid in Hp, H1, H2. pose proof (Permutation_length Hp) as Hlen. split; [done|].
  destruct (aggregate_valid set profile message valid H1) as [agg Hagg].
  { intros E. rewrite E in Hlen. cbn in Hlen. lia. }
  exists agg. split; [done|]. split; [apply valid_entries_certify; try done; lia|].
  apply set_signers_names; [intros i; by rewrite Hp|].
  rewrite N2Nat.id. apply Forall_fmap. eapply Forall_impl; [exact H1|]. by intros e [? _].
Qed.

(** With a quorum of verified votes the certificate is built, names exactly the
    voters, and is accepted by every verifier that uses the same set. *)
Lemma build_qc_complete c set message profile entries :
  set_wf set -> vc_set_size c = len set -> votes_verified set profile message c ->
  (0 < quorum_size set)%nat -> (quorum_size set <= vote_count c)%nat ->
  entries ≡ₚ vote_entries c ->
  exists qc, build_qc_from c set message profile entries = Ok qc /\
    qc_view qc = vc_view c /\ qc_block_hash qc = vc_block_hash c /\
    names (qc_signers qc) (vc_votes c) /\
    certified profile set message (qc_aggregate_signature qc) (qc_signers qc).
Proof.
  intros Hwf Hsz Hv Hpos Hq Hp. unfold build_qc_from.
  pose proof (Permutation_length Hp) as Hlen. rewrite length_vote_entries in Hlen.
  rewrite Hsz, bool_decide_eq_false_2 by (by intros ?).
  rewrite Hlen, (proj2 (Nat.ltb_ge _ _) Hq).
  destruct (verified_entries_certify set (vc_verified c) profile message entries (vc_votes c))
    as (Hpv & agg & Hagg & Hc & Hn); try done.
  - rewrite Hp, vote_entries_fst. apply NoDup_fst_map_to_list.
  - intros [i [sig []]]. rewrite Hp. by intros He%elem_of_vote_entries%Hv.
  - intros i. rewrite Hp, vote_entries_fst, elem_of_fst_map_to_list. done.
  - lia.
  - rewrite (Permutation_length Hpv), Hlen, (proj2 (Nat.ltb_ge _ _) Hq), Hagg. cbn.
    eexists. split; [done|]. cbn. done.
Qed.

(** [pick_highest] folds to an element of maximal view. *)
Lemma pick_highest_max l acc :
  match foldl pick_highest acc l with
  | None => acc = None /\ l = []
  | Some hq => (acc = Some hq \/ hq ∈ l) /\ (forall q, q ∈ l -> qc_view q <= qc_view hq) /\
      (forall q, acc = Some q -> qc_view q <= qc_view hq)
  end.
Proof.
  revert acc. induction l as [|q l IH]; intros acc; cbn.
  - destruct acc as [a|]; [|done]. split_and!; [by left|by intros q ?%not_elem_of_nil|].
    intros q' Hq'. by simplify_eq.
  - specialize (IH (pick_highest acc q)).
    destruct (foldl pick_highest (pick_highest acc q) l) as [hq|].
    + destruct IH as (Hin & Hmax & Hacc).
      assert (qc_view q <= qc_view hq /\ forall q', acc = Some q' -> qc_view q' <= qc_view hq)
        as [Hq Ha].
      { destruct acc as [a|]; cbn in Hacc; [|by split; [apply Hacc|]].
        destruct (qc_view a <? qc_view q) eqn:E; bool_simpl;
          pose proof (Hacc _ eq_refl); split; try intros ? [= <-]; lia. }
      split_and!; [|intros q' [->|?]%elem_of_cons; auto|done].
      rewrite elem_of_cons. destruct acc as [a|]; cbn in Hin.
      * destruct (qc_view a <? qc_view q); naive_solver.
      * naive_solver.
    + destruct acc as [a|]; cbn in IH; [|naive_solver].
      destruct (qc_view a <? qc_view q); naive_solver.
Qed.

(** The same for timeouts; the carried QC is the highest one reported. *)
Lemma build_tc_complete c set profile entries :
  set_wf set -> tcl_set_size c = len set -> timeouts_verified set profile c ->
  (0 < quorum_size set)%nat -> (quorum_size set <= timeout_count c)%nat ->
  entries ≡ₚ timeout_entries c ->
  exists tc, build_tc_from c set profile entries = Ok tc /\ tc_view tc = tcl_view c /\
    names (tc_signers tc) (tcl_timeouts c) /\
    certified profile set (timeout_message profile (tcl_view c))
      (tc_aggregate_signature tc) (tc_signers tc) /\
    (exists i sig, tcl_timeouts c !! i = Some (sig, tc_high_qc tc)) /\
    (forall i sig q, tcl_timeouts c !! i = Some (sig, q) -> qc_view q <= qc_view (tc_high_qc tc)).
Proof.
  intros Hwf Hsz Hv Hpos Hq Hp. unfold build_tc_from. unfold timeout_entries in Hp.
  pose proof (Permutation_length Hp) as Hlen. rewrite length_map_to_list in Hlen.
  change (length entries = timeout_count c) in Hlen.
  rewrite Hsz, bool_decide_eq_false_2 by (by intros ?).
  rewrite Hlen, (proj2 (Nat.ltb_ge _ _) Hq).
  set (message := timeout_message profile (tcl_view c)).
  destruct (verified_entries_certify set (tcl_verified c) profile message entries (tcl_timeouts c))
    as (Hpv & agg & Hagg & Hc & Hn); try done.
  - rewrite Hp. apply NoDup_fst_map_to_list.
  - intros [i x]. rewrite Hp. by intros He%elem_of_map_to_list%Hv.
  - intros i. rewrite Hp, elem_of_fst_map_to_list. done.
  - lia.
  - set (valid := accepted_entries _ _ _ _ _ _) in *.
    rewrite (Permutation_length Hpv), Hlen, (proj2 (Nat.ltb_ge _ _) Hq), Hagg. cbn [mbind].
    pose proof (pick_highest_max ((fun e : N * (BlsSignature * QuorumCertificate) => e.2.2) <$> valid)
      None) as Hmax.
    destruct (foldl pick_highest None _) as [hq|]; cbn.
    + destruct Hmax as ([[=]|Hin] & Hle & _). eexists. split; [done|]. cbn. split_and!; [done..| |].
      * apply list_elem_of_fmap in Hin as ([i [sig q]] & -> & Hin).
        rewrite Hpv, Hp in Hin. apply elem_of_map_to_list in Hin. eauto.
      * intros i sig q Hi. apply Hle, list_elem_of_fmap. exists (i, (sig, q)).
        rewrite Hpv, Hp. by rewrite elem_of_map_to_list.
    + destruct Hmax as [_ E%fmap_nil_inv]. rewrite E in Hpv. apply Permutation_length in Hpv.
      cbn in Hpv. lia.
Qed.

(** Adding a checked vote keeps the invariant. *)
Lemma add_verified_vote_sound c set profile message i sig :
  votes_verified set profile message c ->
  entry_valid set profile message (i, (sig, tt)) ->
  votes_verified set profile message (add_verified_vote i sig c).1.
Proof.
  intros Hv He j s. unfold add_verified_vote, mbind, st_bind, add_vote, modify.
  destruct (vc_votes c !! i) as [s0|] eqn:E; cbn; [apply Hv|].
  rewrite elem_of_union, elem_of_singleton.
  destruct (decide (i = j)) as [<-|Hne].
  - rewrite lookup_insert_eq. intros [= <-]. auto.
  - rewrite lookup_insert_ne by done. intros Hj. apply Hv in Hj. tauto.
Qed.

Lemma add_verified_timeout_sound c set profile i sig q :
  timeouts_verified set profile c ->
  entry_valid set profile (timeout_message profile (tcl_view c)) (i, (sig, q)) ->
  timeouts_verified set profile (add_verified_timeout i sig q c).1.
Proof.
  intros Hv He j x. unfold add_verified_timeout, mbind, st_bind, add_timeout, modify.
  destruct (tcl_timeouts c !! i) as [s0|] eqn:E; cbn; [apply Hv|].
  rewrite elem_of_union, elem_of_singleton.
  destruct (decide (i = j)) as [<-|Hne].
  - rewrite lookup_insert_eq. intros [= <-]. auto.
  - rewrite lookup_insert_ne by done. intros Hj. apply Hv in Hj. tauto.
Qed.

(** ** What the verifiers and builders promise *)

(** C15: each verifier accepts exactly the certificates of its own message: the
    bitmap has one bit per validator of the set, at least a quorum is set, and
    the aggregate signature verifies under the keys of exactly the set bits. *)
Theorem certificate_verification_exact qc tc set changes_hash profile :
  (verify_qc_with_profile qc set profile = Ok tt <->
   certified profile set (vote_message profile (qc_view qc) (qc_block_hash qc))
     (qc_aggregate_signature qc) (qc_signers qc)) /\
  (verify_commit_qc_with_profile qc set changes_hash profile = Ok tt <->
   certified profile set (commit_message profile (qc_view qc) (qc_block_hash qc) changes_hash)
     (qc_aggregate_signature qc) (qc_signers qc)) /\
  (verify_tc_with_profile tc set profile = Ok tt <->
   certified profile set (timeout_message profile (tc_view tc))
     (tc_aggregate_signature tc) (tc_signers tc)).
Proof. split_and!; [apply verify_qc_iff|apply verify_commit_qc_iff|apply verify_tc_iff]. Qed.

(** C16: what the collectors build is accepted.  From a quorum of verified R1
    votes comes a PrepareQC, from one of verified R2 votes a CommitQC, for the
    view and block of the collector; from a quorum of verified timeouts comes a
    TimeoutCertificate that carries the most recent of the certificates the
    timeouts reported.  The bits of each are set for exactly the validators in
    the collector, every node with the same set accepts it, and all this holds
    whatever the order in which the collector's hash map is iterated. *)
Theorem built_certificates_accepted c d set profile changes_hash entries timeouts :
  set_wf set -> (0 < quorum_size set)%nat ->
  vc_set_size c = len set -> (quorum_size set <= vote_count c)%nat ->
  tcl_set_size d = len set -> (quorum_size set <= timeout_count d)%nat ->
  entries ≡ₚ vote_entries c -> timeouts ≡ₚ timeout_entries d ->
  let vote := vote_message profile (vc_view c) (vc_block_hash c) in
  let commit := commit_message profile (vc_view c) (vc_block_hash c) changes_hash in
  (votes_verified set profile vote c ->
   exists qc, build_qc_from c set vote profile entries = Ok qc /\
     qc_view qc = vc_view c /\ qc_block_hash qc = vc_block_hash c /\
     names (qc_signers qc) (vc_votes c) /\ verify_qc_with_profile qc set profile = Ok tt) /\
  (votes_verified set profile commit c ->
   exists qc, build_qc_from c set commit profile entries = Ok qc /\
     qc_view qc = vc_view c /\ qc_block_hash qc = vc_block_hash c /\
     names (qc_signers qc) (vc_votes c) /\
     verify_commit_qc_with_profile qc set changes_hash profile = Ok tt) /\
  (timeouts_verified set profile d ->
   exists tc, build_tc_from d set profile timeouts = Ok tc /\ tc_view tc = tcl_view d /\
     names (tc_signers tc) (tcl_timeouts d) /\ verify_tc_with_profile tc set profile = Ok tt /\
     (exists i sig, tcl_timeouts d !! i = Some (sig, tc_high_qc tc)) /\
     (forall i sig q, tcl_timeouts d !! i = Some (sig, q) -> qc_view q <= qc_view (tc_high_qc tc))).
Proof.
  intros Hwf H0 Hc Hcq Hd Hdq He Ht vote commit. split_and!; intros Hv.
  - destruct (build_qc_complete c set vote profile _ Hwf Hc Hv H0 Hcq He)
      as (qc & E & Ev & Eb & Hn & Hq).
    exists qc. split_and!; try done. apply verify_qc_iff. by rewrite Ev, Eb.
  - destruct (build_qc_complete c set commit profile _ Hwf Hc Hv H0 Hcq He)
      as (qc & E & Ev & Eb & Hn & Hq).
    exists qc. split_and!; try done. apply verify_commit_qc_iff. by rewrite Ev, Eb.
  - destruct (build_tc_complete d set profile _ Hwf Hd Hv H0 Hdq Ht)
      as (tc & E & Ev & Hn & Hq & Hin & Hmax).
    exists tc. split_and!; try done. apply verify_tc_iff. by rewrite Ev.
Qed.
End build.
