(* ===== verification/Fifo.v ===== *)
(** * Bounded map with insertion-order eviction
    ([crates/n42-consensus/src/protocol/bounded_fifo.rs])

    The [HashMap] is a [gmap], the [VecDeque] of keys a list, front first.  The
    contract is stated on an association list in insertion order; [entries] is
    the abstraction function and every operation refines its specification. *)

From S2P Require Import Prelude.

Section fifo.
Context {K V : Type} `{Countable K}.

Record BoundedFifoMap : Type := mkFifo {
  bf_map : gmap K V;
  bf_order : list K;
  bf_capacity : nat
}.

Definition fifo_new (capacity : nat) : BoundedFifoMap := mkFifo ∅ [] capacity.

(** Room for a new key: at capacity the front of the queue leaves. *)
Definition fifo_evict (f : BoundedFifoMap) : BoundedFifoMap :=
  if (bf_capacity f <=? size (bf_map f))%nat then
    match bf_order f with
    | oldest :: order => mkFifo (delete oldest (bf_map f)) order (bf_capacity f)
    | [] => f
    end
  else f.

Definition fifo_insert (key : K) (value : V) (f : BoundedFifoMap) : BoundedFifoMap :=
  let f := match bf_map f !! key with
           | Some _ => f
           | None => let f := fifo_evict f in
                     mkFifo (bf_map f) (bf_order f ++ [key]) (bf_capacity f)
           end in
  mkFifo (<[key := value]> (bf_map f)) (bf_order f) (bf_capacity f).

Definition fifo_get (f : BoundedFifoMap) (key : K) : option V := bf_map f !! key.

(** [iter().position(..)] and [VecDeque::remove]: the first occurrence goes. *)
Fixpoint remove_first (key : K) (l : list K) : list K :=
  match l with
  | [] => []
  | k :: l => if decide (k = key) then l else k :: remove_first key l
  end.

Definition fifo_remove (key : K) (f : BoundedFifoMap) : BoundedFifoMap * option V :=
  let removed := bf_map f !! key in
  let map := delete key (bf_map f) in
  match removed with
  | Some v => (mkFifo map (remove_first key (bf_order f)) (bf_capacity f), Some v)
  | None => (mkFifo map (bf_order f) (bf_capacity f), None)
  end.

(** ** Invariant *)

(** Queue and map hold the same keys, each once, and never more than the
    capacity (an entry is always stored, so a capacity of 0 acts as 1). *)
Record fifo_wf (f : BoundedFifoMap) : Prop := {
  fifo_nodup : NoDup (bf_order f);
  fifo_keys : forall k, k ∈ bf_order f <-> is_Some (bf_map f !! k);
  fifo_bound : (size (bf_map f) <= bf_capacity f `max` 1)%nat
}.

(** ** Contract *)

Definition entries_of (m : gmap K V) (order : list K) : list (K * V) :=
  omap (fun k => pair k <$> m !! k) order.

Definition entries (f : BoundedFifoMap) : list (K * V) := entries_of (bf_map f) (bf_order f).

Definition assoc_get (l : list (K * V)) (key : K) : option V :=
  snd <$> head (filter (fun e => e.1 = key) l).

(** Overwrite in place, or drop the oldest entry when full and append. *)
Definition spec_insert (capacity : nat) (key : K) (value : V) (l : list (K * V))
  : list (K * V) :=
  if decide (key ∈ l.*1) then
    (fun e => if decide (e.1 = key) then (key, value) else e) <$> l
  else (if (capacity <=? length l)%nat then tail l else l) ++ [(key, value)].

Definition spec_remove (key : K) (l : list (K * V)) : list (K * V) :=
  filter (fun e => e.1 ≠ key) l.

(** ** Proofs *)

Lemma fifo_new_wf capacity : fifo_wf (fifo_new capacity).
Proof.
  constructor; cbn; [constructor| |rewrite map_size_empty; lia].
  intros k. rewrite lookup_empty, elem_of_nil. split; [done|by intros [? ?]].
Qed.

Lemma fifo_order_size f : fifo_wf f -> length (bf_order f) = size (bf_map f).
Proof.
  intros [Hnd Hk _]. rewrite <- (size_dom (D := gset K)).
  assert (dom (bf_map f) = list_to_set (bf_order f)) as ->.
  { apply set_eq. intros k. rewrite elem_of_list_to_set, Hk. apply elem_of_dom. }
  by rewrite size_list_to_set.
Qed.

Lemma fifo_evict_wf f k :
  fifo_wf f -> bf_map f !! k = None ->
  let f' := fifo_evict f in
  NoDup (bf_order f') /\ (forall j, j ∈ bf_order f' <-> is_Some (bf_map f' !! j)) /\
  bf_map f' !! k = None /\ bf_capacity f' = bf_capacity f /\
  (S (size (bf_map f')) <= bf_capacity f `max` 1)%nat.
Proof.
  intros Hwf Hk f'. pose proof (fifo_order_size f Hwf) as Hsz. destruct Hwf as [Hnd Hkeys Hb].
  subst f'. unfold fifo_evict. destruct (bf_capacity f <=? _)%nat eqn:E; bool_simpl;
    [|split_and!; try done; lia].
  destruct (bf_order f) as [|o order] eqn:Eo; [cbn in *; rewrite Eo; split_and!; try done; lia|].
  apply NoDup_cons in Hnd as [Ho Hnd]. cbn. split_and!; [done| |by rewrite lookup_delete_None; right|done|].
  - intros j. destruct (decide (o = j)) as [<-|Hne].
    + rewrite lookup_delete_eq. split; [done|by intros [? ?]].
    + rewrite lookup_delete_ne by done. rewrite <- Hkeys. set_solver.
  - destruct (Hkeys o) as [[v Hv] _]; [left|]. rewrite map_size_delete, Hv.
    cbn in Hsz. lia.
Qed.

Lemma fifo_insert_wf f key value : fifo_wf f -> fifo_wf (fifo_insert key value f).
Proof.
  intros Hwf. unfold fifo_insert. destruct (bf_map f !! key) as [v|] eqn:Ek.
  - destruct Hwf as [Hnd Hk Hb]. constructor; cbn; [done| |].
    + intros k. destruct (decide (key = k)) as [<-|Hne].
      * rewrite lookup_insert_eq, Hk, Ek. split; eauto.
      * by rewrite lookup_insert_ne.
    + by rewrite map_size_insert, Ek.
  - destruct (fifo_evict_wf f key Hwf Ek) as (Hnd & Hk & Hn & Hc & Hb).
    constructor; cbn.
    + apply NoDup_app. split_and!; [done| |apply NoDup_singleton].
      intros j Hj ->%list_elem_of_singleton. apply Hk in Hj as [? ?]. congruence.
    + intros k. rewrite elem_of_app, list_elem_of_singleton, Hk.
      destruct (decide (key = k)) as [<-|Hne].
      * rewrite lookup_insert_eq. split; eauto.
      * rewrite lookup_insert_ne by done. naive_solver.
    + rewrite map_size_insert, Hn, Hc. lia.
Qed.

Lemma remove_first_spec key l :
  NoDup l -> remove_first key l = filter (fun k => k ≠ key) l.
Proof.
  induction 1 as [|k l Hk Hnd IH]; [done|]. cbn. destruct (decide (k = key)) as [->|Hne].
  - rewrite decide_False by (by intros []).
    symmetry. apply filter_all. apply Forall_forall. by intros j Hj ->.
  - rewrite decide_True by done. by rewrite IH.
Qed.

Lemma fifo_remove_wf f key : fifo_wf f -> fifo_wf (fifo_remove key f).1.
Proof.
  intros [Hnd Hk Hb]. unfold fifo_remove. destruct (bf_map f !! key) as [v|] eqn:Ek.
  - constructor; cbn.
    + rewrite remove_first_spec by done. by apply NoDup_filter.
    + intros k. rewrite remove_first_spec, list_elem_of_filter, Hk by done.
      destruct (decide (key = k)) as [<-|Hne].
      * rewrite lookup_delete_eq. split; [by intros []|by intros [? ?]].
      * rewrite lookup_delete_ne by done. naive_solver.
    + rewrite map_size_delete, Ek. lia.
  - rewrite delete_id by done. by constructor.
Qed.

(** *** Refinement *)

Lemma entries_of_cons m k order :
  entries_of m (k :: order) =
  match m !! k with Some v => (k, v) :: entries_of m order | None => entries_of m order end.
Proof. unfold entries_of. cbn. by destruct (m !! k). Qed.

Lemma entries_of_ext m m' order :
  (forall k, k ∈ order -> m !! k = m' !! k) -> entries_of m order = entries_of m' order.
Proof.
  intros Hm. induction order as [|k order IH]; [done|]. rewrite !entries_of_cons.
  rewrite (Hm k) by left. destruct (m' !! k); cbn; rewrite IH; try done;
    intros j Hj; apply Hm; by right.
Qed.

Lemma entries_of_fst m order :
  Forall (fun k => is_Some (m !! k)) order -> (entries_of m order).*1 = order.
Proof.
  induction 1 as [|k order [v Hv] Hall IH]; [done|]. rewrite entries_of_cons, Hv. cbn. by rewrite IH.
Qed.

Lemma entries_fst f : fifo_wf f -> (entries f).*1 = bf_order f.
Proof. intros Hwf. apply entries_of_fst, Forall_forall. intros k. by apply fifo_keys. Qed.

Lemma length_entries f : fifo_wf f -> length (entries f) = size (bf_map f).
Proof.
  intros Hwf. by rewrite <- (length_fmap fst), entries_fst, fifo_order_size.
Qed.

Lemma entries_of_overwrite m order key value :
  is_Some (m !! key) ->
  entries_of (<[key := value]> m) order =
  (fun e => if decide (e.1 = key) then (key, value) else e) <$> entries_of m order.
Proof.
  intros [v0 Hv0]. induction order as [|k order IH]; [done|]. rewrite !entries_of_cons.
  destruct (decide (key = k)) as [<-|Hne].
  - rewrite lookup_insert_eq, Hv0. cbn. by rewrite decide_True, IH.
  - rewrite lookup_insert_ne by done. destruct (m !! k); cbn; rewrite IH; [|done].
    by rewrite decide_False by (intros ?; subst; done).
Qed.

Lemma fifo_evict_entries f :
  fifo_wf f ->
  entries (fifo_evict f) =
  if (bf_capacity f <=? length (entries f))%nat then tail (entries f) else entries f.
Proof.
  intros Hwf. rewrite length_entries by done. unfold fifo_evict.
  destruct (_ <=? _)%nat; [|done]. destruct Hwf as [Hnd Hk _]. unfold entries.
  destruct (bf_order f) as [|o order] eqn:Eo; [by rewrite Eo|].
  destruct (Hk o) as [[v Hv] _]; [left|]. rewrite entries_of_cons, Hv. cbn [tail bf_map bf_order].
  apply NoDup_cons in Hnd as [Ho _].
  apply entries_of_ext. intros k Hin. apply lookup_delete_ne. by intros ->.
Qed.

Lemma fifo_insert_refines f key value :
  fifo_wf f ->
  entries (fifo_insert key value f) = spec_insert (bf_capacity f) key value (entries f).
Proof.
  intros Hwf. unfold spec_insert. rewrite entries_fst by done.
  unfold fifo_insert. destruct (bf_map f !! key) as [v|] eqn:Ek.
  - rewrite decide_True by (apply fifo_keys; [done|by eexists]).
    by apply entries_of_overwrite.
  - rewrite decide_False by (rewrite fifo_keys by done; rewrite Ek; by intros [? ?]).
    rewrite <- fifo_evict_entries by done.
    destruct (fifo_evict_wf f key Hwf Ek) as (_ & Hk & Hn & _).
    unfold entries. cbn [bf_map bf_order]. unfold entries_of at 1. rewrite omap_app. f_equal.
    + apply entries_of_ext. intros k Hin. apply lookup_insert_ne. intros <-.
      apply Hk in Hin as [? ?]. congruence.
    + cbn. by rewrite lookup_insert_eq.
Qed.

Lemma entries_of_remove m order key :
  entries_of (delete key m) (filter (fun k => k ≠ key) order) = spec_remove key (entries_of m order).
Proof.
  unfold spec_remove. induction order as [|k order IH]; [done|].
  rewrite filter_cons, (entries_of_cons m).
  destruct (decide (k ≠ key)) as [Hne|He].
  - rewrite entries_of_cons, lookup_delete_ne by done. destruct (m !! k); [|apply IH].
    by rewrite filter_cons_True, <- IH.
  - apply dec_stable in He as ->. destruct (m !! key); [|apply IH].
    rewrite filter_cons_False by (by intros []). apply IH.
Qed.

Lemma fifo_remove_refines f key :
  fifo_wf f -> entries (fifo_remove key f).1 = spec_remove key (entries f).
Proof.
  intros [Hnd Hk _]. unfold entries. rewrite <- entries_of_remove. unfold fifo_remove.
  destruct (bf_map f !! key) as [v|] eqn:Ek; cbn; [by rewrite remove_first_spec|].
  rewrite filter_all; [done|]. apply Forall_forall. intros k Hin ->.
  apply Hk in Hin as [? ?]. congruence.
Qed.

Lemma fifo_get_refines f key : fifo_wf f -> fifo_get f key = assoc_get (entries f) key.
Proof.
  intros Hwf. unfold fifo_get, entries, assoc_get.
  assert (Hin : is_Some (bf_map f !! key) -> key ∈ bf_order f) by (by apply fifo_keys).
  destruct Hwf as [Hnd Hk _].
  assert (Hall : forall k, k ∈ bf_order f -> is_Some (bf_map f !! k)) by (by intros k; apply Hk).
  clear Hk Hnd. induction (bf_order f) as [|k order IH].
  - cbn. destruct (bf_map f !! key); [|done].
    exfalso. eapply not_elem_of_nil, Hin. eauto.
  - destruct (Hall k) as [v Hv]; [left|]. rewrite entries_of_cons, Hv, filter_cons. cbn.
    destruct (decide (k = key)) as [->|Hne]; [by rewrite Hv|].
    apply IH; [|intros j Hj; apply Hall; by right].
    intros Hs. apply Hin, elem_of_cons in Hs as [->|?]; done.
Qed.

(** *** Runs of operations *)

Inductive FifoOp : Type :=
  | OpInsert (key : K) (value : V)
  | OpRemove (key : K).

Definition fifo_step (f : BoundedFifoMap) (op : FifoOp) : BoundedFifoMap :=
  match op with
  | OpInsert k v => fifo_insert k v f
  | OpRemove k => (fifo_remove k f).1
  end.

Definition spec_step (capacity : nat) (l : list (K * V)) (op : FifoOp) : list (K * V) :=
  match op with
  | OpInsert k v => spec_insert capacity k v l
  | OpRemove k => spec_remove k l
  end.

Lemma fifo_step_wf f op : fifo_wf f -> fifo_wf (fifo_step f op).
Proof. destruct op; [apply fifo_insert_wf|apply fifo_remove_wf]. Qed.

Lemma fifo_step_capacity f op : bf_capacity (fifo_step f op) = bf_capacity f.
Proof.
  destruct op; cbn; unfold fifo_insert, fifo_remove, fifo_evict; repeat case_step; done.
Qed.

Lemma fifo_run f ops :
  fifo_wf f ->
  fifo_wf (foldl fifo_step f ops) /\ bf_capacity (foldl fifo_step f ops) = bf_capacity f /\
  entries (foldl fifo_step f ops) = foldl (spec_step (bf_capacity f)) (entries f) ops.
Proof.
  revert f. induction ops as [|op ops IH]; intros f Hwf; [done|]. cbn.
  destruct (IH (fifo_step f op) (fifo_step_wf f op Hwf)) as (H1 & H2 & H3).
  rewrite H2, H3, fifo_step_capacity. split_and!; [done|done|]. f_equal.
  destruct op; cbn; [by apply fifo_insert_refines|by apply fifo_remove_refines].
Qed.
End fifo.
Arguments BoundedFifoMap K V {_ _}.

(** C23: after any sequence of insertions and removals a bounded map behaves as
    the association list in insertion order that overwrites in place and drops
    its oldest entry when full; lookups agree with it and it never holds more
    entries than its capacity. *)
Theorem fifo_refines_spec {K V} `{Countable K} capacity (ops : list (FifoOp (K := K) (V := V))) key :
  let f := foldl fifo_step (fifo_new capacity) ops in
  let spec := foldl (spec_step capacity) [] ops in
  entries f = spec /\ fifo_get f key = assoc_get spec key /\
  (size (bf_map f) <= capacity `max` 1)%nat.
Proof.
  destruct (fifo_run (fifo_new capacity) ops (fifo_new_wf capacity)) as (Hwf & Hc & He).
  cbn in Hc, He. cbn zeta. rewrite <- He. split_and!; [done|by apply fifo_get_refines|].
  pose proof (fifo_bound _ Hwf) as Hb. by rewrite Hc in Hb.
Qed.
