(* ===== verification/Pacemaker.v ===== *)
(** * The pacemaker
    ([crates/n42-consensus/src/protocol/pacemaker.rs])

    A [Duration] is its number of nanoseconds and an [Instant] a number of
    nanoseconds on the monotonic clock; the reading of the clock is an argument
    ([now]) of the operations that call [Instant::now]. *)

From S2P Require Import Prelude Effects.

Definition Duration : Type := N.
Definition Instant : Type := N.

Definition from_millis (ms : N) : Duration := ms * 1000000.
(** [d.as_millis() as u64]. *)
Definition as_millis_u64 (d : Duration) : N := (d / 1000000) mod 2 ^ 64.

Record Pacemaker : Type := mkPacemaker {
  base_timeout : Duration;
  max_timeout : Duration;
  deadline : Instant;
  recent_latencies : list Duration;
  latency_cursor : N
}.

Definition LATENCY_WINDOW : nat := 20.
Definition MAX_BACKOFF_EXPONENT : N := 63.

Definition Pacemaker_new (now : Instant) (base_timeout_ms max_timeout_ms : N) : Pacemaker :=
  let base_timeout := from_millis base_timeout_ms in
  mkPacemaker base_timeout (from_millis max_timeout_ms) (now + base_timeout) [] 0.

Definition observe_commit_latency (latency : Duration) (p : Pacemaker) : Pacemaker :=
  let recent :=
    if (length (recent_latencies p) <? LATENCY_WINDOW)%nat
    then recent_latencies p ++ [latency]
    else <[N.to_nat (latency_cursor p mod N.of_nat LATENCY_WINDOW) := latency]>
           (recent_latencies p) in
  mkPacemaker (base_timeout p) (max_timeout p) (deadline p) recent (latency_cursor p +w 1).

(** [sorted[p95_idx]] over the latencies in milliseconds; the index is in range
    whenever there is a sample. *)
Definition p95_ms (latencies : list Duration) : N :=
  let sorted := merge_sort N.le (as_millis_u64 <$> latencies) in
  let n := length sorted in
  default 0 (sorted !! ((n * 95 / 100) `min` (n - 1))%nat).

Definition effective_base_timeout (p : Pacemaker) : Duration :=
  if (length (recent_latencies p) <? 5)%nat then base_timeout p
  else
    let adaptive_ms := p95_ms (recent_latencies p) *s 2 in
    let effective := as_millis_u64 (base_timeout p) in
    from_millis ((effective `max` adaptive_ms) `min` as_millis_u64 (max_timeout p)).

(** [1u64.checked_shl(exp).unwrap_or(u64::MAX)]. *)
Definition checked_shl_one (exp : N) : N :=
  if exp <? 64 then N.shiftl 1 exp mod 2 ^ 64 else u64_max.

Definition timeout_duration (p : Pacemaker) (consecutive_timeouts : N) : Duration :=
  let base := effective_base_timeout p in
  let exp := consecutive_timeouts `min` MAX_BACKOFF_EXPONENT in
  let multiplier := checked_shl_one exp in
  let timeout_ms := as_millis_u64 base *s multiplier in
  from_millis (timeout_ms `min` as_millis_u64 (max_timeout p)).

Definition reset_for_view (now : Instant) (consecutive_timeouts : N) (p : Pacemaker)
  : Pacemaker :=
  mkPacemaker (base_timeout p) (max_timeout p) (now + timeout_duration p consecutive_timeouts)
    (recent_latencies p) (latency_cursor p).

Definition is_timed_out (now : Instant) (p : Pacemaker) : bool := deadline p <=? now.

Definition remaining (now : Instant) (p : Pacemaker) : Duration := deadline p - now.

Definition extend_deadline (extra : Duration) (p : Pacemaker) : Pacemaker :=
  mkPacemaker (base_timeout p) (max_timeout p) (deadline p + extra)
    (recent_latencies p) (latency_cursor p).

(** ** Theorems *)

Lemma as_from_millis ms : ms <= u64_max -> as_millis_u64 (from_millis ms) = ms.
Proof.
  intros H. unfold as_millis_u64, from_millis. rewrite N.div_mul by done.
  apply N.mod_small. unfold u64_max in H. lia.
Qed.

Lemma as_millis_le d : as_millis_u64 d <= u64_max.
Proof. unfold as_millis_u64, u64_max. pose proof (N.mod_lt (d / 1000000) (2 ^ 64)). lia. Qed.

Lemma checked_shl_one_exact exp : exp < 64 -> checked_shl_one exp = 2 ^ exp.
Proof.
  intros H. unfold checked_shl_one. rewrite (proj2 (N.ltb_lt _ _) H), N.shiftl_1_l.
  apply N.mod_small. by apply N.pow_lt_mono_r.
Qed.

(** The machine-width computation is the exact formula: saturation never shows
    because the cap is a [u64] too. *)
Lemma timeout_duration_exact p k :
  timeout_duration p k =
  from_millis ((as_millis_u64 (effective_base_timeout p) * 2 ^ (k `min` 63))
                 `min` as_millis_u64 (max_timeout p)).
Proof.
  unfold timeout_duration, MAX_BACKOFF_EXPONENT.
  rewrite checked_shl_one_exact by lia. f_equal.
  pose proof (as_millis_le (max_timeout p)). unfold u64_sat_mul. lia.
Qed.

Lemma timeout_duration_le_max p k :
  timeout_duration p k <= from_millis (as_millis_u64 (max_timeout p)).
Proof. rewrite timeout_duration_exact. unfold from_millis. lia. Qed.

Lemma timeout_duration_mono p k k' : k <= k' -> timeout_duration p k <= timeout_duration p k'.
Proof.
  intros H. rewrite !timeout_duration_exact. unfold from_millis.
  assert (2 ^ (k `min` 63) <= 2 ^ (k' `min` 63)) by (apply N.pow_le_mono_r; lia).
  pose proof (N.mul_le_mono_l _ _ (as_millis_u64 (effective_base_timeout p)) H0). lia.
Qed.

(** With a base of at least 2 ms the exponent cap is invisible as well. *)
Lemma timeout_duration_unbounded p k :
  2 <= as_millis_u64 (effective_base_timeout p) ->
  timeout_duration p k =
  from_millis ((as_millis_u64 (effective_base_timeout p) * 2 ^ k) `min` as_millis_u64 (max_timeout p)).
Proof.
  intros Hb. rewrite timeout_duration_exact. f_equal. destruct (N.le_gt_cases k 63).
  - by rewrite (N.min_l k 63).
  - rewrite (N.min_r k 63) by lia. pose proof (as_millis_le (max_timeout p)).
    assert (2 ^ 63 <= 2 ^ k) by (apply N.pow_le_mono_r; lia).
    set (b := as_millis_u64 (effective_base_timeout p)) in *.
    assert (u64_max <= b * 2 ^ 63) by (unfold u64_max; nia).
    assert (u64_max <= b * 2 ^ k) by nia. lia.
Qed.

(** *** The adaptive base timeout *)

Lemma strongly_sorted_le_at (l : list N) i x :
  StronglySorted N.le l -> l !! i = Some x ->
  (S i <= length (filter (fun y => y <= x)%N l))%nat.
Proof.
  intros Hs. revert i. induction Hs as [|y l Hs IH Hy]; intros i Hi; [done|].
  destruct i as [|i]; cbn in Hi.
  - injection Hi as ->. rewrite filter_cons_True by lia. cbn. lia.
  - rewrite filter_cons_True.
    + cbn. specialize (IH i Hi). lia.
    + eapply Forall_lookup_1 in Hy; [|exact Hi]. done.
Qed.

(** At least 95% of the samples lie at or below the estimate. *)
Lemma p95_covers l :
  l ≠ [] ->
  (length l * 95 / 100 <= length (filter (fun y => y <= p95_ms l)%N (as_millis_u64 <$> l)))%nat.
Proof.
  intros Hne. unfold p95_ms.
  pose proof (merge_sort_Permutation N.le (as_millis_u64 <$> l)) as Hp.
  pose proof (StronglySorted_merge_sort N.le (as_millis_u64 <$> l)) as Hs.
  set (sorted := merge_sort N.le _) in *.
  assert (Hn : length sorted = length l) by (rewrite (Permutation_length Hp); apply length_fmap).
  assert (Hpos : (0 < length l)%nat) by (destruct l; [done|cbn; lia]).
  rewrite Hn. set (i := ((length l * 95 / 100) `min` (length l - 1))%nat).
  assert (Hi : (i < length sorted)%nat) by (unfold i; lia).
  destruct (lookup_lt_is_Some_2 sorted i Hi) as [x Hx]. rewrite Hx. cbn [from_option id].
  rewrite <- (Permutation_length (filter_Permutation _ _ _ Hp)).
  pose proof (strongly_sorted_le_at sorted i x Hs Hx).
  pose proof (Nat.Div0.div_le_mono (length l * 95) (length l * 100) 100 ltac:(lia)) as Hd.
  rewrite Nat.div_mul in Hd by done. etrans; [|exact H]. unfold i. lia.
Qed.

Lemma effective_base_floor p :
  base_timeout p <= max_timeout p -> max_timeout p < from_millis (2 ^ 64) ->
  as_millis_u64 (base_timeout p) <= as_millis_u64 (effective_base_timeout p).
Proof.
  intros Hle Hmax. unfold effective_base_timeout. destruct (_ <? _)%nat; [done|].
  assert (Hb : as_millis_u64 (base_timeout p) <= as_millis_u64 (max_timeout p)).
  { unfold as_millis_u64, from_millis in *.
    assert (max_timeout p / 1000000 < 2 ^ 64) by (apply N.Div0.div_lt_upper_bound; lia).
    pose proof (N.Div0.div_le_mono _ _ 1000000 Hle).
    rewrite !N.mod_small by lia. done. }
  pose proof (as_millis_le (max_timeout p)). rewrite as_from_millis by lia. lia.
Qed.

(** *** The ring buffer of latencies *)

Definition last_n {A} (n : nat) (l : list A) : list A := drop (length l - n) l.

Definition observe_all (obs : list Duration) (p : Pacemaker) : Pacemaker :=
  foldl (fun p d => observe_commit_latency d p) p obs.

(** The buffer is the window of the last observations, rotated by the cursor. *)
Definition ring (obs : list Duration) : list Duration :=
  if (length obs <=? LATENCY_WINDOW)%nat then obs
  else
    let w := last_n LATENCY_WINDOW obs in
    let c := (length obs mod LATENCY_WINDOW)%nat in
    drop (LATENCY_WINDOW - c) w ++ take (LATENCY_WINDOW - c) w.

Lemma ring_perm obs : ring obs ≡ₚ last_n LATENCY_WINDOW obs.
Proof.
  unfold ring. destruct (_ <=? _)%nat eqn:E; bool_simpl.
  - unfold last_n. by replace (length obs - LATENCY_WINDOW)%nat with 0%nat by lia.
  - rewrite Permutation_app_comm. by rewrite take_drop.
Qed.

Lemma rotate_insert {A} (w : list A) (c : nat) (x y : A) (n : nat) :
  length (y :: w) = n -> (c < n)%nat ->
  <[c := x]> (drop (n - c) (y :: w) ++ take (n - c) (y :: w)) =
  drop (n - S c) (w ++ [x]) ++ take (n - S c) (w ++ [x]).
Proof.
  intros Hn Hc. cbn in Hn. replace (n - c)%nat with (S (n - S c)) by lia. cbn [drop take].
  rewrite insert_app_r_alt by (rewrite length_drop; lia). rewrite length_drop.
  replace (c - (length w - (n - S c)))%nat with 0%nat by lia. cbn.
  rewrite drop_app_le, take_app_le by lia. by rewrite <- app_assoc.
Qed.

Lemma length_last_n {A} n (l : list A) : length (last_n n l) = (n `min` length l)%nat.
Proof. unfold last_n. rewrite length_drop. lia. Qed.

Lemma last_n_snoc {A} n (l : list A) x :
  (n <= length l)%nat -> (0 < n)%nat -> last_n n (l ++ [x]) = tail (last_n n l) ++ [x].
Proof.
  intros Hl Hn. unfold last_n. rewrite length_app. cbn [length].
  rewrite drop_app_le by lia. f_equal.
  replace (length l + 1 - n)%nat with (1 + (length l - n))%nat by lia.
  rewrite Nat.add_comm, <- drop_drop. by destruct (drop _ l).
Qed.

Lemma ring_full obs :
  (LATENCY_WINDOW <= length obs)%nat ->
  ring obs =
  let w := last_n LATENCY_WINDOW obs in
  let c := (length obs mod LATENCY_WINDOW)%nat in
  drop (LATENCY_WINDOW - c) w ++ take (LATENCY_WINDOW - c) w.
Proof.
  intros Hl. unfold ring. destruct (_ <=? _)%nat eqn:E; [|done]. bool_simpl.
  assert (length obs = LATENCY_WINDOW) as Hn by lia. cbn zeta. rewrite Hn.
  replace (LATENCY_WINDOW mod LATENCY_WINDOW)%nat with 0%nat by done.
  unfold last_n. rewrite Hn, Nat.sub_diag, Nat.sub_0_r, drop_0.
  by rewrite drop_ge, take_ge by lia.
Qed.

Lemma succ_mod_wrap n m : m ≠ 0%nat -> S (n mod m) = m -> ((n + 1) mod m = 0)%nat.
Proof.
  intros Hm H. symmetry. apply (Nat.mod_unique _ _ (S (n / m)) 0); [lia|].
  pose proof (Nat.div_mod_eq n m). nia.
Qed.

Lemma succ_mod_step n m : m ≠ 0%nat -> S (n mod m) ≠ m -> ((n + 1) mod m = S (n mod m))%nat.
Proof.
  intros Hm H. pose proof (Nat.mod_upper_bound n m Hm).
  symmetry. apply (Nat.mod_unique _ _ (n / m) _); [lia|].
  pose proof (Nat.div_mod_eq n m). nia.
Qed.

Lemma ring_step obs x :
  (LATENCY_WINDOW <= length obs)%nat ->
  <[(length obs mod LATENCY_WINDOW)%nat := x]> (ring obs) = ring (obs ++ [x]).
Proof.
  intros Hl. rewrite (ring_full obs Hl), (ring_full (obs ++ [x]))
    by (rewrite length_app; cbn; lia). cbn zeta.
  rewrite last_n_snoc by (done || (unfold LATENCY_WINDOW; lia)).
  pose proof (length_last_n LATENCY_WINDOW obs) as Hw.
  destruct (last_n LATENCY_WINDOW obs) as [|y w];
    [cbn [length] in Hw; assert (0 < LATENCY_WINDOW)%nat by (unfold LATENCY_WINDOW; lia); lia|].
  assert (Hc : (length obs mod LATENCY_WINDOW < LATENCY_WINDOW)%nat)
    by (apply Nat.mod_upper_bound; done).
  rewrite (rotate_insert w _ x y LATENCY_WINDOW) by (rewrite ?Hw; lia). cbn [tail].
  rewrite length_app. cbn [length].
  destruct (decide (S (length obs mod LATENCY_WINDOW) = LATENCY_WINDOW)) as [He|Hne].
  - assert ((length obs + 1) mod LATENCY_WINDOW = 0)%nat as ->
      by (by apply succ_mod_wrap).
    rewrite He, Nat.sub_diag, Nat.sub_0_r, drop_0, app_nil_r.
    cbn [length] in Hw. rewrite drop_ge, take_ge by (rewrite length_app; cbn; lia). done.
  - assert ((length obs + 1) mod LATENCY_WINDOW = S (length obs mod LATENCY_WINDOW))%nat as ->
      by (by apply succ_mod_step).
    done.
Qed.

Lemma observe_ring p obs x :
  recent_latencies p = ring obs -> latency_cursor p = N.of_nat (length obs) ->
  N.of_nat (length obs) < u64_max ->
  recent_latencies (observe_commit_latency x p) = ring (obs ++ [x]) /\
  latency_cursor (observe_commit_latency x p) = N.of_nat (length (obs ++ [x])).
Proof.
  intros Hr Hc Hb. cbn. rewrite length_app. cbn [length]. split.
  - assert (Hl : length (ring obs) = (LATENCY_WINDOW `min` length obs)%nat).
    { rewrite (Permutation_length (ring_perm obs)). apply length_last_n. }
    rewrite Hr, Hl, Hc. destruct (_ <? _)%nat eqn:E; bool_simpl.
    + unfold ring. rewrite length_app. cbn [length].
      rewrite !(proj2 (Nat.leb_le _ _)) by lia. done.
    + rewrite <- ring_step by lia. f_equal.
      rewrite <- Nat2N.inj_mod. by rewrite Nat2N.id.
  - rewrite Hc, u64_wadd_exact; lia.
Qed.

Lemma observe_all_ring p obs0 obs :
  recent_latencies p = ring obs0 -> latency_cursor p = N.of_nat (length obs0) ->
  N.of_nat (length (obs0 ++ obs)) <= u64_max ->
  recent_latencies (observe_all obs p) = ring (obs0 ++ obs).
Proof.
  revert p obs0. induction obs as [|x obs IH]; intros p obs0 Hr Hc Hb; cbn.
  - by rewrite app_nil_r.
  - rewrite length_app in Hb. cbn in Hb.
    destruct (observe_ring p obs0 x Hr Hc) as [Hr' Hc']; [lia|].
    unfold observe_all in IH. rewrite (IH _ _ Hr' Hc').
    + by rewrite <- app_assoc.
    + rewrite !length_app. cbn. lia.
Qed.

(** ** What the pacemaker promises *)

(** C22: the timeout after [k] consecutive timeouts is the effective base doubled
    [min k 63] times, capped by the configured maximum, computed exactly in
    spite of the 64-bit arithmetic; it never exceeds the maximum and never
    decreases in [k]. *)
Theorem timeout_backoff p k k' :
  timeout_duration p k =
    from_millis ((as_millis_u64 (effective_base_timeout p) * 2 ^ (k `min` 63))
                   `min` as_millis_u64 (max_timeout p)) /\
  timeout_duration p k <= from_millis (as_millis_u64 (max_timeout p)) /\
  timeout_duration p k <= timeout_duration p (k + k').
Proof.
  split_and!; [apply timeout_duration_exact|apply timeout_duration_le_max|].
  apply timeout_duration_mono. lia.
Qed.

(** After any sequence of at most [u64::MAX] observed commit latencies the
    ring buffer holds exactly the last [LATENCY_WINDOW] of them, and once there
    are five the estimate the timeout adapts to covers 95% of those. *)
Lemma latency_window now base max obs :
  N.of_nat (length obs) <= u64_max ->
  let p := observe_all obs (Pacemaker_new now base max) in
  recent_latencies p ≡ₚ last_n LATENCY_WINDOW obs /\
  (obs ≠ [] ->
   (length (recent_latencies p) * 95 / 100 <=
    length (filter (fun y => y <= p95_ms (recent_latencies p))%N
              (as_millis_u64 <$> recent_latencies p)))%nat).
Proof.
  intros Hn p.
  assert (Hr : recent_latencies p = ring obs).
  { apply (observe_all_ring _ []); [done|done|exact Hn]. }
  split; [rewrite Hr; apply ring_perm|]. intros Hne. apply p95_covers. rewrite Hr.
  intros Hnil. pose proof (Permutation_length (ring_perm obs)) as Hl. rewrite Hnil in Hl.
  rewrite length_last_n in Hl. unfold LATENCY_WINDOW in Hl.
  destruct obs; [done|]. cbn [length] in Hl. lia.
Qed.
