(* ===== verification/Round.v ===== *)
(** * The round state and its safety rule
    ([crates/n42-consensus/src/protocol/round.rs])

    [debug_assert!] is compiled out of the release profile, so [record_vote]
    overwrites unconditionally; the callers check [may_vote_in] first. *)

From S2P Require Import Prelude Effects Crypto Messages.

Inductive Phase : Type := WaitingForProposal | Voting | PreCommit | Committed | TimedOut.

#[export] Instance Phase_eq_dec : EqDecision Phase.
Proof. solve_decision. Defined.

Record RoundState : Type := mkRoundState {
  current_view : ViewNumber;
  phase : Phase;
  locked_qc : QuorumCertificate;
  last_committed_qc : QuorumCertificate;
  consecutive_timeouts : N;
  last_voted_view : ViewNumber;
  last_commit_voted_view : ViewNumber
}.

Definition RoundState_eta (r : RoundState) : RoundState :=
  mkRoundState (current_view r) (phase r) (locked_qc r) (last_committed_qc r)
    (consecutive_timeouts r) (last_voted_view r) (last_commit_voted_view r).

#[export] Instance set_current_view : Setter current_view.
Proof. solve_setter RoundState_eta. Defined.
#[export] Instance set_phase : Setter phase.
Proof. solve_setter RoundState_eta. Defined.
#[export] Instance set_locked_qc : Setter locked_qc.
Proof. solve_setter RoundState_eta. Defined.
#[export] Instance set_last_committed_qc : Setter last_committed_qc.
Proof. solve_setter RoundState_eta. Defined.
#[export] Instance set_consecutive_timeouts : Setter consecutive_timeouts.
Proof. solve_setter RoundState_eta. Defined.
#[export] Instance set_last_voted_view : Setter last_voted_view.
Proof. solve_setter RoundState_eta. Defined.
#[export] Instance set_last_commit_voted_view : Setter last_commit_voted_view.
Proof. solve_setter RoundState_eta. Defined.

#[global] Arguments set_current_view _ _ /.
#[global] Arguments set_phase _ _ /.
#[global] Arguments set_locked_qc _ _ /.
#[global] Arguments set_last_committed_qc _ _ /.
#[global] Arguments set_consecutive_timeouts _ _ /.
#[global] Arguments set_last_voted_view _ _ /.
#[global] Arguments set_last_commit_voted_view _ _ /.

Definition RoundState_new {blst : Blst} : RoundState :=
  mkRoundState 1 WaitingForProposal genesis genesis 0 0 0.

Definition from_snapshot (view : ViewNumber) (locked_qc last_committed_qc : QuorumCertificate)
  (consecutive_timeouts : N) (last_voted_view last_commit_voted_view : ViewNumber) : RoundState :=
  mkRoundState view WaitingForProposal locked_qc last_committed_qc consecutive_timeouts
    last_voted_view last_commit_voted_view.

Definition may_vote_in (r : RoundState) (view : ViewNumber) : bool := last_voted_view r <? view.
Definition rs_record_vote (view : ViewNumber) (r : RoundState) : RoundState :=
  r <| last_voted_view := view |>.

Definition may_commit_vote_in (r : RoundState) (view : ViewNumber) : bool :=
  last_commit_voted_view r <? view.
Definition rs_record_commit_vote (view : ViewNumber) (r : RoundState) : RoundState :=
  r <| last_commit_voted_view := view |>.

Definition enter_voting (r : RoundState) : RoundState := r <| phase := Voting |>.
Definition enter_pre_commit (r : RoundState) : RoundState := r <| phase := PreCommit |>.

Definition update_locked_qc (qc : QuorumCertificate) (r : RoundState) : RoundState :=
  if qc_view (locked_qc r) <? qc_view qc then r <| locked_qc := qc |> else r.

Definition rs_commit (commit_qc : QuorumCertificate) (r : RoundState) : RoundState :=
  let r := r <| phase := Committed |> in
  let r := update_locked_qc commit_qc r in
  let r := if qc_view (last_committed_qc r) <=? qc_view commit_qc
           then r <| last_committed_qc := commit_qc |> else r in
  r <| consecutive_timeouts := 0 |>.

Definition advance_view (new_view : ViewNumber) (r : RoundState) : RoundState :=
  if new_view <=? current_view r then r
  else r <| current_view := new_view |> <| phase := WaitingForProposal |>.

(** [saturating_add] on [u32]. *)
Definition rs_timeout (r : RoundState) : RoundState :=
  r <| phase := TimedOut |>
    <| consecutive_timeouts ::= (fun n => (n + 1) `min` u32_max) |>.

Definition reset_consecutive_timeouts (r : RoundState) : RoundState :=
  r <| consecutive_timeouts := 0 |>.

Definition is_safe_to_vote (r : RoundState) (justify_qc : QuorumCertificate) : bool :=
  qc_view (locked_qc r) <=? qc_view justify_qc.

(** ** Monotonicity *)

(** Nothing a validator relies on is ever taken back. *)
Record round_le (r r' : RoundState) : Prop := {
  le_view : current_view r <= current_view r';
  le_locked : qc_view (locked_qc r) <= qc_view (locked_qc r');
  le_committed : qc_view (last_committed_qc r) <= qc_view (last_committed_qc r');
  le_voted : last_voted_view r <= last_voted_view r';
  le_commit_voted : last_commit_voted_view r <= last_commit_voted_view r'
}.

#[export] Instance round_le_preorder : PreOrder round_le.
Proof.
  split.
  - intros r. constructor; lia.
  - intros r1 r2 r3 [] []. constructor; lia.
Qed.

Ltac solve_round_le :=
  constructor; cbn; repeat (case_match; bool_simpl); cbn in *; lia.

Lemma record_vote_le v r : may_vote_in r v = true -> round_le r (rs_record_vote v r).
Proof. unfold may_vote_in. intros H. bool_simpl. solve_round_le. Qed.
Lemma record_commit_vote_le v r :
  may_commit_vote_in r v = true -> round_le r (rs_record_commit_vote v r).
Proof. unfold may_commit_vote_in. intros H. bool_simpl. solve_round_le. Qed.
Lemma enter_voting_le r : round_le r (enter_voting r).
Proof. solve_round_le. Qed.
Lemma enter_pre_commit_le r : round_le r (enter_pre_commit r).
Proof. solve_round_le. Qed.
Lemma update_locked_qc_le qc r : round_le r (update_locked_qc qc r).
Proof. unfold update_locked_qc. solve_round_le. Qed.
Lemma commit_le qc r : round_le r (rs_commit qc r).
Proof. unfold rs_commit, update_locked_qc. solve_round_le. Qed.
Lemma advance_view_le v r : round_le r (advance_view v r).
Proof. unfold advance_view. solve_round_le. Qed.
Lemma timeout_le r : round_le r (rs_timeout r).
Proof. solve_round_le. Qed.
Lemma reset_timeouts_le r : round_le r (reset_consecutive_timeouts r).
Proof. solve_round_le. Qed.

#[export] Hint Resolve record_vote_le record_commit_vote_le enter_voting_le enter_pre_commit_le
  update_locked_qc_le commit_le advance_view_le timeout_le reset_timeouts_le : n42.

(** A lock is at least the certificate it was updated with. *)
Lemma update_locked_qc_ge qc r : qc_view qc <= qc_view (locked_qc (update_locked_qc qc r)).
Proof. unfold update_locked_qc. case_match; bool_simpl; cbn; lia. Qed.

Lemma update_locked_qc_or qc r :
  locked_qc (update_locked_qc qc r) = qc \/ locked_qc (update_locked_qc qc r) = locked_qc r.
Proof. unfold update_locked_qc. case_match; cbn; auto. Qed.
