(* ===== verification/VoteLog.v ===== *)
(** * The durable vote log
    ([crates/n42-consensus/src/vote_log.rs] and the file-backed implementation in
    [crates/n42-consensus-service/src/persistence.rs])

    The trait [VoteLogWriter] is a class of operations.  [CrashSafe] states what
    the engine's crash safety needs of an implementation: a record that returned
    [Ok] is what a restart reads, one that failed leaves the old value or the
    new one.  [FileVoteLog] is proved to be such an implementation; the only
    assumption on the disk is that overwriting the eight bytes of one field is
    not torn. *)

From S2P Require Import Prelude Effects Crypto Messages.

(** ** The trait *)

Class VoteLogWriter (L : Type) : Type := {
  record_vote : N -> ST L ConsensusError unit;
  record_commit_vote : N -> ST L ConsensusError unit;
  record_lock : QuorumCertificate -> ST L ConsensusError unit
}.

(** [NoopVoteLog]; [record_lock] is the default method of the trait. *)
#[export] Instance NoopVoteLog : VoteLogWriter unit := {
  record_vote := fun _ => mret tt;
  record_commit_vote := fun _ => mret tt;
  record_lock := fun _ => mret tt
}.

Definition lock_view (lock : option QuorumCertificate) : N :=
  match lock with Some qc => qc_view qc | None => 0 end.

(** One record: the field holds the new value after [Ok] and one of the two
    values after an error, and nothing else moves. *)
Definition recorded {A} (old new after : A) (r : outcome ConsensusError unit) : Prop :=
  match r with
  | Ok _ => after = new
  | Err _ => after = old \/ after = new
  | _ => False
  end.

Class CrashSafe (L : Type) `{VoteLogWriter L} : Type := {
  log_wf : L -> Prop;
  last_vote_views : L -> N * N;
  durable_lock : L -> option QuorumCertificate;
  record_vote_safe v l :
    log_wf l -> is_u64 v ->
    let '(l', r) := record_vote v l in
    log_wf l' /\ durable_lock l' = durable_lock l /\
    (last_vote_views l').2 = (last_vote_views l).2 /\
    recorded (last_vote_views l).1 v (last_vote_views l').1 r;
  record_commit_vote_safe v l :
    log_wf l -> is_u64 v ->
    let '(l', r) := record_commit_vote v l in
    log_wf l' /\ durable_lock l' = durable_lock l /\
    (last_vote_views l').1 = (last_vote_views l).1 /\
    recorded (last_vote_views l).2 v (last_vote_views l').2 r;
  record_lock_safe qc l :
    log_wf l ->
    let '(l', r) := record_lock qc l in
    log_wf l' /\ last_vote_views l' = last_vote_views l /\
    recorded (durable_lock l) (Some qc) (durable_lock l') r
}.

(** ** The file-backed log *)

Definition VOTE_LOG_FIELD_BYTES : nat := 8.
Definition VOTE_LOG_BYTES : nat := 16.
Definition DURABLE_LOCK_MAGIC : bytes := ascii_bytes "N42L".

(** [bincode] and its round trip on certificates. *)
Class QcCodec : Type := {
  bincode_serialize : QuorumCertificate -> string + bytes;
  bincode_deserialize : bytes -> string + QuorumCertificate;
  bincode_roundtrip qc b : bincode_serialize qc = inr b -> bincode_deserialize b = inr qc
}.

(** [None] is a missing file, the outer [None] an [io::Error]. *)
Definition load_last_vote_views (file : option bytes) : option (N * N) :=
  match file with
  | None => Some (0, 0)
  | Some b =>
      let prepare_view := le_value (take 8 b) in
      if bool_decide (length b = VOTE_LOG_FIELD_BYTES) then Some (prepare_view, prepare_view)
      else if bool_decide (length b = VOTE_LOG_BYTES)
      then Some (prepare_view, le_value (take 8 (drop 8 b)))
      else None
  end.

(** The contents [FileVoteLog::open] leaves in the file. *)
Definition vote_log_open (file : option bytes) : option bytes :=
  let b := default [] file in
  if bool_decide (length b = 0%nat) then Some (replicate VOTE_LOG_BYTES 0)
  else if bool_decide (length b = VOTE_LOG_FIELD_BYTES) then Some (b ++ take 8 b)
  else if bool_decide (length b = VOTE_LOG_BYTES) then Some b
  else None.

Section lock_file.
Context {digest : Digest} {codec : QcCodec}.

Definition durable_lock_bytes (encoded : bytes) : bytes :=
  DURABLE_LOCK_MAGIC ++ b256_bytes (blake3 encoded) ++ encoded.

(** [strip_prefix]. *)
Definition strip_prefix (prefix b : bytes) : option bytes :=
  if bool_decide (take (length prefix) b = prefix) then Some (drop (length prefix) b) else None.

Definition load_durable_lock (file : option bytes) : option (option QuorumCertificate) :=
  match file with
  | None => Some None
  | Some b =>
      body ← strip_prefix DURABLE_LOCK_MAGIC b;
      if (length body <? 32)%nat then None
      else
        let checksum := take 32 body in
        let encoded := drop 32 body in
        if bool_decide (b256_bytes (blake3 encoded) = checksum) then
          match bincode_deserialize encoded with
          | inr qc => Some (Some qc)
          | inl _ => None
          end
        else None
  end.

Lemma load_durable_lock_roundtrip qc encoded :
  bincode_serialize qc = inr encoded ->
  load_durable_lock (Some (durable_lock_bytes encoded)) = Some (Some qc).
Proof.
  intros He. unfold load_durable_lock, strip_prefix, durable_lock_bytes.
  rewrite take_app_length, drop_app_length, bool_decide_eq_true_2 by done. cbn.
  rewrite length_app, length_b256_bytes. destruct (_ <? 32)%nat eqn:E; bool_simpl; [lia|].
  rewrite take_app_length' , drop_app_length' by (by rewrite length_b256_bytes).
  rewrite bool_decide_eq_true_2 by done. by rewrite (bincode_roundtrip qc encoded He).
Qed.
End lock_file.
#[global] Arguments load_durable_lock {_ _} _ : simpl never.
#[global] Arguments durable_lock_bytes {_} _ : simpl never.

Definition higher_lock (snapshot_lock : QuorumCertificate)
  (durable_lock : option QuorumCertificate) : QuorumCertificate :=
  match durable_lock with
  | Some lock => if qc_view snapshot_lock <? qc_view lock then lock else snapshot_lock
  | None => snapshot_lock
  end.

Lemma higher_lock_ge snapshot durable :
  qc_view snapshot <= qc_view (higher_lock snapshot durable) /\
  lock_view durable <= qc_view (higher_lock snapshot durable).
Proof. destruct durable; cbn; [case_match; bool_simpl|]; lia. Qed.

(** What one write to the disk answers.  A failed mutex, seek, write or sync is
    one [IoFailed]; [applied] tells whether the bytes had reached the file. *)
Inductive IoAnswer : Type := IoDone | IoFailed (applied : bool) (msg : string).

Record FileVoteLog : Type := mkFileVoteLog {
  fl_file : bytes;
  fl_lock : option bytes;
  fl_io : nat -> IoAnswer;
  fl_step : nat
}.

Definition overwrite (offset : nat) (new b : bytes) : bytes :=
  take offset b ++ new ++ drop (offset + length new) b.

(** [write] of a new version of the state, as the disk answers. *)
Definition disk_write (write : FileVoteLog -> FileVoteLog) : ST FileVoteLog ConsensusError unit :=
  fun l =>
    let answer := fl_io l (fl_step l) in
    let l := mkFileVoteLog (fl_file l) (fl_lock l) (fl_io l) (S (fl_step l)) in
    match answer with
    | IoDone => (write l, Ok tt)
    | IoFailed true msg => (write l, Err (VoteLogFsync msg))
    | IoFailed false msg => (l, Err (VoteLogFsync msg))
    end.

Definition record_at (offset : nat) (view : N) : ST FileVoteLog ConsensusError unit :=
  disk_write (fun l =>
    mkFileVoteLog (overwrite offset (u64_le view) (fl_file l)) (fl_lock l) (fl_io l) (fl_step l)).

Section file.
Context {digest : Digest} {codec : QcCodec}.

(** The temporary file is renamed over the old lock, so the visible lock file
    changes in one step. *)
Definition file_record_lock (qc : QuorumCertificate) : ST FileVoteLog ConsensusError unit :=
  match bincode_serialize qc with
  | inl e => fail (VoteLogFsync ("encode lock: " +:+ e))
  | inr encoded =>
      disk_write (fun l =>
        mkFileVoteLog (fl_file l) (Some (durable_lock_bytes encoded)) (fl_io l) (fl_step l))
  end.

#[export] Instance FileVoteLog_writer : VoteLogWriter FileVoteLog := {
  record_vote := record_at 0;
  record_commit_vote := record_at VOTE_LOG_FIELD_BYTES;
  record_lock := file_record_lock
}.

(** A log that [open] returned: two fields, and a lock file that loads. *)
Definition file_log_wf (l : FileVoteLog) : Prop :=
  length (fl_file l) = VOTE_LOG_BYTES /\ is_Some (load_durable_lock (fl_lock l)).

Definition file_views (l : FileVoteLog) : N * N :=
  default (0, 0) (load_last_vote_views (Some (fl_file l))).

Definition file_lock (l : FileVoteLog) : option QuorumCertificate :=
  default None (load_durable_lock (fl_lock l)).

Lemma le_value_u64 v : is_u64 v -> le_value (u64_le v) = v.
Proof. apply (le_value_le_bytes 8). Qed.

Lemma load_views_16 b :
  length b = VOTE_LOG_BYTES ->
  load_last_vote_views (Some b) = Some (le_value (take 8 b), le_value (take 8 (drop 8 b))).
Proof.
  intros Hb. unfold load_last_vote_views. rewrite Hb.
  rewrite bool_decide_eq_false_2 by done. by rewrite bool_decide_eq_true_2.
Qed.

Lemma overwrite_first b v :
  length b = VOTE_LOG_BYTES -> is_u64 v ->
  length (overwrite 0 (u64_le v) b) = VOTE_LOG_BYTES /\
  take 8 (overwrite 0 (u64_le v) b) = u64_le v /\
  drop 8 (overwrite 0 (u64_le v) b) = drop 8 b.
Proof.
  intros Hb Hv. unfold overwrite, VOTE_LOG_BYTES in *.
  rewrite take_0, app_nil_l, Nat.add_0_l, length_app, length_drop, !length_u64_le.
  rewrite take_app_length', drop_app_length' by (by rewrite length_u64_le).
  split_and!; [lia|done|done].
Qed.

Lemma overwrite_second b v :
  length b = VOTE_LOG_BYTES -> is_u64 v ->
  length (overwrite 8 (u64_le v) b) = VOTE_LOG_BYTES /\
  take 8 (overwrite 8 (u64_le v) b) = take 8 b /\
  take 8 (drop 8 (overwrite 8 (u64_le v) b)) = u64_le v.
Proof.
  intros Hb Hv. unfold overwrite, VOTE_LOG_BYTES in *.
  assert (H8 : length (take 8 b) = 8%nat) by (rewrite length_take; lia).
  rewrite !length_app, length_drop, H8, !length_u64_le.
  rewrite take_app_length', drop_app_length' by done.
  rewrite take_app_length' by (by rewrite length_u64_le).
  split_and!; [lia|done|done].
Qed.

Lemma file_log_lock_wf l lock :
  length (fl_file l) = VOTE_LOG_BYTES -> is_Some (load_durable_lock lock) ->
  file_log_wf (mkFileVoteLog (fl_file l) lock (fl_io l) (fl_step l)).
Proof. by split. Qed.

Lemma record_at_safe offset v l :
  file_log_wf l -> length (overwrite offset (u64_le v) (fl_file l)) = VOTE_LOG_BYTES ->
  let '(l', r) := record_at offset v l in
  file_log_wf l' /\ file_lock l' = file_lock l /\
  recorded (fl_file l) (overwrite offset (u64_le v) (fl_file l)) (fl_file l') r.
Proof.
  intros [Hl Hk] Hlen. unfold record_at, disk_write, file_log_wf.
  destruct (fl_io l (fl_step l)) as [|[] msg]; cbn; auto.
Qed.

#[export] Program Instance FileVoteLog_crash_safe : CrashSafe FileVoteLog := {
  log_wf := file_log_wf;
  last_vote_views := file_views;
  durable_lock := file_lock
}.
Next Obligation.
  intros v l Hwf Hv. pose proof Hwf as [Hl Hk].
  destruct (overwrite_first (fl_file l) v Hl Hv) as (Ha & Hb & Hc).
  pose proof (record_at_safe 0 v l Hwf Ha) as H. cbn [record_vote FileVoteLog_writer].
  destruct (record_at 0 v l) as [l' r]. destruct H as ([Hl' Hk'] & Hlock & Hr).
  unfold file_views. rewrite !load_views_16 by done. cbn.
  split_and!; [done|done| |].
  - destruct r as [[]|e| |]; cbn in Hr; try done; [by rewrite Hr, Hc|].
    destruct Hr as [->| ->]; by rewrite ?Hc.
  - destruct r as [[]|e| |]; cbn in *; try done; [by rewrite Hr, Hb, le_value_u64|].
    destruct Hr as [->| ->]; [by left|right]. by rewrite Hb, le_value_u64.
Qed.
Next Obligation.
  intros v l Hwf Hv. pose proof Hwf as [Hl Hk].
  destruct (overwrite_second (fl_file l) v Hl Hv) as (Ha & Hb & Hc).
  pose proof (record_at_safe 8 v l Hwf Ha) as H. cbn [record_commit_vote FileVoteLog_writer].
  change VOTE_LOG_FIELD_BYTES with 8%nat.
  destruct (record_at 8 v l) as [l' r]. destruct H as ([Hl' Hk'] & Hlock & Hr).
  unfold file_views. rewrite !load_views_16 by done. cbn.
  split_and!; [done|done| |].
  - destruct r as [[]|e| |]; cbn in Hr; try done; [by rewrite Hr, Hb|].
    destruct Hr as [->| ->]; by rewrite ?Hb.
  - destruct r as [[]|e| |]; cbn in *; try done; [by rewrite Hr, Hc, le_value_u64|].
    destruct Hr as [->| ->]; [by left|right]. by rewrite Hc, le_value_u64.
Qed.
Next Obligation.
  intros qc l [Hl Hk]. cbn. unfold file_record_lock.
  destruct (bincode_serialize qc) as [e|b] eqn:He.
  - cbn. split_and!; [by split|done|by left].
  - pose proof (load_durable_lock_roundtrip qc b He) as Hload. unfold disk_write.
    destruct (fl_io l (fl_step l)) as [|[] msg]; cbn; unfold file_log_wf, file_lock; cbn;
      rewrite ?Hload; split_and!; try done; eauto.
Qed.
End file.

(** ** Opening *)

(** Opening a log keeps what it says: a fresh file reads as no votes, a current
    one as before, and a legacy one as if its last view had been commit-voted. *)
Lemma vote_log_open_load file b :
  vote_log_open file = Some b ->
  length b = VOTE_LOG_BYTES /\
  load_last_vote_views (Some b) =
    (if bool_decide (length (default [] file) = 0%nat) then Some (0, 0)
     else load_last_vote_views file).
Proof.
  unfold vote_log_open. destruct file as [f|]; cbn [default from_option id].
  - destruct (decide (length f = 0%nat)) as [H0|H0];
      [rewrite bool_decide_eq_true_2 by done; intros [= <-]; done|].
    rewrite (bool_decide_eq_false_2 (length f = 0%nat)) by done.
    destruct (decide (length f = VOTE_LOG_FIELD_BYTES)) as [H8|H8].
    + rewrite bool_decide_eq_true_2 by done. intros [= <-].
      unfold VOTE_LOG_FIELD_BYTES in H8.
      assert (Ht : take 8 f = f) by (apply take_ge; lia).
      split; [rewrite length_app, Ht, H8; done|].
      rewrite load_views_16 by (rewrite length_app, Ht, H8; done).
      unfold load_last_vote_views. rewrite (bool_decide_eq_true_2 (length f = _)) by done.
      rewrite take_app_length', drop_app_length' by done.
      by rewrite (take_ge (take 8 f)), Ht by (rewrite length_take; lia).
    + rewrite (bool_decide_eq_false_2 (length f = VOTE_LOG_FIELD_BYTES)) by done.
      case_bool_decide; [|done]. intros [= <-]. done.
  - rewrite bool_decide_eq_true_2 by done. intros [= <-]. done.
Qed.

Section survives.
Context {digest : Digest} {codec : QcCodec}.

(** What a process that starts from the files of [l] reads. *)
Definition reopened (l : FileVoteLog) : option (N * N) :=
  file ← vote_log_open (Some (fl_file l));
  load_last_vote_views (Some file).

Lemma open_current f : length f = VOTE_LOG_BYTES -> vote_log_open (Some f) = Some f.
Proof.
  intros Hl. unfold vote_log_open. cbn [default from_option id]. rewrite Hl.
  by rewrite bool_decide_eq_false_2, bool_decide_eq_false_2, bool_decide_eq_true_2.
Qed.

Lemma reopened_views l : file_log_wf l -> reopened l = Some (file_views l).
Proof.
  intros [Hl _]. unfold reopened, file_views. rewrite open_current by done.
  cbn [mbind option_bind]. by rewrite load_views_16 by done.
Qed.

(** C24: whatever the disk answers, a process that dies right after a record and
    starts again reads the other field unchanged, and reads the recorded view
    (or lock) if the record returned [Ok]; after an error it reads the old or
    the new value, never anything else. *)
Theorem vote_log_survives_crash l v qc :
  file_log_wf l -> is_u64 v ->
  (let '(l', r) := record_vote v l in
   exists x, reopened l' = Some (x, (file_views l).2) /\ recorded (file_views l).1 v x r) /\
  (let '(l', r) := record_commit_vote v l in
   exists x, reopened l' = Some ((file_views l).1, x) /\ recorded (file_views l).2 v x r) /\
  (let '(l', r) := record_lock qc l in
   exists x, load_durable_lock (fl_lock l') = Some x /\ reopened l' = Some (file_views l) /\
     recorded (file_lock l) (Some qc) x r).
Proof.
  intros Hwf Hv. split_and!.
  - pose proof (record_vote_safe v l Hwf Hv) as Hs. destruct (record_vote v l) as [l' r].
    destruct Hs as (Hwf' & _ & H2 & H1). cbn [last_vote_views durable_lock FileVoteLog_crash_safe] in H1, H2. exists (file_views l').1.
    rewrite reopened_views, <- H2 by done. split; [by destruct (file_views l')|done].
  - pose proof (record_commit_vote_safe v l Hwf Hv) as Hs. destruct (record_commit_vote v l) as [l' r].
    destruct Hs as (Hwf' & _ & H1 & H2). cbn [last_vote_views durable_lock FileVoteLog_crash_safe] in H1, H2. exists (file_views l').2.
    rewrite reopened_views, <- H1 by done. split; [by destruct (file_views l')|done].
  - pose proof (record_lock_safe qc l Hwf) as Hs. destruct (record_lock qc l) as [l' r].
    destruct Hs as (Hwf' & H1 & H2). cbn [last_vote_views durable_lock FileVoteLog_crash_safe] in H1, H2. exists (file_lock l').
    rewrite reopened_views, <- H1 by done. split_and!; [|done|done].
    destruct Hwf' as [_ [x Hx]]. unfold file_lock. by rewrite Hx.
Qed.
End survives.
