(* ===== verification/Engine.v ===== *)
(** * The consensus engine: state, environment and helpers
    ([crates/n42-consensus/src/protocol/state_machine.rs])

    [ConsensusEngine] is the struct of the source with one more field, [world]:
    the environment it talks to (clock, output channel, sudden death of the
    process) and the trace of what the local key signed.  A method on
    [&mut self] is a computation of the monad [M]. *)

From S2P Require Import Prelude Effects Crypto Messages Signing ValidatorSet Epoch Quorum Fifo.
From S2P Require Import Pacemaker Round VoteLog.

(** ** Timing of a view *)

Record ViewTiming : Type := mkViewTiming {
  view_start : Instant;
  proposal_sent : option Instant;
  proposal_received : option Instant;
  vote_sent : option Instant;
  prepare_qc_formed : option Instant;
  commit_vote_sent : option Instant;
  commit_qc_formed : option Instant;
  prepare_vote_count : N;
  commit_vote_count : N
}.

Definition ViewTiming_new (now : Instant) : ViewTiming :=
  mkViewTiming now None None None None None None 0 0.

Definition ViewTiming_eta (t : ViewTiming) : ViewTiming :=
  mkViewTiming (view_start t) (proposal_sent t) (proposal_received t) (vote_sent t)
    (prepare_qc_formed t) (commit_vote_sent t) (commit_qc_formed t) (prepare_vote_count t)
    (commit_vote_count t).

#[export] Instance set_proposal_sent : Setter proposal_sent.
Proof. solve_setter ViewTiming_eta. Defined.
#[export] Instance set_proposal_received : Setter proposal_received.
Proof. solve_setter ViewTiming_eta. Defined.
#[export] Instance set_vote_sent : Setter vote_sent.
Proof. solve_setter ViewTiming_eta. Defined.
#[export] Instance set_prepare_qc_formed : Setter prepare_qc_formed.
Proof. solve_setter ViewTiming_eta. Defined.
#[export] Instance set_commit_vote_sent : Setter commit_vote_sent.
Proof. solve_setter ViewTiming_eta. Defined.
#[export] Instance set_commit_qc_formed : Setter commit_qc_formed.
Proof. solve_setter ViewTiming_eta. Defined.
#[export] Instance set_prepare_vote_count : Setter prepare_vote_count.
Proof. solve_setter ViewTiming_eta. Defined.
#[export] Instance set_commit_vote_count : Setter commit_vote_count.
Proof. solve_setter ViewTiming_eta. Defined.

#[global] Arguments set_proposal_sent _ _ /.
#[global] Arguments set_proposal_received _ _ /.
#[global] Arguments set_vote_sent _ _ /.
#[global] Arguments set_prepare_qc_formed _ _ /.
#[global] Arguments set_commit_vote_sent _ _ /.
#[global] Arguments set_commit_qc_formed _ _ /.
#[global] Arguments set_prepare_vote_count _ _ /.
#[global] Arguments set_commit_vote_count _ _ /.

Definition FUTURE_VIEW_WINDOW : N := 50.
Definition MAX_FUTURE_MESSAGES : nat := 256.
Definition MAX_OUTPUT_SEND_RETRIES : nat := 3.
Definition MAX_IMPORTED_BLOCKS : nat := 64.
Definition MAX_CHANGES_PER_PROPOSAL : nat := 4.
Definition SYNC_GAP_THRESHOLD : N := 3.
Definition MAX_RECOVERED_CONSECUTIVE_TIMEOUTS : N := 128.

(** ** Events, outputs and authenticated votes *)

Inductive ConsensusEvent : Type :=
| Message (msg : ConsensusMessage)
| BlockReady (block_hash : B256) (tx_root_hash : option B256)
| BlockImported (block_hash : B256)
| BlockImportedWithParent (block_hash parent_hash : B256).

Inductive AuthenticatedVoteProof : Type :=
| ProofVote (signer : N)
| ProofCommitVote (signer : N) (validator_changes_hash : B256).

#[export] Instance AuthenticatedVoteProof_eq_dec : EqDecision AuthenticatedVoteProof.
Proof. solve_decision. Defined.

Definition proof_signer (p : AuthenticatedVoteProof) : N :=
  match p with ProofVote s => s | ProofCommitVote s _ => s end.

Record AuthenticatedConsensusMessage : Type := mkAuthenticated {
  auth_message : ConsensusMessage;
  auth_proof : AuthenticatedVoteProof
}.

Inductive EngineOutput : Type :=
| BroadcastMessage (msg : ConsensusMessage)
| SendToValidator (target : N) (msg : ConsensusMessage)
| ExecuteBlock (block_hash : B256)
| BlockCommitted (view : ViewNumber) (block_hash : B256) (commit_qc : QuorumCertificate)
    (validator_changes : option (list ValidatorChange))
| CommittedBlockValidatorChangesRecovered (view : ViewNumber) (block_hash : B256)
    (validator_changes : list ValidatorChange)
| ViewChanged (new_view : ViewNumber)
| SyncRequired (local_view target_view : ViewNumber)
| EquivocationDetected (view : ViewNumber) (validator : N) (hash1 hash2 : B256)
| EpochTransition (new_epoch : N) (validator_count : N).

Record PendingProposal : Type := mkPendingProposal {
  pp_view : ViewNumber;
  pp_block_hash : B256;
  pp_justify_block : B256
}.

(** ** Environment *)

Inductive SendAnswer : Type := SendOk | SendFull | SendClosed.

(** The environment answers the [n]-th interaction by functions of [n]; the
    process may die at any of them ([w_crash]).  [w_outputs] is what the channel
    accepted and [w_signed] what the local key signed, oldest first. *)
Record World : Type := mkWorld {
  w_step : nat;
  w_crash : nat -> bool;
  w_clock : nat -> Instant;
  w_channel : nat -> SendAnswer;
  w_outputs : list EngineOutput;
  w_signed : list SignedFact
}.

Definition World_eta (w : World) : World :=
  mkWorld (w_step w) (w_crash w) (w_clock w) (w_channel w) (w_outputs w) (w_signed w).

#[export] Instance set_w_step : Setter w_step.
Proof. solve_setter World_eta. Defined.
#[export] Instance set_w_outputs : Setter w_outputs.
Proof. solve_setter World_eta. Defined.
#[export] Instance set_w_signed : Setter w_signed.
Proof. solve_setter World_eta. Defined.
#[global] Arguments set_w_step _ _ /.
#[global] Arguments set_w_outputs _ _ /.
#[global] Arguments set_w_signed _ _ /.

(** ** The engine *)

Section engine_record.
Context {L : Type}.

Record ConsensusEngine : Type := mkEngine {
  my_index : N;
  secret_key : BlsSecretKey;
  local_public_key : BlsPublicKey;
  epoch_manager : EpochManager;
  signing_profile : ConsensusSigningProfile;
  round_state : RoundState;
  pacemaker : Pacemaker;
  vote_collector : option VoteCollector;
  commit_collector : option VoteCollector;
  timeout_collector : option TimeoutCollector;
  future_timeout_collectors : gmap N TimeoutCollector;
  prepare_qc : option QuorumCertificate;
  previous_prepare_qc : option QuorumCertificate;
  pending_proposal : option PendingProposal;
  imported_blocks : gset N;
  imported_parents : gmap N B256;
  imported_block_fifo : list B256;
  equivocation_tracker : gmap N B256;
  commit_equivocation_tracker : gmap N B256;
  proposal_equivocation_tracker : gmap N (B256 * B256);
  future_msg_buffer : list (ViewNumber * ConsensusMessage);
  view_timing : ViewTiming;
  last_committed_timing : option ViewTiming;
  pending_tx_roots : BoundedFifoMap B256 B256;
  pending_changes_hashes : BoundedFifoMap B256 B256;
  vote_log : L;
  world : World
}.

Definition ConsensusEngine_eta (e : ConsensusEngine) : ConsensusEngine :=
  mkEngine
    (my_index e) (secret_key e) (local_public_key e) (epoch_manager e) (signing_profile e)
    (round_state e) (pacemaker e) (vote_collector e) (commit_collector e)
    (timeout_collector e) (future_timeout_collectors e) (prepare_qc e) (previous_prepare_qc e)
    (pending_proposal e) (imported_blocks e) (imported_parents e) (imported_block_fifo e)
    (equivocation_tracker e) (commit_equivocation_tracker e) (proposal_equivocation_tracker e)
    (future_msg_buffer e) (view_timing e) (last_committed_timing e) (pending_tx_roots e)
    (pending_changes_hashes e) (vote_log e) (world e).

#[global] Instance set_my_index : Setter my_index.
Proof. solve_setter ConsensusEngine_eta. Defined.
#[global] Instance set_secret_key : Setter secret_key.
Proof. solve_setter ConsensusEngine_eta. Defined.
#[global] Instance set_local_public_key : Setter local_public_key.
Proof. solve_setter ConsensusEngine_eta. Defined.
#[global] Instance set_epoch_manager : Setter epoch_manager.
Proof. solve_setter ConsensusEngine_eta. Defined.
#[global] Instance set_signing_profile : Setter signing_profile.
Proof. solve_setter ConsensusEngine_eta. Defined.
#[global] Instance set_round_state : Setter round_state.
Proof. solve_setter ConsensusEngine_eta. Defined.
#[global] Instance set_pacemaker : Setter pacemaker.
Proof. solve_setter ConsensusEngine_eta. Defined.
#[global] Instance set_vote_collector : Setter vote_collector.
Proof. solve_setter ConsensusEngine_eta. Defined.
#[global] Instance set_commit_collector : Setter commit_collector.
Proof. solve_setter ConsensusEngine_eta. Defined.
#[global] Instance set_timeout_collector : Setter timeout_collector.
Proof. solve_setter ConsensusEngine_eta. Defined.
#[global] Instance set_future_timeout_collectors : Setter future_timeout_collectors.
Proof. solve_setter ConsensusEngine_eta. Defined.
#[global] Instance set_prepare_qc : Setter prepare_qc.
Proof. solve_setter ConsensusEngine_eta. Defined.
#[global] Instance set_previous_prepare_qc : Setter previous_prepare_qc.
Proof. solve_setter ConsensusEngine_eta. Defined.
#[global] Instance set_pending_proposal : Setter pending_proposal.
Proof. solve_setter ConsensusEngine_eta. Defined.
#[global] Instance set_imported_blocks : Setter imported_blocks.
Proof. solve_setter ConsensusEngine_eta. Defined.
#[global] Instance set_imported_parents : Setter imported_parents.
Proof. solve_setter ConsensusEngine_eta. Defined.
#[global] Instance set_imported_block_fifo : Setter imported_block_fifo.
Proof. solve_setter ConsensusEngine_eta. Defined.
#[global] Instance set_equivocation_tracker : Setter equivocation_tracker.
Proof. solve_setter ConsensusEngine_eta. Defined.
#[global] Instance set_commit_equivocation_tracker : Setter commit_equivocation_tracker.
Proof. solve_setter ConsensusEngine_eta. Defined.
#[global] Instance set_proposal_equivocation_tracker : Setter proposal_equivocation_tracker.
Proof. solve_setter ConsensusEngine_eta. Defined.
#[global] Instance set_future_msg_buffer : Setter future_msg_buffer.
Proof. solve_setter ConsensusEngine_eta. Defined.
#[global] Instance set_view_timing : Setter view_timing.
Proof. solve_setter ConsensusEngine_eta. Defined.
#[global] Instance set_last_committed_timing : Setter last_committed_timing.
Proof. solve_setter ConsensusEngine_eta. Defined.
#[global] Instance set_pending_tx_roots : Setter pending_tx_roots.
Proof. solve_setter ConsensusEngine_eta. Defined.
#[global] Instance set_pending_changes_hashes : Setter pending_changes_hashes.
Proof. solve_setter ConsensusEngine_eta. Defined.
#[global] Instance set_vote_log : Setter vote_log.
Proof. solve_setter ConsensusEngine_eta. Defined.
#[global] Instance set_world : Setter world.
Proof. solve_setter ConsensusEngine_eta. Defined.
End engine_record.
Arguments ConsensusEngine L : clear implicits.

#[global] Arguments set_my_index {_} _ _ /.
#[global] Arguments set_secret_key {_} _ _ /.
#[global] Arguments set_local_public_key {_} _ _ /.
#[global] Arguments set_epoch_manager {_} _ _ /.
#[global] Arguments set_signing_profile {_} _ _ /.
#[global] Arguments set_round_state {_} _ _ /.
#[global] Arguments set_pacemaker {_} _ _ /.
#[global] Arguments set_vote_collector {_} _ _ /.
#[global] Arguments set_commit_collector {_} _ _ /.
#[global] Arguments set_timeout_collector {_} _ _ /.
#[global] Arguments set_future_timeout_collectors {_} _ _ /.
#[global] Arguments set_prepare_qc {_} _ _ /.
#[global] Arguments set_previous_prepare_qc {_} _ _ /.
#[global] Arguments set_pending_proposal {_} _ _ /.
#[global] Arguments set_imported_blocks {_} _ _ /.
#[global] Arguments set_imported_parents {_} _ _ /.
#[global] Arguments set_imported_block_fifo {_} _ _ /.
#[global] Arguments set_equivocation_tracker {_} _ _ /.
#[global] Arguments set_commit_equivocation_tracker {_} _ _ /.
#[global] Arguments set_proposal_equivocation_tracker {_} _ _ /.
#[global] Arguments set_future_msg_buffer {_} _ _ /.
#[global] Arguments set_view_timing {_} _ _ /.
#[global] Arguments set_last_committed_timing {_} _ _ /.
#[global] Arguments set_pending_tx_roots {_} _ _ /.
#[global] Arguments set_pending_changes_hashes {_} _ _ /.
#[global] Arguments set_vote_log {_} _ _ /.
#[global] Arguments set_world {_} _ _ /.

(** ** The monad of the handlers *)

Section engine.
Context {L : Type} `{VoteLogWriter L} {blst : Blst} {digest : Digest}.

Definition M (A : Type) : Type := ST (ConsensusEngine L) ConsensusError A.

(** A computation on one field. *)
Definition zoom {R T E A} (f : R -> T) `{!Setter f} (m : ST T E A) : ST R E A := fun r =>
  let '(t, o) := m (f r) in (r <| f := t |>, o).

(** [if let Some(ref mut x) = self.field { x.op(..)?; }]. *)
Definition on_some {R T E} (f : R -> option T) `{!Setter f} (m : ST T E unit) : ST R E unit :=
  fun r =>
    match f r with
    | None => (r, Ok tt)
    | Some t => let '(t', o) := m t in (r <| f := Some t' |>, o)
    end.

(** One interaction with the environment; the process may die here. *)
Definition tick : M nat := fun e =>
  let w := world e in
  if w_crash w (w_step w) then (e, Panic)
  else (e <| world := w <| w_step ::= S |> |>, Ok (w_step w)).

Definition now : M Instant := n ← tick; gets (fun e => w_clock (world e) n).

Definition try_send (output : EngineOutput) : M SendAnswer :=
  n ← tick;
  answer ← gets (fun e => w_channel (world e) n);
  match answer with
  | SendOk =>
      modify (fun e => e <| world ::= set w_outputs (fun l => l ++ [output]) |>) ;;
      mret SendOk
  | a => mret a
  end.

Fixpoint retry_send (attempts : nat) (output : EngineOutput) : M unit :=
  match attempts with
  | O => fail OutputChannelClosed
  | S attempts =>
      answer ← try_send output;
      match answer with
      | SendOk => mret tt
      | SendClosed => fail OutputChannelClosed
      | SendFull => retry_send attempts output
      end
  end.

Definition emit (output : EngineOutput) : M unit :=
  answer ← try_send output;
  match answer with
  | SendOk => mret tt
  | SendClosed => fail OutputChannelClosed
  | SendFull => retry_send MAX_OUTPUT_SEND_RETRIES output
  end.

(** [self.signing_profile.sign(&self.secret_key, &message)] with the message of
    [fact]; the trace remembers the fact. *)
Definition sign_fact (fact : SignedFact) : M BlsSignature :=
  modify (fun e => e <| world ::= set w_signed (fun l => l ++ [fact]) |>) ;;
  gets (fun e => profile_sign (signing_profile e) (secret_key e)
                   (fact_message (signing_profile e) fact)).

(** [expr?] of an expression that reads no mutable state. *)
Definition lift {A} (r : cresult A) : M A := try_ (fun _ => r).

(** ** Lookups *)

Definition engine_validator_set (e : ConsensusEngine L) : ValidatorSet :=
  current_set (epoch_manager e).

Definition engine_set_for_view (e : ConsensusEngine L) (view : ViewNumber) : ValidatorSet :=
  validator_set_for_view (epoch_manager e) view.

Definition engine_view (e : ConsensusEngine L) : ViewNumber := current_view (round_state e).

Definition local_validator_index_for_view (e : ConsensusEngine L) (view : ViewNumber)
  : option N :=
  index_of_public_key (engine_set_for_view e view) (local_public_key e).

Definition is_local_validator_active_for_view (e : ConsensusEngine L) (view : ViewNumber)
  : bool :=
  match local_validator_index_for_view e view with Some _ => true | None => false end.

(** [LeaderSelector::leader_for_view], which panics on an empty set. *)
Definition leader_of (view : ViewNumber) (set : ValidatorSet) : M N :=
  match leader_for_view view set with
  | Some leader => mret leader
  | None => panic
  end.

Definition leader_index_for_view (view : ViewNumber) : M N :=
  e ← get;
  leader_of view (engine_set_for_view e view).

Definition is_leader_for_view (view : ViewNumber) : M bool :=
  e ← get;
  match local_validator_index_for_view e view with
  | None => mret false
  | Some index =>
      leader ← leader_index_for_view view;
      mret (index =? leader)
  end.

Definition is_current_leader : M bool :=
  e ← get;
  is_leader_for_view (engine_view e).

Definition cached_changes_hash (e : ConsensusEngine L) (block_hash : B256) : B256 :=
  default B256_ZERO (fifo_get (pending_changes_hashes e) block_hash).

Definition resolve_qc_validator_set (e : ConsensusEngine L) (qc : QuorumCertificate)
  : cresult ValidatorSet :=
  match known_validator_set_for_view (epoch_manager e) (qc_view qc) with
  | None => Err (InvalidQC (qc_view qc) "validator set unavailable for certificate view")
  | Some authorized =>
      if bool_decide (N.to_nat (len authorized) ≠ length (qc_signers qc))
      then Err (InvalidQC (qc_view qc)
             ("signer bitmap length " +:+ pretty (length (qc_signers qc))
                +:+ " does not match authorized validator set length "
                +:+ pretty (len authorized)))
      else Ok authorized
  end.

Definition verify_qc_any_domain_or_known (e : ConsensusEngine L) (qc : QuorumCertificate)
  : cresult unit :=
  if bool_decide (qc = locked_qc (round_state e))
     || bool_decide (qc = last_committed_qc (round_state e))
  then Ok tt
  else
    set ← resolve_qc_validator_set e qc;
    verify_qc_any_domain_with_profile qc set (cached_changes_hash e (qc_block_hash qc))
      (signing_profile e).

Definition verify_embedded_qc (e : ConsensusEngine L) (qc : QuorumCertificate) : cresult unit :=
  if qc_view qc =? 0 then
    if qc_view (locked_qc (round_state e)) =? 0 then Ok tt
    else Err (InvalidQC 0 "genesis QC rejected: local locked_qc has already advanced")
  else verify_qc_any_domain_or_known e qc.

Definition sync_local_validator_index : M (option N) :=
  e ← get;
  let new_index := index_of_public_key (engine_validator_set e) (local_public_key e) in
  match new_index with
  | Some idx =>
      when (negb (idx =? my_index e)) (modify (fun e => e <| my_index := idx |>)) ;;
      mret new_index
  | None => mret new_index
  end.

(** ** Constructors and configuration *)

Definition with_epoch_manager_and_vote_log (world : World) (my_index : N)
  (secret_key : BlsSecretKey) (epoch_manager : EpochManager)
  (base_timeout_ms max_timeout_ms : N) (vote_log : L) : ConsensusEngine L :=
  let start := w_clock world (w_step world) in
  mkEngine my_index secret_key (public_key secret_key) epoch_manager Native RoundState_new
    (Pacemaker_new start base_timeout_ms max_timeout_ms) None None None ∅ None None None ∅ ∅ []
    ∅ ∅ ∅ [] (ViewTiming_new start) None (fifo_new 64) (fifo_new 64) vote_log world.

Definition with_recovered_state_and_vote_log (world : World) (my_index : N)
  (secret_key : BlsSecretKey) (epoch_manager : EpochManager)
  (base_timeout_ms max_timeout_ms : N) (recovered_view : ViewNumber)
  (locked_qc last_committed_qc : QuorumCertificate) (consecutive_timeouts : N)
  (last_voted_view last_commit_voted_view : ViewNumber) (vote_log : L) : ConsensusEngine L :=
  let safe_consecutive_timeouts :=
    consecutive_timeouts `min` MAX_RECOVERED_CONSECUTIVE_TIMEOUTS in
  let start := w_clock world (w_step world) in
  mkEngine my_index secret_key (public_key secret_key) epoch_manager Native
    (from_snapshot recovered_view locked_qc last_committed_qc safe_consecutive_timeouts
       last_voted_view last_commit_voted_view)
    (Pacemaker_new start base_timeout_ms max_timeout_ms) None None None ∅ None None None ∅ ∅ []
    ∅ ∅ ∅ [] (ViewTiming_new start) None (fifo_new 64) (fifo_new 64) vote_log world.

Definition enable_h2_v4_signing (identity : H2V4ChainIdentity) (e : ConsensusEngine L)
  : ConsensusEngine L := e <| signing_profile := H2V4 identity |>.

Definition enable_gov5_legacy_signing (e : ConsensusEngine L) : ConsensusEngine L :=
  e <| signing_profile := Gov5Legacy |>.

(** ** Authentication without processing *)

(** The single-validator signature of a message: signer, message, signature. *)
Definition signature_claim (e : ConsensusEngine L) (msg : ConsensusMessage)
  : option (N * bytes * BlsSignature) :=
  let profile := signing_profile e in
  match msg with
  | MProposal p =>
      Some (p_proposer p,
            proposal_message profile (p_view p) (p_block_hash p) (p_validator_changes p),
            p_signature p)
  | MVote v => Some (v_voter v, vote_message profile (v_view v) (v_block_hash v), v_signature v)
  | MCommitVote cv =>
      Some (cv_voter cv,
            commit_message profile (cv_view cv) (cv_block_hash cv)
              (cached_changes_hash e (cv_block_hash cv)),
            cv_signature cv)
  | MTimeout t => Some (t_sender t, timeout_message profile (t_view t), t_signature t)
  | MNewView nv => Some (nv_leader nv, new_view_message profile (nv_view nv), nv_signature nv)
  | MPrepareQC _ | MDecide _ => None
  end.

Definition authenticated_signer (e : ConsensusEngine L) (msg : ConsensusMessage) : option N :=
  match signature_claim e msg with
  | None => None
  | Some (signer, message, signature) =>
      match get_public_key (engine_set_for_view e (message_view msg)) signer with
      | Ok pk => if verify_single (signing_profile e) pk message signature
                 then Some signer else None
      | _ => None
      end
  end.

Record VoteCandidate : Type := mkCandidate {
  cand_position : nat;
  cand_proof : AuthenticatedVoteProof;
  cand_message : bytes;
  cand_signature : BlsSignature;
  cand_public_key : BlsPublicKey
}.

Definition vote_candidate (e : ConsensusEngine L) (position : nat) (msg : ConsensusMessage)
  : option VoteCandidate :=
  match msg with
  | MVote v =>
      match get_public_key (engine_set_for_view e (v_view v)) (v_voter v) with
      | Ok pk =>
          Some (mkCandidate position (ProofVote (v_voter v))
                  (vote_message (signing_profile e) (v_view v) (v_block_hash v))
                  (v_signature v) pk)
      | _ => None
      end
  | MCommitVote cv =>
      match get_public_key (engine_set_for_view e (cv_view cv)) (cv_voter cv) with
      | Ok pk =>
          let changes_hash := cached_changes_hash e (cv_block_hash cv) in
          Some (mkCandidate position (ProofCommitVote (cv_voter cv) changes_hash)
                  (commit_message (signing_profile e) (cv_view cv) (cv_block_hash cv) changes_hash)
                  (cv_signature cv) pk)
      | _ => None
      end
  | _ => None
  end.

Fixpoint vote_candidates (e : ConsensusEngine L) (position : nat)
  (messages : list ConsensusMessage) : list VoteCandidate :=
  match messages with
  | [] => []
  | msg :: rest =>
      match vote_candidate e position msg with
      | Some c => c :: vote_candidates e (S position) rest
      | None => vote_candidates e (S position) rest
      end
  end.

(** The loop that stores the proof of every candidate the verifier accepted at
    the position of its message. *)
Fixpoint mark_verified (bad : list nat) (position : nat) (candidates : list VoteCandidate)
  (proofs : list (option AuthenticatedVoteProof)) : list (option AuthenticatedVoteProof) :=
  match candidates with
  | [] => proofs
  | c :: rest =>
      let proofs := if bool_decide (position ∈ bad) then proofs
                    else <[cand_position c := Some (cand_proof c)]> proofs in
      mark_verified bad (S position) rest proofs
  end.

Definition authenticate_vote_batch (e : ConsensusEngine L) (messages : list ConsensusMessage)
  : list (option AuthenticatedConsensusMessage) :=
  let candidates := vote_candidates e 0 messages in
  let bad :=
    match profile_batch_verify (signing_profile e) (cand_message <$> candidates)
            (cand_signature <$> candidates) (cand_public_key <$> candidates) with
    | Err bad => bad
    | _ => []
    end in
  let proofs := mark_verified bad 0 candidates (replicate (length messages) None) in
  zip_with (fun message proof => mkAuthenticated message <$> proof) messages proofs.
End engine.
