(* ===== verification/Authentication.v ===== *)
(** * Batch authentication of votes

    [authenticate_vote_batch] checks the signatures of many votes at once and
    localizes the bad ones.  Up to the batch verifier's size limit it returns for
    every message what [authenticated_signer], which checks one message, says of
    it, for any mixture of messages and of good and bad signatures; above the
    limit it authenticates nothing. *)

From S2P Require Import Prelude Effects Crypto Messages Signing ValidatorSet Epoch EpochTheory.
From S2P Require Import Quorum QuorumTheory Fifo Pacemaker Round VoteLog Engine.

#[local] Opaque MAX_BATCH_SIZE.

Section batch.
Context {blst : Blst} {laws : BlstLaws blst}.

(** With a batch of admissible size the localizing verifier reports exactly the
    tuples that fail the single check. *)
Lemma fallback_exact suite ms sigs pks :
  length ms = length sigs -> length sigs = length pks -> (length ms <= MAX_BATCH_SIZE)%nat ->
  Forall (suite_sound suite) (zip (zip ms sigs) pks) ->
  batch_verify_with_fallback_suite ms sigs pks suite =
  match bad_positions suite 0 (zip (zip ms sigs) pks) with [] => Ok tt | bad => Err bad end.
Proof.
  intros L1 L2 Hlen Hs. unfold batch_verify_with_fallback_suite.
  rewrite !bool_decide_false by (intros Hn; apply Hn; done). cbn [orb].
  destruct (MAX_BATCH_SIZE <? length ms)%nat eqn:Em; [bool_simpl; lia|].
  case_bool_decide as Hnil; [by subst ms|].
  destruct (is_ok _) eqn:Eok; [|done].
  apply batch_verify_with_suite_sound in Eok as (_ & _ & Hall); [|done].
  destruct (bad_positions suite 0 _) as [|p bad] eqn:Eb; [done|]. exfalso.
  assert (Hp : p ∈ bad_positions suite 0 (zip (zip ms sigs) pks)) by (rewrite Eb; left).
  apply bad_positions_spec in Hp as (k & x & _ & Hk & Hx).
  by rewrite (Forall_lookup_1 _ _ _ _ Hall Hk) in Hx.
Qed.
End batch.

Section authenticate.
Context {L : Type} {blst : Blst} {laws : BlstLaws blst} {digest : Digest}.
Abbreviation engine := (ConsensusEngine L).

(** The proof that a vote of [signer] is carried with. *)
Definition vote_proof (e : engine) (msg : ConsensusMessage) (signer : N)
  : option AuthenticatedVoteProof :=
  match msg with
  | MVote _ => Some (ProofVote signer)
  | MCommitVote cv => Some (ProofCommitVote signer (cached_changes_hash e (cv_block_hash cv)))
  | _ => None
  end.

(** A vote with its proof, when [authenticated_signer] accepts it. *)
Definition authenticate_vote (e : engine) (msg : ConsensusMessage)
  : option AuthenticatedConsensusMessage :=
  signer ← authenticated_signer e msg;
  mkAuthenticated msg <$> vote_proof e msg signer.

Lemma authenticate_vote_candidate (e : engine) msg :
  authenticate_vote e msg =
  match vote_candidate e 0 msg with
  | Some c =>
      if verify_single (signing_profile e) (cand_public_key c) (cand_message c) (cand_signature c)
      then Some (mkAuthenticated msg (cand_proof c))
      else None
  | None => None
  end.
Proof.
  unfold authenticate_vote, authenticated_signer, vote_candidate.
  destruct msg; cbn [signature_claim message_view mbind option_bind vote_proof fmap option_fmap];
    try done; destruct (get_public_key _ _); try done; cbn [cand_public_key cand_message cand_signature];
    by destruct (verify_single _ _ _ _).
Qed.

Definition candidate_good (e : engine) (c : VoteCandidate) : bool :=
  verify_single (signing_profile e) (cand_public_key c) (cand_message c) (cand_signature c).

Lemma vote_candidate_position (e : engine) p msg :
  vote_candidate e p msg =
  (fun c => mkCandidate p (cand_proof c) (cand_message c) (cand_signature c) (cand_public_key c))
    <$> vote_candidate e 0 msg.
Proof. unfold vote_candidate. repeat case_match; done. Qed.

Definition proof_of (e : engine) (msg : ConsensusMessage) : option AuthenticatedVoteProof :=
  auth_proof <$> authenticate_vote e msg.

Lemma mark_verified_spec (e : engine) bad messages p k proofs :
  length proofs = p ->
  (forall i c, vote_candidates e p messages !! i = Some c ->
     ((k + i)%nat ∈ bad <-> candidate_good e c = false)) ->
  mark_verified bad k (vote_candidates e p messages)
    (proofs ++ replicate (length messages) None) = proofs ++ (proof_of e <$> messages).
Proof.
  revert p k proofs. induction messages as [|msg messages IH]; intros p k proofs Hp Hbad;
    cbn [vote_candidates mark_verified length replicate fmap list_fmap]; [done|].
  assert (Hsnoc : forall (x : option AuthenticatedVoteProof) l, proofs ++ x :: l = (proofs ++ [x]) ++ l)
    by (intros; by rewrite <- app_assoc).
  assert (Hlen : forall x : option AuthenticatedVoteProof, length (proofs ++ [x]) = S p)
    by (intros; rewrite length_app; cbn; lia).
  cbn [vote_candidates] in Hbad. rewrite (vote_candidate_position e p msg) in Hbad |- *.
  unfold proof_of at 1. rewrite authenticate_vote_candidate.
  destruct (vote_candidate e 0 msg) as [c|]; cbn [fmap option_fmap option_map mark_verified] in *.
  - pose proof (Hbad 0%nat _ eq_refl) as Hc. rewrite Nat.add_0_r in Hc.
    unfold candidate_good in Hc. cbn in Hc.
    assert (Hrest : forall i c, vote_candidates e (S p) messages !! i = Some c ->
      ((S k + i)%nat ∈ bad <-> candidate_good e c = false)).
    { intros i c' Hi. replace (S k + i)%nat with (k + S i)%nat by lia. by apply Hbad. }
    case_bool_decide as Hin.
    + apply Hc in Hin. rewrite Hin. cbn. rewrite (Hsnoc _ (replicate _ _)), (Hsnoc _ (proof_of e <$> messages)). by apply IH.
    + destruct (verify_single _ _ _ _); [|by destruct Hin; apply Hc]. cbn.
      rewrite insert_app_r_alt by lia. rewrite Hp, Nat.sub_diag. cbn [insert list_insert].
      rewrite (Hsnoc _ (replicate _ _)), (Hsnoc _ (proof_of e <$> messages)). by apply IH.
  - cbn. rewrite (Hsnoc _ (replicate _ _)), (Hsnoc _ (proof_of e <$> messages)). by apply IH.
Qed.

Definition candidate_item (c : VoteCandidate) : bytes * BlsSignature * BlsPublicKey :=
  (cand_message c, cand_signature c, cand_public_key c).

Lemma candidates_zip (cs : list VoteCandidate) :
  zip (zip (cand_message <$> cs) (cand_signature <$> cs)) (cand_public_key <$> cs) =
  candidate_item <$> cs.
Proof. induction cs as [|c cs IH]; cbn; [done|]. by rewrite IH. Qed.

Lemma vote_candidate_key (e : engine) p msg c :
  (forall v, set_wf (engine_set_for_view e v)) -> vote_candidate e p msg = Some c ->
  pk_validate (cand_public_key c) = BLST_SUCCESS.
Proof.
  intros Hwf. assert (Hk : forall v i pk, get_public_key (engine_set_for_view e v) i = Ok pk ->
    pk_validate pk = BLST_SUCCESS).
  { intros v i pk (x & Hx & <-)%get_public_key_ok.
    exact (Forall_lookup_1 _ _ _ _ (wf_keys _ (Hwf v)) Hx). }
  unfold vote_candidate. repeat case_match; intros E; simplify_eq; cbn; by eapply Hk.
Qed.

Lemma vote_candidates_keys (e : engine) messages p :
  (forall v, set_wf (engine_set_for_view e v)) ->
  Forall (fun c => pk_validate (cand_public_key c) = BLST_SUCCESS) (vote_candidates e p messages).
Proof.
  intros Hwf. revert p. induction messages as [|msg messages IH]; intros p; cbn; [constructor|].
  case_match; [|done]. constructor; [by eapply vote_candidate_key|done].
Qed.

Lemma item_ok_single profile c :
  pk_validate (cand_public_key c) = BLST_SUCCESS ->
  item_ok (suite_of profile) (candidate_item c) =
  verify_single profile (cand_public_key c) (cand_message c) (cand_signature c).
Proof.
  intros Hv. apply eq_bool_prop_intro. rewrite !Is_true_true. split.
  - intros Hi%item_ok_verifies. by apply verify_single_spec.
  - intros Hs%verify_single_spec. apply suite_of_sound; [done|]. by rewrite suite_dst_of.
Qed.

Lemma zip_authenticate (e : engine) (messages : list ConsensusMessage) :
  zip_with (fun message (proof : option _) => mkAuthenticated message <$> proof) messages
    (proof_of e <$> messages) = authenticate_vote e <$> messages.
Proof.
  induction messages as [|msg messages IH]; cbn; [done|]. f_equal; [|exact IH].
  unfold proof_of. rewrite authenticate_vote_candidate. repeat case_match; done.
Qed.

(** Every candidate of a batch above the limit is reported bad. *)
Lemma mark_all_bad bad k candidates proofs :
  (forall i, (i < length candidates)%nat -> (k + i)%nat ∈ bad) ->
  mark_verified bad k candidates proofs = proofs.
Proof.
  revert k. induction candidates as [|c cs IH]; intros k Hbad; cbn [mark_verified]; [done|].
  rewrite bool_decide_eq_true_2.
  - apply IH. intros i Hi. replace (S k + i)%nat with (k + S i)%nat by lia. apply Hbad. cbn. lia.
  - replace k with (k + 0)%nat by lia. apply Hbad. cbn. lia.
Qed.

Lemma authenticate_too_many (e : engine) messages :
  (MAX_BATCH_SIZE < length (vote_candidates e 0 messages))%nat ->
  authenticate_vote_batch e messages = (fun _ => None) <$> messages.
Proof.
  intros Hlen. unfold authenticate_vote_batch. cbn zeta.
  rewrite profile_batch_verify_suite. unfold batch_verify_with_fallback_suite.
  rewrite !length_fmap, !bool_decide_false by (intros Hn; apply Hn; done). cbn [orb].
  rewrite (proj2 (Nat.ltb_lt _ _) Hlen), mark_all_bad.
  - clear Hlen. induction messages as [|msg messages IH]; cbn; [done|]. by rewrite <- IH.
  - intros i Hi. apply elem_of_seq. lia.
Qed.

Lemma authenticate_within_limit (e : engine) messages :
  (forall v, set_wf (engine_set_for_view e v)) ->
  (length (vote_candidates e 0 messages) <= MAX_BATCH_SIZE)%nat ->
  authenticate_vote_batch e messages = authenticate_vote e <$> messages.
Proof.
  intros Hwf Hlen. unfold authenticate_vote_batch. cbn zeta.
  set (cs := vote_candidates e 0 messages) in *.
  pose proof (vote_candidates_keys e messages 0 Hwf) as Hkeys. fold cs in Hkeys.
  rewrite profile_batch_verify_suite, fallback_exact, candidates_zip;
    [|by rewrite !length_fmap..|by rewrite length_fmap|].
  2:{ rewrite candidates_zip. apply Forall_fmap. eapply Forall_impl; [exact Hkeys|].
      intros c Hc. by apply suite_of_sound. }
  set (bad := bad_positions _ _ _).
  replace (match _ with Err bad => bad | _ => [] end) with bad by (by destruct bad).
  pose proof (mark_verified_spec e bad messages 0 0 [] eq_refl) as Hmark.
  rewrite !app_nil_l in Hmark. unfold cs. rewrite Hmark; [apply zip_authenticate|].
  intros i c Hi. fold cs in Hi. cbn [Nat.add]. unfold bad. rewrite bad_positions_spec.
  pose proof (Forall_lookup_1 _ _ _ _ Hkeys Hi) as Hv. unfold candidate_good.
  rewrite <- (item_ok_single _ _ Hv). cbn [Nat.add]. setoid_rewrite list_lookup_fmap. split.
  - intros (k & x & -> & Hx & Hok). rewrite Hi in Hx. by simplify_eq/=.
  - intros Hok. exists i, (candidate_item c). by rewrite Hi.
Qed.

(** C17: authenticating a batch of messages is authenticating each alone, up to
    a limit.  When at most [MAX_BATCH_SIZE] (10000) of the messages are votes of
    known validators, every position of the result holds the vote with its proof
    exactly when [authenticated_signer] accepts that message, and nothing for any
    other message; when there are more, every position holds nothing, also those
    of good votes.  The keys of the validator sets have passed validation
    ([set_wf]), as [ValidatorSet::try_new] makes sure. *)
Theorem authenticate_vote_batch_exact (e : engine) messages :
  (forall v, set_wf (engine_set_for_view e v)) ->
  authenticate_vote_batch e messages =
  if decide (length (vote_candidates e 0 messages) <= MAX_BATCH_SIZE)%nat
  then (fun msg =>
          signer ← authenticated_signer e msg;
          mkAuthenticated msg <$> vote_proof e msg signer) <$> messages
  else (fun _ => None) <$> messages.
Proof.
  intros Hwf. case_decide; [by apply authenticate_within_limit|apply authenticate_too_many; lia].
Qed.
End authenticate.
