(* ===== verification/Handlers.v ===== *)
(** * The handlers of the consensus engine
    ([crates/n42-consensus/src/protocol/proposal.rs], [voting.rs], [timeout.rs],
    [decision.rs] and the dispatch of [state_machine.rs])

    A view change replays buffered messages, which may change the view again:
    the handlers are mutually recursive through [dispatch_message].  They are
    written in a section over [dispatch_rec], the function the replay loop
    calls, and the knot is tied by recursion on fuel in [dispatch_message].
    [Termination] shows that one more than the number of buffered messages is
    always enough fuel. *)

From S2P Require Import Prelude Effects Crypto Messages Signing ValidatorSet Epoch Quorum Fifo.
From S2P Require Import Pacemaker Round VoteLog Engine.

(** ** Data structures the handlers update in place *)

Definition check_equivocation (tracker : gmap N B256) (voter : N) (block_hash : B256)
  : gmap N B256 * option (B256 * B256) :=
  match tracker !! voter with
  | Some prev =>
      if negb (prev =? block_hash) then (tracker, Some (prev, block_hash)) else (tracker, None)
  | None => (<[voter := block_hash]> tracker, None)
  end.

(** Index of the first entry with the smallest view ([min_by_key]). *)
Fixpoint min_view_index (l : list (ViewNumber * ConsensusMessage)) : option (nat * ViewNumber) :=
  match l with
  | [] => None
  | (v, _) :: rest =>
      match min_view_index rest with
      | None => Some (0%nat, v)
      | Some (i, w) => if v <=? w then Some (0%nat, v) else Some (S i, w)
      end
  end.

(** [Vec::swap_remove]. *)
Definition swap_remove {A} (i : nat) (l : list A) : list A :=
  match last l with
  | None => l
  | Some x => take (length l - 1) (<[i := x]> l)
  end.

Definition evict_lowest_view (buffer : list (ViewNumber * ConsensusMessage))
  : list (ViewNumber * ConsensusMessage) :=
  match min_view_index buffer with
  | Some (i, _) => swap_remove i buffer
  | None => buffer
  end.

(** The loop of [evict_oldest_imported_block] over [n] front entries: the live
    hash goes to the back, the first other one leaves. *)
Fixpoint evict_imported (n : nat) (live : option B256) (fifo : list B256)
  : list B256 * option B256 :=
  match n with
  | O => (fifo, None)
  | S n =>
      match fifo with
      | [] => (fifo, None)
      | oldest :: rest =>
          if bool_decide (Some oldest = live) then evict_imported n live (rest ++ [oldest])
          else (rest, Some oldest)
      end
  end.

Definition extract_qc_from_message (msg : ConsensusMessage) : option QuorumCertificate :=
  match msg with
  | MProposal p => Some (p_justify_qc p)
  | MTimeout t => Some (t_high_qc t)
  | MDecide d => Some (d_commit_qc d)
  | MPrepareQC pqc => Some (pqc_qc pqc)
  | MNewView nv => Some (tc_high_qc (nv_timeout_cert nv))
  | MVote _ | MCommitVote _ => None
  end.

(** [changes.as_ref().is_some_and(|c| !c.is_empty())]. *)
Definition has_changes (changes : option (list ValidatorChange)) : bool :=
  match changes with Some (_ :: _) => true | _ => false end.

Section handlers.
Context {L : Type} `{VoteLogWriter L} {blst : Blst} {digest : Digest}.
Abbreviation M := (@M L).
Abbreviation ConsensusEngine := (ConsensusEngine L).

(** ** Proposals, follower side ([proposal.rs]) *)

Definition extends_justify (e : ConsensusEngine) (block_hash : B256) : bool :=
  match pending_proposal e with
  | None => true
  | Some pending =>
      if pp_justify_block pending =? B256_ZERO then true
      else match imported_parents e !! block_hash with
      | None => true
      | Some parent =>
          if parent =? B256_ZERO then true
          else parent =? pp_justify_block pending
      end
  end.

Definition evict_oldest_imported_block : M unit :=
  modify (fun e =>
    let live := pp_block_hash <$> pending_proposal e in
    let '(fifo, evicted) :=
      evict_imported (length (imported_block_fifo e)) live (imported_block_fifo e) in
    let e := e <| imported_block_fifo := fifo |> in
    match evicted with
    | None => e
    | Some oldest =>
        e <| imported_blocks ::= (fun s => s ∖ {[oldest]}) |>
          <| imported_parents ::= delete oldest |>
    end).

(** New import evidence enters the set and the queue that bounds it. *)
Definition record_import (block_hash : B256) : M unit :=
  modify (fun e => e <| imported_blocks ::= (fun s => {[block_hash]} ∪ s) |>) ;;
  e ← get;
  when (MAX_IMPORTED_BLOCKS <=? length (imported_block_fifo e))%nat
    evict_oldest_imported_block ;;
  modify (fun e => e <| imported_block_fifo ::= (fun l => l ++ [block_hash]) |>).

Definition send_vote (view : ViewNumber) (block_hash : B256) : M unit :=
  e ← get;
  if negb (is_local_validator_active_for_view e view) then mret tt
  else if negb (may_vote_in (round_state e) view) then mret tt
  else
    modify (fun e => e <| round_state ::= rs_record_vote view |>) ;;
    zoom vote_log (record_vote view) ;;
    leader ← leader_index_for_view view;
    vote_sig ← sign_fact (SVote view block_hash);
    e ← get;
    let vote := mkVote view block_hash (my_index e) vote_sig in
    t ← now;
    modify (fun e => e <| view_timing ::= set vote_sent (fun _ => Some t) |>) ;;
    emit (SendToValidator leader (MVote vote)).

Definition on_block_imported (block_hash : B256) (parent_hash : option B256) : M unit :=
  e ← get;
  when (bool_decide (block_hash ∉ imported_blocks e)) (record_import block_hash) ;;
  e ← get;
  (if bool_decide (block_hash ∈ imported_blocks e) then
     match parent_hash with
     | Some parent => modify (fun e => e <| imported_parents ::= <[block_hash := parent]> |>)
     | None => mret tt
     end
   else modify (fun e => e <| imported_parents ::= delete block_hash |>)) ;;
  e ← get;
  match pending_proposal e with
  | Some pending =>
      if is_gov5 (signing_profile e)
         && (pp_view pending =? engine_view e)
         && (pp_block_hash pending =? block_hash)
         && may_vote_in (round_state e) (pp_view pending)
      then if negb (extends_justify e block_hash) then mret tt
           else send_vote (pp_view pending) block_hash
      else mret tt
  | None => mret tt
  end.

Definition recover_late_committed_proposal (proposal : Proposal) : M bool :=
  e ← get;
  match p_validator_changes proposal with
  | None | Some [] => mret false
  | Some changes =>
      let last_committed := last_committed_qc (round_state e) in
      let expected_hash := cached_changes_hash e (p_block_hash proposal) in
      let epochs := epoch_manager e in
      if engine_view e <=? p_view proposal then mret false
      else if negb (qc_view last_committed =? p_view proposal)
              || negb (qc_block_hash last_committed =? p_block_hash proposal) then mret false
      else if expected_hash =? B256_ZERO then mret false
      else if negb (hash_changes changes =? expected_hash) then mret false
      else if negb (current_epoch epochs =? epoch_for_view epochs (p_view proposal))
              || has_staged_next epochs then mret false
      else
        let view_set := engine_set_for_view e (p_view proposal) in
        expected_leader ← leader_of (p_view proposal) view_set;
        if negb (p_proposer proposal =? expected_leader) then mret false
        else match get_public_key view_set (p_proposer proposal) with
        | Ok pk =>
            let prop_msg := proposal_message (signing_profile e) (p_view proposal)
                              (p_block_hash proposal) (p_validator_changes proposal) in
            if negb (verify_single (signing_profile e) pk prop_msg (p_signature proposal))
            then mret false
            else
              modify (fun e => e <| epoch_manager ::= replace_pending_from_proposal changes |>) ;;
              zoom epoch_manager commit_pending_changes ;;
              emit (CommittedBlockValidatorChangesRecovered (p_view proposal)
                      (p_block_hash proposal) changes) ;;
              mret true
        | _ => mret false
        end
  end.

Definition process_prepare_qc (pqc : PrepareQC) : M unit :=
  e ← get;
  let view := engine_view e in
  if negb (pqc_view pqc =? view) then fail (ViewMismatch view (pqc_view pqc))
  else if negb (qc_view (pqc_qc pqc) =? pqc_view pqc)
  then fail (ViewMismatch (pqc_view pqc) (qc_view (pqc_qc pqc)))
  else if negb (qc_block_hash (pqc_qc pqc) =? pqc_block_hash pqc)
  then fail (BlockHashMismatch (pqc_block_hash pqc) (qc_block_hash (pqc_qc pqc)))
  else
    qc_set ← lift (resolve_qc_validator_set e (pqc_qc pqc));
    _ ← lift (verify_qc_with_profile (pqc_qc pqc) qc_set (signing_profile e));
    modify (fun e => e <| round_state ::= update_locked_qc (pqc_qc pqc) |>) ;;
    modify (fun e => e <| round_state ::= enter_pre_commit |>) ;;
    e ← get;
    if negb (is_local_validator_active_for_view e view) then mret tt
    else if negb (may_commit_vote_in (round_state e) view) then mret tt
    else
      zoom vote_log (record_lock (locked_qc (round_state e))) ;;
      modify (fun e => e <| round_state ::= rs_record_commit_vote view |>) ;;
      zoom vote_log (record_commit_vote view) ;;
      e ← get;
      let changes_hash := cached_changes_hash e (pqc_block_hash pqc) in
      commit_sig ← sign_fact (SCommit view (pqc_block_hash pqc) changes_hash);
      leader ← leader_index_for_view view;
      let commit_vote := mkCommitVote view (pqc_block_hash pqc) (my_index e) commit_sig in
      t ← now;
      modify (fun e => e <| view_timing ::= set commit_vote_sent (fun _ => Some t) |>) ;;
      emit (SendToValidator leader (MCommitVote commit_vote)).

(** [entry(key).or_insert(value)]. *)
Definition or_insert {A} (key : N) (value : A) (m : gmap N A) : gmap N A :=
  match m !! key with Some _ => m | None => <[key := value]> m end.

(** The evidence of a second, different signed proposal of the same proposer. *)
Definition proposal_conflict (e : ConsensusEngine) (proposal : Proposal) (commitment : B256)
  : option (B256 * B256) :=
  match proposal_equivocation_tracker e !! p_proposer proposal with
  | Some (previous_commitment, previous_block_hash) =>
      if previous_commitment =? commitment then None
      else if negb (previous_block_hash =? p_block_hash proposal)
      then Some (previous_block_hash, p_block_hash proposal)
      else Some (previous_commitment, commitment)
  | None => None
  end.

(** The piggybacked PrepareQC of the chained mode; an invalid one is ignored. *)
Definition accept_piggybacked (proposal : Proposal) : M unit :=
  match p_prepare_qc proposal with
  | None => mret tt
  | Some qc =>
      verification ← catch (try_ (fun e =>
        set ← resolve_qc_validator_set e qc;
        verify_qc_with_profile qc set (signing_profile e)));
      match verification with
      | inr _ => modify (fun e => e <| round_state ::= update_locked_qc qc |>)
      | inl _ => mret tt
      end
  end.

(** The validator changes of the proposal; returns their hash. *)
Definition accept_changes (proposal : Proposal) : M B256 :=
  match p_validator_changes proposal with
  | Some ((_ :: _) as changes) =>
      if (MAX_CHANGES_PER_PROPOSAL <? length changes)%nat
      then fail (TooManyValidatorChanges (length changes) MAX_CHANGES_PER_PROPOSAL)
      else
        modify (fun e => e <| epoch_manager ::= replace_pending_from_proposal changes |>) ;;
        mret (hash_changes changes)
  | _ => mret B256_ZERO
  end.

(** Gov5's import-gated vote. *)
Definition gated_vote (view : ViewNumber) (proposal : Proposal) : M unit :=
  modify (fun e => e <| pending_proposal := Some (mkPendingProposal view (p_block_hash proposal)
                                          (qc_block_hash (p_justify_qc proposal))) |>) ;;
  e ← get;
  if bool_decide (p_block_hash proposal ∈ imported_blocks e) then
    if negb (extends_justify e (p_block_hash proposal)) then mret tt
    else send_vote view (p_block_hash proposal)
  else mret tt.

(** [process_proposal] from the check of the justify QC on. *)
Definition accept_proposal (view : ViewNumber) (proposal : Proposal) : M unit :=
  let justify := p_justify_qc proposal in
  when (0 <? qc_view justify) (try_ (fun e => verify_qc_any_domain_or_known e justify)) ;;
  e ← get;
  if negb (is_safe_to_vote (round_state e) justify)
  then fail (SafetyViolation (qc_view justify) (qc_view (locked_qc (round_state e))))
  else
    modify (fun e => e <| round_state ::= update_locked_qc justify |>) ;;
    accept_piggybacked proposal ;;
    changes_hash ← accept_changes proposal;
    modify (fun e => e <| pending_changes_hashes ::=
                            fifo_insert (p_block_hash proposal) changes_hash |>) ;;
    match p_tx_root_hash proposal with
    | Some tx_root =>
        modify (fun e => e <| pending_tx_roots ::= fifo_insert (p_block_hash proposal) tx_root |>)
    | None => mret tt
    end ;;
    modify (fun e => e <| round_state ::= enter_voting |>) ;;
    t ← now;
    modify (fun e => e <| view_timing ::= set proposal_received (fun _ => Some t) |>) ;;
    emit (ExecuteBlock (p_block_hash proposal)) ;;
    e ← get;
    if is_gov5 (signing_profile e) then gated_vote view proposal
    else send_vote view (p_block_hash proposal).

Definition process_proposal (proposal : Proposal) : M unit :=
  e ← get;
  let view := engine_view e in
  let profile := signing_profile e in
  if negb (p_view proposal =? view) then fail (ViewMismatch view (p_view proposal))
  else
    let view_set := engine_set_for_view e view in
    expected_leader ← leader_of view view_set;
    if negb (p_proposer proposal =? expected_leader)
    then fail (InvalidProposer view expected_leader (p_proposer proposal))
    else
      pk ← lift (get_public_key view_set (p_proposer proposal));
      if is_gov5 profile && has_changes (p_validator_changes proposal)
      then fail H2V4ValidatorChangesUnsupported
      else
        let prop_msg := proposal_message profile view (p_block_hash proposal)
                          (p_validator_changes proposal) in
        if negb (verify_single profile pk prop_msg (p_signature proposal))
        then fail (InvalidSignature view (p_proposer proposal))
        else
          let proposal_commitment := blake3 prop_msg in
          match proposal_conflict e proposal proposal_commitment with
          | Some (hash1, hash2) =>
              emit (EquivocationDetected view (p_proposer proposal) hash1 hash2)
          | None =>
              modify (fun e => e <| proposal_equivocation_tracker ::=
                or_insert (p_proposer proposal) (proposal_commitment, p_block_hash proposal) |>) ;;
              accept_proposal view proposal
          end.

(** ** View changes ([state_machine.rs]) *)

Section replay.
Variable dispatch_rec : ConsensusMessage -> M unit.

(** One iteration of the epoch loop of [advance_to_view]. *)
Definition cross_epoch : M unit :=
  e ← get;
  let epochs := epoch_manager e in
  let local_in_next :=
    index_of_public_key (default (current_set epochs) (next_set epochs)) (local_public_key e) in
  modify (fun e => e <| epoch_manager ::= (fun m =>
    if has_staged_next m then (advance_epoch m).1 else (carry_epoch_forward m).1) |>) ;;
  match local_in_next with
  | Some new_index =>
      when (negb (new_index =? my_index e)) (modify (fun e => e <| my_index := new_index |>))
  | None => mret tt
  end ;;
  e ← get;
  emit (EpochTransition (current_epoch (epoch_manager e)) (len (engine_validator_set e))).

(** [while epochs_enabled() && current_epoch() < target_epoch { .. }]. *)
Fixpoint cross_epochs (fuel : nat) (target_epoch : N) : M unit :=
  e ← get;
  if epochs_enabled (epoch_manager e) && (current_epoch (epoch_manager e) <? target_epoch) then
    match fuel with
    | O => out_of_fuel
    | S fuel => cross_epoch ;; cross_epochs fuel target_epoch
    end
  else mret tt.

(** The fields a new view resets. *)
Definition reset_view_state (new_view : ViewNumber) (e : ConsensusEngine) : ConsensusEngine :=
  let e := e <| vote_collector := None |> <| commit_collector := None |>
             <| timeout_collector := None |>
             <| future_timeout_collectors ::= filter (fun kv =>
                  new_view < kv.1 /\ kv.1 <= new_view +s FUTURE_VIEW_WINDOW) |>
             <| prepare_qc := None |> <| pending_proposal := None |> in
  let e := if is_gov5 (signing_profile e) then e
           else e <| imported_blocks := ∅ |> <| imported_block_fifo := [] |> in
  e <| equivocation_tracker := ∅ |> <| commit_equivocation_tracker := ∅ |>
    <| proposal_equivocation_tracker := ∅ |>.

(** The new view with its timer; a crash of the process aside, nothing can come
    between these assignments. *)
Definition enter_view (t : Instant) (new_view : ViewNumber) (e : ConsensusEngine)
  : ConsensusEngine :=
  let e := e <| round_state ::= advance_view new_view |> in
  let e := e <| pacemaker ::= reset_for_view t (consecutive_timeouts (round_state e)) |> in
  reset_view_state new_view e.

Definition to_replay (new_view : ViewNumber) (buffer : list (ViewNumber * ConsensusMessage))
  : list ConsensusMessage := snd <$> filter (fun x => x.1 = new_view) buffer.

Definition rebuffer (new_view : ViewNumber) (buffer : list (ViewNumber * ConsensusMessage))
  : list (ViewNumber * ConsensusMessage) :=
  filter (fun x => x.1 ≠ new_view /\ new_view < x.1 /\ x.1 <= new_view +w FUTURE_VIEW_WINDOW)
    buffer.

(** A failed replay is logged and dropped. *)
Definition replay_one (msg : ConsensusMessage) : M unit :=
  _ ← catch (dispatch_rec msg);
  mret tt.

(** [advance_to_view] once the view is entered. *)
Definition settle_view (new_view : ViewNumber) : M unit :=
  _ ← sync_local_validator_index;
  modify (fun e =>
    match commit_qc_formed (view_timing e) with
    | Some _ => e <| last_committed_timing := Some (view_timing e) |>
    | None => e
    end) ;;
  t ← now;
  modify (fun e => e <| view_timing := ViewTiming_new t |>) ;;
  e ← get;
  let drained := future_msg_buffer e in
  modify (fun e => e <| future_msg_buffer := rebuffer new_view drained |>) ;;
  for_each replay_one (to_replay new_view drained).

Definition advance_to_view (new_view : ViewNumber) : M unit :=
  e ← get;
  if new_view <=? engine_view e then mret tt
  else
    modify (fun e => e <| previous_prepare_qc := prepare_qc e |> <| prepare_qc := None |>) ;;
    let target_epoch := epoch_for_view (epoch_manager e) new_view in
    cross_epochs (N.to_nat (target_epoch - current_epoch (epoch_manager e))) target_epoch ;;
    t ← now;
    modify (enter_view t new_view) ;;
    settle_view new_view.

(** [advance_to_view] followed by the notification of the view it reached. *)
Definition advance_and_notify (new_view : ViewNumber) : M unit :=
  advance_to_view new_view ;;
  e ← get;
  emit (ViewChanged (engine_view e)).

(** ** Votes ([voting.rs]) *)

(** Stages the pending validator changes when they are the ones that were
    signed, and returns them. *)
Definition commit_signed_changes (changes_hash : B256)
  : M (option (list ValidatorChange)) :=
  e ← get;
  if negb (changes_hash =? B256_ZERO)
     && (pending_changes_hash (epoch_manager e) =? changes_hash)
  then
    let changes := pending_changes_for_proposal (epoch_manager e) in
    zoom epoch_manager commit_pending_changes ;;
    mret changes
  else mret None.

Definition try_form_commit_qc : M unit :=
  e ← get;
  let view := engine_view e in
  let view_set := engine_set_for_view e view in
  match commit_collector e with
  | None => mret tt
  | Some collector =>
      if negb (vc_has_quorum collector (quorum_size view_set)) then mret tt
      else
        let block_hash := vc_block_hash collector in
        let changes_hash := cached_changes_hash e block_hash in
        let commit_msg := commit_message (signing_profile e) view block_hash changes_hash in
        commit_qc ← lift (build_qc_with_profile_message collector view_set commit_msg
                            (signing_profile e));
        t ← now;
        modify (fun e => e <| view_timing ::= set commit_qc_formed (fun _ => Some t) |>
                           <| view_timing ::= set commit_vote_count
                                (fun _ => as_u32 (vote_count collector)) |>) ;;
        modify (fun e => e <| round_state ::= rs_commit commit_qc |>) ;;
        committed_changes ← commit_signed_changes changes_hash;
        let decide := mkDecide view block_hash commit_qc changes_hash in
        emit (BroadcastMessage (MDecide decide)) ;;
        modify (fun e => e <| pending_tx_roots ::= (fun f => (fifo_remove block_hash f).1) |>) ;;
        emit (BlockCommitted view block_hash commit_qc committed_changes) ;;
        advance_and_notify (view +s 1)
  end.

Definition try_form_prepare_qc : M unit :=
  e ← get;
  let view := engine_view e in
  let view_set := engine_set_for_view e view in
  match vote_collector e, prepare_qc e with
  | None, _ | _, Some _ => mret tt
  | Some collector, None =>
      if negb (vc_has_quorum collector (quorum_size view_set)) then mret tt
      else
        let vote_message := vote_message (signing_profile e) view (vc_block_hash collector) in
        qc ← lift (build_qc_with_profile_message collector view_set vote_message
                     (signing_profile e));
        t ← now;
        modify (fun e => e <| view_timing ::= set prepare_qc_formed (fun _ => Some t) |>
                           <| view_timing ::= set prepare_vote_count
                                (fun _ => as_u32 (vote_count collector)) |>
                           <| prepare_qc := Some qc |>) ;;
        modify (fun e => e <| round_state ::= enter_pre_commit |>) ;;
        modify (fun e => e <| round_state ::= update_locked_qc qc |>) ;;
        let block_hash := qc_block_hash qc in
        emit (BroadcastMessage (MPrepareQC (mkPrepareQC view block_hash qc))) ;;
        e ← get;
        if negb (may_commit_vote_in (round_state e) view) then mret tt
        else
          zoom vote_log (record_lock (locked_qc (round_state e))) ;;
          modify (fun e => e <| round_state ::= rs_record_commit_vote view |>) ;;
          zoom vote_log (record_commit_vote view) ;;
          e ← get;
          commit_sig ← sign_fact (SCommit view block_hash (cached_changes_hash e block_hash));
          on_some commit_collector (add_verified_vote (my_index e) commit_sig) ;;
          try_form_commit_qc
  end.

(** The signature of a single validator, checked unless the batch verifier did. *)
Definition check_signature (verified : bool) (view : ViewNumber) (voter : N)
  (message : ConsensusEngine -> bytes) (signature : BlsSignature) : M unit :=
  if verified then mret tt
  else
    e ← get;
    pk ← lift (get_public_key (engine_set_for_view e view) voter);
    if verify_single (signing_profile e) pk (message e) signature then mret tt
    else fail (InvalidSignature view voter).

(** Adds a verified vote to a collector: [false] for a duplicate. *)
Definition collect_vote (f : ConsensusEngine -> option VoteCollector) `{!Setter f}
  (voter : N) (signature : BlsSignature) : M bool :=
  r ← catch (on_some f (add_verified_vote voter signature));
  match r with
  | inr _ => mret true
  | inl (DuplicateVote _ _) => mret false
  | inl err => fail err
  end.

Definition process_vote_inner (vote : Vote) (signature_verified : bool) : M unit :=
  e ← get;
  let view := engine_view e in
  if negb (v_view vote =? view) then fail (ViewMismatch view (v_view vote))
  else
    leader ← is_current_leader;
    if negb leader then mret tt
    else
      check_signature signature_verified view (v_voter vote)
        (fun e => vote_message (signing_profile e) view (v_block_hash vote)) (v_signature vote) ;;
      e ← get;
      let '(tracker, conflict) :=
        check_equivocation (equivocation_tracker e) (v_voter vote) (v_block_hash vote) in
      modify (fun e => e <| equivocation_tracker := tracker |>) ;;
      match conflict with
      | Some (h1, h2) => emit (EquivocationDetected view (v_voter vote) h1 h2)
      | None =>
          match vote_collector e with
          | None => mret tt
          | Some collector =>
              if negb (v_block_hash vote =? vc_block_hash collector) then mret tt
              else
                added ← collect_vote vote_collector (v_voter vote) (v_signature vote);
                if added : bool then try_form_prepare_qc else mret tt
          end
      end.

Definition process_vote (vote : Vote) : M unit := process_vote_inner vote false.
Definition process_verified_vote (vote : Vote) : M unit := process_vote_inner vote true.

Definition process_commit_vote_inner (cv : CommitVote) (signature_verified : bool) : M unit :=
  e ← get;
  let view := engine_view e in
  if negb (cv_view cv =? view) then fail (ViewMismatch view (cv_view cv))
  else
    leader ← is_current_leader;
    if negb leader then mret tt
    else
      check_signature signature_verified view (cv_voter cv)
        (fun e => commit_message (signing_profile e) view (cv_block_hash cv)
                    (cached_changes_hash e (cv_block_hash cv))) (cv_signature cv) ;;
      e ← get;
      let '(tracker, conflict) :=
        check_equivocation (commit_equivocation_tracker e) (cv_voter cv) (cv_block_hash cv) in
      modify (fun e => e <| commit_equivocation_tracker := tracker |>) ;;
      match conflict with
      | Some (h1, h2) => emit (EquivocationDetected view (cv_voter cv) h1 h2)
      | None =>
          match commit_collector e with
          | None => mret tt
          | Some collector =>
              if negb (cv_block_hash cv =? vc_block_hash collector) then mret tt
              else
                added ← collect_vote commit_collector (cv_voter cv) (cv_signature cv);
                if added : bool then try_form_commit_qc else mret tt
          end
      end.

Definition process_commit_vote (cv : CommitVote) : M unit := process_commit_vote_inner cv false.
Definition process_verified_commit_vote (cv : CommitVote) : M unit :=
  process_commit_vote_inner cv true.

(** ** Decisions ([decision.rs]) *)

(** Stages the changes the CommitQC signed, or asks for a resync when this node
    does not hold them. *)
Definition decide_changes (decide : Decide) : M (option (list ValidatorChange)) :=
  if d_validator_changes_hash decide =? B256_ZERO then mret None
  else
    e ← get;
    if pending_changes_hash (epoch_manager e) =? d_validator_changes_hash decide then
      let changes := pending_changes_for_proposal (epoch_manager e) in
      zoom epoch_manager commit_pending_changes ;;
      mret changes
    else
      emit (SyncRequired (d_view decide -s 1) (d_view decide)) ;;
      mret None.

Definition process_decide (decide : Decide) : M unit :=
  e ← get;
  let current := engine_view e in
  let commit_qc := d_commit_qc decide in
  if d_view decide <? current then mret tt
  else
    commit_set ← lift (resolve_qc_validator_set e commit_qc);
    if (signer_count commit_qc <? quorum_size commit_set)%nat
    then fail (InsufficientVotes (d_view decide) (signer_count commit_qc) (quorum_size commit_set))
    else if negb (qc_view commit_qc =? d_view decide)
    then fail (ViewMismatch (d_view decide) (qc_view commit_qc))
    else if negb (qc_block_hash commit_qc =? d_block_hash decide)
    then fail (BlockHashMismatch (d_block_hash decide) (qc_block_hash commit_qc))
    else
      _ ← lift (verify_commit_qc_with_profile commit_qc commit_set
                  (d_validator_changes_hash decide) (signing_profile e));
      modify (fun e => e <| pending_changes_hashes ::=
                fifo_insert (d_block_hash decide) (d_validator_changes_hash decide) |>) ;;
      when (current +w SYNC_GAP_THRESHOLD <? d_view decide)
        (emit (SyncRequired current (d_view decide))) ;;
      t ← now;
      modify (fun e => e <| view_timing ::= set commit_qc_formed (fun _ => Some t) |>) ;;
      modify (fun e => e <| round_state ::= update_locked_qc commit_qc |>) ;;
      modify (fun e => e <| round_state ::= rs_commit commit_qc |>) ;;
      committed_changes ← decide_changes decide;
      modify (fun e => e <| pending_tx_roots ::=
                              (fun f => (fifo_remove (d_block_hash decide) f).1) |>) ;;
      emit (BlockCommitted (d_view decide) (d_block_hash decide) commit_qc committed_changes) ;;
      advance_and_notify (d_view decide +s 1).

(** ** Timeouts and view change certificates ([timeout.rs]) *)

Definition advance_with_tc (tc : TimeoutCertificate) (next_view : ViewNumber) : M unit :=
  modify (fun e => e <| round_state ::= update_locked_qc (tc_high_qc tc) |>) ;;
  leader ← is_leader_for_view next_view;
  (if leader : bool then
     nv_sig ← sign_fact (SNewView next_view);
     e ← get;
     match local_validator_index_for_view e next_view with
     | None => fail (LocalValidatorNotInSet (current_epoch (epoch_manager e) +w 1))
     | Some leader => emit (BroadcastMessage (MNewView (mkNewView next_view tc leader nv_sig)))
     end
   else mret tt) ;;
  advance_and_notify next_view.

Definition try_form_tc_and_advance (current next_view : ViewNumber) : M unit :=
  e ← get;
  match timeout_collector e with
  | None => mret tt
  | Some collector =>
      tc ← lift (build_tc_with_profile collector (engine_set_for_view e current)
                   (signing_profile e));
      advance_with_tc tc next_view
  end.

Definition process_timeout (timeout : TimeoutMessage) : M unit :=
  e ← get;
  let view := engine_view e in
  if negb (t_view timeout =? view) then mret tt
  else
    let view_set := engine_set_for_view e view in
    pk ← lift (get_public_key view_set (t_sender timeout));
    if negb (verify_single (signing_profile e) pk (timeout_message (signing_profile e) view)
               (t_signature timeout))
    then fail (InvalidSignature view (t_sender timeout))
    else
      _ ← lift (verify_embedded_qc e (t_high_qc timeout));
      let next_view := view +s 1 in
      next_leader ← leader_of next_view view_set;
      let relay := negb (t_sender timeout =? my_index e) && negb (next_leader =? my_index e)
                   && negb (is_gov5 (signing_profile e)) in
      let collector := default (TimeoutCollector_new view (len view_set)) (timeout_collector e) in
      let '(collector, added) :=
        add_verified_timeout (t_sender timeout) (t_signature timeout) (t_high_qc timeout)
          collector in
      modify (fun e => e <| timeout_collector := Some collector |>) ;;
      match added with
      | Err (DuplicateVote _ _) => mret tt
      | Err err => fail err
      | _ =>
          when relay (emit (SendToValidator next_leader (MTimeout timeout))) ;;
          if tcl_has_quorum collector (quorum_size view_set)
          then try_form_tc_and_advance view next_view
          else mret tt
      end.

(** The signed timeout of this node for [view]. *)
Definition own_timeout (view : ViewNumber) : M TimeoutMessage :=
  signature ← sign_fact (STimeout view);
  gets (fun e => mkTimeoutMessage view (locked_qc (round_state e)) (my_index e) signature).

Definition reset_pacemaker : M unit :=
  t ← now;
  modify (fun e => e <| pacemaker ::=
                          reset_for_view t (consecutive_timeouts (round_state e)) |>).

Definition on_timeout : M unit :=
  e ← get;
  let view := engine_view e in
  let next_view := view +s 1 in
  if negb (is_local_validator_active_for_view e view) then
    modify (fun e => e <| round_state ::= rs_timeout |>) ;;
    reset_pacemaker
  else if bool_decide (phase (round_state e) = TimedOut) then
    reset_pacemaker ;;
    timeout_msg ← own_timeout view;
    emit (BroadcastMessage (MTimeout timeout_msg)) ;;
    e ← get;
    match timeout_collector e with
    | Some collector =>
        if tcl_has_quorum collector (quorum_size (engine_set_for_view e view))
        then try_form_tc_and_advance view next_view
        else mret tt
    | None => mret tt
    end
  else
    modify (fun e => e <| round_state ::= rs_timeout |>) ;;
    reset_pacemaker ;;
    modify (fun e =>
      let e := e <| pending_proposal := None |> in
      if is_gov5 (signing_profile e) then e
      else e <| imported_blocks := ∅ |> <| imported_block_fifo := [] |>) ;;
    modify (fun e => e <| timeout_collector ::= (fun c =>
      Some (default (TimeoutCollector_new view (len (engine_set_for_view e view))) c)) |>) ;;
    timeout_msg ← own_timeout view;
    emit (BroadcastMessage (MTimeout timeout_msg)) ;;
    process_timeout timeout_msg.

Definition process_new_view (nv : NewView) : M unit :=
  e ← get;
  let tc := nv_timeout_cert nv in
  if nv_view nv <=? engine_view e then mret tt
  else
    let new_view_set := engine_set_for_view e (nv_view nv) in
    expected_leader ← leader_of (nv_view nv) new_view_set;
    if negb (nv_leader nv =? expected_leader)
    then fail (InvalidProposer (nv_view nv) expected_leader (nv_leader nv))
    else
      pk ← lift (get_public_key new_view_set (nv_leader nv));
      if negb (verify_single (signing_profile e) pk
                 (new_view_message (signing_profile e) (nv_view nv)) (nv_signature nv))
      then fail (InvalidSignature (nv_view nv) (nv_leader nv))
      else if negb (tc_view tc =? nv_view nv -s 1)
      then fail (InvalidTC (tc_view tc)
             ("TC view " +:+ pretty (tc_view tc) +:+ " does not match expected view "
                +:+ pretty (nv_view nv -s 1) +:+ " (nv.view - 1)"))
      else
        _ ← lift (verify_tc_with_profile tc (engine_set_for_view e (tc_view tc))
                    (signing_profile e));
        _ ← lift (verify_embedded_qc e (tc_high_qc tc));
        modify (fun e => e <| round_state ::= update_locked_qc (tc_high_qc tc) |>) ;;
        advance_and_notify (nv_view nv).

(** A timeout for a future view joined by [f + 1] validators: enter that view
    and time out there. *)
Definition join_future_timeout (timeout : TimeoutMessage) : M unit :=
  let recovery_view := t_view timeout in
  advance_to_view recovery_view ;;
  e ← get;
  if negb (engine_view e =? recovery_view) then mret tt
  else
    process_timeout timeout ;;
    e ← get;
    when (engine_view e =? recovery_view) on_timeout.

Definition collect_future_timeout (timeout : TimeoutMessage) : M bool :=
  e ← get;
  let current := engine_view e in
  let view := t_view timeout in
  let next_view := view +s 1 in
  if (view <=? current) || (current +s FUTURE_VIEW_WINDOW <? view) then mret false
  else match known_validator_set_for_view (epoch_manager e) view,
             known_validator_set_for_view (epoch_manager e) next_view with
  | Some view_set, Some next_view_set =>
      pk ← lift (get_public_key view_set (t_sender timeout));
      if negb (verify_single (signing_profile e) pk (timeout_message (signing_profile e) view)
                 (t_signature timeout))
      then fail (InvalidSignature view (t_sender timeout))
      else
        _ ← lift (verify_embedded_qc e (t_high_qc timeout));
        next_leader ← leader_of next_view next_view_set;
        let local_timeout_index := index_of_public_key view_set (local_public_key e) in
        let local_next_index := index_of_public_key next_view_set (local_public_key e) in
        when (bool_decide (local_timeout_index ≠ Some (t_sender timeout))
              && bool_decide (local_next_index ≠ Some next_leader))
          (emit (SendToValidator next_leader (MTimeout timeout))) ;;
        let collector :=
          default (TimeoutCollector_new view (len view_set))
            (future_timeout_collectors e !! view) in
        let '(collector, added) :=
          add_verified_timeout (t_sender timeout) (t_signature timeout) (t_high_qc timeout)
            collector in
        modify (fun e => e <| future_timeout_collectors ::= <[view := collector]> |>) ;;
        match added with
        | Err (DuplicateVote _ _) => mret false
        | Err err => fail err
        | _ =>
            if negb (tcl_has_quorum collector (quorum_size view_set)) then
              let threshold := (N.to_nat (fault_tolerance view_set) + 1)%nat in
              if negb (tcl_has_quorum collector threshold)
                 || bool_decide (local_timeout_index = None)
              then mret false
              else join_future_timeout timeout ;; mret true
            else
              tc ← lift (build_tc_with_profile collector view_set (signing_profile e));
              modify (fun e => e <| future_timeout_collectors ::= delete view |>) ;;
              advance_with_tc tc next_view ;;
              mret true
        end
  | _, _ => mret false
  end.

(** ** Proposals, leader side ([proposal.rs]) *)

Definition on_block_ready (block_hash : B256) (tx_root_hash : option B256) : M unit :=
  e ← get;
  let view := engine_view e in
  leader ← is_current_leader;
  if negb leader then mret tt
  else if negb (bool_decide (phase (round_state e) = WaitingForProposal)) then mret tt
  else
    let justify_qc := locked_qc (round_state e) in
    let piggybacked_qc := previous_prepare_qc e in
    modify (fun e => e <| previous_prepare_qc := None |>) ;;
    let validator_changes := pending_changes_for_proposal (epoch_manager e) in
    if is_gov5 (signing_profile e) && has_changes validator_changes
    then fail H2V4ValidatorChangesUnsupported
    else
      let changes_hash := match validator_changes with
                          | Some changes => hash_changes changes
                          | None => B256_ZERO
                          end in
      modify (fun e => e <| pending_changes_hashes ::= fifo_insert block_hash changes_hash |>) ;;
      signature ← sign_fact (SProposal view block_hash validator_changes);
      let proposer := default (my_index e) (local_validator_index_for_view e view) in
      let proposal := mkProposal view block_hash justify_qc proposer signature piggybacked_qc
                        tx_root_hash validator_changes in
      let collector := VoteCollector_new view block_hash (len (engine_set_for_view e view)) in
      modify (fun e => e <| vote_collector := Some collector |>
                         <| commit_collector := Some collector |>) ;;
      modify (fun e => e <| round_state ::= enter_voting |>) ;;
      if negb (may_vote_in (round_state e) view) then mret tt
      else
        modify (fun e => e <| round_state ::= rs_record_vote view |>) ;;
        zoom vote_log (record_vote view) ;;
        leader_vote_sig ← sign_fact (SVote view block_hash);
        on_some vote_collector (add_verified_vote (my_index e) leader_vote_sig) ;;
        t ← now;
        modify (fun e => e <| view_timing ::= set proposal_sent (fun _ => Some t) |>) ;;
        emit (BroadcastMessage (MProposal proposal)) ;;
        try_form_prepare_qc.

(** ** Dispatch ([state_machine.rs]) *)

Definition dispatch_body (msg : ConsensusMessage) (proof : option AuthenticatedVoteProof)
  : M unit :=
  match msg with
  | MProposal p => process_proposal p
  | MVote v =>
      if bool_decide (proof = Some (ProofVote (v_voter v))) then process_verified_vote v
      else process_vote v
  | MCommitVote cv =>
      e ← get;
      if bool_decide (proof = Some (ProofCommitVote (cv_voter cv)
                                      (cached_changes_hash e (cv_block_hash cv))))
      then process_verified_commit_vote cv
      else process_commit_vote cv
  | MPrepareQC pqc => process_prepare_qc pqc
  | MTimeout t => process_timeout t
  | MNewView nv => process_new_view nv
  | MDecide d => process_decide d
  end.

(** The certificate a future message may use to move this node forward. *)
Definition verify_jump_qc (e : ConsensusEngine) (msg : ConsensusMessage)
  (qc : QuorumCertificate) : option (cresult unit) :=
  match msg with
  | MDecide d =>
      Some (verify_commit_qc_with_profile qc (engine_set_for_view e (qc_view qc))
              (d_validator_changes_hash d) (signing_profile e))
  | MPrepareQC _ =>
      Some (verify_qc_with_profile qc (engine_set_for_view e (qc_view qc)) (signing_profile e))
  | MProposal _ | MTimeout _ | MNewView _ => Some (verify_qc_any_domain_or_known e qc)
  | MVote _ | MCommitVote _ => None
  end.

Definition try_qc_view_jump (msg : ConsensusMessage) : M bool :=
  e ← get;
  let current := engine_view e in
  match extract_qc_from_message msg with
  | None => mret false
  | Some qc =>
      if negb (0 <? qc_view qc) then mret false
      else match verify_jump_qc e msg qc with
      | Some (Ok _) =>
          let target_view := qc_view qc +s 1 in
          if target_view <=? current then mret false
          else
            modify (fun e => e <| round_state ::= update_locked_qc qc |>) ;;
            modify (fun e => e <| round_state ::= reset_consecutive_timeouts |>) ;;
            emit (SyncRequired current target_view) ;;
            advance_and_notify target_view ;;
            mret true
      | _ => mret false
      end
  end.

Definition push_future (view : ViewNumber) (msg : ConsensusMessage) : M unit :=
  modify (fun e => e <| future_msg_buffer ::= (fun l => l ++ [(view, msg)]) |>).

(** After a jump the message is processed, buffered or dropped. *)
Definition after_jump (view : ViewNumber) (msg : ConsensusMessage)
  (proof : option AuthenticatedVoteProof) : M unit :=
  e ← get;
  let new_current := engine_view e in
  if view =? new_current then dispatch_body msg proof
  else
    when ((new_current <? view) && (view <=? new_current +w FUTURE_VIEW_WINDOW)
          && (length (future_msg_buffer e) <? MAX_FUTURE_MESSAGES)%nat)
      (push_future view msg).

Definition is_exempt (msg : ConsensusMessage) : bool :=
  match msg with MDecide _ | MNewView _ => true | _ => false end.

Definition process_message_body (msg : ConsensusMessage)
  (proof : option AuthenticatedVoteProof) : M unit :=
  e ← get;
  let view := message_view msg in
  let current := engine_view e in
  if (current <? view) && negb (is_exempt msg) then
    if view <=? current +w FUTURE_VIEW_WINDOW then
      handled ← match msg with MTimeout t => collect_future_timeout t | _ => mret false end;
      if handled : bool then mret tt
      else
        jumped ← try_qc_view_jump msg;
        if jumped : bool then after_jump view msg proof
        else
          e ← get;
          when (MAX_FUTURE_MESSAGES <=? length (future_msg_buffer e))%nat
            (modify (fun e => e <| future_msg_buffer ::= evict_lowest_view |>)) ;;
          push_future view msg
    else
      jumped ← try_qc_view_jump msg;
      if jumped : bool then after_jump view msg proof else mret tt
  else if (view <? current) && negb (is_exempt msg) then
    match msg with
    | MProposal p => _ ← recover_late_committed_proposal p; mret tt
    | _ => mret tt
    end
  else dispatch_body msg proof.

Definition process_event_body (event : ConsensusEvent) : M unit :=
  match event with
  | Message msg => process_message_body msg None
  | BlockReady block_hash tx_root_hash => on_block_ready block_hash tx_root_hash
  | BlockImported block_hash => on_block_imported block_hash None
  | BlockImportedWithParent block_hash parent_hash =>
      on_block_imported block_hash (Some parent_hash)
  end.
End replay.

(** The recursion through the replay of buffered messages. *)
Fixpoint dispatch_message (fuel : nat) (msg : ConsensusMessage) : M unit :=
  match fuel with
  | O => out_of_fuel
  | S fuel => dispatch_body (dispatch_message fuel) msg None
  end.

(** Enough for every chain of replays ([Termination]). *)
Definition replay_fuel (e : ConsensusEngine) : nat := S (length (future_msg_buffer e)).

Definition with_fuel {A} (body : (ConsensusMessage -> M unit) -> M A) : M A := fun e =>
  body (dispatch_message (replay_fuel e)) e.

(** ** The public entry points *)

Definition process_event (event : ConsensusEvent) : M unit :=
  with_fuel (fun dispatch => process_event_body dispatch event).

Definition process_authenticated_message (a : AuthenticatedConsensusMessage) : M unit :=
  with_fuel (fun dispatch => process_message_body dispatch (auth_message a) (Some (auth_proof a))).

Definition pacemaker_timeout : M unit := with_fuel on_timeout.
End handlers.
