(* ===== verification/Machine.v ===== *)
(** * The engine as a transition system

    [astep] lists the atomic changes a handler may make to the part of the state
    that safety depends on, each with the guard the code establishes first.
    [J] is the invariant, proved here by cases on [astep]; [HandlerSteps]
    shows that every handler only makes such steps. *)

From S2P Require Import Prelude Effects Crypto Messages Signing ValidatorSet Epoch EpochTheory.
From S2P Require Import Quorum Fifo Pacemaker Round VoteLog Engine Handlers.

(** The views of the R1 and of the R2 votes of a trace. *)
Definition vote_views (signed : list SignedFact) : list ViewNumber :=
  omap (fun f => match f with SVote v _ => Some v | _ => None end) signed.
Definition commit_views (signed : list SignedFact) : list ViewNumber :=
  omap (fun f => match f with SCommit v _ _ => Some v | _ => None end) signed.

(** What a sent message says was signed before: a vote its own fact, a proposal
    the R1 vote of its leader for the proposed block. *)
Definition output_signed (signed : list SignedFact) (o : EngineOutput) : Prop :=
  match o with
  | SendToValidator _ (MVote v) => SVote (v_view v) (v_block_hash v) ∈ signed
  | SendToValidator _ (MCommitVote cv) =>
      exists c, SCommit (cv_view cv) (cv_block_hash cv) c ∈ signed
  | BroadcastMessage (MProposal p) => SVote (p_view p) (p_block_hash p) ∈ signed
  | SendToValidator _ (MProposal _) | BroadcastMessage (MVote _)
  | BroadcastMessage (MCommitVote _) => False
  | _ => True
  end.

(** A committed block is the block of its certificate, and the certificate is
    no newer than the last committed one. *)
Definition output_committed (r : RoundState) (o : EngineOutput) : Prop :=
  match o with
  | BlockCommitted v h qc _ =>
      qc_view qc = v /\ qc_block_hash qc = h /\ v <= qc_view (last_committed_qc r)
  | _ => True
  end.

Section machine.
Context {L : Type} `{CrashSafe L} {blst : Blst} {digest : Digest}.
Abbreviation engine := (ConsensusEngine L).

Definition signed (e : engine) : list SignedFact := w_signed (world e).
Definition outputs (e : engine) : list EngineOutput := w_outputs (world e).
Definition r1_durable (e : engine) : N := (last_vote_views (vote_log e)).1.
Definition r2_durable (e : engine) : N := (last_vote_views (vote_log e)).2.
Definition lock_durable (e : engine) : N := lock_view (durable_lock (vote_log e)).

Definition same_voted (r r' : RoundState) : Prop :=
  last_voted_view r' = last_voted_view r /\
  last_commit_voted_view r' = last_commit_voted_view r.

Definition collector_at (view : ViewNumber) (c : option VoteCollector) : Prop :=
  match c with Some c => vc_view c = view | None => True end.

Definition u64_buffer (b : list (ViewNumber * ConsensusMessage)) : Prop :=
  Forall (fun x => is_u64 (message_view x.2)) b.

(** The fields that [astep] speaks about. *)
Record same_core (e e' : engine) : Prop := {
  core_round : round_state e' = round_state e;
  core_epoch : epoch_manager e' = epoch_manager e;
  core_vote : vote_collector e' = vote_collector e;
  core_commit : commit_collector e' = commit_collector e;
  core_buffer : future_msg_buffer e' = future_msg_buffer e;
  core_log : vote_log e' = vote_log e;
  core_signed : signed e' = signed e;
  core_outputs : outputs e' = outputs e
}.

Inductive astep : relation engine :=
| A_frame e e' : same_core e e' -> astep e e'
| A_emit e o :
    output_signed (signed e) o -> output_committed (round_state e) o ->
    astep e (e <| world ::= set w_outputs (fun l => l ++ [o]) |>)
| A_round e f :
    round_le (round_state e) (f (round_state e)) ->
    same_voted (round_state e) (f (round_state e)) ->
    current_view (f (round_state e)) = current_view (round_state e) ->
    astep e (e <| round_state ::= f |>)
| A_enter_view e t v :
    engine_view e < v -> is_u64 v -> astep e (enter_view t v e)
| A_epoch e f :
    (epoch_wf (epoch_manager e) -> epoch_wf (f (epoch_manager e))) ->
    astep e (e <| epoch_manager ::= f |>)
| A_vote_collector e c :
    vc_view c = engine_view e -> astep e (e <| vote_collector := Some c |>)
| A_commit_collector e c :
    vc_view c = engine_view e -> astep e (e <| commit_collector := Some c |>)
| A_buffer e f :
    u64_buffer (f (future_msg_buffer e)) ->
    (length (f (future_msg_buffer e)) <= MAX_FUTURE_MESSAGES)%nat ->
    astep e (e <| future_msg_buffer ::= f |>)
| A_mark_vote e v :
    may_vote_in (round_state e) v = true ->
    astep e (e <| round_state ::= rs_record_vote v |>)
| A_log_vote e v :
    is_u64 v -> last_voted_view (round_state e) = v ->
    astep e (e <| vote_log := (record_vote v (vote_log e)).1 |>)
| A_sign_vote e v h :
    r1_durable e = v -> v ∉ vote_views (signed e) ->
    astep e (e <| world ::= set w_signed (fun l => l ++ [SVote v h]) |>)
| A_log_lock e :
    astep e (e <| vote_log := (record_lock (locked_qc (round_state e)) (vote_log e)).1 |>)
| A_mark_commit e v :
    may_commit_vote_in (round_state e) v = true ->
    astep e (e <| round_state ::= rs_record_commit_vote v |>)
| A_log_commit e v :
    is_u64 v -> last_commit_voted_view (round_state e) = v ->
    astep e (e <| vote_log := (record_commit_vote v (vote_log e)).1 |>)
| A_sign_commit e v h c :
    r2_durable e = v -> v <= lock_durable e -> v <= qc_view (locked_qc (round_state e)) ->
    v ∉ commit_views (signed e) ->
    astep e (e <| world ::= set w_signed (fun l => l ++ [SCommit v h c]) |>)
| A_sign_other e f :
    (forall v h, f ≠ SVote v h) -> (forall v h c, f ≠ SCommit v h c) ->
    astep e (e <| world ::= set w_signed (fun l => l ++ [f]) |>).

(** ** The invariant *)

Record J (e : engine) : Prop := {
  J_view : is_u64 (engine_view e);
  J_buffer : u64_buffer (future_msg_buffer e);
  J_bound : (length (future_msg_buffer e) <= MAX_FUTURE_MESSAGES)%nat;
  J_vote_collector : collector_at (engine_view e) (vote_collector e);
  J_commit_collector : collector_at (engine_view e) (commit_collector e);
  J_log : log_wf (vote_log e);
  J_r1 : r1_durable e <= last_voted_view (round_state e);
  J_r2 : r2_durable e <= last_commit_voted_view (round_state e);
  J_votes : forall v, v ∈ vote_views (signed e) -> v <= r1_durable e;
  J_commits : forall v, v ∈ commit_views (signed e) ->
    v <= r2_durable e /\ v <= lock_durable e /\ v <= qc_view (locked_qc (round_state e));
  J_votes_once : NoDup (vote_views (signed e));
  J_commits_once : NoDup (commit_views (signed e));
  J_outputs : Forall (output_signed (signed e)) (outputs e);
  J_committed : Forall (output_committed (round_state e)) (outputs e)
}.

(** What no step takes back. *)
Record grows (e e' : engine) : Prop := {
  grows_round : round_le (round_state e) (round_state e');
  grows_signed : signed e `prefix_of` signed e';
  grows_outputs : outputs e `prefix_of` outputs e';
  grows_epoch : epoch_wf (epoch_manager e) -> epoch_wf (epoch_manager e')
}.

#[global] Instance grows_preorder : PreOrder grows.
Proof.
  split.
  - intros e. constructor; done || reflexivity.
  - intros e1 e2 e3 [] []. constructor; eauto; etrans; eauto.
Qed.

Lemma enter_view_core t v (e : engine) :
  engine_view e < v ->
  engine_view (enter_view t v e) = v /\
  round_le (round_state e) (round_state (enter_view t v e)) /\
  same_voted (round_state e) (round_state (enter_view t v e)) /\
  locked_qc (round_state (enter_view t v e)) = locked_qc (round_state e) /\
  last_committed_qc (round_state (enter_view t v e)) = last_committed_qc (round_state e) /\
  epoch_manager (enter_view t v e) = epoch_manager e /\
  vote_collector (enter_view t v e) = None /\
  commit_collector (enter_view t v e) = None /\
  future_msg_buffer (enter_view t v e) = future_msg_buffer e /\
  vote_log (enter_view t v e) = vote_log e /\ world (enter_view t v e) = world e.
Proof.
  intros Hv. unfold enter_view, reset_view_state, engine_view in *. cbn.
  assert (Ha : advance_view v (round_state e) =
    round_state e <| current_view := v |> <| phase := WaitingForProposal |>).
  { unfold advance_view. by rewrite (proj2 (N.leb_gt _ _) Hv). }
  destruct (is_gov5 (signing_profile e)); cbn; rewrite Ha; cbn;
    (split_and!; try done; constructor; cbn; lia).
Qed.

Lemma astep_grows (e e' : engine) : astep e e' -> grows e e'.
Proof.
  destruct 1 as [e e' Hc|e o _ _|e f Hle _ _|e t v Hv _|e f Hf|e c _|e c _|e f _ _|e v Hv
    |e v _ _|e v h _ _|e|e v Hv|e v _ _|e v h c _ _ _ _|e f _ _].
  - destruct Hc as [Hr He _ _ Hb _ Hs Ho]. constructor; rewrite ?Hr, ?He, ?Hb, ?Hs, ?Ho; done.
  - constructor; cbn; try done. by apply prefix_app_r.
  - by constructor.
  - destruct (enter_view_core t v e Hv) as (_ & Hle & _ & _ & _ & He & _ & _ & Hb & _ & Hw).
    unfold signed, outputs in *.
    constructor; unfold signed, outputs; rewrite ?He, ?Hb, ?Hw; done.
  - by constructor.
  - by constructor.
  - by constructor.
  - by constructor.
  - constructor; cbn; try done. by apply record_vote_le.
  - by constructor.
  - constructor; cbn; try done. by apply prefix_app_r.
  - by constructor.
  - constructor; cbn; try done. by apply record_commit_vote_le.
  - by constructor.
  - constructor; cbn; try done. by apply prefix_app_r.
  - constructor; cbn; try done. by apply prefix_app_r.
Qed.

Lemma vote_views_app l l' : vote_views (l ++ l') = vote_views l ++ vote_views l'.
Proof. apply omap_app. Qed.
Lemma commit_views_app l l' : commit_views (l ++ l') = commit_views l ++ commit_views l'.
Proof. apply omap_app. Qed.

Lemma output_signed_app l l' o : output_signed l o -> output_signed (l ++ l') o.
Proof.
  destruct o as [[]|? []|? |? ? ? ?|? ? ?|? |? ?|? ? ? ?|? ?]; cbn; try done;
    rewrite ?elem_of_app; [by left|by left|].
  intros [c Hc]. exists c. rewrite elem_of_app. by left.
Qed.

Lemma output_committed_le r r' o :
  round_le r r' -> output_committed r o -> output_committed r' o.
Proof. intros [_ _ Hc _ _]. destruct o; cbn; try done. intuition lia. Qed.

Lemma NoDup_snoc {A} (l : list A) x : NoDup l -> x ∉ l -> NoDup (l ++ [x]).
Proof.
  intros Hl Hx. apply NoDup_app. split_and!; [done| |apply NoDup_singleton].
  by intros y Hy ->%list_elem_of_singleton.
Qed.

Lemma J_frame (e e' : engine) : same_core e e' -> J e -> J e'.
Proof.
  intros [Hr He Hv Hc Hb Hl Hs Ho] []. unfold r1_durable, r2_durable, lock_durable, engine_view in *.
  constructor; unfold r1_durable, r2_durable, lock_durable, engine_view;
    rewrite ?Hr, ?Hv, ?Hc, ?Hb, ?Hl, ?Hs, ?Ho; done.
Qed.

(** A step that touches the round state only. *)
Lemma J_round (e : engine) f :
  round_le (round_state e) (f (round_state e)) ->
  current_view (f (round_state e)) = current_view (round_state e) ->
  J e -> J (e <| round_state ::= f |>).
Proof.
  intros Hle Hv []. pose proof Hle as [_ Hlock _ Hvo Hcv].
  unfold r1_durable, r2_durable, lock_durable, engine_view in *.
  constructor; unfold r1_durable, r2_durable, lock_durable, engine_view, signed, outputs in *;
    cbn in *; rewrite ?Hv; try done; try lia.
  - intros v Hin. apply J_commits0 in Hin. lia.
  - eapply Forall_impl; [exact J_committed0|]. intros o. by apply output_committed_le.
Qed.

Lemma recorded_le old new after r : recorded old new after r -> old <= new -> old <= after <= new.
Proof. destruct r; cbn; [intros ->|intros [->| ->]|done|done]; lia. Qed.

Lemma J_log_vote (e : engine) v :
  is_u64 v -> last_voted_view (round_state e) = v -> J e ->
  J (e <| vote_log := (record_vote v (vote_log e)).1 |>).
Proof.
  intros Hu Hv []. pose proof (record_vote_safe v (vote_log e) J_log0 Hu) as Hs.
  destruct (record_vote v (vote_log e)) as [l r]. destruct Hs as (Hwf & Hlk & H2 & H1).
  unfold r1_durable, r2_durable, lock_durable, engine_view, signed, outputs in *.
  apply recorded_le in H1; [|lia].
  constructor; unfold r1_durable, r2_durable, lock_durable, engine_view, signed, outputs; cbn;
    rewrite ?Hlk, ?H2; try done; try lia.
  intros w Hw. apply J_votes0 in Hw. lia.
Qed.

Lemma J_log_commit (e : engine) v :
  is_u64 v -> last_commit_voted_view (round_state e) = v -> J e ->
  J (e <| vote_log := (record_commit_vote v (vote_log e)).1 |>).
Proof.
  intros Hu Hv []. pose proof (record_commit_vote_safe v (vote_log e) J_log0 Hu) as Hs.
  destruct (record_commit_vote v (vote_log e)) as [l r]. destruct Hs as (Hwf & Hlk & H1 & H2).
  unfold r1_durable, r2_durable, lock_durable, engine_view, signed, outputs in *.
  apply recorded_le in H2; [|lia].
  constructor; unfold r1_durable, r2_durable, lock_durable, engine_view, signed, outputs; cbn;
    rewrite ?Hlk, ?H1; try done; try lia.
  intros w Hw. apply J_commits0 in Hw. lia.
Qed.

Lemma J_log_lock (e : engine) :
  J e -> J (e <| vote_log := (record_lock (locked_qc (round_state e)) (vote_log e)).1 |>).
Proof.
  intros []. pose proof (record_lock_safe (locked_qc (round_state e)) (vote_log e) J_log0) as Hs.
  destruct (record_lock _ (vote_log e)) as [l r]. destruct Hs as (Hwf & Hviews & Hlk).
  unfold r1_durable, r2_durable, lock_durable, engine_view, signed, outputs in *.
  constructor; unfold r1_durable, r2_durable, lock_durable, engine_view, signed, outputs; cbn;
    rewrite ?Hviews; try done.
  intros v Hv. apply J_commits0 in Hv as (H1 & H2 & H3). split_and!; [done| |done].
  destruct r; cbn in Hlk; [rewrite Hlk|destruct Hlk as [->| ->]|done|done]; done.
Qed.

(** A step that extends the trace. *)
Lemma J_sign (e : engine) f :
  (forall v h, f = SVote v h -> v <= r1_durable e /\ v ∉ vote_views (signed e)) ->
  (forall v h c, f = SCommit v h c ->
     v <= r2_durable e /\ v <= lock_durable e /\ v <= qc_view (locked_qc (round_state e)) /\
     v ∉ commit_views (signed e)) ->
  J e -> J (e <| world ::= set w_signed (fun l => l ++ [f]) |>).
Proof.
  intros Hf1 Hf2 []. unfold r1_durable, r2_durable, lock_durable, engine_view, outputs in *.
  constructor; unfold r1_durable, r2_durable, lock_durable, engine_view, outputs, signed; cbn;
    try done.
  - intros v. rewrite vote_views_app, elem_of_app. intros [Hv|Hv]; [by apply J_votes0|].
    destruct f; cbn in Hv; try (by apply not_elem_of_nil in Hv).
    apply list_elem_of_singleton in Hv as ->. by eapply Hf1.
  - intros v. rewrite commit_views_app, elem_of_app. intros [Hv|Hv]; [by apply J_commits0|].
    destruct f; cbn in Hv; try (by apply not_elem_of_nil in Hv).
    apply list_elem_of_singleton in Hv as ->. by edestruct Hf2 as (? & ? & ? & ?).
  - rewrite vote_views_app. destruct f; cbn; rewrite ?app_nil_r; try done.
    apply NoDup_snoc; [done|]. by edestruct Hf1.
  - rewrite commit_views_app. destruct f; cbn; rewrite ?app_nil_r; try done.
    apply NoDup_snoc; [done|]. by edestruct Hf2 as (? & ? & ? & ?).
  - eapply Forall_impl; [exact J_outputs0|]. intros o. apply output_signed_app.
Qed.

Lemma J_enter_view t v (e : engine) :
  engine_view e < v -> is_u64 v -> J e -> J (enter_view t v e).
Proof.
  intros Hv Hu [].
  destruct (enter_view_core t v e Hv)
    as (Hev & Hle & [Hv1 Hv2] & Hlk & Hlc & He & Hvc & Hcc & Hb & Hl & Hw).
  unfold r1_durable, r2_durable, lock_durable, signed, outputs in *.
  constructor; unfold r1_durable, r2_durable, lock_durable, signed, outputs;
    rewrite ?Hev, ?Hv1, ?Hv2, ?Hlk, ?He, ?Hvc, ?Hcc, ?Hb, ?Hl, ?Hw; try done.
  eapply Forall_impl; [exact J_committed0|]. intros o. by apply output_committed_le.
Qed.

Lemma astep_J (e e' : engine) : astep e e' -> J e -> J e'.
Proof.
  destruct 1 as [e e' Hc|e o Hs Hc|e f Hle _ Hv|e t v Hv Hu|e f Hf|e c Hv|e c Hv|e f Hb Hn|e v Hv
    |e v Hu Hv|e v h Hd Hn|e|e v Hv|e v Hu Hv|e v h c Hd Hk Hlk Hn|e f Hf1 Hf2].
  - by apply J_frame.
  - intros []. constructor; try done; unfold outputs; cbn; rewrite Forall_app, Forall_singleton;
      by split.
  - by apply J_round.
  - by apply J_enter_view.
  - intros []; by constructor.
  - intros []; by constructor.
  - intros []; by constructor.
  - intros []; by constructor.
  - apply J_round; [by apply record_vote_le|done].
  - by apply J_log_vote.
  - apply J_sign; [|done]. intros v' h' [= -> ->]. split; [lia|done].
  - by apply J_log_lock.
  - apply J_round; [by apply record_commit_vote_le|done].
  - by apply J_log_commit.
  - apply J_sign; [done|]. intros v' h' c' [= -> -> ->]. split_and!; [lia|done..].
  - apply J_sign; [by intros v h ->; destruct (Hf1 v h)|by intros v h c ->; destruct (Hf2 v h c)].
Qed.

Definition steps : relation engine := rtc astep.

Lemma steps_J e e' : steps e e' -> J e -> J e'.
Proof. induction 1; eauto using astep_J. Qed.
Lemma steps_grows e e' : steps e e' -> grows e e'.
Proof. induction 1; [done|]. etrans; eauto using astep_grows. Qed.
End machine.
