(* ===== verification/Refinement.v ===== *)
(** * The refinement judgement

    The judgement [run n m e], which [HandlerSteps] proves for each handler of
    [Handlers]: from a state of the invariant, [m] moves along atomic steps, and
    if at most [n] messages are buffered it has enough fuel and leaves no more
    messages than it found.  This file has its lemmas for the effects of the
    monad: one per construct, environment interaction, signature, vote log
    record and collector update. *)

From S2P Require Import Prelude Effects Crypto Messages Signing ValidatorSet Epoch EpochTheory.
From S2P Require Import Quorum QuorumTheory Fifo Pacemaker Round VoteLog Engine Handlers Machine.

(** A computation on values either succeeds or fails. *)
Definition clean {E A} (r : outcome E A) : Prop :=
  match r with Ok _ | Err _ => True | _ => False end.

Lemma clean_bind {E A B} (m : result E A) (k : A -> result E B) :
  clean m -> (forall a, clean (k a)) -> clean (m ≫= k).
Proof. destruct m; cbn; auto. Qed.

Create HintDb clean.
#[export] Hint Resolve clean_bind : clean.

Section clean.
Context {blst : Blst} {digest : Digest}.

Lemma clean_get_public_key set i : clean (get_public_key set i).
Proof. unfold get_public_key. by case_match. Qed.

Lemma clean_result_map {E A B} (f : A -> result E B) l :
  (forall a, clean (f a)) -> clean (result_map f l).
Proof.
  intros Hf. induction l as [|x l IH]; cbn; [done|].
  apply clean_bind; [done|]. intros b. by apply clean_bind.
Qed.

Lemma clean_collect_signer_keys s set q v k : clean (collect_signer_keys s set q v k).
Proof.
  unfold collect_signer_keys. repeat case_match; try done.
  apply clean_result_map, clean_get_public_key.
Qed.
Hint Resolve clean_collect_signer_keys : clean.

Lemma clean_verify_qc qc set p : clean (verify_qc_with_profile qc set p).
Proof. apply clean_bind; [auto with clean|]. intros a. cbn zeta. by case_match. Qed.
Lemma clean_verify_commit_qc qc set h p : clean (verify_commit_qc_with_profile qc set h p).
Proof. apply clean_bind; [auto with clean|]. intros a. cbn zeta. by case_match. Qed.
Lemma clean_verify_any qc set h p : clean (verify_qc_any_domain_with_profile qc set h p).
Proof. apply clean_bind; [auto with clean|]. intros a. cbn zeta. repeat case_match; done. Qed.
Lemma clean_verify_tc tc set p : clean (verify_tc_with_profile tc set p).
Proof. apply clean_bind; [auto with clean|]. intros a. cbn zeta. by case_match. Qed.

Lemma clean_aggregate l : clean (aggregate l).
Proof. unfold aggregate. repeat case_match; done. Qed.

Lemma clean_lift_bls {A} (r : result BlsError A) : clean r -> clean (lift_bls r).
Proof. by destruct r. Qed.

Lemma clean_build_qc c set m p : clean (build_qc_with_profile_message c set m p).
Proof.
  unfold build_qc_with_profile_message, build_qc_from. repeat case_match; try done.
  apply clean_bind; [apply clean_lift_bls, clean_aggregate|done].
Qed.

Lemma clean_build_tc c set p : clean (build_tc_with_profile c set p).
Proof.
  unfold build_tc_with_profile, build_tc_from. repeat case_match; try done;
    (apply clean_bind; [apply clean_lift_bls, clean_aggregate|done]).
Qed.

Lemma build_qc_fields c set m p qc :
  build_qc_with_profile_message c set m p = Ok qc ->
  qc_view qc = vc_view c /\ qc_block_hash qc = vc_block_hash c.
Proof.
  unfold build_qc_with_profile_message, build_qc_from. repeat case_match; try done.
  destruct (lift_bls _); cbn; [|done..]. by intros [= <-].
Qed.

Context {L : Type}.

Lemma clean_resolve (e : ConsensusEngine L) qc : clean (resolve_qc_validator_set e qc).
Proof. unfold resolve_qc_validator_set. repeat case_match; done. Qed.

Lemma clean_any_or_known (e : ConsensusEngine L) qc : clean (verify_qc_any_domain_or_known e qc).
Proof.
  unfold verify_qc_any_domain_or_known. case_match; [done|].
  apply clean_bind; [apply clean_resolve|]. intros set. apply clean_verify_any.
Qed.

Lemma clean_embedded (e : ConsensusEngine L) qc : clean (verify_embedded_qc e qc).
Proof. unfold verify_embedded_qc. repeat case_match; try done. apply clean_any_or_known. Qed.
End clean.
#[export] Hint Resolve clean_get_public_key clean_verify_qc clean_verify_commit_qc
  clean_verify_any clean_verify_tc clean_build_qc clean_build_tc clean_resolve
  clean_any_or_known clean_embedded : clean.

Section run.
Context {L : Type} `{CrashSafe L} {blst : Blst} {digest : Digest}.
Abbreviation engine := (ConsensusEngine L).
Abbreviation M := (@M L).

(** ** Reading a handler at a state *)

Lemma bind_get {B} (k : engine -> M B) e : (get ≫= k) e = k e e.
Proof. done. Qed.
Lemma bind_lift {A B} (r : cresult A) (k : A -> M B) e :
  (lift r ≫= k) e =
  match r with
  | Ok a => k a e
  | Err err => (e, Err err)
  | Panic => (e, Panic)
  | OutOfFuel => (e, OutOfFuel)
  end.
Proof. by destruct r. Qed.

Lemma bind_leader_of {B} v set (k : N -> M B) e :
  (leader_of v set ≫= k) e =
  match leader_for_view v set with Some l => k l e | None => (e, Panic) end.
Proof. unfold leader_of. by destruct (leader_for_view v set). Qed.

Definition buffered (e : engine) : nat := length (future_msg_buffer e).

Definition run {A} (n : nat) (m : M A) (e : engine) : Prop :=
  J e ->
  steps e (m e).1 /\
  ((buffered e < n)%nat ->
   (m e).2 ≠ OutOfFuel /\ (buffered (m e).1 <= buffered e)%nat).

(** ** Structure *)

Lemma run_done {A} n (m : M A) e r : m e = (e, r) -> r ≠ OutOfFuel -> run n m e.
Proof. intros Hm Hr _. rewrite Hm. by split; [apply rtc_refl|]. Qed.

Lemma run_ret {A} n (a : A) e : run n (mret a) e.
Proof. by eapply run_done. Qed.
Lemma run_fail {A} n err e : run n (fail err : M A) e.
Proof. by eapply run_done. Qed.
Lemma run_panic {A} n e : run n (panic : M A) e.
Proof. by eapply run_done. Qed.
Lemma run_gets {A} n (f : engine -> A) e : run n (gets f) e.
Proof. by eapply run_done. Qed.

Lemma run_bind {A B} n (m : M A) (k : A -> M B) e :
  run n m e ->
  (forall a e', m e = (e', Ok a) -> J e -> J e' -> run n (k a) e') ->
  run n (m ≫= k) e.
Proof.
  intros Hm Hk HJ. destruct (Hm HJ) as [Hs Hf]. unfold mbind, st_bind.
  destruct (m e) as [e' [a|err| |]] eqn:E; cbn in *;
    try (by split; [|intros Hb; destruct (Hf Hb)]).
  pose proof (steps_J _ _ Hs HJ) as HJ'. destruct (Hk a e' eq_refl HJ HJ' HJ') as [Hs' Hf'].
  split; [by etrans|]. intros Hb. destruct (Hf Hb). destruct Hf' as [? ?]; [lia|].
  split; [done|lia].
Qed.

Lemma run_bind_done {A B} n (m : M A) (k : A -> M B) e r :
  m e = (e, r) -> r ≠ OutOfFuel -> (forall a, r = Ok a -> J e -> run n (k a) e) ->
  run n (m ≫= k) e.
Proof.
  intros Hm Hr Hk. apply run_bind; [by eapply run_done|].
  intros a e' He HJ _. rewrite Hm in He. apply pair_equal_spec in He as [<- ->].
  by apply Hk.
Qed.

Lemma run_get {B} n (k : engine -> M B) e : (J e -> run n (k e) e) -> run n (get ≫= k) e.
Proof. intros Hk HJ. by apply Hk. Qed.

Lemma run_gets_bind {A B} n (f : engine -> A) (k : A -> M B) e :
  run n (k (f e)) e -> run n (gets f ≫= k) e.
Proof. done. Qed.

Lemma run_lift {A B} n (r : cresult A) (k : A -> M B) e :
  clean r -> (forall a, r = Ok a -> run n (k a) e) -> run n (lift r ≫= k) e.
Proof.
  intros Hc Hk. eapply run_bind_done; [done| |by intros a ? _; apply Hk]. by destruct r.
Qed.

Lemma run_try {A B} n (f : engine -> cresult A) (k : A -> M B) e :
  clean (f e) -> (forall a, f e = Ok a -> run n (k a) e) -> run n (try_ f ≫= k) e.
Proof.
  intros Hc Hk. eapply run_bind_done; [done| |by intros a ? _; apply Hk]. by destruct (f e).
Qed.

Lemma run_catch {A} n (m : M A) e : run n m e -> run n (catch m) e.
Proof.
  intros Hm HJ. destruct (Hm HJ) as [Hs Hf]. unfold catch.
  destruct (m e) as [e' [a|err| |]]; cbn in *; split; try done; intros Hb;
    by destruct (Hf Hb).
Qed.

Lemma run_when n b (m : M unit) e : (b = true -> run n m e) -> run n (when b m) e.
Proof. unfold when. destruct b; [auto|]. intros _. apply run_ret. Qed.

Lemma run_for_each {A} n (f : A -> M unit) l e :
  (forall x e', x ∈ l -> J e' -> run n (f x) e') -> run n (for_each f l) e.
Proof.
  revert e. induction l as [|x l IH]; intros e Hf; cbn; [apply run_ret|].
  apply run_bind; [intros HJ; apply Hf; [left|done..]|]. intros _ e' _ _ _.
  apply IH. intros y e'' Hy. apply Hf. by right.
Qed.

(** ** Atomic steps *)

Lemma run_modify n f e :
  (J e -> astep e (f e)) -> (buffered (f e) <= buffered e)%nat -> run n (modify f) e.
Proof. intros Hs Hb HJ. split; [by apply rtc_once, Hs|done]. Qed.

Lemma run_modify_bind {B} n f (k : unit -> M B) e :
  (J e -> astep e (f e)) -> (buffered (f e) <= buffered e)%nat ->
  (forall e', e' = f e -> J e' -> run n (k tt) e') -> run n (modify f ≫= k) e.
Proof.
  intros Hs Hb Hk. apply run_bind; [by apply run_modify|].
  intros [] e' He _ HJ'. apply pair_equal_spec in He as [<- _]. by apply Hk.
Qed.

(** *** The environment *)

(** [w] is the environment of [e] after an interaction without effect on the
    trace, and with [o] sent or not. *)
Definition world_after (e : engine) (sent : list EngineOutput) (w : World) : Prop :=
  w_signed w = signed e /\ w_outputs w = outputs e ++ sent.

Lemma world_after_frame e w : world_after e [] w -> same_core e (e <| world := w |>).
Proof. intros [Hs Ho]. rewrite app_nil_r in Ho. by constructor. Qed.

Lemma tick_after e :
  exists w r, tick e = (e <| world := w |>, r) /\ world_after e [] w /\
    (r = Panic \/ exists n, r = Ok n).
Proof.
  unfold tick. destruct (w_crash (world e) (w_step (world e))).
  - exists (world e), Panic. unfold world_after. rewrite app_nil_r.
    split_and!; [by destruct e|done|done|by left].
  - eexists _, _. unfold world_after. rewrite app_nil_r. split_and!; [reflexivity|done|done|right; eauto].
Qed.

Lemma try_send_after o e :
  exists w r, try_send o e = (e <| world := w |>, r) /\
    match r with
    | Ok SendOk => world_after e [o] w
    | OutOfFuel | Err _ => False
    | _ => world_after e [] w
    end.
Proof.
  unfold try_send, mbind, st_bind. destruct (tick_after e) as (w & r & -> & Hw & [->|[n ->]]).
  - by exists w, Panic.
  - cbn. destruct Hw as [Hs Ho]. rewrite app_nil_r in Ho.
    destruct (w_channel w n); cbn.
    + eexists _, _. split; [done|]. split; cbn; [done|by rewrite Ho].
    + eexists _, _. split; [done|]. split; [done|by rewrite app_nil_r].
    + eexists _, _. split; [done|]. split; [done|by rewrite app_nil_r].
Qed.

Lemma world_after_trans e w w' o :
  world_after e [] w -> world_after (e <| world := w |>) o w' -> world_after e o w'.
Proof.
  unfold world_after, signed, outputs. cbn. intros [Hs Ho] [Hs' Ho'].
  rewrite app_nil_r in Ho. by rewrite Hs', Ho', Hs, Ho.
Qed.

(** [r] is the outcome of an [emit] that left the environment [w]. *)
Definition emitted (o : EngineOutput) (e : engine) (w : World) (r : outcome ConsensusError unit)
  : Prop :=
  match r with
  | Ok _ => world_after e [o] w
  | OutOfFuel => False
  | _ => world_after e [] w
  end.

Lemma retry_send_after attempts o e :
  exists w r, retry_send attempts o e = (e <| world := w |>, r) /\ emitted o e w r.
Proof.
  revert e. induction attempts as [|attempts IH]; intros e.
  - exists (world e), (Err OutputChannelClosed). split; [by destruct e|].
    split; [done|by rewrite app_nil_r].
  - cbn [retry_send]. unfold mbind, st_bind. destruct (try_send_after o e) as (w & r & -> & Hw).
    destruct r as [[]|err| |]; try done; cbn beta match.
    + by exists w, (Ok tt).
    + destruct (IH (e <| world := w |>)) as (w' & r & -> & Hw').
      exists w', r. split; [done|]. destruct r; cbn in *; try done; by eapply world_after_trans.
    + by exists w, (Err OutputChannelClosed).
    + by exists w, Panic.
Qed.

Lemma emit_after o e : exists w r, emit o e = (e <| world := w |>, r) /\ emitted o e w r.
Proof.
  unfold emit, mbind, st_bind. destruct (try_send_after o e) as (w & r & -> & Hw).
  destruct r as [[]|err| |]; try done; cbn beta match.
  - by exists w, (Ok tt).
  - destruct (retry_send_after MAX_OUTPUT_SEND_RETRIES o (e <| world := w |>))
      as (w' & r & -> & Hw').
    exists w', r. split; [done|]. destruct r; cbn in *; try done; by eapply world_after_trans.
  - by exists w, (Err OutputChannelClosed).
  - by exists w, Panic.
Qed.

Lemma steps_world e w : world_after e [] w -> steps e (e <| world := w |>).
Proof. intros Hw. by apply rtc_once, A_frame, world_after_frame. Qed.

Lemma steps_sent o e w :
  output_signed (signed e) o -> output_committed (round_state e) o ->
  world_after e [o] w -> steps e (e <| world := w |>).
Proof.
  intros Ho Hc [Hs Hw]. eapply rtc_l; [by apply (A_emit e o)|].
  apply rtc_once, A_frame. by constructor.
Qed.

Lemma run_emit_bind {B} n o (k : unit -> M B) e :
  (J e -> output_signed (signed e) o) -> (J e -> output_committed (round_state e) o) ->
  (forall e' w, e' = e <| world := w |> -> world_after e [o] w -> J e' -> run n (k tt) e') ->
  run n (emit o ≫= k) e.
Proof.
  intros Ho Hc Hk. destruct (emit_after o e) as (w & r & He & Hw). apply run_bind.
  - intros HJ. rewrite He. cbn. split; [|split; [by destruct r|done]].
    destruct r; cbn in Hw; try done; try (by apply steps_world).
    by eapply steps_sent; auto.
  - intros [] e' He' HJ HJ'. rewrite He in He'.
    apply pair_equal_spec in He' as [<- ->]. by apply (Hk _ w).
Qed.

Lemma run_bind_ret {A} n (m : M A) e : run n (m ≫= mret) e -> run n m e.
Proof.
  unfold run, mbind, st_bind. intros Hm HJ. destruct (Hm HJ) as [Hs Hf].
  destruct (m e) as [e' [a|err| |]]; cbn in *; (split; [done|]); intros Hb;
    by destruct (Hf Hb).
Qed.

Lemma run_emit n o e :
  (J e -> output_signed (signed e) o) -> (J e -> output_committed (round_state e) o) ->
  run n (emit o) e.
Proof.
  intros Ho Hc. apply run_bind_ret, run_emit_bind; [done|done|]. intros ? ? _ _ _. apply run_ret.
Qed.

Lemma run_now {B} n (k : Instant -> M B) e :
  (forall e' w t, e' = e <| world := w |> -> world_after e [] w -> J e' -> run n (k t) e') ->
  run n (now ≫= k) e.
Proof.
  intros Hk. destruct (tick_after e) as (w & r & Ht & Hw & Hr).
  assert (Hnow : exists r', now e = (e <| world := w |>, r') /\ r' ≠ OutOfFuel).
  { unfold now, mbind, st_bind. rewrite Ht. destruct Hr as [->|[i ->]]; eexists; cbn;
      (split; [reflexivity|done]). }
  destruct Hnow as (r' & He & Hr'). apply run_bind.
  - intros HJ. rewrite He. split; [by apply steps_world|done].
  - intros t e' He' HJ HJ'. rewrite He in He'.
    apply pair_equal_spec in He' as [<- ->]. by apply (Hk _ w).
Qed.

(** *** Signatures and the vote log *)

Lemma run_sign {B} n f (k : BlsSignature -> M B) e :
  (J e -> astep e (e <| world ::= set w_signed (fun l => l ++ [f]) |>)) ->
  (forall e' sig, e' = e <| world ::= set w_signed (fun l => l ++ [f]) |> -> J e' ->
     run n (k sig) e') ->
  run n (sign_fact f ≫= k) e.
Proof.
  intros Hs Hk. apply run_bind.
  - apply run_bind; [by apply run_modify|]. intros. apply run_gets.
  - intros sig e'' He HJ HJ'. apply pair_equal_spec in He as [<- Ha].
    injection Ha as <-. by apply Hk.
Qed.

Lemma run_zoom {T A B} n (f : engine -> T) `{!Setter f} (m : ST T ConsensusError A)
  (k : A -> M B) e t r :
  m (f e) = (t, r) -> r ≠ OutOfFuel ->
  (J e -> astep e (e <| f := t |>)) -> (buffered (e <| f := t |>) <= buffered e)%nat ->
  (forall a e', r = Ok a -> e' = e <| f := t |> -> J e' -> run n (k a) e') ->
  run n (zoom f m ≫= k) e.
Proof.
  intros Hm Hr Hs Hb Hk. apply run_bind.
  - intros HJ. unfold zoom. rewrite Hm. split; [by apply rtc_once, Hs|done].
  - intros a e' He HJ HJ'. unfold zoom in He. rewrite Hm in He.
    apply pair_equal_spec in He as [<- ->]. by apply Hk.
Qed.

Lemma run_log_vote {B} n v (k : unit -> M B) e :
  is_u64 v -> last_voted_view (round_state e) = v ->
  (forall e' l, e' = e <| vote_log := l |> -> (last_vote_views l).1 = v -> J e' ->
     run n (k tt) e') ->
  run n (zoom vote_log (record_vote v) ≫= k) e.
Proof.
  intros Hu Hv Hk HJ. pose proof (J_log e HJ) as Hl.
  pose proof (record_vote_safe v (vote_log e) Hl Hu) as Hs.
  pose proof (A_log_vote e v Hu Hv) as Hstep. revert HJ.
  destruct (record_vote v (vote_log e)) as [l r] eqn:E. destruct Hs as (_ & _ & _ & Hr).
  eapply run_zoom; [done|by destruct r|done|done|].
  intros [] e' -> He' HJ'. by apply (Hk e' l).
Qed.

Lemma run_log_commit {B} n v (k : unit -> M B) e :
  is_u64 v -> last_commit_voted_view (round_state e) = v ->
  (forall e' l, e' = e <| vote_log := l |> -> (last_vote_views l).2 = v ->
     durable_lock l = durable_lock (vote_log e) -> J e' -> run n (k tt) e') ->
  run n (zoom vote_log (record_commit_vote v) ≫= k) e.
Proof.
  intros Hu Hv Hk HJ. pose proof (J_log e HJ) as Hl.
  pose proof (record_commit_vote_safe v (vote_log e) Hl Hu) as Hs.
  pose proof (A_log_commit e v Hu Hv) as Hstep. revert HJ.
  destruct (record_commit_vote v (vote_log e)) as [l r] eqn:E. destruct Hs as (_ & Hd & _ & Hr).
  eapply run_zoom; [done|by destruct r|done|done|].
  intros [] e' -> He' HJ'. by apply (Hk e' l).
Qed.

Lemma run_log_lock {B} n (k : unit -> M B) e :
  (forall e' l, e' = e <| vote_log := l |> ->
     durable_lock l = Some (locked_qc (round_state e)) -> J e' -> run n (k tt) e') ->
  run n (zoom vote_log (record_lock (locked_qc (round_state e))) ≫= k) e.
Proof.
  intros Hk HJ. pose proof (J_log e HJ) as Hl.
  pose proof (record_lock_safe (locked_qc (round_state e)) (vote_log e) Hl) as Hs.
  pose proof (A_log_lock e) as Hstep. revert HJ.
  destruct (record_lock _ (vote_log e)) as [l r] eqn:E. destruct Hs as (_ & _ & Hr).
  eapply run_zoom; [done|by destruct r|done|done|].
  intros [] e' -> He' HJ'. by apply (Hk e' l).
Qed.

Lemma run_modify_steps {B} n f (k : unit -> M B) e :
  (J e -> steps e (f e)) -> (buffered (f e) <= buffered e)%nat ->
  (forall e', e' = f e -> J e' -> run n (k tt) e') -> run n (modify f ≫= k) e.
Proof.
  intros Hs Hb Hk. apply run_bind; [by intros HJ; split; [apply Hs|]|].
  intros [] e' He _ HJ'. apply pair_equal_spec in He as [<- _]. by apply Hk.
Qed.

(** A step that takes a message out of the buffer pays for one level of
    recursion. *)
Lemma run_shrink {B} n f (k : unit -> M B) e :
  (J e -> astep e (f e)) -> (buffered (f e) < buffered e)%nat ->
  run n (k tt) (f e) -> run (S n) (modify f ≫= k) e.
Proof.
  intros Hs Hb Hk HJ. pose proof (Hs HJ) as Hstep.
  destruct (Hk (astep_J _ _ Hstep HJ)) as [Hs' Hf].
  unfold mbind, st_bind, modify. split; [by eapply rtc_l|].
  intros Hn. destruct Hf as [? ?]; [lia|]. split; [done|lia].
Qed.

(** *** Collectors and epochs *)

Lemma add_verified_vote_view i sig c :
  vc_view (add_verified_vote i sig c).1 = vc_view c /\ clean (add_verified_vote i sig c).2.
Proof.
  unfold add_verified_vote, mbind, st_bind, add_vote, modify.
  by destruct (vc_votes c !! i).
Qed.

Lemma run_on_some_vote {B} n i sig (k : unit -> M B) e :
  (forall e', signed e' = signed e -> J e' -> run n (k tt) e') ->
  run n (on_some vote_collector (add_verified_vote i sig) ≫= k) e.
Proof.
  intros Hk. unfold on_some. apply run_bind.
  - intros HJ. destruct (vote_collector e) as [c|] eqn:Ec; [|by split; [apply rtc_refl|]].
    pose proof (add_verified_vote_view i sig c) as [Hv Hc].
    destruct (add_verified_vote i sig c) as [c' r]. cbn in *.
    split; [|by split; [destruct r|]]. apply rtc_once, A_vote_collector.
    pose proof (J_vote_collector e HJ) as Hat. rewrite Ec in Hat. cbn in Hat. congruence.
  - intros [] e' He _ HJ'. apply Hk; [|done].
    case_match; [destruct (add_verified_vote _ _ _)|];
      by apply pair_equal_spec in He as [<- _].
Qed.

Lemma run_on_some_commit {B} n i sig (k : unit -> M B) e :
  (forall e', signed e' = signed e -> J e' -> run n (k tt) e') ->
  run n (on_some commit_collector (add_verified_vote i sig) ≫= k) e.
Proof.
  intros Hk. unfold on_some. apply run_bind.
  - intros HJ. destruct (commit_collector e) as [c|] eqn:Ec; [|by split; [apply rtc_refl|]].
    pose proof (add_verified_vote_view i sig c) as [Hv Hc].
    destruct (add_verified_vote i sig c) as [c' r]. cbn in *.
    split; [|by split; [destruct r|]]. apply rtc_once, A_commit_collector.
    pose proof (J_commit_collector e HJ) as Hat. rewrite Ec in Hat. cbn in Hat. congruence.
  - intros [] e' He _ HJ'. apply Hk; [|done].
    case_match; [destruct (add_verified_vote _ _ _)|];
      by apply pair_equal_spec in He as [<- _].
Qed.

Lemma clean_commit_pending m : clean (commit_pending_changes m).2.
Proof.
  unfold commit_pending_changes, mbind, st_bind, get, try_. cbn.
  destruct (negb (has_pending_changes m)); [done|]. cbn.
  destruct (validate_transition m (next_validators m)) eqn:Ev;
    [|done|unfold validate_transition in Ev; repeat case_match; done..].
  unfold stage_next_epoch, mbind, st_bind, try_, modify.
  destruct (try_new _ _) eqn:Et; cbn; try done;
    (unfold try_new in Et;
     assert (Hc : forall i l, clean (try_new_entries i l));
     [intros i l; revert i; induction l as [|v l IH]; intros i; cbn; [done|];
      destruct (validate _); try done; by apply clean_bind|];
     specialize (Hc 0%nat (next_validators m));
     unfold validate_params in Et; case_match; cbn in Et; [done|];
     destruct (try_new_entries 0 (next_validators m)); done).
Qed.

Lemma run_commit_pending {B} n (k : unit -> M B) e :
  (forall e', round_state e' = round_state e -> J e' -> run n (k tt) e') ->
  run n (zoom epoch_manager commit_pending_changes ≫= k) e.
Proof.
  intros Hk. destruct (commit_pending_changes (epoch_manager e)) as [m r] eqn:E.
  pose proof (clean_commit_pending (epoch_manager e)) as Hc. rewrite E in Hc.
  eapply run_zoom; [exact E|by destruct r| |done|intros [] e' _ -> HJ'; by apply Hk].
  intros _. apply (A_epoch e (fun _ => m)). intros Hwf.
  pose proof (commit_pending_wf (epoch_manager e) Hwf) as Hw. by rewrite E in Hw.
Qed.

(** *** Reads that may panic *)

Lemma leader_of_done v set (e : engine) : exists r, leader_of v set e = (e, r) /\ r ≠ OutOfFuel.
Proof. unfold leader_of. case_match; eexists; (split; [reflexivity|done]). Qed.

Lemma is_leader_done v (e : engine) :
  exists r, is_leader_for_view v e = (e, r) /\ r ≠ OutOfFuel.
Proof.
  unfold is_leader_for_view, leader_index_for_view, mbind, st_bind, get.
  destruct (local_validator_index_for_view e v); [|eexists; by split].
  destruct (leader_of_done v (engine_set_for_view e v) e) as (r & -> & Hr).
  destruct r; eexists; (split; [reflexivity|done]).
Qed.

Lemma run_leader_of {B} n v set (k : N -> M B) e :
  (forall l, run n (k l) e) -> run n (leader_of v set ≫= k) e.
Proof. intros Hk. destruct (leader_of_done v set e) as (r & Hr & ?). by eapply run_bind_done. Qed.

Lemma run_leader_index {B} n v (k : N -> M B) e :
  (forall l, run n (k l) e) -> run n (leader_index_for_view v ≫= k) e.
Proof.
  intros Hk. destruct (leader_of_done v (engine_set_for_view e v) e) as (r & Hr & ?).
  by eapply run_bind_done.
Qed.

Lemma run_is_leader {B} n v (k : bool -> M B) e :
  (forall l, run n (k l) e) -> run n (is_leader_for_view v ≫= k) e.
Proof. intros Hk. destruct (is_leader_done v e) as (r & Hr & ?). by eapply run_bind_done. Qed.

Lemma run_is_current_leader {B} n (k : bool -> M B) e :
  (forall l, run n (k l) e) -> run n (is_current_leader ≫= k) e.
Proof.
  intros Hk. destruct (is_leader_done (engine_view e) e) as (r & Hr & ?).
  by eapply run_bind_done.
Qed.
End run.
