(* ===== verification/Caches.v ===== *)
(** * The caches of the engine stay bounded

    Import evidence, the hashes and roots of pending proposals and the collectors
    of future timeouts are filled from the network.  [caches_wf] is their
    invariant: evidence is a set with a duplicate-free queue of at most 64
    entries, the bounded maps are well formed, and a future collector belongs to
    a view of the window.  [keeps I m] says that [m] preserves [I] from every
    state; the tactic [keeps] follows the structure of a handler. *)

From S2P Require Import Prelude Effects Crypto Messages Signing ValidatorSet Epoch EpochTheory.
From S2P Require Import Quorum QuorumTheory Fifo Pacemaker Round VoteLog Engine Handlers Machine.
From S2P Require Import Refinement.

Section keeps.
Context {S E : Type} (I : S -> Prop).

Definition keeps {A} (m : ST S E A) : Prop := forall s, I s -> I (m s).1.

Lemma keeps_bind {A B} (m : ST S E A) (k : A -> ST S E B) :
  keeps m -> (forall a, keeps (k a)) -> keeps (m ≫= k).
Proof.
  intros Hm Hk s Hs. unfold mbind, st_bind. specialize (Hm s Hs).
  destruct (m s) as [s' [a|err| |]]; cbn in *; [by apply Hk|done..].
Qed.
(** From one state, for an effect that relies on a test of that state. *)
Lemma keeps_at {A B} (m : ST S E A) (k : A -> ST S E B) s :
  I (m s).1 -> (forall a, keeps (k a)) -> I ((m ≫= k) s).1.
Proof.
  intros Hm Hk. unfold mbind, st_bind. destruct (m s) as [s' [a|err| |]]; cbn in *;
    [by apply Hk|done..].
Qed.
Lemma keeps_catch {A} (m : ST S E A) : keeps m -> keeps (catch m).
Proof.
  intros Hm s Hs. unfold catch. specialize (Hm s Hs). by destruct (m s) as [s' [a|err| |]].
Qed.
Lemma keeps_when b (m : ST S E unit) : keeps m -> keeps (when b m).
Proof. destruct b; [done|]. by intros _ s. Qed.
Lemma keeps_for_each {A} (f : A -> ST S E unit) l :
  (forall x, keeps (f x)) -> keeps (for_each f l).
Proof.
  intros Hf. induction l as [|x l IH]; cbn; [by intros s|]. by apply keeps_bind.
Qed.
Lemma keeps_ret {A} (a : A) : keeps (mret a).
Proof. by intros s. Qed.
Lemma keeps_fail {A} err : keeps (fail err : ST S E A).
Proof. by intros s. Qed.
Lemma keeps_panic {A} : keeps (panic : ST S E A).
Proof. by intros s. Qed.
Lemma keeps_out_of_fuel {A} : keeps (out_of_fuel : ST S E A).
Proof. by intros s. Qed.
Lemma keeps_get : keeps (get : ST S E S).
Proof. by intros s. Qed.
Lemma keeps_gets {A} (f : S -> A) : keeps (gets f : ST S E A).
Proof. by intros s. Qed.
Lemma keeps_try {A} (f : S -> result E A) : keeps (try_ f).
Proof. by intros s. Qed.
Lemma keeps_modify f : (forall s, I s -> I (f s)) -> keeps (modify f : ST S E unit).
Proof. done. Qed.
End keeps.

Create HintDb keeps discriminated.
#[export] Hint Constants Opaque : keeps.

Section caches.
Context {L : Type} `{VoteLogWriter L} {blst : Blst} {digest : Digest}.
Abbreviation engine := (ConsensusEngine L).
Abbreviation M := (@M L).

Record caches_wf (e : engine) : Prop := {
  cw_tx : fifo_wf (pending_tx_roots e) /\ bf_capacity (pending_tx_roots e) = 64%nat;
  cw_changes : fifo_wf (pending_changes_hashes e) /\
    bf_capacity (pending_changes_hashes e) = 64%nat;
  cw_queue : NoDup (imported_block_fifo e);
  cw_evidence : forall h, h ∈ imported_blocks e <-> h ∈ imported_block_fifo e;
  cw_imports : (length (imported_block_fifo e) <= MAX_IMPORTED_BLOCKS)%nat;
  cw_future : forall v c, future_timeout_collectors e !! v = Some c ->
    engine_view e < v /\ v <= engine_view e +s FUTURE_VIEW_WINDOW
}.

(** The part of the state [caches_wf] speaks about. *)
Definition caches (e : engine) :=
  (pending_tx_roots e, pending_changes_hashes e, imported_block_fifo e, imported_blocks e,
   future_timeout_collectors e, engine_view e).

Lemma caches_frame (e e' : engine) : caches e' = caches e -> caches_wf e -> caches_wf e'.
Proof.
  unfold caches. intros E. injection E as E1 E2 E3 E4 E5 E6.
  intros []. constructor; rewrite ?E1, ?E2, ?E3, ?E4, ?E5, ?E6; done.
Qed.

Lemma insert_capacity {K V} `{Countable K} k (v : V) (f : BoundedFifoMap K V) :
  bf_capacity (fifo_insert k v f) = bf_capacity f.
Proof. unfold fifo_insert, fifo_evict. repeat case_match; done. Qed.
Lemma remove_capacity {K V} `{Countable K} k (f : BoundedFifoMap K V) :
  bf_capacity (fifo_remove k f).1 = bf_capacity f.
Proof. unfold fifo_remove. by case_match. Qed.

Lemma caches_at {A B} (m : M A) (k : A -> M B) e :
  caches_wf (m e).1 -> (forall a, keeps caches_wf (k a)) -> caches_wf ((m ≫= k) e).1.
Proof. apply keeps_at. Qed.

(** ** Single effects *)

Lemma keeps_frame f : (forall e, caches (f e) = caches e) -> keeps caches_wf (modify f : M unit).
Proof. intros Hf e. apply caches_frame, Hf. Qed.

Lemma keeps_round f :
  (forall r, current_view (f r) = current_view r) ->
  keeps caches_wf (modify (fun e => e <| round_state ::= f |>) : M unit).
Proof. intros Hf. apply keeps_frame. intros e. unfold caches, engine_view. cbn. by rewrite Hf. Qed.

Lemma keeps_emit o : keeps caches_wf (emit o : M unit).
Proof.
  intros e. destruct (emit_after o e) as (w & r & -> & _). by apply caches_frame.
Qed.
Lemma keeps_now : keeps caches_wf (now : M Instant).
Proof.
  intros e. unfold now, mbind, st_bind.
  destruct (tick_after e) as (w & r & -> & _ & [->|[n ->]]); by apply caches_frame.
Qed.
Lemma keeps_sign f : keeps caches_wf (sign_fact f : M BlsSignature).
Proof. apply keeps_bind; [by apply keeps_frame|]. intros _. apply keeps_gets. Qed.
Lemma keeps_log {A} (m : ST L ConsensusError A) : keeps caches_wf (zoom vote_log m : M A).
Proof. intros e. unfold zoom. destruct (m (vote_log e)). by apply caches_frame. Qed.
Lemma keeps_epochs {A} (m : ST EpochManager ConsensusError A) :
  keeps caches_wf (zoom epoch_manager m : M A).
Proof. intros e. unfold zoom. destruct (m (epoch_manager e)). by apply caches_frame. Qed.
Lemma keeps_votes m : keeps caches_wf (on_some vote_collector m : M unit).
Proof.
  intros e. unfold on_some. case_match; [|done]. case_match. by apply caches_frame.
Qed.
Lemma keeps_commits m : keeps caches_wf (on_some commit_collector m : M unit).
Proof.
  intros e. unfold on_some. case_match; [|done]. case_match. by apply caches_frame.
Qed.
Lemma keeps_leader_of v set : keeps caches_wf (leader_of v set : M N).
Proof. unfold leader_of. case_match; by intros e. Qed.
Lemma keeps_lift {A} (r : cresult A) : keeps caches_wf (lift r : M A).
Proof. apply keeps_try. Qed.

Lemma keeps_tx_insert k v :
  keeps caches_wf (modify (fun e => e <| pending_tx_roots ::= fifo_insert k v |>) : M unit).
Proof.
  intros e [[Ht Hc] ? ? ? ? ?]. constructor; try done.
  split; [by apply fifo_insert_wf|]. by etrans; [apply insert_capacity|].
Qed.
Lemma keeps_tx_remove k :
  keeps caches_wf
    (modify (fun e => e <| pending_tx_roots ::= (fun f => (fifo_remove k f).1) |>) : M unit).
Proof.
  intros e [[Ht Hc] ? ? ? ? ?]. constructor; try done.
  split; [by apply fifo_remove_wf|]. by etrans; [apply remove_capacity|].
Qed.
Lemma keeps_changes_insert k v :
  keeps caches_wf (modify (fun e => e <| pending_changes_hashes ::= fifo_insert k v |>) : M unit).
Proof.
  intros e [? [Ht Hc] ? ? ? ?]. constructor; try done.
  split; [by apply fifo_insert_wf|]. by etrans; [apply insert_capacity|].
Qed.

Lemma keeps_enter_view t v : keeps caches_wf (modify (enter_view t v) : M unit).
Proof.
  intros e [Ht Hc Hn He Hl Hf]. unfold enter_view, reset_view_state.
  assert (Hview : forall w c, filter (fun kv : N * TimeoutCollector =>
      v < kv.1 /\ kv.1 <= v +s FUTURE_VIEW_WINDOW) (future_timeout_collectors e) !! w = Some c ->
    current_view (advance_view v (round_state e)) < w /\
    w <= current_view (advance_view v (round_state e)) +s FUTURE_VIEW_WINDOW).
  { intros w c [Hw [Hlo Hhi]]%map_lookup_filter_Some. cbn in Hlo, Hhi. apply Hf in Hw.
    unfold engine_view, advance_view in *. by case_match. }
  cbn. destruct (is_gov5 (signing_profile e)); constructor; cbn; try done.
  - apply NoDup_nil_2.
  - intros h. split; [by intros ?%not_elem_of_empty|by intros ?%not_elem_of_nil].
  - lia.
Qed.

(** Any part of the import evidence may be dropped. *)
Lemma keeps_forget (f : engine -> engine) :
  (forall e, pending_tx_roots (f e) = pending_tx_roots e /\
     pending_changes_hashes (f e) = pending_changes_hashes e /\
     future_timeout_collectors (f e) = future_timeout_collectors e /\
     engine_view (f e) = engine_view e /\
     ((imported_blocks (f e) = imported_blocks e /\
       imported_block_fifo (f e) = imported_block_fifo e) \/
      (imported_blocks (f e) = ∅ /\ imported_block_fifo (f e) = []))) ->
  keeps caches_wf (modify f : M unit).
Proof.
  intros Hf e [Ht Hc Hn He Hl Hv]. cbn.
  destruct (Hf e) as (E1 & E2 & E3 & E4 & [[E5 E6]|[E5 E6]]);
    constructor; rewrite ?E1, ?E2, ?E3, ?E4, ?E5, ?E6; try done.
  - apply NoDup_nil_2.
  - intros h. split; [by intros ?%not_elem_of_empty|by intros ?%not_elem_of_nil].
  - cbn. lia.
Qed.

Lemma keeps_future view (c : TimeoutCollector) e :
  engine_view e < view -> view <= engine_view e +s FUTURE_VIEW_WINDOW ->
  caches_wf e -> caches_wf (e <| future_timeout_collectors ::= <[view := c]> |>).
Proof.
  intros Hlo Hhi [Ht Hc Hn He Hl Hv]. constructor; cbn; try done.
  intros v c'. rewrite lookup_insert_Some. intros [[<- _]|[_ Hin]]; [done|by eapply Hv].
Qed.
Lemma keeps_future_delete view :
  keeps caches_wf (modify (fun e => e <| future_timeout_collectors ::= delete view |>) : M unit).
Proof.
  intros e [Ht Hc Hn He Hl Hv]. constructor; cbn; try done.
  intros v c [_ Hin]%lookup_delete_Some. by eapply Hv.
Qed.

(** ** Import evidence *)

(** One turn of the queue finds the oldest entry that is not the live one. *)
Lemma evict_imported_spec n live (fifo : list B256) fifo' out :
  evict_imported n live fifo = (fifo', out) -> NoDup fifo ->
  match out with
  | Some h => fifo ≡ₚ h :: fifo' /\ Some h ≠ live
  | None => fifo ≡ₚ fifo' /\ forall h, h ∈ take n fifo -> Some h = live
  end.
Proof.
  revert fifo. induction n as [|n IH]; intros fifo E Hnd; cbn in E.
  { simplify_eq. split; [done|]. by intros h ?%not_elem_of_nil. }
  destruct fifo as [|x fifo].
  { simplify_eq. split; [done|]. by intros h ?%not_elem_of_nil. }
  case_bool_decide as Hx; [|by simplify_eq].
  assert (Hp : x :: fifo ≡ₚ fifo ++ [x]) by (by rewrite Permutation_cons_append).
  assert (Hnd' : NoDup (fifo ++ [x])) by (by rewrite <- Hp).
  specialize (IH _ E Hnd'). destruct out as [h|], IH as [IHp IH].
  - split; [by rewrite Hp|done].
  - split; [by rewrite Hp|]. intros h [->|Hh]%elem_of_cons; [done|].
    apply IH. destruct (decide (n <= length fifo)%nat).
    + by rewrite take_app_le.
    + rewrite take_ge by (rewrite length_app; cbn; lia). rewrite elem_of_app. left.
      by eapply elem_of_subseteq; [|exact Hh]; apply subseteq_take.
Qed.

Lemma evict_oldest_spec (e : engine) :
  NoDup (imported_block_fifo e) -> (2 <= length (imported_block_fifo e))%nat ->
  exists h e', evict_oldest_imported_block e = (e', Ok tt) /\
    imported_block_fifo e ≡ₚ h :: imported_block_fifo e' /\
    imported_blocks e' = imported_blocks e ∖ {[h]} /\
    Some h ≠ pp_block_hash <$> pending_proposal e /\
    pending_proposal e' = pending_proposal e /\
    (pending_tx_roots e', pending_changes_hashes e', future_timeout_collectors e', engine_view e')
    = (pending_tx_roots e, pending_changes_hashes e, future_timeout_collectors e, engine_view e).
Proof.
  intros Hnd Hlen. unfold evict_oldest_imported_block, modify.
  set (live := pp_block_hash <$> pending_proposal e).
  destruct (evict_imported _ live _) as [fifo [h|]] eqn:Ev;
    pose proof (evict_imported_spec _ _ _ _ _ Ev Hnd) as [Hp Hl].
  - exists h. eexists. by split.
  - exfalso. rewrite firstn_all in Hl.
    destruct (imported_block_fifo e) as [|x [|y l]]; [cbn in Hlen; lia..|].
    apply NoDup_cons in Hnd as [Hx _]. apply Hx. 
    assert (Some y = Some x) as [= ->]; [|left].
    etrans; [apply Hl; right; left|symmetry; apply Hl; left].
Qed.

Lemma record_import_spec h (e : engine) :
  caches_wf e -> h ∉ imported_blocks e ->
  exists e', record_import h e = (e', Ok tt) /\ caches_wf e' /\ h ∈ imported_blocks e' /\
    (forall p, pending_proposal e = Some p -> pp_block_hash p ∈ imported_blocks e ->
       pp_block_hash p ∈ imported_blocks e').
Proof.
  intros [Ht Hc Hn He Hl Hv] Hh. assert (Hq : h ∉ imported_block_fifo e) by (by rewrite <- He).
  unfold record_import, when, mbind, st_bind, get, modify. cbv beta iota.
  remember (e <| imported_blocks ::= (fun s => {[h]} ∪ s) |>) as e1 eqn:He1.
  assert (Hf1 : imported_block_fifo e1 = imported_block_fifo e) by (by subst e1).
  assert (Hb1 : imported_blocks e1 = {[h]} ∪ imported_blocks e) by (by subst e1).
  assert (Hp1 : pending_proposal e1 = pending_proposal e) by (by subst e1).
  rewrite Hf1. destruct (MAX_IMPORTED_BLOCKS <=? _)%nat eqn:Em; bool_simpl.
  - destruct (evict_oldest_spec e1) as (x & e2 & -> & Hp & Hb & Hlive & Hpp & Hrest);
      [by rewrite Hf1|rewrite Hf1; unfold MAX_IMPORTED_BLOCKS in Em; lia|].
    rewrite Hf1 in Hp. rewrite Hb1 in Hb. rewrite Hp1 in Hlive.
    injection Hrest as E3 E4 E5 E6. subst e1. cbn in E3, E4, E5, E6.
    rewrite Hp in Hq, Hn. apply not_elem_of_cons in Hq as [Hne Hq].
    apply NoDup_cons in Hn as [Hx Hn].
    eexists. split; [reflexivity|]. split_and!.
    + constructor; unfold engine_view in *; cbn; rewrite ?E3, ?E4, ?E5, ?E6; try done.
      * by apply NoDup_snoc.
      * intros k. rewrite Hb, elem_of_app, list_elem_of_singleton, elem_of_difference, elem_of_union,
          !elem_of_singleton, He, Hp, elem_of_cons. naive_solver.
      * rewrite length_app. cbn. apply Permutation_length in Hp. cbn in Hp. lia.
    + cbn. rewrite Hb. set_solver.
    + cbn. intros p Ep Hin. rewrite Ep in Hlive. rewrite Hb. cbn in Hlive. set_solver.
  - eexists. split; [reflexivity|]. subst e1. split_and!.
    + constructor; cbn; try done.
      * by apply NoDup_snoc.
      * intros k. rewrite elem_of_app, list_elem_of_singleton, elem_of_union, elem_of_singleton, He.
        naive_solver.
      * rewrite length_app. cbn. lia.
    + cbn. set_solver.
    + cbn. set_solver.
Qed.
End caches.

#[export] Hint Resolve keeps_emit keeps_now keeps_sign keeps_log keeps_epochs keeps_votes
  keeps_commits keeps_leader_of keeps_lift keeps_tx_insert keeps_tx_remove keeps_changes_insert
  keeps_enter_view keeps_future_delete : keeps.

Ltac keeps_modify :=
  first
    [ apply keeps_round; intros; unfold update_locked_qc, rs_commit, update_locked_qc;
      repeat case_match; reflexivity
    | apply keeps_frame; intros; repeat case_match; reflexivity ].

Ltac keeps :=
  repeat (cbn zeta beta; first
    [ solve [trivial with keeps]
    | lazymatch goal with
      | |- keeps _ (mret _) => apply keeps_ret
      | |- keeps _ (fail _) => apply keeps_fail
      | |- keeps _ panic => apply keeps_panic
      | |- keeps _ out_of_fuel => apply keeps_out_of_fuel
      | |- keeps _ get => apply keeps_get
      | |- keeps _ (gets _) => apply keeps_gets
      | |- keeps _ (try_ _) => apply keeps_try
      | |- keeps _ (_ ≫= _) => apply keeps_bind; [|intros ?]
      | |- keeps _ (catch _) => apply keeps_catch
      | |- keeps _ (when _ _) => apply keeps_when
      | |- keeps _ (for_each _ _) => apply keeps_for_each; intros
      | |- keeps _ (modify _) => solve [keeps_modify]
      | |- keeps _ (match ?x with _ => _ end) => destruct x
      end ]).

Section handlers.
Context {L : Type} `{VoteLogWriter L} {blst : Blst} {digest : Digest}.
Abbreviation engine := (ConsensusEngine L).
Abbreviation M := (@M L).
Abbreviation kept := (keeps (caches_wf (L := L))).

Lemma keeps_leader_index v : kept (leader_index_for_view v).
Proof. unfold leader_index_for_view. keeps. Qed.
Lemma keeps_is_leader v : kept (is_leader_for_view v).
Proof. unfold is_leader_for_view, leader_index_for_view. keeps. Qed.
Hint Resolve keeps_leader_index keeps_is_leader : keeps.
Lemma keeps_current_leader : kept is_current_leader.
Proof. unfold is_current_leader. keeps. Qed.
Hint Resolve keeps_current_leader : keeps.

Lemma keeps_send_vote v h : kept (send_vote v h).
Proof. unfold send_vote. keeps. Qed.
Hint Resolve keeps_send_vote : keeps.

Lemma keeps_block_imported h p : kept (on_block_imported h p).
Proof.
  intros e He. unfold on_block_imported.
  rewrite bind_get. apply caches_at; [|intros _; keeps].
  unfold when. case_bool_decide as Hh; [|done].
  by destruct (record_import_spec h e He Hh) as (e' & -> & Hw & _).
Qed.

Lemma keeps_recover_late p : kept (recover_late_committed_proposal p).
Proof. unfold recover_late_committed_proposal. keeps. Qed.
Lemma keeps_process_prepare_qc pqc : kept (process_prepare_qc pqc).
Proof. unfold process_prepare_qc. keeps. Qed.
Lemma keeps_process_proposal p : kept (process_proposal p).
Proof.
  unfold process_proposal, accept_proposal, accept_piggybacked, accept_changes, gated_vote. keeps.
Qed.
Hint Resolve keeps_block_imported keeps_recover_late keeps_process_prepare_qc
  keeps_process_proposal : keeps.

Lemma keeps_sync_index : kept sync_local_validator_index.
Proof. unfold sync_local_validator_index. keeps. Qed.
Lemma keeps_cross_epochs fuel target : kept (cross_epochs fuel target).
Proof. induction fuel as [|fuel IH]; cbn [cross_epochs]; unfold cross_epoch; keeps. Qed.
Hint Resolve keeps_sync_index keeps_cross_epochs : keeps.

Section rec.
Variable rec : ConsensusMessage -> M unit.
Hypothesis keeps_rec : forall msg, kept (rec msg).

Lemma keeps_advance v : kept (advance_to_view rec v).
Proof. unfold advance_to_view, settle_view, replay_one. keeps. Qed.
Hint Resolve keeps_advance : keeps.
Lemma keeps_notify v : kept (advance_and_notify rec v).
Proof. unfold advance_and_notify. keeps. Qed.
Hint Resolve keeps_notify : keeps.
Lemma keeps_commit_qc : kept (try_form_commit_qc rec).
Proof. unfold try_form_commit_qc, commit_signed_changes. keeps. Qed.
Hint Resolve keeps_commit_qc : keeps.
Lemma keeps_prepare_qc : kept (try_form_prepare_qc rec).
Proof. unfold try_form_prepare_qc. keeps. Qed.
Hint Resolve keeps_prepare_qc : keeps.
Lemma keeps_vote v b : kept (process_vote_inner rec v b).
Proof. unfold process_vote_inner, check_signature, collect_vote. keeps. Qed.
Lemma keeps_commit_vote cv b : kept (process_commit_vote_inner rec cv b).
Proof. unfold process_commit_vote_inner, check_signature, collect_vote. keeps. Qed.
Lemma keeps_decide d : kept (process_decide rec d).
Proof. unfold process_decide, decide_changes. keeps. Qed.
Lemma keeps_with_tc tc v : kept (advance_with_tc rec tc v).
Proof. unfold advance_with_tc. keeps. Qed.
Hint Resolve keeps_vote keeps_commit_vote keeps_decide keeps_with_tc : keeps.
Lemma keeps_timeout t : kept (process_timeout rec t).
Proof. unfold process_timeout, try_form_tc_and_advance. keeps. Qed.
Hint Resolve keeps_timeout : keeps.
Lemma keeps_on_timeout : kept (on_timeout rec).
Proof.
  unfold on_timeout, reset_pacemaker, own_timeout, try_form_tc_and_advance. keeps.
  apply keeps_forget. intros e. cbn zeta. destruct (is_gov5 _); split_and!; auto.
Qed.
Lemma keeps_new_view nv : kept (process_new_view rec nv).
Proof. unfold process_new_view. keeps. Qed.
Hint Resolve keeps_on_timeout keeps_new_view : keeps.

(** The collector is stored for a view of the window of the state it is stored
    in: relaying the timeout before does not change the view. *)
Lemma keeps_future_insert view (c : TimeoutCollector) b o (k : unit -> M bool) (e : engine) :
  caches_wf e -> engine_view e < view -> view <= engine_view e +s FUTURE_VIEW_WINDOW ->
  (forall a, kept (k a)) ->
  caches_wf ((when b (emit o) ;;
              modify (fun e => e <| future_timeout_collectors ::= <[view := c]> |>) ≫= k) e).1.
Proof.
  intros He Hlo Hhi Hk.
  assert (Hins : forall w, caches_wf
    ((modify (fun e => e <| future_timeout_collectors ::= <[view := c]> |>) ≫= k)
       (e <| world := w |>)).1).
  { intros w. apply caches_at; [|done]. apply keeps_future; [done|done|]. by apply (caches_frame e). }
  destruct b; cbn [when].
  - unfold mbind at 1, st_bind. destruct (emit_after o e) as (w & r & -> & _).
    destruct r; [apply Hins|by apply (caches_frame e)..].
  - specialize (Hins (world e)). by destruct e.
Qed.

Lemma keeps_collect_future t : kept (collect_future_timeout rec t).
Proof.
  intros e He. unfold collect_future_timeout, join_future_timeout.
  change ((get ≫= ?k) e) with (k e e). cbn zeta beta.
  destruct (_ || _) eqn:Ew; [done|]. bool_simpl.
  destruct (known_validator_set_for_view _ (t_view t)) as [set|]; [|done].
  destruct (known_validator_set_for_view _ _) as [next_set|]; [|done].
  destruct (get_public_key _ _) as [pk|err| |]; [|done..].
  change ((lift (Ok pk) ≫= ?k) e) with (k pk e). cbn beta.
  destruct (verify_single _ _ _ _); [|done]. cbn [negb].
  destruct (verify_embedded_qc _ _) as [[]|err| |]; [|done..].
  change ((lift (Ok tt) ≫= ?k) e) with (k tt e). cbn beta. unfold leader_of.
  destruct (leader_for_view _ _) as [l|]; [|done].
  change (((mret l : M N) ≫= ?k) e) with (k l e). cbn beta.
  destruct (add_verified_timeout _ _ _ _) as [collector added].
  apply keeps_future_insert; [done|done|done|]. intros _. keeps; apply keeps_future_delete.
Qed.
Hint Resolve keeps_collect_future : keeps.

Lemma keeps_block_ready h r : kept (on_block_ready rec h r).
Proof. unfold on_block_ready. keeps. Qed.
Hint Resolve keeps_block_ready : keeps.

Lemma keeps_dispatch_body msg proof : kept (dispatch_body rec msg proof).
Proof.
  unfold dispatch_body, process_verified_vote, process_vote, process_verified_commit_vote,
    process_commit_vote. keeps.
Qed.
Hint Resolve keeps_dispatch_body : keeps.
Lemma keeps_jump msg : kept (try_qc_view_jump rec msg).
Proof. unfold try_qc_view_jump. keeps. Qed.
Hint Resolve keeps_jump : keeps.
Lemma keeps_message msg proof : kept (process_message_body rec msg proof).
Proof. unfold process_message_body, after_jump, push_future. keeps. Qed.
Hint Resolve keeps_message : keeps.
Lemma keeps_event event : kept (process_event_body rec event).
Proof. unfold process_event_body. keeps. Qed.
End rec.

Lemma keeps_dispatch fuel msg : kept (dispatch_message fuel msg).
Proof.
  revert msg. induction fuel as [|fuel IH]; intros msg; cbn [dispatch_message].
  - apply keeps_out_of_fuel.
  - by apply keeps_dispatch_body.
Qed.
End handlers.
