(* ===== verification/HandlerSteps.v ===== *)
(** * The handlers only make atomic steps

    One lemma per handler, proved by the tactic [walk], which follows the code
    and leaves the guards of the steps; then the recursion on fuel, and the
    statement for the public entry points. *)

From S2P Require Import Prelude Effects Crypto Messages Signing ValidatorSet Epoch EpochTheory.
From S2P Require Import Quorum QuorumTheory Fifo Pacemaker Round VoteLog Engine Handlers Machine.
From S2P Require Import Refinement.

Section lemmas.
Context {L : Type} `{CrashSafe L} {blst : Blst} {digest : Digest}.
Abbreviation engine := (ConsensusEngine L).
Abbreviation M := (@M L).

Lemma run_mret_bind {A B} n (a : A) (k : A -> M B) e : run n (k a) e -> run n (mret a ≫= k) e.
Proof. done. Qed.
Lemma run_fail_bind {A B} n err (k : A -> M B) e : run n (fail err ≫= k) e.
Proof. by eapply run_bind_done. Qed.

Lemma run_assoc {A B C} n (m : M A) (k : A -> M B) (k' : B -> M C) e :
  run n (m ≫= fun a => k a ≫= k') e -> run n ((m ≫= k) ≫= k') e.
Proof.
  unfold run, mbind, st_bind. destruct (m e) as [e' [a|err| |]]; done.
Qed.

Lemma run_when_bind {B} n b (m : M unit) (k : unit -> M B) e :
  (b = true -> run n (m ≫= k) e) -> (b = false -> run n (k tt) e) ->
  run n (when b m ≫= k) e.
Proof. destruct b; auto. Qed.

Lemma a_round e f :
  (forall r, round_le r (f r)) -> (forall r, same_voted r (f r)) ->
  (forall r, current_view (f r) = current_view r) ->
  astep e (e <| round_state ::= f |>).
Proof. intros. by apply A_round. Qed.

Lemma a_lock qc (e : engine) : astep e (e <| round_state ::= update_locked_qc qc |>).
Proof.
  apply a_round; [auto with n42|..]; intros r; unfold update_locked_qc; by case_match.
Qed.
Lemma a_commit qc (e : engine) : astep e (e <| round_state ::= rs_commit qc |>).
Proof.
  apply a_round; [auto with n42|..]; intros r; unfold rs_commit, update_locked_qc;
    repeat case_match; done.
Qed.
Lemma a_voting (e : engine) : astep e (e <| round_state ::= enter_voting |>).
Proof. by apply a_round; [auto with n42|..]. Qed.
Lemma a_pre_commit (e : engine) : astep e (e <| round_state ::= enter_pre_commit |>).
Proof. by apply a_round; [auto with n42|..]. Qed.
Lemma a_timeout (e : engine) : astep e (e <| round_state ::= rs_timeout |>).
Proof. by apply a_round; [auto with n42|..]. Qed.
Lemma a_reset (e : engine) : astep e (e <| round_state ::= reset_consecutive_timeouts |>).
Proof. by apply a_round; [auto with n42|..]. Qed.
Lemma a_pending changes (e : engine) :
  astep e (e <| epoch_manager ::= replace_pending_from_proposal changes |>).
Proof. apply A_epoch, replace_pending_wf. Qed.

Lemma committed_after_commit qc r :
  qc_view qc <= qc_view (last_committed_qc (rs_commit qc r)).
Proof.
  unfold rs_commit. cbn. case_match; bool_simpl; cbn; [done|lia].
Qed.
End lemmas.

Create HintDb astep discriminated.
#[export] Hint Constants Opaque : astep.
#[export] Hint Resolve a_lock a_commit a_voting a_pre_commit a_timeout a_reset a_pending : astep.

Ltac solve_astep :=
  intros; cbn beta;
  first [ solve [auto with astep] | apply A_frame; repeat case_match; constructor; reflexivity ].

Ltac solve_buffered := repeat case_match; reflexivity.

(** One construct of a handler.  Every change of the state introduces a new
    name for it, with the equation that defines it. *)
Ltac intros_state :=
  let e' := fresh "e" in let He := fresh "He" in let HJ := fresh "HJ" in intros e' He HJ.
Ltac intros_world :=
  let e' := fresh "e" in let w := fresh "w" in let He := fresh "He" in
  let Hw := fresh "Hw" in let HJ := fresh "HJ" in intros e' w He Hw HJ.

Ltac walk_step :=
  cbn zeta beta;
  lazymatch goal with
  | |- run _ (mret _) _ => apply run_ret
  | |- run _ (fail _) _ => apply run_fail
  | |- run _ panic _ => apply run_panic
  | |- run _ (gets _) _ => apply run_gets
  | |- run _ (emit _) _ => apply run_emit; [try (intros _; exact I)|try (intros _; exact I)]
  | |- run _ (modify _) _ => apply run_modify; [try solve_astep|try solve_buffered]
  | |- run _ (mret _ ≫= _) _ => apply run_mret_bind
  | |- run _ (fail _ ≫= _) _ => apply run_fail_bind
  | |- run _ ((_ ≫= _) ≫= _) _ => apply run_assoc
  | |- run _ (get ≫= _) _ => apply run_get; let HJ := fresh "HJ" in intros HJ
  | |- run _ (gets _ ≫= _) _ => apply run_gets_bind
  | |- run _ (lift _ ≫= _) _ =>
      apply run_lift; [auto with clean|let a := fresh "a" in let Ha := fresh "Ha" in intros a Ha]
  | |- run _ (try_ _ ≫= _) _ =>
      apply run_try; [auto with clean|let a := fresh "a" in let Ha := fresh "Ha" in intros a Ha]
  | |- run _ (now ≫= _) _ =>
      apply run_now; let e' := fresh "e" in let w := fresh "w" in let t := fresh "t" in
      let He := fresh "He" in let Hw := fresh "Hw" in let HJ := fresh "HJ" in
      intros e' w t He Hw HJ
  | |- run _ (emit _ ≫= _) _ =>
      apply run_emit_bind; [try (intros _; exact I)|try (intros _; exact I)|intros_world]
  | |- run _ (modify _ ≫= _) _ =>
      apply run_modify_bind; [try solve_astep|try solve_buffered|intros_state]
  | |- run _ (when _ _ ≫= _) _ => apply run_when_bind; intros ?
  | |- run _ (when _ _) _ => apply run_when; intros ?
  | |- run _ (leader_of _ _ ≫= _) _ => apply run_leader_of; intros ?
  | |- run _ (leader_index_for_view _ ≫= _) _ => apply run_leader_index; intros ?
  | |- run _ (is_leader_for_view _ ≫= _) _ => apply run_is_leader; intros ?
  | |- run _ (is_current_leader ≫= _) _ => apply run_is_current_leader; intros ?
  | |- run _ (zoom epoch_manager commit_pending_changes ≫= _) _ =>
      apply run_commit_pending; intros_state
  | |- run _ ((match ?x with _ => _ end) ≫= _) _ => destruct x eqn:?
  | |- run _ (match ?x with _ => _ end) _ => destruct x eqn:?
  end.
Ltac walk := repeat walk_step.

Section follower.
Context {L : Type} `{CrashSafe L} {blst : Blst} {digest : Digest}.
Abbreviation engine := (ConsensusEngine L).
Abbreviation M := (@M L).

Lemma fresh_vote (e : engine) v :
  J e -> may_vote_in (round_state e) v = true -> v ∉ vote_views (signed e).
Proof.
  intros HJ Hm Hin. apply (J_votes e HJ) in Hin. pose proof (J_r1 e HJ).
  unfold may_vote_in in Hm. bool_simpl. lia.
Qed.

Lemma fresh_commit (e : engine) v :
  J e -> may_commit_vote_in (round_state e) v = true -> v ∉ commit_views (signed e).
Proof.
  intros HJ Hm Hin. apply (J_commits e HJ) in Hin as [Hin _]. pose proof (J_r2 e HJ).
  unfold may_commit_vote_in in Hm. bool_simpl. lia.
Qed.

Lemma run_send_vote n view h (e : engine) : is_u64 view -> run n (send_vote view h) e.
Proof.
  intros Hu. unfold send_vote. walk; bool_simpl.
  - intros _. by apply A_mark_vote.
  - subst e0. apply run_log_vote; [done|done|]. intros e1 l -> Hl HJ1. walk.
    apply run_sign; [intros _; apply A_sign_vote; [done|by apply (fresh_vote e)]|].
    intros e2 sig He2 HJ2. walk. intros _. destruct Hw as [Hw _]. subst.
    unfold signed in *. cbn in *. rewrite Hw. set_solver.
Qed.

Lemma run_evict n (e : engine) : run n evict_oldest_imported_block e.
Proof. unfold evict_oldest_imported_block. walk. Qed.

Lemma run_on_block_imported n h p (e : engine) : run n (on_block_imported h p) e.
Proof.
  unfold on_block_imported, record_import. walk_step. apply run_bind.
  { walk; apply run_bind; [apply run_evict|]; intros; walk. }
  intros _ e1 _ _ HJ1. walk_step. apply run_bind; [walk|].
  intros _ e2 _ _ HJ2. walk. bool_simpl.
  apply run_send_vote. replace (pp_view _) with (engine_view e2) by done. by apply J_view.
Qed.

Lemma run_recover_late n p (e : engine) : run n (recover_late_committed_proposal p) e.
Proof. unfold recover_late_committed_proposal. walk. Qed.

(** The lock is on disk before the R2 vote that relies on it is signed. *)
Lemma run_cast_commit {B} n view h (k : engine -> BlsSignature -> M B) (e : engine) :
  is_u64 view -> may_commit_vote_in (round_state e) view = true ->
  view <= qc_view (locked_qc (round_state e)) -> J e ->
  (forall e0 e' sig c, SCommit view h c ∈ signed e' -> J e' -> run n (k e0 sig) e') ->
  run n (zoom vote_log (record_lock (locked_qc (round_state e))) ;;
         modify (fun e => e <| round_state ::= rs_record_commit_vote view |>) ;;
         zoom vote_log (record_commit_vote view) ;;
         e ← get;
         commit_sig ← sign_fact (SCommit view h (cached_changes_hash e h));
         k e commit_sig) e.
Proof.
  intros Hu Hm Hlock HJ Hk. apply run_log_lock. intros e1 l -> Hl _. walk.
  { intros _. by apply A_mark_commit. }
  subst e0. apply run_log_commit; [done|done|]. intros e1 l' -> Hl' Hd _. walk.
  apply run_sign.
  - intros _. apply A_sign_commit; [done| |done|by apply (fresh_commit e)].
    unfold lock_durable. cbn in *. by rewrite Hd, Hl.
  - intros e2 sig -> HJ2. eapply Hk; [|done]. unfold signed. cbn.
    apply elem_of_app. right. by apply list_elem_of_singleton.
Qed.

Lemma run_process_prepare_qc n pqc (e : engine) : run n (process_prepare_qc pqc) e.
Proof.
  unfold process_prepare_qc. walk. bool_simpl. eapply run_cast_commit.
  - by apply J_view.
  - done.
  - subst e1 e0. cbn. pose proof (update_locked_qc_ge (pqc_qc pqc) (round_state e)). lia.
  - done.
  - intros e2 e3 sig c Hin HJ'. walk. intros _. destruct Hw as [Hw _]. exists c. subst.
    unfold signed in *. cbn in *. by rewrite Hw.
Qed.

Lemma run_accept_piggybacked n p (e : engine) : run n (accept_piggybacked p) e.
Proof.
  unfold accept_piggybacked. walk. apply run_bind.
  - apply run_catch. eapply run_done; [reflexivity|].
    assert (Hc : clean (set ← resolve_qc_validator_set e q;
                        verify_qc_with_profile q set (signing_profile e))).
    { apply clean_bind; [apply clean_resolve|]. intros. apply clean_verify_qc. }
    intros Hx. by rewrite Hx in Hc.
  - intros r e' _ _ HJ. walk.
Qed.

Lemma run_gated_vote n view p (e : engine) : is_u64 view -> run n (gated_vote view p) e.
Proof. intros Hu. unfold gated_vote. walk. by apply run_send_vote. Qed.

Lemma run_accept_proposal n view p (e : engine) :
  is_u64 view -> run n (accept_proposal view p) e.
Proof.
  intros Hu. unfold accept_proposal. cbn zeta. apply run_bind.
  { walk. eapply run_done; [reflexivity|]. intros Hx.
    pose proof (clean_any_or_known e (p_justify_qc p)) as Hc. by rewrite Hx in Hc. }
  intros _ e1 _ _ _. walk. apply run_bind; [apply run_accept_piggybacked|].
  intros _ e2 _ _ _. apply run_bind; [unfold accept_changes; walk|].
  intros h e3 _ _ _. walk_step. apply run_bind; [walk|].
  intros _ e5 _ _ _. walk; [by apply run_gated_vote|by apply run_send_vote].
Qed.

Lemma run_process_proposal n p (e : engine) : run n (process_proposal p) e.
Proof.
  unfold process_proposal. walk. apply run_accept_proposal. by apply J_view.
Qed.
End follower.

(** ** Handlers that may change the view *)

Section replay.
Context {L : Type} `{CrashSafe L} {blst : Blst} {digest : Digest}.
Abbreviation engine := (ConsensusEngine L).
Abbreviation M := (@M L).

(** *** Crossing epochs *)

Definition cross (m : EpochManager) : EpochManager :=
  if has_staged_next m then (advance_epoch m).1 else (carry_epoch_forward m).1.

Lemma cross_wf m : epoch_wf m -> current_epoch m < u64_max -> epoch_wf (cross m).
Proof.
  unfold cross. case_match; [apply advance_epoch_wf|apply carry_epoch_forward_wf].
Qed.

Lemma cross_next m :
  epochs_enabled m = true -> current_epoch m < u64_max ->
  current_epoch (cross m) = current_epoch m + 1 /\ epoch_length (cross m) = epoch_length m.
Proof.
  unfold cross, epochs_enabled, has_staged_next, advance_epoch, carry_epoch_forward.
  intros He Hc. bool_simpl. destruct (next_set m) as [s|] eqn:En; cbn.
  - by rewrite wadd_succ.
  - unfold has_staged_next. rewrite En. cbn. rewrite (proj2 (N.eqb_neq _ _)) by lia. cbn.
    by rewrite wadd_succ.
Qed.

Lemma cross_epoch_effect (e e' : engine) a :
  cross_epoch e = (e', Ok a) ->
  epoch_manager e' = cross (epoch_manager e) /\ round_state e' = round_state e.
Proof.
  unfold cross_epoch, mbind, st_bind, get, modify, when, mret, st_ret. cbv beta iota zeta.
  destruct (index_of_public_key _ (local_public_key e)) as [i|];
    [destruct (negb (i =? my_index e))|]; cbv beta iota;
    match goal with |- context [emit ?o ?s] => destruct (emit_after o s) as (w & r & -> & _) end;
    intros Hx; apply pair_equal_spec in Hx as [<- _]; split; reflexivity.
Qed.

Lemma run_cross_epoch n (e : engine) :
  current_epoch (epoch_manager e) < u64_max -> run n cross_epoch e.
Proof.
  intros Hc. unfold cross_epoch. walk;
    intros _; apply (A_epoch e cross); intros Hwf; by apply cross_wf.
Qed.

Lemma run_cross_epochs n fuel target (e : engine) :
  target <= u64_max -> target - current_epoch (epoch_manager e) <= N.of_nat fuel ->
  run n (cross_epochs fuel target) e.
Proof.
  intros Ht. revert e. induction fuel as [|fuel IH]; intros e Hf; cbn [cross_epochs]; walk;
    bool_simpl; [lia|].
  apply run_bind; [apply run_cross_epoch; lia|]. intros a e' He _ _.
  apply cross_epoch_effect in He as [He _]. apply IH. rewrite He.
  destruct (cross_next (epoch_manager e)) as [-> _]; [done|lia|]. lia.
Qed.

Lemma cross_epochs_round fuel target (e e' : engine) a :
  cross_epochs fuel target e = (e', Ok a) -> round_state e' = round_state e.
Proof.
  revert e. induction fuel as [|fuel IH]; intros e; cbn [cross_epochs];
    unfold mbind, st_bind, get; destruct (_ && _);
    try (by intros Hx; apply pair_equal_spec in Hx as [<- _]).
  destruct (cross_epoch e) as [e1 [u|err| |]] eqn:Ec;
    try (by intros Hx; apply pair_equal_spec in Hx as [_ ?]).
  apply cross_epoch_effect in Ec as [_ Hr]. intros Hx. rewrite <- Hr. by apply IH.
Qed.

(** *** The view change *)

Section rec.
Context (rec : ConsensusMessage -> M unit) (n : nat).
Hypothesis Hrec : forall msg e, is_u64 (message_view msg) -> run n (rec msg) e.

Lemma replay_split view (b : list (ViewNumber * ConsensusMessage)) :
  (length (rebuffer view b) + length (to_replay view b) <= length b)%nat.
Proof.
  unfold rebuffer, to_replay. rewrite length_fmap.
  induction b as [|[v m] b IH]; [done|]. rewrite !filter_cons. cbn.
  repeat case_decide; cbn; intuition lia.
Qed.

Lemma run_replay view drained (e : engine) :
  future_msg_buffer e = drained -> J e ->
  run (S n) (modify (fun e => e <| future_msg_buffer := rebuffer view drained |>) ;;
             for_each (replay_one rec) (to_replay view drained)) e.
Proof.
  intros Hd HJ. pose proof (J_buffer e HJ) as Hu. unfold u64_buffer in Hu. rewrite Hd in Hu.
  pose proof (replay_split view drained) as Hlen.
  assert (Hstep : astep e (e <| future_msg_buffer := rebuffer view drained |>)).
  { apply (A_buffer e (fun _ => rebuffer view drained)).
    - apply Forall_forall. intros x Hx. apply list_elem_of_filter in Hx as [_ Hx].
      by eapply Forall_forall in Hu.
    - pose proof (J_bound e HJ) as Hb. rewrite Hd in Hb. etrans; [apply length_filter|done]. }
  destruct (to_replay view drained) as [|msg msgs] eqn:Er.
  - walk; [|apply run_ret]. unfold buffered. cbn. rewrite Hd. unfold rebuffer. apply length_filter.
  - apply run_shrink; [by intros _|unfold buffered; cbn in *; rewrite Hd; lia|].
    apply run_for_each. intros m e' Hm HJ'. unfold replay_one.
    apply run_bind; [|intros; apply run_ret]. apply run_catch, Hrec.
    rewrite <- Er in Hm. unfold to_replay in Hm. apply list_elem_of_fmap in Hm as (x & -> & Hx).
    apply list_elem_of_filter in Hx as [_ Hx]. by eapply Forall_forall in Hu.
Qed.

Lemma run_sync_index n' (e : engine) : run n' sync_local_validator_index e.
Proof. unfold sync_local_validator_index. walk. Qed.

Lemma run_settle_view view (e : engine) : run (S n) (settle_view rec view) e.
Proof.
  unfold settle_view. apply run_bind; [apply run_sync_index|]. intros _ e4 _ _ HJ4.
  repeat (first [by apply run_replay|walk_step]).
Qed.

Lemma run_advance_to_view view (e : engine) :
  is_u64 view -> run (S n) (advance_to_view rec view) e.
Proof.
  intros Hu. unfold advance_to_view. walk. bool_simpl.
  apply run_bind.
  { apply run_cross_epochs; subst e0; cbn.
    - pose proof (epoch_for_view_le (epoch_manager e) view). unfold is_u64, u64_max in *. lia.
    - rewrite N2Nat.id. lia. }
  intros [] e1 Hc _ HJ1. apply cross_epochs_round in Hc. walk.
  - intros _. apply A_enter_view; [|done]. subst e0 e2. unfold engine_view in *. cbn in *.
    rewrite Hc. lia.
  - subst e2. unfold buffered. destruct (enter_view_core t view (e1 <| world := w |>))
      as (_ & _ & _ & _ & _ & _ & _ & _ & -> & _); [|done].
    subst e0. unfold engine_view in *. cbn in *. rewrite Hc. lia.
  - apply run_settle_view.
Qed.

Lemma run_advance_and_notify view (e : engine) :
  is_u64 view -> run (S n) (advance_and_notify rec view) e.
Proof.
  intros Hu. unfold advance_and_notify. apply run_bind; [by apply run_advance_to_view|].
  intros _ e1 _ _ _. walk.
Qed.

Lemma sat_succ_u64 v : is_u64 (v +s 1).
Proof. unfold is_u64, u64_sat_add, u64_max. lia. Qed.

Lemma commit_signed_round h (e e' : engine) r :
  commit_signed_changes h e = (e', Ok r) -> round_state e' = round_state e.
Proof.
  unfold commit_signed_changes, mbind, st_bind, get, zoom. case_match.
  - destruct (commit_pending_changes (epoch_manager e)) as [m [u|err| |]];
      intros Hx; apply pair_equal_spec in Hx as [<- Hx]; done.
  - intros Hx. by apply pair_equal_spec in Hx as [<- _].
Qed.

Lemma run_try_form_commit_qc (e : engine) : run (S n) (try_form_commit_qc rec) e.
Proof.
  unfold try_form_commit_qc. walk. bool_simpl.
  destruct (build_qc_fields _ _ _ _ _ Ha) as [Hqv Hqh].
  pose proof (J_commit_collector e HJ) as Hat. rewrite Heqo in Hat. cbn in Hat.
  apply run_bind; [unfold commit_signed_changes; walk|].
  intros changes e3 Hc _ HJ3. apply commit_signed_round in Hc. walk.
  - intros _. subst. cbn. unfold engine_view in *.
    rewrite Hc. cbn in *. split_and!; [congruence|done|].
    etrans; [|apply committed_after_commit]. lia.
  - apply run_advance_and_notify, sat_succ_u64.
Qed.

Lemma run_try_form_prepare_qc (e : engine) : run (S n) (try_form_prepare_qc rec) e.
Proof.
  unfold try_form_prepare_qc. walk. bool_simpl.
  destruct (build_qc_fields _ _ _ _ _ Ha) as [Hqv Hqh].
  pose proof (J_vote_collector e HJ) as Hat. rewrite Heqo in Hat. cbn in Hat.
  eapply run_cast_commit; [by apply J_view|done| |done|].
  - subst. cbn. unfold engine_view in *.
    pose proof (update_locked_qc_ge a (enter_pre_commit (round_state e))). lia.
  - intros e6 e7 sig c _ _. apply run_on_some_commit. intros e8 _ _. apply run_try_form_commit_qc.
Qed.

Lemma run_check_signature n' b view i m sig (e : engine) :
  run n' (check_signature b view i m sig) e.
Proof. unfold check_signature. walk. Qed.

Lemma run_collect_vote n' i sig (e : engine) : run n' (collect_vote vote_collector i sig) e.
Proof.
  unfold collect_vote. apply run_bind; [|intros; walk].
  apply run_catch, run_bind_ret, run_on_some_vote. intros. apply run_ret.
Qed.

Lemma run_collect_commit n' i sig (e : engine) : run n' (collect_vote commit_collector i sig) e.
Proof.
  unfold collect_vote. apply run_bind; [|intros; walk].
  apply run_catch, run_bind_ret, run_on_some_commit. intros. apply run_ret.
Qed.

Lemma run_process_vote b v (e : engine) : run (S n) (process_vote_inner rec v b) e.
Proof.
  unfold process_vote_inner. walk. apply run_bind; [apply run_check_signature|].
  intros _ e1 _ _ _. walk. apply run_bind; [apply run_collect_vote|].
  intros added e3 _ _ _. walk. apply run_try_form_prepare_qc.
Qed.

Lemma run_process_commit_vote b cv (e : engine) :
  run (S n) (process_commit_vote_inner rec cv b) e.
Proof.
  unfold process_commit_vote_inner. walk. apply run_bind; [apply run_check_signature|].
  intros _ e1 _ _ _. walk. apply run_bind; [apply run_collect_commit|].
  intros added e3 _ _ _. walk. apply run_try_form_commit_qc.
Qed.

Lemma decide_changes_round d (e e' : engine) r :
  decide_changes d e = (e', Ok r) -> round_state e' = round_state e.
Proof.
  unfold decide_changes, mbind, st_bind, get, zoom. cbv beta iota.
  destruct (d_validator_changes_hash d =? B256_ZERO);
    [by intros Hx; apply pair_equal_spec in Hx as [<- _]|].
  destruct (pending_changes_hash _ =? _).
  - destruct (commit_pending_changes (epoch_manager e)) as [m [u|err| |]];
      intros Hx; by apply pair_equal_spec in Hx as [<- Hx].
  - match goal with |- context [emit ?o e] => destruct (emit_after o e) as (w & q & -> & _) end.
    destruct q; intros Hx; by apply pair_equal_spec in Hx as [<- Hx].
Qed.

Lemma run_decide_changes n' d (e : engine) : run n' (decide_changes d) e.
Proof. unfold decide_changes. walk. Qed.

Lemma run_process_decide d (e : engine) : run (S n) (process_decide rec d) e.
Proof.
  unfold process_decide. walk; bool_simpl.
  all: apply run_bind; [apply run_decide_changes|]; intros changes ed Hc _ _;
    apply decide_changes_round in Hc; walk;
    [|apply run_advance_and_notify, sat_succ_u64].
  all: intros _; subst; cbn; rewrite Hc; cbn; split_and!; [done|done|];
    etrans; [|apply committed_after_commit]; lia.
Qed.

Lemma run_advance_with_tc tc view (e : engine) :
  is_u64 view -> run (S n) (advance_with_tc rec tc view) e.
Proof.
  intros Hu. unfold advance_with_tc. walk.
  - apply run_sign; [by intros _; apply A_sign_other|]. intros e1 sig _ _. walk.
    by apply run_advance_and_notify.
  - by apply run_advance_and_notify.
Qed.

Lemma run_try_form_tc v view (e : engine) :
  is_u64 view -> run (S n) (try_form_tc_and_advance rec v view) e.
Proof. intros Hu. unfold try_form_tc_and_advance. walk. by apply run_advance_with_tc. Qed.

Lemma add_verified_timeout_clean i sig q c : clean (add_verified_timeout i sig q c).2.
Proof.
  unfold add_verified_timeout, mbind, st_bind, add_timeout, modify.
  by destruct (tcl_timeouts c !! i).
Qed.

Lemma run_process_timeout t (e : engine) : run (S n) (process_timeout rec t) e.
Proof.
  unfold process_timeout. walk.
  all: apply run_try_form_tc, sat_succ_u64.
Qed.

Lemma run_reset_pacemaker n' (e : engine) : run n' reset_pacemaker e.
Proof. unfold reset_pacemaker. walk. Qed.

Lemma run_own_timeout n' view (e : engine) : run n' (own_timeout view) e.
Proof.
  unfold own_timeout. apply run_sign; [by intros _; apply A_sign_other|].
  intros e1 sig _ _. walk.
Qed.

Lemma run_on_timeout (e : engine) : run (S n) (on_timeout rec) e.
Proof.
  unfold on_timeout. walk.
  - apply run_reset_pacemaker.
  - apply run_bind; [apply run_reset_pacemaker|]. intros _ e1 _ _ _.
    apply run_bind; [apply run_own_timeout|]. intros t e2 _ _ _. walk.
    apply run_try_form_tc, sat_succ_u64.
  - apply run_bind; [apply run_reset_pacemaker|]. intros _ e1 _ _ _. walk.
    apply run_bind; [apply run_own_timeout|]. intros t e4 _ _ _. walk.
    apply run_process_timeout.
Qed.

Lemma run_process_new_view nv (e : engine) :
  is_u64 (nv_view nv) -> run (S n) (process_new_view rec nv) e.
Proof. intros Hu. unfold process_new_view. walk. by apply run_advance_and_notify. Qed.

Lemma run_join_future_timeout t (e : engine) :
  is_u64 (t_view t) -> run (S n) (join_future_timeout rec t) e.
Proof.
  intros Hu. unfold join_future_timeout. cbn zeta.
  apply run_bind; [by apply run_advance_to_view|]. intros _ e1 _ _ _. walk.
  apply run_bind; [apply run_process_timeout|]. intros _ e2 _ _ _. walk.
  apply run_on_timeout.
Qed.

Lemma run_collect_future_timeout t (e : engine) :
  is_u64 (t_view t) -> run (S n) (collect_future_timeout rec t) e.
Proof.
  intros Hu. unfold collect_future_timeout. walk.
  all: apply run_bind; [first [by apply run_join_future_timeout
                              |apply run_advance_with_tc, sat_succ_u64]|]; intros; walk.
Qed.

Lemma run_on_block_ready h tx (e : engine) : run (S n) (on_block_ready rec h tx) e.
Proof.
  unfold on_block_ready. walk. bool_simpl.
  apply run_sign; [by intros _; apply A_sign_other|]. intros e2 sig He2 HJ2.
  cbn zeta beta. apply run_modify_steps; [|done|].
  { intros HJ3. set (c := VoteCollector_new _ _ _).
    eapply rtc_l; [apply (A_vote_collector e2 c); by subst|].
    apply rtc_once, A_commit_collector. by subst. }
  intros e3 He3 HJ3. walk; bool_simpl; [intros _; apply A_mark_vote; by subst|].
  subst e5. apply run_log_vote; [by apply J_view|done|]. intros e6 log -> Hl HJ6. walk.
  apply run_sign.
  { intros _. apply A_sign_vote; [done|]. subst. unfold signed. cbn.
    rewrite vote_views_app. cbn. rewrite app_nil_r. by apply (fresh_vote e). }
  intros e7 sig' -> HJ7. apply run_on_some_vote. intros e8 Hs8 HJ8. walk.
  - intros _. destruct Hw as [Hw _]. subst. unfold signed in *. cbn in *. rewrite Hw, Hs8.
    set_solver.
  - apply run_try_form_prepare_qc.
Qed.

Lemma run_dispatch_body msg proof (e : engine) :
  is_u64 (message_view msg) -> run (S n) (dispatch_body rec msg proof) e.
Proof.
  intros Hu. unfold dispatch_body, process_verified_vote, process_vote,
    process_verified_commit_vote, process_commit_vote. walk.
  - apply run_process_proposal.
  - apply run_process_vote.
  - apply run_process_vote.
  - apply run_process_commit_vote.
  - apply run_process_commit_vote.
  - apply run_process_prepare_qc.
  - apply run_process_timeout.
  - by apply run_process_new_view.
  - apply run_process_decide.
Qed.

Lemma run_try_qc_view_jump msg (e : engine) : run (S n) (try_qc_view_jump rec msg) e.
Proof.
  unfold try_qc_view_jump. walk.
  apply run_bind; [apply run_advance_and_notify, sat_succ_u64|]. intros; walk.
Qed.

(** *** Buffering *)

Lemma min_view_index_lt b i v : min_view_index b = Some (i, v) -> (i < length b)%nat.
Proof.
  revert i v. induction b as [|[w m] b IH]; intros i v; cbn; [done|].
  destruct (min_view_index b) as [[j u]|]; [|intros [= <- <-]; lia].
  destruct (w <=? u); intros [= <- <-]; [lia|]. specialize (IH j u eq_refl). lia.
Qed.

Lemma length_evict b : length (evict_lowest_view b) = (length b - 1)%nat.
Proof.
  unfold evict_lowest_view. destruct b as [|x b]; [done|].
  destruct (min_view_index (x :: b)) as [[i v]|] eqn:E.
  - unfold swap_remove. destruct (last (x :: b)) eqn:El; [|by apply last_None in El].
    rewrite length_take, length_insert. cbn. lia.
  - cbn in E. destruct x. by repeat case_match.
Qed.

Lemma elem_of_evict x b : x ∈ evict_lowest_view b -> x ∈ b.
Proof.
  unfold evict_lowest_view, swap_remove. repeat case_match; try done.
  intros Hx. apply elem_of_take in Hx as (j & Hj & _).
  match goal with Hl : last b = Some ?y |- _ => rename y into y0 end.
  destruct (decide (n0 = j)) as [<-|Hne].
  - destruct (decide (n0 < length b)%nat).
    + rewrite list_lookup_insert_eq in Hj by done. simplify_eq.
      by apply list_elem_of_lookup_2 with (length b - 1)%nat;
        rewrite last_lookup in *; replace (pred (length b)) with (length b - 1)%nat in * by lia.
    + rewrite list_insert_ge in Hj by lia. by eapply list_elem_of_lookup_2.
  - rewrite list_lookup_insert_ne in Hj by done. by eapply list_elem_of_lookup_2.
Qed.

(** A computation that may buffer one more message. *)
Definition run_end {A} (m : M A) (e : engine) : Prop :=
  J e -> steps e (m e).1 /\ ((buffered e < S n)%nat -> (m e).2 ≠ OutOfFuel).

Lemma run_run_end {A} (m : M A) e : run (S n) m e -> run_end m e.
Proof. intros Hm HJ. destruct (Hm HJ) as [? Hf]. split; [done|]. intros Hb. by apply Hf. Qed.

Lemma run_end_bind {A B} (m : M A) (k : A -> M B) e :
  run (S n) m e -> (forall a e', m e = (e', Ok a) -> J e' -> run_end (k a) e') ->
  run_end (m ≫= k) e.
Proof.
  intros Hm Hk HJ. destruct (Hm HJ) as [Hs Hf]. unfold mbind, st_bind.
  destruct (m e) as [e' [a|err| |]] eqn:E; cbn in *;
    try (by split; [|intros Hb; destruct (Hf Hb)]).
  pose proof (steps_J _ _ Hs HJ) as HJ'. destruct (Hk a e' eq_refl HJ' HJ') as [Hs' Hf'].
  split; [by etrans|]. intros Hb. apply Hf'. destruct (Hf Hb). lia.
Qed.

Lemma run_push_future view msg (e : engine) :
  is_u64 (message_view msg) -> (buffered e < MAX_FUTURE_MESSAGES)%nat ->
  run_end (push_future view msg) e.
Proof.
  intros Hu Hb HJ. split; [|done]. apply rtc_once. apply A_buffer.
  - apply Forall_app. split; [apply (J_buffer e HJ)|]. by apply Forall_singleton.
  - rewrite length_app. cbn [length]. unfold buffered in Hb. lia.
Qed.

Lemma run_after_jump view msg proof (e : engine) :
  is_u64 (message_view msg) -> run_end (after_jump rec view msg proof) e.
Proof.
  intros Hu HJ. unfold after_jump, mbind, st_bind, get. cbv beta iota zeta.
  revert HJ. case_match; [by apply run_run_end, run_dispatch_body|].
  unfold when. case_match; [|by apply run_run_end, run_ret].
  bool_simpl. by apply run_push_future.
Qed.

Lemma run_store msg view (e : engine) :
  is_u64 (message_view msg) ->
  run_end (e ← get;
           when (MAX_FUTURE_MESSAGES <=? length (future_msg_buffer e))%nat
             (modify (fun e => e <| future_msg_buffer ::= evict_lowest_view |>)) ;;
           push_future view msg) e.
Proof.
  intros Hu HJ. pose proof (J_bound e HJ) as Hb. revert HJ.
  apply run_end_bind; [by eapply run_done|]. intros ? ? Hx HJ.
  apply pair_equal_spec in Hx as [<- Hx]. injection Hx as <-. apply run_end_bind.
  - apply run_when. intros _. apply run_modify; [|unfold buffered; cbn; rewrite length_evict; lia].
    intros _. apply A_buffer; [|rewrite length_evict; lia].
    apply Forall_forall. intros x Hx%elem_of_evict.
    pose proof (J_buffer e HJ) as Hf. unfold u64_buffer in Hf. by eapply Forall_forall in Hf.
  - intros [] e' Hw HJ'. apply run_push_future; [done|]. unfold when in Hw.
    case_match; bool_simpl; apply pair_equal_spec in Hw as [<- _]; unfold buffered; cbn.
    + rewrite length_evict. unfold MAX_FUTURE_MESSAGES in *. lia.
    + lia.
Qed.

Lemma run_jump_or msg proof (otherwise : M unit) (e : engine) :
  is_u64 (message_view msg) -> (forall e', run_end otherwise e') ->
  run_end (jumped ← try_qc_view_jump rec msg;
           if jumped : bool then after_jump rec (message_view msg) msg proof
           else otherwise) e.
Proof.
  intros Hu Ho. apply run_end_bind; [apply run_try_qc_view_jump|].
  intros [] e' _ _; [by apply run_after_jump|apply Ho].
Qed.

Lemma run_process_message msg proof (e : engine) :
  is_u64 (message_view msg) -> run_end (process_message_body rec msg proof) e.
Proof.
  intros Hu. unfold process_message_body. apply run_end_bind; [by eapply run_done|].
  intros ? ? Hx HJ. apply pair_equal_spec in Hx as [<- Hx]. injection Hx as <-. cbv zeta.
  repeat case_match;
    try (by apply run_run_end, run_dispatch_body); try (by apply run_run_end, run_ret).
  all: try (apply run_jump_or; [done|]; intros e'; by apply run_run_end, run_ret).
  all: try (apply run_end_bind;
            [first [by apply run_collect_future_timeout|apply run_ret]|];
            intros [] e' _ _; [by apply run_run_end, run_ret|];
            apply run_jump_or; [done|]; intros e''; by apply run_store).
  apply run_run_end, run_bind; [apply run_recover_late|]. intros. walk.
Qed.

Definition event_u64 (event : ConsensusEvent) : Prop :=
  match event with Message msg => is_u64 (message_view msg) | _ => True end.

Lemma run_process_event event (e : engine) :
  event_u64 event -> run_end (process_event_body rec event) e.
Proof.
  intros Hu. destruct event; cbn [process_event_body].
  - by apply run_process_message.
  - apply run_run_end, run_on_block_ready.
  - apply run_run_end, run_on_block_imported.
  - apply run_run_end, run_on_block_imported.
Qed.
End rec.

(** *** The knot *)

Lemma run_dispatch fuel msg (e : engine) :
  is_u64 (message_view msg) -> run fuel (dispatch_message fuel msg) e.
Proof.
  revert msg e. induction fuel as [|fuel IH]; intros msg e Hu; cbn [dispatch_message].
  - intros _. split; [apply rtc_refl|lia].
  - apply run_dispatch_body; [apply IH|done].
Qed.

(** The entry points. *)
Lemma process_event_steps event (e : engine) :
  J e -> event_u64 event ->
  steps e (process_event event e).1 /\ (process_event event e).2 ≠ OutOfFuel.
Proof.
  intros HJ Hu. unfold process_event, with_fuel, replay_fuel.
  destruct (run_process_event _ _ (run_dispatch (S (length (future_msg_buffer e)))) event e Hu HJ)
    as [? Hf]. split; [done|]. apply Hf. unfold buffered. lia.
Qed.

Lemma process_authenticated_steps a (e : engine) :
  J e -> is_u64 (message_view (auth_message a)) ->
  steps e (process_authenticated_message a e).1 /\
  (process_authenticated_message a e).2 ≠ OutOfFuel.
Proof.
  intros HJ Hu. unfold process_authenticated_message, with_fuel, replay_fuel.
  destruct (run_process_message _ _ (run_dispatch (S (length (future_msg_buffer e))))
    (auth_message a) (Some (auth_proof a)) e Hu HJ) as [? Hf].
  split; [done|]. apply Hf. unfold buffered. lia.
Qed.

Lemma pacemaker_timeout_steps (e : engine) :
  J e -> steps e (pacemaker_timeout e).1 /\ (pacemaker_timeout e).2 ≠ OutOfFuel.
Proof.
  intros HJ. unfold pacemaker_timeout, with_fuel, replay_fuel.
  destruct (run_on_timeout _ _ (run_dispatch (S (length (future_msg_buffer e)))) e HJ) as [? Hf].
  split; [done|]. apply Hf. unfold buffered. lia.
Qed.
End replay.
