(* ===== verification/Termination.v ===== *)
(** * Fuel is a proof device

    The source recurses through the replay of buffered messages without a bound.
    Two facts make the fuel of [Handlers.dispatch_message] faithful to it: from
    a state of the invariant the entry points never run out of fuel
    ([HandlerSteps]), and more fuel never changes a result, proved here.  The
    result is therefore the one the unbounded recursion computes. *)

From S2P Require Import Prelude Effects Crypto Messages Signing ValidatorSet Epoch EpochTheory.
From S2P Require Import Quorum QuorumTheory Fifo Pacemaker Round VoteLog Engine Handlers Machine.
From S2P Require Import Refinement HandlerSteps.

(** [m'] computes what [m] computes wherever [m] has enough fuel. *)
Definition approximates {S E A} (m m' : ST S E A) : Prop :=
  forall s, (m s).2 ≠ OutOfFuel -> m' s = m s.

Section approximates.
Context {S E : Type}.

Lemma approximates_refl {A} (m : ST S E A) : approximates m m.
Proof. done. Qed.

Lemma approximates_bind {A B} (m m' : ST S E A) (k k' : A -> ST S E B) :
  approximates m m' -> (forall a, approximates (k a) (k' a)) ->
  approximates (m ≫= k) (m' ≫= k').
Proof.
  intros Hm Hk s. unfold mbind, st_bind. specialize (Hm s).
  destruct (m s) as [s' [a|err| |]]; cbn in *; try (by rewrite Hm).
  - rewrite Hm by done. apply Hk.
  - done.
Qed.

Lemma approximates_catch {A} (m m' : ST S E A) :
  approximates m m' -> approximates (catch m) (catch m').
Proof.
  intros Hm s. unfold catch. specialize (Hm s).
  destruct (m s) as [s' [a|err| |]]; cbn in *; try (by rewrite Hm). done.
Qed.

Lemma approximates_when b (m m' : ST S E unit) :
  approximates m m' -> approximates (when b m) (when b m').
Proof. by destruct b. Qed.

Lemma approximates_for_each {A} (f f' : A -> ST S E unit) l :
  (forall x, approximates (f x) (f' x)) -> approximates (for_each f l) (for_each f' l).
Proof.
  intros Hf. induction l as [|x l IH]; cbn; [done|]. apply approximates_bind; auto.
Qed.

Lemma approximates_out_of_fuel {A} (m : ST S E A) : approximates out_of_fuel m.
Proof. by intros s Hs. Qed.
End approximates.

Create HintDb approx discriminated.
#[export] Hint Constants Opaque : approx.

(** Follows two copies of a handler that differ in the recursive call. *)
Ltac approx :=
  repeat (cbn zeta beta; first
    [ match goal with |- approximates ?m ?m => apply approximates_refl end
    | solve [trivial with approx]
    | apply approximates_bind; intros
    | apply approximates_catch
    | apply approximates_when
    | apply approximates_for_each; intros
    | match goal with
      | |- approximates (match ?x with _ => _ end) _ => destruct x
      end ]).

Section handlers.
Context {L : Type} `{VoteLogWriter L} {blst : Blst} {digest : Digest}.
Variables rec rec' : ConsensusMessage -> @M L unit.
Hypothesis rec_approximates : forall msg, approximates (rec msg) (rec' msg).

Lemma approximates_advance v : approximates (advance_to_view rec v) (advance_to_view rec' v).
Proof. unfold advance_to_view, settle_view, replay_one. approx. Qed.
Hint Resolve approximates_advance : approx.

Lemma approximates_notify v :
  approximates (advance_and_notify rec v) (advance_and_notify rec' v).
Proof. unfold advance_and_notify. approx. Qed.
Hint Resolve approximates_notify : approx.

Lemma approximates_commit_qc : approximates (try_form_commit_qc rec) (try_form_commit_qc rec').
Proof. unfold try_form_commit_qc. approx. Qed.
Hint Resolve approximates_commit_qc : approx.

Lemma approximates_prepare_qc : approximates (try_form_prepare_qc rec) (try_form_prepare_qc rec').
Proof. unfold try_form_prepare_qc. approx. Qed.
Hint Resolve approximates_prepare_qc : approx.

Lemma approximates_vote vote b :
  approximates (process_vote_inner rec vote b) (process_vote_inner rec' vote b).
Proof. unfold process_vote_inner. approx. Qed.

Lemma approximates_commit_vote cv b :
  approximates (process_commit_vote_inner rec cv b) (process_commit_vote_inner rec' cv b).
Proof. unfold process_commit_vote_inner. approx. Qed.
Hint Resolve approximates_vote approximates_commit_vote : approx.

Lemma approximates_decide d : approximates (process_decide rec d) (process_decide rec' d).
Proof. unfold process_decide. approx. Qed.

Lemma approximates_with_tc tc v : approximates (advance_with_tc rec tc v) (advance_with_tc rec' tc v).
Proof. unfold advance_with_tc. approx. Qed.
Hint Resolve approximates_decide approximates_with_tc : approx.

Lemma approximates_form_tc v w :
  approximates (try_form_tc_and_advance rec v w) (try_form_tc_and_advance rec' v w).
Proof. unfold try_form_tc_and_advance. approx. Qed.
Hint Resolve approximates_form_tc : approx.

Lemma approximates_timeout t : approximates (process_timeout rec t) (process_timeout rec' t).
Proof. unfold process_timeout. approx. Qed.
Hint Resolve approximates_timeout : approx.

Lemma approximates_on_timeout : approximates (on_timeout rec) (on_timeout rec').
Proof. unfold on_timeout. approx. Qed.

Lemma approximates_new_view nv : approximates (process_new_view rec nv) (process_new_view rec' nv).
Proof. unfold process_new_view. approx. Qed.
Hint Resolve approximates_on_timeout approximates_new_view : approx.

Lemma approximates_join t : approximates (join_future_timeout rec t) (join_future_timeout rec' t).
Proof. unfold join_future_timeout. approx. Qed.
Hint Resolve approximates_join : approx.

Lemma approximates_future t :
  approximates (collect_future_timeout rec t) (collect_future_timeout rec' t).
Proof. unfold collect_future_timeout. approx. Qed.

Lemma approximates_block_ready h r : approximates (on_block_ready rec h r) (on_block_ready rec' h r).
Proof. unfold on_block_ready. approx. Qed.
Hint Resolve approximates_future approximates_block_ready : approx.

Lemma approximates_dispatch_body msg proof :
  approximates (dispatch_body rec msg proof) (dispatch_body rec' msg proof).
Proof.
  unfold dispatch_body, process_verified_vote, process_vote, process_verified_commit_vote,
    process_commit_vote. approx.
Qed.
Hint Resolve approximates_dispatch_body : approx.

Lemma approximates_jump msg : approximates (try_qc_view_jump rec msg) (try_qc_view_jump rec' msg).
Proof. unfold try_qc_view_jump. approx. Qed.
Hint Resolve approximates_jump : approx.

Lemma approximates_message msg proof :
  approximates (process_message_body rec msg proof) (process_message_body rec' msg proof).
Proof. unfold process_message_body, after_jump. approx. Qed.
Hint Resolve approximates_message : approx.

Lemma approximates_event event :
  approximates (process_event_body rec event) (process_event_body rec' event).
Proof. unfold process_event_body. approx. Qed.
End handlers.

Section fuel.
Context {L : Type} `{CrashSafe L} {blst : Blst} {digest : Digest}.
Abbreviation engine := (ConsensusEngine L).

Lemma dispatch_more_fuel fuel fuel' msg :
  (fuel <= fuel')%nat ->
  approximates (dispatch_message (L := L) fuel msg) (dispatch_message fuel' msg).
Proof.
  revert fuel' msg. induction fuel as [|fuel IH]; intros fuel' msg Hle;
    [apply approximates_out_of_fuel|].
  destruct fuel' as [|fuel']; [lia|]. cbn [dispatch_message].
  apply approximates_dispatch_body. intros msg'. apply IH. lia.
Qed.

(** Any fuel from [replay_fuel] on gives the same result. *)
Lemma process_event_total event (e : engine) fuel :
  J e -> event_u64 event -> (replay_fuel e <= fuel)%nat ->
  process_event_body (dispatch_message fuel) event e = process_event event e /\
  (process_event event e).2 ≠ OutOfFuel.
Proof.
  intros HJ Hu Hf. destruct (process_event_steps event e HJ Hu) as [_ Hr]. split; [|done].
  unfold process_event, with_fuel in *. eapply approximates_event; [|done].
  intros msg. by apply dispatch_more_fuel.
Qed.
End fuel.
