(* ===== verification/Node.v ===== *)
(** * A validator over its whole life

    [node_step] is what the orchestrator may do with an engine: feed it events,
    authenticated votes and timeouts, change its configuration, and restart the
    process after it died at any point ([bin/n42-node/src/main.rs]).  A restart
    keeps the vote log and nothing else of the memory; the snapshot it loads may
    be arbitrarily old.  The trace of signatures spans all incarnations. *)

From S2P Require Import Prelude Effects Crypto Messages Signing ValidatorSet Epoch EpochTheory.
From S2P Require Import Quorum Fifo Pacemaker Round VoteLog Engine Handlers Machine Refinement.
From S2P Require Import HandlerSteps.

(** The fields of [ConsensusSnapshot] that the engine is rebuilt from. *)
Record ConsensusSnapshot : Type := mkSnapshot {
  snap_current_view : ViewNumber;
  snap_locked_qc : QuorumCertificate;
  snap_last_committed_qc : QuorumCertificate;
  snap_consecutive_timeouts : N;
  snap_last_voted_view : ViewNumber;
  snap_last_commit_voted_view : ViewNumber
}.

Definition restart_entry_view (snapshot_view last_voted_view last_commit_voted_view : ViewNumber)
  : ViewNumber := snapshot_view.

(** The part of [build_snapshot] that reads the engine. *)
Definition build_snapshot {L} (e : ConsensusEngine L) : ConsensusSnapshot :=
  let r := round_state e in
  mkSnapshot (current_view r) (locked_qc r) (last_committed_qc r) (consecutive_timeouts r)
    (last_voted_view r) (last_commit_voted_view r).

Section node.
Context {L : Type} `{CrashSafe L} {blst : Blst} {digest : Digest}.
Abbreviation engine := (ConsensusEngine L).

(** What a started process is configured with. *)
Record NodeConfig : Type := mkNodeConfig {
  cfg_my_index : N;
  cfg_secret_key : BlsSecretKey;
  cfg_epoch_manager : EpochManager;
  cfg_base_timeout_ms : N;
  cfg_max_timeout_ms : N
}.

(** [None]: the node refuses to start without a snapshot when its log says that
    it has voted. *)
Definition start_engine (cfg : NodeConfig) (snapshot : option ConsensusSnapshot) (w : World)
  (log : L) : option engine :=
  let '(voted_disk, commit_voted_disk) := last_vote_views log in
  match snapshot with
  | Some s =>
      let lvv := snap_last_voted_view s `max` voted_disk in
      let lcvv := snap_last_commit_voted_view s `max` commit_voted_disk in
      let recovered_view := restart_entry_view (snap_current_view s) lvv lcvv in
      Some (with_recovered_state_and_vote_log w (cfg_my_index cfg) (cfg_secret_key cfg)
              (cfg_epoch_manager cfg) (cfg_base_timeout_ms cfg) (cfg_max_timeout_ms cfg)
              recovered_view (higher_lock (snap_locked_qc s) (durable_lock log))
              (snap_last_committed_qc s) (snap_consecutive_timeouts s) lvv lcvv log)
  | None =>
      if negb (voted_disk =? 0) || negb (commit_voted_disk =? 0) then None
      else Some (with_epoch_manager_and_vote_log w (cfg_my_index cfg) (cfg_secret_key cfg)
                   (cfg_epoch_manager cfg) (cfg_base_timeout_ms cfg) (cfg_max_timeout_ms cfg) log)
  end.

(** Snapshots store views as [u64]. *)
Definition snapshot_u64 (snapshot : option ConsensusSnapshot) : Prop :=
  match snapshot with Some s => is_u64 (snap_current_view s) | None => True end.

Inductive node_step : relation engine :=
| N_event e event :
    event_u64 event -> node_step e (process_event event e).1
| N_authenticated e a :
    is_u64 (message_view (auth_message a)) -> node_step e (process_authenticated_message a e).1
| N_timeout e : node_step e (pacemaker_timeout e).1
| N_propose_add e info :
    node_step e (zoom epoch_manager (propose_add_validator info) e).1
| N_propose_remove e addr :
    node_step e (zoom epoch_manager (propose_remove_validator addr) e).1
| N_sync_changes e changes :
    node_step e (zoom epoch_manager (apply_committed_changes_from_sync changes) e).1
| N_sync_index e : node_step e (sync_local_validator_index e).1
| N_extend_deadline e d : node_step e (e <| pacemaker ::= extend_deadline d |>)
| N_h2_v4 e id : node_step e (enable_h2_v4_signing id e)
| N_gov5_legacy e : node_step e (enable_gov5_legacy_signing e)
| N_restart e cfg snapshot w e' :
    snapshot_u64 snapshot -> w_signed w = signed e -> w_outputs w = [] ->
    start_engine cfg snapshot w (vote_log e) = Some e' -> node_step e e'.

(** A run starts with an empty trace and any well-formed log. *)
Inductive reachable : engine -> Prop :=
| R_start cfg snapshot w log e :
    snapshot_u64 snapshot -> w_signed w = [] -> w_outputs w = [] -> log_wf log ->
    start_engine cfg snapshot w log = Some e -> reachable e
| R_step e e' : reachable e -> node_step e e' -> reachable e'.

(** ** The invariant over restarts *)

Lemma start_J cfg snapshot w log e :
  snapshot_u64 snapshot -> log_wf log -> w_outputs w = [] ->
  NoDup (vote_views (w_signed w)) -> NoDup (commit_views (w_signed w)) ->
  (forall v, v ∈ vote_views (w_signed w) -> v <= (last_vote_views log).1) ->
  (forall v, v ∈ commit_views (w_signed w) ->
     v <= (last_vote_views log).2 /\ v <= lock_view (durable_lock log)) ->
  start_engine cfg snapshot w log = Some e -> J e.
Proof.
  intros Hu Hwf Ho Hn1 Hn2 H1 H2. unfold start_engine.
  destruct (last_vote_views log) as [r1 r2] eqn:Ev. destruct snapshot as [s|].
  - intros [= <-]. destruct (higher_lock_ge (snap_locked_qc s) (durable_lock log)) as [Ha Hb].
    constructor; unfold r1_durable, r2_durable, lock_durable, engine_view, signed, outputs,
      buffered, u64_buffer; cbn; rewrite ?Ev, ?Ho; cbn; try done; try lia; try apply Forall_nil_2.
    intros v Hv. destruct (H2 v Hv) as [? ?]. cbn in *. split_and!; lia.
  - destruct (negb (r1 =? 0) || negb (r2 =? 0)) eqn:Ez; [done|]. bool_simpl. intros [= <-].
    constructor; unfold r1_durable, r2_durable, lock_durable, engine_view, signed, outputs,
      buffered, u64_buffer; cbn; rewrite ?Ev, ?Ho; cbn; try done; try lia; try apply Forall_nil_2.
    intros v Hv. destruct (H2 v Hv) as [? ?]. cbn in *. split_and!; lia.
Qed.

(** A change outside the state that [J] speaks about, or of the epochs only. *)
Lemma J_zoom_epoch {A} (m : ST EpochManager ConsensusError A) (e : engine) :
  J e -> J (zoom epoch_manager m e).1.
Proof. intros []. unfold zoom. by destruct (m (epoch_manager e)); constructor. Qed.

Lemma node_step_J (e e' : engine) : node_step e e' -> J e -> J e'.
Proof.
  destruct 1 as [e ev Hu|e a Hu|e|e i|e a|e c|e|e d|e id|e|e cfg s w e' Hu Hs Ho He]; intros HJ.
  - by eapply steps_J; [apply process_event_steps|].
  - by eapply steps_J; [apply process_authenticated_steps|].
  - by eapply steps_J; [apply pacemaker_timeout_steps|].
  - by apply J_zoom_epoch.
  - by apply J_zoom_epoch.
  - by apply J_zoom_epoch.
  - eapply steps_J; [|done]. by apply (run_sync_index 0 e).
  - apply (J_frame e); [constructor; reflexivity|done].
  - apply (J_frame e); [constructor; reflexivity|done].
  - apply (J_frame e); [constructor; reflexivity|done].
  - destruct HJ. eapply start_J; [done|done|done|..|exact He]; rewrite Hs; try done.
    intros v Hv. apply J_commits in Hv. tauto.
Qed.

Lemma reachable_J (e : engine) : reachable e -> J e.
Proof.
  induction 1 as [cfg s w log e Hu Hs Ho Hwf He|e e' _ IH Hst]; [|by eapply node_step_J].
  eapply start_J; [done|done|done|..|exact He]; rewrite Hs; cbn; try apply NoDup_nil_2;
    intros v Hv; by apply not_elem_of_nil in Hv.
Qed.
End node.
