(* ===== verification/Scenario.v ===== *)
(** * A concrete committee

    Four validators, one of them allowed to fail, over [LinearBlst], a toy
    digest and a fixed-width encoding of certificates, each with a file-backed
    vote log on a disk that does not fail.  The engines are the definitions of
    [Handlers], run by the kernel; [Safety] and [Agreement] use the states
    reached here as instances of their theorems. *)

From S2P Require Import Prelude Effects Crypto Messages Signing ValidatorSet Epoch Quorum Fifo.
From S2P Require Import Pacemaker Round VoteLog Engine Handlers Machine Refinement HandlerSteps.
From S2P Require Import Node.

Module Scenario.
Import LinearBlst.

(** ** Digest and codec *)

Definition change_bytes (c : ValidatorChange) : bytes :=
  match c with
  | Add address pk _ => 0 :: le_bytes 20 address ++ le_bytes 48 pk
  | Remove address => 1 :: le_bytes 20 address
  end.

#[export] Instance toy_digest : Digest := {|
  bincode_changes changes := concat (change_bytes <$> changes);
  blake3 b := foldr (fun x acc => x + 5 * acc) 1 b mod 2 ^ 256
|}.

Definition bit_byte (b : bool) : N := if b then 1 else 0.

Definition encode_qc (qc : QuorumCertificate) : string + bytes :=
  if (qc_view qc <? 256 ^ 8) && (qc_block_hash qc <? 256 ^ 32)
     && (qc_aggregate_signature qc <? 256 ^ 96)
  then inr (le_bytes 8 (qc_view qc) ++ le_bytes 32 (qc_block_hash qc)
              ++ le_bytes 96 (qc_aggregate_signature qc) ++ (bit_byte <$> qc_signers qc))
  else inl "value out of range"%string.

Definition decode_qc (b : bytes) : string + QuorumCertificate :=
  inr (mkQC (le_value (take 8 b)) (le_value (take 32 (drop 8 b)))
         (le_value (take 96 (drop 40 b))) ((fun x => x =? 1) <$> drop 136 b)).

Lemma decode_encode qc b : encode_qc qc = inr b -> decode_qc b = inr qc.
Proof.
  unfold encode_qc, decode_qc. destruct (_ && _) eqn:Er; [|done]. bool_simpl.
  intros Hb. apply (inj inr) in Hb as <-.
  assert (Hs : (fun x => x =? 1) <$> (bit_byte <$> qc_signers qc) = qc_signers qc).
  { rewrite <- list_fmap_compose. rewrite <- (list_fmap_id (qc_signers qc)) at 2.
    apply list_fmap_ext. by intros ? []. }
  set (v := le_bytes 8 (qc_view qc)). set (h := le_bytes 32 (qc_block_hash qc)).
  set (s := le_bytes 96 (qc_aggregate_signature qc)).
  assert (Lv : length v = 8%nat) by apply length_le_bytes.
  assert (Lh : length h = 32%nat) by apply length_le_bytes.
  assert (Ls : length s = 96%nat) by apply length_le_bytes.
  set (t := bit_byte <$> qc_signers qc).
  assert (D8 : drop 8 (v ++ h ++ s ++ t) = h ++ s ++ t) by (by apply drop_app_length').
  assert (D40 : drop 40 (v ++ h ++ s ++ t) = s ++ t).
  { change 40%nat with (8 + 32)%nat. rewrite <- drop_drop, D8. by apply drop_app_length'. }
  assert (D136 : drop 136 (v ++ h ++ s ++ t) = t).
  { change 136%nat with (40 + 96)%nat. rewrite <- drop_drop, D40. by apply drop_app_length'. }
  rewrite D8, D40, D136, !take_app_length' by done.
  subst v h s t. rewrite Hs, !le_value_le_bytes by assumption. by destruct qc.
Qed.

#[export] Instance fixed_codec : QcCodec := {|
  bincode_serialize := encode_qc;
  bincode_deserialize := decode_qc;
  bincode_roundtrip := decode_encode
|}.

(** ** The committee *)

Definition secret (i : N) : BlsSecretKey := 101 + i.

Definition infos : list ValidatorInfo :=
  (fun i => mkValidatorInfo (1000 + i) (public_key (secret i)) None) <$> [0; 1; 2; 3].

Definition committee : ValidatorSet :=
  match try_new infos 1 with
  | Ok set => set
  | _ => mkValidatorSet [] 0
  end.

Definition calm_world : World :=
  mkWorld 0 (fun _ => false) (fun n => N.of_nat n * 1000) (fun _ => SendOk) [] [].

Definition config (i : N) : NodeConfig :=
  mkNodeConfig i (secret i) (EpochManager_new committee) 1000 60000.

Definition fresh_log : FileVoteLog :=
  mkFileVoteLog (replicate 16 0) None (fun _ => IoDone) 0.

Abbreviation engine := (ConsensusEngine FileVoteLog).

Definition idle (i : N) : engine :=
  with_epoch_manager_and_vote_log calm_world i (secret i) (EpochManager_new committee) 1000 60000
    fresh_log.

(** ** Driving the engines *)

Definition feed (event : ConsensusEvent) (e : engine) : engine := (process_event event e).1.
Definition receive (msg : ConsensusMessage) : engine -> engine := feed (Message msg).

(** What the engine sent that [f] selects, oldest first. *)
Definition sent {A} (f : EngineOutput -> option A) (e : engine) : list A :=
  omap f (w_outputs (world e)).

Definition sent_message (o : EngineOutput) : option ConsensusMessage :=
  match o with
  | BroadcastMessage m | SendToValidator _ m => Some m
  | _ => None
  end.
Definition is_proposal (o : EngineOutput) : option ConsensusMessage :=
  match sent_message o with Some (MProposal p) => Some (MProposal p) | _ => None end.
Definition is_vote (o : EngineOutput) : option ConsensusMessage :=
  match sent_message o with Some (MVote v) => Some (MVote v) | _ => None end.
Definition is_prepare_qc (o : EngineOutput) : option ConsensusMessage :=
  match sent_message o with Some (MPrepareQC q) => Some (MPrepareQC q) | _ => None end.
Definition is_commit_vote (o : EngineOutput) : option ConsensusMessage :=
  match sent_message o with Some (MCommitVote v) => Some (MCommitVote v) | _ => None end.
Definition is_decide (o : EngineOutput) : option ConsensusMessage :=
  match sent_message o with Some (MDecide d) => Some (MDecide d) | _ => None end.
Definition is_timeout (o : EngineOutput) : option ConsensusMessage :=
  match sent_message o with Some (MTimeout t) => Some (MTimeout t) | _ => None end.
Definition is_new_view (o : EngineOutput) : option ConsensusMessage :=
  match sent_message o with Some (MNewView n) => Some (MNewView n) | _ => None end.
Definition committed_block (o : EngineOutput) : option (ViewNumber * B256) :=
  match o with BlockCommitted v h _ _ => Some (v, h) | _ => None end.

(** Delivers messages in order. *)
Definition receive_all (msgs : list ConsensusMessage) (e : engine) : engine :=
  foldl (fun e m => receive m e) e msgs.

(** ** A round without faults: view 1, led by validator 1 *)

Definition block1 : B256 := 7777.
Definition leader_proposed : engine := feed (BlockReady block1 None) (idle 1).
Definition proposal1 : list ConsensusMessage := sent is_proposal leader_proposed.
Definition voted (i : N) : engine := receive_all proposal1 (idle i).
Definition leader_prepared : engine :=
  receive_all (sent is_vote (voted 0) ++ sent is_vote (voted 2)) leader_proposed.
Definition prepare1 : list ConsensusMessage := sent is_prepare_qc leader_prepared.
Definition commit_voted (i : N) : engine := receive_all prepare1 (voted i).
Definition leader_decided : engine :=
  receive_all (sent is_commit_vote (commit_voted 0) ++ sent is_commit_vote (commit_voted 2))
    leader_prepared.
Definition decide1 : list ConsensusMessage := sent is_decide leader_decided.
Definition decided_node (i : N) : engine := receive_all decide1 (commit_voted i).

(** ** A restart from a stale snapshot

    Nobody is faulty.  Every node has committed [block1] and stored its snapshot
    in view 2.  The PrepareQC of view 2, led by validator 2, is delayed;
    validators 0, 1 and 3 time out and vote for another block in view 3.
    Validators 0 and 1 then die and come back with the snapshot of view 2. *)

Definition base (i : N) : engine := if i =? 1 then leader_decided else decided_node i.

(** The messages sent since [e0]. *)
Definition sent_since (e0 : engine) (f : EngineOutput -> option ConsensusMessage) (e : engine)
  : list ConsensusMessage := drop (length (sent f e0)) (sent f e).

Definition block2 : B256 := 8888.
Definition leader2_proposed : engine := feed (BlockReady block2 None) (base 2).
Definition proposal2 : list ConsensusMessage := sent_since (base 2) is_proposal leader2_proposed.
Definition voted2 (i : N) : engine := receive_all proposal2 (base i).
Definition vote2 (i : N) : list ConsensusMessage := sent_since (base i) is_vote (voted2 i).
Definition leader2_prepared : engine := receive_all (vote2 0 ++ vote2 1) leader2_proposed.
Definition prepare2 : list ConsensusMessage := sent_since (base 2) is_prepare_qc leader2_prepared.

Definition timed_out (i : N) : engine := (pacemaker_timeout (voted2 i)).1.
Definition timeout2 (i : N) : list ConsensusMessage := sent_since (base i) is_timeout (timed_out i).
Definition leader3_entered : engine := receive_all (timeout2 0 ++ timeout2 1) (timed_out 3).
Definition new_view3 : list ConsensusMessage := sent_since (base 3) is_new_view leader3_entered.
Definition block3 : B256 := 9999.
Definition leader3_proposed : engine := feed (BlockReady block3 None) leader3_entered.
Definition proposal3 : list ConsensusMessage := sent_since (base 3) is_proposal leader3_proposed.
Definition voted3 (i : N) : engine := receive_all (new_view3 ++ proposal3) (timed_out i).
Definition vote3 (i : N) : list ConsensusMessage := sent_since (voted2 i) is_vote (voted3 i).
Definition leader3_prepared : engine := receive_all (vote3 0 ++ vote3 1) leader3_proposed.
Definition prepare3 : list ConsensusMessage := sent_since (base 3) is_prepare_qc leader3_prepared.

Definition restart_world (e : engine) : World :=
  mkWorld 0 (fun _ => false) (fun n => N.of_nat n * 1000) (fun _ => SendOk) []
    (w_signed (world e)).
Definition restarted (i : N) : option engine :=
  start_engine (config i) (Some (build_snapshot (base i))) (restart_world (voted3 i))
    (vote_log (voted3 i)).
Definition restarted_or_idle (i : N) : engine := default (idle i) (restarted i).

(** The delayed PrepareQC of view 2 arrives, then view 3 goes on. *)
Definition late_voted (i : N) : engine := receive_all prepare2 (restarted_or_idle i).
Definition leader2_decided : engine :=
  receive_all (sent is_commit_vote (late_voted 0) ++ sent is_commit_vote (late_voted 1))
    leader2_prepared.
Definition commit_voted3 (i : N) : engine := receive_all (new_view3 ++ prepare3) (late_voted i).
Definition commit_vote3 (i : N) : list ConsensusMessage :=
  sent_since (late_voted i) is_commit_vote (commit_voted3 i).
Definition leader3_decided : engine :=
  receive_all (commit_vote3 0 ++ commit_vote3 1) leader3_prepared.
End Scenario.
