(* ===== verification/Rules.v ===== *)
(** * What a node signs, and when

    [signs_only P m e]: everything the local key signs while [m] runs from [e]
    satisfies [P].  The follower rules of the protocol are proved in this form:
    a vote is signed for a proposal of the leader of the current view whose
    justification is verified and at least as recent as the lock; a commit vote
    only for a verified PrepareQC of the current view. *)

From S2P Require Import Prelude Effects Crypto Messages Signing ValidatorSet Epoch EpochTheory.
From S2P Require Import Quorum QuorumTheory Fifo Pacemaker Round VoteLog Engine Handlers Machine.
From S2P Require Import Refinement HandlerSteps.

Section signs.
Context {L : Type} `{VoteLogWriter L} {blst : Blst} {digest : Digest}.
Abbreviation engine := (ConsensusEngine L).
Abbreviation M := (@M L).

(** The trace of [e'] extends the one of [e] by facts of [P]. *)
Definition signed_more (P : SignedFact -> Prop) (e e' : engine) : Prop :=
  exists new, signed e' = signed e ++ new /\ Forall P new.

#[global] Instance signed_more_preorder P : PreOrder (signed_more P).
Proof.
  split.
  - intros e. exists []. by rewrite app_nil_r.
  - intros e1 e2 e3 (l & E1 & H1) (l' & E2 & H2). exists (l ++ l').
    rewrite E2, E1, app_assoc. split; [done|]. by apply Forall_app.
Qed.

Definition signs_only {A} (P : SignedFact -> Prop) (m : M A) (e : engine) : Prop :=
  holds_at (signed_more P) m e.

Lemma signed_more_same P (e e' : engine) : signed e' = signed e -> signed_more P e e'.
Proof. intros E. exists []. by rewrite app_nil_r. Qed.

(** A computation that leaves the trace alone may be followed by any other. *)
Lemma signs_silent {A B} P (m : M A) (k : A -> M B) e :
  (forall e' r, m e = (e', r) -> signed e' = signed e) ->
  (forall a e', m e = (e', Ok a) -> signs_only P (k a) e') ->
  signs_only P (m ≫= k) e.
Proof.
  intros Hm Hk. apply holds_bind; [apply _| |].
  - unfold holds_at. destruct (m e) as [e' r] eqn:E. by apply signed_more_same, (Hm e' r).
  - intros a e' E _. by apply Hk.
Qed.

Lemma signs_modify {B} P f (k : unit -> M B) e :
  (forall e', signed (f e') = signed e') ->
  (forall e', e' = f e -> signs_only P (k tt) e') -> signs_only P (modify f ≫= k) e.
Proof.
  intros Hf Hk. apply signs_silent; [|intros [] e' Hx].
  - intros e' r Hx. apply pair_equal_spec in Hx as [<- _]. apply Hf.
  - apply pair_equal_spec in Hx as [<- _]. by apply Hk.
Qed.

Lemma signs_emit {B} P o (k : unit -> M B) e :
  (forall e' w, e' = e <| world := w |> -> signs_only P (k tt) e') ->
  signs_only P (emit o ≫= k) e.
Proof.
  intros Hk. destruct (emit_after o e) as (w & r & He & Hw). apply signs_silent.
  - intros e' r' Hx. rewrite He in Hx. apply pair_equal_spec in Hx as [<- _].
    destruct r; cbn in Hw; by destruct Hw as [Hw _] || destruct Hw.
  - intros [] e' Hx. rewrite He in Hx. apply pair_equal_spec in Hx as [<- _]. by eapply Hk.
Qed.

Lemma signs_now {B} P (k : Instant -> M B) e :
  (forall e' w t, e' = e <| world := w |> -> signs_only P (k t) e') ->
  signs_only P (now ≫= k) e.
Proof.
  intros Hk. destruct (tick_after e) as (w & r & Ht & [Hw _] & Hr). apply signs_silent.
  - unfold now, mbind, st_bind. intros e' r' Hx. rewrite Ht in Hx.
    destruct Hr as [->|[n ->]]; cbn in Hx; by apply pair_equal_spec in Hx as [<- _].
  - unfold now, mbind, st_bind. intros t e' Hx. rewrite Ht in Hx.
    destruct Hr as [->|[n ->]]; cbn in Hx; apply pair_equal_spec in Hx as [<- ?]; [done|].
    by eapply Hk.
Qed.

Lemma signs_fact {B} (P : SignedFact -> Prop) f (k : BlsSignature -> M B) e :
  P f -> (forall e' sig, signs_only P (k sig) e') -> signs_only P (sign_fact f ≫= k) e.
Proof.
  intros Hf Hk. apply holds_bind; [apply _| |by intros; apply Hk].
  exists [f]. split; [done|]. by apply Forall_singleton.
Qed.

Lemma signs_zoom_log {A B} P (m : ST L ConsensusError A) (k : A -> M B) e :
  (forall a e' l, e' = e <| vote_log := l |> -> signs_only P (k a) e') ->
  signs_only P (zoom vote_log m ≫= k) e.
Proof.
  intros Hk. unfold zoom. apply signs_silent.
  - intros e' r. destruct (m (vote_log e)) as [l o]. intros Hx.
    by apply pair_equal_spec in Hx as [<- _].
  - intros a e'. destruct (m (vote_log e)) as [l o]. intros Hx.
    apply pair_equal_spec in Hx as [<- _]. by eapply Hk.
Qed.

Lemma signs_pure {A B} P (r : outcome ConsensusError A) (m : M A) (k : A -> M B) e :
  m e = (e, r) -> (forall a, r = Ok a -> signs_only P (k a) e) -> signs_only P (m ≫= k) e.
Proof.
  intros Hm Hk. apply signs_silent; rewrite Hm.
  - intros e' r' Hx. by apply pair_equal_spec in Hx as [<- _].
  - intros a e' Hx. apply pair_equal_spec in Hx as [<- ->]. by apply Hk.
Qed.

Lemma signs_get {B} P (k : engine -> M B) e : signs_only P (k e) e -> signs_only P (get ≫= k) e.
Proof. done. Qed.
Lemma signs_lift {A B} P (r : cresult A) (k : A -> M B) e :
  (forall a, r = Ok a -> signs_only P (k a) e) -> signs_only P (lift r ≫= k) e.
Proof. by apply signs_pure. Qed.
Lemma signs_try {A B} P (f : engine -> cresult A) (k : A -> M B) e :
  (forall a, f e = Ok a -> signs_only P (k a) e) -> signs_only P (try_ f ≫= k) e.
Proof. by apply signs_pure. Qed.

Lemma signs_catch_try {A B} P (f : engine -> cresult A) (k : ConsensusError + A -> M B) e :
  (forall a, f e = Ok a -> signs_only P (k (inr a)) e) ->
  (forall err, f e = Err err -> signs_only P (k (inl err)) e) ->
  signs_only P (catch (try_ f) ≫= k) e.
Proof.
  intros Hok Herr. unfold signs_only, holds_at, catch, try_, mbind, st_bind.
  destruct (f e) as [a|err| |]; [by apply Hok|by apply Herr|by apply signed_more_same..].
Qed.

Lemma signs_leader_of {B} P v set (k : N -> M B) e :
  (forall l, leader_for_view v set = Some l -> signs_only P (k l) e) ->
  signs_only P (leader_of v set ≫= k) e.
Proof.
  intros Hk. unfold leader_of. destruct (leader_for_view v set) as [l|].
  - by apply Hk.
  - apply (signs_pure _ Panic); done.
Qed.

Lemma signs_ret {A} P (a : A) e : signs_only P (mret a) e.
Proof. apply holds_ret, _. Qed.
Lemma signs_fail {A} P err e : signs_only P (fail err : M A) e.
Proof. apply holds_fail, _. Qed.
Lemma signs_emit_last P o e : signs_only P (emit o) e.
Proof.
  unfold signs_only, holds_at. destruct (emit_after o e) as (w & r & -> & Hw).
  apply signed_more_same. destruct r; cbn in Hw; by destruct Hw as [Hw _] || destruct Hw.
Qed.

Lemma signs_assoc {A B C} P (m : M A) (k : A -> M B) (k' : B -> M C) e :
  signs_only P (m ≫= fun a => k a ≫= k') e -> signs_only P ((m ≫= k) ≫= k') e.
Proof.
  unfold signs_only, holds_at, mbind, st_bind. by destruct (m e) as [e' [a|err| |]].
Qed.

Lemma signs_when {B} P b (m : M unit) (k : unit -> M B) e :
  (b = true -> signs_only P (m ≫= k) e) -> (b = false -> signs_only P (k tt) e) ->
  signs_only P (when b m ≫= k) e.
Proof. destruct b; auto. Qed.

Lemma signs_mret {A B} P (a : A) (k : A -> M B) e :
  signs_only P (k a) e -> signs_only P (mret a ≫= k) e.
Proof. done. Qed.
Lemma signs_fail_bind {A B} P err (k : A -> M B) e : signs_only P (fail err ≫= k) e.
Proof. by eapply signs_pure. Qed.
End signs.

Ltac signs_step :=
  cbn zeta beta;
  lazymatch goal with
  | |- signs_only _ (mret _) _ => apply signs_ret
  | |- signs_only _ (fail _) _ => apply signs_fail
  | |- signs_only _ (emit _) _ => apply signs_emit_last
  | |- signs_only _ (mret _ ≫= _) _ => apply signs_mret
  | |- signs_only _ (fail _ ≫= _) _ => apply signs_fail_bind
  | |- signs_only _ ((_ ≫= _) ≫= _) _ => apply signs_assoc
  | |- signs_only _ (get ≫= _) _ => apply signs_get
  | |- signs_only _ (lift _ ≫= _) _ => apply signs_lift; intros ? ?
  | |- signs_only _ (try_ _ ≫= _) _ => apply signs_try; intros ? ?
  | |- signs_only _ (now ≫= _) _ => apply signs_now; intros ? ? ? ?
  | |- signs_only _ (emit _ ≫= _) _ => apply signs_emit; intros ? ? ?
  | |- signs_only _ (modify _ ≫= _) _ =>
      apply signs_modify; [intros; repeat case_match; reflexivity|intros ? ?]
  | |- signs_only _ (zoom vote_log _ ≫= _) _ => apply signs_zoom_log; intros ? ? ? ?
  | |- signs_only _ (leader_of _ _ ≫= _) _ => apply signs_leader_of; intros ? ?
  | |- signs_only _ (leader_index_for_view _ ≫= _) _ =>
      unfold leader_index_for_view
  | |- signs_only _ (when _ _ ≫= _) _ => apply signs_when; intros ?
  | |- signs_only _ ((match ?x with _ => _ end) ≫= _) _ => destruct x eqn:?
  | |- signs_only _ (match ?x with _ => _ end) _ => destruct x eqn:?
  end.
Ltac signs := repeat signs_step.

Section rules.
Context {L : Type} `{VoteLogWriter L} {blst : Blst} {digest : Digest}.
Abbreviation engine := (ConsensusEngine L).
Abbreviation M := (@M L).

Lemma signs_send_vote (P : SignedFact -> Prop) view block_hash (e : engine) :
  (is_local_validator_active_for_view e view = true -> may_vote_in (round_state e) view = true ->
   P (SVote view block_hash)) ->
  signs_only P (send_vote view block_hash) e.
Proof.
  intros HP. unfold send_vote. signs. bool_simpl. apply signs_fact; [auto|]. intros. signs.
Qed.

Lemma signs_piggybacked {B} P proposal (k : unit -> M B) (e : engine) :
  (forall e' r, e' = e <| round_state := r |> -> last_voted_view r = last_voted_view (round_state e) ->
     current_view r = current_view (round_state e) -> signs_only P (k tt) e') ->
  signs_only P (accept_piggybacked proposal ≫= k) e.
Proof.
  intros Hk.
  assert (Hsame : signs_only P (k tt) e).
  { apply (Hk e (round_state e)); [by destruct e|done|done]. }
  unfold accept_piggybacked. destruct (p_prepare_qc proposal) as [qc|]; [|done].
  apply signs_assoc, signs_catch_try; [intros _ _|done]. apply signs_modify; [done|]. intros e' ->.
  apply (Hk _ (update_locked_qc qc (round_state e))); [done|..];
    unfold update_locked_qc; by case_match.
Qed.

Lemma signs_accept_changes {B} P proposal (k : B256 -> M B) (e : engine) :
  (forall h e' m, e' = e <| epoch_manager := m |> -> signs_only P (k h) e') ->
  signs_only P (accept_changes proposal ≫= k) e.
Proof.
  intros Hk. assert (Hsame : forall h, signs_only P (k h) e).
  { intros h. apply (Hk h e (epoch_manager e)). by destruct e. }
  unfold accept_changes. signs; try apply Hsame. subst. by eapply Hk.
Qed.

(** What has been checked when a vote for [p] is signed from [e]. *)
Record proposal_accepted (e : engine) (p : Proposal) : Prop := {
  pa_view : p_view p = engine_view e;
  pa_leader :
    leader_for_view (engine_view e) (engine_set_for_view e (engine_view e)) = Some (p_proposer p);
  pa_signature :
    exists pk, get_public_key (engine_set_for_view e (engine_view e)) (p_proposer p) = Ok pk /\
      verify_single (signing_profile e) pk
        (proposal_message (signing_profile e) (engine_view e) (p_block_hash p)
           (p_validator_changes p)) (p_signature p) = true;
  pa_first : proposal_conflict e p
    (blake3 (proposal_message (signing_profile e) (engine_view e) (p_block_hash p)
               (p_validator_changes p))) = None;
  pa_justify :
    qc_view (p_justify_qc p) = 0 \/ verify_qc_any_domain_or_known e (p_justify_qc p) = Ok tt;
  pa_safe : qc_view (locked_qc (round_state e)) <= qc_view (p_justify_qc p);
  pa_fresh : last_voted_view (round_state e) < engine_view e;
  pa_imported : is_gov5 (signing_profile e) = true -> p_block_hash p ∈ imported_blocks e
}.


Lemma signs_gated_vote (P : SignedFact -> Prop) view p (e : engine) :
  (may_vote_in (round_state e) view = true -> p_block_hash p ∈ imported_blocks e ->
   P (SVote view (p_block_hash p))) ->
  signs_only P (gated_vote view p) e.
Proof.
  intros HP. unfold gated_vote. apply signs_modify; [done|]. intros e' ->. signs.
  apply signs_send_vote. intros _ Hv. bool_simpl. by apply HP.
Qed.

Lemma signs_accept_proposal (P : SignedFact -> Prop) view p (e : engine) :
  ((qc_view (p_justify_qc p) = 0 \/ verify_qc_any_domain_or_known e (p_justify_qc p) = Ok tt) ->
   qc_view (locked_qc (round_state e)) <= qc_view (p_justify_qc p) ->
   last_voted_view (round_state e) < view ->
   (is_gov5 (signing_profile e) = true -> p_block_hash p ∈ imported_blocks e) ->
   P (SVote view (p_block_hash p))) ->
  signs_only P (accept_proposal view p) e.
Proof.
  intros HP. unfold accept_proposal. cbn zeta.
  apply signs_when; intros Hb; [apply signs_try; intros [] Hj|]; bool_simpl;
    [specialize (HP (or_intror Hj))|apply N.le_0_r in Hb; specialize (HP (or_introl Hb))];
    apply signs_get; (destruct (is_safe_to_vote _ _) eqn:Hs; [|apply signs_fail]);
    unfold is_safe_to_vote in Hs; bool_simpl; specialize (HP Hs); cbn match;
    (apply signs_modify; [done|]); intros e1 E1;
    apply signs_piggybacked; intros e2 r E2 Hlv _;
    apply signs_accept_changes; intros h e3 m E3;
    assert (Hvoted : last_voted_view (round_state e3) = last_voted_view (round_state e))
      by (rewrite E3, E2; cbn; rewrite Hlv, E1; cbn; unfold update_locked_qc; by case_match);
    assert (Hprof : signing_profile e3 = signing_profile e) by (by rewrite E3, E2, E1);
    assert (Himp : imported_blocks e3 = imported_blocks e) by (by rewrite E3, E2, E1);
    rewrite <- Hvoted, <- Hprof, <- Himp in HP; clear E1 E2 E3 Hvoted Hprof Himp Hlv;
    signs; subst; (apply signs_gated_vote || apply signs_send_vote); unfold may_vote_in; cbn;
    intros; bool_simpl; cbn in *; apply HP; try done; congruence.
Qed.

Lemma signs_process_proposal p (e : engine) :
  signs_only (fun f => f = SVote (engine_view e) (p_block_hash p) /\ proposal_accepted e p)
    (process_proposal p) e.
Proof.
  unfold process_proposal. signs. subst. bool_simpl.
  apply signs_accept_proposal. intros Hj Hs Hv Hi. split; [done|].
  constructor; try done; eauto.
  match goal with E : p_proposer p = _ |- _ => by rewrite E end.
Qed.

(** What has been checked when a commit vote for [pqc] is signed from [e]. *)
Record prepare_qc_accepted (e : engine) (pqc : PrepareQC) : Prop := {
  qa_view : pqc_view pqc = engine_view e;
  qa_qc_view : qc_view (pqc_qc pqc) = engine_view e;
  qa_block : qc_block_hash (pqc_qc pqc) = pqc_block_hash pqc;
  qa_verified :
    exists set, known_validator_set_for_view (epoch_manager e) (engine_view e) = Some set /\
      certified (signing_profile e) set
        (vote_message (signing_profile e) (engine_view e) (pqc_block_hash pqc))
        (qc_aggregate_signature (pqc_qc pqc)) (qc_signers (pqc_qc pqc));
  qa_fresh : last_commit_voted_view (round_state e) < engine_view e
}.

Lemma resolve_known (e : engine) qc set :
  resolve_qc_validator_set e qc = Ok set ->
  known_validator_set_for_view (epoch_manager e) (qc_view qc) = Some set.
Proof. unfold resolve_qc_validator_set. repeat case_match; congruence. Qed.

Lemma signs_process_prepare_qc pqc (e : engine) :
  signs_only (fun f => (exists c, f = SCommit (engine_view e) (pqc_block_hash pqc) c) /\
                       prepare_qc_accepted e pqc)
    (process_prepare_qc pqc) e.
Proof.
  unfold process_prepare_qc. signs. apply signs_fact; [|intros; signs]. subst.
  match goal with
  | Hr : resolve_qc_validator_set _ _ = Ok _, Hv : verify_qc_with_profile _ _ _ = Ok ?a |- _ =>
      destruct a; apply resolve_known in Hr; apply verify_qc_iff in Hv; rename Hr into Hset;
      rename Hv into Hcert
  end.
  unfold may_commit_vote_in in *. bool_simpl. split; [by eexists|].
  assert (Hq : qc_view (pqc_qc pqc) = engine_view e) by (etrans; eassumption).
  rewrite Hq in Hset, Hcert. constructor; try done.
  - eexists. split; [exact Hset|].
    match goal with E : qc_block_hash (pqc_qc pqc) = _ |- _ => by rewrite <- E end.
  - match goal with E : _ < engine_view e |- _ => revert E end.
    cbn. unfold update_locked_qc. by case_match.
Qed.
End rules.
