(* ===== verification/Progress.v ===== *)
(** * What certificates make a node do

    The effect of the messages that move a node forward: a [Decide] commits its
    block and enters the next view exactly when its CommitQC verifies, a
    [NewView] enters its view only with a verified TimeoutCertificate, a
    certificate of the future makes a lagging node jump behind it.  A handler
    that rejects its message leaves the engine as it was.  The last part is how
    certificates come about: the vote that completes a quorum. *)

From S2P Require Import Prelude Effects Crypto Messages Signing ValidatorSet Epoch EpochTheory.
From S2P Require Import Quorum QuorumTheory Fifo Pacemaker Round VoteLog Engine Handlers Machine.
From S2P Require Import Refinement HandlerSteps Rules.

Lemma bind_Ok {S E A B} (m : ST S E A) (k : A -> ST S E B) s s' b :
  (m ≫= k) s = (s', Ok b) -> exists a s1, m s = (s1, Ok a) /\ k a s1 = (s', Ok b).
Proof. unfold mbind, st_bind. destruct (m s) as [s1 [a|err| |]]; naive_solver. Qed.

(** Takes the first effect off a successful run. *)
Ltac peel H := let a := fresh "a" in let s := fresh "s" in let Hm := fresh "Hm" in
  apply bind_Ok in H as (a & s & Hm & H).

Lemma modify_Ok {S E} (f : S -> S) s s' (a : unit) :
  modify (E := E) f s = (s', Ok a) -> s' = f s.
Proof. intros H. by apply pair_equal_spec in H as [<- _]. Qed.

Section progress.
Context {L : Type} `{CrashSafe L} {blst : Blst} {digest : Digest}.
Abbreviation engine := (ConsensusEngine L).
Abbreviation M := (@M L).

Lemma run_grows {A} n (m : M A) (e e' : engine) r :
  run n m e -> J e -> m e = (e', r) -> grows e e' /\ J e'.
Proof.
  intros Hm HJ E. destruct (Hm HJ) as [Hs _]. rewrite E in Hs. cbn in Hs.
  split; [by apply steps_grows|by eapply steps_J].
Qed.

Lemma now_Ok (e e' : engine) t :
  now e = (e', Ok t) -> exists w, e' = e <| world := w |> /\ world_after e [] w.
Proof.
  unfold now, mbind, st_bind. destruct (tick_after e) as (w & r & -> & Hw & [->|[n ->]]); cbn.
  - done.
  - intros E. apply pair_equal_spec in E as [<- _]. by exists w.
Qed.

Lemma emit_Ok o (e e' : engine) a :
  emit o e = (e', Ok a) -> exists w, e' = e <| world := w |> /\ world_after e [o] w.
Proof.
  destruct (emit_after o e) as (w & r & -> & Hw). intros E.
  apply pair_equal_spec in E as [<- ->]. by exists w.
Qed.

Lemma epoch_u64 m view : is_u64 view -> epoch_for_view m view <= u64_max.
Proof.
  pose proof (epoch_for_view_le m view). unfold is_u64, u64_max. lia.
Qed.

Lemma commit_locks qc r : qc_view qc <= qc_view (locked_qc (rs_commit qc r)).
Proof.
  unfold rs_commit, update_locked_qc. repeat (case_match; bool_simpl; cbn in * ); lia.
Qed.
(** The same, for an effect that [walk] shows to be a sequence of steps. *)
Ltac peel_run H HJ := let a := fresh "a" in let s := fresh "s" in let Hm := fresh "Hm" in
  let Hr := fresh "Hr" in let Hg := fresh "Hg" in let HJ' := fresh "HJ" in
  apply bind_Ok in H as (a & s & Hm & H);
  lazymatch type of Hm with
  | ?m ?e = _ => assert (Hr : run 0 m e) by (apply run_bind_ret; walk)
  end;
  destruct (run_grows _ _ _ _ _ Hr HJ Hm) as [Hg HJ']; clear Hr HJ; rename HJ' into HJ.

(** What the steps of a view change leave alone. *)
Record kept (e e' : engine) : Prop := {
  kept_round : round_state e' = round_state e;
  kept_buffer : future_msg_buffer e' = future_msg_buffer e;
  kept_signed : signed e' = signed e;
  kept_outputs : forall o, o ∈ outputs e -> o ∈ outputs e'
}.

#[local] Instance kept_preorder : PreOrder kept.
Proof.
  split; [by constructor|]. intros e1 e2 e3 [] []. constructor; [congruence..|auto].
Qed.

Lemma kept_world e w sent : world_after e sent w -> kept e (e <| world := w |>).
Proof.
  intros [Hs Ho]. constructor; [done|done|done|]. intros o Hin. unfold outputs in *. cbn.
  rewrite Ho. apply elem_of_app. by left.
Qed.
Lemma kept_emit o (e : engine) : kept e (emit o e).1.
Proof.
  destruct (emit_after o e) as (w & r & -> & Hw).
  destruct r; cbn in *; first [done|by eapply kept_world].
Qed.
Lemma kept_now (e : engine) : kept e (now e).1.
Proof.
  unfold now, mbind, st_bind. destruct (tick_after e) as (w & r & -> & Hw & [->|[n ->]]); cbn;
    by eapply kept_world.
Qed.
Lemma kept_sync (e : engine) : kept e (sync_local_validator_index e).1.
Proof.
  unfold sync_local_validator_index. rewrite (bind_get (L := L)). cbn zeta.
  destruct (index_of_public_key _ _) as [i|]; [|done]. destruct (negb _); by constructor.
Qed.

Lemma kept_cross_epoch (e : engine) : kept e (cross_epoch e).1.
Proof.
  unfold cross_epoch, mbind, st_bind, get, modify, when, mret, st_ret. cbv beta iota zeta.
  destruct (index_of_public_key _ (local_public_key e)) as [i|];
    [destruct (negb (i =? my_index e))|]; cbv beta iota; (etrans; [|apply kept_emit]); by constructor.
Qed.
Lemma kept_cross_epochs fuel target (e : engine) : kept e (cross_epochs fuel target e).1.
Proof.
  revert e. induction fuel as [|fuel IH]; intros e; cbn [cross_epochs];
    unfold mbind, st_bind, get; destruct (_ && _); try done.
  pose proof (kept_cross_epoch e) as Hc. destruct (cross_epoch e) as [e1 [u|err| |]]; try done.
  etrans; [exact Hc|apply IH].
Qed.

(** A step that keeps what [kept] says either stops or goes on. *)
Lemma step_kept {A B} (P : engine * outcome ConsensusError B -> Prop) (m : M A) (k : A -> M B) e :
  kept e (m e).1 ->
  (forall e1 r, kept e e1 -> (forall b, r ≠ Ok b) -> P (e1, r)) ->
  (forall a e1, kept e e1 -> P (k a e1)) -> P ((m ≫= k) e).
Proof.
  unfold mbind, st_bind. destruct (m e) as [e1 [a|err| |]]; cbn; intros Hk Hs Hg; auto.
Qed.

Lemma bind_assoc {A B C} (m : M A) (k : A -> M B) (k' : B -> M C) e :
  ((m ≫= k) ≫= k') e = (m ≫= fun a => k a ≫= k') e.
Proof. unfold mbind, st_bind. by destruct (m e) as [e' [a|err| |]]. Qed.

Lemma bind_modify {B} (f : engine -> engine) (k : unit -> M B) e : (modify f ≫= k) e = k tt (f e).
Proof. done. Qed.

(** The process does not die and its output channel takes every message. *)
Definition channel_open (e : engine) : Prop :=
  forall k, w_crash (world e) k = false /\ w_channel (world e) k = SendOk.

Lemma tick_open (e : engine) :
  channel_open e -> exists w, tick e = (e <| world := w |>, Ok (w_step (world e))) /\
    world_after e [] w /\ channel_open (e <| world := w |>).
Proof.
  intros Ho. unfold tick. destruct (Ho (w_step (world e))) as [-> _].
  eexists. split; [done|]. split; [|done]. split; [done|by rewrite app_nil_r].
Qed.
Lemma bind_now_open {B} (k : Instant -> M B) (e : engine) :
  channel_open e -> exists w t, (now ≫= k) e = k t (e <| world := w |>) /\
    world_after e [] w /\ channel_open (e <| world := w |>).
Proof.
  intros Ho. destruct (tick_open e Ho) as (w & Et & Hw & Ho'). exists w. eexists.
  unfold now, mbind, st_bind. rewrite Et. done.
Qed.
Lemma bind_emit_open {B} o (k : unit -> M B) (e : engine) :
  channel_open e -> exists w, (emit o ≫= k) e = k tt (e <| world := w |>) /\
    world_after e [o] w /\ channel_open (e <| world := w |>).
Proof.
  intros Ho. destruct (tick_open e Ho) as (w & Et & [Hs Hw] & Ho').
  unfold emit, try_send, mbind, st_bind. rewrite Et. cbn.
  destruct (Ho' (w_step (world e))) as [_ Hc]. cbn in Hc. rewrite Hc. cbn.
  eexists. split; [reflexivity|]. rewrite app_nil_r in Hw. split; [|done].
  split; cbn; [done|by rewrite Hw].
Qed.

Section rec.
Context (rec : ConsensusMessage -> M unit) (n : nat).
Hypothesis Hrec : forall msg e, is_u64 (message_view msg) -> run n (rec msg) e.

Lemma advance_reaches view (e e' : engine) a :
  J e -> is_u64 view -> advance_to_view rec view e = (e', Ok a) -> view <= engine_view e'.
Proof.
  intros HJ Hu E. unfold advance_to_view in E. rewrite (bind_get (L := L)) in E.
  destruct (view <=? engine_view e) eqn:Ev; bool_simpl.
  { by apply pair_equal_spec in E as [<- _]. }
  cbn zeta in E. set (target := epoch_for_view (epoch_manager e) view) in E.
  peel E. apply modify_Ok in Hm.
  assert (HJ1 : J s) by (apply (J_frame e); [subst s; by constructor|done]).
  assert (Hem : epoch_manager s = epoch_manager e) by (by subst s).
  peel E. rewrite <- Hem in Hm0.
  destruct (run_grows 0 _ s s0 (Ok a1)
    (run_cross_epochs 0 (N.to_nat (target - current_epoch (epoch_manager s))) target s
       (epoch_u64 _ _ Hu) ltac:(rewrite N2Nat.id; lia)) HJ1 Hm0) as [_ HJ2].
  apply cross_epochs_round in Hm0. peel E. destruct (now_Ok _ _ _ Hm1) as (w & E2 & Hw).
  peel E. apply modify_Ok in Hm2.
  assert (Hv : engine_view s1 < view).
  { subst s1 s. unfold engine_view in *. cbn. by rewrite Hm0. }
  assert (HJ3 : J s1) by (subst s1; by apply (J_frame s0), HJ2; apply world_after_frame).
  destruct (enter_view_core a2 view s1 Hv) as [Hev _]. rewrite <- Hm2 in Hev.
  assert (HJ4 : J s2) by (subst s2; by apply J_enter_view).
  destruct (run_grows _ _ _ _ _ (run_settle_view rec n Hrec view s2) HJ4 E) as [[Hg _ _ _] _].
  destruct Hg as [Hg _ _ _ _]. unfold engine_view in *. lia.
Qed.

Lemma notify_reaches view (e e' : engine) a :
  J e -> is_u64 view -> advance_and_notify rec view e = (e', Ok a) ->
  view <= engine_view e' /\ ViewChanged (engine_view e') ∈ outputs e' /\ grows e e'.
Proof.
  intros HJ Hu E.
  pose proof (run_grows _ _ _ _ _ (run_advance_and_notify rec n Hrec view e Hu) HJ E) as [Hg _].
  unfold advance_and_notify in E. peel E.
  pose proof (advance_reaches _ _ _ _ HJ Hu Hm) as Hv. rewrite (bind_get (L := L)) in E.
  apply emit_Ok in E as (w & -> & _ & Hw). split_and!; [done| |done].
  unfold outputs. cbn. rewrite Hw, elem_of_app, list_elem_of_singleton. by right.
Qed.

(** ** Decisions *)

Record decide_valid (e : engine) (d : Decide) : Prop := {
  dv_view : qc_view (d_commit_qc d) = d_view d;
  dv_block : qc_block_hash (d_commit_qc d) = d_block_hash d;
  dv_certified :
    exists set, known_validator_set_for_view (epoch_manager e) (d_view d) = Some set /\
      certified (signing_profile e) set
        (commit_message (signing_profile e) (d_view d) (d_block_hash d)
           (d_validator_changes_hash d))
        (qc_aggregate_signature (d_commit_qc d)) (qc_signers (d_commit_qc d))
}.

(** The state holds the decision [d]. *)
Record decided (d : Decide) (e : engine) : Prop := {
  dc_committed : d_view d <= qc_view (last_committed_qc (round_state e));
  dc_locked : d_view d <= qc_view (locked_qc (round_state e));
  dc_view : d_view d +s 1 <= engine_view e;
  dc_output : exists changes,
    BlockCommitted (d_view d) (d_block_hash d) (d_commit_qc d) changes ∈ outputs e
}.

Lemma reject_or_valid d (e : engine) :
  engine_view e <= d_view d ->
  (exists err, process_decide rec d e = (e, Err err)) \/ decide_valid e d.
Proof.
  intros Hv. unfold process_decide. rewrite (bind_get (L := L)). cbn zeta.
  rewrite (proj2 (N.ltb_ge _ _) Hv), (bind_lift (L := L)).
  destruct (resolve_qc_validator_set e (d_commit_qc d)) as [set|err| |] eqn:Er;
    [|left; by eexists|by pose proof (clean_resolve e (d_commit_qc d)); rewrite Er in *..].
  repeat (case_match; [left; by eexists|]). bool_simpl. rewrite (bind_lift (L := L)).
  destruct (verify_commit_qc_with_profile _ _ _ _) as [[]|err| |] eqn:Ev;
    [|left; by eexists|by pose proof (clean_verify_commit_qc (d_commit_qc d) set
       (d_validator_changes_hash d) (signing_profile e)); rewrite Ev in *..].
  right. apply verify_commit_qc_iff in Ev. apply resolve_known in Er.
  constructor; [done|done|]. exists set. by split; congruence.
Qed.

Lemma decide_effect d (e e' : engine) :
  J e -> engine_view e <= d_view d -> process_decide rec d e = (e', Ok tt) -> decided d e'.
Proof.
  intros HJ Hv E. unfold process_decide in E. rewrite (bind_get (L := L)) in E. cbn zeta in E.
  rewrite (proj2 (N.ltb_ge _ _) Hv) in E. peel E. apply pair_equal_spec in Hm as [<- _].
  repeat (case_match; [by apply pair_equal_spec in E as [_ ?]|]). bool_simpl.
  peel E. apply pair_equal_spec in Hm as [<- _].
  peel_run E HJ. peel_run E HJ. peel_run E HJ. peel_run E HJ. peel_run E HJ. peel_run E HJ.
  apply modify_Ok in Hm4.
  assert (Hc : d_view d <= qc_view (last_committed_qc (round_state s4)) /\
               d_view d <= qc_view (locked_qc (round_state s4))).
  { subst s4. match goal with E : qc_view (d_commit_qc d) = _ |- _ => rewrite <- E end.
    split; [apply committed_after_commit|apply commit_locks]. }
  peel E. destruct (run_grows 0 _ _ _ _ (run_decide_changes 0 d s4) HJ Hm5) as [G5 HJ5].
  clear HJ. peel_run E HJ5.
  assert (Hc6 : d_view d <= qc_view (last_committed_qc (round_state s6)) /\
                d_view d <= qc_view (locked_qc (round_state s6))).
  { destruct G5 as [[? ? ?] _ _ _], Hg5 as [[? ? ?] _ _ _]. lia. }
  assert (Ho6 : output_committed (round_state s6)
    (BlockCommitted (d_view d) (d_block_hash d) (d_commit_qc d) a7)) by (split_and!; tauto).
  peel E. pose proof (run_emit 0 _ s6 (fun _ : J s6 => I : output_signed (signed s6)
    (BlockCommitted (d_view d) (d_block_hash d) (d_commit_qc d) a7)) (fun _ => Ho6)) as Hr.
  destruct (run_grows _ _ _ _ _ Hr HJ5 Hm7) as [_ HJ7]. clear Hr.
  apply emit_Ok in Hm7 as (w & E7 & _ & Hw).
  destruct (notify_reaches _ _ _ _ HJ7 (sat_succ_u64 _) E) as (Hview & _ & [Hr _ Ho _]).
  destruct Hr as [_ Hl Hlc _ _]. subst s7. cbn in Hl, Hlc. constructor.
  - lia.
  - lia.
  - done.
  - exists a7. destruct Ho as [more ->]. rewrite elem_of_app. left.
    unfold outputs. cbn. rewrite Hw, elem_of_app, list_elem_of_singleton. by right.
Qed.

(** ** View changes *)

(** A NewView is followed only with the signature of its view's leader and a
    certificate of the view before it. *)
Record new_view_valid (e : engine) (nv : NewView) : Prop := {
  nvv_leader : leader_for_view (nv_view nv) (engine_set_for_view e (nv_view nv))
    = Some (nv_leader nv);
  nvv_signature : exists pk,
    get_public_key (engine_set_for_view e (nv_view nv)) (nv_leader nv) = Ok pk /\
    verify_single (signing_profile e) pk (new_view_message (signing_profile e) (nv_view nv))
      (nv_signature nv) = true;
  nvv_tc_view : tc_view (nv_timeout_cert nv) = nv_view nv - 1;
  nvv_certified : certified (signing_profile e)
    (engine_set_for_view e (tc_view (nv_timeout_cert nv)))
    (timeout_message (signing_profile e) (tc_view (nv_timeout_cert nv)))
    (tc_aggregate_signature (nv_timeout_cert nv)) (tc_signers (nv_timeout_cert nv));
  nvv_high_qc : verify_embedded_qc e (tc_high_qc (nv_timeout_cert nv)) = Ok tt
}.

Lemma new_view_sound nv (e : engine) :
  (process_new_view rec nv e).1 ≠ e ->
  engine_view e < nv_view nv /\ new_view_valid e nv.
Proof.
  unfold process_new_view. rewrite (bind_get (L := L)). cbn zeta.
  destruct (nv_view nv <=? engine_view e) eqn:Ev; [done|]. rewrite (bind_leader_of (L := L)).
  destruct (leader_for_view _ _) as [l|] eqn:El; [|done].
  destruct (nv_leader nv =? l) eqn:Enl; [|done]. cbn [negb]. rewrite (bind_lift (L := L)).
  destruct (get_public_key _ _) as [pk|err| |] eqn:Epk; [|done..].
  destruct (verify_single _ _ _ _) eqn:Es; [|done]. cbn [negb].
  destruct (tc_view _ =? _) eqn:Etc; [|done]. cbn [negb].
  rewrite (bind_lift (L := L)). destruct (verify_tc_with_profile _ _ _) as [[]|err| |] eqn:Evt; [|done..].
  rewrite (bind_lift (L := L)). destruct (verify_embedded_qc _ _) as [[]|err| |] eqn:Eq; [|done..].
  intros _. bool_simpl. apply verify_tc_iff in Evt. split; [done|].
  constructor; [by subst l|by exists pk|done|done|done].
Qed.

(** The certificate by which a message moves a lagging node. *)
Record jump_certificate (e : engine) (msg : ConsensusMessage) (qc : QuorumCertificate) : Prop := {
  jc_carried : extract_qc_from_message msg = Some qc;
  jc_signed : 0 < qc_view qc;
  jc_verified : verify_jump_qc e msg qc = Some (Ok tt);
  jc_ahead : engine_view e < qc_view qc +s 1
}.

(** The engine [e] with the lock raised to [qc], in [view]. *)
Record jumped (e : engine) (qc : QuorumCertificate) (view : ViewNumber) (e' : engine) : Prop := {
  ju_view : engine_view e' = view;
  ju_locked : locked_qc (round_state e') = locked_qc (update_locked_qc qc (round_state e));
  ju_signed : signed e' = signed e
}.

(** The view [target] is entered: what was buffered for it is about to be
    replayed, what is buffered for later views is kept, and a sync was asked. *)
Record entered (e : engine) (target : ViewNumber) (e' : engine) : Prop := {
  en_buffer : future_msg_buffer e' = rebuffer target (future_msg_buffer e);
  en_sync : SyncRequired (engine_view e) target ∈ outputs e'
}.

Definition replay_and_notify (msgs : list ConsensusMessage) : M bool :=
  for_each (replay_one rec) msgs ;;
  e ← get;
  emit (ViewChanged (engine_view e)) ;;
  mret true.

(** The outcomes of a jump by [qc]: it stops, because the output channel is
    closed or the process dies, before or after the view is entered; or it
    enters the view just above the certificate and replays what was buffered
    for exactly that view. *)
Definition jump_outcome (e : engine) (qc : QuorumCertificate)
  (x : engine * outcome ConsensusError bool) : Prop :=
  let target := qc_view qc +s 1 in
  (jumped e qc (engine_view e) x.1 \/ jumped e qc target x.1) /\ (forall b, x.2 ≠ Ok b) \/
  exists e1, jumped e qc target e1 /\ entered e target e1 /\
    x = replay_and_notify (to_replay target (future_msg_buffer e)) e1.

Lemma settle_jumps qc (e e1 : engine) :
  let target := qc_view qc +s 1 in
  jumped e qc target e1 -> future_msg_buffer e1 = future_msg_buffer e ->
  SyncRequired (engine_view e) target ∈ outputs e1 ->
  jump_outcome e qc
    ((settle_view rec target ≫= fun _ => e ← get; emit (ViewChanged (engine_view e)) ;; mret true) e1).
Proof.
  intros target Hj Hb Ho. unfold settle_view.
  assert (Hk : forall e2 : engine, kept e1 e2 -> jumped e qc target e2).
  { intros e2 []. destruct Hj. constructor; unfold engine_view in *; congruence. }
  rewrite !bind_assoc. apply (step_kept (jump_outcome e qc)); [apply kept_sync| |].
  { intros e2 r Hk2 Hr. left. auto. }
  intros _ e2 Hk2. rewrite !bind_assoc. apply (step_kept (jump_outcome e qc)).
  { cbn. case_match; by constructor. }
  { intros e3 r Hk3 Hr. left. split; [right; apply Hk; by etrans|done]. }
  intros _ e3 Hk3. rewrite !bind_assoc. apply (step_kept (jump_outcome e qc)); [apply kept_now| |].
  { intros e4 r Hk4 Hr. left. split; [right; apply Hk; etrans; [|done]; by etrans|done]. }
  intros t e4 Hk4. rewrite !bind_assoc. apply (step_kept (jump_outcome e qc)); [by constructor| |].
  { intros e5 r Hk5 Hr. left. split; [|done]. right. apply Hk. by do 3 (etrans; [done|]). }
  intros _ e5 Hk5. assert (Hk15 : kept e1 e5) by (by do 3 (etrans; [done|])).
  destruct (Hk e5 Hk15), Hk15 as [_ Hb5 _ Ho5]. right.
  exists (e5 <| future_msg_buffer := rebuffer target (future_msg_buffer e) |>).
  split; [by constructor|]. split; [constructor; [done|by apply Ho5]|].
  rewrite !bind_assoc, (bind_get (L := L)), !bind_assoc. cbn zeta. by rewrite Hb5, Hb.
Qed.

(** [e0] is [e] with the lock raised, [e1] a later state of the same view. *)
Lemma advance_jumps qc (e e0 e1 : engine) :
  let target := qc_view qc +s 1 in
  engine_view e < target -> jumped e qc (engine_view e) e0 ->
  future_msg_buffer e0 = future_msg_buffer e -> kept e0 e1 ->
  SyncRequired (engine_view e) target ∈ outputs e1 ->
  jump_outcome e qc ((advance_and_notify rec target ;; mret true) e1).
Proof.
  intros target Ht [Hv0 Hl0 Hs0] Hb0 Hk1 Ho.
  assert (Hk : forall e2 : engine, kept e1 e2 -> jumped e qc (engine_view e) e2).
  { intros e2 []. destruct Hk1. constructor; unfold engine_view in *; congruence. }
  unfold advance_and_notify, advance_to_view.
  rewrite !bind_assoc, (bind_get (L := L)). cbn zeta.
  rewrite (proj2 (N.leb_gt _ _)) by (by rewrite (ju_view _ _ _ _ (Hk e1 (PreOrder_Reflexive _)))).
  rewrite bind_assoc. apply (step_kept (jump_outcome e qc)); [by constructor| |].
  { intros e2 r Hk2 Hr. left. auto. }
  intros _ e2 Hk2. rewrite bind_assoc.
  apply (step_kept (jump_outcome e qc)); [apply kept_cross_epochs| |].
  { intros e3 r Hk3 Hr. left. split; [left; apply Hk; by etrans|done]. }
  intros _ e3 Hk3. rewrite bind_assoc. apply (step_kept (jump_outcome e qc)); [apply kept_now| |].
  { intros e4 r Hk4 Hr. left. split; [left; apply Hk; by do 2 (etrans; [done|])|done]. }
  intros t e4 Hk4. rewrite bind_assoc, bind_modify.
  assert (Hk14 : kept e1 e4) by (by do 2 (etrans; [done|])).
  destruct (Hk e4 Hk14) as [Hv4 Hl4 Hs4], Hk14 as [_ Hb4 _ Ho4].
  destruct (enter_view_core t target e4) as (Hev & _ & _ & Hl & _ & _ & _ & _ & Hbuf & _ & Hwo);
    [by rewrite Hv4|].
  apply settle_jumps.
  - constructor; [done|congruence|]. unfold signed in *. rewrite Hwo. congruence.
  - destruct Hk1. congruence.
  - unfold outputs in *. rewrite Hwo. by apply Ho4.
Qed.

Lemma jump_enters qc (e : engine) :
  engine_view e < qc_view qc +s 1 ->
  jump_outcome e qc
    ((modify (fun e => e <| round_state ::= update_locked_qc qc |>) ;;
      modify (fun e => e <| round_state ::= reset_consecutive_timeouts |>) ;;
      emit (SyncRequired (engine_view e) (qc_view qc +s 1)) ;;
      advance_and_notify rec (qc_view qc +s 1) ;; mret true) e).
Proof.
  intros Ht. rewrite !bind_modify. set (e0 := e <| round_state ::= _ |> <| round_state ::= _ |>).
  assert (Hj : jumped e qc (engine_view e) e0).
  { constructor; [|done|done]. subst e0. unfold engine_view, update_locked_qc. cbn. by case_match. }
  assert (Hb : future_msg_buffer e0 = future_msg_buffer e) by done. clearbody e0.
  set (sync := SyncRequired (engine_view e) (qc_view qc +s 1)).
  pose proof (kept_emit sync e0) as Hk. destruct (emit_after sync e0) as (w & r & Ee & Hw).
  unfold mbind at 1, st_bind at 1. rewrite Ee in Hk |- *. cbn [fst] in Hk.
  destruct r as [[]|err| |].
  { apply (advance_jumps qc e e0); [done..|]. destruct Hw as [_ Hw]. unfold outputs. cbn.
    rewrite Hw. apply elem_of_app. right. by left. }
  all: left; split; [left|done]; destruct Hj, Hk; constructor; cbn [fst];
    unfold engine_view in *; congruence.
Qed.

(** A message without a certificate above the current view changes nothing; one
    with such a certificate moves the node just behind it. *)
Lemma jump_cases msg (e : engine) :
  ((forall qc, ~ jump_certificate e msg qc) -> try_qc_view_jump rec msg e = (e, Ok false)) /\
  (forall qc, jump_certificate e msg qc -> jump_outcome e qc (try_qc_view_jump rec msg e)).
Proof.
  unfold try_qc_view_jump. rewrite (bind_get (L := L)). cbn zeta.
  destruct (extract_qc_from_message msg) as [qc|] eqn:Ex; [|split; [done|]; intros qc []; congruence].
  destruct (N.ltb_spec 0 (qc_view qc)) as [Hpos|Hpos]; cbn [negb].
  2: { split; [done|]. intros qc' []. simplify_eq. lia. }
  destruct (verify_jump_qc e msg qc) as [[[]|err| |]|] eqn:Ev;
    try (split; [done|]; intros qc' []; simplify_eq; congruence).
  destruct (N.leb_spec (qc_view qc +s 1) (engine_view e)) as [Ht|Ht].
  { split; [done|]. intros qc' []. simplify_eq. lia. }
  split; [intros Hn; destruct (Hn qc); by constructor|].
  intros qc' []. simplify_eq. by apply jump_enters.
Qed.
End rec.

(** ** Completing a round *)

Section completing.
Context {laws : BlstLaws blst} (rec : ConsensusMessage -> M unit) (n : nat).
Hypothesis Hrec : forall msg e, is_u64 (message_view msg) -> run n (rec msg) e.

(** [c] holds a quorum of verified votes for [message] in the current view. *)
Record complete (e : engine) (c : VoteCollector) (message : bytes) : Prop := {
  co_set : set_wf (engine_set_for_view e (engine_view e));
  co_size : vc_set_size c = len (engine_set_for_view e (engine_view e));
  co_votes : votes_verified (engine_set_for_view e (engine_view e)) (signing_profile e) message c;
  co_quorum : (0 < quorum_size (engine_set_for_view e (engine_view e)))%nat;
  co_count : (quorum_size (engine_set_for_view e (engine_view e)) <= vote_count c)%nat
}.

Lemma complete_builds (e : engine) c message :
  complete e c message -> vc_view c = engine_view e ->
  exists qc, build_qc_with_profile_message c (engine_set_for_view e (engine_view e)) message
      (signing_profile e) = Ok qc /\
    qc_view qc = engine_view e /\ qc_block_hash qc = vc_block_hash c /\
    names (qc_signers qc) (vc_votes c) /\
    certified (signing_profile e) (engine_set_for_view e (engine_view e)) message
      (qc_aggregate_signature qc) (qc_signers qc).
Proof.
  intros [Hwf Hs Hv Hpos Hq] Hvw. rewrite <- Hvw.
  by apply (build_qc_complete c (engine_set_for_view e (vc_view c)) message (signing_profile e)
    (vote_entries c)); rewrite ?Hvw.
Qed.

(** What is sent stays sent, whatever the rest of the handler does. *)
Lemma emit_stays {B} k' o (k : unit -> M B) (e : engine) :
  J e -> channel_open e -> output_signed (signed e) o -> output_committed (round_state e) o ->
  (forall w, world_after e [o] w -> J (e <| world := w |>) -> run k' (k tt) (e <| world := w |>)) ->
  o ∈ outputs ((emit o ≫= k) e).1.
Proof.
  intros HJ Ho Hs Hc Hk. destruct (bind_emit_open o k e Ho) as (w & -> & Hw & _).
  assert (HJ' : J (e <| world := w |>)) by (eapply steps_J; [by eapply steps_sent|done]).
  destruct (Hk w Hw HJ' HJ') as [[_ _ [more Hm] _]%steps_grows _]. rewrite Hm.
  destruct Hw as [_ Hw]. unfold outputs at 1. cbn. rewrite Hw. set_solver.
Qed.

(** The leader's own R2 vote, once the PrepareQC is out. *)
Lemma run_own_commit_vote view block_hash (e : engine) :
  is_u64 view -> view <= qc_view (locked_qc (round_state e)) ->
  run (S n)
    (e ← get;
     if negb (may_commit_vote_in (round_state e) view) then mret tt
     else
       zoom vote_log (record_lock (locked_qc (round_state e))) ;;
       modify (fun e => e <| round_state ::= rs_record_commit_vote view |>) ;;
       zoom vote_log (record_commit_vote view) ;;
       e ← get;
       commit_sig ← sign_fact (SCommit view block_hash (cached_changes_hash e block_hash));
       on_some commit_collector (add_verified_vote (my_index e) commit_sig) ;;
       try_form_commit_qc rec) e.
Proof.
  intros Hu Hl. walk. bool_simpl. eapply run_cast_commit; try done.
  intros e6 e7 sig c _ _. apply run_on_some_commit. intros e8 _ _. by apply run_try_form_commit_qc.
Qed.

Lemma forms_prepare_qc (e : engine) c :
  J e -> channel_open e -> vote_collector e = Some c -> prepare_qc e = None ->
  complete e c (vote_message (signing_profile e) (engine_view e) (vc_block_hash c)) ->
  exists qc,
    verify_qc_with_profile qc (engine_set_for_view e (engine_view e)) (signing_profile e) = Ok tt /\
    names (qc_signers qc) (vc_votes c) /\
    BroadcastMessage (MPrepareQC (mkPrepareQC (engine_view e) (vc_block_hash c) qc))
      ∈ outputs (try_form_prepare_qc rec e).1.
Proof.
  intros HJ Ho Hc Hp Hco. pose proof (J_vote_collector e HJ) as Hat. rewrite Hc in Hat.
  destruct (complete_builds e c _ Hco Hat) as (qc & Eb & Ev & Eh & Hn & Hcert).
  exists qc. split; [apply verify_qc_iff; by rewrite Ev, Eh|]. split; [done|].
  unfold try_form_prepare_qc. rewrite (bind_get (L := L)). cbn zeta. rewrite Hc, Hp.
  unfold vc_has_quorum. pose proof (co_count _ _ _ Hco) as Hq. unfold vote_count in Hq.
  rewrite (proj2 (Nat.leb_le _ _) Hq). cbn [negb]. rewrite (bind_lift (L := L)), Eb.
  match goal with |- context [(now ≫= ?k) e] =>
    destruct (bind_now_open k e Ho) as (w & t & -> & Hw & Ho1) end.
  rewrite !bind_modify. set (e4 := e <| world := w |> <| view_timing ::= _ |> <| view_timing ::= _ |>
    <| prepare_qc := _ |> <| round_state ::= _ |> <| round_state ::= _ |>).
  assert (HJ4 : J e4).
  { eapply astep_J; [apply a_lock|]. eapply astep_J; [apply a_pre_commit|].
    apply (J_frame (e <| world := w |>)); [by constructor|].
    apply (J_frame e); [by apply world_after_frame|done]. }
  assert (Ho4 : channel_open e4) by done.
  assert (Hl4 : engine_view e <= qc_view (locked_qc (round_state e4))).
  { rewrite <- Ev. subst e4. cbn. apply update_locked_qc_ge. }
  assert (Hu : is_u64 (engine_view e)) by (by apply J_view). clearbody e4. rewrite Eh.
  apply (emit_stays (S n)); [done|done|exact I|exact I|].
  intros w5 Hw5 HJ5. by apply run_own_commit_vote.
Qed.

Lemma bind_no_changes {B} (k : option (list ValidatorChange) -> M B) (e : engine) :
  (commit_signed_changes B256_ZERO ≫= k) e = k None e.
Proof. done. Qed.

(** The end of [try_form_commit_qc]: both messages go out. *)
Lemma decide_sent view block_hash qc decide changes (e : engine) :
  J e -> channel_open e -> output_committed (round_state e) (BlockCommitted view block_hash qc changes) ->
  let e' := ((emit (BroadcastMessage (MDecide decide)) ;;
    modify (fun e => e <| pending_tx_roots ::= (fun f => (fifo_remove block_hash f).1) |>) ;;
    emit (BlockCommitted view block_hash qc changes) ;;
    advance_and_notify rec (view +s 1)) e).1 in
  BroadcastMessage (MDecide decide) ∈ outputs e' /\
  BlockCommitted view block_hash qc changes ∈ outputs e'.
Proof.
  intros HJ Ho Hbc e'. split.
  - apply (emit_stays (S n)); [done|done|exact I|exact I|]. intros w Hw _.
    walk; [by intros _; subst|].
    apply run_advance_and_notify; [done|apply sat_succ_u64].
  - subst e'. match goal with |- context [(emit ?o ≫= ?k) e] =>
      destruct (bind_emit_open o k e Ho) as (w & -> & Hw & Ho1) end.
    rewrite bind_modify. apply (emit_stays (S n)); [|done|exact I|done|].
    + apply (J_frame (e <| world := w |>)); [by constructor|].
      eapply steps_J; [|exact HJ]. by apply (steps_sent (BroadcastMessage (MDecide decide))).
    + intros w2 _ _. apply run_advance_and_notify; [done|apply sat_succ_u64].
Qed.

Lemma forms_commit_qc (e : engine) c :
  J e -> channel_open e -> commit_collector e = Some c ->
  cached_changes_hash e (vc_block_hash c) = B256_ZERO ->
  complete e c (commit_message (signing_profile e) (engine_view e) (vc_block_hash c) B256_ZERO) ->
  exists qc,
    verify_commit_qc_with_profile qc (engine_set_for_view e (engine_view e)) B256_ZERO
      (signing_profile e) = Ok tt /\
    names (qc_signers qc) (vc_votes c) /\
    BroadcastMessage (MDecide (mkDecide (engine_view e) (vc_block_hash c) qc B256_ZERO))
      ∈ outputs (try_form_commit_qc rec e).1 /\
    BlockCommitted (engine_view e) (vc_block_hash c) qc None ∈ outputs (try_form_commit_qc rec e).1.
Proof.
  intros HJ Ho Hc Hz Hco. pose proof (J_commit_collector e HJ) as Hat. rewrite Hc in Hat.
  destruct (complete_builds e c _ Hco Hat) as (qc & Eb & Ev & Eh & Hn & Hcert).
  exists qc. split; [apply verify_commit_qc_iff; by rewrite Ev, Eh|]. split; [done|].
  unfold try_form_commit_qc. rewrite (bind_get (L := L)). cbn zeta. rewrite Hc.
  unfold vc_has_quorum. pose proof (co_count _ _ _ Hco) as Hq. unfold vote_count in Hq.
  rewrite (proj2 (Nat.leb_le _ _) Hq). cbn [negb]. rewrite Hz, (bind_lift (L := L)), Eb.
  match goal with |- context [(now ≫= ?k) e] =>
    destruct (bind_now_open k e Ho) as (w & t & -> & Hw & Ho1) end.
  rewrite !bind_modify. set (e4 := e <| world := w |> <| view_timing ::= _ |> <| view_timing ::= _ |>
    <| round_state ::= _ |>).
  assert (HJ4 : J e4).
  { eapply astep_J; [apply a_commit|]. apply (J_frame (e <| world := w |>)); [by constructor|].
    apply (J_frame e); [by apply world_after_frame|done]. }
  assert (Ho4 : channel_open e4) by done.
  assert (Hbc : output_committed (round_state e4)
    (BlockCommitted (engine_view e) (vc_block_hash c) qc None)).
  { split_and!; [done|done|]. rewrite <- Ev. apply committed_after_commit. }
  clearbody e4. rewrite bind_no_changes. by apply decide_sent.
Qed.
(** A valid vote of a new voter that makes the votes of the leader's collector
    [c] a quorum; [tracker] knows no other vote of the voter. *)
Record last_vote (e : engine) (c : VoteCollector) (message : bytes) (tracker : gmap N B256)
  (view : ViewNumber) (voter : N) (block_hash : B256) (signature : BlsSignature) : Prop := {
  lv_leader : exists i, local_validator_index_for_view e (engine_view e) = Some i /\
    leader_for_view (engine_view e) (engine_set_for_view e (engine_view e)) = Some i;
  lv_view : view = engine_view e;
  lv_block : block_hash = vc_block_hash c;
  lv_set : set_wf (engine_set_for_view e (engine_view e));
  lv_size : vc_set_size c = len (engine_set_for_view e (engine_view e));
  lv_votes : votes_verified (engine_set_for_view e (engine_view e)) (signing_profile e) message c;
  lv_quorum : (0 < quorum_size (engine_set_for_view e (engine_view e)) <= S (vote_count c))%nat;
  lv_voter : voter < len (engine_set_for_view e (engine_view e));
  lv_new : vc_votes c !! voter = None;
  lv_tracker : forall h, tracker !! voter = Some h -> h = block_hash;
  lv_signature : verify_single (signing_profile e)
    (key_of (engine_set_for_view e (engine_view e)) voter) message signature = true
}.

Definition with_vote (voter : N) (signature : BlsSignature) (c : VoteCollector) : VoteCollector :=
  mkVoteCollector (vc_view c) (vc_block_hash c) (<[voter := signature]> (vc_votes c))
    (vc_set_size c) ({[voter]} ∪ vc_verified c).

Lemma last_vote_complete e e' c message tracker view voter block_hash signature :
  last_vote e c message tracker view voter block_hash signature ->
  engine_view e' = engine_view e ->
  engine_set_for_view e' (engine_view e) = engine_set_for_view e (engine_view e) ->
  signing_profile e' = signing_profile e ->
  complete e' (with_vote voter signature c) message.
Proof.
  intros [] Hv Hs Hp. constructor; rewrite Hv, Hs; [done|done| |lia|].
  - rewrite Hp. pose proof (add_verified_vote_sound c _ _ _ voter signature lv_votes0) as Hav.
    unfold add_verified_vote, mbind, st_bind, add_vote in Hav. rewrite lv_new0 in Hav.
    apply Hav. split; [done|]. by apply verify_single_spec.
  - unfold vote_count in *. cbn. rewrite map_size_insert_None by done. lia.
Qed.

Lemma bind_leader {B} (k : bool -> M B) e c message tracker view voter block_hash signature :
  last_vote e c message tracker view voter block_hash signature ->
  (is_current_leader ≫= k) e = k true e.
Proof.
  intros [(i & Hi & Hl) _ _ _ _ _ _ _ _ _ _].
  unfold is_current_leader, is_leader_for_view, leader_index_for_view, leader_of.
  unfold mbind, st_bind, get. rewrite Hi, Hl. cbn. by rewrite N.eqb_refl.
Qed.

Lemma bind_checked {B} (k : unit -> M B) message e c tracker view voter block_hash signature :
  last_vote e c (message e) tracker view voter block_hash signature ->
  (check_signature false (engine_view e) voter message signature ≫= k) e = k tt e.
Proof.
  intros []. unfold check_signature. rewrite bind_assoc, (bind_get (L := L)), bind_assoc.
  rewrite (bind_lift (L := L)), get_public_key_in_range by done. by rewrite lv_signature0.
Qed.

Lemma no_conflict tracker voter block_hash :
  (forall h, tracker !! voter = Some h -> h = block_hash) ->
  exists tracker', check_equivocation tracker voter block_hash = (tracker', None).
Proof.
  intros Ht. unfold check_equivocation. destruct (tracker !! voter) as [h|]; [|eauto].
  rewrite (Ht h eq_refl), N.eqb_refl. eauto.
Qed.

Lemma process_last_vote (e : engine) vote c :
  vote_collector e = Some c ->
  last_vote e c (vote_message (signing_profile e) (engine_view e) (v_block_hash vote))
    (equivocation_tracker e) (v_view vote) (v_voter vote) (v_block_hash vote) (v_signature vote) ->
  exists tracker, process_vote rec vote e =
    try_form_prepare_qc rec (e <| equivocation_tracker := tracker |>
      <| vote_collector := Some (with_vote (v_voter vote) (v_signature vote) c) |>).
Proof.
  intros Hc Hl. destruct (no_conflict _ _ _ (lv_tracker _ _ _ _ _ _ _ _ Hl)) as [tracker Et].
  exists tracker. unfold process_vote, process_vote_inner. rewrite (bind_get (L := L)). cbn zeta.
  rewrite (lv_view _ _ _ _ _ _ _ _ Hl), N.eqb_refl. cbn [negb].
  rewrite (bind_leader _ _ _ _ _ _ _ _ _ Hl). cbn [negb].
  rewrite (bind_checked _ (fun e' => vote_message (signing_profile e') (engine_view e)
    (v_block_hash vote)) _ _ _ _ _ _ _ Hl).
  rewrite (bind_get (L := L)), Et, bind_modify, Hc, (lv_block _ _ _ _ _ _ _ _ Hl), N.eqb_refl.
  cbn [negb]. unfold collect_vote, on_some, catch, mbind, st_bind. cbn. rewrite Hc.
  unfold add_verified_vote, mbind, st_bind, add_vote. by rewrite (lv_new _ _ _ _ _ _ _ _ Hl).
Qed.

Lemma process_last_commit_vote (e : engine) cv c :
  commit_collector e = Some c ->
  last_vote e c (commit_message (signing_profile e) (engine_view e) (cv_block_hash cv)
      (cached_changes_hash e (cv_block_hash cv)))
    (commit_equivocation_tracker e) (cv_view cv) (cv_voter cv) (cv_block_hash cv)
    (cv_signature cv) ->
  exists tracker, process_commit_vote rec cv e =
    try_form_commit_qc rec (e <| commit_equivocation_tracker := tracker |>
      <| commit_collector := Some (with_vote (cv_voter cv) (cv_signature cv) c) |>).
Proof.
  intros Hc Hl. destruct (no_conflict _ _ _ (lv_tracker _ _ _ _ _ _ _ _ Hl)) as [tracker Et].
  exists tracker. unfold process_commit_vote, process_commit_vote_inner.
  rewrite (bind_get (L := L)). cbn zeta.
  rewrite (lv_view _ _ _ _ _ _ _ _ Hl), N.eqb_refl. cbn [negb].
  rewrite (bind_leader _ _ _ _ _ _ _ _ _ Hl). cbn [negb].
  rewrite (bind_checked _ (fun e' => commit_message (signing_profile e') (engine_view e)
    (cv_block_hash cv) (cached_changes_hash e' (cv_block_hash cv))) _ _ _ _ _ _ _ Hl).
  rewrite (bind_get (L := L)), Et, bind_modify, Hc, (lv_block _ _ _ _ _ _ _ _ Hl), N.eqb_refl.
  cbn [negb]. unfold collect_vote, on_some, catch, mbind, st_bind. cbn. rewrite Hc.
  unfold add_verified_vote, mbind, st_bind, add_vote. by rewrite (lv_new _ _ _ _ _ _ _ _ Hl).
Qed.

Lemma last_vote_prepares (e : engine) vote c :
  J e -> channel_open e -> vote_collector e = Some c -> prepare_qc e = None ->
  last_vote e c (vote_message (signing_profile e) (engine_view e) (v_block_hash vote))
    (equivocation_tracker e) (v_view vote) (v_voter vote) (v_block_hash vote) (v_signature vote) ->
  exists qc,
    verify_qc_with_profile qc (engine_set_for_view e (engine_view e)) (signing_profile e) = Ok tt /\
    names (qc_signers qc) (<[v_voter vote := v_signature vote]> (vc_votes c)) /\
    BroadcastMessage (MPrepareQC (mkPrepareQC (engine_view e) (v_block_hash vote) qc))
      ∈ outputs (process_vote rec vote e).1.
Proof.
  intros HJ Ho Hc Hp Hl. destruct (process_last_vote e vote c Hc Hl) as [tracker ->].
  set (c' := with_vote _ _ c). set (e' := e <| equivocation_tracker := _ |> <| vote_collector := _ |>).
  pose proof (J_vote_collector e HJ) as Hat. rewrite Hc in Hat.
  assert (HJ' : J e').
  { apply (astep_J (e <| equivocation_tracker := tracker |>)); [by apply A_vote_collector|].
    apply (J_frame e); [by constructor|done]. }
  pose proof (lv_block _ _ _ _ _ _ _ _ Hl) as Hb. rewrite Hb in Hl |- *.
  apply (forms_prepare_qc e' c' HJ' Ho eq_refl Hp). by eapply last_vote_complete.
Qed.

Lemma last_commit_vote_commits (e : engine) cv c :
  J e -> channel_open e -> commit_collector e = Some c ->
  cached_changes_hash e (cv_block_hash cv) = B256_ZERO ->
  last_vote e c (commit_message (signing_profile e) (engine_view e) (cv_block_hash cv) B256_ZERO)
    (commit_equivocation_tracker e) (cv_view cv) (cv_voter cv) (cv_block_hash cv)
    (cv_signature cv) ->
  exists qc,
    verify_commit_qc_with_profile qc (engine_set_for_view e (engine_view e)) B256_ZERO
      (signing_profile e) = Ok tt /\
    names (qc_signers qc) (<[cv_voter cv := cv_signature cv]> (vc_votes c)) /\
    BroadcastMessage (MDecide (mkDecide (engine_view e) (cv_block_hash cv) qc B256_ZERO))
      ∈ outputs (process_commit_vote rec cv e).1 /\
    BlockCommitted (engine_view e) (cv_block_hash cv) qc None
      ∈ outputs (process_commit_vote rec cv e).1.
Proof.
  intros HJ Ho Hc Hz Hl. rewrite <- Hz in Hl.
  destruct (process_last_commit_vote e cv c Hc Hl) as [tracker ->]. rewrite Hz in Hl.
  set (c' := with_vote _ _ c).
  set (e' := e <| commit_equivocation_tracker := _ |> <| commit_collector := _ |>).
  pose proof (J_commit_collector e HJ) as Hat. rewrite Hc in Hat.
  assert (HJ' : J e').
  { apply (astep_J (e <| commit_equivocation_tracker := tracker |>)); [by apply A_commit_collector|].
    apply (J_frame e); [by constructor|done]. }
  pose proof (lv_block _ _ _ _ _ _ _ _ Hl) as Hb. rewrite Hb in Hz, Hl |- *.
  apply (forms_commit_qc e' c' HJ' Ho eq_refl Hz). by eapply last_vote_complete.
Qed.
End completing.
End progress.
