(* ===== verification/Agreement.v ===== *)
(** * Agreement within a view

    Two certificates of the same kind and view name the same block, as long as
    at most [f] validators are faulty: quorums share a correct validator, a
    correct validator signs one vote of each kind per view over all its
    incarnations ([Node]), and the signed bytes determine the block ([Signing]).
    Unforgeability of the signature scheme enters as [attested]: a correct
    signer named by a certificate did sign its message. *)

From S2P Require Import Prelude Effects Crypto Messages Signing ValidatorSet Epoch EpochTheory.
From S2P Require Import Quorum QuorumTheory Fifo Pacemaker Round VoteLog Engine Handlers Machine.
From S2P Require Import Refinement HandlerSteps Node.

Lemma vote_unique (trace : list SignedFact) v h h' :
  NoDup (vote_views trace) -> SVote v h ∈ trace -> SVote v h' ∈ trace -> h = h'.
Proof.
  unfold vote_views. induction trace as [|f trace IH]; [by intros _ ?%not_elem_of_nil|].
  assert (Hin : forall g, SVote v g ∈ trace ->
    v ∈ omap (fun f => match f with SVote v _ => Some v | _ => None end) trace).
  { intros g Hg. apply list_elem_of_omap. by exists (SVote v g). }
  rewrite !elem_of_cons. destruct f; cbn; try naive_solver.
  rewrite NoDup_cons. intros [Hn Hnd] [Ha|Ha] [Hb|Hb]; simplify_eq; naive_solver.
Qed.

Lemma commit_unique (trace : list SignedFact) v h c h' c' :
  NoDup (commit_views trace) -> SCommit v h c ∈ trace -> SCommit v h' c' ∈ trace ->
  h = h' /\ c = c'.
Proof.
  unfold commit_views. induction trace as [|f trace IH]; [by intros _ ?%not_elem_of_nil|].
  assert (Hin : forall g d, SCommit v g d ∈ trace ->
    v ∈ omap (fun f => match f with SCommit v _ _ => Some v | _ => None end) trace).
  { intros g d Hg. apply list_elem_of_omap. by exists (SCommit v g d). }
  rewrite !elem_of_cons. destruct f; cbn; try naive_solver.
  rewrite NoDup_cons. intros [Hn Hnd] [Ha|Ha] [Hb|Hb]; simplify_eq; naive_solver.
Qed.

Section agreement.
Context {L : Type} `{CrashSafe L} {blst : Blst} {digest : Digest}.
Abbreviation engine := (ConsensusEngine L).

(** The validators of [set], which of them are faulty, and what the others
    signed over their whole life. *)
Record committee_run (set : ValidatorSet) (byz : list bool) (trace : nat -> list SignedFact)
  : Prop := {
  cr_wf : set_wf set;
  cr_size : N.of_nat (length (validators set)) <= u32_max;
  cr_nonempty : validators set ≠ [];
  cr_byz : length byz = length (validators set);
  cr_faults : (count_ones byz <= N.to_nat (fault_tolerance set))%nat;
  cr_correct : forall i, byz !! i = Some false -> exists e : engine, reachable e /\ trace i = signed e
}.

(** Every correct validator that [signers] names signed [message]. *)
Definition attested (profile : ConsensusSigningProfile) (byz : list bool)
  (trace : nat -> list SignedFact) (signers : list bool) (message : bytes) : Prop :=
  forall i, signers !! i = Some true -> byz !! i = Some false ->
    exists f, f ∈ trace i /\ fact_wf f /\ fact_message profile f = message.

Lemma certified_share_correct profile set byz trace m m' sig sig' signers signers' :
  committee_run set byz trace ->
  certified profile set m sig signers -> certified profile set m' sig' signers' ->
  exists i, honest_overlap byz signers signers' i.
Proof.
  intros [Hwf Hn Hne Hb Hf _] [L1 Q1 _] [L2 Q2 _].
  assert (Hlen : N.to_nat (len set) = length (validators set)).
  { unfold len. rewrite as_u32_id by done. lia. }
  pose proof (fault_bound set Hwf Hne). unfold quorum_size in *.
  apply (quorum_intersection byz signers signers' (N.to_nat (fault_tolerance set))); lia.
Qed.

(** A correct signer of both certificates gives two of its facts. *)
Lemma shared_facts profile set byz trace f f' sig sig' signers signers' :
  committee_run set byz trace ->
  certified profile set (fact_message profile f) sig signers ->
  certified profile set (fact_message profile f') sig' signers' ->
  attested profile byz trace signers (fact_message profile f) ->
  attested profile byz trace signers' (fact_message profile f') ->
  exists e g g', reachable (L := L) e /\ g ∈ signed e /\ g' ∈ signed e /\ fact_wf g /\ fact_wf g' /\
    fact_message profile g = fact_message profile f /\
    fact_message profile g' = fact_message profile f'.
Proof.
  intros Hrun Hc Hc' Ha Ha'.
  destruct (certified_share_correct _ _ _ _ _ _ _ _ _ _ Hrun Hc Hc') as (i & H1 & H2 & Hi).
  destruct (cr_correct _ _ _ Hrun i Hi) as (e & He & Ht).
  destruct (Ha i H1 Hi) as (g & Hg & Hgw & Eg), (Ha' i H2 Hi) as (g' & Hg' & Hgw' & Eg').
  rewrite Ht in Hg, Hg'. by exists e, g, g'.
Qed.
End agreement.
