(* ===== verification/Safety.v ===== *)
(** * Safety of a validator over its whole life

    The invariant of [Machine] read at reachable states ([Node]): what a
    validator has signed, what its disk remembers, what it may still sign.  The
    last part is the one thing a restart does break, as a run of the concrete
    committee of [Scenario]. *)

From S2P Require Import Prelude Effects Crypto Messages Signing ValidatorSet Epoch EpochTheory.
From S2P Require Import Quorum QuorumTheory Fifo Pacemaker Round VoteLog Engine Handlers Machine.
From S2P Require Import Refinement Caches HandlerSteps Termination Node Scenario Rules Progress.
From S2P Require Import Agreement.

Section safety.
Context {L : Type} `{CrashSafe L} {blst : Blst} {digest : Digest}.
Abbreviation engine := (ConsensusEngine L).

(** C1: two CommitQCs of the same view that verify against the same validator
    set commit the same block (and, in the native profile, the same validator
    changes), in every signing profile, the gov5 legacy one included, when at
    most [f] of the [n > 3f] validators are faulty, even if correct validators
    crash and restart at any point.  Unforgeability of the signatures is the
    assumption [attested]: a correct validator that a certificate names did sign
    that certificate's message, in one of its incarnations and in that profile.
    Views and hashes are of their machine widths ([fact_wf]). *)
Theorem commit_agreement profile set byz trace qc qc' c c' :
  committee_run (L := L) set byz trace ->
  qc_view qc = qc_view qc' ->
  fact_wf (SCommit (qc_view qc) (qc_block_hash qc) c) ->
  fact_wf (SCommit (qc_view qc') (qc_block_hash qc') c') ->
  verify_commit_qc_with_profile qc set c profile = Ok tt ->
  verify_commit_qc_with_profile qc' set c' profile = Ok tt ->
  attested profile byz trace (qc_signers qc)
    (commit_message profile (qc_view qc) (qc_block_hash qc) c) ->
  attested profile byz trace (qc_signers qc')
    (commit_message profile (qc_view qc') (qc_block_hash qc') c') ->
  qc_block_hash qc = qc_block_hash qc' /\ (profile = Native -> c = c').
Proof.
  intros Hrun Hv Hw Hw' Hc Hc' Ha Ha'. apply verify_commit_qc_iff in Hc, Hc'.
  destruct (shared_facts (L := L) profile set byz trace (SCommit _ _ c) (SCommit _ _ c') _ _ _ _
    Hrun Hc Hc' Ha Ha') as (e & g & g' & He & Hg & Hg' & Hgw & Hgw' & Eg & Eg').
  apply commit_facts_separate in Eg; [|done..]. apply commit_facts_separate in Eg'; [|done..].
  destruct g as [| |v h d| |]; try done. destruct g' as [| |v' h' d'| |]; try done.
  destruct Eg as (-> & -> & Hd), Eg' as (-> & -> & Hd').
  rewrite <- Hv in Hg'.
  destruct (commit_unique _ _ _ _ _ _ (J_commits_once e (reachable_J e He)) Hg Hg') as [-> ->].
  split; [done|]. intros Hn. by rewrite <- (Hd Hn), <- (Hd' Hn).
Qed.

(** Two PrepareQCs of the same view that verify against the same validator
    set prepare the same block, under the same assumptions, in the native and
    in the H2-v4 profile (in the gov5 legacy profile the bytes of a leader's
    proposal are also those of its vote). *)
Theorem prepare_agreement profile set byz trace qc qc' :
  profile ≠ Gov5Legacy -> committee_run (L := L) set byz trace ->
  qc_view qc = qc_view qc' ->
  fact_wf (SVote (qc_view qc) (qc_block_hash qc)) ->
  fact_wf (SVote (qc_view qc') (qc_block_hash qc')) ->
  verify_qc_with_profile qc set profile = Ok tt ->
  verify_qc_with_profile qc' set profile = Ok tt ->
  attested profile byz trace (qc_signers qc)
    (vote_message profile (qc_view qc) (qc_block_hash qc)) ->
  attested profile byz trace (qc_signers qc')
    (vote_message profile (qc_view qc') (qc_block_hash qc')) ->
  qc_block_hash qc = qc_block_hash qc'.
Proof.
  intros Hp Hrun Hv Hw Hw' Hc Hc' Ha Ha'. apply verify_qc_iff in Hc, Hc'.
  destruct (shared_facts (L := L) profile set byz trace (SVote _ _) (SVote _ _) _ _ _ _
    Hrun Hc Hc' Ha Ha') as (e & g & g' & He & Hg & Hg' & Hgw & Hgw' & Eg & Eg').
  apply facts_separate in Eg; [|done..]. apply facts_separate in Eg'; [|done..].
  destruct g as [|v h| | |]; try done. destruct g' as [|v' h'| | |]; try done.
  destruct Eg as (-> & ->), Eg' as (-> & ->). rewrite <- Hv in Hg'.
  exact (vote_unique _ _ _ _ (J_votes_once e (reachable_J e He)) Hg Hg').
Qed.

(** C2: over all its incarnations, whatever it receives and wherever it crashes,
    a validator signs at most one R1 vote and at most one R2 commit vote per
    view. *)
Theorem one_vote_per_view (e : engine) :
  reachable e ->
  NoDup (vote_views (signed e)) /\ NoDup (commit_views (signed e)).
Proof. intros He. pose proof (reachable_J e He) as []. by split. Qed.

(** C3: what a validator signed is on disk: the views the vote log would return
    to a restart cover every R1 and R2 vote ever signed, and no commit vote is
    newer than the lock on disk or the lock in memory. *)
Theorem signed_votes_durable (e : engine) :
  reachable e ->
  (forall v, v ∈ vote_views (signed e) -> v <= (last_vote_views (vote_log e)).1) /\
  (forall v, v ∈ commit_views (signed e) ->
     v <= (last_vote_views (vote_log e)).2 /\
     v <= lock_view (durable_lock (vote_log e)) /\
     v <= qc_view (locked_qc (round_state e))).
Proof. intros He. pose proof (reachable_J e He) as []. by split. Qed.

(** C4: a follower signs at most an R1 vote for the proposal it processes, and
    only when the proposal is of the current view, signed by its leader, the
    first of that leader, justified by a verified certificate at least as recent
    as the lock, hence at least as recent as every view this validator ever
    commit-voted in, also before a restart. *)
Theorem proposal_vote_rule (e : engine) p :
  reachable e ->
  exists new, signed (process_proposal p e).1 = signed e ++ new /\
    forall f, f ∈ new ->
      f = SVote (engine_view e) (p_block_hash p) /\ proposal_accepted e p /\
      forall v, v ∈ commit_views (signed e) -> v <= qc_view (p_justify_qc p).
Proof.
  intros He. destruct (signs_process_proposal p e) as (new & Hs & Hall). exists new.
  split; [done|]. intros f Hf. rewrite Forall_forall in Hall.
  destruct (Hall f Hf) as [-> Hacc]. split_and!; [done|done|]. intros v Hv.
  apply (J_commits e (reachable_J e He)) in Hv as (_ & _ & Hv). pose proof (pa_safe _ _ Hacc). lia.
Qed.

(** C5: a follower signs at most an R2 commit vote for the PrepareQC it
    processes, and only when that certificate is of the current view, names the
    block voted for, and carries a quorum of R1 votes of the view's set. *)
Theorem commit_vote_rule (e : engine) pqc :
  exists new, signed (process_prepare_qc pqc e).1 = signed e ++ new /\
    forall f, f ∈ new ->
      (exists c, f = SCommit (engine_view e) (pqc_block_hash pqc) c) /\
      prepare_qc_accepted e pqc.
Proof.
  destruct (signs_process_prepare_qc pqc e) as (new & Hs & Hall). exists new.
  split; [done|]. by apply Forall_forall.
Qed.

(** C6: [process_event] always terminates: the recursion through the replay of
    buffered messages needs no more levels than there are buffered messages,
    and with any larger bound the result is the same. *)
Theorem process_event_terminates (e : engine) event fuel :
  reachable e -> event_u64 event -> (length (future_msg_buffer e) < fuel)%nat ->
  process_event_body (dispatch_message fuel) event e = process_event event e /\
  (process_event event e).2 ≠ OutOfFuel.
Proof.
  intros He Hu Hf. apply process_event_total; [by apply reachable_J|done|].
  unfold replay_fuel. lia.
Qed.

(** C7: no event takes anything back: the view, the lock, the last committed
    certificate and both vote watermarks only grow, the messages sent and the
    facts signed are only extended. *)
Theorem process_event_monotone (e : engine) event :
  reachable e -> event_u64 event ->
  round_le (round_state e) (round_state (process_event event e).1) /\
  signed e `prefix_of` signed (process_event event e).1 /\
  outputs e `prefix_of` outputs (process_event event e).1.
Proof.
  intros He Hu. destruct (process_event_steps event e (reachable_J e He) Hu) as [Hs _].
  by destruct (steps_grows _ _ Hs).
Qed.

(** C8: every vote a validator sends it signed before (and so logged before, see
    C4), every proposal it broadcasts it voted for itself, and every block it
    reports as committed is the block of the certificate it reports, no newer
    than its last committed certificate. *)
Theorem outputs_backed (e : engine) :
  reachable e ->
  Forall (output_signed (signed e)) (outputs e) /\
  Forall (output_committed (round_state e)) (outputs e).
Proof. intros He. pose proof (reachable_J e He) as []. by split. Qed.

(** C9: a [Decide] of the current or a later view commits its block exactly on
    the strength of its CommitQC: without a valid one it is an error and leaves
    the engine as it was; when it is processed the certificate is valid, the
    block is reported as committed, the lock and the last committed certificate
    have reached it and the node is past its view.  A stale one is ignored. *)
Theorem decide_spec (e : engine) d :
  reachable e ->
  let '(e', r) := process_event (Message (MDecide d)) e in
  (d_view d < engine_view e -> e' = e /\ r = Ok tt) /\
  (engine_view e <= d_view d -> ~ decide_valid e d -> e' = e /\ exists err, r = Err err) /\
  (engine_view e <= d_view d -> r = Ok tt -> decide_valid e d /\ decided d e').
Proof.
  intros He. pose proof (reachable_J e He) as HJ.
  assert (Hd : process_event (Message (MDecide d)) e =
    process_decide (dispatch_message (replay_fuel e)) d e).
  { unfold process_event, with_fuel. cbn [process_event_body]. unfold process_message_body.
    rewrite (bind_get (L := L)). cbn [is_exempt negb]. by rewrite !andb_false_r. }
  rewrite Hd. pose proof (reject_or_valid (dispatch_message (replay_fuel e)) d e) as Hrv.
  pose proof (fun e' => decide_effect _ _ (run_dispatch (replay_fuel e)) d e e' HJ) as Heff.
  destruct (process_decide _ d e) as [e' r] eqn:E. split_and!.
  - intros Hlt. unfold process_decide in E. rewrite (bind_get (L := L)) in E. cbn zeta in E.
    rewrite (proj2 (N.ltb_lt _ _) Hlt) in E. by apply pair_equal_spec in E as [<- <-].
  - intros Hge Hn. destruct (Hrv Hge) as [[err Herr]|?]; [|done].
    apply pair_equal_spec in Herr as [-> ->]. split; [done|by eexists].
  - intros Hge ->. split; [|by apply Heff].
    destruct (Hrv Hge) as [[err Herr]|?]; [|done]. by apply pair_equal_spec in Herr as [_ ?].
Qed.

(** C10: a [NewView] changes the engine only when it is of a later view, names
    that view's leader, carries a signature that verifies under the leader's
    key, and carries a certificate of timeouts of the view before it from a
    quorum, together with a verified highest certificate. *)
Theorem new_view_needs_certificate (e : engine) nv :
  (process_event (Message (MNewView nv)) e).1 ≠ e ->
  engine_view e < nv_view nv /\ new_view_valid e nv.
Proof.
  unfold process_event, with_fuel. cbn [process_event_body]. unfold process_message_body.
  rewrite (bind_get (L := L)). cbn [is_exempt negb]. rewrite !andb_false_r. apply new_view_sound.
Qed.


(** C13: the vote that completes a quorum completes the round.  When the
    collector of a view's leader holds verified votes of distinct validators,
    one short of a quorum or more, and a valid vote of another validator for the
    same block arrives, the leader broadcasts a PrepareQC that every node with
    the same set verifies and that names exactly the voters; likewise a
    commit vote that completes a quorum makes it broadcast a [Decide] with a
    CommitQC that verifies and report the block as committed (for blocks
    without validator changes).  The voter
    must not have voted for another block, and the output channel must take the
    messages. *)
Theorem quorum_vote_completes {laws : BlstLaws blst} (e : engine) c vote cv :
  reachable e -> channel_open e ->
  let set := engine_set_for_view e (engine_view e) in
  let profile := signing_profile e in
  (vote_collector e = Some c -> prepare_qc e = None ->
   last_vote e c (vote_message profile (engine_view e) (v_block_hash vote))
     (equivocation_tracker e) (v_view vote) (v_voter vote) (v_block_hash vote) (v_signature vote) ->
   exists qc, verify_qc_with_profile qc set profile = Ok tt /\
     names (qc_signers qc) (<[v_voter vote := v_signature vote]> (vc_votes c)) /\
     BroadcastMessage (MPrepareQC (mkPrepareQC (engine_view e) (v_block_hash vote) qc))
       ∈ outputs (process_event (Message (MVote vote)) e).1) /\
  (commit_collector e = Some c -> cached_changes_hash e (cv_block_hash cv) = B256_ZERO ->
   last_vote e c (commit_message profile (engine_view e) (cv_block_hash cv) B256_ZERO)
     (commit_equivocation_tracker e) (cv_view cv) (cv_voter cv) (cv_block_hash cv)
     (cv_signature cv) ->
   exists qc, verify_commit_qc_with_profile qc set B256_ZERO profile = Ok tt /\
     names (qc_signers qc) (<[cv_voter cv := cv_signature cv]> (vc_votes c)) /\
     let after := (process_event (Message (MCommitVote cv)) e).1 in
     BroadcastMessage (MDecide (mkDecide (engine_view e) (cv_block_hash cv) qc B256_ZERO))
       ∈ outputs after /\
     BlockCommitted (engine_view e) (cv_block_hash cv) qc None ∈ outputs after).
Proof.
  intros He Ho set profile. pose proof (reachable_J e He) as HJ.
  assert (Hd : forall msg, message_view msg = engine_view e ->
    process_event (Message msg) e = dispatch_body (dispatch_message (replay_fuel e)) msg None e).
  { intros msg Hv. unfold process_event, with_fuel. cbn [process_event_body].
    unfold process_message_body. rewrite (bind_get (L := L)). cbn zeta. by rewrite Hv, N.ltb_irrefl. }
  split; [intros Hc Hp Hl|intros Hc Hz Hl]; (rewrite Hd; [|exact (lv_view _ _ _ _ _ _ _ _ Hl)]).
  - eapply last_vote_prepares; [apply run_dispatch|done..].
  - eapply last_commit_vote_commits; [apply run_dispatch|done..].
Qed.

Lemma start_caches cfg snapshot w log (e : engine) :
  start_engine cfg snapshot w log = Some e -> caches_wf e.
Proof.
  assert (Hempty : forall e : engine, pending_tx_roots e = fifo_new 64 ->
    pending_changes_hashes e = fifo_new 64 -> imported_block_fifo e = [] ->
    imported_blocks e = ∅ -> future_timeout_collectors e = ∅ -> caches_wf e).
  { intros e' E1 E2 E3 E4 E5. constructor; rewrite ?E1, ?E2, ?E3, ?E4, ?E5.
    - by split; [apply fifo_new_wf|].
    - by split; [apply fifo_new_wf|].
    - apply NoDup_nil_2.
    - intros h. split; [by intros ?%not_elem_of_empty|by intros ?%not_elem_of_nil].
    - cbn. lia.
    - intros v c. by rewrite lookup_empty. }
  unfold start_engine. destruct (last_vote_views log) as [r1 r2], snapshot as [s|].
  - intros E. injection E as <-. by apply Hempty.
  - destruct (_ || _); [done|]. intros E. injection E as <-. by apply Hempty.
Qed.

Lemma node_step_caches (e e' : engine) : node_step e e' -> caches_wf e -> caches_wf e'.
Proof.
  destruct 1 as [e ev _|e a _|e|e i|e a|e c|e|e d|e id|e|e cfg s w e' _ _ _ He].
  - apply keeps_event, keeps_dispatch.
  - apply keeps_message, keeps_dispatch.
  - apply keeps_on_timeout, keeps_dispatch.
  - apply keeps_epochs.
  - apply keeps_epochs.
  - apply keeps_epochs.
  - apply keeps_sync_index.
  - by apply caches_frame.
  - by apply caches_frame.
  - by apply caches_frame.
  - intros _. by eapply start_caches.
Qed.

(** C12: whatever the network sends, every cache of a validator stays within its
    bound: at most 256 buffered messages, at most 64 pieces of import evidence
    (with a queue of exactly the same blocks), at most 64 changes hashes and
    transaction roots, and future timeout collectors only for the next 50
    views. *)
Theorem caches_bounded (e : engine) :
  reachable e ->
  (length (future_msg_buffer e) <= MAX_FUTURE_MESSAGES)%nat /\
  (length (imported_block_fifo e) <= MAX_IMPORTED_BLOCKS)%nat /\
  (forall h, h ∈ imported_blocks e <-> h ∈ imported_block_fifo e) /\
  (size (bf_map (pending_changes_hashes e)) <= 64)%nat /\
  (size (bf_map (pending_tx_roots e)) <= 64)%nat /\
  (forall v c, future_timeout_collectors e !! v = Some c ->
     engine_view e < v /\ v <= engine_view e +s FUTURE_VIEW_WINDOW).
Proof.
  intros He.
  assert (Hc : caches_wf e).
  { induction He as [cfg s w log e _ _ _ _ Hs|e e' _ IH Hst];
      [by eapply start_caches|by eapply node_step_caches]. }
  destruct Hc as [[Ht Et] [Hc Ec] _ Hev Hi Hf].
  pose proof (fifo_bound _ Ht) as Bt. pose proof (fifo_bound _ Hc) as Bc.
  rewrite Et in Bt. rewrite Ec in Bc.
  split_and!; try done. apply (J_bound e (reachable_J e He)).
Qed.
End safety.

(** ** Runs of the concrete committee *)

Import Scenario LinearBlst.

Definition all_u64 (msgs : list ConsensusMessage) : bool :=
  forallb (fun m => message_view m <? 256 ^ 8) msgs.

Lemma reachable_idle i : reachable (idle i).
Proof.
  apply (R_start (config i) None calm_world fresh_log); done.
Qed.

Lemma reachable_feed event e : reachable e -> event_u64 event -> reachable (feed event e).
Proof. intros He Hu. eapply R_step; [exact He|by apply N_event]. Qed.

Lemma reachable_receive_all msgs e :
  reachable e -> all_u64 msgs = true -> reachable (receive_all msgs e).
Proof.
  revert e. induction msgs as [|m msgs IH]; intros e He Hu; [done|].
  cbn in Hu. apply andb_true_iff in Hu as [Hm Hu]. apply IH; [|done].
  apply reachable_feed; [done|]. by apply N.ltb_lt in Hm.
Qed.

Lemma reachable_timeout (e : engine) : reachable e -> reachable (pacemaker_timeout e).1.
Proof. intros He. eapply R_step; [exact He|apply N_timeout]. Qed.

Ltac head_of t := match t with ?f _ => head_of f | _ => t end.

(** Follows the definition of a run back to the idle engines. *)
Ltac run_reachable :=
  lazymatch goal with
  | |- reachable (idle _) => apply reachable_idle
  | |- reachable (receive_all ?m ?e) =>
      apply (reachable_receive_all m e); [run_reachable|vm_compute; reflexivity]
  | |- reachable (feed ?ev ?e) => apply (reachable_feed ev e); [run_reachable|exact I]
  | |- reachable (fst (pacemaker_timeout ?e)) => apply (reachable_timeout e); run_reachable
  | |- reachable (if ?b then _ else _) =>
      let v := eval vm_compute in b in change b with v; cbn match; run_reachable
  | |- reachable ?e => let h := head_of e in unfold h; run_reachable
  end.

Lemma reachable_leader_prepared : reachable leader_prepared.
Proof. run_reachable. Qed.
Lemma reachable_base0 : reachable (base 0).
Proof. run_reachable. Qed.
Lemma reachable_base1 : reachable (base 1).
Proof. run_reachable. Qed.
Lemma reachable_base2 : reachable (base 2).
Proof. run_reachable. Qed.
Lemma reachable_base3 : reachable (base 3).
Proof. run_reachable. Qed.

(** A restart with a snapshot always succeeds. *)
Lemma start_with_snapshot cfg s w (log : FileVoteLog) d :
  start_engine cfg (Some s) w log = Some (default d (start_engine cfg (Some s) w log)).
Proof. unfold start_engine. by destruct (last_vote_views log). Qed.

Lemma reachable_restart cfg s (e d : engine) :
  reachable e -> is_u64 (snap_current_view s) ->
  reachable (default d (start_engine cfg (Some s) (restart_world e) (vote_log e))).
Proof.
  intros He Hu. eapply R_step; [exact He|].
  apply (N_restart e cfg (Some s) (restart_world e)); [exact Hu|reflexivity|reflexivity|].
  apply start_with_snapshot.
Qed.

Lemma reachable_restarted i :
  reachable (voted3 i) -> is_u64 (snap_current_view (build_snapshot (base i))) ->
  reachable (restarted_or_idle i).
Proof. exact (reachable_restart (config i) (build_snapshot (base i)) (voted3 i) (idle i)). Qed.

Lemma reachable_late_voted0 : reachable (late_voted 0).
Proof.
  unfold late_voted. apply reachable_receive_all; [|vm_compute; reflexivity].
  apply reachable_restarted; [run_reachable|vm_compute; reflexivity].
Qed.
Lemma reachable_late_voted1 : reachable (late_voted 1).
Proof.
  unfold late_voted. apply reachable_receive_all; [|vm_compute; reflexivity].
  apply reachable_restarted; [run_reachable|vm_compute; reflexivity].
Qed.

(** The block a proposal extends. *)
Definition justified_block (m : ConsensusMessage) : option B256 :=
  match m with MProposal p => Some (qc_block_hash (p_justify_qc p)) | _ => None end.

(** The committee in a round without faults: every validator reports the
    leader's block as committed and enters view 2, with one vote of each kind
    signed. *)
Example fault_free_round :
  reachable leader_decided /\
  Forall (fun i => sent committed_block (base i) = [(1, block1)] /\ engine_view (base i) = 2 /\
    vote_views (signed (base i)) = [1] /\ commit_views (signed (base i)) = [1]) [0; 1; 2; 3].
Proof.
  split; [run_reachable|].
  repeat (apply Forall_cons_2; [split_and!; vm_compute; reflexivity|]). apply Forall_nil_2.
Qed.

(** C14: restarts from a stale snapshot break agreement across views.  In a run
    of four validators without a faulty one, in which validators 0 and 1 restart
    from the snapshot of view 2 after having voted in view 3, validator 0 signs
    its commit vote of view 2 after its vote of view 3, and the leaders of the
    two views report different blocks as committed although both extend the
    same block: the commit vote is only guarded by [last_commit_voted_view]. *)
Theorem stale_restart_forks :
  reachable leader2_decided /\ reachable leader3_decided /\ reachable (late_voted 0) /\
  signed (late_voted 0) = signed (voted3 0) ++ [SCommit 2 block2 0] /\
  last (signed (voted3 0)) = Some (SVote 3 block3) /\
  sent committed_block leader2_decided = [(1, block1); (2, block2)] /\
  sent committed_block leader3_decided = [(1, block1); (3, block3)] /\
  omap justified_block proposal2 = [block1] /\ omap justified_block proposal3 = [block1].
Proof.
  split_and!.
  - run_reachable.
  - run_reachable.
  - exact reachable_late_voted0.
  - vm_compute. reflexivity.
  - vm_compute. reflexivity.
  - vm_compute. reflexivity.
  - vm_compute. reflexivity.
  - vm_compute. reflexivity.
  - vm_compute. reflexivity.
Qed.
