(* ===== verification/BmtCore.v ===== *)
(** * The sparse binary Merkle tree ([crates/n42-bmt-core/src/lib.rs])

    The arena-allocated tree [Sbmt] with its free list and cached hashes, the
    inclusion and exclusion proofs a light client verifies, and the Merkle tree
    over the sixteen shard roots.  A [Hash] is a [B256]; the node arena is a
    list, a [NodeIdx] an index into it with [NIL] for no node, and an index out
    of range panics as [Vec] indexing does.  [node_hash] takes [&self] but fills
    the caches (a [Cell]), so it changes the state here too. *)

From S2P Require Import Prelude Effects Messages.

Abbreviation Hash := B256.
Definition EMPTY_HASH : Hash := 0.
Definition SHARD_COUNT : nat := 16.

(** [SHARD_COUNT.trailing_zeros()], of a power of two. *)
Definition SHARD_BITS : nat := Nat.log2 SHARD_COUNT.

Definition ACCOUNT_DOMAIN : bytes := ascii_bytes "n42:account:".
Definition STORAGE_DOMAIN : bytes := ascii_bytes "n42:storage:".

(** [(key[depth / 8] >> (7 - (depth % 8))) & 1 == 1]; [None] when the index is
    out of range. *)
Definition bit (key : Hash) (depth : nat) : option bool :=
  byte ← b256_bytes key !! (depth / 8)%nat;
  mret (N.land (N.shiftr byte (N.of_nat (7 - depth mod 8))) 1 =? 1).

(** [(key[0] >> 4) as usize] *)
Definition shard_index_for_key (key : Hash) : nat :=
  N.to_nat (N.shiftr (default 0 (b256_bytes key !! 0%nat)) 4).

(** ** The arena *)

Definition NodeIdx : Type := N.
Definition NIL : NodeIdx := u32_max.

(** [nodes.len() as NodeIdx] *)
Definition as_node_idx (n : nat) : NodeIdx := N.of_nat n mod (u32_max + 1).

Inductive Node : Type :=
| Leaf (key value_hash : Hash)
| Internal (left right : NodeIdx) (cache : option Hash).

Record Sbmt : Type := mkSbmt {
  sb_nodes : list Node;
  sb_free : list NodeIdx; (* the top of the stack first *)
  sb_root : NodeIdx;
  sb_len : nat;
  sb_base_depth : nat
}.

Definition sbmt_new : Sbmt := mkSbmt [] [] NIL 0 0.
Definition with_base_depth (base_depth : nat) : Sbmt := mkSbmt [] [] NIL 0 base_depth.

(** No method of the tree returns an error. *)
Abbreviation MT := (ST Sbmt Empty_set).

Definition set_nodes (f : list Node -> list Node) (s : Sbmt) : Sbmt :=
  mkSbmt (f (sb_nodes s)) (sb_free s) (sb_root s) (sb_len s) (sb_base_depth s).

(** [self.nodes[idx]] and [self.nodes[idx] = node]. *)
Definition read_node (idx : NodeIdx) : MT Node := fun s =>
  match sb_nodes s !! N.to_nat idx with
  | Some n => (s, Ok n)
  | None => (s, Panic)
  end.
Definition write_node (idx : NodeIdx) (node : Node) : MT unit := fun s =>
  match sb_nodes s !! N.to_nat idx with
  | Some _ => (set_nodes <[N.to_nat idx := node]> s, Ok tt)
  | None => (s, Panic)
  end.

(** [if let Node::Internal { .. } = &mut self.nodes[idx] { .. }] *)
Definition update_internal (idx : NodeIdx)
  (f : NodeIdx -> NodeIdx -> option Hash -> Node) : MT unit :=
  n ← read_node idx;
  match n with
  | Internal l r c => write_node idx (f l r c)
  | Leaf _ _ => mret tt
  end.

Definition key_bit (key : Hash) (depth : nat) : MT bool :=
  match bit key depth with Some b => mret b | None => panic end.

Definition set_free (f : list NodeIdx -> list NodeIdx) (s : Sbmt) : Sbmt :=
  mkSbmt (sb_nodes s) (f (sb_free s)) (sb_root s) (sb_len s) (sb_base_depth s).

Definition alloc (node : Node) : MT NodeIdx :=
  free ← gets sb_free;
  match free with
  | i :: rest =>
      modify (set_free (fun _ => rest)) ;;
      write_node i node ;;
      mret i
  | [] =>
      i ← gets (fun s => as_node_idx (length (sb_nodes s)));
      modify (set_nodes (fun l => l ++ [node])) ;;
      mret i
  end.

Definition free_slot (idx : NodeIdx) : MT unit :=
  if idx =? NIL then mret tt else modify (set_free (cons idx)).

(** Enough for every descent: a path has at most 256 internal nodes, and an
    insertion visits a node at most twice (when it splits a leaf). *)
Definition tree_fuel : nat := 520.

Section tree.
Context {digest : Digest}.

Definition hash_leaf (key value_hash : Hash) : Hash :=
  blake3 ([0] ++ b256_bytes key ++ b256_bytes value_hash).
Definition hash_internal (left right : Hash) : Hash :=
  blake3 ([1] ++ b256_bytes left ++ b256_bytes right).
Definition hash_value (value : bytes) : Hash := blake3 value.
Definition hash_pair (a b : Hash) : Hash := blake3 (b256_bytes a ++ b256_bytes b).

Definition account_key (address : Address) : Hash :=
  blake3 (ACCOUNT_DOMAIN ++ be_bytes 20 address).
Definition storage_key (address : Address) (slot : N) : Hash :=
  blake3 (STORAGE_DOMAIN ++ be_bytes 20 address ++ be_bytes 32 slot).

Fixpoint node_hash (fuel : nat) (idx : NodeIdx) : MT Hash :=
  match fuel with
  | O => out_of_fuel
  | S fuel =>
      if idx =? NIL then mret EMPTY_HASH
      else
        n ← read_node idx;
        match n with
        | Leaf key value_hash => mret (hash_leaf key value_hash)
        | Internal _ _ (Some h) => mret h
        | Internal l r None =>
            hl ← node_hash fuel l;
            hr ← node_hash fuel r;
            let h := hash_internal hl hr in
            update_internal idx (fun l r _ => Internal l r (Some h)) ;;
            mret h
        end
  end.

Definition root_hash : MT Hash :=
  root ← gets sb_root;
  node_hash tree_fuel root.

(** ** Insertion and removal *)

Fixpoint insert_at (fuel : nat) (slot : NodeIdx) (key vh : Hash) (depth : nat)
  : MT (NodeIdx * bool) :=
  match fuel with
  | O => out_of_fuel
  | S fuel =>
      if slot =? NIL then
        i ← alloc (Leaf key vh);
        mret (i, true)
      else
        n ← read_node slot;
        match n with
        | Leaf ek ev =>
            if ek =? key then
              write_node slot (Leaf key vh) ;;
              mret (slot, false)
            else
              write_node slot (Internal NIL NIL None) ;;
              _ ← insert_at fuel slot ek ev depth;
              _ ← insert_at fuel slot key vh depth;
              mret (slot, true)
        | Internal l r _ =>
            update_internal slot (fun l r _ => Internal l r None) ;;
            b ← key_bit key depth;
            if b : bool then
              '(nr, added) ← insert_at fuel r key vh (S depth);
              update_internal slot (fun l _ c => Internal l nr c) ;;
              mret (slot, added)
            else
              '(nl, added) ← insert_at fuel l key vh (S depth);
              update_internal slot (fun _ r c => Internal nl r c) ;;
              mret (slot, added)
        end
  end.

Definition set_root (root : NodeIdx) (s : Sbmt) : Sbmt :=
  mkSbmt (sb_nodes s) (sb_free s) root (sb_len s) (sb_base_depth s).
Definition set_len (f : nat -> nat) (s : Sbmt) : Sbmt :=
  mkSbmt (sb_nodes s) (sb_free s) (sb_root s) (f (sb_len s)) (sb_base_depth s).

Definition insert_hashed (key value_hash : Hash) : MT unit :=
  s ← get;
  '(new_root, added) ← insert_at tree_fuel (sb_root s) key value_hash (sb_base_depth s);
  modify (set_root new_root) ;;
  when added (modify (set_len S)).

Definition sb_insert (key : Hash) (value : bytes) : MT unit :=
  insert_hashed key (hash_value value).
End tree.

Definition is_leaf (idx : NodeIdx) : MT bool :=
  if idx =? NIL then mret false
  else
    n ← read_node idx;
    mret (match n with Leaf _ _ => true | Internal _ _ _ => false end).

Definition collapse (slot left right : NodeIdx) : MT NodeIdx :=
  l_leaf ← is_leaf left;
  r_leaf ← is_leaf right;
  if (left =? NIL) && (right =? NIL) then free_slot slot ;; mret NIL
  else if (right =? NIL) && l_leaf then free_slot slot ;; mret left
  else if (left =? NIL) && r_leaf then free_slot slot ;; mret right
  else mret slot.

Fixpoint remove_at (fuel : nat) (slot : NodeIdx) (key : Hash) (depth : nat)
  : MT (NodeIdx * bool) :=
  match fuel with
  | O => out_of_fuel
  | S fuel =>
      if slot =? NIL then mret (NIL, false)
      else
        n ← read_node slot;
        match n with
        | Leaf ek _ =>
            if ek =? key then free_slot slot ;; mret (NIL, true)
            else mret (slot, false)
        | Internal l r _ =>
            b ← key_bit key depth;
            removed ← (if b : bool then
              '(nr, rm) ← remove_at fuel r key (S depth);
              update_internal slot (fun l _ _ => Internal l nr None) ;;
              mret rm
            else
              '(nl, rm) ← remove_at fuel l key (S depth);
              update_internal slot (fun _ r _ => Internal nl r None) ;;
              mret rm);
            n ← read_node slot;
            let '(cl, cr) := match n with
                             | Internal l r _ => (l, r)
                             | Leaf _ _ => (NIL, NIL)
                             end in
            slot' ← collapse slot cl cr;
            mret (slot', removed)
        end
  end.

Definition sb_remove (key : Hash) : MT bool :=
  s ← get;
  '(new_root, removed) ← remove_at tree_fuel (sb_root s) key (sb_base_depth s);
  modify (set_root new_root) ;;
  when removed (modify (set_len Nat.pred)) ;;
  mret removed.

(** [None] deletes. *)
Definition apply_batch `{Digest} (updates : list (Hash * option bytes)) : MT unit :=
  for_each (fun '(key, value) =>
    match value with
    | Some v => sb_insert key v
    | None => _ ← sb_remove key; mret tt
    end) updates.

(** ** Lookups *)

Fixpoint get_loop (fuel : nat) (idx : NodeIdx) (key : Hash) (depth : nat) : MT (option Hash) :=
  match fuel with
  | O => out_of_fuel
  | S fuel =>
      if idx =? NIL then mret None
      else
        n ← read_node idx;
        match n with
        | Leaf ek value_hash => mret (if ek =? key then Some value_hash else None)
        | Internal l r _ =>
            b ← key_bit key depth;
            get_loop fuel (if b : bool then r else l) key (S depth)
        end
  end.

Definition sb_get (key : Hash) : MT (option Hash) :=
  s ← get;
  get_loop tree_fuel (sb_root s) key (sb_base_depth s).

Record NodeStats : Type := mkNodeStats {
  internal_nodes : nat;
  leaf_nodes : nat;
  serialized_bytes : N
}.

Fixpoint collect_stats (fuel : nat) (idx : NodeIdx) (st : NodeStats) : MT NodeStats :=
  match fuel with
  | O => out_of_fuel
  | S fuel =>
      if idx =? NIL then mret st
      else
        n ← read_node idx;
        match n with
        | Leaf _ _ =>
            mret (mkNodeStats (internal_nodes st) (S (leaf_nodes st)) (serialized_bytes st + 64))
        | Internal l r _ =>
            st ← collect_stats fuel l
                   (mkNodeStats (S (internal_nodes st)) (leaf_nodes st)
                      (serialized_bytes st + 96));
            collect_stats fuel r st
        end
  end.

Definition node_stats : MT NodeStats :=
  root ← gets sb_root;
  collect_stats tree_fuel root (mkNodeStats 0 0 0).

(** ** Proofs *)

Record BmtProof : Type := mkBmtProof {
  bp_key : Hash;
  bp_value_hash : option Hash;
  bp_siblings : list Hash; (* from the root to the leaf *)
  bp_other_leaf : option (Hash * Hash)
}.

Section proofs.
Context {digest : Digest}.

Fixpoint prove_loop (fuel : nat) (idx : NodeIdx) (key : Hash) (depth : nat)
  (siblings : list Hash) : MT BmtProof :=
  match fuel with
  | O => out_of_fuel
  | S fuel =>
      if idx =? NIL then mret (mkBmtProof key None siblings None)
      else
        n ← read_node idx;
        match n with
        | Leaf ek ev =>
            mret (if ek =? key then mkBmtProof key (Some ev) siblings None
                  else mkBmtProof key None siblings (Some (ek, ev)))
        | Internal l r _ =>
            b ← key_bit key depth;
            if b : bool then
              h ← node_hash tree_fuel l;
              prove_loop fuel r key (S depth) (siblings ++ [h])
            else
              h ← node_hash tree_fuel r;
              prove_loop fuel l key (S depth) (siblings ++ [h])
        end
  end.

Definition sb_prove (key : Hash) : MT BmtProof :=
  s ← get;
  prove_loop tree_fuel (sb_root s) key (sb_base_depth s) [].

(** [(base..base + len).all(|d| bit(a, d) == bit(b, d))] *)
Definition shares_prefix_range (a b : Hash) (base len : nat) : bool :=
  forallb (fun d => bool_decide (bit a d = bit b d)) (seq base len).

(** The hash the proof starts from; [None] rejects the proof. *)
Definition proof_leaf_hash (p : BmtProof) (base_depth : nat) : option Hash :=
  match bp_value_hash p, bp_other_leaf p with
  | Some vh, None => Some (hash_leaf (bp_key p) vh)
  | None, None => Some EMPTY_HASH
  | None, Some (ok, ovh) =>
      if ok =? bp_key p then None
      else if negb (shares_prefix_range (bp_key p) ok base_depth (length (bp_siblings p)))
      then None
      else Some (hash_leaf ok ovh)
  | Some _, Some _ => None
  end.

(** The loop over the siblings from the leaf up; [None] is a panic of [bit]. *)
Definition fold_siblings (key : Hash) (base_depth : nat) (siblings : list Hash) (leaf : Hash)
  : option Hash :=
  foldr (fun '(depth, sib) cur =>
    cur ← cur;
    b ← bit key depth;
    mret (if b : bool then hash_internal sib cur else hash_internal cur sib))
    (Some leaf) (zip (seq base_depth (length siblings)) siblings).

(** [BmtProof::verify]; [None] is a panic. *)
Definition bmt_verify (p : BmtProof) (root : Hash) (expected_value_hash : option Hash)
  (base_depth : nat) : option bool :=
  if (256 <? base_depth)%nat || (256 - base_depth <? length (bp_siblings p))%nat
  then Some false
  else if negb (bool_decide (bp_value_hash p = expected_value_hash)) then Some false
  else match proof_leaf_hash p base_depth with
  | None => Some false
  | Some leaf =>
      cur ← fold_siblings (bp_key p) base_depth (bp_siblings p) leaf;
      mret (cur =? root)
  end.

(** ** The tree over the shard roots *)

(** [level.chunks(2).map(|c| hash_pair(&c[0], &c[1]))]; an odd last chunk panics. *)
Fixpoint next_level (level : list Hash) : option (list Hash) :=
  match level with
  | [] => Some []
  | [_] => None
  | a :: b :: rest => cons (hash_pair a b) <$> next_level rest
  end.

(** The loops run until one hash is left; [fuel] is the number of levels. *)
Fixpoint shard_root_loop (fuel : nat) (level : list Hash) : option Hash :=
  match fuel, level with
  | _, [h] => Some h
  | S fuel, _ :: _ :: _ => level' ← next_level level; shard_root_loop fuel level'
  | _, _ => None
  end.
Definition shard_tree_root (leaves : list Hash) : option Hash :=
  shard_root_loop (length leaves) leaves.

Fixpoint shard_path_loop (fuel : nat) (level : list Hash) (idx : nat) : option (list Hash) :=
  match fuel, level with
  | S fuel, _ :: _ :: _ =>
      sib ← level !! Nat.lxor idx 1;
      level' ← next_level level;
      rest ← shard_path_loop fuel level' (Nat.div2 idx);
      mret (sib :: rest)
  | _, _ => Some []
  end.
Definition shard_tree_path (leaves : list Hash) (index : nat) : option (list Hash) :=
  shard_path_loop (length leaves) leaves index.

Fixpoint shard_tree_root_from_path (leaf : Hash) (index : nat) (path : list Hash) : Hash :=
  match path with
  | [] => leaf
  | sib :: rest =>
      let cur := if Nat.even index then hash_pair leaf sib else hash_pair sib leaf in
      shard_tree_root_from_path cur (Nat.div2 index) rest
  end.

Inductive BmtVerifyError : Type :=
| ShardIndexOutOfRange (index : N)
| KeyMismatch
| WrongShardForKey (expected got : N)
| CombinedRootMismatch
| MalformedShardPath (len expected : nat)
| ValueHashMismatch
| InShardProofFailed.

Record ShardedBmtProof : Type := mkShardedBmtProof {
  sp_shard_index : N;
  sp_shard_root : Hash;
  sp_shard_path : list Hash;
  sp_inner : BmtProof;
  sp_value : option bytes
}.

(** [ShardedBmtProof::verify] and [verify_for_key]. *)
Definition sharded_verify (p : ShardedBmtProof) (combined_root : Hash)
  : result BmtVerifyError unit :=
  if (N.of_nat SHARD_COUNT <=? sp_shard_index p) then Err (ShardIndexOutOfRange (sp_shard_index p))
  else if bool_decide (length (sp_shard_path p) ≠ SHARD_BITS)
  then Err (MalformedShardPath (length (sp_shard_path p)) SHARD_BITS)
  else
    let computed := shard_tree_root_from_path (sp_shard_root p) (N.to_nat (sp_shard_index p))
                      (sp_shard_path p) in
    if negb (computed =? combined_root) then Err CombinedRootMismatch
    else
      let expected_vh := hash_value <$> sp_value p in
      if negb (bool_decide (bp_value_hash (sp_inner p) = expected_vh)) then Err ValueHashMismatch
      else match bmt_verify (sp_inner p) (sp_shard_root p) expected_vh SHARD_BITS with
      | Some true => Ok tt
      | Some false => Err InShardProofFailed
      | None => Panic
      end.

Definition verify_for_key (p : ShardedBmtProof) (combined_root expected_key : Hash)
  : result BmtVerifyError unit :=
  if negb (bp_key (sp_inner p) =? expected_key) then Err KeyMismatch
  else
    let expected_shard := shard_index_for_key expected_key in
    if negb (sp_shard_index p =? N.of_nat expected_shard)
    then Err (WrongShardForKey (N.of_nat expected_shard) (sp_shard_index p))
    else sharded_verify p combined_root.
End proofs.

#[global] Arguments as_node_idx : simpl never.
#[global] Arguments tree_fuel : simpl never.
#[global] Arguments hash_leaf : simpl never.
#[global] Arguments hash_internal : simpl never.
#[global] Arguments bit : simpl never.
