(* ===== verification/BmtTree.v ===== *)
(** * Sparse binary Merkle trees as values

    The trees that an arena can hold, with insertion, removal and lookup by
    recursion over the remaining bits of the key, and [canon]: the one tree
    that represents a finite map.  Insertion and removal keep a tree canonical,
    so its root hash is a function of the map it stores, whatever the history. *)

From S2P Require Import Prelude Effects Messages BmtCore.

Inductive tree : Type :=
| E
| L (key value_hash : Hash)
| I (left right : tree).

#[export] Instance tree_eq_dec : EqDecision tree.
Proof. solve_decision. Defined.

(** The bit of a key that a node with [n] bits below it branches on. *)
Definition kbit (key : Hash) (n : nat) : bool := N.testbit key (N.of_nat n).

(** ** Bits and keys *)

Lemma nth_le_bytes n x i :
  (i < n)%nat -> le_bytes n x !! i = Some (x / 256 ^ N.of_nat i mod 256).
Proof.
  revert x i. induction n as [|n IH]; intros x i Hi; [lia|].
  change (le_bytes (S n) x) with (x mod 256 :: le_bytes n (x / 256)).
  destruct i as [|i]; cbn [lookup list_lookup].
  - by rewrite N.pow_0_r, N.div_1_r.
  - change (le_bytes n (x / 256) !! i = Some (x / 256 ^ N.of_nat (S i) mod 256)).
    rewrite IH by lia. rewrite N.Div0.div_div, Nat2N.inj_succ, N.pow_succ_r'. done.
Qed.

Lemma nth_b256_bytes x i :
  (i < 32)%nat -> b256_bytes x !! i = Some (x / 256 ^ N.of_nat (31 - i) mod 256).
Proof.
  intros Hi. pose proof (reverse_lookup (le_bytes 32 x) i) as Hr.
  rewrite length_le_bytes in Hr. unfold b256_bytes, be_bytes.
  replace (rev (le_bytes 32 x)) with (reverse (le_bytes 32 x)) by (unfold reverse; by rewrite rev_alt).
  etrans; [exact (Hr Hi)|]. replace (32 - S i)%nat with (31 - i)%nat by lia.
  apply nth_le_bytes. lia.
Qed.

Lemma land_1 x : (N.land x 1 =? 1) = N.testbit x 0.
Proof.
  change 1 with (N.ones 1) at 1. rewrite N.land_ones, N.pow_1_r, N.bit0_odd, <- N.bit0_odd.
  rewrite <- N.bit0_mod. destruct (N.testbit x 0); done.
Qed.

Lemma bit_kbit key depth :
  (depth < 256)%nat -> bit key depth = Some (kbit key (255 - depth)).
Proof.
  intros Hd. unfold bit, kbit. pose proof (Nat.div_mod depth 8) as Hdm.
  pose proof (Nat.mod_upper_bound depth 8) as Hm.
  rewrite nth_b256_bytes by (apply Nat.Div0.div_lt_upper_bound; lia).
  cbn [mbind option_bind mret option_ret]. f_equal. rewrite land_1, N.shiftr_spec' .
  change 256 with (2 ^ 8). rewrite <- N.pow_mul_r.
  rewrite <- N.shiftr_div_pow2, <- N.land_ones, N.land_spec, N.shiftr_spec'.
  rewrite N.ones_spec_low by lia. rewrite andb_true_r. f_equal. lia.
Qed.

Lemma bit_out key depth : (256 <= depth)%nat -> bit key depth = None.
Proof.
  intros Hd. unfold bit.
  assert (Hn : b256_bytes key !! (depth / 8)%nat = None).
  { apply lookup_ge_None_2. rewrite length_b256_bytes.
    change 32%nat with (256 / 8)%nat. by apply Nat.Div0.div_le_mono. }
  by rewrite Hn.
Qed.

(** Keys that agree on all bits from [n] up. *)
Definition agree (n : nat) (k k' : Hash) : Prop := forall d, (n <= d)%nat -> kbit k d = kbit k' d.

#[export] Instance agree_equivalence n : Equivalence (agree n).
Proof.
  split.
  - by intros k d.
  - intros k k' H d Hd. by rewrite H.
  - intros k k' k'' H H' d Hd. by rewrite H, H'.
Qed.

Lemma agree_0 k k' : agree 0 k k' -> k = k'.
Proof.
  intros H. apply N.bits_inj. intros i. specialize (H (N.to_nat i)).
  unfold kbit in H. rewrite N2Nat.id in H. apply H. lia.
Qed.

Lemma agree_S n k k' : agree (S n) k k' -> kbit k n = kbit k' n -> agree n k k'.
Proof.
  intros H Hb d Hd. destruct (decide (d = n)) as [->|]; [done|]. apply H. lia.
Qed.

Lemma agree_weaken n m k k' : (n <= m)%nat -> agree n k k' -> agree m k k'.
Proof. intros Hle H d Hd. apply H. lia. Qed.

(** ** Operations *)

Fixpoint join (n : nat) (k v k' v' : Hash) : tree :=
  match n with
  | O => E
  | S n =>
      match kbit k n, kbit k' n with
      | false, false => I (join n k v k' v') E
      | true, true => I E (join n k v k' v')
      | false, true => I (L k v) (L k' v')
      | true, false => I (L k' v') (L k v)
      end
  end.

Fixpoint ins (n : nat) (k v : Hash) (t : tree) {struct t} : tree :=
  match t with
  | E => L k v
  | L k' v' => if k' =? k then L k v else join n k v k' v'
  | I l r =>
      match n with
      | O => t
      | S n => if kbit k n then I l (ins n k v r) else I (ins n k v l) r
      end
  end.

Definition node (l r : tree) : tree :=
  match l, r with
  | E, E => E
  | L k v, E => L k v
  | E, L k v => L k v
  | _, _ => I l r
  end.

Fixpoint del (n : nat) (k : Hash) (t : tree) {struct t} : tree :=
  match t with
  | E => E
  | L k' v' => if k' =? k then E else t
  | I l r =>
      match n with
      | O => t
      | S n => if kbit k n then node l (del n k r) else node (del n k l) r
      end
  end.

Fixpoint tget (n : nat) (k : Hash) (t : tree) {struct t} : option Hash :=
  match t with
  | E => None
  | L k' v => if k' =? k then Some v else None
  | I l r =>
      match n with
      | O => None
      | S n => if kbit k n then tget n k r else tget n k l
      end
  end.

(** The two insertions of a split are one join. *)
Lemma ins_split n k v k' v' :
  (k' =? k) = false ->
  join (S n) k v k' v' = ins (S n) k v (ins (S n) k' v' (I E E)).
Proof.
  intros Hk. cbn. destruct (kbit k' n) eqn:E1, (kbit k n) eqn:E2; cbn; by rewrite ?E1, ?E2, ?Hk.
Qed.

(** No path is longer than [n] internal nodes. *)
Fixpoint fits (n : nat) (t : tree) {struct t} : Prop :=
  match t with
  | E | L _ _ => True
  | I l r => match n with O => False | S n => fits n l /\ fits n r end
  end.

(** ** The canonical tree of a map *)

(** The entries whose key goes to the side [b] of a node with [n] bits below. *)
Definition side (n : nat) (b : bool) (m : gmap Hash Hash) : gmap Hash Hash :=
  filter (fun kv => kbit kv.1 n = b) m.

Fixpoint canon (n : nat) (m : gmap Hash Hash) : tree :=
  match map_to_list m with
  | [] => E
  | [(k, v)] => L k v
  | _ =>
      match n with
      | O => E
      | S n => I (canon n (side n false m)) (canon n (side n true m))
      end
  end.

(** All keys agree above the bits that the tree branches on. *)
Definition keys_agree (n : nat) (m : gmap Hash Hash) : Prop :=
  forall k k', is_Some (m !! k) -> is_Some (m !! k') -> agree n k k'.

Lemma canon_empty n : canon n ∅ = E.
Proof. destruct n; cbn; by rewrite map_to_list_empty. Qed.

Lemma canon_singleton n k v : canon n {[k := v]} = L k v.
Proof. destruct n; cbn; by rewrite map_to_list_singleton. Qed.

Lemma canon_node n m :
  (2 <= size m)%nat -> canon (S n) m = I (canon n (side n false m)) (canon n (side n true m)).
Proof.
  rewrite <- length_map_to_list. intros Hs. cbn [canon].
  destruct (map_to_list m) as [|[k v] [|? ?]]; cbn in Hs; [lia|lia|done].
Qed.

(** A map is empty, a singleton or larger. *)
Lemma map_size_cases (m : gmap Hash Hash) :
  m = ∅ \/ (exists k v, m = {[k := v]}) \/ (2 <= size m)%nat.
Proof.
  pose proof (list_to_map_to_list m) as Hm. pose proof (length_map_to_list m) as Hl.
  destruct (map_to_list m) as [|[k v] [|? ?]]; [by left|right; left|right; right; cbn in Hl; lia].
  exists k, v. rewrite <- Hm. cbn. by rewrite insert_empty.
Qed.

Lemma side_lookup n b m k :
  side n b m !! k = if decide (kbit k n = b) then m !! k else None.
Proof.
  unfold side. rewrite map_lookup_filter. destruct (m !! k) as [v|]; cbn; [|by case_decide].
  destruct (decide (kbit k n = b)); [by rewrite option_guard_True|by rewrite option_guard_False].
Qed.

Lemma side_empty n b : side n b ∅ = ∅.
Proof. apply map_eq. intros i. rewrite side_lookup. by case_decide. Qed.

Lemma side_insert n b k v m :
  side n b (<[k := v]> m) =
    if decide (kbit k n = b) then <[k := v]> (side n b m) else side n b m.
Proof.
  apply map_eq. intros i. destruct (decide (i = k)) as [->|Hi].
  - rewrite side_lookup, lookup_insert_eq. case_decide; [by rewrite lookup_insert_eq|].
    rewrite side_lookup. by case_decide.
  - rewrite side_lookup, lookup_insert_ne by done.
    case_decide; case_decide; rewrite ?lookup_insert_ne, side_lookup by done; by case_decide.
Qed.

Lemma side_delete n b k m :
  side n b (delete k m) =
    if decide (kbit k n = b) then delete k (side n b m) else side n b m.
Proof.
  apply map_eq. intros i. destruct (decide (i = k)) as [->|Hi].
  - rewrite side_lookup, lookup_delete_eq. case_decide; [by rewrite lookup_delete_eq|].
    rewrite side_lookup. by case_decide.
  - rewrite side_lookup, lookup_delete_ne by done.
    case_decide; case_decide; rewrite ?lookup_delete_ne, side_lookup by done; by case_decide.
Qed.

Lemma side_keys n b m : keys_agree (S n) m -> keys_agree n (side n b m).
Proof.
  intros H k k'. rewrite !side_lookup.
  repeat case_decide; intros Hk Hk'; try by destruct Hk as [? ?]; try by destruct Hk' as [? ?].
  apply agree_S; [by apply H|congruence].
Qed.

Lemma keys_agree_subseteq n (m m' : gmap Hash Hash) :
  (forall k, is_Some (m !! k) -> is_Some (m' !! k)) -> keys_agree n m' -> keys_agree n m.
Proof. intros H Hm k k' Hk Hk'. apply Hm; by apply H. Qed.

Lemma keys_agree_small m : keys_agree 0 m -> (size m <= 1)%nat.
Proof.
  intros H. rewrite <- length_map_to_list.
  pose proof (NoDup_fst_map_to_list m) as Hn.
  assert (Hin : forall k v, (k, v) ∈ map_to_list m -> is_Some (m !! k)).
  { intros k v Hk. apply elem_of_map_to_list in Hk. eauto. }
  destruct (map_to_list m) as [|[k v] [|[k' v'] l]]; cbn in *; [lia|lia|exfalso].
  apply NoDup_cons in Hn as [Hn _]. apply Hn.
  rewrite (agree_0 k k'); [left|apply H; eapply Hin; [left|right; left]].
Qed.

Lemma canon_E n m : keys_agree n m -> canon n m = E -> m = ∅.
Proof.
  intros H Hc. destruct (map_size_cases m) as [?|[(k & v & ->)|Hs]]; [done| |].
  - by rewrite canon_singleton in Hc.
  - destruct n; [apply keys_agree_small in H; lia|]. by rewrite canon_node in Hc.
Qed.

Lemma canon_L n m k v : keys_agree n m -> canon n m = L k v -> m = {[k := v]}.
Proof.
  intros H Hc. destruct (map_size_cases m) as [->|[(k' & v' & ->)|Hs]].
  - by rewrite canon_empty in Hc.
  - rewrite canon_singleton in Hc. by injection Hc as -> ->.
  - destruct n; [apply keys_agree_small in H; lia|]. by rewrite canon_node in Hc.
Qed.

Lemma sides_union n m : m = side n false m ∪ side n true m.
Proof.
  apply map_eq. intros k. rewrite lookup_union, !side_lookup.
  destruct (kbit k n); cbn; by destruct (m !! k).
Qed.

Lemma node_canon n m :
  keys_agree (S n) m ->
  node (canon n (side n false m)) (canon n (side n true m)) = canon (S n) m.
Proof.
  intros H. pose proof (side_keys n false m H) as Hf. pose proof (side_keys n true m H) as Ht.
  destruct (map_size_cases m) as [->|[(k & v & ->)|Hs]].
  - by rewrite !side_empty, !canon_empty.
  - rewrite canon_singleton, <- (insert_empty k v), !side_insert, !side_empty.
    destruct (kbit k n); repeat case_decide; try congruence;
      by rewrite ?insert_empty, ?canon_singleton, ?canon_empty.
  - rewrite canon_node by done. pose proof (sides_union n m) as Hu.
    destruct (canon n (side n false m)) as [|k v|l r] eqn:El,
      (canon n (side n true m)) as [|k' v'|l' r'] eqn:Er; try done; exfalso;
      try apply canon_E in El; try apply canon_L in El;
      try apply canon_E in Er; try apply canon_L in Er; try done;
      rewrite Hu, El, Er, ?(left_id_L ∅ (∪)), ?(right_id_L ∅ (∪)), ?map_size_empty,
        ?map_size_singleton in Hs; lia.
Qed.

Lemma join_canon n k v k' v' :
  agree n k k' -> k ≠ k' -> join n k v k' v' = canon n (<[k := v]> {[k' := v']}).
Proof.
  revert k k'. induction n as [|n IH]; intros k k' Ha Hk; [by apply agree_0 in Ha|].
  rewrite canon_node.
  2:{ rewrite map_size_insert_None, map_size_singleton; [lia|by apply lookup_singleton_ne]. }
  rewrite <- (insert_empty k' v'), !side_insert, !side_empty. cbn [join].
  destruct (kbit k n) eqn:E1, (kbit k' n) eqn:E2; repeat case_decide; try congruence;
    rewrite ?insert_empty, ?canon_singleton, ?canon_empty; try done;
    f_equal; apply IH; try done; apply agree_S; [done|congruence|done|congruence].
Qed.

Lemma ins_canon n k v m :
  keys_agree n (<[k := v]> m) -> ins n k v (canon n m) = canon n (<[k := v]> m).
Proof.
  revert m. induction n as [|n IH]; intros m H;
    (destruct (map_size_cases m) as [->|[(k' & v' & ->)|Hs]];
     [by rewrite canon_empty, insert_empty, canon_singleton| |]).
  1, 3: rewrite canon_singleton; cbn [ins]; destruct (N.eqb_spec k' k) as [->|Hk];
    [by rewrite insert_singleton_eq, canon_singleton|apply join_canon; [|done]];
    apply H; [|rewrite lookup_insert_ne by done]; rewrite ?lookup_insert_eq, ?lookup_singleton_eq; eauto.
  - assert (Hsz : (size m <= size (<[k := v]> m))%nat).
    { destruct (m !! k) eqn:Em; [erewrite map_size_insert_Some by done|
        rewrite map_size_insert_None by done]; lia. }
    apply keys_agree_small in H. lia.
  - assert (Hsz : (size m <= size (<[k := v]> m))%nat).
    { destruct (m !! k) eqn:Em; [erewrite map_size_insert_Some by done|
        rewrite map_size_insert_None by done]; lia. }
    rewrite !canon_node by lia. cbn [ins]. rewrite !side_insert.
    pose proof (fun b => side_keys n b _ H) as Hk.
    destruct (kbit k n) eqn:Eb; repeat case_decide; try congruence; f_equal; apply IH;
      [specialize (Hk true)|specialize (Hk false)]; rewrite side_insert in Hk;
      by case_decide; [|congruence].
Qed.

Lemma del_canon n k m :
  keys_agree n m -> del n k (canon n m) = canon n (delete k m).
Proof.
  revert m. induction n as [|n IH]; intros m H;
    (destruct (map_size_cases m) as [->|[(k' & v' & ->)|Hs]];
     [by rewrite canon_empty, delete_empty, canon_empty| |]).
  1, 3: rewrite canon_singleton; cbn [del]; destruct (N.eqb_spec k' k) as [->|Hk];
    [by rewrite delete_singleton_eq, canon_empty|
     by rewrite delete_singleton_ne, canon_singleton by done].
  - apply keys_agree_small in H. lia.
  - rewrite canon_node by done. cbn [del]. rewrite <- node_canon.
    2:{ eapply keys_agree_subseteq; [|exact H]. intros i. rewrite lookup_delete_is_Some. tauto. }
    rewrite !side_delete. pose proof (fun b => side_keys n b _ H) as Hk.
    destruct (kbit k n); repeat case_decide; try congruence; f_equal; by apply IH.
Qed.

Lemma tget_canon n k m : keys_agree n m -> tget n k (canon n m) = m !! k.
Proof.
  revert m. induction n as [|n IH]; intros m H;
    (destruct (map_size_cases m) as [->|[(k' & v' & ->)|Hs]];
     [by rewrite canon_empty, lookup_empty| |]).
  1, 3: rewrite canon_singleton; cbn [tget]; destruct (N.eqb_spec k' k) as [->|Hk];
    [by rewrite lookup_singleton_eq|by rewrite lookup_singleton_ne].
  - apply keys_agree_small in H. lia.
  - rewrite canon_node by done. cbn [tget]. pose proof (fun b => side_keys n b _ H) as Hk.
    destruct (kbit k n) eqn:Eb; rewrite IH, side_lookup, Eb by done; by case_decide.
Qed.

Lemma canon_fits n m : fits n (canon n m).
Proof.
  revert m. induction n as [|n IH]; intros m;
    (destruct (map_size_cases m) as [->|[(k' & v' & ->)|Hs]];
     [by rewrite canon_empty|by rewrite canon_singleton|]).
  - cbn. destruct (map_to_list m) as [|[? ?] [|? ?]]; done.
  - rewrite canon_node by done. by split.
Qed.

(** ** Hashes and proofs of a tree *)

Section hash.
Context {digest : Digest}.

Fixpoint thash (t : tree) : Hash :=
  match t with
  | E => EMPTY_HASH
  | L k v => hash_leaf k v
  | I l r => hash_internal (thash l) (thash r)
  end.

(** The root hash of the tree that stores [m] below [base_depth] shared bits. *)
Definition map_root (base_depth : nat) (m : gmap Hash Hash) : Hash :=
  thash (canon (256 - base_depth) m).

(** The hashes beside the path of [k], from the root on. *)
Fixpoint tsiblings (n : nat) (k : Hash) (t : tree) {struct t} : list Hash :=
  match t with
  | E | L _ _ => []
  | I l r =>
      match n with
      | O => []
      | S n => if kbit k n then thash l :: tsiblings n k r else thash r :: tsiblings n k l
      end
  end.

(** Where the path of [k] ends. *)
Fixpoint tend (n : nat) (k : Hash) (t : tree) {struct t} : tree :=
  match t with
  | E | L _ _ => t
  | I l r =>
      match n with
      | O => E
      | S n => if kbit k n then tend n k r else tend n k l
      end
  end.

(** The proof of a path with these siblings that ends in [e]. *)
Definition proof_at (k : Hash) (siblings : list Hash) (e : tree) : BmtProof :=
  match e with
  | L k' v' => if k' =? k then mkBmtProof k (Some v') siblings None
               else mkBmtProof k None siblings (Some (k', v'))
  | _ => mkBmtProof k None siblings None
  end.

Definition tproof (n : nat) (k : Hash) (t : tree) : BmtProof :=
  proof_at k (tsiblings n k t) (tend n k t).
End hash.

Fixpoint leaves (t : tree) : nat :=
  match t with E => 0 | L _ _ => 1 | I l r => leaves l + leaves r end.
Fixpoint internals (t : tree) : nat :=
  match t with E | L _ _ => 0 | I l r => S (internals l + internals r) end.
