(* ===== verification/BmtArena.v ===== *)
(** * The arena implements the tree

    [repr ns idx t fp]: the arena [ns] holds the tree [t] at [idx], in the slots
    [fp], with no slot used twice and every cached hash correct.  Each operation
    of [Sbmt] is shown to act on the tree as the function of [BmtTree] does, to
    touch no slot outside its tree and the free list, and to give freed slots
    back. *)

From S2P Require Import Prelude Effects Messages BmtCore BmtTree.

Section arena.
Context {digest : Digest}.

Fixpoint repr (ns : list Node) (idx : NodeIdx) (t : tree) (fp : gset nat) : Prop :=
  match t with
  | E => idx = NIL /\ fp = ∅
  | L k v => idx ≠ NIL /\ ns !! N.to_nat idx = Some (Leaf k v) /\ fp = {[N.to_nat idx]}
  | I l r =>
      exists il ir c fl fr,
        idx ≠ NIL /\ ns !! N.to_nat idx = Some (Internal il ir c) /\
        repr ns il l fl /\ repr ns ir r fr /\
        fl ## fr /\ (N.to_nat idx ∉ fl) /\ (N.to_nat idx ∉ fr) /\
        fp = {[N.to_nat idx]} ∪ fl ∪ fr /\ (c = None \/ c = Some (thash t))
  end.

Definition freeset (s : Sbmt) : gset nat := list_to_set (N.to_nat <$> sb_free s).

(** The free list is a set of slots outside the tree. *)
Record arena (s : Sbmt) (fp : gset nat) : Prop := {
  ar_nodup : NoDup (sb_free s);
  ar_nil : Forall (fun i => i ≠ NIL) (sb_free s);
  ar_bound : forall j, j ∈ freeset s -> (j < length (sb_nodes s))%nat;
  ar_disjoint : fp ## freeset s
}.

(** What an operation on the tree in the slots [fp] may do to the rest. *)
Record evolves (s : Sbmt) (fp : gset nat) (s' : Sbmt) (fp' : gset nat) : Prop := {
  ev_arena : arena s' fp';
  ev_own : forall j, j ∈ fp' ∪ freeset s' ->
    j ∈ fp ∪ freeset s \/ (length (sb_nodes s) <= j)%nat;
  ev_frame : forall j, j ∉ fp ∪ freeset s -> (j < length (sb_nodes s))%nat ->
    sb_nodes s' !! j = sb_nodes s !! j;
  ev_length : (length (sb_nodes s) <= length (sb_nodes s'))%nat;
  ev_rest : sb_root s' = sb_root s /\ sb_len s' = sb_len s /\ sb_base_depth s' = sb_base_depth s
}.

Lemma evolves_refl s fp : arena s fp -> evolves s fp s fp.
Proof. intros Ha. by split; auto. Qed.

Lemma evolves_trans s1 fp1 s2 fp2 s3 fp3 :
  evolves s1 fp1 s2 fp2 -> evolves s2 fp2 s3 fp3 -> evolves s1 fp1 s3 fp3.
Proof.
  intros [A1 O1 F1 L1 (R1 & R1' & R1'')] [A2 O2 F2 L2 (R2 & R2' & R2'')]. split; [done| | |lia|].
  - intros j Hj. destruct (O2 j Hj) as [Hj'|Hj']; [by apply O1|right; lia].
  - intros j Hj Hb. rewrite F2; [by apply F1| |lia].
    intros Hc. destruct (O1 j Hc); [done|lia].
  - by rewrite R2, R2', R2''.
Qed.

Lemma repr_bound ns idx t fp j :
  repr ns idx t fp -> j ∈ fp -> (j < length ns)%nat.
Proof.
  revert idx fp. induction t as [|k v|l IHl r IHr]; intros idx fp; cbn.
  - intros [_ ->]. set_solver.
  - intros (_ & Hn & ->) Hj. apply elem_of_singleton in Hj as ->. by eapply lookup_lt_Some.
  - intros (il & ir & c & fl & fr & _ & Hn & Hl & Hr & _ & _ & _ & -> & _) Hj.
    apply elem_of_union in Hj as [Hj|Hj]; [apply elem_of_union in Hj as [Hj|Hj]|]; [|eauto..].
    apply elem_of_singleton in Hj as ->. by eapply lookup_lt_Some.
Qed.

Lemma repr_frame ns ns' idx t fp :
  (forall j, j ∈ fp -> ns' !! j = ns !! j) -> repr ns idx t fp -> repr ns' idx t fp.
Proof.
  revert idx fp. induction t as [|k v|l IHl r IHr]; intros idx fp H; cbn.
  - done.
  - intros (? & Hn & ->). rewrite H by set_solver. done.
  - intros (il & ir & c & fl & fr & ? & Hn & Hl & Hr & ? & ? & ? & -> & ?).
    exists il, ir, c, fl, fr. rewrite H by set_solver.
    split_and!; try done; [apply IHl|apply IHr]; try done; intros j Hj; apply H; set_solver.
Qed.

Lemma repr_E ns fp : repr ns NIL E fp <-> fp = ∅.
Proof. cbn. naive_solver. Qed.

Lemma repr_NIL ns t fp : repr ns NIL t fp -> t = E /\ fp = ∅.
Proof. destruct t; cbn; naive_solver. Qed.

Lemma repr_not_NIL ns idx t fp : repr ns idx t fp -> t ≠ E -> idx ≠ NIL.
Proof. destruct t; cbn; naive_solver. Qed.

(** Slots that a step on another tree leaves alone. *)
Lemma evolves_outside s fp s' fp' (X : gset nat) :
  evolves s fp s' fp' -> X ## fp -> X ## freeset s ->
  (forall j, j ∈ X -> (j < length (sb_nodes s))%nat) ->
  X ## fp' /\ X ## freeset s' /\ forall j, j ∈ X -> sb_nodes s' !! j = sb_nodes s !! j.
Proof.
  intros [_ O F _ _] H1 H2 H3.
  assert (H : X ## fp' ∪ freeset s').
  { intros j Hj Hc. pose proof (H3 j Hj). destruct (O j Hc); [set_solver|lia]. }
  split_and!; [set_solver|set_solver|]. intros j Hj. apply F; [set_solver|by apply H3].
Qed.

Lemma evolves_rest s fp s' fp' :
  evolves s fp s' fp' ->
  sb_root s' = sb_root s /\ sb_len s' = sb_len s /\ sb_base_depth s' = sb_base_depth s.
Proof. by intros []. Qed.

(** ** Single steps *)

Lemma read_ok s idx n :
  sb_nodes s !! N.to_nat idx = Some n -> read_node idx s = (s, Ok n).
Proof. intros H. unfold read_node. by rewrite H. Qed.

Lemma write_ok s idx n n' :
  sb_nodes s !! N.to_nat idx = Some n ->
  write_node idx n' s = (set_nodes <[N.to_nat idx := n']> s, Ok tt).
Proof. intros H. unfold write_node. by rewrite H. Qed.

Lemma update_ok s idx il ir c f :
  sb_nodes s !! N.to_nat idx = Some (Internal il ir c) ->
  update_internal idx f s = (set_nodes <[N.to_nat idx := f il ir c]> s, Ok tt).
Proof.
  intros H. unfold update_internal. erewrite bind_ok by by apply read_ok.
  by eapply write_ok.
Qed.

Lemma key_bit_ok k n s :
  (n < 256)%nat -> key_bit k (256 - S n) s = (s, Ok (kbit k n)).
Proof.
  intros Hn. unfold key_bit. rewrite bit_kbit by lia.
  replace (255 - (256 - S n))%nat with n by lia. done.
Qed.

Lemma key_bit_depth n : (n < 256)%nat -> S (256 - S n) = (256 - n)%nat.
Proof. lia. Qed.

(** Writing a slot of the tree. *)
Lemma evolves_write s fp idx n :
  arena s fp -> N.to_nat idx ∈ fp -> evolves s fp (set_nodes <[N.to_nat idx := n]> s) fp.
Proof.
  intros [Hn Hnil Hb Hd] Hi. split.
  - split; try done. intros j Hj. cbn. rewrite length_insert. by apply Hb.
  - intros j Hj. by left.
  - intros j Hj Hl. cbn. rewrite list_lookup_insert_ne; [done|]. set_solver.
  - cbn. by rewrite length_insert.
  - done.
Qed.

Lemma alloc_spec s fp n :
  arena s fp -> N.of_nat (length (sb_nodes s)) < NIL ->
  (forall j, j ∈ fp -> (j < length (sb_nodes s))%nat) ->
  exists s' i, alloc n s = (s', Ok i) /\ i ≠ NIL /\ sb_nodes s' !! N.to_nat i = Some n /\
    (N.to_nat i ∉ fp) /\ evolves s fp s' (fp ∪ {[N.to_nat i]}) /\
    (length (sb_nodes s') <= S (length (sb_nodes s)))%nat.
Proof.
  intros [Hnd Hnil Hb Hd] Hlen Hfp. destruct (sb_free s) as [|i rest] eqn:Ef.
  - exists (set_nodes (fun l => l ++ [n]) s), (N.of_nat (length (sb_nodes s))).
    assert (Hi : as_node_idx (length (sb_nodes s)) = N.of_nat (length (sb_nodes s))).
    { unfold as_node_idx. apply N.mod_small. unfold NIL in Hlen. lia. }
    assert (Hfs : freeset s = ∅) by (unfold freeset; by rewrite Ef).
    rewrite Nat2N.id. split_and!; [|lia|by apply list_lookup_middle| | |cbn; rewrite length_app; cbn; lia].
    + unfold alloc, mbind, st_bind, gets, modify. by rewrite Ef, Hi.
    + intros Hc. apply Hfp in Hc. lia.
    + split; [split| | | |done]; change (freeset (set_nodes _ s)) with (freeset s); rewrite ?Hfs; cbn.
      * rewrite Ef. apply NoDup_nil_2.
      * rewrite Ef. apply Forall_nil_2.
      * set_solver.
      * set_solver.
      * intros j Hj. destruct (decide (j ∈ fp)); [left; set_solver|right; set_solver].
      * intros j _ Hj. by rewrite lookup_app_l.
      * rewrite length_app. lia.
  - assert (Hfi : freeset s = {[N.to_nat i]} ∪ list_to_set (N.to_nat <$> rest)).
    { unfold freeset. by rewrite Ef. }
    assert (Hi : (N.to_nat i < length (sb_nodes s))%nat) by (apply Hb; set_solver).
    destruct (lookup_lt_is_Some_2 _ _ Hi) as [n0 Hn0].
    apply NoDup_cons in Hnd as [Hni Hnd]. apply Forall_cons in Hnil as [Hin Hnil].
    assert (Hir : N.to_nat i ∉@{gset nat} list_to_set (N.to_nat <$> rest)).
    { rewrite elem_of_list_to_set, list_elem_of_fmap. intros (i' & Hi' & Hr).
      apply N2Nat.inj in Hi'. by subst i'. }
    set (s' := set_nodes <[N.to_nat i := n]> (set_free (fun _ => rest) s)).
    assert (Hfs : freeset s' = list_to_set (N.to_nat <$> rest)) by done.
    exists s', i. split_and!; [|done|by apply list_lookup_insert_eq| | |cbn; rewrite length_insert; lia].
    + unfold alloc, mbind, st_bind, gets, modify, write_node. rewrite Ef. cbn. by rewrite Hn0.
    + set_solver.
    + split; [split| | | |done]; rewrite ?Hfs; cbn; rewrite ?length_insert; try done.
      * intros j Hj. apply Hb. set_solver.
      * set_solver.
      * intros j Hj. left. set_solver.
      * intros j Hj _. rewrite list_lookup_insert_ne; [done|]. set_solver.
Qed.

Lemma union_swap (a b c : gset nat) : a ∪ b ∪ c = a ∪ c ∪ b.
Proof. set_solver. Qed.

Lemma arena_sub s fp fp' : arena s fp -> fp' ⊆ fp -> arena s fp'.
Proof. intros [] ?. split; [done..|set_solver]. Qed.

(** ** One child of an internal node

    [b] is the side an operation descends to: [a] is the child on that side and
    [p] the other one. *)

Definition int_node (b : bool) (a p : NodeIdx) (c : option Hash) : Node :=
  if b then Internal p a c else Internal a p c.
Definition tnode (b : bool) (a p : tree) : tree := if b then I p a else I a p.

Lemma repr_tnode_inv b ns idx l r fp :
  repr ns idx (I l r) fp ->
  exists a p c fa fpas, idx ≠ NIL /\ ns !! N.to_nat idx = Some (int_node b a p c) /\
    repr ns a (if b then r else l) fa /\ repr ns p (if b then l else r) fpas /\
    fa ## fpas /\ (N.to_nat idx ∉ fa) /\ (N.to_nat idx ∉ fpas) /\
    fp = {[N.to_nat idx]} ∪ fa ∪ fpas /\ (c = None \/ c = Some (thash (I l r))).
Proof.
  intros (il & ir & c & fl & fr & ? & ? & ? & ? & ? & ? & ? & -> & ?). destruct b.
  - exists ir, il, c, fr, fl. split_and!; try done; set_solver.
  - exists il, ir, c, fl, fr. by split_and!.
Qed.

Lemma repr_tnode b ns idx a p c ta tp fa fpas :
  idx ≠ NIL -> ns !! N.to_nat idx = Some (int_node b a p c) ->
  repr ns a ta fa -> repr ns p tp fpas -> fa ## fpas ->
  N.to_nat idx ∉ fa -> N.to_nat idx ∉ fpas ->
  c = None \/ c = Some (thash (tnode b ta tp)) ->
  repr ns idx (tnode b ta tp) ({[N.to_nat idx]} ∪ fa ∪ fpas).
Proof.
  intros. destruct b; cbn.
  - exists p, a, c, fpas, fa. split_and!; try done; set_solver.
  - exists a, p, c, fa, fpas. by split_and!.
Qed.

(** An operation on the child [a] and the link to its result. *)
Lemma child_step b s1 slot a p c fa fpas tp s2 a' ta' fa' :
  slot ≠ NIL -> sb_nodes s1 !! N.to_nat slot = Some (int_node b a p c) ->
  repr (sb_nodes s1) p tp fpas -> arena s1 ({[N.to_nat slot]} ∪ fa ∪ fpas) ->
  fa ## fpas -> N.to_nat slot ∉ fa -> N.to_nat slot ∉ fpas ->
  evolves s1 fa s2 fa' -> repr (sb_nodes s2) a' ta' fa' ->
  sb_nodes s2 !! N.to_nat slot = Some (int_node b a p c) /\
  repr (<[N.to_nat slot := int_node b a' p None]> (sb_nodes s2)) slot (tnode b ta' tp)
    ({[N.to_nat slot]} ∪ fa' ∪ fpas) /\
  evolves s1 ({[N.to_nat slot]} ∪ fa ∪ fpas)
    (set_nodes <[N.to_nat slot := int_node b a' p None]> s2)
    ({[N.to_nat slot]} ∪ fa' ∪ fpas).
Proof.
  intros Hnil Hs Hp Ha Hd Hsa Hsp He Hr. pose proof Ha as [_ _ _ Had].
  pose proof (lookup_lt_Some _ _ _ Hs) as Hlt.
  destruct (evolves_outside s1 fa s2 fa' ({[N.to_nat slot]} ∪ fpas) He) as (Hx & Hxf & Hxn).
  { set_solver. }
  { set_solver. }
  { intros j Hj. apply elem_of_union in Hj as [Hj|Hj]; [|by eapply repr_bound].
    by apply elem_of_singleton in Hj as ->. }
  assert (Hs2 : sb_nodes s2 !! N.to_nat slot = Some (int_node b a p c))
    by (rewrite Hxn; [done|set_solver]).
  pose proof (lookup_lt_Some _ _ _ Hs2) as Hlt2.
  split_and!; [done| |].
  - apply (repr_tnode b _ _ a' p None); try done.
    + by apply list_lookup_insert_eq.
    + eapply repr_frame; [|exact Hr]. intros j Hj. rewrite list_lookup_insert_ne; [done|]. set_solver.
    + eapply repr_frame; [|exact Hp]. intros j Hj.
      rewrite list_lookup_insert_ne by set_solver. apply Hxn. set_solver.
    + set_solver.
    + set_solver.
    + by left.
  - destruct He as [[Hn Hfn Hb Hdj] O F Lg R].
    assert (Hfs : freeset (set_nodes <[N.to_nat slot := int_node b a' p None]> s2) = freeset s2) by done.
    split; [split| | | |done]; rewrite ?Hfs; cbn; rewrite ?length_insert; try done.
    + set_solver.
    + intros j Hj. destruct (decide (j ∈ fa' ∪ freeset s2)) as [Hj'|Hj'].
      * destruct (O j Hj') as [Ho|Ho]; [left; set_solver|by right].
      * left. set_solver.
    + intros j Hj Hl. rewrite list_lookup_insert_ne by set_solver. apply F; [set_solver|done].
Qed.

(** ** Insertion *)

(** The new key can be told apart from the leaf at the end of its path. *)
Fixpoint reach (n : nat) (k : Hash) (t : tree) {struct t} : Prop :=
  match t with
  | E => True
  | L k' _ => agree n k k'
  | I l r =>
      match n with
      | O => False
      | S n => if kbit k n then reach n k r else reach n k l
      end
  end.

Definition absent (n : nat) (k : Hash) (t : tree) : bool := bool_decide (tget n k t = None).

(** How much an insertion can grow the arena. *)
Fixpoint grow (n : nat) (k : Hash) (t : tree) {struct t} : nat :=
  match t with
  | E => 1
  | L _ _ => n + 1
  | I l r =>
      match n with
      | O => 1
      | S n => if kbit k n then grow n k r else grow n k l
      end
  end.

Lemma grow_le n k t : (grow n k t <= n + 1)%nat.
Proof.
  revert n. induction t as [| |l IHl r IHr]; intros n; cbn; [lia|lia|].
  destruct n as [|n]; [lia|]. specialize (IHl n). specialize (IHr n). destruct (kbit k n); lia.
Qed.

Definition insert_fuel (n : nat) (t : tree) : nat :=
  match t with I _ _ => 2 * n | _ => 2 * n + 1 end.

(** The outcome of inserting [k] into the tree [t] at [idx]. *)
Definition inserted (n : nat) (k v : Hash) (idx : NodeIdx) (t : tree) (fp : gset nat) (s : Sbmt)
  (r : Sbmt * outcome Empty_set (NodeIdx * bool)) : Prop :=
  exists s' idx' fp', r = (s', Ok (idx', absent n k t)) /\
    repr (sb_nodes s') idx' (ins n k v t) fp' /\ evolves s fp s' fp' /\
    (length (sb_nodes s') <= length (sb_nodes s) + grow n k t)%nat /\ (t ≠ E -> idx' = idx).

Lemma insert_E n k v s :
  arena s ∅ -> N.of_nat (length (sb_nodes s) + 1) <= NIL ->
  inserted n k v NIL E ∅ s ((i ← alloc (Leaf k v); mret (i, true)) s).
Proof.
  intros Ha Hlen. destruct (alloc_spec s ∅ (Leaf k v) Ha) as (s' & i & Hal & Hi & Hn & _ & He & Hg).
  { lia. }
  { set_solver. }
  exists s', i, (∅ ∪ {[N.to_nat i]}). erewrite bind_ok by done.
  split_and!; [done| |done|cbn; lia|done]. cbn. split_and!; [done|done|set_solver].
Qed.

Lemma insert_I fuel n k v b l r idx fp s :
  (n < 256)%nat -> b = kbit k n ->
  repr (sb_nodes s) idx (I l r) fp -> arena s fp ->
  (forall a fa s1, repr (sb_nodes s1) a (if b then r else l) fa -> arena s1 fa ->
     length (sb_nodes s1) = length (sb_nodes s) ->
     inserted n k v a (if b then r else l) fa s1 (insert_at fuel a k v (256 - n) s1)) ->
  inserted (S n) k v idx (I l r) fp s (insert_at (S fuel) idx k v (256 - S n) s).
Proof.
  intros Hn Hb Hr Ha Hrec.
  destruct (repr_tnode_inv b _ _ _ _ _ Hr)
    as (a & p & c & fa & fpas & Hnil & Hs & Hra & Hrp & Hd & Hia & Hip & -> & _).
  set (s1 := set_nodes <[N.to_nat idx := int_node b a p None]> s).
  assert (He1 : evolves s ({[N.to_nat idx]} ∪ fa ∪ fpas) s1 ({[N.to_nat idx]} ∪ fa ∪ fpas))
    by (apply evolves_write; [done|set_solver]).
  pose proof (lookup_lt_Some _ _ _ Hs) as Hlt.
  assert (Hfr : forall i t fp', N.to_nat idx ∉ fp' -> repr (sb_nodes s) i t fp' ->
                  repr (sb_nodes s1) i t fp').
  { intros i t fp' Hi. apply repr_frame. intros j Hj. cbn.
    rewrite list_lookup_insert_ne; [done|]. set_solver. }
  assert (Hs1 : sb_nodes s1 !! N.to_nat idx = Some (int_node b a p None))
    by by apply list_lookup_insert_eq.
  destruct (Hrec a fa s1) as (s2 & a' & fa' & Hrun & Hra' & He2 & Hg & _).
  { by apply Hfr. }
  { eapply arena_sub; [apply He1|set_solver]. }
  { cbn. by rewrite length_insert. }
  destruct (child_step b s1 idx a p None fa fpas (if b then l else r) s2 a'
              (ins n k v (if b then r else l)) fa') as (Hs2 & Hr3 & He3); auto.
  { apply He1. }
  eexists _, idx, _. split_and!; [| |eapply evolves_trans; [exact He1|exact He3]| |done].
  - cbn [insert_at]. rewrite (proj2 (N.eqb_neq idx NIL) Hnil).
    erewrite bind_ok by by apply read_ok. unfold absent. cbn [tget]. rewrite <- Hb.
    destruct b; cbn [int_node] in *; (erewrite bind_ok by by eapply update_ok);
      (erewrite bind_ok by by apply key_bit_ok); rewrite <- Hb, key_bit_depth by done;
      (erewrite bind_ok by exact Hrun); cbn beta iota;
      (erewrite bind_ok by by eapply update_ok); reflexivity.
  - cbn [sb_nodes set_nodes]. cbn [ins]. rewrite <- Hb. by destruct b.
  - cbn. rewrite length_insert. cbn in Hg. rewrite length_insert in Hg. rewrite <- Hb. by destruct b.
Qed.

Lemma insert_at_spec fuel n idx t k v s fp :
  (n <= 256)%nat -> (insert_fuel n t <= fuel)%nat ->
  repr (sb_nodes s) idx t fp -> arena s fp -> reach n k t ->
  N.of_nat (length (sb_nodes s) + grow n k t) <= NIL ->
  inserted n k v idx t fp s (insert_at fuel idx k v (256 - n) s).
Proof.
  revert n idx t s fp k v. induction fuel as [|fuel IH];
    intros n idx t s fp k v Hn Hf Hr Ha Hreach Hlen.
  { destruct t; cbn in Hf; [lia|lia|]. destruct n; [done|lia]. }
  destruct t as [|k' v'|l r].
  - destruct Hr as [-> ->]. cbn [insert_at]. rewrite N.eqb_refl. by apply insert_E.
  - destruct Hr as (Hnil & Hs & ->). cbn [insert_at].
    rewrite (proj2 (N.eqb_neq idx NIL) Hnil). erewrite bind_ok by by apply read_ok.
    pose proof (lookup_lt_Some _ _ _ Hs) as Hlt.
    cbn [reach grow insert_fuel] in *. destruct (N.eqb_spec k' k) as [->|Hk].
    + erewrite bind_ok by by eapply write_ok. eexists _, idx, {[N.to_nat idx]}.
      split_and!; [| | | |done].
      * unfold absent. cbn [tget]. rewrite N.eqb_refl. done.
      * cbn [ins]. rewrite N.eqb_refl. cbn. split_and!; [done|by apply list_lookup_insert_eq|done].
      * by apply evolves_write; [|set_solver].
      * cbn. rewrite length_insert. lia.
    + destruct n as [|n]; [by apply agree_0 in Hreach; subst|].
      erewrite bind_ok by by eapply write_ok.
      set (s1 := set_nodes <[N.to_nat idx := Internal NIL NIL None]> s).
      assert (He1 : evolves s {[N.to_nat idx]} s1 {[N.to_nat idx]})
        by (apply evolves_write; [done|set_solver]).
      assert (Hl1 : length (sb_nodes s1) = length (sb_nodes s)) by (cbn; by rewrite length_insert).
      destruct (IH (S n) idx (I E E) s1 {[N.to_nat idx]} k' v')
        as (s2 & i2 & fp2 & Hrun2 & Hr2 & He2 & Hg2 & Hi2); [done|cbn; lia| |apply He1| | |].
      { exists NIL, NIL, None, ∅, ∅. split_and!; try done; try set_solver. by apply list_lookup_insert_eq. }
      { cbn. by destruct (kbit k' n). }
      { cbn [grow]. destruct (kbit k' n); lia. }
      erewrite bind_ok by exact Hrun2. rewrite Hi2 in Hr2 by done.
      assert (Hg2' : (length (sb_nodes s2) <= length (sb_nodes s) + 1)%nat).
      { rewrite <- Hl1. cbn [grow] in Hg2. by destruct (kbit k' n). }
      destruct (IH (S n) idx (ins (S n) k' v' (I E E)) s2 fp2 k v)
        as (s3 & i3 & fp3 & Hrun3 & Hr3 & He3 & Hg3 & Hi3); [done| |done|apply He2| | |].
      { cbn. destruct (kbit k' n); cbn; lia. }
      { cbn. destruct (kbit k' n) eqn:E1, (kbit k n) eqn:E2; cbn; rewrite ?E2; cbn; try done;
          (apply agree_S; [done|congruence]). }
      { cbn. destruct (kbit k' n); cbn; destruct (kbit k n); cbn; lia. }
      erewrite bind_ok by exact Hrun3. eexists s3, idx, fp3. split_and!; [| | | |done].
      * unfold absent. cbn [tget]. by rewrite (proj2 (N.eqb_neq k' k) Hk).
      * rewrite Hi3 in Hr3 by (cbn; by destruct (kbit k' n)).
        rewrite <- ins_split in Hr3 by by apply N.eqb_neq. cbn [ins].
        by rewrite (proj2 (N.eqb_neq k' k) Hk).
      * eapply evolves_trans; [exact He1|]. by eapply evolves_trans.
      * cbn [grow] in *. cbn in Hg3. revert Hg3.
        destruct (kbit k' n); cbn; destruct (kbit k n); cbn; lia.
  - destruct n as [|n]; [done|]. apply (insert_I fuel n k v (kbit k n)); [lia|done|done|done|].
    intros a fa s1 Hra Ha1 Hl1. cbn [reach grow insert_fuel] in *.
    destruct (kbit k n); (apply IH; [lia| |done|done|done|by rewrite Hl1]);
      [destruct r|destruct l]; cbn; lia.
Qed.
(** ** Removal *)

Lemma free_slot_spec s fp idx :
  arena s fp -> idx ≠ NIL -> N.to_nat idx ∈ fp -> (N.to_nat idx < length (sb_nodes s))%nat ->
  free_slot idx s = (set_free (cons idx) s, Ok tt) /\
  evolves s fp (set_free (cons idx) s) (fp ∖ {[N.to_nat idx]}).
Proof.
  intros [Hn Hnil Hb Hd] Hi Hin Hlt. split.
  { unfold free_slot. by rewrite (proj2 (N.eqb_neq idx NIL) Hi). }
  assert (Hfs : freeset (set_free (cons idx) s) = {[N.to_nat idx]} ∪ freeset s) by done.
  split; [split| |done|done|done]; rewrite ?Hfs; cbn.
  - apply NoDup_cons. split; [|done]. intros Hc. apply (Hd (N.to_nat idx)); [done|].
    unfold freeset. apply elem_of_list_to_set, list_elem_of_fmap. eauto.
  - by apply Forall_cons.
  - intros j Hj. apply elem_of_union in Hj as [Hj|Hj]; [|by apply Hb].
    by apply elem_of_singleton in Hj as ->.
  - set_solver.
  - intros j Hj. left. destruct (decide (j = N.to_nat idx)) as [->|]; set_solver.
Qed.

Lemma is_leaf_spec ns idx t fp s :
  repr ns idx t fp -> sb_nodes s = ns ->
  is_leaf idx s = (s, Ok (match t with L _ _ => true | _ => false end)) /\
  (idx =? NIL) = match t with E => true | _ => false end.
Proof.
  intros Hr <-. unfold is_leaf. destruct t as [|k v|l r]; cbn in Hr.
  - destruct Hr as [-> _]. by rewrite N.eqb_refl.
  - destruct Hr as (Hi & Hn & _). rewrite (proj2 (N.eqb_neq idx NIL) Hi).
    by erewrite bind_ok by by apply read_ok.
  - destruct Hr as (? & ? & ? & ? & ? & Hi & Hn & _). rewrite (proj2 (N.eqb_neq idx NIL) Hi).
    by erewrite bind_ok by by apply read_ok.
Qed.

Lemma collapse_spec s idx il ir c l r fp :
  repr (sb_nodes s) idx (I l r) fp -> sb_nodes s !! N.to_nat idx = Some (Internal il ir c) ->
  arena s fp ->
  exists s' idx' fp', collapse idx il ir s = (s', Ok idx') /\
    repr (sb_nodes s') idx' (node l r) fp' /\ evolves s fp s' fp' /\ sb_nodes s' = sb_nodes s.
Proof.
  intros Hr Hs Ha.
  pose proof Hr as (il' & ir' & c' & fl & fr & Hi & Hs' & Hl & Hrr & Hd & Hil & Hir & Hfp & _).
  rewrite Hs in Hs'. injection Hs' as <- <- <-.
  destruct (is_leaf_spec _ _ _ _ s Hl eq_refl) as [Ell Eln].
  destruct (is_leaf_spec _ _ _ _ s Hrr eq_refl) as [Erl Ern].
  destruct (free_slot_spec s fp idx Ha Hi) as [Hfree Hev]; [set_solver|by eapply lookup_lt_Some|].
  unfold collapse. rewrite (bind_ok _ _ _ _ _ Ell), (bind_ok _ _ _ _ _ Erl), Eln, Ern.
  assert (Hkeep : evolves s fp s fp) by by apply evolves_refl.
  destruct l as [|kl vl|l1 l2], r as [|kr vr|r1 r2]; cbn [andb node];
    try (exists s, idx, fp; by split_and!);
    rewrite (bind_ok _ _ _ _ _ Hfree); eexists _, _, _; (split_and!; [done| |exact Hev|done]).
  - destruct Hl as [_ ->], Hrr as [_ ->]. cbn. split; [done|]. set_solver.
  - destruct Hl as [_ ->], Hrr as (? & ? & ->). cbn. split_and!; [done|done|set_solver].
  - destruct Hl as (? & ? & ->), Hrr as [_ ->]. cbn. split_and!; [done|done|set_solver].
Qed.

Definition removed (n : nat) (k : Hash) (t : tree) (fp : gset nat) (s : Sbmt)
  (r : Sbmt * outcome Empty_set (NodeIdx * bool)) : Prop :=
  exists s' idx' fp', r = (s', Ok (idx', negb (absent n k t))) /\
    repr (sb_nodes s') idx' (del n k t) fp' /\ evolves s fp s' fp' /\
    length (sb_nodes s') = length (sb_nodes s).

Lemma remove_at_spec fuel n idx t k s fp :
  (n <= 256)%nat -> (n < fuel)%nat -> repr (sb_nodes s) idx t fp -> arena s fp -> fits n t ->
  removed n k t fp s (remove_at fuel idx k (256 - n) s).
Proof.
  revert n idx t s fp. induction fuel as [|fuel IH]; intros n idx t s fp Hn Hf Hr Ha Hfit; [lia|].
  destruct t as [|k' v'|l r]; cbn [remove_at].
  - destruct Hr as [-> ->]. rewrite N.eqb_refl. exists s, NIL, ∅.
    split_and!; [done|done|by apply evolves_refl|done].
  - pose proof Hr as (Hi & Hs & Hfp). rewrite (proj2 (N.eqb_neq idx NIL) Hi).
    erewrite bind_ok by by apply read_ok. unfold removed, absent. cbn [tget del].
    destruct (N.eqb_spec k' k) as [->|Hk].
    + destruct (free_slot_spec s fp idx Ha Hi) as [Hfree Hev]; [set_solver|by eapply lookup_lt_Some|].
      rewrite (bind_ok _ _ _ _ _ Hfree). eexists _, NIL, _.
      split_and!; [done| |exact Hev|done]. cbn. split; [done|]. set_solver.
    + exists s, idx, fp. split_and!; [done|done|by apply evolves_refl|done].
  - destruct n as [|n]; [done|]. cbn [fits] in Hfit. destruct Hfit as [Hfl Hfr].
    set (b := kbit k n) in *.
    destruct (repr_tnode_inv b _ _ _ _ _ Hr)
      as (a & p & c & fa & fpas & Hnil & Hs & Hra & Hrp & Hd & Hia & Hip & -> & _).
    destruct (IH n a (if b then r else l) s fa) as (s2 & a' & fa' & Hrun & Hra' & He2 & Hl2);
      [lia|lia|done|eapply arena_sub; [done|set_solver]|by destruct b|].
    destruct (child_step b s idx a p c fa fpas (if b then l else r) s2 a'
                (del n k (if b then r else l)) fa') as (Hs2 & Hr3 & He3); auto.
    pose proof (lookup_lt_Some _ _ _ Hs2) as Hlt2.
    set (s3 := set_nodes <[N.to_nat idx := int_node b a' p None]> s2) in *.
    assert (Hs3 : sb_nodes s3 !! N.to_nat idx = Some (int_node b a' p None))
      by by apply list_lookup_insert_eq.
    set (l3 := if b then l else del n k l) in *. set (r3 := if b then del n k r else r) in *.
    set (il3 := if b then p else a') in *. set (ir3 := if b then a' else p) in *.
    assert (Hs3' : sb_nodes s3 !! N.to_nat idx = Some (Internal il3 ir3 None))
      by (rewrite Hs3; by destruct b).
    destruct (collapse_spec s3 idx il3 ir3 None l3 r3 ({[N.to_nat idx]} ∪ fa' ∪ fpas))
      as (s4 & i4 & fp4 & Hc & Hr4 & He4 & Hl4); [|done|apply He3|].
    { cbn [sb_nodes set_nodes s3]. subst l3 r3. by destruct b. }
    exists s4, i4, fp4. split_and!; [| |by eapply evolves_trans|].
    + rewrite (proj2 (N.eqb_neq idx NIL) Hnil). erewrite bind_ok by by apply read_ok.
      unfold absent. cbn [tget]. fold b. subst il3 ir3.
      destruct b eqn:Eb; cbn [int_node] in *; (erewrite bind_ok by (apply key_bit_ok; lia));
        fold b; rewrite Eb, key_bit_depth by lia.
      all: (erewrite bind_ok; [|(erewrite bind_ok by exact Hrun; cbn beta iota;
              (erewrite bind_ok by by eapply update_ok); reflexivity)]);
        (erewrite bind_ok by by apply read_ok); cbn beta iota;
        (erewrite bind_ok by exact Hc); reflexivity.
    + cbn [del]. fold b. subst l3 r3. by destruct b.
    + rewrite Hl4. cbn. rewrite length_insert. done.
Qed.
(** ** Hashing, lookups and proofs *)

(** A step on a subtree is a step on the whole. *)
Lemma evolves_extend s fp s' fp' (X : gset nat) :
  evolves s fp s' fp' -> arena s (fp ∪ X) -> X ## fp ->
  (forall j, j ∈ X -> (j < length (sb_nodes s))%nat) -> evolves s (fp ∪ X) s' (fp' ∪ X).
Proof.
  intros He [_ _ _ Hd] Hx Hb.
  destruct (evolves_outside _ _ _ _ X He) as (Hx' & Hxf & _); [done|set_solver|done|].
  destruct He as [[Hn Hnil Hbd Hdj] O F Lg R]. split; [split| | | |]; try done.
  - set_solver.
  - intros j Hj. destruct (decide (j ∈ X)); [left; set_solver|].
    destruct (O j) as [Ho|Ho]; [set_solver|left; set_solver|by right].
  - intros j Hj Hl. apply F; [set_solver|done].
Qed.

(** A step that keeps the tree of a child keeps the tree of its parent. *)
Lemma child_keep b s idx a p c fa fpas ta tp s' :
  idx ≠ NIL -> sb_nodes s !! N.to_nat idx = Some (int_node b a p c) ->
  repr (sb_nodes s) a ta fa -> repr (sb_nodes s) p tp fpas ->
  arena s ({[N.to_nat idx]} ∪ fa ∪ fpas) -> fa ## fpas ->
  N.to_nat idx ∉ fa -> N.to_nat idx ∉ fpas ->
  evolves s fa s' fa -> repr (sb_nodes s') a ta fa ->
  sb_nodes s' !! N.to_nat idx = Some (int_node b a p c) /\ repr (sb_nodes s') p tp fpas /\
  evolves s ({[N.to_nat idx]} ∪ fa ∪ fpas) s' ({[N.to_nat idx]} ∪ fa ∪ fpas).
Proof.
  intros Hnil Hs Hra Hrp Ha Hd Hia Hip He Hra'. pose proof Ha as [_ _ _ Hdj].
  assert (Hb : forall j, j ∈ {[N.to_nat idx]} ∪ fpas -> (j < length (sb_nodes s))%nat).
  { intros j Hj. apply elem_of_union in Hj as [Hj|Hj]; [|by eapply repr_bound].
    apply elem_of_singleton in Hj as ->. by eapply lookup_lt_Some. }
  destruct (evolves_outside _ _ _ _ ({[N.to_nat idx]} ∪ fpas) He) as (_ & _ & Hx);
    [set_solver|set_solver|done|].
  split_and!.
  - rewrite Hx; [done|set_solver].
  - eapply repr_frame; [|exact Hrp]. intros j Hj. apply Hx. set_solver.
  - replace ({[N.to_nat idx]} ∪ fa ∪ fpas) with (fa ∪ ({[N.to_nat idx]} ∪ fpas)) in * by set_solver.
    by apply evolves_extend; [|done|set_solver|].
Qed.

Lemma node_hash_spec fuel n idx t s fp :
  (n < fuel)%nat -> repr (sb_nodes s) idx t fp -> arena s fp -> fits n t ->
  exists s', node_hash fuel idx s = (s', Ok (thash t)) /\
    repr (sb_nodes s') idx t fp /\ evolves s fp s' fp /\
    length (sb_nodes s') = length (sb_nodes s).
Proof.
  revert n idx t s fp. induction fuel as [|fuel IH]; intros n idx t s fp Hf Hr Ha Hfit; [lia|].
  destruct t as [|k v|l r]; cbn [node_hash].
  - pose proof Hr as [-> _]. rewrite N.eqb_refl. exists s. by split_and!; try apply evolves_refl.
  - pose proof Hr as (Hi & Hs & _). rewrite (proj2 (N.eqb_neq idx NIL) Hi).
    erewrite bind_ok by by apply read_ok. exists s. by split_and!; try apply evolves_refl.
  - destruct n as [|n]; [done|]. cbn [fits] in Hfit. destruct Hfit as [Hfl Hfr].
    destruct (repr_tnode_inv false _ _ _ _ _ Hr)
      as (il & ir & c & fl & fr & Hi & Hs & Hl & Hrr & Hd & Hil & Hir & -> & Hc).
    rewrite (proj2 (N.eqb_neq idx NIL) Hi). erewrite bind_ok by by apply read_ok.
    cbn [int_node] in *. destruct Hc as [->| ->];
      [|exists s; by split_and!; try apply evolves_refl].
    destruct (IH n il l s fl) as (s1 & Hh1 & Hl1 & He1 & Hn1);
      [lia|done|eapply arena_sub; [done|set_solver]|done|].
    destruct (child_keep false s idx il ir None fl fr l r s1) as (Hs1 & Hr1 & Hev1); auto.
    destruct (IH n ir r s1 fr) as (s2 & Hh2 & Hr2 & He2 & Hn2);
      [lia|done|eapply arena_sub; [apply Hev1|set_solver]|done|].
    replace ({[N.to_nat idx]} ∪ fl ∪ fr) with ({[N.to_nat idx]} ∪ fr ∪ fl) in * by apply union_swap.
    destruct (child_keep true s1 idx ir il None fr fl r l s2) as (Hs2 & Hl2 & Hev2); auto.
    { apply Hev1. }
    pose proof (lookup_lt_Some _ _ _ Hs2) as Hlt.
    eexists. split_and!.
    + erewrite bind_ok by exact Hh1. erewrite bind_ok by exact Hh2.
      erewrite bind_ok by by eapply update_ok. reflexivity.
    + apply (repr_tnode true _ _ ir il (Some (thash (I l r))) r l); auto.
      * by apply list_lookup_insert_eq.
      * eapply repr_frame; [|exact Hr2]. intros j Hj. cbn. rewrite list_lookup_insert_ne; [done|]. set_solver.
      * eapply repr_frame; [|exact Hl2]. intros j Hj. cbn. rewrite list_lookup_insert_ne; [done|]. set_solver.
    + eapply evolves_trans; [exact Hev1|]. eapply evolves_trans; [exact Hev2|].
      apply evolves_write; [apply Hev2|set_solver].
    + cbn. rewrite length_insert. congruence.
Qed.

Lemma get_loop_spec fuel n idx t k s fp :
  (n <= 256)%nat -> (n < fuel)%nat -> repr (sb_nodes s) idx t fp -> fits n t ->
  get_loop fuel idx k (256 - n) s = (s, Ok (tget n k t)).
Proof.
  revert n idx t fp. induction fuel as [|fuel IH]; intros n idx t fp Hn Hf Hr Hfit; [lia|].
  destruct t as [|k' v|l r]; cbn [get_loop].
  - destruct Hr as [-> _]. by rewrite N.eqb_refl.
  - destruct Hr as (Hi & Hs & _). rewrite (proj2 (N.eqb_neq idx NIL) Hi).
    by erewrite bind_ok by by apply read_ok.
  - destruct n as [|n]; [done|]. cbn [fits] in Hfit. destruct Hfit as [Hfl Hfr].
    destruct Hr as (il & ir & c & fl & fr & Hi & Hs & Hl & Hrr & _).
    rewrite (proj2 (N.eqb_neq idx NIL) Hi). erewrite bind_ok by by apply read_ok.
    cbn beta iota. erewrite bind_ok by (apply key_bit_ok; lia). rewrite key_bit_depth by lia. cbn [tget].
    destruct (kbit k n); eapply IH; eauto; lia.
Qed.

Lemma collect_stats_spec fuel n idx t s fp st :
  (n < fuel)%nat -> repr (sb_nodes s) idx t fp -> fits n t ->
  collect_stats fuel idx st s =
    (s, Ok (mkNodeStats (internal_nodes st + internals t) (leaf_nodes st + leaves t)
              (serialized_bytes st + 64 * N.of_nat (leaves t) + 96 * N.of_nat (internals t)))).
Proof.
  revert n idx t fp st. induction fuel as [|fuel IH]; intros n idx t fp st Hf Hr Hfit; [lia|].
  destruct t as [|k' v|l r]; cbn [collect_stats].
  - destruct Hr as [-> _]. rewrite N.eqb_refl. destruct st as [i l b]. cbn -[N.mul].
    rewrite !Nat.add_0_r. unfold mret, st_ret. do 3 f_equal. lia.
  - destruct Hr as (Hi & Hs & _). rewrite (proj2 (N.eqb_neq idx NIL) Hi).
    erewrite bind_ok by by apply read_ok. cbn -[N.mul]. unfold mret, st_ret. do 3 f_equal; lia.
  - destruct n as [|n]; [done|]. cbn [fits] in Hfit. destruct Hfit as [Hfl Hfr].
    destruct Hr as (il & ir & c & fl & fr & Hi & Hs & Hl & Hrr & _).
    rewrite (proj2 (N.eqb_neq idx NIL) Hi). erewrite bind_ok by by apply read_ok.
    cbn beta iota. erewrite bind_ok by (eapply IH; [|exact Hl|exact Hfl]; lia).
    erewrite IH; [|by apply Nat.succ_lt_mono|exact Hrr|exact Hfr]. cbn -[N.mul].
    do 3 f_equal; lia.
Qed.

Lemma prove_loop_spec fuel n idx t k siblings s fp :
  (n <= 256)%nat -> (n < fuel)%nat -> repr (sb_nodes s) idx t fp -> arena s fp -> fits n t ->
  exists s', prove_loop fuel idx k (256 - n) siblings s =
      (s', Ok (proof_at k (siblings ++ tsiblings n k t) (tend n k t))) /\
    repr (sb_nodes s') idx t fp /\ evolves s fp s' fp /\
    length (sb_nodes s') = length (sb_nodes s).
Proof.
  revert n idx t siblings s fp.
  induction fuel as [|fuel IH]; intros n idx t siblings s fp Hn Hf Hr Ha Hfit; [lia|].
  destruct t as [|k' v|l r]; cbn [prove_loop].
  - pose proof Hr as [-> _]. rewrite N.eqb_refl. exists s. cbn [tsiblings tend proof_at].
    rewrite app_nil_r. by split_and!; try apply evolves_refl.
  - pose proof Hr as (Hi & Hs & _). rewrite (proj2 (N.eqb_neq idx NIL) Hi).
    erewrite bind_ok by by apply read_ok. exists s. cbn [tsiblings tend proof_at].
    rewrite app_nil_r. by split_and!; try apply evolves_refl.
  - destruct n as [|n]; [done|]. cbn [fits] in Hfit. destruct Hfit as [Hfl Hfr].
    set (b := kbit k n) in *.
    destruct (repr_tnode_inv b _ _ _ _ _ Hr)
      as (a & p & c & fa & fpas & Hi & Hs & Hra & Hrp & Hd & Hia & Hip & -> & Hc).
    destruct (node_hash_spec tree_fuel n p (if b then l else r) s fpas)
      as (s1 & Hh1 & Hrp1 & He1 & Hn1).
    { unfold tree_fuel. lia. }
    { done. }
    { eapply arena_sub; [done|apply union_subseteq_r]. }
    { by destruct b. }
    assert (Hsw : int_node b a p c = int_node (negb b) p a c) by by destruct b.
    replace ({[N.to_nat idx]} ∪ fa ∪ fpas) with ({[N.to_nat idx]} ∪ fpas ∪ fa) in * by apply union_swap.
    destruct (child_keep (negb b) s idx p a c fpas fa (if b then l else r) (if b then r else l) s1)
      as (Hs1 & Hra1 & Hev1); auto; [by rewrite <- Hsw|].
    destruct (IH n a (if b then r else l) (siblings ++ [thash (if b then l else r)]) s1 fa)
      as (s2 & Hrun & Hra2 & He2 & Hn2);
      [lia|lia|done|eapply arena_sub; [apply Hev1|apply union_subseteq_r]|by destruct b|].
    replace ({[N.to_nat idx]} ∪ fpas ∪ fa) with ({[N.to_nat idx]} ∪ fa ∪ fpas) in * by apply union_swap.
    rewrite <- Hsw in Hs1.
    destruct (child_keep b s1 idx a p c fa fpas (if b then r else l) (if b then l else r) s2)
      as (Hs2 & Hrp2 & Hev2); auto.
    { apply Hev1. }
    exists s2. split_and!; [| |by eapply evolves_trans|congruence].
    + rewrite (proj2 (N.eqb_neq idx NIL) Hi). erewrite bind_ok by by apply read_ok.
      cbn [tsiblings tend]. fold b.
      destruct b eqn:Eb; cbn [int_node] in *; (erewrite bind_ok by (apply key_bit_ok; lia));
        fold b; rewrite Eb, key_bit_depth by lia; (erewrite bind_ok by exact Hh1);
        rewrite Hrun, <- app_assoc; reflexivity.
    + pose proof (repr_tnode b _ idx a p c (if b then r else l) (if b then l else r) fa fpas
        Hi Hs2 Hra2 Hrp2 Hd Hia Hip) as Hres.
      assert (Ht : tnode b (if b then r else l) (if b then l else r) = I l r) by by destruct b.
      rewrite Ht in Hres. by apply Hres.
Qed.
End arena.
