(* ===== verification/BmtTheory.v ===== *)
(** * What the sparse binary Merkle tree promises

    The arena tree refines a finite map from keys to value hashes: every
    sequence of calls returns what the map would, and the root hash is a function
    of the map alone.  Its proofs are complete, and sound as long as blake3 has
    no collision among the inputs hashed for the tree and for the proof. *)

From S2P Require Import Prelude Effects Messages BmtCore BmtTree BmtArena.

Section sbmt.
Context {digest : Digest}.

Record sbmt_inv (s : Sbmt) (m : gmap Hash Hash) : Prop := {
  si_base : (sb_base_depth s <= 256)%nat;
  si_keys : keys_agree (256 - sb_base_depth s) m;
  si_tree : exists fp, repr (sb_nodes s) (sb_root s) (canon (256 - sb_base_depth s) m) fp /\
              arena s fp;
  si_len : sb_len s = size m
}.

Lemma inv_empty base : (base <= 256)%nat -> sbmt_inv (with_base_depth base) ∅.
Proof.
  intros Hb. split; cbn; [done| | |done].
  - intros k k' [v Hk]. by rewrite lookup_empty in Hk.
  - exists ∅. rewrite canon_empty. split; [done|].
    split; cbn; [apply NoDup_nil_2|apply Forall_nil_2|set_solver|set_solver].
Qed.

(** The root may only move together with the tree below it. *)
Lemma arena_root s fp root f : arena s fp -> arena (set_len f (set_root root s)) fp.
Proof. by intros []. Qed.

Lemma reach_canon n k v m : keys_agree n (<[k := v]> m) -> reach n k (canon n m).
Proof.
  revert m. induction n as [|n IH]; intros m H;
    (destruct (map_size_cases m) as [->|[(k' & v' & ->)|Hs]];
     [by rewrite canon_empty|rewrite canon_singleton|]).
  1, 3: destruct (decide (k = k')) as [->|Hk]; [done|]; apply H;
    [|rewrite lookup_insert_ne by done]; rewrite ?lookup_insert_eq, ?lookup_singleton_eq; eauto.
  - assert (Hm : keys_agree 0 m).
    { eapply keys_agree_subseteq; [|exact H]. intros i Hi. by apply lookup_insert_is_Some'; right. }
    apply keys_agree_small in Hm. lia.
  - rewrite canon_node by done. cbn [reach].
    pose proof (fun b => side_keys n b _ H) as Hk.
    destruct (kbit k n) eqn:Eb; apply IH; [specialize (Hk true)|specialize (Hk false)];
      rewrite side_insert in Hk; by case_decide; [|congruence].
Qed.

Lemma insert_hashed_spec s m k v :
  sbmt_inv s m -> keys_agree (256 - sb_base_depth s) (<[k := v]> m) ->
  N.of_nat (length (sb_nodes s) + 257) <= NIL ->
  exists s', insert_hashed k v s = (s', Ok tt) /\ sbmt_inv s' (<[k := v]> m) /\
    sb_base_depth s' = sb_base_depth s /\
    (length (sb_nodes s') <= length (sb_nodes s) + 257)%nat.
Proof.
  intros [Hb Hk (fp & Hr & Ha) Hl] Hk' Hlen. set (n := (256 - sb_base_depth s)%nat) in *.
  pose proof (grow_le n k (canon n m)) as Hg.
  destruct (insert_at_spec tree_fuel n (sb_root s) (canon n m) k v s fp)
    as (s1 & i & fp1 & Hrun & Hr1 & He & Hgrow & _); try done.
  { lia. }
  { unfold tree_fuel. destruct (canon n m); cbn; lia. }
  { by eapply reach_canon. }
  { lia. }
  rewrite ins_canon in Hr1 by done.
  destruct (evolves_rest _ _ _ _ He) as (_ & Hl1 & Hb1).
  unfold insert_hashed. rewrite bind_state.
  replace (256 - n)%nat with (sb_base_depth s) in Hrun by lia. cbn beta.
  rewrite (bind_ok _ _ _ _ _ Hrun). cbn beta iota.
  exists (set_len (if absent n k (canon n m) then S else id) (set_root i s1)).
  assert (Hsz : (if absent n k (canon n m) then S else id) (sb_len s1) = size (<[k := v]> m)).
  { unfold absent. rewrite tget_canon by done. rewrite Hl1, Hl.
    case_bool_decide as Hm; [by rewrite map_size_insert_None|].
    destruct (m !! k) eqn:Em; [|done]. by erewrite map_size_insert_Some. }
  split_and!; [by destruct (absent n k (canon n m)); destruct s1| |done|cbn; lia].
  split; [cbn; lia|cbn; by rewrite Hb1| |done].
  exists fp1. split; [cbn; rewrite Hb1; done|]. apply arena_root, He.
Qed.

Lemma sb_remove_spec s m k :
  sbmt_inv s m ->
  exists s', sb_remove k s = (s', Ok (bool_decide (is_Some (m !! k)))) /\
    sbmt_inv s' (delete k m) /\ sb_base_depth s' = sb_base_depth s /\
    length (sb_nodes s') = length (sb_nodes s).
Proof.
  intros [Hb Hk (fp & Hr & Ha) Hl]. set (n := (256 - sb_base_depth s)%nat) in *.
  destruct (remove_at_spec tree_fuel n (sb_root s) (canon n m) k s fp)
    as (s1 & i & fp1 & Hrun & Hr1 & He & Hgrow); try done.
  { lia. }
  { unfold tree_fuel. lia. }
  { apply canon_fits. }
  rewrite del_canon in Hr1 by done.
  destruct (evolves_rest _ _ _ _ He) as (_ & Hl1 & Hb1).
  assert (Habs : negb (absent n k (canon n m)) = bool_decide (is_Some (m !! k))).
  { unfold absent. rewrite tget_canon by done. rewrite <- bool_decide_not.
    apply bool_decide_ext. by rewrite not_eq_None_Some. }
  rewrite Habs in Hrun.
  unfold sb_remove. rewrite bind_state.
  replace (256 - n)%nat with (sb_base_depth s) in Hrun by lia. cbn beta.
  rewrite (bind_ok _ _ _ _ _ Hrun). cbn beta iota.
  exists (set_len (if bool_decide (is_Some (m !! k)) then Nat.pred else id) (set_root i s1)).
  assert (Hsz : (if bool_decide (is_Some (m !! k)) then Nat.pred else id) (sb_len s1)
                = size (delete k m)).
  { rewrite Hl1, Hl. case_bool_decide as Hm.
    - destruct Hm as [v Hv]. by erewrite map_size_delete_Some.
    - rewrite map_size_delete_None; [done|]. by apply eq_None_not_Some. }
  split_and!; [by case_bool_decide; destruct s1| |done|done].
  split; [cbn; lia| | |done].
  - cbn. rewrite Hb1. eapply keys_agree_subseteq; [|exact Hk].
    intros j. rewrite lookup_delete_is_Some. tauto.
  - exists fp1. split; [cbn; rewrite Hb1; done|]. apply arena_root, He.
Qed.

(** The methods on [&self] change caches only. *)
Lemma inv_evolves s m fp s' :
  sbmt_inv s m -> repr (sb_nodes s') (sb_root s) (canon (256 - sb_base_depth s) m) fp ->
  evolves s fp s' fp -> sbmt_inv s' m.
Proof.
  intros [Hb Hk _ Hl] Hr He. destruct (evolves_rest _ _ _ _ He) as (Hr1 & Hl1 & Hb1).
  split; [lia|by rewrite Hb1| |congruence]. exists fp. rewrite Hb1, Hr1. split; [done|apply He].
Qed.

Lemma root_hash_spec s m :
  sbmt_inv s m ->
  exists s', root_hash s = (s', Ok (map_root (sb_base_depth s) m)) /\ sbmt_inv s' m /\
    sb_base_depth s' = sb_base_depth s /\ length (sb_nodes s') = length (sb_nodes s).
Proof.
  intros Hi. pose proof Hi as [Hb Hk (fp & Hr & Ha) Hl].
  destruct (node_hash_spec tree_fuel (256 - sb_base_depth s) (sb_root s)
              (canon (256 - sb_base_depth s) m) s fp) as (s' & Hh & Hr' & He & Hn).
  { unfold tree_fuel. lia. }
  { done. }
  { done. }
  { apply canon_fits. }
  exists s'. split_and!; [exact Hh|by eapply inv_evolves|by apply (evolves_rest _ _ _ _ He)|done].
Qed.

Lemma sb_get_spec s m k : sbmt_inv s m -> sb_get k s = (s, Ok (m !! k)).
Proof.
  intros [Hb Hk (fp & Hr & Ha) Hl]. unfold sb_get. rewrite bind_state. cbn beta.
  replace (sb_base_depth s) with (256 - (256 - sb_base_depth s))%nat at 1 by lia.
  erewrite get_loop_spec; [by rewrite tget_canon|lia|unfold tree_fuel; lia|exact Hr|apply canon_fits].
Qed.

Definition map_proof (base_depth : nat) (k : Hash) (m : gmap Hash Hash) : BmtProof :=
  tproof (256 - base_depth) k (canon (256 - base_depth) m).

Lemma sb_prove_spec s m k :
  sbmt_inv s m ->
  exists s', sb_prove k s = (s', Ok (map_proof (sb_base_depth s) k m)) /\ sbmt_inv s' m /\
    sb_base_depth s' = sb_base_depth s /\ length (sb_nodes s') = length (sb_nodes s).
Proof.
  intros Hi. pose proof Hi as [Hb Hk (fp & Hr & Ha) Hl].
  destruct (prove_loop_spec tree_fuel (256 - sb_base_depth s) (sb_root s)
              (canon (256 - sb_base_depth s) m) k [] s fp) as (s' & Hh & Hr' & He & Hn); try done.
  { lia. }
  { unfold tree_fuel. lia. }
  { apply canon_fits. }
  exists s'. split_and!; [|by eapply inv_evolves|by apply (evolves_rest _ _ _ _ He)|done].
  unfold sb_prove. rewrite bind_state. cbn beta.
  replace (256 - (256 - sb_base_depth s))%nat with (sb_base_depth s) in Hh by lia. exact Hh.
Qed.

Lemma leaves_canon n m : keys_agree n m -> leaves (canon n m) = size m.
Proof.
  revert m. induction n as [|n IH]; intros m H;
    (destruct (map_size_cases m) as [->|[(k' & v' & ->)|Hs]];
     [by rewrite canon_empty, map_size_empty|by rewrite canon_singleton, map_size_singleton|]).
  - apply keys_agree_small in H. lia.
  - rewrite canon_node by done. cbn [leaves]. rewrite !IH by by apply side_keys.
    rewrite (sides_union n m) at 3. symmetry. apply map_size_disj_union.
    apply map_disjoint_spec. intros k v v'. rewrite !side_lookup. by repeat case_decide; congruence.
Qed.

Lemma node_stats_spec s m :
  sbmt_inv s m ->
  exists st, node_stats s = (s, Ok st) /\ leaf_nodes st = size m /\
    serialized_bytes st = 64 * N.of_nat (leaf_nodes st) + 96 * N.of_nat (internal_nodes st).
Proof.
  intros [Hb Hk (fp & Hr & Ha) Hl]. unfold node_stats.
  rewrite bind_gets. cbn beta.
  erewrite (collect_stats_spec tree_fuel (256 - sb_base_depth s));
    [|unfold tree_fuel; lia|exact Hr|apply canon_fits].
  eexists. split_and!; [done| |done]. cbn. by apply leaves_canon.
Qed.

(** ** Sequences of calls *)

Inductive SbmtOp : Type :=
| OInsert (key : Hash) (value : bytes)
| ORemove (key : Hash)
| OGet (key : Hash)
| OLen
| ORoot
| OProve (key : Hash).

Inductive SbmtReply : Type :=
| RInserted
| RRemoved (existed : bool)
| RValue (value_hash : option Hash)
| RLen (n : nat)
| RRoot (root : Hash)
| RProof (proof : BmtProof).

Definition sbmt_step (op : SbmtOp) : MT SbmtReply :=
  match op with
  | OInsert key value => sb_insert key value ;; mret RInserted
  | ORemove key => b ← sb_remove key; mret (RRemoved b)
  | OGet key => v ← sb_get key; mret (RValue v)
  | OLen => n ← gets sb_len; mret (RLen n)
  | ORoot => h ← root_hash; mret (RRoot h)
  | OProve key => p ← sb_prove key; mret (RProof p)
  end.

Fixpoint sbmt_run (ops : list SbmtOp) : MT (list SbmtReply) :=
  match ops with
  | [] => mret []
  | op :: ops =>
      r ← sbmt_step op;
      rs ← sbmt_run ops;
      mret (r :: rs)
  end.

(** The same calls on the map from keys to value hashes. *)
Definition map_step (base : nat) (op : SbmtOp) (m : gmap Hash Hash)
  : gmap Hash Hash * SbmtReply :=
  match op with
  | OInsert key value => (<[key := hash_value value]> m, RInserted)
  | ORemove key => (delete key m, RRemoved (bool_decide (is_Some (m !! key))))
  | OGet key => (m, RValue (m !! key))
  | OLen => (m, RLen (size m))
  | ORoot => (m, RRoot (map_root base m))
  | OProve key => (m, RProof (map_proof base key m))
  end.

Fixpoint map_run (base : nat) (ops : list SbmtOp) (m : gmap Hash Hash) : list SbmtReply :=
  match ops with
  | [] => []
  | op :: ops => let '(m', r) := map_step base op m in r :: map_run base ops m'
  end.

Definition inserted_keys (ops : list SbmtOp) : list Hash :=
  omap (fun op => match op with OInsert key _ => Some key | _ => None end) ops.

(** The keys of a tree share the bits it skips. *)
Definition keys_share (base : nat) (ks : list Hash) : Prop :=
  forall k k', k ∈ ks -> k' ∈ ks -> is_b256 k /\ shares_prefix_range k k' 0 base = true.

Lemma kbit_high k d : is_b256 k -> (256 <= d)%nat -> kbit k d = false.
Proof.
  unfold is_b256, kbit. intros Hk Hd. change (256 ^ 32) with (2 ^ 256) in Hk.
  rewrite <- (N.mod_small k (2 ^ 256)) by done. apply N.mod_pow2_bits_high. lia.
Qed.

Lemma share_agree base k k' :
  (base <= 256)%nat -> is_b256 k -> is_b256 k' -> shares_prefix_range k k' 0 base = true ->
  agree (256 - base) k k'.
Proof.
  intros Hb Hk Hk' Hs d Hd. destruct (decide (256 <= d)%nat) as [H|H]; [by rewrite !kbit_high|].
  unfold shares_prefix_range in Hs. rewrite forallb_forall in Hs.
  specialize (Hs (255 - d)%nat). rewrite !bit_kbit in Hs by lia.
  replace (255 - (255 - d))%nat with d in Hs by lia.
  assert (Hin : In (255 - d)%nat (seq 0 base)) by (apply in_seq; lia).
  apply Hs, bool_decide_eq_true in Hin. by injection Hin.
Qed.

Lemma sbmt_step_refines ks base op s m :
  keys_share base ks -> (forall k, is_Some (m !! k) -> k ∈ ks) ->
  (forall k, k ∈ inserted_keys [op] -> k ∈ ks) ->
  sbmt_inv s m -> sb_base_depth s = base -> N.of_nat (length (sb_nodes s) + 257) <= NIL ->
  exists s', sbmt_step op s = (s', Ok (map_step base op m).2) /\
    sbmt_inv s' (map_step base op m).1 /\ sb_base_depth s' = base /\
    (length (sb_nodes s') <= length (sb_nodes s) + 257)%nat.
Proof.
  intros Hks Hm Hop Hi <- Hlen.
  destruct op as [k v|k|k| | |k]; cbn [sbmt_step map_step fst snd].
  - destruct (insert_hashed_spec s m k (hash_value v)) as (s' & Hr & Hi' & Hb & Hl); [done| |done|].
    { intros a a' Ha Ha'. pose proof (si_base s m Hi).
      assert (Hin : forall x, is_Some (<[k := hash_value v]> m !! x) -> x ∈ ks).
      { intros x Hx. apply lookup_insert_is_Some' in Hx as [<-|Hx]; [|by apply Hm].
        apply Hop. cbn. left. }
      apply share_agree; [done|..]; by eapply Hks; apply Hin. }
    exists s'. split_and!; [|done|done|done]. by rewrite (bind_ok _ _ _ _ _ Hr).
  - destruct (sb_remove_spec s m k Hi) as (s' & Hr & Hi' & Hb & Hl).
    exists s'. split_and!; [|done|done|lia]. by rewrite (bind_ok _ _ _ _ _ Hr).
  - exists s. rewrite (bind_ok _ _ _ _ _ (sb_get_spec s m k Hi)). split_and!; [done|done|done|lia].
  - exists s. rewrite bind_gets, (si_len s m Hi). split_and!; [done|done|done|lia].
  - destruct (root_hash_spec s m Hi) as (s' & Hr & Hi' & Hb & Hl).
    exists s'. split_and!; [|done|done|lia]. by rewrite (bind_ok _ _ _ _ _ Hr).
  - destruct (sb_prove_spec s m k Hi) as (s' & Hr & Hi' & Hb & Hl).
    exists s'. split_and!; [|done|done|lia]. by rewrite (bind_ok _ _ _ _ _ Hr).
Qed.

Lemma sbmt_run_refines ks base ops s m :
  keys_share base ks -> (forall k, is_Some (m !! k) -> k ∈ ks) ->
  (forall k, k ∈ inserted_keys ops -> k ∈ ks) ->
  sbmt_inv s m -> sb_base_depth s = base ->
  N.of_nat (length (sb_nodes s) + 257 * length ops) <= NIL ->
  exists s', sbmt_run ops s = (s', Ok (map_run base ops m)).
Proof.
  intros Hks. revert s m. induction ops as [|op ops IH]; intros s m Hm Hop Hi Hb Hlen.
  { by exists s. }
  cbn [length] in Hlen.
  assert (Hin : forall k, k ∈ inserted_keys [op] \/ k ∈ inserted_keys ops -> k ∈ ks).
  { intros k Hk. apply Hop. unfold inserted_keys. change (op :: ops) with ([op] ++ ops).
    rewrite omap_app. by apply elem_of_app. }
  destruct (sbmt_step_refines ks base op s m) as (s1 & Hr & Hi1 & Hb1 & Hl1); auto.
  { lia. }
  destruct (IH s1 (map_step base op m).1) as (s2 & Hr2); auto.
  - intros k Hk. destruct op as [k' v|k'|k'| | |k']; cbn in Hk; try by apply Hm.
    + apply lookup_insert_is_Some' in Hk as [<-|Hk]; [|by apply Hm]. apply Hin. left. cbn. left.
    + apply lookup_delete_is_Some in Hk as [_ Hk]. by apply Hm.
  - lia.
  - exists s2. cbn [sbmt_run]. rewrite (bind_ok _ _ _ _ _ Hr), (bind_ok _ _ _ _ _ Hr2).
    cbn [map_run]. by destruct (map_step base op m).
Qed.
End sbmt.

Section promises.
Context {digest : Digest}.

(** A sparse Merkle tree is a finite map: whatever is inserted, updated,
    removed, looked up, hashed and proved, in any order, the arena with its free
    list and cached hashes never panics and returns what the map from keys to
    value hashes returns; the root hash depends on that map only. *)
Theorem sbmt_refines_map base ops :
  (base <= 256)%nat -> keys_share base (inserted_keys ops) ->
  257 * N.of_nat (length ops) <= NIL ->
  (sbmt_run ops (with_base_depth base)).2 = Ok (map_run base ops ∅).
Proof.
  intros Hb Hks Hlen.
  destruct (sbmt_run_refines (inserted_keys ops) base ops (with_base_depth base) ∅)
    as (s' & ->); auto.
  - intros k [v Hk]. by rewrite lookup_empty in Hk.
  - by apply inv_empty.
  - cbn -[Nat.mul]. lia.
Qed.
End promises.
