(* ===== verification/BmtProofs.v ===== *)
(** * Soundness and completeness of Merkle proofs

    Completeness: the proof of a key in the canonical tree of a map verifies
    against its root for exactly what the map holds.  Soundness: a verified proof
    tells what the map holds, if blake3 has no collision among the inputs that
    were hashed for the tree and for the proof. *)

From S2P Require Import Prelude Effects Messages BmtCore BmtTree BmtArena BmtTheory.

Section proofs.
Context {digest : Digest}.

Lemma fold_cons k d sib rest leaf :
  fold_siblings k d (sib :: rest) leaf =
    (cur ← fold_siblings k (S d) rest leaf;
     b ← bit k d;
     mret (if b : bool then hash_internal sib cur else hash_internal cur sib)).
Proof. done. Qed.

(** A verifier within the bounds it checks never panics. *)
Lemma fold_total k d siblings leaf :
  (d + length siblings <= 256)%nat -> is_Some (fold_siblings k d siblings leaf).
Proof.
  revert d. induction siblings as [|sib rest IH]; intros d Hd; [by eexists|].
  cbn [length] in Hd. destruct (IH (S d)) as [cur Hc]; [lia|].
  rewrite fold_cons, Hc, bit_kbit by lia. by eexists.
Qed.

Lemma verify_total p root expected base : is_Some (bmt_verify p root expected base).
Proof.
  unfold bmt_verify. destruct (_ || _) eqn:Eb; [by eexists|].
  destruct (negb _); [by eexists|]. destruct (proof_leaf_hash p base) as [leaf|]; [|by eexists].
  bool_simpl. destruct (fold_total (bp_key p) base (bp_siblings p) leaf) as [cur ->]; [lia|].
  by eexists.
Qed.

(** ** Completeness *)

Lemma fold_complete n k t :
  (n <= 256)%nat -> fits n t ->
  fold_siblings k (256 - n) (tsiblings n k t) (thash (tend n k t)) = Some (thash t).
Proof.
  revert n. induction t as [|k' v'|l IHl r IHr]; intros n Hn Hf; [done|done|].
  destruct n as [|n]; [done|]. cbn [fits] in Hf. destruct Hf as [Hl Hr]. cbn [tsiblings tend].
  destruct (kbit k n) eqn:Eb; rewrite fold_cons, key_bit_depth by lia;
    rewrite ?IHl, ?IHr by (done || lia); cbn [mbind option_bind];
    rewrite bit_kbit by lia; replace (255 - (256 - S n))%nat with n by lia; rewrite Eb; done.
Qed.

Lemma tsiblings_length n k t : (length (tsiblings n k t) <= n)%nat.
Proof.
  revert n. induction t as [| |l IHl r IHr]; intros n; cbn; [lia|lia|].
  destruct n as [|n]; cbn; [lia|]. specialize (IHl n). specialize (IHr n).
  destruct (kbit k n); cbn; lia.
Qed.

Lemma tend_get n k t :
  fits n t -> tget n k t = match tend n k t with
                           | L k' v => if k' =? k then Some v else None
                           | _ => None
                           end.
Proof.
  revert n. induction t as [| |l IHl r IHr]; intros n Hf; [done|done|].
  destruct n as [|n]; [done|]. destruct Hf. cbn. destruct (kbit k n); auto.
Qed.

Lemma tend_not_I n k t l r : tend n k t ≠ I l r.
Proof.
  revert n. induction t as [| |l' IHl r' IHr]; intros n; [done|done|].
  destruct n as [|n]; [done|]. cbn. destruct (kbit k n); auto.
Qed.

Lemma canon_In n m k v :
  keys_agree n m -> tend n k (canon n m) = L k v -> m !! k = Some v.
Proof.
  intros Hk He. rewrite <- (tget_canon n k m Hk), tend_get by apply canon_fits.
  by rewrite He, N.eqb_refl.
Qed.

(** The leaf at the end of a path has the bits of the path. *)
Lemma tend_prefix n k m k' v' :
  keys_agree n m -> tend n k (canon n m) = L k' v' ->
  is_Some (m !! k') /\
  forall d, (n - length (tsiblings n k (canon n m)) <= d < n)%nat -> kbit k d = kbit k' d.
Proof.
  revert m. induction n as [|n IH]; intros m Hk;
    (destruct (map_size_cases m) as [->|[(a & w & ->)|Hs]];
     [by rewrite canon_empty|rewrite canon_singleton; cbn [tend tsiblings length]|]).
  1, 3: intros [= -> ->]; split; [rewrite lookup_singleton_eq; eauto|intros d Hd; lia].
  - apply keys_agree_small in Hk. lia.
  - rewrite canon_node by done. cbn [tend tsiblings].
    destruct (kbit k n) eqn:Eb; intros He;
      (destruct (IH _ (side_keys n _ m Hk) He) as [Hin Hp]);
      rewrite side_lookup in Hin; (case_decide as Hb; [|by destruct Hin]);
      (split; [done|]); intros d Hd; cbn [length] in Hd;
      (destruct (decide (d = n)) as [->|]; [congruence|apply Hp; lia]).
Qed.

Lemma map_proof_verifies base m k :
  (base <= 256)%nat -> keys_agree (256 - base) m ->
  bmt_verify (map_proof base k m) (map_root base m) (m !! k) base = Some true.
Proof.
  intros Hb Hk. set (n := (256 - base)%nat) in *. set (t := canon n m).
  assert (Hn : base = (256 - n)%nat) by lia.
  pose proof (tsiblings_length n k t) as Hlen.
  pose proof (canon_fits n m) as Hf. fold t in Hf.
  pose proof (fold_complete n k t ltac:(lia) Hf) as Hfold. rewrite <- Hn in Hfold.
  assert (Hm : m !! k = match tend n k t with
                        | L k' v => if k' =? k then Some v else None | _ => None end).
  { rewrite <- (tget_canon n k m Hk). by apply tend_get. }
  unfold map_proof, map_root, tproof. fold n. fold t.
  assert (Hg : (256 <? base)%nat || (256 - base <? length (tsiblings n k t))%nat = false).
  { apply orb_false_iff. split; apply Nat.ltb_ge; lia. }
  unfold bmt_verify, proof_at.
  destruct (tend n k t) as [|k' v'|l r] eqn:He.
  - cbn [bp_siblings bp_value_hash bp_key]. rewrite Hg, Hm, bool_decide_eq_true_2 by done.
    cbn [negb]. unfold proof_leaf_hash. cbn [bp_value_hash bp_other_leaf bp_key].
    cbn [thash] in Hfold. rewrite Hfold. cbn. by rewrite N.eqb_refl.
  - destruct (N.eqb_spec k' k) as [->|Hne]; cbn [bp_siblings bp_value_hash bp_key];
      rewrite Hg, Hm, bool_decide_eq_true_2 by done; cbn [negb].
    + unfold proof_leaf_hash. cbn [bp_value_hash bp_other_leaf bp_key].
      cbn [thash] in Hfold. rewrite Hfold. cbn. by rewrite N.eqb_refl.
    + unfold proof_leaf_hash. cbn [bp_value_hash bp_other_leaf bp_key bp_siblings].
      rewrite (proj2 (N.eqb_neq k' k) Hne).
      destruct (tend_prefix n k m k' v' Hk He) as [_ Hp]. fold t in Hp.
      assert (Hs : shares_prefix_range k k' base (length (tsiblings n k t)) = true).
      { unfold shares_prefix_range. apply forallb_forall. intros d Hd. apply in_seq in Hd.
        apply bool_decide_eq_true. rewrite !bit_kbit by lia. f_equal. apply Hp. lia. }
      rewrite Hs. cbn [negb]. cbn [thash] in Hfold. rewrite Hfold. cbn. by rewrite N.eqb_refl.
  - by apply tend_not_I in He.
Qed.

(** ** Soundness *)

Definition leaf_input (k v : Hash) : bytes := [0] ++ b256_bytes k ++ b256_bytes v.
Definition internal_input (l r : Hash) : bytes := [1] ++ b256_bytes l ++ b256_bytes r.

(** Everything that is hashed for the root of a tree. *)
Fixpoint tree_inputs (t : tree) : list bytes :=
  match t with
  | E => []
  | L k v => [leaf_input k v]
  | I l r => internal_input (thash l) (thash r) :: tree_inputs l ++ tree_inputs r
  end.

(** Everything that is hashed to verify a proof. *)
Fixpoint fold_inputs (k : Hash) (d : nat) (siblings : list Hash) (leaf : Hash) : list bytes :=
  match siblings with
  | [] => []
  | sib :: rest =>
      match fold_siblings k (S d) rest leaf, bit k d with
      | Some cur, Some true => [internal_input sib cur]
      | Some cur, Some false => [internal_input cur sib]
      | _, _ => []
      end ++ fold_inputs k (S d) rest leaf
  end.
Definition proof_inputs (p : BmtProof) (base : nat) : list bytes :=
  match bp_value_hash p, bp_other_leaf p with
  | Some v, _ => [leaf_input (bp_key p) v]
  | None, Some (k', v') => [leaf_input k' v']
  | None, None => []
  end ++
  match proof_leaf_hash p base with
  | Some leaf => fold_inputs (bp_key p) base (bp_siblings p) leaf
  | None => []
  end.

(** No two of the inputs have the same hash, and none has the hash that stands
    for an empty subtree. *)
Definition no_collision (xs : list bytes) : Prop :=
  (forall x y, x ∈ xs -> y ∈ xs -> blake3 x = blake3 y -> x = y) /\
  (forall x, x ∈ xs -> blake3 x ≠ EMPTY_HASH).

Lemma no_collision_sub xs ys :
  (forall x, x ∈ xs -> x ∈ ys) -> no_collision ys -> no_collision xs.
Proof. intros H [H1 H2]. split; [intros x y Hx Hy|intros x Hx]; eauto. Qed.

Lemma internal_input_inj l r l' r' :
  is_b256 l -> is_b256 r -> is_b256 l' -> is_b256 r' ->
  internal_input l r = internal_input l' r' -> l = l' /\ r = r'.
Proof.
  unfold internal_input. intros Hl Hr Hl' Hr' H. apply (inj (cons 1)) in H.
  apply app_inj_len in H as [H1 H2]; [|by rewrite !length_b256_bytes].
  split; by apply b256_bytes_inj.
Qed.

Lemma leaf_input_inj k v k' v' :
  is_b256 k -> is_b256 v -> is_b256 k' -> is_b256 v' ->
  leaf_input k v = leaf_input k' v' -> k = k' /\ v = v'.
Proof.
  unfold leaf_input. intros Hl Hr Hl' Hr' H. apply (inj (cons 0)) in H.
  apply app_inj_len in H as [H1 H2]; [|by rewrite !length_b256_bytes].
  split; by apply b256_bytes_inj.
Qed.

(** The hash function has 32 bytes of output. *)
Hypothesis blake3_b256 : forall x, is_b256 (blake3 x).

Lemma thash_b256 t : is_b256 (thash t).
Proof. destruct t; cbn; [done|apply blake3_b256..]. Qed.

Lemma fold_b256 k d siblings leaf cur :
  is_b256 leaf -> fold_siblings k d siblings leaf = Some cur -> is_b256 cur.
Proof.
  intros Hl. destruct siblings as [|sib rest]; [by intros [= <-]|]. rewrite fold_cons.
  destruct (fold_siblings k (S d) rest leaf) as [c|]; [|done]. cbn.
  destruct (bit k d) as [[]|]; cbn; intros [= <-]; apply blake3_b256.
Qed.

(** An internal hash is the hash of an internal node of the tree. *)
Lemma thash_internal t l r xs :
  no_collision xs -> (forall x, x ∈ tree_inputs t -> x ∈ xs) -> internal_input l r ∈ xs ->
  is_b256 l -> is_b256 r -> thash t = hash_internal l r ->
  exists tl tr, t = I tl tr /\ thash tl = l /\ thash tr = r.
Proof.
  intros [Hc Hz] Hsub Hin Hl Hr He. destruct t as [|k v|tl tr]; cbn in He.
  - exfalso. apply (Hz _ Hin). done.
  - assert (H : leaf_input k v = internal_input l r) by (apply Hc; [apply Hsub; left|done|done]).
    discriminate H.
  - exists tl, tr. split; [done|].
    assert (H : internal_input (thash tl) (thash tr) = internal_input l r)
      by (apply Hc; [apply Hsub; left|done|done]).
    apply internal_input_inj in H; try done; apply thash_b256.
Qed.

(** Keys and value hashes are 32-byte arrays. *)
Fixpoint tree_b256 (t : tree) : Prop :=
  match t with
  | E => True
  | L k v => is_b256 k /\ is_b256 v
  | I l r => tree_b256 l /\ tree_b256 r
  end.

Lemma fold_sound k n t siblings leaf xs :
  tree_b256 t -> (n <= 256)%nat -> (length siblings <= n)%nat -> Forall is_b256 siblings -> is_b256 leaf ->
  no_collision xs -> (forall x, x ∈ tree_inputs t -> x ∈ xs) ->
  (forall x, x ∈ fold_inputs k (256 - n) siblings leaf -> x ∈ xs) ->
  fold_siblings k (256 - n) siblings leaf = Some (thash t) ->
  exists n' t', tget n k t = tget n' k t' /\ thash t' = leaf /\ tree_b256 t' /\
    forall x, x ∈ tree_inputs t' -> x ∈ xs.
Proof.
  revert n t. induction siblings as [|sib rest IH]; intros n t Hb Hn Hlen Hs Hl Hc Ht Hx Hf.
  { injection Hf as Hf. by exists n, t. }
  destruct n as [|n]; [cbn in Hlen; lia|]. cbn [length] in Hlen.
  apply Forall_cons in Hs as [Hsib Hrest]. rewrite fold_cons in Hf.
  cbn [fold_inputs] in Hx. rewrite key_bit_depth in Hf, Hx by lia.
  destruct (fold_siblings k (256 - n) rest leaf) as [cur|] eqn:Hcur; [|done].
  pose proof (fold_b256 _ _ _ _ _ Hl Hcur) as Hcb.
  cbn [mbind option_bind] in Hf. rewrite bit_kbit in Hf, Hx by lia.
  replace (255 - (256 - S n))%nat with n in Hf, Hx by lia. cbn [mret option_ret] in Hf.
  assert (Hx' : forall x, x ∈ fold_inputs k (256 - n) rest leaf -> x ∈ xs).
  { intros x Hin. apply Hx. apply elem_of_app. by right. }
  destruct (kbit k n) eqn:Eb; injection Hf as Hf; symmetry in Hf.
  - destruct (thash_internal t sib cur xs) as (tl & tr & -> & H1 & H2); auto.
    { apply Hx. left. }
    cbn [tget]. rewrite Eb. destruct Hb. apply IH; auto; [lia|lia| |by rewrite H2].
    intros x Hin. apply Ht. cbn. right. apply elem_of_app. by right.
  - destruct (thash_internal t cur sib xs) as (tl & tr & -> & H1 & H2); auto.
    { apply Hx. left. }
    cbn [tget]. rewrite Eb. destruct Hb. apply IH; auto; [lia|lia| |by rewrite H1].
    intros x Hin. apply Ht. cbn. right. apply elem_of_app. by left.
Qed.

(** The hashes of an untrusted proof are 32-byte arrays. *)
Definition proof_wf (p : BmtProof) : Prop :=
  is_b256 (bp_key p) /\ Forall is_b256 (bp_siblings p) /\
  match bp_value_hash p with Some v => is_b256 v | None => True end /\
  match bp_other_leaf p with Some (k, v) => is_b256 k /\ is_b256 v | None => True end.

Lemma thash_leaf t k v xs :
  no_collision xs -> (forall x, x ∈ tree_inputs t -> x ∈ xs) -> leaf_input k v ∈ xs ->
  tree_b256 t -> is_b256 k -> is_b256 v -> thash t = hash_leaf k v -> t = L k v.
Proof.
  intros [Hc Hz] Hsub Hin Hb Hk Hv He. destruct t as [|k' v'|tl tr]; cbn in He.
  - exfalso. apply (Hz _ Hin). done.
  - assert (H : leaf_input k' v' = leaf_input k v) by (apply Hc; [apply Hsub; left|done|done]).
    destruct Hb. by apply leaf_input_inj in H as [-> ->].
  - assert (H : internal_input (thash tl) (thash tr) = leaf_input k v)
      by (apply Hc; [apply Hsub; left|done|done]).
    discriminate H.
Qed.

Lemma thash_empty t xs :
  no_collision xs -> (forall x, x ∈ tree_inputs t -> x ∈ xs) -> thash t = EMPTY_HASH -> t = E.
Proof.
  intros [_ Hz] Hsub He. destruct t as [|k v|l r]; [done|exfalso..]; cbn in He;
    eapply Hz; [apply Hsub; left|exact He|apply Hsub; left|exact He].
Qed.

Definition map_b256 (m : gmap Hash Hash) : Prop :=
  forall k v, m !! k = Some v -> is_b256 k /\ is_b256 v.

Lemma canon_b256 n m : map_b256 m -> tree_b256 (canon n m).
Proof.
  revert m. induction n as [|n IH]; intros m H;
    (destruct (map_size_cases m) as [->|[(k & v & ->)|Hs]];
     [by rewrite canon_empty|rewrite canon_singleton; apply H, lookup_singleton_eq|]).
  - cbn. destruct (map_to_list m) as [|[k v] [|? ?]] eqn:E1; [done| |done].
    apply H, elem_of_map_to_list. rewrite E1. left.
  - rewrite canon_node by done. split; apply IH; intros k v; rewrite side_lookup;
      (case_decide; [apply H|done]).
Qed.

Lemma verify_sound base m p expected :
  (base <= 256)%nat -> keys_agree (256 - base) m -> map_b256 m -> proof_wf p ->
  no_collision (tree_inputs (canon (256 - base) m) ++ proof_inputs p base) ->
  bmt_verify p (map_root base m) expected base = Some true -> m !! bp_key p = expected.
Proof.
  intros Hb Hk Hm (Hpk & Hps & Hpv & Hpo) Hc. unfold bmt_verify.
  destruct (_ || _) eqn:Eg; [done|]. bool_simpl.
  case_bool_decide as Hv; cbn [negb]; [|done]. subst expected.
  set (n := (256 - base)%nat) in *. assert (Hn : base = (256 - n)%nat) by lia.
  set (xs := tree_inputs (canon n m) ++ proof_inputs p base) in *.
  destruct (proof_leaf_hash p base) as [leaf|] eqn:Hleaf; [|done]. intros Hver.
  destruct (fold_siblings (bp_key p) base (bp_siblings p) leaf) as [cur|] eqn:Hfold; [|done].
  cbn in Hver. injection Hver as Hver. apply N.eqb_eq in Hver as ->.
  assert (Hin : forall x, x ∈ proof_inputs p base -> x ∈ xs) by set_solver.
  unfold map_root in Hfold. fold n in Hfold. rewrite <- (tget_canon n (bp_key p) m Hk).
  destruct (fold_sound (bp_key p) n (canon n m) (bp_siblings p) leaf xs)
    as (n' & t' & -> & Ht' & Hb' & Hsub); [by apply canon_b256|lia|lia|done| |done|set_solver| | |].
  { unfold proof_leaf_hash in Hleaf.
    repeat case_match; simplify_eq; try apply blake3_b256; done. }
  { intros x Hx. apply Hin. unfold proof_inputs. rewrite Hleaf, Hn. apply elem_of_app. by right. }
  { by rewrite <- Hn. }
  assert (Hlin : forall k v, leaf_input k v ∈ proof_inputs p base -> leaf_input k v ∈ xs)
    by (intros; by apply Hin).
  unfold proof_leaf_hash in Hleaf. unfold proof_inputs in Hlin.
  destruct (bp_value_hash p) as [v|], (bp_other_leaf p) as [[k' v']|]; simplify_eq.
  - rewrite (thash_leaf t' (bp_key p) v xs); auto.
    + destruct n'; cbn; by rewrite N.eqb_refl.
    + apply Hlin. left.
  - destruct (N.eqb_spec k' (bp_key p)) as [->|Hne]; [done|].
    destruct (negb _); simplify_eq. destruct Hpo.
    rewrite (thash_leaf t' k' v' xs); auto.
    + destruct n'; cbn; by rewrite (proj2 (N.eqb_neq k' (bp_key p)) Hne).
    + apply Hlin. left.
  - by rewrite (thash_empty t' xs).
Qed.
End proofs.

Section promises.
Context {digest : Digest}.

(** Merkle proofs say exactly what the map holds: the proof that a tree
    produces for a key verifies against its root for the value hash of the key
    (or its absence), every proof that verifies for a value hash or for absence
    is right about the map as long as blake3 does not collide on what was hashed
    for the tree and the proof, and no proof makes the verifier panic. *)
Theorem bmt_proofs_exact base m k p expected :
  (forall x, is_b256 (blake3 x)) ->
  (base <= 256)%nat -> keys_agree (256 - base) m -> map_b256 m -> proof_wf p ->
  no_collision (tree_inputs (canon (256 - base) m) ++ proof_inputs p base) ->
  bmt_verify (map_proof base k m) (map_root base m) (m !! k) base = Some true /\
  (bmt_verify p (map_root base m) expected base = Some true -> m !! bp_key p = expected) /\
  (forall root, is_Some (bmt_verify p root expected base)).
Proof.
  intros H3 Hb Hk Hm Hp Hc. split_and!.
  - by apply map_proof_verifies.
  - by apply verify_sound.
  - intros root. apply verify_total.
Qed.
End promises.
