(* ===== verification/ShardTree.v ===== *)
(** * The Merkle tree over the shard roots

    For a power of two of leaves: the path of a leaf recomputes the root, and
    whatever recomputes the root is the leaf, if the hash function has no
    collision on what was hashed. *)

From S2P Require Import Prelude Effects Messages BmtCore BmtTree BmtArena BmtTheory BmtProofs.

Section shard_tree.
Context {digest : Digest}.

Definition pair_input (a b : Hash) : bytes := b256_bytes a ++ b256_bytes b.

Fixpoint pair_inputs (level : list Hash) : list bytes :=
  match level with
  | a :: b :: rest => pair_input a b :: pair_inputs rest
  | _ => []
  end.

(** Everything that is hashed for the root over [2 ^ k] leaves. *)
Fixpoint level_inputs (k : nat) (level : list Hash) : list bytes :=
  match k with
  | O => []
  | S k =>
      pair_inputs level ++
      match next_level level with Some level' => level_inputs k level' | None => [] end
  end.

(** Everything that is hashed to recompute the root from a path. *)
Fixpoint path_inputs (leaf : Hash) (i : nat) (path : list Hash) : list bytes :=
  match path with
  | [] => []
  | sib :: rest =>
      if Nat.even i
      then pair_input leaf sib :: path_inputs (hash_pair leaf sib) (Nat.div2 i) rest
      else pair_input sib leaf :: path_inputs (hash_pair sib leaf) (Nat.div2 i) rest
  end.

Lemma list_pair_ind {A} (P : list A -> Prop) :
  P [] -> (forall x, P [x]) -> (forall x y l, P l -> P (x :: y :: l)) -> forall l, P l.
Proof.
  intros H0 H1 H2 l. enough (H : P l /\ forall x, P (x :: l)) by apply H.
  induction l as [|y l [IH IH']]; split; auto.
Qed.

Lemma next_level_spec level n :
  length level = (2 * n)%nat ->
  exists level', next_level level = Some level' /\ length level' = n /\
    forall j a b, level !! (2 * j)%nat = Some a -> level !! S (2 * j) = Some b ->
      level' !! j = Some (hash_pair a b) /\ pair_input a b ∈ pair_inputs level.
Proof.
  revert n. induction level as [|x|x y level IH] using list_pair_ind; intros n Hl; cbn in Hl.
  - exists []. split_and!; [done|cbn; lia|]. intros j a b Ha. by rewrite lookup_nil in Ha.
  - lia.
  - destruct n as [|n]; [lia|]. destruct (IH n) as (level' & Hn & Hlen & Hj); [lia|].
    exists (hash_pair x y :: level'). cbn [next_level]. rewrite Hn.
    split_and!; [done|cbn; lia|]. intros [|j] a b Ha Hb.
    + cbn in Ha, Hb. simplify_eq. split; [done|left].
    + replace (2 * S j)%nat with (S (S (2 * j))) in Ha, Hb by lia.
      destruct (Hj j a b Ha Hb). split; [done|by right].
Qed.

Lemma double_cases i : i = (2 * Nat.div2 i)%nat /\ Nat.even i = true \/
  i = S (2 * Nat.div2 i) /\ Nat.even i = false.
Proof.
  pose proof (Nat.div2_odd i) as Hd. rewrite <- Nat.negb_even in Hd.
  destruct (Nat.even i); cbn [negb Nat.b2n] in Hd; [left|right]; split; lia.
Qed.

Lemma lxor_even d : Nat.lxor (2 * d) 1 = S (2 * d).
Proof.
  replace (S (2 * d)) with (2 * d + 1)%nat by lia. apply Nat.bits_inj. intros [|m];
    rewrite Nat.lxor_spec.
  - by rewrite Nat.testbit_even_0, Nat.testbit_odd_0.
  - rewrite Nat.testbit_even_succ, Nat.testbit_odd_succ by lia.
    change (Nat.testbit 1 (S m)) with (Nat.testbit 0 m). by rewrite Nat.bits_0, xorb_false_r.
Qed.

Lemma lxor_one i : Nat.lxor i 1 = if Nat.even i then S (2 * Nat.div2 i) else (2 * Nat.div2 i)%nat.
Proof.
  destruct (double_cases i) as [[Hd ->]|[Hd ->]]; rewrite Hd at 1; [apply lxor_even|].
  by rewrite <- lxor_even, Nat.lxor_assoc, Nat.lxor_nilpotent, Nat.lxor_0_r.
Qed.

(** The two leaves of the pair that leaf [i] belongs to. *)
Lemma pair_of (level : list Hash) n i :
  length level = (2 * n)%nat -> (i < 2 * n)%nat ->
  exists a b, level !! (2 * Nat.div2 i)%nat = Some a /\ level !! S (2 * Nat.div2 i) = Some b /\
    level !! i = Some (if Nat.even i then a else b) /\
    level !! Nat.lxor i 1 = Some (if Nat.even i then b else a) /\ (Nat.div2 i < n)%nat.
Proof.
  intros Hl Hi. pose proof (double_cases i) as Hd. rewrite lxor_one.
  destruct (lookup_lt_is_Some_2 level (2 * Nat.div2 i)) as [a Ha]; [lia|].
  destruct (lookup_lt_is_Some_2 level (S (2 * Nat.div2 i))) as [b Hb]; [lia|].
  exists a, b. destruct Hd as [[Hd He]|[Hd He]]; rewrite He; split_and!; try done; try lia;
    by rewrite Hd.
Qed.

Lemma pow2_cons {A} k (level : list A) :
  length level = (2 ^ S k)%nat -> exists a b rest, level = a :: b :: rest.
Proof.
  intros Hl. pose proof (Nat.pow_nonzero 2 k). cbn [Nat.pow] in Hl.
  destruct level as [|a [|b rest]]; cbn in Hl; [lia|lia|eauto].
Qed.

Lemma shard_root_loop_S fuel level level' k :
  length level = (2 ^ S k)%nat -> next_level level = Some level' ->
  shard_root_loop (S fuel) level = shard_root_loop fuel level'.
Proof. intros (a & b & rest & ->)%pow2_cons Hn. cbn [shard_root_loop]. by rewrite Hn. Qed.

Lemma shard_path_loop_S fuel level level' k i sib :
  length level = (2 ^ S k)%nat -> next_level level = Some level' ->
  level !! Nat.lxor i 1 = Some sib ->
  shard_path_loop (S fuel) level i = cons sib <$> shard_path_loop fuel level' (Nat.div2 i).
Proof.
  intros (a & b & rest & ->)%pow2_cons Hn Hs. cbn [shard_path_loop]. rewrite Hs.
  cbn [mbind option_bind]. rewrite Hn. cbn [mbind option_bind]. by destruct (shard_path_loop fuel level' _).
Qed.

(** A path exists for every leaf, has one hash per level and leads to the root. *)
Lemma shard_path_complete k fuel level i leaf :
  length level = (2 ^ k)%nat -> (k <= fuel)%nat -> level !! i = Some leaf ->
  exists root path, shard_root_loop fuel level = Some root /\
    shard_path_loop fuel level i = Some path /\ length path = k /\
    shard_tree_root_from_path leaf i path = root.
Proof.
  revert fuel level i leaf. induction k as [|k IH]; intros fuel level i leaf Hl Hf Hi.
  - destruct level as [|h [|? ?]]; cbn in Hl; [lia| |lia].
    destruct i as [|i]; [|by destruct i]. cbn in Hi. simplify_eq.
    exists leaf, []. by destruct fuel.
  - pose proof Hl as Hl2. cbn [Nat.pow] in Hl2.
    destruct (next_level_spec level (2 ^ k)) as (level' & Hn & Hlen & Hj); [lia|].
    apply lookup_lt_Some in Hi as Hlt.
    destruct (pair_of level (2 ^ k) i) as (a & b & Ha & Hb & Hab & Hsib & Hd); [lia..|].
    destruct (Hj _ a b Ha Hb) as [Hc _]. destruct fuel as [|fuel]; [lia|].
    destruct (IH fuel level' (Nat.div2 i) _ Hlen ltac:(lia) Hc) as (root & path & Hr & Hp & Hpl & Hfp).
    exists root, ((if Nat.even i then b else a) :: path).
    erewrite shard_root_loop_S, shard_path_loop_S, Hp by done.
    split_and!; [done|done|cbn; lia|]. rewrite Hab in Hi. injection Hi as <-.
    cbn [shard_tree_root_from_path]. by destruct (Nat.even i).
Qed.

Lemma hash_pair_input a b : hash_pair a b = blake3 (pair_input a b).
Proof. done. Qed.

Lemma pair_input_inj a b a' b' :
  is_b256 a -> is_b256 b -> is_b256 a' -> is_b256 b' ->
  pair_input a b = pair_input a' b' -> a = a' /\ b = b'.
Proof.
  unfold pair_input. intros Ha Hb Ha' Hb' H.
  apply app_inj_len in H as [H1 H2]; [|by rewrite !length_b256_bytes].
  split; by apply b256_bytes_inj.
Qed.

Section sound.
Hypothesis blake3_b256 : forall x, is_b256 (blake3 x).

Lemma next_level_b256 level level' :
  next_level level = Some level' -> Forall is_b256 level'.
Proof.
  revert level'. induction level as [|x|x y level IH] using list_pair_ind; intros level'.
  - by intros [= <-].
  - done.
  - cbn [next_level]. destruct (next_level level) as [l|]; [|done]. intros [= <-].
    constructor; [apply blake3_b256|by apply IH].
Qed.

(** Whatever recomputes the root at a position is the leaf at that position. *)
Lemma shard_path_sound k fuel level i leaf path xs :
  length level = (2 ^ k)%nat -> (k <= fuel)%nat -> length path = k -> (i < 2 ^ k)%nat ->
  Forall is_b256 level -> Forall is_b256 path -> is_b256 leaf ->
  no_collision xs -> level_inputs k level ⊆ xs -> path_inputs leaf i path ⊆ xs ->
  shard_root_loop fuel level = Some (shard_tree_root_from_path leaf i path) ->
  level !! i = Some leaf.
Proof.
  revert fuel level i leaf path. induction k as [|k IH];
    intros fuel level i leaf path Hl Hf Hp Hi Hbl Hbp Hb Hc Hin Hin' Hr.
  - destruct level as [|h [|? ?]], path; cbn in *; try lia.
    destruct i; [|lia]. by destruct fuel; cbn in Hr |- *; simplify_eq.
  - pose proof Hl as Hl2. cbn [Nat.pow] in Hl2, Hi.
    destruct (next_level_spec level (2 ^ k)) as (level' & Hn & Hlen & Hj); [lia|].
    destruct (pair_of level (2 ^ k) i) as (a & b & Ha & Hb' & Hab & Hsib & Hd); [lia..|].
    destruct (Hj _ a b Ha Hb') as [Hcur Hab_in]. destruct fuel as [|fuel]; [lia|].
    destruct path as [|sib path]; [done|]. apply Forall_cons in Hbp as [Hs Hbp].
    erewrite shard_root_loop_S in Hr by done. cbn [level_inputs] in Hin. rewrite Hn in Hin.
    apply list_subseteq_app_iff_l in Hin as [Hin1 Hin2].
    pose proof (proj1 (Forall_lookup _ _) Hbl _ _ Ha) as Hba.
    pose proof (proj1 (Forall_lookup _ _) Hbl _ _ Hb') as Hbb.
    cbn [path_inputs shard_tree_root_from_path] in Hin', Hr. rewrite Hab. f_equal.
    destruct (Nat.even i).
    all: apply list_subseteq_cons_iff in Hin' as [Hx Hin'];
      pose proof (IH fuel level' _ _ path Hlen ltac:(lia) ltac:(by injection Hp) Hd
        (next_level_b256 _ _ Hn) Hbp (blake3_b256 _) Hc Hin2 Hin' Hr) as He;
      rewrite Hcur in He; injection He as He;
      apply (proj1 Hc) in He; auto; apply pair_input_inj in He as [? ?]; auto.
Qed.
End sound.
End shard_tree.
