(* ===== verification/ShardedBmt.v ===== *)
(** * The sharded state tree ([crates/n42-jmt/src/sharded_bmt.rs])

    Sixteen sparse Merkle trees with the raw values beside them, the diffs of
    executed blocks ([crates/n42-execution/src/state_diff.rs]) and the encoding
    of account leaves ([crates/n42-jmt/src/tree.rs]).  A [BTreeMap] is an
    association list in key order, a [HashMap] a [gmap].  The shards of a diff
    are updated in parallel by the source; each worker owns one shard, so here
    they are updated one after the other. *)

From S2P Require Import Prelude Effects Messages BmtCore.

(** ** Diffs *)

Record ValueChange (T : Type) : Type := mkValueChange { vc_from : T; vc_to : T }.
Arguments mkValueChange {T} _ _.
Arguments vc_from {T} _.
Arguments vc_to {T} _.

Inductive AccountChangeType : Type := Created | Modified | Destroyed.

Record AccountDiff : Type := mkAccountDiff {
  ad_change_type : AccountChangeType;
  ad_balance : option (ValueChange N);
  ad_nonce : option (ValueChange N);
  ad_code_change : option (ValueChange (option B256));
  ad_storage : list (N * ValueChange N)
}.

Record StateDiff : Type := mkStateDiff { sd_accounts : list (Address * AccountDiff) }.

(** ** Account leaves *)

Definition EMPTY_CODE_HASH : B256 :=
  0xc5d2460186f7233c927e7db2dcc703c0e500b653ca82273b7bfad8045d85a470.
Definition ACCOUNT_VALUE_LEN : nat := 72.

Definition encode_account_value (balance nonce : N) (code_hash : B256) : bytes :=
  be_bytes 32 balance ++ be_bytes 8 nonce ++ b256_bytes code_hash.

(** The reports of the [eyre] errors, with what they name. *)
Inductive SbmtError : Type :=
| LeafTruncated (len : nat)
| LeafCorrupt (address : Address) (key : Hash) (cause : SbmtError)
| ReadMiss (address : Address) (key : Hash)
| SnapshotRootMismatch (expected got : Hash).

Definition decode_code_hash_checked (value : bytes) : result SbmtError B256 :=
  if (ACCOUNT_VALUE_LEN <=? length value)%nat then Ok (be_value (take 32 (drop 40 value)))
  else Err (LeafTruncated (length value)).

(** ** The sharded tree *)

Record ShardedSbmt : Type := mkShardedSbmt {
  sh_shards : list Sbmt;
  sh_values : list (gmap Hash bytes);
  sh_version : N
}.

Definition sharded_new : ShardedSbmt :=
  mkShardedSbmt (replicate SHARD_COUNT (with_base_depth SHARD_BITS)) (replicate SHARD_COUNT ∅) 0.

Abbreviation MS := (ST ShardedSbmt SbmtError).

(** A method of [self.shards[i]]. *)
Definition on_shard {A} (i : nat) (m : MT A) : MS A := fun t =>
  match sh_shards t !! i with
  | None => (t, Panic)
  | Some s =>
      let '(s', r) := m s in
      (mkShardedSbmt (<[i := s']> (sh_shards t)) (sh_values t) (sh_version t),
       match r with
       | Ok a => Ok a
       | Err e => match e with end
       | Panic => Panic
       | OutOfFuel => OutOfFuel
       end)
  end.

(** [self.values[i]] read and changed. *)
Definition shard_values (i : nat) : MS (gmap Hash bytes) := fun t =>
  match sh_values t !! i with
  | None => (t, Panic)
  | Some kv => (t, Ok kv)
  end.
Definition set_shard_values (i : nat) (f : gmap Hash bytes -> gmap Hash bytes) : MS unit := fun t =>
  match sh_values t !! i with
  | None => (t, Panic)
  | Some kv => (mkShardedSbmt (sh_shards t) (<[i := f kv]> (sh_values t)) (sh_version t), Ok tt)
  end.

Definition set_version (v : N) (t : ShardedSbmt) : ShardedSbmt :=
  mkShardedSbmt (sh_shards t) (sh_values t) v.

(** [iter().map(..).collect()] of a method with effects. *)
Fixpoint map_each {A B} (f : A -> MS B) (l : list A) : MS (list B) :=
  match l with
  | [] => mret []
  | x :: l =>
      y ← f x;
      ys ← map_each f l;
      mret (y :: ys)
  end.

(** [a[i]] of a value computed beforehand. *)
Definition or_panic {A} (o : option A) : MS A :=
  match o with Some a => mret a | None => panic end.

Section sharded.
Context {digest : Digest}.

Definition shard_roots : MS (list Hash) :=
  map_each (fun i => on_shard i root_hash) (seq 0 SHARD_COUNT).

Definition sharded_root_hash : MS Hash :=
  roots ← shard_roots;
  or_panic (shard_tree_root roots).

Definition sharded_get (key : Hash) : MS (option bytes) :=
  kv ← shard_values (shard_index_for_key key);
  mret (kv !! key).

(** The tree and the values of a shard are changed together. *)
Definition write_leaf (i : nat) (key : Hash) (value : option bytes) : MS unit :=
  match value with
  | Some v =>
      on_shard i (sb_insert key v) ;;
      set_shard_values i <[key := v]>
  | None =>
      _ ← on_shard i (sb_remove key);
      set_shard_values i (delete key)
  end.

Definition insert_raw (key : Hash) (value : bytes) : MS unit :=
  write_leaf (shard_index_for_key key) key (Some value).

Definition seed_genesis_account (address : Address) (balance nonce : N) (code_hash : B256)
  (storage : list (N * N)) : MS unit :=
  insert_raw (account_key address) (encode_account_value balance nonce code_hash) ;;
  for_each (fun '(slot, value) =>
    when (negb (value =? 0)) (insert_raw (storage_key address slot) (be_bytes 32 value))) storage.

(** ** Diffs into updates *)

Definition update : Type := Hash * option bytes.

Definition storage_updates (address : Address) (storage : list (N * ValueChange N))
  : list update :=
  (fun '(slot, change) =>
     (storage_key address slot,
      if vc_to change =? 0 then None else Some (be_bytes 32 (vc_to change)))) <$> storage.

(** The code hash of an account that is not destroyed. *)
Definition leaf_code_hash (address : Address) (diff : AccountDiff) (leaf : option bytes)
  : result SbmtError B256 :=
  match ad_code_change diff with
  | Some change => Ok (default EMPTY_CODE_HASH (vc_to change))
  | None =>
      match leaf, ad_change_type diff with
      | Some value, _ =>
          match decode_code_hash_checked value with
          | Err cause => Err (LeafCorrupt address (account_key address) cause)
          | r => r
          end
      | None, Created => Ok EMPTY_CODE_HASH
      | None, _ => Err (ReadMiss address (account_key address))
      end
  end.

Definition account_updates (address : Address) (diff : AccountDiff) (leaf : option bytes)
  : result SbmtError (list update) :=
  match ad_change_type diff with
  | Destroyed =>
      Ok ((account_key address, None)
          :: ((fun '(slot, _) => (storage_key address slot, None)) <$> ad_storage diff))
  | Created | Modified =>
      let balance := default 0 (vc_to <$> ad_balance diff) in
      let nonce := default 0 (vc_to <$> ad_nonce diff) in
      code_hash ← leaf_code_hash address diff leaf;
      Ok ((account_key address, Some (encode_account_value balance nonce code_hash))
          :: storage_updates address (ad_storage diff))
  end.

(** [shard_updates[shard_index(&key)].push((key, value))] *)
Definition push_update (shards : list (list update)) (u : update) : list (list update) :=
  alter (fun l => l ++ [u]) (shard_index_for_key u.1) shards.

Fixpoint prepare_accounts (accounts : list (Address * AccountDiff)) (shards : list (list update))
  : MS (list (list update)) :=
  match accounts with
  | [] => mret shards
  | (address, diff) :: rest =>
      leaf ← sharded_get (account_key address);
      updates ← try_ (fun _ => account_updates address diff leaf);
      prepare_accounts rest (foldl push_update shards updates)
  end.

Definition prepare (diff : StateDiff) : MS (list (list update)) :=
  prepare_accounts (sd_accounts diff) (replicate SHARD_COUNT []).

(** The worker of one shard. *)
Definition apply_shard (iu : nat * list update) : MS Hash :=
  for_each (fun '(key, value) => write_leaf iu.1 key value) iu.2 ;;
  on_shard iu.1 root_hash.

Definition apply_diff (diff : StateDiff) : MS (N * Hash) :=
  new_version ← gets (fun t => sh_version t +w 1);
  shard_updates ← prepare diff;
  roots ← map_each apply_shard (zip (seq 0 SHARD_COUNT) shard_updates);
  modify (set_version new_version) ;;
  root ← or_panic (shard_tree_root roots);
  mret (new_version, root).

Definition shard_stats : MS (list (nat * nat)) :=
  t ← get;
  mret (zip_with (fun s kv => (sb_len s, size kv)) (sh_shards t) (sh_values t)).

Definition add_stats (a b : NodeStats) : NodeStats :=
  mkNodeStats (internal_nodes a + internal_nodes b) (leaf_nodes a + leaf_nodes b)
    (serialized_bytes a + serialized_bytes b).

Definition sharded_node_stats : MS NodeStats :=
  stats ← map_each (fun i => on_shard i node_stats) (seq 0 SHARD_COUNT);
  mret (foldl add_stats (mkNodeStats 0 0 0) stats).

(** ** Proofs and snapshots *)

Definition sharded_prove (key : Hash) : MS ShardedBmtProof :=
  let si := shard_index_for_key key in
  inner ← on_shard si (sb_prove key);
  kv ← shard_values si;
  roots ← shard_roots;
  shard_root ← or_panic (roots !! si);
  shard_path ← or_panic (shard_tree_path roots si);
  mret (mkShardedBmtProof (N.of_nat si) shard_root shard_path inner (kv !! key)).

Record JmtSnapshot : Type := mkJmtSnapshot {
  js_version : N;
  js_root : Hash;
  js_entries : list (Hash * bytes)
}.

(** The iteration order of a [HashMap] is unspecified: [order] arranges the
    entries. *)
Definition sharded_snapshot (order : list (Hash * bytes) -> list (Hash * bytes))
  : MS JmtSnapshot :=
  t ← get;
  root ← sharded_root_hash;
  mret (mkJmtSnapshot (sh_version t) root (order (concat (map_to_list <$> sh_values t)))).

Definition sharded_from_snapshot (snapshot : JmtSnapshot) : result SbmtError ShardedSbmt :=
  let body : MS unit :=
    for_each (fun '(key, value) => insert_raw key value) (js_entries snapshot) ;;
    modify (set_version (js_version snapshot)) ;;
    root ← sharded_root_hash;
    if negb (root =? js_root snapshot)
    then fail (SnapshotRootMismatch (js_root snapshot) root)
    else mret tt in
  let '(t, r) := body sharded_new in
  match r with
  | Ok _ => Ok t
  | Err e => Err e
  | Panic => Panic
  | OutOfFuel => OutOfFuel
  end.
End sharded.
