(* ===== verification/ShardedBmtTheory.v ===== *)
(** * What the sharded state tree promises

    The sixteen trees with their values refine one finite map from keys to raw
    values: diffs, genesis accounts, lookups, proofs and snapshots do what they
    do to the map, and the combined root is a function of the map. *)

From S2P Require Import Prelude Effects Messages BmtCore BmtTree BmtArena BmtTheory BmtProofs.
From S2P Require Import ShardTree ShardedBmt.

(** ** Shards and keys *)

Lemma shard_index_lt k : (shard_index_for_key k < SHARD_COUNT)%nat.
Proof.
  unfold shard_index_for_key. rewrite nth_b256_bytes by lia. cbn [from_option id].
  rewrite N.shiftr_div_pow2. unfold SHARD_COUNT.
  assert (H : k / 256 ^ N.of_nat (31 - 0) mod 256 / 2 ^ 4 < 16);
    [|revert H; generalize (k / 256 ^ N.of_nat (31 - 0) mod 256 / 2 ^ 4); intros; lia].
  apply N.Div0.div_lt_upper_bound. change (2 ^ 4 * 16) with 256. by apply N.mod_lt.
Qed.

Lemma shard_index_bits k :
  is_b256 k -> shard_index_for_key k = N.to_nat (N.shiftr k 252).
Proof.
  unfold is_b256. intros Hk. unfold shard_index_for_key. rewrite nth_b256_bytes by lia.
  cbn [from_option id]. f_equal. change (N.of_nat (31 - 0)) with 31.
  rewrite N.mod_small by (apply N.Div0.div_lt_upper_bound; by change (256 ^ 31 * 256) with (256 ^ 32)).
  change (256 ^ 31) with (2 ^ 248). by rewrite <- N.shiftr_div_pow2, N.shiftr_shiftr.
Qed.

Lemma same_shard_agree k k' :
  is_b256 k -> is_b256 k' -> shard_index_for_key k = shard_index_for_key k' ->
  agree (256 - SHARD_BITS) k k'.
Proof.
  intros Hk Hk'. rewrite !shard_index_bits by done. intros E%N2Nat.inj d Hd. unfold kbit.
  change (256 - SHARD_BITS)%nat with 252%nat in Hd.
  replace (N.of_nat d) with (N.of_nat (d - 252) + 252) by lia.
  by rewrite <- !N.shiftr_spec', E.
Qed.

(** ** The state as one map *)

(** The entries of shard [i]. *)
Definition shard_part (i : nat) (m : gmap Hash bytes) : gmap Hash bytes :=
  filter (fun kv => shard_index_for_key kv.1 = i) m.

(** One update: a value, or the removal of the key. *)
Definition put (m : gmap Hash bytes) (u : update) : gmap Hash bytes :=
  match u.2 with
  | Some v => <[u.1 := v]> m
  | None => delete u.1 m
  end.

Lemma shard_part_lookup i m k :
  shard_part i m !! k = if decide (shard_index_for_key k = i) then m !! k else None.
Proof.
  apply option_eq. intros v. unfold shard_part. rewrite map_lookup_filter_Some. cbn.
  case_decide; naive_solver.
Qed.

Lemma shard_part_put_eq k v m :
  shard_part (shard_index_for_key k) (put m (k, v)) =
    put (shard_part (shard_index_for_key k) m) (k, v).
Proof.
  apply map_eq. intros k'. unfold put. cbn. destruct v as [v|]; rewrite shard_part_lookup;
    (destruct (decide (k = k')) as [<-|Hk];
      [rewrite ?lookup_insert_eq, ?lookup_delete_eq
      |rewrite ?lookup_insert_ne, ?lookup_delete_ne, ?shard_part_lookup by done]);
    by case_decide.
Qed.

Lemma shard_part_put_ne i k v m :
  shard_index_for_key k ≠ i -> shard_part i (put m (k, v)) = shard_part i m.
Proof.
  intros Hi. apply map_eq. intros k'. rewrite !shard_part_lookup. unfold put. cbn.
  destruct v as [v|]; case_decide; try done;
    rewrite ?lookup_insert_ne, ?lookup_delete_ne by congruence; done.
Qed.

Section sharded.
Context {digest : Digest}.

(** The root of shard [i], the combined root and the proof of a key, from the map. *)
Definition shard_map (i : nat) (m : gmap Hash bytes) : gmap Hash Hash :=
  hash_value <$> shard_part i m.
Definition state_roots (m : gmap Hash bytes) : list Hash :=
  (fun i => map_root SHARD_BITS (shard_map i m)) <$> seq 0 SHARD_COUNT.
Definition state_root (m : gmap Hash bytes) : Hash :=
  default EMPTY_HASH (shard_tree_root (state_roots m)).
Definition state_proof (k : Hash) (m : gmap Hash bytes) : ShardedBmtProof :=
  let i := shard_index_for_key k in
  mkShardedBmtProof (N.of_nat i) (map_root SHARD_BITS (shard_map i m))
    (default [] (shard_tree_path (state_roots m) i))
    (map_proof SHARD_BITS k (shard_map i m)) (m !! k).

(** One shard of the tree, with room for [257] nodes for each of [n] updates
    made so far. *)
Record shard_rep (n : nat) (i : nat) (m : gmap Hash bytes) (s : Sbmt) : Prop := {
  hr_inv : sbmt_inv s (shard_map i m);
  hr_base : sb_base_depth s = SHARD_BITS;
  hr_room : (length (sb_nodes s) <= 257 * n)%nat
}.

Record sharded_rep (n : nat) (t : ShardedSbmt) (m : gmap Hash bytes) : Prop := {
  sr_len : length (sh_shards t) = SHARD_COUNT;
  sr_shard : forall i s, sh_shards t !! i = Some s -> shard_rep n i m s;
  sr_values : sh_values t = (fun i => shard_part i m) <$> seq 0 SHARD_COUNT;
  sr_keys : forall k, is_Some (m !! k) -> is_b256 k;
  sr_size : (size m <= n)%nat
}.

Lemma shard_rep_mono n n' i m s : (n <= n')%nat -> shard_rep n i m s -> shard_rep n' i m s.
Proof. intros Hn [? ? ?]. split; [done..|lia]. Qed.
Lemma sharded_rep_mono n n' t m : (n <= n')%nat -> sharded_rep n t m -> sharded_rep n' t m.
Proof. intros Hn [? Hs ? ? ?]. split; auto with lia. intros i s Hi. eapply shard_rep_mono; eauto. Qed.

Lemma shard_rep_part n i m m' s :
  shard_part i m = shard_part i m' -> shard_rep n i m s -> shard_rep n i m' s.
Proof. intros E [H1 H2 H3]. split; auto. by unfold shard_map in *; rewrite <- E. Qed.

Lemma rep_new : sharded_rep 0 sharded_new ∅.
Proof.
  assert (Hp : forall i, shard_part i ∅ = ∅) by (intros i; apply map_filter_empty).
  split; [apply length_replicate| | | |].
  - intros i s Hs. apply lookup_replicate in Hs as [-> Hi]. split; cbn; [|done|lia].
    unfold shard_map. rewrite Hp, fmap_empty. apply inv_empty. by vm_compute; lia.
  - cbn. by rewrite !Hp.
  - intros k [v Hk]. by rewrite lookup_empty in Hk.
  - by rewrite map_size_empty.
Qed.

Lemma rep_shard n t m i :
  sharded_rep n t m -> (i < SHARD_COUNT)%nat ->
  exists s, sh_shards t !! i = Some s /\ shard_rep n i m s.
Proof.
  intros [Hl Hs _ _ _] Hi. rewrite <- Hl in Hi. apply lookup_lt_is_Some_2 in Hi as [s Hi]. eauto.
Qed.

Lemma rep_value n t m i :
  sharded_rep n t m -> (i < SHARD_COUNT)%nat -> shard_values i t = (t, Ok (shard_part i m)).
Proof.
  intros [_ _ Hv _ _] Hi. unfold shard_values. rewrite Hv, list_lookup_fmap, lookup_seq_lt by done.
  done.
Qed.

Lemma on_shard_ok {A} i (f : MT A) t s s' a :
  sh_shards t !! i = Some s -> f s = (s', Ok a) ->
  on_shard i f t = (mkShardedSbmt (<[i := s']> (sh_shards t)) (sh_values t) (sh_version t), Ok a).
Proof. intros Hs Hf. unfold on_shard. by rewrite Hs, Hf. Qed.

Lemma rep_set_shard n t m i s s' :
  sharded_rep n t m -> sh_shards t !! i = Some s -> shard_rep n i m s' ->
  sharded_rep n (mkShardedSbmt (<[i := s']> (sh_shards t)) (sh_values t) (sh_version t)) m.
Proof.
  intros [Hl Hs Hv Hk Hz] Hi Hs'. split; cbn; auto; [by rewrite length_insert|].
  intros j x Hj. apply list_lookup_insert_Some in Hj as [(-> & -> & _)|[_ Hj]]; auto.
Qed.

(** A query of one shard. *)
Lemma on_shard_root n t m i :
  sharded_rep n t m -> (i < SHARD_COUNT)%nat ->
  exists t', on_shard i root_hash t = (t', Ok (map_root SHARD_BITS (shard_map i m))) /\
    sharded_rep n t' m /\ sh_version t' = sh_version t.
Proof.
  intros Hr Hi. destruct (rep_shard _ _ _ _ Hr Hi) as (s & Hs & [Hinv Hb Hroom]).
  destruct (root_hash_spec _ _ Hinv) as (s' & Hh & Hinv' & Hb' & Hlen). rewrite Hb in Hh.
  eexists. split_and!; [by eapply on_shard_ok| |done]. eapply rep_set_shard; [done..|].
  split; [done|congruence|lia].
Qed.

Lemma on_shard_prove n t m i k :
  sharded_rep n t m -> (i < SHARD_COUNT)%nat ->
  exists t', on_shard i (sb_prove k) t = (t', Ok (map_proof SHARD_BITS k (shard_map i m))) /\
    sharded_rep n t' m /\ sh_version t' = sh_version t.
Proof.
  intros Hr Hi. destruct (rep_shard _ _ _ _ Hr Hi) as (s & Hs & [Hinv Hb Hroom]).
  destruct (sb_prove_spec _ _ k Hinv) as (s' & Hh & Hinv' & Hb' & Hlen). rewrite Hb in Hh.
  eexists. split_and!; [by eapply on_shard_ok| |done]. eapply rep_set_shard; [done..|].
  split; [done|congruence|lia].
Qed.

(** ** Writes *)

Lemma shard_map_keys i m :
  (forall k, is_Some (m !! k) -> is_b256 k) -> keys_agree (256 - SHARD_BITS) (shard_map i m).
Proof.
  intros Hm k k'. unfold shard_map. rewrite !lookup_fmap, !fmap_is_Some, !shard_part_lookup.
  intros Hk Hk'. repeat case_decide; try by destruct Hk, Hk'; congruence.
  apply same_shard_agree; [by apply Hm..|congruence].
Qed.

Lemma put_keys m k v :
  (forall k, is_Some (m !! k) -> is_b256 k) -> is_b256 k ->
  forall k', is_Some (put m (k, v) !! k') -> is_b256 k'.
Proof.
  intros Hm Hk k'. destruct v; cbn.
  - intros [<-|Hk']%lookup_insert_is_Some'; auto.
  - intros [_ Hk']%lookup_delete_is_Some. auto.
Qed.

Lemma put_size m u : (size (put m u) <= S (size m))%nat.
Proof.
  destruct u as [k [v|]]; cbn; [rewrite map_size_insert|rewrite map_size_delete];
    destruct (m !! k); cbn; lia.
Qed.

Lemma values_put m k v :
  <[shard_index_for_key k := put (shard_part (shard_index_for_key k) m) (k, v)]>
    ((fun i => shard_part i m) <$> seq 0 SHARD_COUNT) =
  (fun i => shard_part i (put m (k, v))) <$> seq 0 SHARD_COUNT.
Proof.
  apply list_eq. intros j. destruct (decide (j < SHARD_COUNT)%nat) as [Hj|Hj].
  - destruct (decide (shard_index_for_key k = j)) as [<-|Hne].
    + rewrite list_lookup_insert_eq by by rewrite length_fmap, length_seq.
      by rewrite list_lookup_fmap, lookup_seq_lt, <- shard_part_put_eq.
    + rewrite list_lookup_insert_ne by done. rewrite !list_lookup_fmap, !lookup_seq_lt by done.
      cbn. by rewrite shard_part_put_ne.
  - rewrite !lookup_ge_None_2; [done|..]; rewrite ?length_insert, length_fmap, length_seq; lia.
Qed.

(** The shard of the key, after its tree and its values have changed. *)
Lemma rep_put n t m k v s' :
  sharded_rep n t m -> is_b256 k -> shard_rep (S n) (shard_index_for_key k) (put m (k, v)) s' ->
  sharded_rep (S n)
    (mkShardedSbmt (<[shard_index_for_key k := s']> (sh_shards t))
       (<[shard_index_for_key k := put (shard_part (shard_index_for_key k) m) (k, v)]> (sh_values t))
       (sh_version t)) (put m (k, v)).
Proof.
  intros [Hl Hs Hv Hk Hz] Hb Hs'. split; cbn [sh_shards sh_values].
  - by rewrite length_insert.
  - intros j x Hj. apply list_lookup_insert_Some in Hj as [(<- & -> & _)|[Hne Hj]]; [done|].
    eapply shard_rep_part; [symmetry; by apply shard_part_put_ne|].
    apply (shard_rep_mono n); [lia|auto].
  - by rewrite Hv, values_put.
  - by apply put_keys.
  - pose proof (put_size m (k, v)). lia.
Qed.

Lemma set_shard_values_ok n t m t1 k v f :
  sharded_rep n t m -> sh_values t1 = sh_values t ->
  f (shard_part (shard_index_for_key k) m) = put (shard_part (shard_index_for_key k) m) (k, v) ->
  set_shard_values (shard_index_for_key k) f t1 =
    (mkShardedSbmt (sh_shards t1)
       (<[shard_index_for_key k := put (shard_part (shard_index_for_key k) m) (k, v)]> (sh_values t1))
       (sh_version t1), Ok tt).
Proof.
  intros Hr E Hf. unfold set_shard_values. rewrite E, (sr_values _ _ _ Hr), list_lookup_fmap.
  rewrite lookup_seq_lt by apply shard_index_lt. cbn [fmap option_fmap option_map Nat.add].
  by rewrite Hf.
Qed.

Lemma write_leaf_spec n t m k v :
  sharded_rep n t m -> is_b256 k -> 257 * N.of_nat (S n) <= NIL ->
  exists t', write_leaf (shard_index_for_key k) k v t = (t', Ok tt) /\
    sharded_rep (S n) t' (put m (k, v)) /\ sh_version t' = sh_version t.
Proof.
  intros Hr Hk Hn. pose proof (shard_index_lt k) as Hi.
  destruct (rep_shard _ _ _ _ Hr Hi) as (s & Hs & [Hinv Hb Hroom]).
  assert (Hput : shard_map (shard_index_for_key k) (put m (k, v)) =
    match v with
    | Some b => <[k := hash_value b]> (shard_map (shard_index_for_key k) m)
    | None => delete k (shard_map (shard_index_for_key k) m)
    end).
  { unfold shard_map. rewrite shard_part_put_eq.
    destruct v; cbn; [apply fmap_insert|apply fmap_delete]. }
  pose proof (shard_map_keys (shard_index_for_key k) _ (put_keys m k v (sr_keys _ _ _ Hr) Hk)) as Hka.
  destruct v as [v|]; cbn [write_leaf].
  - rewrite Hput in Hka.
    destruct (insert_hashed_spec s _ k (hash_value v) Hinv) as (s' & Hrun & Hinv' & Hb' & Hl');
      [by rewrite Hb|lia|].
    eexists. split_and!; [|eapply (rep_put n t m k (Some v) s'); [done..|]|done].
    + erewrite bind_ok by (eapply on_shard_ok; [exact Hs|exact Hrun]).
      by erewrite set_shard_values_ok.
    + split; [by rewrite Hput|congruence|lia].
  - destruct (sb_remove_spec s _ k Hinv) as (s' & Hrun & Hinv' & Hb' & Hl').
    eexists. split_and!; [|eapply (rep_put n t m k None s'); [done..|]|done].
    + erewrite bind_ok by (eapply on_shard_ok; [exact Hs|exact Hrun]).
      by erewrite set_shard_values_ok.
    + split; [by rewrite Hput|congruence|lia].
Qed.

(** ** Sequences of updates *)

Lemma put_lookup m u k : put m u !! k = if decide (u.1 = k) then u.2 else m !! k.
Proof.
  destruct u as [k' [v|]]; cbn; case_decide as Hk; subst;
    rewrite ?lookup_insert_eq, ?lookup_delete_eq, ?lookup_insert_ne, ?lookup_delete_ne by done; done.
Qed.

Lemma puts_filter us m m' k :
  m !! k = m' !! k ->
  foldl put m us !! k = foldl put m' (filter (fun u => u.1 = k) us) !! k.
Proof.
  revert m m'. induction us as [|u us IH]; intros m m' E; [done|].
  cbn [foldl]. rewrite filter_cons. case_decide as Hk; cbn [foldl]; apply IH.
  - rewrite !put_lookup. by repeat case_decide.
  - rewrite put_lookup. by case_decide.
Qed.

Lemma puts_const us m k o :
  (forall u, u ∈ us -> u.1 = k -> u.2 = o) -> (m !! k = o \/ k ∈ us.*1) ->
  foldl put m us !! k = o.
Proof.
  revert m. induction us as [|u us IH]; intros m Hu Hk.
  { destruct Hk as [Hk|Hk]; [done|]. by apply elem_of_nil in Hk. }
  cbn [foldl]. apply IH; [intros x Hx; apply Hu; by right|].
  rewrite put_lookup. case_decide as E; [left; apply Hu; [left|done]|].
  destruct Hk as [Hk|Hk]; [by left|]. cbn in Hk. apply elem_of_cons in Hk as [->|Hk]; [done|by right].
Qed.

Lemma puts_part_ne i us m :
  Forall (fun u => shard_index_for_key u.1 ≠ i) us ->
  shard_part i (foldl put m us) = shard_part i m.
Proof.
  intros Hus. revert m. induction Hus as [|[k v] us Hu _ IH]; intros m; [done|].
  cbn [foldl]. by rewrite IH, shard_part_put_ne.
Qed.

Definition in_shard (i : nat) (u : update) : Prop := is_b256 u.1 /\ shard_index_for_key u.1 = i.

Lemma writes_spec i us n t m :
  sharded_rep n t m -> Forall (in_shard i) us -> 257 * N.of_nat (n + length us) <= NIL ->
  exists t', for_each (fun '(key, value) => write_leaf i key value) us t = (t', Ok tt) /\
    sharded_rep (n + length us) t' (foldl put m us) /\ sh_version t' = sh_version t.
Proof.
  intros Hr Hus. revert n t m Hr. induction Hus as [|[k v] us [Hk Hi] Hus IH]; intros n t m Hr Hn.
  { exists t. cbn [length foldl]. by rewrite Nat.add_0_r. }
  cbn [length] in Hn |- *. cbn in Hk, Hi. subst i.
  destruct (write_leaf_spec n t m k v) as (t1 & H1 & Hr1 & Hv1); [done|done|lia|].
  destruct (IH (S n) t1 (put m (k, v))) as (t2 & H2 & Hr2 & Hv2); [done|lia|].
  exists t2. cbn [for_each]. rewrite (bind_ok _ _ _ _ _ H1). split_and!; [done| |congruence].
  by rewrite <- Nat.add_succ_comm.
Qed.

Lemma apply_shards_spec us j n t m :
  sharded_rep n t m -> (j + length us <= SHARD_COUNT)%nat ->
  (forall i ups, us !! i = Some ups -> Forall (in_shard (j + i)) ups) ->
  257 * N.of_nat (n + length (concat us)) <= NIL ->
  exists t', map_each apply_shard (zip (seq j (length us)) us) t =
      (t', Ok ((fun i => map_root SHARD_BITS (shard_map i (foldl put m (concat us))))
                 <$> seq j (length us))) /\
    sharded_rep (n + length (concat us)) t' (foldl put m (concat us)) /\
    sh_version t' = sh_version t.
Proof.
  revert j n t m. induction us as [|ups us IH]; intros j n t m Hr Hj Hus Hn.
  { exists t. cbn [concat length foldl]. by rewrite Nat.add_0_r. }
  cbn [length concat] in Hj, Hn |- *. rewrite length_app in Hn |- *.
  pose proof (Hus 0%nat ups eq_refl) as Hups. rewrite Nat.add_0_r in Hups.
  destruct (writes_spec j ups n t m) as (t1 & H1 & Hr1 & Hv1); [done..|lia|].
  destruct (on_shard_root _ t1 _ j Hr1) as (t2 & H2 & Hr2 & Hv2); [lia|].
  assert (Htl : forall i ups', us !! i = Some ups' -> Forall (in_shard (S j + i)) ups').
  { intros i ups' Hi. rewrite Nat.add_succ_comm. by apply (Hus (S i)). }
  destruct (IH (S j) _ t2 _ Hr2) as (t3 & H3 & Hr3 & Hv3); [lia|done|lia|].
  exists t3. rewrite foldl_app. split_and!; [|by rewrite Nat.add_assoc|congruence].
  cbn [seq zip zip_with map_each apply_shard fst snd fmap list_fmap].
  rewrite (bind_ok _ _ t t2 (map_root SHARD_BITS (shard_map j (foldl put m ups)))).
  - rewrite (bind_ok _ _ _ _ _ H3). unfold shard_map at 3. rewrite puts_part_ne; [reflexivity|].
    apply Forall_forall. intros u Hu. apply list_elem_of_In, in_concat in Hu as (l & Hl & Hu).
    apply list_elem_of_In, list_elem_of_lookup in Hl as [i Hl]. apply Htl in Hl.
    rewrite Forall_forall in Hl. apply list_elem_of_In, Hl in Hu as [_ ->]. lia.
  - unfold apply_shard. cbn [fst snd]. by rewrite (bind_ok _ _ _ _ _ H1).
Qed.

(** ** The updates of a diff, shard by shard *)

Definition shard_split (us : list update) : list (list update) :=
  (fun i => filter (fun u => shard_index_for_key u.1 = i) us) <$> seq 0 SHARD_COUNT.

Lemma push_split us : foldl push_update (replicate SHARD_COUNT []) us = shard_split us.
Proof.
  induction us as [|u us IH] using rev_ind.
  { done. }
  rewrite foldl_snoc, IH. apply list_eq. intros j. unfold push_update, shard_split.
  rewrite list_lookup_alter, !list_lookup_fmap.
  destruct (decide (j < SHARD_COUNT)%nat) as [Hj|Hj].
  - pose proof (shard_index_lt u.1). case_decide as Hi; rewrite !lookup_seq_lt by lia; cbn;
      rewrite filter_app, filter_cons, filter_nil.
    + by rewrite Hi, decide_True.
    + by rewrite decide_False, app_nil_r.
  - pose proof (shard_index_lt u.1). rewrite decide_False by lia.
    by rewrite !lookup_seq_ge by lia.
Qed.

Lemma length_concat_push (u : update) i shards :
  (i < length shards)%nat ->
  length (concat (alter (fun l => l ++ [u]) i shards)) = S (length (concat shards)).
Proof.
  revert i. induction shards as [|l shards IH]; intros i Hi; [cbn in Hi; lia|].
  destruct i as [|i]; cbn in Hi |- *; rewrite !length_app.
  - cbn. lia.
  - fold (alter (fun l => l ++ [u]) i shards). rewrite IH by lia. lia.
Qed.

Lemma length_split us : length (concat (shard_split us)) = length us.
Proof.
  rewrite <- push_split. induction us as [|u us IH] using rev_ind; [done|].
  rewrite foldl_snoc, push_split. unfold push_update.
  rewrite length_concat_push, <- push_split, IH, length_app; [cbn; lia|].
  unfold shard_split. rewrite length_fmap, length_seq. apply shard_index_lt.
Qed.

Lemma split_filter us k (l : list nat) :
  NoDup l ->
  filter (fun u => u.1 = k)
    (concat ((fun i => filter (fun u : update => shard_index_for_key u.1 = i) us) <$> l)) =
  if decide (shard_index_for_key k ∈ l) then filter (fun u => u.1 = k) us else [].
Proof.
  induction 1 as [|i l Hi Hl IH]; [done|].
  rewrite fmap_cons. cbn [concat]. rewrite filter_app, IH.
  destruct (decide (shard_index_for_key k = i)) as [<-|Hk].
  - rewrite (decide_False (P := _ ∈ l)), (decide_True (P := _ ∈ _ :: l)), app_nil_r by (done || left).
    rewrite list_filter_filter_l; [done|]. by intros [? ?] ->.
  - rewrite list_filter_filter, filter_none; cbn [app].
    + apply decide_ext. rewrite elem_of_cons. naive_solver.
    + apply Forall_forall. naive_solver.
Qed.

Lemma puts_split m us : foldl put m (concat (shard_split us)) = foldl put m us.
Proof.
  apply map_eq. intros k. rewrite (puts_filter _ m m k eq_refl), (puts_filter us m m k eq_refl).
  unfold shard_split. rewrite split_filter by apply NoDup_seq. rewrite decide_True; [done|].
  apply elem_of_seq. pose proof (shard_index_lt k). lia.
Qed.
End sharded.
