(* ===== verification/StateTree.v ===== *)
(** * The state tree as one map

    Sequences of calls to the sharded tree against the same calls on a finite
    map, and the proofs that light clients check against the combined root. *)

From S2P Require Import Prelude Effects Messages BmtCore BmtTree BmtArena BmtTheory BmtProofs.
From S2P Require Import ShardTree ShardedBmt ShardedBmtTheory.

Section state.
Context {digest : Digest}.

(** ** Calls *)

Inductive StateOp : Type :=
| SSeed (address : Address) (balance nonce : N) (code_hash : B256) (storage : list (N * N))
| SDiff (diff : StateDiff)
| SGet (key : Hash)
| SRoot
| SProve (key : Hash)
| SRestore (order : list (Hash * bytes) -> list (Hash * bytes)).

Inductive StateReply : Type :=
| RSeeded
| RApplied (version : N) (root : Hash)
| RRejected (error : SbmtError)
| RRead (value : option bytes)
| RStateRoot (root : Hash)
| RStateProof (proof : ShardedBmtProof)
| RRestored (version : N).

(** A rejected diff is reported and the tree used on; a restore replaces the
    tree by the one rebuilt from its own snapshot. *)
Definition state_step (op : StateOp) : MS StateReply :=
  match op with
  | SSeed address balance nonce code_hash storage =>
      seed_genesis_account address balance nonce code_hash storage ;; mret RSeeded
  | SDiff diff =>
      r ← catch (apply_diff diff);
      mret (match r with
            | inl e => RRejected e
            | inr (version, root) => RApplied version root
            end)
  | SGet key => v ← sharded_get key; mret (RRead v)
  | SRoot => h ← sharded_root_hash; mret (RStateRoot h)
  | SProve key => p ← sharded_prove key; mret (RStateProof p)
  | SRestore order =>
      snapshot ← sharded_snapshot order;
      t ← try_ (fun _ => sharded_from_snapshot snapshot);
      modify (fun _ => t) ;;
      mret (RRestored (sh_version t))
  end.

Fixpoint state_run (ops : list StateOp) : MS (list StateReply) :=
  match ops with
  | [] => mret []
  | op :: ops =>
      r ← state_step op;
      rs ← state_run ops;
      mret (r :: rs)
  end.

(** ** The same calls on the map *)

Definition genesis_updates (address : Address) (balance nonce : N) (code_hash : B256)
  (storage : list (N * N)) : list update :=
  (account_key address, Some (encode_account_value balance nonce code_hash))
  :: ((fun '(slot, value) => (storage_key address slot, Some (be_bytes 32 value)))
        <$> filter (fun sv => sv.2 ≠ 0) storage).

Fixpoint diff_updates (m : gmap Hash bytes) (accounts : list (Address * AccountDiff))
  : result SbmtError (list update) :=
  match accounts with
  | [] => Ok []
  | (address, diff) :: rest =>
      us ← account_updates address diff (m !! account_key address);
      us' ← diff_updates m rest;
      Ok (us ++ us')
  end.

Definition spec_step (op : StateOp) (st : gmap Hash bytes * N) : gmap Hash bytes * N * StateReply :=
  let '(m, version) := st in
  match op with
  | SSeed address balance nonce code_hash storage =>
      (foldl put m (genesis_updates address balance nonce code_hash storage), version, RSeeded)
  | SDiff diff =>
      match diff_updates m (sd_accounts diff) with
      | Ok us =>
          let m' := foldl put m us in
          (m', version +w 1, RApplied (version +w 1) (state_root m'))
      | Err e => (m, version, RRejected e)
      | Panic | OutOfFuel => (m, version, RSeeded) (* never: [diff_updates_total] *)
      end
  | SGet key => (m, version, RRead (m !! key))
  | SRoot => (m, version, RStateRoot (state_root m))
  | SProve key => (m, version, RStateProof (state_proof key m))
  | SRestore _ => (m, version, RRestored version)
  end.

Fixpoint spec_run (ops : list StateOp) (st : gmap Hash bytes * N) : list StateReply :=
  match ops with
  | [] => []
  | op :: ops => let '(st', r) := spec_step op st in r :: spec_run ops st'
  end.

(** The number of leaves a call may write. *)
Definition op_writes (op : StateOp) : nat :=
  match op with
  | SSeed _ _ _ _ storage => S (length storage)
  | SDiff diff => sum_list_with (fun ad => S (length (ad_storage ad.2))) (sd_accounts diff)
  | _ => 0
  end.

(** A snapshot lists every entry once, in any order. *)
Definition op_order (op : StateOp) : Prop :=
  match op with
  | SRestore order => forall l, order l ≡ₚ l
  | _ => True
  end.

Hypothesis blake3_b256 : forall x, is_b256 (blake3 x).

Lemma state_roots_length m : length (state_roots m) = (2 ^ 4)%nat.
Proof. unfold state_roots. by rewrite length_fmap, length_seq. Qed.

Lemma state_roots_lookup m i :
  (i < SHARD_COUNT)%nat -> state_roots m !! i = Some (map_root SHARD_BITS (shard_map i m)).
Proof. intros Hi. unfold state_roots. by rewrite list_lookup_fmap, lookup_seq_lt. Qed.

(** The combined root exists, and so do the paths to it. *)
Lemma state_path_spec m i :
  (i < SHARD_COUNT)%nat ->
  exists path, shard_tree_root (state_roots m) = Some (state_root m) /\
    shard_tree_path (state_roots m) i = Some path /\ length path = SHARD_BITS /\
    shard_tree_root_from_path (map_root SHARD_BITS (shard_map i m)) i path = state_root m.
Proof.
  intros Hi. pose proof (state_roots_length m) as Hl.
  destruct (shard_path_complete 4 (length (state_roots m)) (state_roots m) i
              (map_root SHARD_BITS (shard_map i m)) Hl)
    as (root & path & Hr & Hp & Hpl & Hf); [rewrite Hl; cbn; lia|by apply state_roots_lookup|].
  exists path. unfold state_root, shard_tree_root, shard_tree_path. by rewrite Hr.
Qed.

Lemma state_root_spec m : shard_tree_root (state_roots m) = Some (state_root m).
Proof. by destruct (state_path_spec m 0) as (? & ? & _); [unfold SHARD_COUNT; lia|]. Qed.

Lemma shard_roots_spec n t m :
  sharded_rep n t m ->
  exists t', shard_roots t = (t', Ok (state_roots m)) /\ sharded_rep n t' m /\
    sh_version t' = sh_version t.
Proof.
  unfold shard_roots, state_roots. intros Hr.
  assert (Hl : Forall (fun i => (i < SHARD_COUNT)%nat) (seq 0 SHARD_COUNT)).
  { apply Forall_forall. intros i. rewrite elem_of_seq. lia. }
  revert t Hr. induction Hl as [|i l Hi _ IH]; intros t Hr; [by exists t|].
  destruct (on_shard_root n t m i Hr Hi) as (t1 & H1 & Hr1 & Hv1).
  destruct (IH t1 Hr1) as (t2 & H2 & Hr2 & Hv2). exists t2.
  split_and!; [|done|congruence]. cbn [map_each]. rewrite (bind_ok _ _ _ _ _ H1).
  by rewrite (bind_ok _ _ _ _ _ H2).
Qed.

Lemma sharded_root_hash_spec n t m :
  sharded_rep n t m ->
  exists t', sharded_root_hash t = (t', Ok (state_root m)) /\ sharded_rep n t' m /\
    sh_version t' = sh_version t.
Proof.
  intros Hr. destruct (shard_roots_spec n t m Hr) as (t1 & H1 & Hr1 & Hv1). exists t1.
  split_and!; [|done|done]. unfold sharded_root_hash. rewrite (bind_ok _ _ _ _ _ H1).
  by rewrite state_root_spec.
Qed.

Lemma sharded_get_spec n t m k : sharded_rep n t m -> sharded_get k t = (t, Ok (m !! k)).
Proof.
  intros Hr. unfold sharded_get. erewrite bind_ok by (eapply rep_value; [done|apply shard_index_lt]).
  by rewrite shard_part_lookup, decide_True.
Qed.

Lemma sharded_prove_spec n t m k :
  sharded_rep n t m ->
  exists t', sharded_prove k t = (t', Ok (state_proof k m)) /\ sharded_rep n t' m /\
    sh_version t' = sh_version t.
Proof.
  intros Hr. pose proof (shard_index_lt k) as Hi.
  destruct (on_shard_prove n t m _ k Hr Hi) as (t1 & H1 & Hr1 & Hv1).
  destruct (shard_roots_spec n t1 m Hr1) as (t2 & H2 & Hr2 & Hv2).
  destruct (state_path_spec m _ Hi) as (path & _ & Hp & _).
  exists t2. split_and!; [|done|congruence]. unfold sharded_prove, state_proof. cbn zeta.
  rewrite (bind_ok _ _ _ _ _ H1), (bind_ok _ _ _ _ _ (rep_value _ _ _ _ Hr1 Hi)).
  rewrite (bind_ok _ _ _ _ _ H2), state_roots_lookup, Hp by done.
  rewrite shard_part_lookup, decide_True by done. reflexivity.
Qed.

(** ** Diffs *)

Lemma leaf_code_hash_total address diff leaf :
  (exists c, leaf_code_hash address diff leaf = Ok c) \/
  (exists e, leaf_code_hash address diff leaf = Err e).
Proof.
  unfold leaf_code_hash, decode_code_hash_checked.
  destruct (ad_code_change diff), leaf as [value|]; eauto.
  - destruct (ACCOUNT_VALUE_LEN <=? length value)%nat; eauto.
  - destruct (ad_change_type diff); eauto.
Qed.

Lemma account_updates_total address diff leaf :
  (exists us, account_updates address diff leaf = Ok us /\
     Forall (fun u => is_b256 u.1) us /\ length us = S (length (ad_storage diff))) \/
  (exists e, account_updates address diff leaf = Err e).
Proof.
  unfold account_updates.
  destruct (ad_change_type diff) eqn:Ec.
  3: { left. eexists. split_and!; [done| |cbn; by rewrite length_fmap].
       constructor; [apply blake3_b256|]. apply Forall_fmap, Forall_true.
       intros [slot change]. apply blake3_b256. }
  all: destruct (leaf_code_hash_total address diff leaf) as [[c ->]|[e ->]]; [left|right; by eexists];
       eexists; split_and!; [done| |cbn; unfold storage_updates; by rewrite length_fmap];
       (constructor; [apply blake3_b256|]); apply Forall_fmap, Forall_true;
       intros [slot change]; apply blake3_b256.
Qed.

Lemma diff_updates_total m accounts :
  (exists us, diff_updates m accounts = Ok us /\ Forall (fun u => is_b256 u.1) us /\
     length us = sum_list_with (fun ad => S (length (ad_storage ad.2))) accounts) \/
  (exists e, diff_updates m accounts = Err e).
Proof.
  induction accounts as [|[address diff] rest IH]; [left; by exists []|]. cbn [diff_updates].
  destruct (account_updates_total address diff (m !! account_key address))
    as [(us & -> & Hus & Hl)|[e ->]]; [|right; by eexists].
  destruct IH as [(us' & -> & Hus' & Hl')|[e ->]]; [left|right; by eexists].
  exists (us ++ us'). split_and!; [done|by apply Forall_app|]. rewrite length_app. cbn. lia.
Qed.

Lemma prepare_spec n t m accounts shards :
  sharded_rep n t m ->
  prepare_accounts accounts shards t =
    (t, us ← diff_updates m accounts; Ok (foldl push_update shards us)).
Proof.
  intros Hr. revert shards. induction accounts as [|[address diff] rest IH]; intros shards; [done|].
  cbn [prepare_accounts diff_updates]. rewrite (bind_ok _ _ _ _ _ (sharded_get_spec _ _ _ _ Hr)).
  destruct (account_updates_total address diff (m !! account_key address)) as [(us & E & _)|[e E]].
  - rewrite (bind_ok _ _ t t us) by (unfold try_; by rewrite E). rewrite IH, E. cbn.
    destruct (diff_updates m rest); cbn; [by rewrite foldl_app|done..].
  - rewrite (bind_err _ _ t t e) by (unfold try_; by rewrite E). by rewrite E.
Qed.

Lemma shard_split_in us i ups :
  Forall (fun u => is_b256 u.1) us -> shard_split us !! i = Some ups -> Forall (in_shard i) ups.
Proof.
  intros Hus Hi. unfold shard_split in Hi. apply list_lookup_fmap_Some in Hi as (j & -> & Hj).
  apply lookup_seq in Hj as [-> _]. apply Forall_forall. intros u [Hu Hin]%list_elem_of_filter.
  rewrite Forall_forall in Hus. split; [by apply Hus|done].
Qed.

Lemma apply_diff_ok n t m diff us :
  sharded_rep n t m -> diff_updates m (sd_accounts diff) = Ok us ->
  Forall (fun u => is_b256 u.1) us -> 257 * N.of_nat (n + length us) <= NIL ->
  exists t', apply_diff diff t = (t', Ok (sh_version t +w 1, state_root (foldl put m us))) /\
    sharded_rep (n + length us) t' (foldl put m us) /\ sh_version t' = sh_version t +w 1.
Proof.
  intros Hr Hd Hb Hn.
  assert (Hl : length (shard_split us) = SHARD_COUNT)
    by (unfold shard_split; by rewrite length_fmap, length_seq).
  destruct (apply_shards_spec (shard_split us) 0 n t m Hr) as (t1 & H1 & Hr1 & Hv1).
  { by rewrite Hl. }
  { intros i ups Hi. by eapply shard_split_in. }
  { by rewrite length_split. }
  rewrite puts_split, length_split, Hl in *. fold (state_roots (foldl put m us)) in H1.
  exists (set_version (sh_version t +w 1) t1). unfold apply_diff. rewrite bind_gets.
  rewrite (bind_ok _ _ t t (shard_split us)).
  2: { unfold prepare. by rewrite (prepare_spec n t m), Hd, <- push_split. }
  rewrite (bind_ok _ _ _ _ _ H1). split_and!; [|by destruct Hr1; split|done].
  rewrite (bind_ok _ _ t1 (set_version (sh_version t +w 1) t1) tt) by done.
  by rewrite state_root_spec.
Qed.

Lemma apply_diff_err n t m diff e :
  sharded_rep n t m -> diff_updates m (sd_accounts diff) = Err e -> apply_diff diff t = (t, Err e).
Proof.
  intros Hr Hd. unfold apply_diff. rewrite bind_gets. apply bind_err.
  unfold prepare. by rewrite (prepare_spec n t m), Hd.
Qed.

(** ** Insertions one by one *)

Lemma inserts_spec us n t m :
  sharded_rep n t m -> Forall (fun u : update => is_b256 u.1) us ->
  257 * N.of_nat (n + length us) <= NIL ->
  exists t', for_each (fun u => write_leaf (shard_index_for_key u.1) u.1 u.2) us t = (t', Ok tt) /\
    sharded_rep (n + length us) t' (foldl put m us) /\ sh_version t' = sh_version t.
Proof.
  intros Hr Hus. revert n t m Hr. induction Hus as [|[k v] us Hk Hus IH]; intros n t m Hr Hn.
  { exists t. cbn [length foldl]. by rewrite Nat.add_0_r. }
  cbn [length] in Hn |- *.
  destruct (write_leaf_spec n t m k v) as (t1 & H1 & Hr1 & Hv1); [done|done|lia|].
  destruct (IH (S n) t1 (put m (k, v))) as (t2 & H2 & Hr2 & Hv2); [done|lia|].
  exists t2. cbn [for_each fst snd]. rewrite (bind_ok _ _ _ _ _ H1).
  split_and!; [done| |congruence]. by rewrite <- Nat.add_succ_comm.
Qed.

Lemma insert_raw_write k v : insert_raw k v = write_leaf (shard_index_for_key k) k (Some v).
Proof. done. Qed.

Lemma seed_storage address (storage : list (N * N)) t :
  for_each (fun '(slot, value) =>
    when (negb (value =? 0)) (insert_raw (storage_key address slot) (be_bytes 32 value))) storage t =
  for_each (fun u => write_leaf (shard_index_for_key u.1) u.1 u.2)
    ((fun '(slot, value) => (storage_key address slot, Some (be_bytes 32 value)))
       <$> filter (fun sv => sv.2 ≠ 0) storage) t.
Proof.
  revert t. induction storage as [|[slot value] storage IH]; intros t; [done|].
  rewrite filter_cons. cbn [snd for_each]. destruct (N.eqb_spec value 0) as [->|Hv].
  - rewrite decide_False by tauto. cbn [negb when]. rewrite (bind_ok _ _ t t tt) by done. apply IH.
  - rewrite decide_True by done. rewrite fmap_cons. cbn [negb when for_each fst snd]. unfold insert_raw.
    unfold mbind, st_bind. by destruct (write_leaf _ _ _ t) as [t' [| | |]].
Qed.

Lemma seed_spec n t m address balance nonce code_hash storage :
  sharded_rep n t m -> 257 * N.of_nat (n + S (length storage)) <= NIL ->
  exists t', seed_genesis_account address balance nonce code_hash storage t = (t', Ok tt) /\
    sharded_rep (n + S (length storage)) t'
      (foldl put m (genesis_updates address balance nonce code_hash storage)) /\
    sh_version t' = sh_version t.
Proof.
  intros Hr Hn. set (us := genesis_updates address balance nonce code_hash storage).
  assert (Hl : (length us <= S (length storage))%nat).
  { unfold us, genesis_updates. cbn [length]. rewrite length_fmap.
    pose proof (length_filter (fun sv : N * N => sv.2 ≠ 0) storage). lia. }
  destruct (inserts_spec us n t m Hr) as (t' & H & Hr' & Hv); [|lia|].
  { constructor; [apply blake3_b256|]. apply Forall_fmap, Forall_true.
    intros [slot value]. apply blake3_b256. }
  exists t'. split_and!; [|apply (sharded_rep_mono (n + length us)); [lia|done]|done].
  rewrite <- H. unfold seed_genesis_account, us, genesis_updates. rewrite insert_raw_write.
  cbn [for_each fst snd]. unfold mbind, st_bind.
  destruct (write_leaf _ _ _ t) as [t1 [| | |]]; [apply seed_storage|done..].
Qed.

(** ** Snapshots *)

Definition entries (m : gmap Hash bytes) : list (Hash * bytes) :=
  concat (map_to_list <$> ((fun i => shard_part i m) <$> seq 0 SHARD_COUNT)).

Lemma concat_fmap {A B} (f : A -> list B) l : concat (f <$> l) = l ≫= f.
Proof. induction l as [|x l IH]; [done|]. cbn. by rewrite <- IH. Qed.

Lemma entries_perm m : entries m ≡ₚ map_to_list m.
Proof.
  unfold entries. rewrite <- list_fmap_compose, concat_fmap. apply NoDup_Permutation.
  - apply NoDup_bind; [|intros; apply NoDup_map_to_list|apply NoDup_seq].
    intros i j [k v] _ _. cbn. rewrite !elem_of_map_to_list, !shard_part_lookup.
    repeat case_decide; congruence.
  - apply NoDup_map_to_list.
  - intros [k v]. rewrite list_elem_of_bind, elem_of_map_to_list. unfold compose.
    setoid_rewrite elem_of_map_to_list. setoid_rewrite shard_part_lookup. split.
    + intros (i & Hi & _). by case_decide.
    + intros Hm. exists (shard_index_for_key k). rewrite decide_True by done.
      split; [done|]. apply elem_of_seq. pose proof (shard_index_lt k). lia.
Qed.

Lemma puts_entries m l :
  l ≡ₚ map_to_list m -> foldl put ∅ ((fun kv => (kv.1, Some kv.2)) <$> l) = m.
Proof.
  intros Hl. apply map_eq. intros k. apply puts_const.
  - intros u Hu Hk. apply list_elem_of_fmap in Hu as ([k' v] & -> & Hin). cbn in Hk |- *. subst k'.
    rewrite Hl in Hin. by apply elem_of_map_to_list in Hin.
  - destruct (m !! k) as [v|] eqn:Ek; [right|by left].
    apply list_elem_of_fmap. exists (k, Some v). split; [done|].
    apply list_elem_of_fmap. exists (k, v). split; [done|]. rewrite Hl. by apply elem_of_map_to_list.
Qed.

Lemma for_each_insert_raw l t :
  for_each (fun '(key, value) => insert_raw key value) l t =
  for_each (fun u => write_leaf (shard_index_for_key u.1) u.1 u.2)
    ((fun kv : Hash * bytes => (kv.1, Some kv.2)) <$> l) t.
Proof.
  revert t. induction l as [|[k v] l IH]; intros t; [done|]. rewrite fmap_cons.
  cbn [for_each fst snd]. unfold insert_raw, mbind, st_bind.
  destruct (write_leaf _ _ _ t) as [t' [| | |]]; [apply IH|done..].
Qed.

Lemma sharded_snapshot_spec n t m order :
  sharded_rep n t m ->
  exists t', sharded_snapshot order t =
      (t', Ok (mkJmtSnapshot (sh_version t) (state_root m) (order (entries m)))) /\
    sharded_rep n t' m /\ sh_version t' = sh_version t.
Proof.
  intros Hr. destruct (sharded_root_hash_spec n t m Hr) as (t' & H & Hr' & Hv). exists t'.
  split_and!; [|done|done]. unfold sharded_snapshot. rewrite bind_state, (bind_ok _ _ _ _ _ H).
  by rewrite (sr_values _ _ _ Hr).
Qed.

Lemma from_snapshot_spec m version l :
  (forall k, is_Some (m !! k) -> is_b256 k) -> l ≡ₚ map_to_list m ->
  257 * N.of_nat (size m) <= NIL ->
  exists t, sharded_from_snapshot (mkJmtSnapshot version (state_root m) l) = Ok t /\
    sharded_rep (size m) t m /\ sh_version t = version.
Proof.
  intros Hk Hl Hn. set (us := (fun kv => (kv.1, Some kv.2)) <$> l : list update).
  assert (Hlen : length us = size m).
  { unfold us. by rewrite length_fmap, Hl, length_map_to_list. }
  destruct (inserts_spec us 0 sharded_new ∅ rep_new) as (t1 & H1 & Hr1 & Hv1).
  { apply Forall_fmap, Forall_forall. intros [k v] Hin. rewrite Hl in Hin.
    apply elem_of_map_to_list in Hin. apply Hk. by eexists. }
  { by rewrite Hlen. }
  unfold us in Hr1 at 2. rewrite (puts_entries m l Hl), Hlen in Hr1. cbn [Nat.add] in Hr1.
  set (t2 := set_version version t1).
  assert (Hr2 : sharded_rep (size m) t2 m) by (destruct Hr1; by split).
  destruct (sharded_root_hash_spec _ _ _ Hr2) as (t3 & H3 & Hr3 & Hv3).
  exists t3. split_and!; [|done|done]. unfold sharded_from_snapshot.
  cbn [js_entries js_version js_root].
  rewrite (bind_ok _ _ sharded_new t1 tt) by by rewrite for_each_insert_raw.
  rewrite (bind_ok _ _ t1 t2 tt) by done. rewrite (bind_ok _ _ _ _ _ H3).
  by rewrite N.eqb_refl.
Qed.

(** ** The refinement *)

Lemma state_step_refines op n t m :
  sharded_rep n t m -> op_order op -> 257 * N.of_nat (n + op_writes op) <= NIL ->
  exists t', state_step op t = (t', Ok (spec_step op (m, sh_version t)).2) /\
    sharded_rep (n + op_writes op) t' (spec_step op (m, sh_version t)).1.1 /\
    sh_version t' = (spec_step op (m, sh_version t)).1.2.
Proof.
  intros Hr Ho Hn. destruct op as [address balance nonce code storage|diff|k| |k|order];
    cbn [op_writes op_order state_step spec_step] in *; rewrite ?Nat.add_0_r in *.
  - destruct (seed_spec n t m address balance nonce code storage Hr Hn) as (t' & H & Hr' & Hv).
    exists t'. by rewrite (bind_ok _ _ _ _ _ H).
  - destruct (diff_updates_total m (sd_accounts diff)) as [(us & Hd & Hb & Hl)|[e Hd]].
    + rewrite <- Hl in *. destruct (apply_diff_ok n t m diff us Hr Hd Hb Hn) as (t' & H & Hr' & Hv).
      exists t'. rewrite Hd. cbn [fst snd]. split_and!; [|done|done].
      rewrite (bind_ok _ _ t t' (inr (sh_version t +w 1, state_root (foldl put m us))));
        [done|]. unfold catch. by rewrite H.
    + exists t. rewrite Hd. cbn [fst snd]. split_and!; [|eapply sharded_rep_mono; [|done]; lia|done].
      rewrite (bind_ok _ _ t t (inl e)); [done|]. unfold catch.
      by rewrite (apply_diff_err n t m diff e).
  - exists t. by rewrite (bind_ok _ _ _ _ _ (sharded_get_spec n t m k Hr)).
  - destruct (sharded_root_hash_spec n t m Hr) as (t' & H & Hr' & Hv).
    exists t'. by rewrite (bind_ok _ _ _ _ _ H).
  - destruct (sharded_prove_spec n t m k Hr) as (t' & H & Hr' & Hv).
    exists t'. by rewrite (bind_ok _ _ _ _ _ H).
  - destruct (sharded_snapshot_spec n t m order Hr) as (t1 & H1 & Hr1 & Hv1).
    pose proof (sr_size _ _ _ Hr) as Hz.
    destruct (from_snapshot_spec m (sh_version t) (order (entries m))) as (t2 & H2 & Hr2 & Hv2).
    { apply Hr. }
    { by rewrite Ho, entries_perm. }
    { lia. }
    exists t2. rewrite (bind_ok _ _ _ _ _ H1).
    rewrite (bind_ok _ _ t1 t1 t2) by (unfold try_; by rewrite H2).
    rewrite (bind_ok _ _ t1 t2 tt) by done.
    split_and!; [by rewrite Hv2|by eapply sharded_rep_mono|done].
Qed.

Lemma state_run_refines ops n t m :
  sharded_rep n t m -> Forall op_order ops ->
  257 * N.of_nat (n + sum_list_with op_writes ops) <= NIL ->
  (state_run ops t).2 = Ok (spec_run ops (m, sh_version t)).
Proof.
  intros Hr Ho. revert n t m Hr. induction Ho as [|op ops Hop _ IH]; intros n t m Hr Hn; [done|].
  cbn [sum_list_with] in Hn.
  destruct (state_step_refines op n t m Hr Hop) as (t1 & H1 & Hr1 & Hv1); [lia|].
  pose proof (IH _ _ _ Hr1 ltac:(lia)) as H2. rewrite Hv1 in H2.
  cbn [state_run spec_run]. rewrite (bind_ok _ _ _ _ _ H1).
  destruct (spec_step op (m, sh_version t)) as [[m' v'] r]. cbn [fst snd] in *.
  destruct (state_run ops t1) as [t2 r2] eqn:E2. cbn [snd] in H2. subst r2.
  by rewrite (bind_ok _ _ _ _ _ E2).
Qed.

(** ** Light clients *)

(** Everything that is hashed for the combined root, for the proof and for the
    values that are compared. *)
Definition light_client_inputs (m : gmap Hash bytes) (p : ShardedBmtProof) : list bytes :=
  let i := N.to_nat (sp_shard_index p) in
  level_inputs SHARD_BITS (state_roots m) ++
  path_inputs (sp_shard_root p) i (sp_shard_path p) ++
  (tree_inputs (canon (256 - SHARD_BITS) (shard_map i m)) ++ proof_inputs (sp_inner p) SHARD_BITS) ++
  option_list (m !! bp_key (sp_inner p)) ++ option_list (sp_value p).

(** The fixed-size fields of a decoded proof. *)
Definition sharded_proof_wf (p : ShardedBmtProof) : Prop :=
  is_b256 (sp_shard_root p) /\ Forall is_b256 (sp_shard_path p) /\ proof_wf (sp_inner p).

Lemma map_proof_key base k m : bp_key (map_proof base k m) = k.
Proof.
  unfold map_proof, tproof, proof_at. destruct (tend _ _ _) as [|k' v'|]; [done| |done].
  by destruct (k' =? k).
Qed.

Lemma map_proof_value base k m :
  keys_agree (256 - base) m -> bp_value_hash (map_proof base k m) = m !! k.
Proof.
  intros Hm. rewrite <- (tget_canon (256 - base) k m Hm), tend_get by apply canon_fits.
  unfold map_proof, tproof, proof_at. destruct (tend _ _ _) as [|k' v'|]; [done| |done].
  by destruct (k' =? k).
Qed.

Lemma shard_map_lookup k m :
  shard_map (shard_index_for_key k) m !! k = hash_value <$> m !! k.
Proof. unfold shard_map. by rewrite lookup_fmap, shard_part_lookup, decide_True. Qed.

Lemma state_proof_verifies m k :
  (forall k, is_Some (m !! k) -> is_b256 k) ->
  verify_for_key (state_proof k m) (state_root m) k = Ok tt.
Proof.
  intros Hm. pose proof (shard_index_lt k) as Hi.
  pose proof (shard_map_keys (shard_index_for_key k) m Hm) as Hka.
  destruct (state_path_spec m _ Hi) as (path & _ & Hp & Hpl & Hf).
  unfold verify_for_key, sharded_verify, state_proof. cbn zeta.
  cbn [sp_inner sp_shard_index sp_shard_path sp_shard_root sp_value].
  rewrite map_proof_key, map_proof_value, Hp, !N.eqb_refl, Nat2N.id by done.
  cbn [negb from_option id].
  rewrite (proj2 (N.leb_gt _ _)) by lia.
  rewrite bool_decide_eq_false_2 by tauto. rewrite Hf, N.eqb_refl. cbn [negb].
  rewrite <- shard_map_lookup, bool_decide_eq_true_2 by done. cbn [negb].
  by rewrite map_proof_verifies by (done || (vm_compute; lia)).
Qed.

(** What an accepted proof has passed. *)
Lemma verify_for_key_Ok p root k :
  verify_for_key p root k = Ok tt ->
  bp_key (sp_inner p) = k /\ N.to_nat (sp_shard_index p) = shard_index_for_key k /\
  length (sp_shard_path p) = SHARD_BITS /\
  shard_tree_root_from_path (sp_shard_root p) (shard_index_for_key k) (sp_shard_path p) = root /\
  bmt_verify (sp_inner p) (sp_shard_root p) (hash_value <$> sp_value p) SHARD_BITS = Some true.
Proof.
  unfold verify_for_key, sharded_verify.
  destruct (N.eqb_spec (bp_key (sp_inner p)) k) as [Hk|]; [|done].
  destruct (N.eqb_spec (sp_shard_index p) (N.of_nat (shard_index_for_key k))) as [Hi|]; [|done].
  cbn [negb]. rewrite Hi, !Nat2N.id. destruct (_ <=? _); [done|].
  case_bool_decide as Hl; [done|]. destruct (N.eqb_spec (shard_tree_root_from_path
    (sp_shard_root p) (shard_index_for_key k) (sp_shard_path p)) root) as [Hr|]; [|done].
  cbn [negb]. case_bool_decide; [|done]. cbn [negb].
  by destruct (bmt_verify _ _ _ _) as [[]|].
Qed.

Lemma verify_for_key_sound m p k :
  (forall k, is_Some (m !! k) -> is_b256 k) -> sharded_proof_wf p ->
  no_collision (light_client_inputs m p) ->
  verify_for_key p (state_root m) k = Ok tt -> sp_value p = m !! k.
Proof.
  intros Hm (Hwr & Hwp & Hwi) Hc (<- & Hi & Hl & Hr & Hv)%verify_for_key_Ok.
  unfold light_client_inputs in Hc. rewrite Hi in Hc. cbn zeta in Hc.
  set (k := bp_key (sp_inner p)) in *. set (i := shard_index_for_key k) in *.
  assert (Hroot : state_roots m !! i = Some (sp_shard_root p)).
  { pose proof (state_roots_length m) as Hlen. pose proof (shard_index_lt k).
    eapply (shard_path_sound blake3_b256 4 (length (state_roots m)) _ i (sp_shard_root p)
      (sp_shard_path p) _ Hlen); [rewrite Hlen; cbn; lia|done|done| |done|done|exact Hc| | |].
    - apply Forall_fmap, Forall_true. intros j. apply (thash_b256 blake3_b256).
    - intros x Hx. by apply elem_of_app; left.
    - intros x Hx. apply elem_of_app; right. by apply elem_of_app; left.
    - rewrite Hr. apply state_root_spec. }
  rewrite state_roots_lookup in Hroot by apply shard_index_lt. injection Hroot as Hroot.
  rewrite <- Hroot in Hv.
  apply (verify_sound blake3_b256) in Hv; [|vm_compute; lia|by apply shard_map_keys| |done|].
  - fold k in Hv. unfold i in Hv. rewrite shard_map_lookup in Hv.
    assert (Hin : forall x, m !! k = Some x \/ sp_value p = Some x ->
      x ∈ option_list (m !! k) ++ option_list (sp_value p)).
    { intros x [->| ->]; apply elem_of_app; [left|right]; cbn; left. }
    destruct (m !! k) as [v|] eqn:Em, (sp_value p) as [v'|] eqn:Ep; cbn in Hv; try done.
    injection Hv as Hv. symmetry. f_equal.
    apply (proj1 Hc); [..|exact Hv]; do 3 (apply elem_of_app; right); apply Hin; eauto.
  - intros k' v'. unfold shard_map. rewrite lookup_fmap_Some. intros (v & <- & Hk').
    rewrite shard_part_lookup in Hk'. case_decide; [|done]. split; [apply Hm; by eexists|apply blake3_b256].
  - eapply no_collision_sub; [|exact Hc]. intros x Hx. do 2 (apply elem_of_app; right).
    apply elem_of_app. by left.
Qed.

Lemma verify_for_key_no_panic p root k :
  verify_for_key p root k ≠ Panic /\ verify_for_key p root k ≠ OutOfFuel.
Proof.
  destruct (verify_total (sp_inner p) (sp_shard_root p) (hash_value <$> sp_value p) SHARD_BITS)
    as [b Hb].
  unfold verify_for_key, sharded_verify. cbn zeta. rewrite Hb. repeat case_match; done.
Qed.
End state.

Section promises.
Context {digest : Digest}.

(** C25: the sharded state tree is one map from 32-byte keys to values: genesis
    accounts, block diffs (the rejected ones included, which change nothing),
    reads, combined roots, proofs and restores from snapshots written in any
    order return what the map returns, and no call panics; the root and the
    proofs depend on the contents only, never on the history or the shard
    workers.  This holds for histories of at most 2^32 / 257, about 16.7 million,
    leaf writes, overwrites and deletions included: a write allocates at most 257
    nodes, and [alloc] of bmt-core casts the length of the arena to 32 bits
    without a check, so that beyond 2^32 - 1 nodes indices would collide.  The
    orders in which snapshots are written ([op_order]) are permutations. *)
Theorem state_tree_refines_map ops :
  (forall x, is_b256 (blake3 x)) -> Forall op_order ops ->
  257 * N.of_nat (sum_list_with op_writes ops) <= NIL ->
  (state_run ops sharded_new).2 = Ok (spec_run ops (∅, 0)).
Proof. intros Hb Ho Hn. by eapply (state_run_refines Hb _ 0 sharded_new ∅ rep_new). Qed.

(** C26: a light client that knows the combined root of a state learns exactly
    that state: the proof of every key is accepted, an accepted proof for a key
    carries the value the state holds (or its absence) as long as blake3 does
    not collide on what was hashed, and no proof makes the client panic. *)
Theorem light_client_exact m k p :
  (forall x, is_b256 (blake3 x)) -> (forall k, is_Some (m !! k) -> is_b256 k) ->
  sharded_proof_wf p -> no_collision (light_client_inputs m p) ->
  verify_for_key (state_proof k m) (state_root m) k = Ok tt /\
  sp_value (state_proof k m) = m !! k /\
  (verify_for_key p (state_root m) k = Ok tt -> sp_value p = m !! k) /\
  (forall root k', verify_for_key p root k' ≠ Panic).
Proof.
  intros Hb Hm Hp Hc. split_and!.
  - by apply state_proof_verifies.
  - done.
  - by apply verify_for_key_sound.
  - intros root k'. apply verify_for_key_no_panic.
Qed.
End promises.
