(* ===== verification/BmtWitnesses.v ===== *)
(** * Instances of the theorems about the state tree

    The Merkle trees with a polynomial hash in place of blake3. *)

From S2P Require Import Prelude Effects Messages BmtCore BmtTree BmtArena BmtTheory BmtProofs.
From S2P Require Import ShardTree ShardedBmt ShardedBmtTheory StateTree.

Definition poly : N := 0x9e3779b97f4a7c15f39cc0605cedc8341082276bf3a27251f86c6a11d0c18e95.

(** A polynomial in the bytes modulo [2^48], spread over 256 bits. *)
#[export] Instance poly_digest : Digest := {|
  bincode_changes changes := [N.of_nat (length changes)];
  blake3 b :=
    N.land (poly * (1 + foldl (fun acc x => N.land (acc * 1000003 + x) 0xffffffffffff) 7 b))
      (N.ones 256)
|}.

Lemma poly_b256 x : is_b256 (blake3 x).
Proof.
  unfold is_b256, blake3, poly_digest. rewrite N.land_ones.
  change (256 ^ 32) with (2 ^ 256). by apply N.mod_lt.
Qed.

Definition collision_free `{digest : Digest} (xs : list bytes) : bool :=
  forallb (fun x => negb (blake3 x =? EMPTY_HASH) &&
    forallb (fun y => negb (blake3 x =? blake3 y) || bool_decide (x = y)) xs) xs.

Lemma collision_free_ok `{digest : Digest} xs : collision_free xs = true -> no_collision xs.
Proof.
  unfold collision_free. rewrite forallb_forall. intros H. split.
  - intros x y Hx%list_elem_of_In Hy%list_elem_of_In E. apply H in Hx.
    apply andb_true_iff in Hx as [_ Hx]. rewrite forallb_forall in Hx. apply Hx in Hy.
    rewrite E, N.eqb_refl in Hy. by apply bool_decide_eq_true_1 in Hy.
  - intros x Hx%list_elem_of_In E. apply H in Hx. by rewrite E in Hx.
Qed.

Definition shares (base : nat) (ks : list Hash) : bool :=
  forallb (fun k => (k <? 256 ^ 32) && forallb (fun k' => shares_prefix_range k k' 0 base) ks) ks.

Lemma shares_ok base ks : shares base ks = true -> keys_share base ks.
Proof.
  unfold shares. rewrite forallb_forall. intros H k k' Hk%list_elem_of_In Hk'%list_elem_of_In.
  apply H in Hk. apply andb_true_iff in Hk as [Hb Hk]. rewrite forallb_forall in Hk.
  split; [by apply N.ltb_lt|by apply Hk].
Qed.

(** ** One tree *)

Definition key_a : Hash := 0xa1 * 256 ^ 31.
Definition key_b : Hash := 0xa9 * 256 ^ 31 + 5.
Definition key_c : Hash := 0xaf * 256 ^ 31.

Definition tree_calls : list SbmtOp :=
  [OInsert key_a [1]; OInsert key_b [2; 3]; OInsert key_c []; ORoot; ORemove key_b; OGet key_a;
   OInsert key_b [4]; OLen; OProve key_b; ORemove 77; ORoot].

Lemma sbmt_refines_map_witness :
  (sbmt_run tree_calls (with_base_depth 4)).2 = Ok (map_run 4 tree_calls ∅).
Proof.
  apply sbmt_refines_map.
  - lia.
  - apply shares_ok. vm_compute. reflexivity.
  - vm_compute. discriminate.
Defined.

Definition small_map : gmap Hash Hash :=
  <[key_a := blake3 [1]]> (<[key_b := blake3 [2]]> {[ key_c := blake3 [3] ]}).

Lemma small_keys : keys_agree 252 small_map.
Proof.
  assert (H : shares 4 [key_a; key_b; key_c] = true) by (vm_compute; reflexivity).
  apply shares_ok in H.
  assert (Hin : forall k, is_Some (small_map !! k) -> k ∈ [key_a; key_b; key_c]).
  { intros k. unfold small_map. rewrite !lookup_insert_is_Some', lookup_singleton_is_Some.
    set_solver. }
  intros k k' Hk%Hin Hk'%Hin. apply (share_agree 4); [lia|..]; by eapply H.
Qed.

Lemma small_b256 : map_b256 small_map.
Proof.
  assert (H : forallb (fun kv => (kv.1 <? 256 ^ 32) && (kv.2 <? 256 ^ 32)) (map_to_list small_map)
              = true) by (vm_compute; reflexivity).
  rewrite forallb_forall in H. intros k v Hk%elem_of_map_to_list%list_elem_of_In%H.
  apply andb_true_iff in Hk as [Hk Hv]. split; by apply N.ltb_lt.
Qed.

Definition word (h : Hash) : bool := h <? 256 ^ 32.

Definition proof_words (p : BmtProof) : bool :=
  word (bp_key p) && forallb word (bp_siblings p) &&
  match bp_value_hash p with Some v => word v | None => true end &&
  match bp_other_leaf p with Some (k, v) => word k && word v | None => true end.

Lemma words_ok l : forallb word l = true -> Forall is_b256 l.
Proof.
  rewrite forallb_forall. intros H. apply Forall_forall. intros x Hx%list_elem_of_In%H.
  by apply N.ltb_lt.
Qed.

Lemma proof_words_ok p : proof_words p = true -> proof_wf p.
Proof.
  unfold proof_words. rewrite !andb_true_iff. intros [[[H1 H2] H3] H4]. split_and!.
  - by apply N.ltb_lt.
  - by apply words_ok.
  - destruct (bp_value_hash p); [by apply N.ltb_lt|done].
  - destruct (bp_other_leaf p) as [[k v]|]; [|done]. apply andb_true_iff in H4 as [Hk Hv].
    split; by apply N.ltb_lt.
Qed.

(** The proof that a key outside the map is absent. *)
Definition absent_proof : BmtProof := map_proof 4 (key_b + 1) small_map.

Lemma bmt_proofs_exact_witness :
  bmt_verify (map_proof 4 key_a small_map) (map_root 4 small_map) (small_map !! key_a) 4 = Some true /\
  (bmt_verify absent_proof (map_root 4 small_map) None 4 = Some true ->
   small_map !! bp_key absent_proof = None) /\
  (forall root, is_Some (bmt_verify absent_proof root None 4)).
Proof.
  apply bmt_proofs_exact.
  - exact poly_b256.
  - lia.
  - exact small_keys.
  - exact small_b256.
  - apply proof_words_ok. vm_compute. reflexivity.
  - apply collision_free_ok. vm_compute. reflexivity.
Defined.

(** ** The state tree *)

Definition alice : Address := 0xa11ce.
Definition bob : Address := 0xb0b.
Definition created (balance : N) (slots : list (N * N)) : AccountDiff :=
  mkAccountDiff Created (Some (mkValueChange 0 balance)) (Some (mkValueChange 0 1)) None
    (prod_map id (mkValueChange 0) <$> slots).
Definition paid (balance : N) : AccountDiff :=
  mkAccountDiff Modified (Some (mkValueChange 0 balance)) (Some (mkValueChange 1 2)) None
    [(3, mkValueChange 9 0)].
Definition gone : AccountDiff := mkAccountDiff Destroyed None None None [].

(** A genesis account, two blocks, one that names an unknown account and is
    rejected, and a restore from a snapshot in reverse order. *)
Definition state_calls : list StateOp :=
  [SSeed alice 100 0 EMPTY_CODE_HASH [(1, 5); (2, 0)];
   SDiff (mkStateDiff [(bob, created 7 [(3, 9); (4, 8)])]); SRoot;
   SDiff (mkStateDiff [(0xdead, paid 1)]);
   SDiff (mkStateDiff [(alice, gone); (bob, paid 55)]);
   SRestore (@rev _); SGet (account_key bob); SProve (account_key alice); SRoot].

Lemma state_tree_refines_map_witness :
  (state_run state_calls sharded_new).2 = Ok (spec_run state_calls (∅, 0)).
Proof.
  apply state_tree_refines_map.
  - exact poly_b256.
  - repeat constructor. intros l. symmetry. apply Permutation_rev.
  - vm_compute. discriminate.
Defined.

Definition small_state : gmap Hash bytes :=
  foldl put ∅ (genesis_updates alice 100 0 EMPTY_CODE_HASH [(1, 5)] ++
               genesis_updates bob 7 1 EMPTY_CODE_HASH [(3, 9); (4, 8)]).

Lemma small_state_keys k : is_Some (small_state !! k) -> is_b256 k.
Proof.
  assert (H : forallb (fun kv => kv.1 <? 256 ^ 32) (map_to_list small_state) = true)
    by (vm_compute; reflexivity).
  rewrite forallb_forall in H. intros [v Hk%elem_of_map_to_list%list_elem_of_In%H].
  by apply N.ltb_lt.
Qed.

(** A proof for bob's account. *)
Lemma light_client_exact_witness :
  verify_for_key (state_proof (account_key bob) small_state) (state_root small_state)
    (account_key bob) = Ok tt /\
  small_state !! account_key bob = Some (encode_account_value 7 1 EMPTY_CODE_HASH).
Proof.
  destruct (light_client_exact small_state (account_key bob)
              (state_proof (account_key bob) small_state)) as (Hv & Hp & _).
  - exact poly_b256.
  - exact small_state_keys.
  - split; [apply N.ltb_lt; vm_compute; reflexivity|].
    split; [apply words_ok|apply proof_words_ok]; vm_compute; reflexivity.
  - apply collision_free_ok. vm_compute. reflexivity.
  - split; [exact Hv|]. vm_compute. reflexivity.
Defined.
