(* ===== verification/FlatIndex.v ===== *)
(** * The open-addressing index of the twig engine
    ([crates/n42-twig-core/src/flat.rs])

    Linear probing over two parallel arrays, with tombstones and rehashing.  The
    probe loops have no bound in the source; here they have as much fuel as the
    table has buckets, and [FlatIndexTheory] shows that this is enough in every
    state the operations reach.  The per-process random seed is an argument. *)

From S2P Require Import Prelude Effects.

Definition EMPTY : N := u64_max.
Definition TOMB : N := u64_max - 1.

Record FlatIndex : Type := mkFlatIndex {
  fi_keys : list N;
  fi_slots : list N; (* [EMPTY], [TOMB] or a slot *)
  fi_mask : nat;
  fi_live : nat;
  fi_tombs : nat;
  fi_seed : N
}.

Definition with_capacity_pow2 (seed : N) (cap : nat) : FlatIndex :=
  mkFlatIndex (replicate cap 0) (replicate cap EMPTY) (cap - 1) 0 0 seed.

Definition flat_new (seed : N) : FlatIndex := with_capacity_pow2 seed 64.

Definition flat_len (f : FlatIndex) : nat := fi_live f.

(** [(x as usize) & self.mask] *)
Definition masked (f : FlatIndex) (x : N) : nat := N.to_nat (N.land x (N.of_nat (fi_mask f))).

Definition bucket (f : FlatIndex) (prefix : N) : nat :=
  let x := N.lxor (N.lxor (u64_wrap prefix) (u64_wrap (N.shiftr prefix 64))) (fi_seed f) in
  let x := u64_wrap (x * 0x9E3779B97F4A7C15) in
  let x := N.lxor x (N.shiftr x 32) in
  masked f x.

Definition next_bucket (f : FlatIndex) (b : nat) : nat := masked f (N.of_nat (b + 1)).

(** No operation returns an error; indexing may panic. *)
Abbreviation fresult := (result Empty_set).

(** [v[i]] *)
Definition at_index {A} (l : list A) (i : nat) : fresult A :=
  match l !! i with Some a => Ok a | None => Panic end.

Fixpoint get_loop (fuel : nat) (f : FlatIndex) (prefix : N) (b : nat) : fresult (option N) :=
  match fuel with
  | O => OutOfFuel
  | S fuel =>
      s ← at_index (fi_slots f) b;
      if s =? EMPTY then Ok None
      else
        found ← (if s =? TOMB then Ok false
                 else k ← at_index (fi_keys f) b; Ok (k =? prefix));
        if found : bool then Ok (Some s) else get_loop fuel f prefix (next_bucket f b)
  end.

Definition flat_get (f : FlatIndex) (prefix : N) : fresult (option N) :=
  get_loop (S (fi_mask f)) f prefix (bucket f prefix).

(** [v[i] = x], which panics out of range. *)
Definition update_at {A} (l : list A) (i : nat) (x : A) : fresult (list A) :=
  _ ← at_index l i; Ok (<[i := x]> l).

(** The body of [insert] after the growth check.  [insert_at] is the first
    tombstone seen. *)
Fixpoint insert_loop (fuel : nat) (f : FlatIndex) (prefix slot : N) (insert_at : option nat)
  (b : nat) : fresult FlatIndex :=
  match fuel with
  | O => OutOfFuel
  | S fuel =>
      s ← at_index (fi_slots f) b;
      if s =? EMPTY then
        let at_ := default b insert_at in
        old ← at_index (fi_slots f) at_;
        let tombs := if old =? TOMB then (fi_tombs f - 1)%nat else fi_tombs f in
        keys ← update_at (fi_keys f) at_ prefix;
        slots ← update_at (fi_slots f) at_ slot;
        Ok (mkFlatIndex keys slots (fi_mask f) (fi_live f + 1) tombs (fi_seed f))
      else if s =? TOMB then
        insert_loop fuel f prefix slot
          (match insert_at with None => Some b | Some _ => insert_at end) (next_bucket f b)
      else
        k ← at_index (fi_keys f) b;
        if k =? prefix then
          slots ← update_at (fi_slots f) b slot;
          Ok (mkFlatIndex (fi_keys f) slots (fi_mask f) (fi_live f) (fi_tombs f) (fi_seed f))
        else insert_loop fuel f prefix slot insert_at (next_bucket f b)
  end.

(** [for b in 0..=self.mask], with [insert] the insertion into the new table. *)
Fixpoint rehash_loop (insert : N -> N -> FlatIndex -> fresult FlatIndex) (f : FlatIndex)
  (buckets : list nat) (next : FlatIndex) : fresult FlatIndex :=
  match buckets with
  | [] => Ok next
  | b :: rest =>
      s ← at_index (fi_slots f) b;
      next ← (if negb (s =? EMPTY) && negb (s =? TOMB)
              then k ← at_index (fi_keys f) b; insert k s next
              else Ok next);
      rehash_loop insert f rest next
  end.

Definition rehash_with (insert : N -> N -> FlatIndex -> fresult FlatIndex) (f : FlatIndex)
  (cap : nat) : fresult FlatIndex :=
  rehash_loop insert f (seq 0 (S (fi_mask f))) (with_capacity_pow2 (fi_seed f) cap).

Definition grow_with (insert : N -> N -> FlatIndex -> fresult FlatIndex) (f : FlatIndex)
  : fresult FlatIndex :=
  let cap := if (S (fi_mask f) <=? fi_live f * 4)%nat
             then (S (fi_mask f) * 2)%nat
             else S (fi_mask f) in
  rehash_with insert f cap.

(** Insertion rehashes a full table and a rehash inserts: the fuel bounds this
    recursion, which is two deep. *)
Fixpoint insert_with (fuel : nat) (prefix slot : N) (f : FlatIndex) : fresult FlatIndex :=
  match fuel with
  | O => OutOfFuel
  | S fuel =>
      f ← (if (S (fi_mask f) * 7 <? (fi_live f + fi_tombs f + 1) * 8)%nat
           then grow_with (insert_with fuel) f
           else Ok f);
      insert_loop (S (fi_mask f)) f prefix slot None (bucket f prefix)
  end.

Definition flat_insert (prefix slot : N) (f : FlatIndex) : fresult FlatIndex :=
  insert_with 2 prefix slot f.

Fixpoint remove_loop (fuel : nat) (f : FlatIndex) (prefix : N) (b : nat)
  : fresult (FlatIndex * option N) :=
  match fuel with
  | O => OutOfFuel
  | S fuel =>
      s ← at_index (fi_slots f) b;
      if s =? EMPTY then Ok (f, None)
      else
        found ← (if s =? TOMB then Ok false
                 else k ← at_index (fi_keys f) b; Ok (k =? prefix));
        if found : bool then
          slots ← update_at (fi_slots f) b TOMB;
          Ok (mkFlatIndex (fi_keys f) slots (fi_mask f) (fi_live f - 1) (fi_tombs f + 1)
                (fi_seed f), Some s)
        else remove_loop fuel f prefix (next_bucket f b)
  end.

Definition flat_remove (prefix : N) (f : FlatIndex) : fresult (FlatIndex * option N) :=
  remove_loop (S (fi_mask f)) f prefix (bucket f prefix).

(** [usize::next_power_of_two] *)
Definition next_power_of_two (n : nat) : nat := (2 ^ Nat.log2_up n)%nat.

Definition flat_reserve (additional : nat) (f : FlatIndex) : fresult FlatIndex :=
  let need := ((fi_live f + additional) * 8 / 7 + 1)%nat in
  if (S (fi_mask f) <? need)%nat
  then rehash_with (insert_with 1) f (next_power_of_two need)
  else Ok f.
