(* ===== verification/FlatIndexTheory.v ===== *)
(** * The index refines a finite map

    [flat_rep f m]: the table [f] holds the map [m].  Every key is reached from
    its bucket without crossing an empty slot, and an eighth of the table is
    empty, so the unbounded probe loops of the source stop. *)

From S2P Require Import Prelude Effects FlatIndex.

(** ** Counting *)

Fixpoint count_if {A} (p : A -> bool) (l : list A) : nat :=
  match l with
  | [] => 0%nat
  | x :: l' => ((if p x then 1 else 0) + count_if p l')%nat
  end.

Lemma count_if_insert {A} (p : A -> bool) (l : list A) i x y :
  l !! i = Some x ->
  (count_if p (<[i := y]> l) + (if p x then 1 else 0)
   = count_if p l + (if p y then 1 else 0))%nat.
Proof.
  revert i. induction l as [|z l IH]; intros [|i] H; try done; simpl in *; simplify_eq.
  - destruct (p x), (p y); lia.
  - specialize (IH i H). lia.
Qed.

Lemma count_if_replicate {A} (p : A -> bool) n x :
  count_if p (replicate n x) = if p x then n else 0%nat.
Proof. induction n; simpl; destruct (p x); lia. Qed.

Definition is_live (s : N) : bool := negb (s =? EMPTY) && negb (s =? TOMB).
Definition is_tomb (s : N) : bool := s =? TOMB.
Definition bucket_empty (s : N) : bool := s =? EMPTY.

Lemma count_slots l : (count_if is_live l + count_if is_tomb l + count_if bucket_empty l = length l)%nat.
Proof.
  induction l as [|s l IH]; [done|]. cbn [count_if length].
  unfold is_live, is_tomb, bucket_empty in *.
  destruct (s =? EMPTY) eqn:E1, (s =? TOMB) eqn:E2; simpl; try lia.
  bool_simpl. subst. unfold EMPTY, TOMB, u64_max in *. lia.
Qed.

Lemma count_if_pos {A} (p : A -> bool) l :
  (0 < count_if p l)%nat -> exists i x, l !! i = Some x /\ p x = true.
Proof.
  induction l as [|x l IH]; simpl; [lia|]. destruct (p x) eqn:E; intros H.
  - by exists 0%nat, x.
  - destruct IH as (i & y & ? & ?); [lia|]. by exists (S i), y.
Qed.

(** ** The representation *)

Abbreviation cap f := (S (fi_mask f)) (only parsing).

(** The [d]-th bucket of the probe sequence of [k]. *)
Definition pos (f : FlatIndex) (k : N) (d : nat) : nat := ((bucket f k + d) mod cap f)%nat.

Definition live_at (f : FlatIndex) (b : nat) (k s : N) : Prop :=
  fi_slots f !! b = Some s /\ is_live s = true /\ fi_keys f !! b = Some k.

Record flat_shape (f : FlatIndex) : Prop := {
  fs_pow : exists e, cap f = (2 ^ e)%nat;
  fs_min : (8 <= cap f)%nat;
  fs_keys : length (fi_keys f) = cap f;
  fs_slots : length (fi_slots f) = cap f
}.

Record flat_rep (f : FlatIndex) (m : gmap N N) : Prop := {
  fr_shape : flat_shape f;
  fr_live : forall b k s, live_at f b k s -> m !! k = Some s;
  fr_uniq : forall b b' k s s', live_at f b k s -> live_at f b' k s' -> b = b';
  fr_found : forall k s, m !! k = Some s -> exists d,
    (d < cap f)%nat /\ live_at f (pos f k d) k s /\
    forall i, (i < d)%nat -> fi_slots f !! pos f k i ≠ Some EMPTY;
  fr_count : fi_live f = count_if is_live (fi_slots f);
  fr_size : fi_live f = size m;
  fr_tombs : fi_tombs f = count_if is_tomb (fi_slots f);
  fr_load : ((fi_live f + fi_tombs f) * 8 <= cap f * 7)%nat
}.

Lemma masked_mod f x : flat_shape f -> masked f x = N.to_nat (x mod N.of_nat (cap f)).
Proof.
  intros [[e He] _ _ _]. unfold masked. f_equal.
  assert (N.of_nat (fi_mask f) = N.ones (N.of_nat e)) as ->.
  { rewrite N.ones_equiv. change 2 with (N.of_nat 2). rewrite <- Nat2N.inj_pow, <- He. lia. }
  rewrite N.land_ones. f_equal. rewrite He. change 2 with (N.of_nat 2). by rewrite <- Nat2N.inj_pow.
Qed.

Lemma bucket_lt f k : flat_shape f -> (bucket f k < cap f)%nat.
Proof.
  intros H. unfold bucket. rewrite masked_mod by done.
  pose proof (N.mod_lt (N.lxor (u64_wrap
    (N.lxor (N.lxor (u64_wrap k) (u64_wrap (N.shiftr k 64))) (fi_seed f) * 0x9E3779B97F4A7C15))
    (N.shiftr (u64_wrap
    (N.lxor (N.lxor (u64_wrap k) (u64_wrap (N.shiftr k 64))) (fi_seed f) * 0x9E3779B97F4A7C15)) 32))
    (N.of_nat (cap f))). lia.
Qed.

Lemma pos_0 f k : flat_shape f -> pos f k 0 = bucket f k.
Proof. intros H. unfold pos. rewrite Nat.add_0_r. by apply Nat.mod_small, bucket_lt. Qed.

Lemma pos_lt f k d : (pos f k d < cap f)%nat.
Proof. apply Nat.mod_upper_bound. lia. Qed.

Lemma next_bucket_pos f k d : flat_shape f -> next_bucket f (pos f k d) = pos f k (S d).
Proof.
  intros H. unfold next_bucket. rewrite masked_mod by done.
  rewrite <- Nat2N.inj_mod, Nat2N.id. unfold pos. rewrite Nat.Div0.add_mod_idemp_l. f_equal. lia.
Qed.

(** Every bucket is in the probe sequence of every key. *)
Lemma pos_surj f k b : flat_shape f -> (b < cap f)%nat -> exists d, (d < cap f)%nat /\ pos f k d = b.
Proof.
  intros H Hb. pose proof (bucket_lt f k H) as Hk. unfold pos.
  destruct (decide (bucket f k <= b)%nat).
  - exists (b - bucket f k)%nat. split; [lia|]. rewrite Nat.mod_small; lia.
  - exists (cap f + b - bucket f k)%nat. split; [lia|].
    replace (_ + _)%nat with (b + 1 * cap f)%nat by lia. rewrite Nat.Div0.mod_add.
    apply Nat.mod_small. lia.
Qed.

Lemma pos_inj f k d d' :
  flat_shape f -> (d < cap f)%nat -> (d' < cap f)%nat -> pos f k d = pos f k d' -> d = d'.
Proof.
  intros H Hd Hd' E. unfold pos in E. pose proof (bucket_lt f k H).
  pose proof (Nat.div_mod_eq (bucket f k + d) (cap f)).
  pose proof (Nat.div_mod_eq (bucket f k + d') (cap f)).
  pose proof (Nat.mod_upper_bound (bucket f k + d) (cap f)).
  pose proof (Nat.mod_upper_bound (bucket f k + d') (cap f)).
  assert (bucket f k + d < 2 * cap f)%nat by lia.
  assert (bucket f k + d' < 2 * cap f)%nat by lia.
  assert ((bucket f k + d) / cap f < 2)%nat by (apply Nat.Div0.div_lt_upper_bound; lia).
  assert ((bucket f k + d') / cap f < 2)%nat by (apply Nat.Div0.div_lt_upper_bound; lia).
  destruct ((bucket f k + d) / cap f)%nat as [|[|]], ((bucket f k + d') / cap f)%nat as [|[|]]; lia.
Qed.

Lemma slot_at_pos f k d : flat_shape f -> exists s, fi_slots f !! pos f k d = Some s.
Proof. intros [_ _ _ H]. apply lookup_lt_is_Some_2. rewrite H. apply pos_lt. Qed.
Lemma key_at_pos f k d : flat_shape f -> exists k', fi_keys f !! pos f k d = Some k'.
Proof. intros [_ _ H _]. apply lookup_lt_is_Some_2. rewrite H. apply pos_lt. Qed.

(** A bucket that a probe for [k] passes. *)
Definition passes (f : FlatIndex) (k : N) (d : nat) : Prop :=
  fi_slots f !! pos f k d ≠ Some EMPTY /\ forall s, ~ live_at f (pos f k d) k s.

Lemma first_such (P : nat -> Prop) `{forall n, Decision (P n)} n :
  P n -> exists d, (d <= n)%nat /\ P d /\ forall i, (i < d)%nat -> ~ P i.
Proof.
  assert (Hn : (exists d, (d <= n)%nat /\ P d /\ forall i, (i < d)%nat -> ~ P i) \/
               forall i, (i <= n)%nat -> ~ P i).
  { induction n as [|n [(d & ? & ? & ?)|IH]].
    - destruct (decide (P 0%nat)) as [H0|H0].
      + left. exists 0%nat. split; [lia|]. split; [done|]. lia.
      + right. intros i Hi. by replace i with 0%nat by lia.
    - left. exists d. split; [lia|done].
    - destruct (decide (P (S n))) as [H0|H0].
      + left. exists (S n). split; [lia|]. split; [done|]. intros i Hi. apply IH. lia.
      + right. intros i Hi. destruct (decide (i = S n)) as [->|]; [done|]. apply IH. lia. }
  intros HP. destruct Hn as [|Hn]; [done|]. by destruct (Hn n).
Qed.

(** Where the probe for [k] ends. *)
Lemma probe_cases f m k :
  flat_rep f m -> exists d,
    (d < cap f)%nat /\ (forall i, (i < d)%nat -> passes f k i) /\
    ((m !! k = None /\ fi_slots f !! pos f k d = Some EMPTY) \/
     exists s, m !! k = Some s /\ live_at f (pos f k d) k s).
Proof.
  intros Hr. pose proof (fr_shape _ _ Hr) as Hs. destruct (m !! k) as [s|] eqn:Em.
  - destruct (fr_found _ _ Hr k s Em) as (d & Hd & Hl & Hne). exists d. split; [done|].
    split; [|by right; exists s]. intros i Hi. split; [by apply Hne|].
    intros s' Hl'. pose proof (fr_uniq _ _ Hr _ _ _ _ _ Hl Hl') as E.
    apply pos_inj in E; [lia|done|done|lia].
  - assert (exists b, fi_slots f !! b = Some EMPTY) as [b Hb].
    { pose proof (count_slots (fi_slots f)) as Hc. rewrite (fs_slots _ Hs) in Hc.
      pose proof (fr_load _ _ Hr). rewrite (fr_count _ _ Hr), (fr_tombs _ _ Hr) in *.
      pose proof (fs_min _ Hs). destruct (count_if_pos bucket_empty (fi_slots f)) as (i & s & Hi & He); [lia|].
      exists i. unfold bucket_empty in He. bool_simpl. by subst. }
    assert (b < cap f)%nat as Hlt.
    { rewrite <- (fs_slots _ Hs). by eapply lookup_lt_Some. }
    destruct (pos_surj f k b Hs Hlt) as (n & Hn & <-).
    destruct (first_such (fun d => fi_slots f !! pos f k d = Some EMPTY) n Hb)
      as (d & Hd & He & Hne).
    exists d. split; [lia|]. split; [|by left]. intros i Hi. split; [by apply Hne|].
    intros s Hl. apply (fr_live _ _ Hr) in Hl. congruence.
Qed.

(** What a loop sees at a bucket. *)
Lemma at_index_some {A} (l : list A) i x : l !! i = Some x -> at_index l i = Ok x.
Proof. intros H. unfold at_index. by rewrite H. Qed.

Lemma slot_kinds s : s =? EMPTY = true \/ s =? EMPTY = false /\ s =? TOMB = true \/ is_live s = true.
Proof. unfold is_live. destruct (s =? EMPTY), (s =? TOMB); auto. Qed.

Lemma is_live_iff s : is_live s = true <-> (s =? EMPTY) = false /\ (s =? TOMB) = false.
Proof. unfold is_live. destruct (s =? EMPTY), (s =? TOMB); simpl; naive_solver. Qed.

(** A passed bucket is a tombstone or holds another key. *)
Lemma passes_cases f k d :
  flat_shape f -> passes f k d ->
  fi_slots f !! pos f k d = Some TOMB \/
  exists k' s, live_at f (pos f k d) k' s /\ k' ≠ k.
Proof.
  intros Hs [Hne Hk]. destruct (slot_at_pos f k d Hs) as [s Es]. destruct (key_at_pos f k d Hs) as [k' Ek].
  destruct (slot_kinds s) as [He|[[_ Ht]|Hl]].
  - bool_simpl. congruence.
  - bool_simpl. left. congruence.
  - right. exists k', s. split; [done|]. intros ->. by apply (Hk s).
Qed.

Lemma get_loop_walk f k fuel i n :
  flat_shape f -> (forall j, (i <= j < i + n)%nat -> passes f k j) ->
  get_loop (n + fuel) f k (pos f k i) = get_loop fuel f k (pos f k (i + n)).
Proof.
  intros Hs. revert i. induction n as [|n IH]; intros i H; [by rewrite Nat.add_0_r|].
  cbn [Nat.add get_loop]. rewrite next_bucket_pos by done.
  assert (IH' : get_loop (n + fuel) f k (pos f k (S i)) = get_loop fuel f k (pos f k (i + S n))).
  { rewrite IH; [f_equal; f_equal; lia|]. intros j Hj. apply H. lia. }
  destruct (passes_cases f k i Hs) as [Et|(k' & s & (Es & Hl & Ek) & Hne)]; [apply H; lia| |].
  - rewrite (at_index_some _ _ _ Et). cbn [mbind result_bind outcome_bind]. exact IH'.
  - apply is_live_iff in Hl as [E1 E2]. rewrite (at_index_some _ _ _ Es).
    cbn [mbind result_bind outcome_bind]. rewrite E1, E2, (at_index_some _ _ _ Ek).
    cbn [mbind result_bind outcome_bind]. rewrite (proj2 (N.eqb_neq _ _)) by done. exact IH'.
Qed.

Lemma remove_loop_walk f k fuel i n :
  flat_shape f -> (forall j, (i <= j < i + n)%nat -> passes f k j) ->
  remove_loop (n + fuel) f k (pos f k i) = remove_loop fuel f k (pos f k (i + n)).
Proof.
  intros Hs. revert i. induction n as [|n IH]; intros i H; [by rewrite Nat.add_0_r|].
  cbn [Nat.add remove_loop]. rewrite next_bucket_pos by done.
  assert (IH' : remove_loop (n + fuel) f k (pos f k (S i)) = remove_loop fuel f k (pos f k (i + S n))).
  { rewrite IH; [f_equal; f_equal; lia|]. intros j Hj. apply H. lia. }
  destruct (passes_cases f k i Hs) as [Et|(k' & s & (Es & Hl & Ek) & Hne)]; [apply H; lia| |].
  - rewrite (at_index_some _ _ _ Et). cbn [mbind result_bind outcome_bind]. exact IH'.
  - apply is_live_iff in Hl as [E1 E2]. rewrite (at_index_some _ _ _ Es).
    cbn [mbind result_bind outcome_bind]. rewrite E1, E2, (at_index_some _ _ _ Ek).
    cbn [mbind result_bind outcome_bind]. rewrite (proj2 (N.eqb_neq _ _)) by done. exact IH'.
Qed.

(** The first tombstone passed, when none was passed before. *)
Definition seen (f : FlatIndex) (k : N) (i n : nat) (ia ia' : option nat) : Prop :=
  ia' = ia \/
  ia = None /\ exists j, (i <= j < i + n)%nat /\ ia' = Some (pos f k j) /\
    fi_slots f !! pos f k j = Some TOMB.

Lemma insert_loop_walk f k s fuel i n ia :
  flat_shape f -> (forall j, (i <= j < i + n)%nat -> passes f k j) ->
  exists ia', seen f k i n ia ia' /\
    insert_loop (n + fuel) f k s ia (pos f k i) = insert_loop fuel f k s ia' (pos f k (i + n)).
Proof.
  intros Hs. revert i ia. induction n as [|n IH]; intros i ia H.
  { exists ia. rewrite Nat.add_0_r. split; [by left|done]. }
  cbn [Nat.add insert_loop]. rewrite next_bucket_pos by done.
  assert (IH' : forall ia, exists ia', seen f k (S i) n ia ia' /\
    insert_loop (n + fuel) f k s ia (pos f k (S i)) = insert_loop fuel f k s ia' (pos f k (i + S n))).
  { intros ia0. destruct (IH (S i) ia0) as (ia' & Hseen & E); [intros j Hj; apply H; lia|].
    exists ia'. split; [done|]. rewrite E. f_equal. f_equal. lia. }
  destruct (passes_cases f k i Hs) as [Et|(k' & s' & (Es & Hl & Ek) & Hne)]; [apply H; lia| |].
  - rewrite (at_index_some _ _ _ Et). cbn [mbind result_bind outcome_bind].
    change (TOMB =? EMPTY) with false. change (TOMB =? TOMB) with true. cbv iota.
    destruct (IH' (match ia with None => Some (pos f k i) | Some _ => ia end))
      as (ia' & Hseen & E). exists ia'. split; [|exact E].
    destruct ia as [p|].
    + destruct Hseen as [->|[? _]]; [by left|done].
    + destruct Hseen as [->|[? _]]; [|done]. right. split; [done|]. exists i. split; [lia|done].
  - apply is_live_iff in Hl as [E1 E2]. rewrite (at_index_some _ _ _ Es).
    cbn [mbind result_bind outcome_bind]. rewrite E1, E2, (at_index_some _ _ _ Ek).
    cbn [mbind result_bind outcome_bind]. rewrite (proj2 (N.eqb_neq _ _)) by done.
    destruct (IH' ia) as (ia' & Hseen & E). exists ia'. split; [|exact E].
    destruct Hseen as [->|(-> & j & Hj & -> & Hjt)]; [by left|right]. split; [done|].
    exists j. split; [lia|done].
Qed.

Lemma fuel_split f (d : nat) : (d < cap f)%nat -> cap f = (d + S (cap f - S d))%nat.
Proof. lia. Qed.

Lemma flat_get_spec f m k : flat_rep f m -> flat_get f k = Ok (m !! k).
Proof.
  intros Hr. pose proof (fr_shape _ _ Hr) as Hs. unfold flat_get. rewrite <- (pos_0 f k Hs).
  destruct (probe_cases f m k Hr) as (d & Hd & Hp & Hend).
  rewrite (fuel_split f d Hd), (get_loop_walk f k _ 0 d Hs) by (intros j Hj; apply Hp; lia).
  cbn [Nat.add get_loop]. destruct Hend as [[-> He]|(s & -> & Es & Hl & Ek)].
  - by rewrite (at_index_some _ _ _ He).
  - apply is_live_iff in Hl as [E1 E2]. rewrite (at_index_some _ _ _ Es).
    cbn [mbind result_bind outcome_bind]. rewrite E1, E2, (at_index_some _ _ _ Ek).
    cbn [mbind result_bind outcome_bind]. by rewrite N.eqb_refl.
Qed.

(** ** Updates of one bucket *)

Section bucket_update.
Context (f f' : FlatIndex) (m : gmap N N) (p : nat) (old new : N).
Context (Hr : flat_rep f m).
Context (Hold : fi_slots f !! p = Some old).
Context (Hmask : fi_mask f' = fi_mask f) (Hseed : fi_seed f' = fi_seed f).
Context (Hslots : fi_slots f' = <[p := new]> (fi_slots f)).
Context (Hkeys : length (fi_keys f') = length (fi_keys f)).
Context (Hother : forall b, b ≠ p -> fi_keys f' !! b = fi_keys f !! b).

Lemma upd_shape : flat_shape f'.
Proof using Hr Hmask Hslots Hkeys.
  destruct (fr_shape _ _ Hr) as [H1 H2 H3 H4]. split; rewrite ?Hmask, ?Hkeys; try done.
  by rewrite Hslots, length_insert.
Qed.

Lemma upd_pos k d : pos f' k d = pos f k d.
Proof using Hmask Hseed. unfold pos, bucket, masked. by rewrite Hmask, Hseed. Qed.

Lemma upd_slot_p : fi_slots f' !! p = Some new.
Proof using Hold Hslots. rewrite Hslots. apply list_lookup_insert_eq. by eapply lookup_lt_Some. Qed.

Lemma upd_slot_other b : b ≠ p -> fi_slots f' !! b = fi_slots f !! b.
Proof using Hslots. intros H. rewrite Hslots. by apply list_lookup_insert_ne. Qed.

Lemma upd_live_other b k s : b ≠ p -> live_at f' b k s <-> live_at f b k s.
Proof using Hslots Hother. intros H. unfold live_at. by rewrite upd_slot_other, Hother. Qed.

(** No bucket becomes empty. *)
Lemma upd_nonempty b :
  new ≠ EMPTY -> fi_slots f !! b ≠ Some EMPTY -> fi_slots f' !! b ≠ Some EMPTY.
Proof using Hold Hslots.
  intros Hn H. destruct (decide (b = p)) as [->|Hne].
  - rewrite upd_slot_p. congruence.
  - by rewrite upd_slot_other.
Qed.

Lemma upd_count q :
  (count_if q (fi_slots f') + (if q old then 1 else 0)
   = count_if q (fi_slots f) + (if q new then 1 else 0))%nat.
Proof using Hold Hslots. rewrite Hslots. by apply count_if_insert. Qed.
End bucket_update.

Lemma tomb_not_live : is_live TOMB = false.
Proof. done. Qed.

(** Removing the key of a bucket. *)
Lemma rep_remove f m p k s :
  flat_rep f m -> live_at f p k s ->
  flat_rep (mkFlatIndex (fi_keys f) (<[p := TOMB]> (fi_slots f)) (fi_mask f) (fi_live f - 1)
              (fi_tombs f + 1) (fi_seed f)) (delete k m).
Proof.
  intros Hr Hl. pose proof Hl as (Es & Hlive & Ek). set (f' := mkFlatIndex _ _ _ _ _ _).
  assert (L : fi_live f' = (fi_live f - 1)%nat) by done.
  assert (T : fi_tombs f' = (fi_tombs f + 1)%nat) by done.
  assert (K : fi_mask f' = fi_mask f) by done.
  pose proof (fr_live _ _ Hr _ _ _ Hl) as Hm.
  assert (Hsz : size m = S (size (delete k m))).
  { rewrite map_size_delete_Some by (by eexists). pose proof (map_size_ne_0_lookup_2 m k).
    assert (size m ≠ 0%nat) by (apply map_size_non_empty_iff; intros ->; by rewrite lookup_empty in Hm).
    lia. }
  pose proof (upd_count f f' p s TOMB Es eq_refl is_live) as Cl.
  pose proof (upd_count f f' p s TOMB Es eq_refl is_tomb) as Ct.
  rewrite Hlive in Cl. change (is_live TOMB) with false in Cl. change (is_tomb TOMB) with true in Ct.
  assert (is_tomb s = false) as Hst.
  { apply is_live_iff in Hlive as [_ Ht]. exact Ht. } rewrite Hst in Ct. cbv iota in Cl, Ct.
  split.
  - by apply (upd_shape f f' m p TOMB Hr).
  - intros b k' s' Hb. destruct (decide (b = p)) as [->|Hne].
    + destruct Hb as (Eb & Hlb & _). rewrite (upd_slot_p f f' p s TOMB Es eq_refl) in Eb.
      by simplify_eq.
    + apply (upd_live_other f f' p TOMB eq_refl (fun b _ => eq_refl)) in Hb; [|done].
      rewrite lookup_delete_ne; [by apply (fr_live _ _ Hr) in Hb|].
      intros ->. apply Hne. by apply (fr_uniq _ _ Hr _ _ _ _ _ Hb Hl).
  - intros b b' k' s1 s2 H1 H2.
    assert (Hnp : forall b s, live_at f' b k' s -> b ≠ p).
    { intros b0 s0 (Eb & Hlb & _) ->. rewrite (upd_slot_p f f' p s TOMB Es eq_refl) in Eb.
      by simplify_eq. }
    pose proof (Hnp _ _ H1). pose proof (Hnp _ _ H2).
    apply (upd_live_other f f' p TOMB eq_refl (fun b _ => eq_refl)) in H1, H2; try done.
    by apply (fr_uniq _ _ Hr _ _ _ _ _ H1 H2).
  - intros k' s' Hk'. apply lookup_delete_Some in Hk' as [Hne Hk'].
    destruct (fr_found _ _ Hr _ _ Hk') as (d & Hd & Hld & Hnd). exists d. split; [done|].
    rewrite (upd_pos f f' eq_refl eq_refl). split.
    + apply (upd_live_other f f' p TOMB eq_refl (fun b _ => eq_refl)); [|done].
      intros E. rewrite E in Hld. destruct Hld as (_ & _ & Ek'). congruence.
    + intros i Hi. rewrite (upd_pos f f' eq_refl eq_refl).
      apply (upd_nonempty f f' p s TOMB Es eq_refl); [done|]. by apply Hnd.
  - rewrite L, (fr_count _ _ Hr). lia.
  - rewrite L, (fr_size _ _ Hr). lia.
  - rewrite T, (fr_tombs _ _ Hr). lia.
  - pose proof (fr_load _ _ Hr). pose proof (fr_size _ _ Hr). rewrite L, T, K. lia.
Qed.

(** Overwriting the slot of a key. *)
Lemma rep_overwrite f m p k s s' :
  flat_rep f m -> live_at f p k s -> is_live s' = true ->
  flat_rep (mkFlatIndex (fi_keys f) (<[p := s']> (fi_slots f)) (fi_mask f) (fi_live f)
              (fi_tombs f) (fi_seed f)) (<[k := s']> m).
Proof.
  intros Hr Hl Hs'. pose proof Hl as (Es & Hlive & Ek). set (f' := mkFlatIndex _ _ _ _ _ _).
  assert (L : fi_live f' = (fi_live f)%nat) by done.
  assert (T : fi_tombs f' = (fi_tombs f)%nat) by done.
  assert (K : fi_mask f' = fi_mask f) by done.
  pose proof (fr_live _ _ Hr _ _ _ Hl) as Hm.
  pose proof (upd_count f f' p s s' Es eq_refl is_live) as Cl.
  pose proof (upd_count f f' p s s' Es eq_refl is_tomb) as Ct.
  rewrite Hlive, Hs' in Cl. pose proof Hs' as [He' Ht']%is_live_iff.
  pose proof Hlive as [He Ht]%is_live_iff. unfold is_tomb at 2 4 in Ct. rewrite Ht, Ht' in Ct. cbv iota in Cl, Ct.
  assert (Hnk : forall b, b ≠ p -> forall s0, live_at f b k s0 -> False).
  { intros b Hb s0 H0. apply Hb. by apply (fr_uniq _ _ Hr _ _ _ _ _ H0 Hl). }
  assert (Hlp : forall k0 s0, live_at f' p k0 s0 -> k0 = k /\ s0 = s').
  { intros k0 s0 (E1 & _ & E2). rewrite (upd_slot_p f f' p s s' Es eq_refl) in E1.
    cbn in E2. split; congruence. }
  pose proof (upd_live_other f f' p s' eq_refl (fun b _ => eq_refl)) as Hlo.
  split.
  - by apply (upd_shape f f' m p s' Hr).
  - intros b k0 s0 Hb. destruct (decide (b = p)) as [->|Hne].
    + destruct (Hlp _ _ Hb) as [-> ->]. apply lookup_insert_eq.
    + apply Hlo in Hb; [|done]. rewrite lookup_insert_ne; [by apply (fr_live _ _ Hr) in Hb|].
      intros ->. by eapply Hnk.
  - intros b b' k0 s1 s2 H1 H2.
    destruct (decide (b = p)) as [->|Hb], (decide (b' = p)) as [->|Hb']; [done|..].
    + destruct (Hlp _ _ H1) as [-> ->]. apply Hlo in H2; [|done]. by destruct (Hnk _ Hb' _ H2).
    + destruct (Hlp _ _ H2) as [-> ->]. apply Hlo in H1; [|done]. by destruct (Hnk _ Hb _ H1).
    + apply Hlo in H1, H2; try done. by apply (fr_uniq _ _ Hr _ _ _ _ _ H1 H2).
  - intros k0 s0 Hk0.
    assert (exists s1, m !! k0 = Some s1) as [s1 Hs1].
    { destruct (decide (k0 = k)) as [->|]; [eauto|]. rewrite lookup_insert_ne in Hk0; eauto. }
    destruct (fr_found _ _ Hr _ _ Hs1) as (d & Hd & Hld & Hnd). exists d. split; [done|].
    rewrite (upd_pos f f' eq_refl eq_refl). split.
    + destruct (decide (k0 = k)) as [->|Hne].
      * rewrite lookup_insert_eq in Hk0. simplify_eq.
        rewrite (fr_uniq _ _ Hr _ _ _ _ _ Hld Hl).
        split; [by apply (upd_slot_p f f' p s s0 Es)|done].
      * rewrite lookup_insert_ne in Hk0 by done. simplify_eq. apply Hlo; [|done].
        intros E. rewrite E in Hld. destruct Hld as (_ & _ & Ek'). congruence.
    + intros i Hi. rewrite (upd_pos f f' eq_refl eq_refl).
      apply (upd_nonempty f f' p s s' Es eq_refl); [|by apply Hnd]. bool_simpl. done.
  - rewrite L, (fr_count _ _ Hr). lia.
  - rewrite L, (fr_size _ _ Hr). by rewrite map_size_insert_Some.
  - rewrite T, (fr_tombs _ _ Hr). lia.
  - rewrite L, T, K. exact (fr_load _ _ Hr).
Qed.

(** Placing a new key in a bucket that holds none. *)
Lemma rep_place f m k s j old :
  flat_rep f m -> m !! k = None -> is_live s = true ->
  ((fi_live f + fi_tombs f + 1) * 8 <= cap f * 7)%nat ->
  (j < cap f)%nat -> (forall i, (i < j)%nat -> fi_slots f !! pos f k i ≠ Some EMPTY) ->
  fi_slots f !! pos f k j = Some old -> is_live old = false ->
  flat_rep (mkFlatIndex (<[pos f k j := k]> (fi_keys f)) (<[pos f k j := s]> (fi_slots f))
              (fi_mask f) (fi_live f + 1)
              (if old =? TOMB then fi_tombs f - 1 else fi_tombs f) (fi_seed f)) (<[k := s]> m).
Proof.
  intros Hr Hm Hs Hload Hj Hpath Es Hold. set (p := pos f k j) in *.
  set (f' := mkFlatIndex _ _ _ _ _ _).
  assert (L : fi_live f' = (fi_live f + 1)%nat) by done.
  assert (T : fi_tombs f' = if old =? TOMB then (fi_tombs f - 1)%nat else fi_tombs f) by done.
  assert (K : fi_mask f' = fi_mask f) by done.
  pose proof (upd_count f f' p old s Es eq_refl is_live) as Cl.
  pose proof (upd_count f f' p old s Es eq_refl is_tomb) as Ct.
  rewrite Hs, Hold in Cl. pose proof Hs as [He' Ht']%is_live_iff.
  unfold is_tomb at 2 4 in Ct. rewrite Ht' in Ct. cbv iota in Cl, Ct.
  assert (Hnk : forall b s0, live_at f b k s0 -> False).
  { intros b s0 H0. apply (fr_live _ _ Hr) in H0. congruence. }
  assert (Hother : forall b, b ≠ p -> fi_keys f' !! b = fi_keys f !! b).
  { intros b Hb. by apply list_lookup_insert_ne. }
  assert (Hkp : fi_keys f' !! p = Some k).
  { apply list_lookup_insert_eq. rewrite (fs_keys _ (fr_shape _ _ Hr)). apply pos_lt. }
  assert (Hlp : forall k0 s0, live_at f' p k0 s0 -> k0 = k /\ s0 = s).
  { intros k0 s0 (E1 & _ & E2). rewrite (upd_slot_p f f' p old s Es eq_refl) in E1.
    split; congruence. }
  pose proof (upd_live_other f f' p s eq_refl Hother) as Hlo.
  split.
  - apply (upd_shape f f' m p s Hr); [done|done|]. cbn. by rewrite length_insert.
  - intros b k0 s0 Hb. destruct (decide (b = p)) as [->|Hne].
    + destruct (Hlp _ _ Hb) as [-> ->]. apply lookup_insert_eq.
    + apply Hlo in Hb; [|done]. rewrite lookup_insert_ne; [by apply (fr_live _ _ Hr) in Hb|].
      intros ->. by eapply Hnk.
  - intros b b' k0 s1 s2 H1 H2.
    destruct (decide (b = p)) as [->|Hb], (decide (b' = p)) as [->|Hb']; [done|..].
    + destruct (Hlp _ _ H1) as [-> ->]. apply Hlo in H2; [|done]. by destruct (Hnk _ _ H2).
    + destruct (Hlp _ _ H2) as [-> ->]. apply Hlo in H1; [|done]. by destruct (Hnk _ _ H1).
    + apply Hlo in H1, H2; try done. by apply (fr_uniq _ _ Hr _ _ _ _ _ H1 H2).
  - intros k0 s0 Hk0. destruct (decide (k0 = k)) as [->|Hne].
    + rewrite lookup_insert_eq in Hk0. simplify_eq. exists j. split; [done|].
      rewrite (upd_pos f f' eq_refl eq_refl). split.
      * split; [by apply (upd_slot_p f f' p old s0 Es)|done].
      * intros i Hi. rewrite (upd_pos f f' eq_refl eq_refl).
        apply (upd_nonempty f f' p old s0 Es eq_refl); [by bool_simpl|]. by apply Hpath.
    + rewrite lookup_insert_ne in Hk0 by done.
      destruct (fr_found _ _ Hr _ _ Hk0) as (d & Hd & Hld & Hnd). exists d. split; [done|].
      rewrite (upd_pos f f' eq_refl eq_refl). split.
      * apply Hlo; [|done]. intros E. rewrite E in Hld. destruct Hld as (E1 & Hl1 & _). congruence.
      * intros i Hi. rewrite (upd_pos f f' eq_refl eq_refl).
        apply (upd_nonempty f f' p old s Es eq_refl); [by bool_simpl|]. by apply Hnd.
  - rewrite L, (fr_count _ _ Hr). lia.
  - rewrite L, (fr_size _ _ Hr). rewrite map_size_insert_None by done. lia.
  - rewrite T, (fr_tombs _ _ Hr). destruct (old =? TOMB); lia.
  - rewrite L, T, K. destruct (old =? TOMB); lia.
Qed.

Lemma update_at_some {A} (l : list A) i x y : l !! i = Some x -> update_at l i y = Ok (<[i := y]> l).
Proof. intros H. unfold update_at. by rewrite (at_index_some _ _ _ H). Qed.

(** ** The operations *)

Definition room (f : FlatIndex) : Prop := ((fi_live f + fi_tombs f + 1) * 8 <= cap f * 7)%nat.

Lemma insert_loop_spec f m k s :
  flat_rep f m -> is_live s = true -> room f ->
  exists f', insert_loop (cap f) f k s None (bucket f k) = Ok f' /\
    flat_rep f' (<[k := s]> m) /\ fi_mask f' = fi_mask f /\ fi_seed f' = fi_seed f /\
    (fi_tombs f' <= fi_tombs f)%nat.
Proof.
  intros Hr Hs Hroom. pose proof (fr_shape _ _ Hr) as Hsh. rewrite <- (pos_0 f k Hsh).
  destruct (probe_cases f m k Hr) as (d & Hd & Hp & Hend).
  rewrite (fuel_split f d Hd).
  destruct (insert_loop_walk f k s (S (cap f - S d)) 0 d None Hsh) as (ia & Hia & ->).
  { intros j Hj. apply Hp. lia. }
  cbn [Nat.add insert_loop]. destruct Hend as [[Hm He]|(s0 & Hm & Hl)].
  - rewrite (at_index_some _ _ _ He). cbn [mbind result_bind outcome_bind].
    change (EMPTY =? EMPTY) with true. cbv iota.
    assert (exists j old, default (pos f k d) ia = pos f k j /\ (j <= d)%nat /\
      fi_slots f !! pos f k j = Some old /\ is_live old = false) as (j & old & -> & Hj & Eo & Ho).
    { destruct Hia as [->|(_ & j & Hj & -> & Et)].
      - exists d, EMPTY. by repeat split.
      - exists j, TOMB. repeat split; [lia|done]. }
    rewrite (at_index_some _ _ _ Eo). cbn [mbind result_bind outcome_bind].
    destruct (key_at_pos f k j Hsh) as [k0 Ek].
    rewrite (update_at_some _ _ _ _ Ek). cbn [mbind result_bind outcome_bind].
    rewrite (update_at_some _ _ _ _ Eo). cbn [mbind result_bind outcome_bind].
    eexists. split; [reflexivity|]. split.
    + apply (rep_place f m k s j old); try done; [lia|]. intros i Hi. apply Hp. lia.
    + cbn. destruct (old =? TOMB); repeat split; lia.
  - pose proof Hl as (Es & Hlive & Ek). apply is_live_iff in Hlive as [E1 E2].
    rewrite (at_index_some _ _ _ Es). cbn [mbind result_bind outcome_bind].
    rewrite E1, E2, (at_index_some _ _ _ Ek). cbn [mbind result_bind outcome_bind].
    rewrite N.eqb_refl, (update_at_some _ _ _ _ Es). cbn [mbind result_bind outcome_bind].
    eexists. split; [reflexivity|]. split; [by eapply rep_overwrite|done].
Qed.

Lemma flat_remove_spec f m k :
  flat_rep f m ->
  exists f', flat_remove k f = Ok (f', m !! k) /\ flat_rep f' (delete k m).
Proof.
  intros Hr. pose proof (fr_shape _ _ Hr) as Hsh. unfold flat_remove. rewrite <- (pos_0 f k Hsh).
  destruct (probe_cases f m k Hr) as (d & Hd & Hp & Hend).
  rewrite (fuel_split f d Hd), (remove_loop_walk f k _ 0 d Hsh) by (intros j Hj; apply Hp; lia).
  cbn [Nat.add remove_loop]. destruct Hend as [[Hm He]|(s0 & Hm & Hl)].
  - rewrite (at_index_some _ _ _ He), Hm. exists f. split; [done|]. by rewrite delete_id.
  - pose proof Hl as (Es & Hlive & Ek). apply is_live_iff in Hlive as [E1 E2].
    rewrite (at_index_some _ _ _ Es). cbn [mbind result_bind outcome_bind].
    rewrite E1, E2, (at_index_some _ _ _ Ek). cbn [mbind result_bind outcome_bind].
    rewrite N.eqb_refl, (update_at_some _ _ _ _ Es), Hm. cbn [mbind result_bind outcome_bind].
    eexists. split; [reflexivity|]. by eapply rep_remove.
Qed.

Lemma capacity_rep seed n : (3 <= n)%nat -> flat_rep (with_capacity_pow2 seed (2 ^ n)) ∅.
Proof.
  intros Hn. assert (8 <= 2 ^ n)%nat as H8 by (change 8%nat with (2 ^ 3)%nat; apply Nat.pow_le_mono_r; lia).
  assert (C : cap (with_capacity_pow2 seed (2 ^ n)) = (2 ^ n)%nat) by (cbn [fi_mask with_capacity_pow2]; lia).
  assert (Hno : forall b k s, ~ live_at (with_capacity_pow2 seed (2 ^ n)) b k s).
  { intros b k s (E & Hl & _). cbn in E. apply lookup_replicate in E as [-> _]. done. }
  split.
  - split; rewrite ?C; [by exists n|done|apply length_replicate..].
  - intros b k s H. by destruct (Hno _ _ _ H).
  - intros b b' k s s' H. by destruct (Hno _ _ _ H).
  - intros k s H. by rewrite lookup_empty in H.
  - cbn. by rewrite count_if_replicate.
  - cbn. by rewrite map_size_empty.
  - cbn. by rewrite count_if_replicate.
  - rewrite C. cbn. lia.
Qed.

(** The table that a rehash builds: the entries of the buckets done so far. *)
Record rehashed (f next : FlatIndex) (m' : gmap N N) (done : list nat) (c : nat) : Prop := {
  rh_rep : flat_rep next m';
  rh_from : forall k s, m' !! k = Some s -> exists b, b ∈ done /\ live_at f b k s;
  rh_all : forall b k s, b ∈ done -> live_at f b k s -> m' !! k = Some s;
  rh_cap : cap next = c;
  rh_seed : fi_seed next = fi_seed f;
  rh_tombs : fi_tombs next = 0%nat
}.

(** The new table has room for every entry of the old one. *)
Lemma rehashed_room f m next m' done c b k s :
  flat_rep f m -> (size m * 8 <= c * 7)%nat -> rehashed f next m' done c ->
  b ∉ done -> live_at f b k s -> room next.
Proof.
  intros Hr Hc Hh Hb Hl.
  assert (Hnone : m' !! k = None).
  { destruct (m' !! k) eqn:Em; [|done]. apply (rh_from _ _ _ _ _ Hh) in Em as (b' & Hb' & Hl').
    by pose proof (fr_uniq _ _ Hr _ _ _ _ _ Hl Hl') as ->. }
  assert (Hsz : size (<[k := s]> m') = S (size m')) by (by apply map_size_insert_None).
  assert (Hsub : (size (<[k := s]> m') <= size m)%nat).
  { apply map_subseteq_size, map_subseteq_spec. intros k1 s1 H1.
    destruct (decide (k1 = k)) as [->|Hne].
    - rewrite lookup_insert_eq in H1. simplify_eq. by apply (fr_live _ _ Hr _ _ _ Hl).
    - rewrite lookup_insert_ne in H1 by done.
      apply (rh_from _ _ _ _ _ Hh) in H1 as (b1 & _ & Hl1). by apply (fr_live _ _ Hr _ _ _ Hl1). }
  unfold room. rewrite (rh_tombs _ _ _ _ _ Hh), (rh_cap _ _ _ _ _ Hh),
    (fr_size _ _ (rh_rep _ _ _ _ _ Hh)). lia.
Qed.

Lemma rehashed_insert f m next m' done c b k s n :
  flat_rep f m -> (size m * 8 <= c * 7)%nat -> rehashed f next m' done c ->
  b ∉ done -> live_at f b k s ->
  exists next', insert_with (S n) k s next = Ok next' /\
    rehashed f next' (<[k := s]> m') (done ++ [b]) c.
Proof.
  intros Hr Hc Hh Hb Hl. pose proof (rehashed_room _ _ _ _ _ _ _ _ _ Hr Hc Hh Hb Hl) as Hroom.
  destruct Hl as (Es & Hlive & Ek).
  destruct (insert_loop_spec next m' k s (rh_rep _ _ _ _ _ Hh) Hlive Hroom)
    as (next' & E & Hr' & Hmask & Hseed & Ht).
  exists next'. split.
  { cbn [insert_with]. rewrite (proj2 (Nat.ltb_ge _ _)) by exact Hroom. exact E. }
  split; [done|..].
  - intros k1 s1 H1. destruct (decide (k1 = k)) as [->|Hne].
    + rewrite lookup_insert_eq in H1. simplify_eq. exists b. split; [|done].
      apply elem_of_app. right. by left.
    + rewrite lookup_insert_ne in H1 by done.
      apply (rh_from _ _ _ _ _ Hh) in H1 as (b1 & Hb1 & ?). exists b1.
      split; [|done]. apply elem_of_app. by left.
  - intros b1 k1 s1 Hb1 Hl1. apply elem_of_app in Hb1 as [Hb1|Hb1%list_elem_of_singleton].
    + pose proof (rh_all _ _ _ _ _ Hh _ _ _ Hb1 Hl1) as Hm1. rewrite lookup_insert_ne; [done|].
      intros ->. apply Hb. by rewrite (fr_uniq _ _ Hr b b1 k1 s s1).
    + subst b1. destruct Hl1 as (E1 & _ & E2). simplify_eq. apply lookup_insert_eq.
  - rewrite Hmask. apply (rh_cap _ _ _ _ _ Hh).
  - rewrite Hseed. apply (rh_seed _ _ _ _ _ Hh).
  - pose proof (rh_tombs _ _ _ _ _ Hh). lia.
Qed.

Lemma rehashed_skip f next m' done c b s :
  rehashed f next m' done c -> fi_slots f !! b = Some s -> is_live s = false ->
  rehashed f next m' (done ++ [b]) c.
Proof.
  intros [H1 H2 H3 H4 H5 H6] Es Hl. split; try done.
  - intros k1 s1 Hk. destruct (H2 _ _ Hk) as (b1 & ? & ?). exists b1.
    split; [|done]. apply elem_of_app. by left.
  - intros b1 k1 s1 Hb1 Hl1. apply elem_of_app in Hb1 as [Hb1|Hb1%list_elem_of_singleton]; [eauto|].
    subst b1. destruct Hl1 as (E1 & Hl1 & _). congruence.
Qed.

Lemma rehash_loop_spec n f m rest done next m' c :
  flat_rep f m -> (size m * 8 <= c * 7)%nat -> rehashed f next m' done c ->
  NoDup (done ++ rest) -> (forall b, b ∈ rest -> (b < cap f)%nat) ->
  exists next' m'', rehash_loop (insert_with (S n)) f rest next = Ok next' /\
    rehashed f next' m'' (done ++ rest) c.
Proof.
  intros Hr Hc. revert done next m'. induction rest as [|b rest IH]; intros done next m' Hh Hnd Hlt.
  { exists next, m'. rewrite app_nil_r. done. }
  cbn [rehash_loop]. pose proof (fr_shape _ _ Hr) as Hsh.
  assert (b < cap f)%nat as Hb by (apply Hlt; left).
  destruct (lookup_lt_is_Some_2 (fi_slots f) b) as [s Es]; [by rewrite (fs_slots _ Hsh)|].
  destruct (lookup_lt_is_Some_2 (fi_keys f) b) as [k Ek]; [by rewrite (fs_keys _ Hsh)|].
  rewrite (at_index_some _ _ _ Es). cbn [mbind result_bind outcome_bind].
  change (negb (s =? EMPTY) && negb (s =? TOMB)) with (is_live s).
  assert (Hnext : exists next' m1,
    (if is_live s then k ← at_index (fi_keys f) b; insert_with (S n) k s next else Ok next) = Ok next' /\
    rehashed f next' m1 (done ++ [b]) c).
  { destruct (is_live s) eqn:Hl.
    - rewrite (at_index_some _ _ _ Ek).
      destruct (rehashed_insert f m next m' done c b k s n Hr Hc Hh) as (next' & E & Hh'); [|done|eauto].
      apply NoDup_app in Hnd as (_ & Hdis & _). intros Hin. destruct (Hdis _ Hin). left.
    - exists next, m'. split; [done|]. by eapply rehashed_skip. }
  destruct Hnext as (next' & m1 & -> & Hh1). cbn [mbind result_bind outcome_bind].
  destruct (IH (done ++ [b]) next' m1) as (next'' & m2 & E2 & Hh2); [done|..].
  - by rewrite <- app_assoc.
  - intros b' Hb'. apply Hlt. by right.
  - exists next'', m2. rewrite <- app_assoc in Hh2. done.
Qed.

Lemma rehash_spec n f m e :
  flat_rep f m -> (3 <= e)%nat -> (size m * 8 <= 2 ^ e * 7)%nat ->
  exists f', rehash_with (insert_with (S n)) f (2 ^ e) = Ok f' /\ flat_rep f' m /\
    cap f' = (2 ^ e)%nat /\ fi_tombs f' = 0%nat.
Proof.
  intros Hr He Hc. unfold rehash_with.
  assert (Hp : (0 < 2 ^ e)%nat) by (apply Nat.neq_0_lt_0, Nat.pow_nonzero; lia).
  destruct (rehash_loop_spec n f m (seq 0 (cap f)) [] (with_capacity_pow2 (fi_seed f) (2 ^ e)) ∅ (2 ^ e))
    as (f' & m' & E & Hh); [done|done|..].
  - split; [by apply capacity_rep|..].
    + intros k s H. by rewrite lookup_empty in H.
    + intros b k s H. by apply not_elem_of_nil in H.
    + cbn [fi_mask with_capacity_pow2]. lia.
    + done.
    + done.
  - apply NoDup_seq.
  - intros b Hb. apply elem_of_seq in Hb. lia.
  - exists f'. split; [exact E|]. destruct Hh as [H1 H2 H3 H4 H5 H6].
    assert (m' = m) as ->; [|done]. apply map_eq. intros k. apply option_eq. intros s. split.
    + intros Hk. destruct (H2 _ _ Hk) as (b & _ & Hl). by apply (fr_live _ _ Hr _ _ _ Hl).
    + intros Hk. destruct (fr_found _ _ Hr _ _ Hk) as (d & Hd & Hl & _). eapply H3; [|exact Hl].
      cbn [app]. apply elem_of_seq. pose proof (pos_lt f k d). lia.
Qed.

(** A full table grows, and then has room. *)
Lemma grow_spec n f m :
  flat_rep f m -> exists f', grow_with (insert_with (S n)) f = Ok f' /\ flat_rep f' m /\ room f'.
Proof.
  intros Hr. pose proof (fr_shape _ _ Hr) as Hsh. destruct (fs_pow _ Hsh) as [e He].
  pose proof (fs_min _ Hsh) as Hmin. pose proof (fr_load _ _ Hr) as Hload.
  pose proof (fr_size _ _ Hr) as Hsz.
  assert (3 <= e)%nat as He3.
  { apply (Nat.pow_le_mono_r_iff 2); [lia|]. change (2 ^ 3)%nat with 8%nat. lia. }
  unfold grow_with. destruct (cap f <=? fi_live f * 4)%nat eqn:Eg.
  - rewrite He. replace (2 ^ e * 2)%nat with (2 ^ S e)%nat by (cbn; lia).
    destruct (rehash_spec n f m (S e) Hr) as (f' & E & Hr' & Hcap & Ht); [lia| |].
    { rewrite <- Hsz. cbn [Nat.pow]. lia. }
    exists f'. split; [done|]. split; [done|]. unfold room.
    rewrite (fr_size _ _ Hr'), Ht, Hcap, <- Hsz. cbn [Nat.pow]. lia.
  - bool_simpl. rewrite He.
    destruct (rehash_spec n f m e Hr) as (f' & E & Hr' & Hcap & Ht); [done|lia|].
    exists f'. split; [done|]. split; [done|]. unfold room.
    rewrite (fr_size _ _ Hr'), Ht, Hcap, <- Hsz. lia.
Qed.

Lemma flat_insert_spec f m k s :
  flat_rep f m -> is_live s = true ->
  exists f', flat_insert k s f = Ok f' /\ flat_rep f' (<[k := s]> m).
Proof.
  intros Hr Hs. unfold flat_insert. cbn [insert_with].
  assert (exists f1, (if (cap f * 7 <? (fi_live f + fi_tombs f + 1) * 8)%nat
    then grow_with (insert_with 1) f else Ok f) = Ok f1 /\ flat_rep f1 m /\ room f1)
    as (f1 & E1 & Hr1 & Hroom).
  { destruct (_ <? _)%nat eqn:E; bool_simpl; [by apply (grow_spec 0)|]. by exists f. }
  cbn [insert_with] in E1. rewrite E1. cbn [mbind result_bind outcome_bind].
  destruct (insert_loop_spec f1 m k s Hr1 Hs Hroom) as (f' & E & Hr' & _). eauto.
Qed.

Lemma flat_reserve_spec f m n :
  flat_rep f m -> exists f', flat_reserve n f = Ok f' /\ flat_rep f' m.
Proof.
  intros Hr. unfold flat_reserve. destruct (_ <? _)%nat eqn:E; [|eauto]. bool_simpl.
  set (need := ((fi_live f + n) * 8 / 7 + 1)%nat) in *.
  pose proof (fs_min _ (fr_shape _ _ Hr)) as Hmin.
  assert (need <= next_power_of_two need)%nat as Hneed by (apply Nat.log2_up_spec; lia).
  unfold next_power_of_two in *. set (e := Nat.log2_up need) in *.
  destruct (rehash_spec 0 f m e Hr) as (f' & Ef & Hr' & _).
  - apply (Nat.pow_le_mono_r_iff 2); [lia|]. change (2 ^ 3)%nat with 8%nat. lia.
  - rewrite <- (fr_size _ _ Hr). subst need.
    pose proof (Nat.div_mod_eq ((fi_live f + n) * 8) 7).
    pose proof (Nat.mod_upper_bound ((fi_live f + n) * 8) 7). lia.
  - exists f'. done.
Qed.

Lemma flat_new_rep seed : flat_rep (flat_new seed) ∅.
Proof. apply (capacity_rep seed 6). lia. Qed.

(** ** Sequences of calls *)

Inductive FlatOp : Type :=
| FGet (prefix : N)
| FInsert (prefix slot : N)
| FRemove (prefix : N)
| FReserve (additional : nat)
| FLen.

Inductive FlatOut : Type :=
| FSlot (slot : option N)
| FCount (n : nat)
| FDone.

Definition flat_call (op : FlatOp) (f : FlatIndex) : fresult (FlatIndex * FlatOut) :=
  match op with
  | FGet k => s ← flat_get f k; Ok (f, FSlot s)
  | FInsert k s => f ← flat_insert k s f; Ok (f, FDone)
  | FRemove k => '(f, s) ← flat_remove k f; Ok (f, FSlot s)
  | FReserve n => f ← flat_reserve n f; Ok (f, FDone)
  | FLen => Ok (f, FCount (flat_len f))
  end.

Fixpoint flat_calls (ops : list FlatOp) (f : FlatIndex) : fresult (FlatIndex * list FlatOut) :=
  match ops with
  | [] => Ok (f, [])
  | op :: rest =>
      '(f, o) ← flat_call op f;
      '(f, os) ← flat_calls rest f;
      Ok (f, o :: os)
  end.

(** The same calls on a map. *)
Definition map_call (op : FlatOp) (m : gmap N N) : gmap N N * FlatOut :=
  match op with
  | FGet k => (m, FSlot (m !! k))
  | FInsert k s => (<[k := s]> m, FDone)
  | FRemove k => (delete k m, FSlot (m !! k))
  | FReserve _ => (m, FDone)
  | FLen => (m, FCount (size m))
  end.

Fixpoint map_calls (ops : list FlatOp) (m : gmap N N) : list FlatOut :=
  match ops with
  | [] => []
  | op :: rest => (map_call op m).2 :: map_calls rest (map_call op m).1
  end.

(** The two sentinels are not slots ([debug_assert!(slot < TOMB)]). *)
Definition flat_op_ok (op : FlatOp) : Prop :=
  match op with FInsert _ s => s < TOMB | _ => True end.

Lemma slot_is_live s : s < TOMB -> is_live s = true.
Proof.
  intros H. apply is_live_iff. unfold TOMB, EMPTY, u64_max in *.
  split; apply N.eqb_neq; lia.
Qed.

Lemma flat_call_spec op f m :
  flat_rep f m -> flat_op_ok op ->
  exists f', flat_call op f = Ok (f', (map_call op m).2) /\ flat_rep f' (map_call op m).1.
Proof.
  intros Hr Hok. destruct op as [k|k s|k|n|]; cbn [flat_call map_call fst snd].
  - rewrite (flat_get_spec f m k Hr). eauto.
  - destruct (flat_insert_spec f m k s Hr (slot_is_live _ Hok)) as (f' & -> & ?). eauto.
  - destruct (flat_remove_spec f m k Hr) as (f' & -> & ?). eauto.
  - destruct (flat_reserve_spec f m n Hr) as (f' & -> & ?). eauto.
  - unfold flat_len. rewrite (fr_size _ _ Hr). eauto.
Qed.

Lemma flat_calls_spec ops f m :
  flat_rep f m -> Forall flat_op_ok ops ->
  exists f', flat_calls ops f = Ok (f', map_calls ops m).
Proof.
  intros Hr Hok. revert f m Hr. induction Hok as [|op ops Hop Hops IH]; intros f m Hr.
  - by exists f.
  - cbn [flat_calls map_calls]. destruct (flat_call_spec op f m Hr Hop) as (f1 & -> & Hr1).
    cbn [mbind result_bind outcome_bind]. destruct (IH f1 _ Hr1) as (f2 & ->). eauto.
Qed.

(** The index is a map.  Whatever its random seed, every sequence of lookups,
    insertions, removals and reservations terminates (no probe loops forever, a
    full table is rehashed in time), indexes no array out of range, and returns
    what a finite map returns. *)
Theorem flat_index_refines_map seed ops :
  Forall flat_op_ok ops ->
  exists f, flat_calls ops (flat_new seed) = Ok (f, map_calls ops ∅).
Proof. intros H. apply flat_calls_spec; [apply flat_new_rep|done]. Qed.
