(* ===== verification/Twig.v ===== *)
(** * The twig engine ([crates/n42-twig-core/src/lib.rs])

    An append-only log of entries with a forest of Merkle subtrees over it: the
    leaf of slot [s] is in twig [s / 2048], the roots of the twigs are the leaves
    of the upper tree, and sixteen such trees form the state.  The entries are
    indexed by the first sixteen bytes of their keys ([FlatIndex]).

    [hash_parents] is the scalar kernel of [simd.rs]; the vector kernels are
    specified to compute the same.  The shards of a batch are updated in parallel
    by the source; each worker owns one shard, so here they are updated one after
    the other.  The random seed of an index is an argument. *)

From Stdlib Require Import SpecFloat.
From S2P Require Import Prelude Effects Messages BmtCore FlatIndex.

Definition TWIG_HEIGHT : nat := 11.
Definition TWIG_SIZE : nat := 2 ^ TWIG_HEIGHT.
Definition NULL_HASH : Hash := 0.

(** Only the relation between the two constants matters to the theorems. *)
Lemma twig_size_pow : TWIG_SIZE = (2 ^ TWIG_HEIGHT)%nat.
Proof. done. Qed.
Lemma twig_height_pos : (1 <= TWIG_HEIGHT)%nat.
Proof. apply Nat.leb_le. done. Qed.
#[global] Opaque TWIG_SIZE TWIG_HEIGHT.

(** ** Sorting *)

(** [sort_by_key] (stable) and [sort_unstable] on numbers. *)
Fixpoint insert_sorted {A} (key : A -> N) (x : A) (l : list A) : list A :=
  match l with
  | [] => [x]
  | y :: l' => if key x <=? key y then x :: l else y :: insert_sorted key x l'
  end.
Definition sort_by_key {A} (key : A -> N) (l : list A) : list A := foldr (insert_sorted key) [] l.

(** [Vec::dedup] *)
Fixpoint dedup {A} `{EqDecision A} (l : list A) : list A :=
  match l with
  | x :: (y :: _) as l' => if decide (x = y) then dedup l' else x :: dedup l'
  | _ => l
  end.

Section twig.
Context {digest : Digest}.

Definition LEAF_PREFIX : N := 1.

Definition twig_hash_leaf (key : Hash) (value : bytes) : Hash :=
  blake3 ([LEAF_PREFIX] ++ b256_bytes key ++ value).
Definition hash_node (left right : Hash) : Hash := blake3 (b256_bytes left ++ b256_bytes right).

(** ** Heaps of hashes *)

(** [nodes[p] = hash_node(&nodes[2 * p], &nodes[2 * p + 1])] for every parent. *)
Fixpoint hash_parents (nodes : list Hash) (parents : list nat) : fresult (list Hash) :=
  match parents with
  | [] => Ok nodes
  | p :: rest =>
      l ← at_index nodes (2 * p);
      r ← at_index nodes (2 * p + 1);
      nodes ← update_at nodes p (hash_node l r);
      hash_parents nodes rest
  end.

(** [null_level()] *)
Fixpoint null_hash (h : nat) : Hash :=
  match h with
  | O => NULL_HASH
  | S h => let n := null_hash h in hash_node n n
  end.
Definition null_level : list Hash := null_hash <$> seq 0 (S TWIG_HEIGHT).

(** ** One twig *)

Record TwigHeap : Type := mkTwig {
  tw_nodes : list Hash;
  tw_live : nat;
  tw_dirty : bool
}.

(** [Twig::new]: internal node [j] gets the null hash of its height. *)
Fixpoint seed_nulls (nl : list Hash) (js : list nat) (nodes : list Hash) : fresult (list Hash) :=
  match js with
  | [] => Ok nodes
  | j :: rest =>
      h ← at_index nl (TWIG_HEIGHT - Nat.log2 j);
      nodes ← update_at nodes j h;
      seed_nulls nl rest nodes
  end.
Definition twig_new (nl : list Hash) : fresult TwigHeap :=
  nodes ← seed_nulls nl (seq 1 (TWIG_SIZE - 1)) (replicate (2 * TWIG_SIZE) NULL_HASH);
  Ok (mkTwig nodes 0 false).

Definition twig_write_leaf (local : nat) (h : Hash) (t : TwigHeap) : fresult TwigHeap :=
  nodes ← update_at (tw_nodes t) (TWIG_SIZE + local) h;
  Ok (mkTwig nodes (tw_live t) true).

(** The parents of a sorted level, each once. *)
Definition parents_of (level : list nat) : list nat := dedup (Nat.div2 <$> level).

(** [while level[0] > 1]; a level of a heap of [2 * TWIG_SIZE] nodes has at most
    [TWIG_HEIGHT] levels above it. *)
Fixpoint fold_levels (fuel : nat) (level : list nat) (nodes : list Hash) : fresult (list Hash) :=
  first ← at_index level 0;
  if (1 <? first)%nat then
    match fuel with
    | O => OutOfFuel
    | S fuel =>
        let level := parents_of level in
        nodes ← hash_parents nodes level;
        fold_levels fuel level nodes
    end
  else Ok nodes.

Definition fold_batch (locals : list nat) (t : TwigHeap) : fresult TwigHeap :=
  match locals with
  | [] => Ok t
  | _ =>
      let level := dedup (sort_by_key N.of_nat ((fun l => (TWIG_SIZE + l)%nat) <$> locals)) in
      nodes ← fold_levels TWIG_HEIGHT level (tw_nodes t);
      Ok (mkTwig nodes (tw_live t) (tw_dirty t))
  end.

(** [while start >= 1 { ..; start /= 2 }] *)
Fixpoint recompute_levels (fuel : nat) (start : nat) (nodes : list Hash) : fresult (list Hash) :=
  if (1 <=? start)%nat then
    match fuel with
    | O => OutOfFuel
    | S fuel =>
        nodes ← hash_parents nodes (seq start start);
        recompute_levels fuel (start / 2) nodes
    end
  else Ok nodes.
Definition recompute (t : TwigHeap) : fresult TwigHeap :=
  nodes ← recompute_levels TWIG_HEIGHT (TWIG_SIZE / 2) (tw_nodes t);
  Ok (mkTwig nodes (tw_live t) (tw_dirty t)).

Definition twig_root (t : TwigHeap) : fresult Hash := at_index (tw_nodes t) 1.

(** ** The tree *)

Record Entry : Type := mkEntry {
  en_key : Hash;
  en_voff : N;
  en_vlen : N;
  en_active : bool
}.

Record TwigTree : Type := mkTwigTree {
  tt_entries : list Entry;
  tt_arena : bytes;
  tt_twigs : list TwigHeap;
  tt_index : FlatIndex;
  tt_next_slot : N;
  tt_touched : list N;
  tt_null_level : list Hash;
  tt_upper : list Hash;
  tt_up_cap : nat
}.

Definition twig_tree_new (seed : N) : TwigTree :=
  mkTwigTree [] [] [] (flat_new seed) 0 [] null_level [] 0.

Abbreviation MW := (ST TwigTree Empty_set).

Definition set_entries f t := mkTwigTree (f (tt_entries t)) (tt_arena t) (tt_twigs t) (tt_index t)
  (tt_next_slot t) (tt_touched t) (tt_null_level t) (tt_upper t) (tt_up_cap t).
Definition set_arena f t := mkTwigTree (tt_entries t) (f (tt_arena t)) (tt_twigs t) (tt_index t)
  (tt_next_slot t) (tt_touched t) (tt_null_level t) (tt_upper t) (tt_up_cap t).
Definition set_twigs f t := mkTwigTree (tt_entries t) (tt_arena t) (f (tt_twigs t)) (tt_index t)
  (tt_next_slot t) (tt_touched t) (tt_null_level t) (tt_upper t) (tt_up_cap t).
Definition set_index i t := mkTwigTree (tt_entries t) (tt_arena t) (tt_twigs t) i
  (tt_next_slot t) (tt_touched t) (tt_null_level t) (tt_upper t) (tt_up_cap t).
Definition set_next_slot n t := mkTwigTree (tt_entries t) (tt_arena t) (tt_twigs t) (tt_index t)
  n (tt_touched t) (tt_null_level t) (tt_upper t) (tt_up_cap t).
Definition set_touched f t := mkTwigTree (tt_entries t) (tt_arena t) (tt_twigs t) (tt_index t)
  (tt_next_slot t) (f (tt_touched t)) (tt_null_level t) (tt_upper t) (tt_up_cap t).
Definition set_upper u c t := mkTwigTree (tt_entries t) (tt_arena t) (tt_twigs t) (tt_index t)
  (tt_next_slot t) (tt_touched t) (tt_null_level t) u c.

(** [&arena[from..to]], which panics out of range. *)
Definition arena_slice (from to : nat) (arena : bytes) : fresult bytes :=
  if (from <=? to)%nat && (to <=? length arena)%nat
  then Ok (take (to - from) (drop from arena))
  else Panic.

Definition entry_value (t : TwigTree) (slot : nat) : fresult bytes :=
  e ← at_index (tt_entries t) slot;
  arena_slice (N.to_nat (en_voff e)) (N.to_nat (en_voff e) + N.to_nat (en_vlen e)) (tt_arena t).

(** [u128::from_le_bytes(key[..16])] *)
Definition key_prefix (key : Hash) : N := le_value (take 16 (b256_bytes key)).

Definition lookup_key (t : TwigTree) (key : Hash) : fresult (option N) :=
  found ← flat_get (tt_index t) (key_prefix key);
  match found with
  | None => Ok None
  | Some slot =>
      e ← at_index (tt_entries t) (N.to_nat slot);
      Ok (if en_key e =? key then Some slot else None)
  end.

Definition slot_twig (slot : N) : nat := N.to_nat (slot / N.of_nat TWIG_SIZE).
Definition slot_local (slot : N) : nat := N.to_nat (slot mod N.of_nat TWIG_SIZE).

(** [self.twigs[i]] changed in place. *)
Definition on_twig (i : nat) (f : TwigHeap -> fresult TwigHeap) : MW unit :=
  t ← get;
  w ← try_ (fun _ => at_index (tt_twigs t) i);
  w ← try_ (fun _ => f w);
  modify (set_twigs <[i := w]>).

Definition deactivate (slot : N) : MW unit :=
  t ← get;
  e ← try_ (fun _ => at_index (tt_entries t) (N.to_nat slot));
  modify (set_entries <[N.to_nat slot :=
    mkEntry (en_key e) (en_voff e) (en_vlen e) false]>) ;;
  modify (set_touched (fun l => l ++ [slot])) ;;
  on_twig (slot_twig slot) (twig_write_leaf (slot_local slot) NULL_HASH) ;;
  on_twig (slot_twig slot) (fun w => Ok (mkTwig (tw_nodes w) (tw_live w - 1) (tw_dirty w))).

(** [while self.twigs.len() <= twig_id { push(Twig::new(..)) }]: [n] twigs are
    missing. *)
Fixpoint push_twigs (n : nat) : MW unit :=
  match n with
  | O => mret tt
  | S n =>
      t ← get;
      w ← try_ (fun _ => twig_new (tt_null_level t));
      modify (set_twigs (fun l => l ++ [w])) ;;
      push_twigs n
  end.

Definition set_with_leaf (key : Hash) (value : bytes) (leaf : Hash) : MW unit :=
  t ← get;
  old ← try_ (fun _ => lookup_key t key);
  match old with Some slot => deactivate slot | None => mret tt end ;;
  t ← get;
  let slot := tt_next_slot t in
  modify (set_next_slot (slot +w 1)) ;;
  push_twigs (S (slot_twig slot) - length (tt_twigs t)) ;;
  modify (set_touched (fun l => l ++ [slot])) ;;
  on_twig (slot_twig slot) (twig_write_leaf (slot_local slot) leaf) ;;
  on_twig (slot_twig slot) (fun w => Ok (mkTwig (tw_nodes w) (tw_live w + 1) (tw_dirty w))) ;;
  t ← get;
  let voff := N.of_nat (length (tt_arena t)) in
  modify (set_arena (fun a => a ++ value)) ;;
  modify (set_entries (fun l => l ++
    [mkEntry key voff (N.of_nat (length value) mod (u32_max + 1)) true])) ;;
  index ← try_ (fun t => flat_insert (key_prefix key) slot (tt_index t));
  modify (set_index index).

Definition twig_set (key : Hash) (value : bytes) : MW unit :=
  set_with_leaf key value (twig_hash_leaf key value).

Definition twig_delete (key : Hash) : MW bool :=
  t ← get;
  found ← try_ (fun _ => lookup_key t key);
  match found with
  | Some slot =>
      '(index, _) ← try_ (fun t => flat_remove (key_prefix key) (tt_index t));
      modify (set_index index) ;;
      deactivate slot ;;
      mret true
  | None => mret false
  end.

Definition twig_get (key : Hash) : MW (option bytes) :=
  t ← get;
  found ← try_ (fun _ => lookup_key t key);
  match found with
  | Some slot => v ← try_ (fun _ => entry_value t (N.to_nat slot)); mret (Some v)
  | None => mret None
  end.

(** ** Batches *)

Definition batch_op : Type := Hash * option bytes.

(** The loop over the sorted operations; [leaves] are the leaf hashes not yet
    used. *)
Fixpoint apply_ops (ops : list batch_op) (leaves : list Hash) : MW unit :=
  match ops with
  | [] => mret tt
  | (key, Some v) :: rest =>
      match leaves with
      | [] => panic
      | leaf :: leaves => set_with_leaf key v leaf ;; apply_ops rest leaves
      end
  | (key, None) :: rest => _ ← twig_delete key; apply_ops rest leaves
  end.

(** The operations of a shard come as indices into the operations of the block;
    here as the list they select. *)
Definition apply_batch_indexed (ops : list batch_op) : MW unit :=
  let order := sort_by_key fst ops in
  let leaf_hashes := omap (fun op : batch_op => twig_hash_leaf op.1 <$> op.2) order in
  apply_ops order leaf_hashes.

(** ** The root *)

(** The prefix of the slots of twig [id], and the rest. *)
Fixpoint span_twig (id : nat) (slots : list N) : list N * list N :=
  match slots with
  | s :: rest =>
      if (slot_twig s =? id)%nat
      then let '(g, r) := span_twig id rest in (s :: g, r)
      else ([], slots)
  | [] => ([], [])
  end.

(** The touched slots, grouped by twig; each round of the loop takes at least one. *)
Fixpoint fold_touched (fuel : nat) (slots : list N) : MW unit :=
  match slots with
  | [] => mret tt
  | s :: _ =>
      match fuel with
      | O => out_of_fuel
      | S fuel =>
          let '(group, rest) := span_twig (slot_twig s) slots in
          on_twig (slot_twig s) (fun w =>
            if tw_dirty w then
              w ← (if (TWIG_SIZE <=? length group * TWIG_HEIGHT)%nat
                   then recompute w
                   else fold_batch (slot_local <$> group) w);
              Ok (mkTwig (tw_nodes w) (tw_live w) false)
            else Ok w) ;;
          fold_touched fuel rest
      end
  end.

(** [self.upper[up_cap + i] = self.twigs[i].root()] *)
Fixpoint copy_roots (i : nat) (twigs : list TwigHeap) (upper : list Hash) : fresult (list Hash) :=
  match twigs with
  | [] => Ok upper
  | w :: rest =>
      h ← twig_root w;
      upper ← update_at upper i h;
      copy_roots (S i) rest upper
  end.

Definition twig_tree_root : MW Hash :=
  t ← get;
  match tt_touched t with
  | [] => mret tt
  | touched =>
      let sorted := dedup (sort_by_key id touched) in
      fold_touched (length sorted) sorted ;;
      modify (set_touched (fun _ => []))
  end ;;
  t ← get;
  match tt_twigs t with
  | [] => modify (set_upper [] 0) ;; mret NULL_HASH
  | twigs =>
      let up_cap := next_power_of_two (length twigs) in
      upper ← try_ (fun _ => copy_roots up_cap twigs (replicate (2 * up_cap) NULL_HASH));
      upper ← try_ (fun _ => hash_parents upper (rev (seq 1 (up_cap - 1))));
      world ← try_ (fun _ => at_index upper 1);
      modify (set_upper upper up_cap) ;;
      mret world
  end.

Definition cached_root (t : TwigTree) : fresult Hash :=
  if (tt_up_cap t =? 0)%nat then Ok NULL_HASH else at_index (tt_upper t) 1.

(** ** Proofs *)

Record TwigProof : Type := mkTwigProof {
  tp_key : Hash;
  tp_value : bytes;
  tp_slot : N;
  tp_twig_path : list Hash; (* [TWIG_HEIGHT] hashes *)
  tp_upper_path : list Hash
}.

(** [n] rounds of [sib = nodes[j ^ 1]; j >>= 1]. *)
Fixpoint sibling_path (n : nat) (nodes : list Hash) (j : nat) : fresult (list Hash) :=
  match n with
  | O => Ok []
  | S n =>
      sib ← at_index nodes (Nat.lxor j 1);
      rest ← sibling_path n nodes (Nat.div2 j);
      Ok (sib :: rest)
  end.

(** [while j > 1] *)
Definition upper_sibling_path (nodes : list Hash) (j : nat) : fresult (list Hash) :=
  sibling_path (Nat.log2 j) nodes j.

Definition twig_prove (key : Hash) : MW (option TwigProof) :=
  t ← get;
  found ← try_ (fun _ => lookup_key t key);
  match found with
  | None => mret None
  | Some slot =>
      value ← try_ (fun _ => entry_value t (N.to_nat slot));
      w ← try_ (fun _ => at_index (tt_twigs t) (slot_twig slot));
      twig_path ← try_ (fun _ =>
        sibling_path TWIG_HEIGHT (tw_nodes w) (TWIG_SIZE + slot_local slot));
      upper_path ← try_ (fun _ =>
        upper_sibling_path (tt_upper t) (tt_up_cap t + slot_twig slot));
      mret (Some (mkTwigProof key value slot twig_path upper_path))
  end.

Fixpoint fold_path (node : Hash) (idx : nat) (path : list Hash) : Hash :=
  match path with
  | [] => node
  | sib :: rest =>
      fold_path (if Nat.even idx then hash_node node sib else hash_node sib node)
        (Nat.div2 idx) rest
  end.

Definition twig_verify (p : TwigProof) (root : Hash) : bool :=
  let node := twig_hash_leaf (tp_key p) (tp_value p) in
  let node := fold_path node (slot_local (tp_slot p)) (tp_twig_path p) in
  let node := fold_path node (slot_twig (tp_slot p)) (tp_upper_path p) in
  node =? root.

(** ** Compaction *)

(** [(live as f64) / (TWIG_SIZE as f64) < threshold] in binary64. *)
Definition f64_of_nat (n : nat) : spec_float := binary_normalize 53 1024 (Z.of_nat n) 0%Z false.
Definition below_threshold (threshold : spec_float) (live : nat) : bool :=
  SFltb (SFdiv 53 1024 (f64_of_nat live) (f64_of_nat TWIG_SIZE)) threshold.

Definition sparse_twigs (threshold : spec_float) (t : TwigTree) : list nat :=
  let active := slot_twig (tt_next_slot t) in
  omap (fun iw : nat * TwigHeap =>
    if (iw.1 =? active)%nat || (tw_live iw.2 =? 0)%nat then None
    else if below_threshold threshold (tw_live iw.2) then Some iw.1 else None)
    (imap pair (tt_twigs t)).

Fixpoint live_entries (t : TwigTree) (slots : list nat) : fresult (list (Hash * bytes)) :=
  match slots with
  | [] => Ok []
  | slot :: rest =>
      e ← at_index (tt_entries t) slot;
      if en_active e then
        v ← entry_value t slot;
        l ← live_entries t rest;
        Ok ((en_key e, v) :: l)
      else live_entries t rest
  end.

Fixpoint set_all (l : list (Hash * bytes)) : MW unit :=
  match l with
  | [] => mret tt
  | (k, v) :: rest => twig_set k v ;; set_all rest
  end.

Definition twig_compact (threshold : spec_float) : MW nat :=
  t ← get;
  let slots := sparse_twigs threshold t ≫= fun id => seq (id * TWIG_SIZE) TWIG_SIZE in
  live ← try_ (fun _ => live_entries t slots);
  let live := sort_by_key fst live in
  set_all live ;;
  mret (length live).

(** ** Snapshots *)

Record EntrySnapshot : Type := mkEntrySnapshot {
  es_key : Hash;
  es_value : bytes;
  es_active : bool
}.
Record ShardSnapshot : Type := mkShardSnapshot {
  ss_next_slot : N;
  ss_entries : list EntrySnapshot
}.

Fixpoint snapshot_entries (t : TwigTree) (slots : list nat) : fresult (list EntrySnapshot) :=
  match slots with
  | [] => Ok []
  | slot :: rest =>
      e ← at_index (tt_entries t) slot;
      v ← (if en_active e then entry_value t slot else Ok []);
      l ← snapshot_entries t rest;
      Ok (mkEntrySnapshot (en_key e) v (en_active e) :: l)
  end.

Definition shard_snapshot (t : TwigTree) : fresult ShardSnapshot :=
  l ← snapshot_entries t (seq 0 (length (tt_entries t)));
  Ok (mkShardSnapshot (tt_next_slot t) l).

(** The errors, with what their messages name. *)
Inductive TwigError : Type :=
| NextSlotMismatch (next_slot : N) (entries : nat)
| ValueTooLarge (slot len : nat)
| LiveMismatch (index twigs active : nat)
| ShardCountMismatch (got : nat)
| WrongShard (expected slot actual : nat)
| InShard (shard : nat) (e : TwigError).

Definition check_consistency (t : TwigTree) : result TwigError unit :=
  let index_live := flat_len (tt_index t) in
  let twig_live := foldr (fun w n => tw_live w + n)%nat 0%nat (tt_twigs t) in
  let active_entries := length (filter (fun e => en_active e = true) (tt_entries t)) in
  if negb (index_live =? twig_live)%nat || negb (index_live =? active_entries)%nat
  then Err (LiveMismatch index_live twig_live active_entries)
  else Ok tt.

(** A computation without errors, in one with errors. *)
Definition no_error {E A} (r : outcome Empty_set A) : outcome E A :=
  match r with
  | Ok a => Ok a
  | Err e => match e with end
  | Panic => Panic
  | OutOfFuel => OutOfFuel
  end.

(** One entry of the snapshot, at [slot]. *)
Definition restore_entry (slot : nat) (e : EntrySnapshot) : MW unit :=
  let s := N.of_nat slot in
  t ← get;
  push_twigs (S (slot_twig s) - length (tt_twigs t)) ;;
  let voff := N.of_nat (length (tt_arena t)) in
  modify (set_arena (fun a => a ++ es_value e)) ;;
  (if es_active e then
     on_twig (slot_twig s) (twig_write_leaf (slot_local s) (twig_hash_leaf (es_key e) (es_value e))) ;;
     on_twig (slot_twig s) (fun w => Ok (mkTwig (tw_nodes w) (tw_live w + 1) (tw_dirty w))) ;;
     modify (set_touched (fun l => l ++ [s])) ;;
     index ← try_ (fun t => flat_insert (key_prefix (es_key e)) s (tt_index t));
     modify (set_index index)
   else mret tt) ;;
  modify (set_entries (fun l => l ++
    [mkEntry (es_key e) voff (N.of_nat (length (es_value e)) mod (u32_max + 1)) (es_active e)])).

Fixpoint restore_entries (slot : nat) (l : list EntrySnapshot) (t : TwigTree)
  : result TwigError TwigTree :=
  match l with
  | [] => Ok t
  | e :: rest =>
      if u32_max <? N.of_nat (length (es_value e))
      then Err (ValueTooLarge slot (length (es_value e)))
      else
        let '(t, r) := restore_entry slot e t in
        _ ← no_error r;
        restore_entries (S slot) rest t
  end.

Definition twig_restore (seed : N) (snap : ShardSnapshot) : result TwigError TwigTree :=
  if negb (ss_next_slot snap =? N.of_nat (length (ss_entries snap)))
  then Err (NextSlotMismatch (ss_next_slot snap) (length (ss_entries snap)))
  else
    t ← restore_entries 0 (ss_entries snap) (set_next_slot (ss_next_slot snap) (twig_tree_new seed));
    _ ← check_consistency t;
    Ok t.
End twig.

(** ** Sixteen shards

    [shard_tree_root], [shard_tree_path] and [fold_shard_path] of this crate are
    copies of the functions of [BmtCore], where [hash_node] is [hash_pair]. *)

Abbreviation MW := (ST TwigTree Empty_set).

Section sharded.
Context {digest : Digest}.

Record ShardedTwig : Type := mkShardedTwig {
  sh_shards : list TwigTree;
  sh_version : N
}.

Definition twig_shard_index (key : Hash) : nat := shard_index_for_key key.

Definition sharded_twig_new (seeds : list N) : ShardedTwig :=
  mkShardedTwig (twig_tree_new <$> take SHARD_COUNT seeds) 0.

Abbreviation MX := (ST ShardedTwig Empty_set).

(** [self.shards[i].method()] *)
Definition on_tree {A} (i : nat) (m : MW A) : MX A := fun s =>
  match sh_shards s !! i with
  | None => (s, Panic)
  | Some t =>
      let '(t', r) := m t in
      (mkShardedTwig (<[i := t']> (sh_shards s)) (sh_version s), r)
  end.

Definition sharded_twig_get (key : Hash) : MX (option bytes) :=
  on_tree (twig_shard_index key) (twig_get key).
Definition sharded_twig_set (key : Hash) (value : bytes) : MX unit :=
  on_tree (twig_shard_index key) (twig_set key value).

(** [array.try_into().unwrap()] and the tree over the roots. *)
Definition combined_root (roots : list Hash) : MX Hash :=
  if negb (length roots =? SHARD_COUNT)%nat then panic
  else match shard_tree_root roots with Some h => mret h | None => panic end.

Fixpoint each_shard {A} (f : nat -> MX A) (ids : list nat) : MX (list A) :=
  match ids with
  | [] => mret []
  | i :: rest => a ← f i; l ← each_shard f rest; mret (a :: l)
  end.

Definition all_shards (s : ShardedTwig) : list nat := seq 0 (length (sh_shards s)).

Definition sharded_twig_root : MX Hash :=
  s ← get;
  roots ← each_shard (fun i => on_tree i twig_tree_root) (all_shards s);
  combined_root roots.

(** The operations of one shard, in the order of the block. *)
Definition ops_of_shard (ops : list batch_op) (i : nat) : list batch_op :=
  filter (fun op => twig_shard_index op.1 = i) ops.

Definition sharded_twig_apply_batch (ops : list batch_op) : MX (N * Hash) :=
  s ← get;
  roots ← each_shard (fun i =>
    match ops_of_shard ops i with
    | [] => mret tt
    | l => on_tree i (apply_batch_indexed l)
    end ;;
    on_tree i twig_tree_root) (all_shards s);
  modify (fun s => mkShardedTwig (sh_shards s) (sh_version s +w 1)) ;;
  root ← combined_root roots;
  s ← get;
  mret (sh_version s, root).

Fixpoint reserve_shards (per : nat) (shards : list TwigTree) : fresult (list TwigTree) :=
  match shards with
  | [] => Ok []
  | t :: rest =>
      index ← flat_reserve per (tt_index t);
      rest ← reserve_shards per rest;
      Ok (set_index index t :: rest)
  end.
(** [div_ceil] of [SHARD_COUNT]; the buffers of the source have no capacity here. *)
Definition sharded_twig_reserve (entries : nat) : MX unit :=
  s ← get;
  shards ← try_ (fun _ => reserve_shards ((entries + (SHARD_COUNT - 1)) / SHARD_COUNT) (sh_shards s));
  modify (fun s => mkShardedTwig shards (sh_version s)).

Fixpoint check_shards (i : nat) (shards : list TwigTree) : result TwigError unit :=
  match shards with
  | [] => Ok tt
  | t :: rest =>
      match check_consistency t with
      | Err e => Err (InShard i e)
      | _ => check_shards (S i) rest
      end
  end.
Definition sharded_check_consistency (s : ShardedTwig) : result TwigError unit :=
  check_shards 0 (sh_shards s).

(** *** Proofs *)

Record ShardedTwigProof : Type := mkShardedTwigProof {
  stp_shard_index : N;
  stp_shard_root : Hash;
  stp_shard_path : list Hash; (* [SHARD_BITS] hashes *)
  stp_inner : TwigProof
}.

Inductive TwigVerifyError : Type :=
| TwigKeyMismatch
| TwigWrongShardForKey (expected got : N)
| TwigShardIndexOutOfRange (index : N)
| VerifyFailed.

Fixpoint cached_roots (shards : list TwigTree) : fresult (list Hash) :=
  match shards with
  | [] => Ok []
  | t :: rest => h ← cached_root t; l ← cached_roots rest; Ok (h :: l)
  end.

Definition sharded_twig_prove (key : Hash) : MX (option ShardedTwigProof) :=
  let si := twig_shard_index key in
  inner ← on_tree si (twig_prove key);
  match inner with
  | None => mret None
  | Some inner =>
      s ← get;
      roots ← try_ (fun _ => cached_roots (sh_shards s));
      shard_root ← try_ (fun _ => at_index roots si);
      match shard_tree_path roots si with
      | None => panic
      | Some path => mret (Some (mkShardedTwigProof (N.of_nat si) shard_root path inner))
      end
  end.

Definition sharded_twig_verify (p : ShardedTwigProof) (combined_root : Hash)
  : result TwigVerifyError unit :=
  if N.of_nat SHARD_COUNT <=? stp_shard_index p
  then Err (TwigShardIndexOutOfRange (stp_shard_index p))
  else if negb (twig_verify (stp_inner p) (stp_shard_root p)) then Err VerifyFailed
  else
    let computed := shard_tree_root_from_path (stp_shard_root p) (N.to_nat (stp_shard_index p))
                      (stp_shard_path p) in
    if negb (computed =? combined_root) then Err VerifyFailed else Ok tt.

Definition sharded_twig_verify_for_key (p : ShardedTwigProof) (combined_root expected_key : Hash)
  : result TwigVerifyError unit :=
  if negb (tp_key (stp_inner p) =? expected_key) then Err TwigKeyMismatch
  else
    let expected_shard := twig_shard_index expected_key in
    if negb (stp_shard_index p =? N.of_nat expected_shard)
    then Err (TwigWrongShardForKey (N.of_nat expected_shard) (stp_shard_index p))
    else sharded_twig_verify p combined_root.

(** *** Snapshots *)

Record TwigSnapshot : Type := mkTwigSnapshot {
  ts_version : N;
  ts_shards : list ShardSnapshot
}.

Fixpoint shard_snapshots (shards : list TwigTree) : fresult (list ShardSnapshot) :=
  match shards with
  | [] => Ok []
  | t :: rest => x ← shard_snapshot t; l ← shard_snapshots rest; Ok (x :: l)
  end.
Definition sharded_twig_snapshot (s : ShardedTwig) : fresult TwigSnapshot :=
  l ← shard_snapshots (sh_shards s); Ok (mkTwigSnapshot (sh_version s) l).

Fixpoint check_entry_shards (shard slot : nat) (l : list EntrySnapshot) : result TwigError unit :=
  match l with
  | [] => Ok tt
  | e :: rest =>
      let actual := twig_shard_index (es_key e) in
      if negb (actual =? shard)%nat then Err (WrongShard shard slot actual)
      else check_entry_shards shard (S slot) rest
  end.
Fixpoint check_snapshot_shards (shard : nat) (l : list ShardSnapshot) : result TwigError unit :=
  match l with
  | [] => Ok tt
  | s :: rest =>
      _ ← check_entry_shards shard 0 (ss_entries s);
      check_snapshot_shards (S shard) rest
  end.

Fixpoint restore_shards (shard : nat) (seeds : list N) (l : list ShardSnapshot)
  : result TwigError (list TwigTree) :=
  match l with
  | [] => Ok []
  | s :: rest =>
      match twig_restore (hd 0 seeds) s with
      | Err e => Err (InShard shard e)
      | Ok t => ts ← restore_shards (S shard) (tl seeds) rest; Ok (t :: ts)
      | Panic => Panic
      | OutOfFuel => OutOfFuel
      end
  end.

Definition sharded_try_from_snapshot (seeds : list N) (snap : TwigSnapshot)
  : result TwigError ShardedTwig :=
  if negb (length (ts_shards snap) =? SHARD_COUNT)%nat
  then Err (ShardCountMismatch (length (ts_shards snap)))
  else
    _ ← check_snapshot_shards 0 (ts_shards snap);
    shards ← restore_shards 0 seeds (ts_shards snap);
    let '(t, r) := sharded_twig_root (mkShardedTwig shards (ts_version snap)) in
    _ ← no_error r;
    _ ← sharded_check_consistency t;
    Ok t.
End sharded.
