(* ===== verification/TwigHeap.v ===== *)
(** * Merkle heaps

    A twig and the upper tree are arrays of hashes in which the children of node
    [j] are nodes [2 * j] and [2 * j + 1].  This file shows what rehashing parts
    of such an array establishes: folding the paths of the changed leaves and
    recomputing every level both give the heap of the leaves, and sibling paths
    lead from every leaf to the root. *)

From S2P Require Import Prelude Effects Messages BmtCore ShardTree.
From S2P Require Import FlatIndex FlatIndexTheory Twig.

Section heap.
Context {digest : Digest}.

Definition consistent (nodes : list Hash) (j : nat) : Prop :=
  exists l r, nodes !! (2 * j)%nat = Some l /\ nodes !! (2 * j + 1)%nat = Some r /\
    nodes !! j = Some (hash_node l r).

(** A node and its children are as before. *)
Lemma consistent_same nodes nodes' j :
  nodes' !! j = nodes !! j -> nodes' !! (2 * j)%nat = nodes !! (2 * j)%nat ->
  nodes' !! (2 * j + 1)%nat = nodes !! (2 * j + 1)%nat ->
  consistent nodes j -> consistent nodes' j.
Proof. intros E0 E1 E2 (l & r & H1 & H2 & H3). exists l, r. by rewrite E0, E1, E2. Qed.

(** ** Rehashing nodes *)

Lemma hash_parents_step nodes p rest :
  (2 * p + 1 < length nodes)%nat ->
  exists l r, nodes !! (2 * p)%nat = Some l /\ nodes !! (2 * p + 1)%nat = Some r /\
    hash_parents nodes (p :: rest) = hash_parents (<[p := hash_node l r]> nodes) rest.
Proof.
  intros H. destruct (lookup_lt_is_Some_2 nodes (2 * p)) as [l Hl]; [lia|].
  destruct (lookup_lt_is_Some_2 nodes (2 * p + 1)) as [r Hr]; [lia|].
  destruct (lookup_lt_is_Some_2 nodes p) as [x Hx]; [lia|].
  exists l, r. split; [done|]. split; [done|]. cbn [hash_parents].
  rewrite (at_index_some _ _ _ Hl), (at_index_some _ _ _ Hr).
  cbn [mbind result_bind outcome_bind]. rewrite (update_at_some _ _ _ _ Hx). done.
Qed.

(** Rehashing nodes of which none is the child of another. *)
Lemma hash_parents_spec nodes ps :
  (forall p, p ∈ ps -> (1 <= p)%nat /\ (2 * p + 1 < length nodes)%nat) ->
  (forall p q, p ∈ ps -> q ∈ ps -> q ≠ (2 * p)%nat /\ q ≠ (2 * p + 1)%nat) ->
  exists nodes', hash_parents nodes ps = Ok nodes' /\ length nodes' = length nodes /\
    (forall j, j ∉ ps -> nodes' !! j = nodes !! j) /\ (forall p, p ∈ ps -> consistent nodes' p).
Proof.
  revert nodes. induction ps as [|p ps IH]; intros nodes Hb Hflat.
  { exists nodes. split_and!; try done. intros p Hp. by apply not_elem_of_nil in Hp. }
  destruct (Hb p) as [Hp1 Hp2]; [left|].
  destruct (hash_parents_step nodes p ps Hp2) as (l & r & Hl & Hr & ->).
  set (nodes1 := <[p := hash_node l r]> nodes).
  destruct (IH nodes1) as (nodes' & E & Hlen & Hother & Hcons).
  - intros q Hq. unfold nodes1. rewrite length_insert. apply Hb. by right.
  - intros q q' Hq Hq'. apply Hflat; by right.
  - unfold nodes1 in Hlen. rewrite length_insert in Hlen.
    exists nodes'. split; [done|]. split; [done|]. split.
    + intros j Hj. apply not_elem_of_cons in Hj as [Hjp Hj].
      rewrite Hother by done. unfold nodes1. by rewrite list_lookup_insert_ne.
    + intros q Hq. destruct (decide (q ∈ ps)) as [Hin|Hin]; [by apply Hcons|].
      apply elem_of_cons in Hq as [->|]; [|done].
      assert (Hc1 : (2 * p)%nat ∉ ps).
      { intros Hc. destruct (Hflat p (2 * p)%nat); [left|by right|lia]. }
      assert (Hc2 : (2 * p + 1)%nat ∉ ps).
      { intros Hc. destruct (Hflat p (2 * p + 1)%nat); [left|by right|lia]. }
      exists l, r. rewrite !Hother by done. unfold nodes1.
      rewrite !list_lookup_insert_ne by lia. rewrite list_lookup_insert_eq by lia. done.
Qed.

(** A set of nodes of one depth. *)
Definition at_depth (d j : nat) : Prop := (2 ^ d <= j < 2 ^ S d)%nat.

Lemma at_depth_unique d d' j : at_depth d j -> at_depth d' j -> d = d'.
Proof.
  intros [H1 H2] [H3 H4].
  rewrite <- (Nat.log2_unique j d), <- (Nat.log2_unique j d'); [done|lia|done|lia|done].
Qed.

Lemma at_depth_log2 j : (1 <= j)%nat -> at_depth (Nat.log2 j) j.
Proof. intros H. by apply Nat.log2_spec. Qed.

Lemma at_depth_child d j b : (b <= 1)%nat -> at_depth d j -> at_depth (S d) (2 * j + b).
Proof. unfold at_depth. cbn [Nat.pow]. lia. Qed.

Lemma at_depth_parent d j : at_depth (S d) j -> at_depth d (Nat.div2 j).
Proof.
  unfold at_depth. cbn [Nat.pow]. rewrite Nat.div2_div. intros [H1 H2].
  pose proof (Nat.div_mod_eq j 2). pose proof (Nat.mod_upper_bound j 2). lia.
Qed.

Lemma pow2_pos n : (1 <= 2 ^ n)%nat.
Proof. pose proof (Nat.pow_nonzero 2 n). lia. Qed.

Lemma pow2_le a b : (a <= b)%nat -> (2 ^ a <= 2 ^ b)%nat.
Proof. intros. apply Nat.pow_le_mono_r; lia. Qed.

Lemma hash_level_spec nodes H d ps :
  length nodes = (2 * 2 ^ H)%nat -> (d < H)%nat -> (forall p, p ∈ ps -> at_depth d p) ->
  exists nodes', hash_parents nodes ps = Ok nodes' /\ length nodes' = length nodes /\
    (forall j, j ∉ ps -> nodes' !! j = nodes !! j) /\ (forall p, p ∈ ps -> consistent nodes' p).
Proof.
  intros Hlen Hd Hps. apply hash_parents_spec.
  - intros p Hp. destruct (Hps p Hp) as [H1 H2]. pose proof (pow2_pos d).
    pose proof (pow2_le (S d) H). lia.
  - intros p q Hp Hq. apply Hps in Hp, Hq.
    split; intros ->.
    + pose proof (at_depth_child d p 0 ltac:(lia) Hp) as Hc. rewrite Nat.add_0_r in Hc.
      pose proof (at_depth_unique _ _ _ Hq Hc). lia.
    + pose proof (at_depth_child d p 1 ltac:(lia) Hp) as Hc.
      pose proof (at_depth_unique _ _ _ Hq Hc). lia.
Qed.

(** ** The tree over the leaves *)

Fixpoint subtree (leaf : nat -> Hash) (h i : nat) : Hash :=
  match h with
  | O => leaf i
  | S h => hash_node (subtree leaf h (2 * i)) (subtree leaf h (2 * i + 1))
  end.

Lemma subtree_ext leaf leaf' h i :
  (forall j, leaf j = leaf' j) -> subtree leaf h i = subtree leaf' h i.
Proof. intros E. revert i. induction h as [|h IH]; intros i; cbn; [apply E|by rewrite !IH]. Qed.

(** The heap of height [H] over [leaf] whose consistent nodes include those not
    in [stale]. *)
Record heap_of (H : nat) (nodes : list Hash) (leaf : nat -> Hash) (stale : nat -> Prop) : Prop := {
  ho_len : length nodes = (2 * 2 ^ H)%nat;
  ho_leaf : forall i, (i < 2 ^ H)%nat -> nodes !! (2 ^ H + i)%nat = Some (leaf i);
  ho_node : forall j, (1 <= j < 2 ^ H)%nat -> consistent nodes j \/ stale j
}.

Definition fresh (_ : nat) : Prop := False.

Lemma heap_nodes H nodes leaf h d i :
  heap_of H nodes leaf fresh -> (h + d = H)%nat -> (i < 2 ^ d)%nat ->
  nodes !! (2 ^ d + i)%nat = Some (subtree leaf h i).
Proof.
  intros Hh. revert d i. induction h as [|h IH]; intros d i Hd Hi.
  - cbn in Hd. subst d. by apply (ho_leaf _ _ _ _ Hh).
  - pose proof (pow2_pos d). pose proof (pow2_le (S d) H ltac:(lia)) as Hp. cbn [Nat.pow] in Hp.
    destruct (ho_node _ _ _ _ Hh (2 ^ d + i)%nat) as [(l & r & Hl & Hr & Hn)|[]]; [lia|].
    rewrite Hn. cbn [subtree]. f_equal.
    replace (2 * (2 ^ d + i))%nat with (2 ^ S d + 2 * i)%nat in Hl, Hr by (cbn [Nat.pow]; lia).
    rewrite <- Nat.add_assoc in Hr.
    rewrite (IH (S d) (2 * i)%nat) in Hl by (cbn [Nat.pow]; lia).
    rewrite (IH (S d) (2 * i + 1)%nat) in Hr by (cbn [Nat.pow]; lia). congruence.
Qed.

Lemma heap_root H nodes leaf : heap_of H nodes leaf fresh -> nodes !! 1%nat = Some (subtree leaf H 0).
Proof. intros Hh. apply (heap_nodes H nodes leaf H 0 0 Hh); cbn; lia. Qed.

(** ** Folding the paths of changed leaves *)

(** The [k]-th ancestor of leaf [l]. *)
Definition anc (H l k : nat) : nat := ((2 ^ H + l) / 2 ^ k)%nat.

Lemma anc_S H l k : anc H l (S k) = Nat.div2 (anc H l k).
Proof.
  unfold anc. rewrite Nat.div2_div, Nat.Div0.div_div. f_equal. cbn [Nat.pow]. lia.
Qed.

Lemma anc_depth H l k : (l < 2 ^ H)%nat -> (k <= H)%nat -> at_depth (H - k) (anc H l k).
Proof.
  intros Hl Hk. induction k as [|k IH].
  - unfold anc, at_depth. rewrite Nat.sub_0_r. cbn [Nat.pow]. rewrite Nat.div_1_r. lia.
  - rewrite anc_S. apply at_depth_parent. replace (S (H - S k)) with (H - k)%nat by lia.
    apply IH. lia.
Qed.

(** The ancestors of the leaves [ls]. *)
Definition above (H : nat) (ls : list nat) (j : nat) : Prop :=
  exists l k, l ∈ ls /\ (1 <= k)%nat /\ j = anc H l k.

Lemma above_mono H ls ls' j : (forall l, l ∈ ls -> l ∈ ls') -> above H ls j -> above H ls' j.
Proof. intros Hsub (l & k & Hl & Hk & E). exists l, k. auto. Qed.

Lemma elem_of_dedup {A} `{EqDecision A} (x : A) l : x ∈ dedup l <-> x ∈ l.
Proof.
  induction l as [|y l IH]; [done|]. destruct l as [|z l]; [done|]. cbn [dedup] in *.
  case_decide as E.
  - subst. rewrite IH. rewrite !elem_of_cons. tauto.
  - rewrite elem_of_cons, IH. by rewrite (elem_of_cons _ x y).
Qed.

Lemma elem_of_parents x level :
  x ∈ parents_of level <-> exists y, y ∈ level /\ x = Nat.div2 y.
Proof.
  unfold parents_of. rewrite elem_of_dedup, list_elem_of_fmap. naive_solver.
Qed.

(** The nodes of depth [d] above the leaves [ls]: what [fold_levels] has reached. *)
Record level_of (H : nat) (ls : list nat) (d : nat) (level : list nat) : Prop := {
  lv_from : forall x, x ∈ level -> exists l, l ∈ ls /\ x = anc H l (H - d);
  lv_all : forall l, l ∈ ls -> anc H l (H - d) ∈ level
}.

Lemma level_depth H ls d level x :
  level_of H ls d level -> (forall l, l ∈ ls -> (l < 2 ^ H)%nat) -> (d <= H)%nat ->
  x ∈ level -> at_depth d x.
Proof.
  intros Hl Hls Hd Hx. destruct (lv_from _ _ _ _ Hl x Hx) as (l & Hin & ->).
  pose proof (anc_depth H l (H - d) (Hls l Hin) ltac:(lia)) as Ha.
  by replace (H - (H - d))%nat with d in Ha by lia.
Qed.

Lemma level_up H ls d level :
  level_of H ls (S d) level -> (S d <= H)%nat -> level_of H ls d (parents_of level).
Proof.
  intros [Hf Ha] Hd.
  assert (Es : forall l, anc H l (H - d) = Nat.div2 (anc H l (H - S d))).
  { intros l. rewrite <- anc_S. f_equal. lia. }
  split.
  - intros x Hx. apply elem_of_parents in Hx as (y & Hy & ->).
    destruct (Hf y Hy) as (l & Hl & ->). exists l. by rewrite Es.
  - intros l Hl. apply elem_of_parents. exists (anc H l (H - S d)). split; [by apply Ha|apply Es].
Qed.

(** One round: the level above is rehashed, and everything below it was. *)
Lemma fold_round H ls d level nodes :
  length nodes = (2 * 2 ^ H)%nat -> (S d <= H)%nat -> (forall l, l ∈ ls -> (l < 2 ^ H)%nat) ->
  level_of H ls (S d) level ->
  (forall j, (1 <= j < 2 ^ H)%nat -> consistent nodes j \/ (j < 2 ^ S d)%nat /\ above H ls j) ->
  exists nodes', hash_parents nodes (parents_of level) = Ok nodes' /\
    length nodes' = length nodes /\
    (forall j, (2 ^ H <= j)%nat -> nodes' !! j = nodes !! j) /\
    (forall j, (1 <= j < 2 ^ H)%nat -> consistent nodes' j \/ (j < 2 ^ d)%nat /\ above H ls j).
Proof.
  intros Hlen Hd Hls Hlv Hc. pose proof (level_up _ _ _ _ Hlv Hd) as Hup.
  assert (Hdep : forall p, p ∈ parents_of level -> at_depth d p).
  { intros p Hp. eapply level_depth; eauto. lia. }
  destruct (hash_level_spec nodes H d (parents_of level) Hlen ltac:(lia) Hdep)
    as (nodes' & E & Hlen' & Hother & Hcons).
  exists nodes'. split_and!; [done|done|..].
  { intros j Hj. apply Hother. intros Hp. destruct (Hdep j Hp) as [_ H2].
    pose proof (pow2_le (S d) H Hd). lia. }
  intros j Hj. destruct (decide (j ∈ parents_of level)) as [Hin|Hnin]; [left; by apply Hcons|].
  assert (Hkid : forall b, (b <= 1)%nat -> (2 * j + b)%nat ∈ parents_of level ->
            (j < 2 ^ d)%nat /\ above H ls j).
  { intros b Hb Hp. pose proof (Hdep _ Hp) as [Hp1 Hp2]. split.
    - cbn [Nat.pow] in Hp2. lia.
    - destruct (lv_from _ _ _ _ Hup _ Hp) as (l & Hl & El). exists l, (S (H - d)).
      split; [done|]. split; [lia|]. rewrite anc_S, <- El.
      rewrite Nat.div2_div. apply Nat.div_unique with b; lia. }
  destruct (decide ((2 * j + 0)%nat ∈ parents_of level)) as [H0|H0]; [right; by apply (Hkid 0%nat); [lia|]|].
  destruct (decide ((2 * j + 1)%nat ∈ parents_of level)) as [H1|H1]; [right; by apply (Hkid 1%nat); [lia|]|].
  rewrite Nat.add_0_r in H0. destruct (Hc j Hj) as [Hcj|[Hlt Hab]].
  - left. eapply consistent_same; [..|exact Hcj]; by apply Hother.
  - right. split; [|done]. destruct (decide (j < 2 ^ d)%nat) as [|Hge]; [done|].
    exfalso. apply Hnin. destruct Hab as (l & k & Hl & Hk & ->).
    assert (at_depth d (anc H l k)) as Hdj by (split; lia).
    destruct (decide (k <= H)%nat) as [HkH|HkH].
    + pose proof (at_depth_unique _ _ _ Hdj (anc_depth H l k (Hls l Hl) HkH)).
      replace k with (H - d)%nat by lia. by apply (lv_all _ _ _ _ Hup).
    + assert (anc H l k = 0)%nat; [|lia]. unfold anc. apply Nat.div_small.
      pose proof (Hls l Hl). pose proof (pow2_le (S H) k ltac:(lia)) as Hp. cbn [Nat.pow] in Hp. lia.
Qed.

Lemma fold_levels_spec H ls d fuel level nodes :
  (d <= fuel)%nat -> length nodes = (2 * 2 ^ H)%nat -> (d <= H)%nat -> ls ≠ [] ->
  (forall l, l ∈ ls -> (l < 2 ^ H)%nat) -> level_of H ls d level ->
  (forall j, (1 <= j < 2 ^ H)%nat -> consistent nodes j \/ (j < 2 ^ d)%nat /\ above H ls j) ->
  exists nodes', fold_levels fuel level nodes = Ok nodes' /\ length nodes' = length nodes /\
    (forall j, (2 ^ H <= j)%nat -> nodes' !! j = nodes !! j) /\
    (forall j, (1 <= j < 2 ^ H)%nat -> consistent nodes' j).
Proof.
  intros Hf Hlen Hd Hne Hls. revert fuel level nodes Hf Hlen Hd.
  induction d as [|d IH]; intros fuel level nodes Hf Hlen Hd Hlv Hc.
  all: assert (exists x, level !! 0%nat = Some x) as [x Hx]
    by (destruct ls as [|l ls]; [done|]; pose proof (lv_all _ _ _ _ Hlv l ltac:(left)) as Hin;
        destruct level; [by apply not_elem_of_nil in Hin|by eexists]).
  all: pose proof (level_depth _ _ _ _ x Hlv Hls Hd (list_elem_of_lookup_2 _ _ _ Hx)) as [Hx1 Hx2].
  - destruct fuel as [|fuel]; cbn [fold_levels]; rewrite (at_index_some _ _ _ Hx);
      cbn [mbind result_bind outcome_bind]; cbn in Hx2; rewrite (proj2 (Nat.ltb_ge _ _)) by lia;
      (exists nodes; split_and!; try done; intros j Hj; destruct (Hc j Hj) as [|[Hlt _]]; [done|cbn in Hlt; lia]).
  - destruct fuel as [|fuel]; [lia|]. cbn [fold_levels]. rewrite (at_index_some _ _ _ Hx).
    cbn [mbind result_bind outcome_bind]. pose proof (pow2_pos d). cbn [Nat.pow] in Hx1.
    rewrite (proj2 (Nat.ltb_lt _ _)) by lia.
    destruct (fold_round H ls d level nodes Hlen Hd Hls Hlv Hc) as (nodes1 & -> & Hlen1 & Hleaf1 & Hc1).
    cbn [mbind result_bind outcome_bind].
    destruct (IH fuel (parents_of level) nodes1) as (nodes' & E & Hlen' & Hleaf' & Hc');
      [lia|lia|lia|by apply level_up|done|].
    exists nodes'. split_and!; [done|lia| |done]. intros j Hj. rewrite Hleaf' by done. by apply Hleaf1.
Qed.

Lemma elem_of_insert_sorted {A} (key : A -> N) x y l :
  y ∈ insert_sorted key x l <-> y = x \/ y ∈ l.
Proof.
  induction l as [|z l IH]; cbn; [by rewrite elem_of_cons|].
  destruct (_ <=? _); rewrite !elem_of_cons; [done|]. rewrite IH. tauto.
Qed.

Lemma elem_of_sort {A} (key : A -> N) y l : y ∈ sort_by_key key l <-> y ∈ l.
Proof.
  induction l as [|x l IH]; [done|]. cbn [sort_by_key foldr].
  rewrite elem_of_insert_sorted, elem_of_cons. by rewrite IH.
Qed.

(** Both ways of rehashing a twig end in the heap of its leaves. *)
Lemma fold_batch_spec t leaf locals :
  heap_of TWIG_HEIGHT (tw_nodes t) leaf (above TWIG_HEIGHT locals) -> locals ≠ [] ->
  (forall l, l ∈ locals -> (l < TWIG_SIZE)%nat) ->
  exists nodes, fold_batch locals t = Ok (mkTwig nodes (tw_live t) (tw_dirty t)) /\
    heap_of TWIG_HEIGHT nodes leaf fresh.
Proof.
  intros [Hlen Hleaf Hnode] Hne Hl. rewrite twig_size_pow in Hl. unfold fold_batch.
  set (level := dedup _).
  destruct (fold_levels_spec TWIG_HEIGHT locals TWIG_HEIGHT TWIG_HEIGHT level (tw_nodes t))
    as (nodes & E & Hlen' & Hleaf' & Hc); try done.
  - assert (E0 : forall l, anc TWIG_HEIGHT l (TWIG_HEIGHT - TWIG_HEIGHT) = (TWIG_SIZE + l)%nat).
    { intros l. rewrite Nat.sub_diag. unfold anc. cbn [Nat.pow].
      rewrite Nat.div_1_r, twig_size_pow. done. }
    split; subst level.
    + intros x Hx. apply elem_of_dedup, elem_of_sort, list_elem_of_fmap in Hx as (l & -> & Hin).
      exists l. by rewrite E0.
    + intros l Hin. rewrite E0. apply elem_of_dedup, elem_of_sort, list_elem_of_fmap. eauto.
  - intros j Hj. destruct (Hnode j Hj) as [|Ha]; [by left|]. right. split; [lia|done].
  - exists nodes. destruct locals as [|l locals]; [done|]. subst level. rewrite E. split; [done|].
    split; [lia|..].
    + intros i Hi. rewrite Hleaf' by lia. by apply Hleaf.
    + intros j Hj. left. by apply Hc.
Qed.

(** Rehashing a whole level above consistent ones. *)
Lemma recompute_round H d nodes :
  length nodes = (2 * 2 ^ H)%nat -> (d < H)%nat ->
  (forall j, (2 ^ S d <= j < 2 ^ H)%nat -> consistent nodes j) ->
  exists nodes', hash_parents nodes (seq (2 ^ d) (2 ^ d)) = Ok nodes' /\
    length nodes' = length nodes /\
    (forall j, (2 ^ H <= j)%nat -> nodes' !! j = nodes !! j) /\
    (forall j, (2 ^ d <= j < 2 ^ H)%nat -> consistent nodes' j).
Proof.
  intros Hlen Hd Hc. pose proof (pow2_le (S d) H ltac:(lia)) as Hp. cbn [Nat.pow] in Hp, Hc.
  destruct (hash_level_spec nodes H d (seq (2 ^ d) (2 ^ d)) Hlen Hd)
    as (nodes' & E & Hlen' & Hother & Hcons).
  { intros p Hin. apply elem_of_seq in Hin. unfold at_depth. cbn [Nat.pow]. lia. }
  exists nodes'. split_and!; [done|done|..].
  - intros j Hj. apply Hother. rewrite elem_of_seq. lia.
  - intros j Hj. destruct (decide (j < 2 * 2 ^ d)%nat) as [Hlt|Hge].
    + apply Hcons, elem_of_seq. lia.
    + eapply consistent_same; [..|apply Hc; lia]; apply Hother; rewrite elem_of_seq; lia.
Qed.

Lemma recompute_levels_spec H d fuel nodes :
  (S d <= fuel)%nat -> length nodes = (2 * 2 ^ H)%nat -> (d < H)%nat ->
  (forall j, (2 ^ S d <= j < 2 ^ H)%nat -> consistent nodes j) ->
  exists nodes', recompute_levels fuel (2 ^ d) nodes = Ok nodes' /\ length nodes' = length nodes /\
    (forall j, (2 ^ H <= j)%nat -> nodes' !! j = nodes !! j) /\
    (forall j, (1 <= j < 2 ^ H)%nat -> consistent nodes' j).
Proof.
  revert fuel nodes. induction d as [|d IH]; intros fuel nodes Hf Hlen Hd Hc;
    (destruct fuel as [|fuel]; [lia|]); cbn [recompute_levels];
    rewrite (proj2 (Nat.leb_le _ _)) by apply pow2_pos;
    destruct (recompute_round H _ nodes Hlen Hd Hc) as (nodes1 & -> & Hlen1 & Hleaf1 & Hc1);
    cbn [mbind result_bind outcome_bind].
  - exists nodes1. change (2 ^ 0 / 2)%nat with 0%nat.
    split_and!; [by destruct fuel|done|done|]. intros j Hj. apply Hc1. cbn. lia.
  - replace (2 ^ S d / 2)%nat with (2 ^ d)%nat
      by (cbn [Nat.pow]; rewrite Nat.mul_comm; symmetry; apply Nat.div_mul; lia).
    destruct (IH fuel nodes1) as (nodes' & E & Hlen' & Hleaf' & Hc'); [lia|lia|lia|done|].
    exists nodes'. split_and!; [done|lia| |done]. intros j Hj. rewrite Hleaf' by done. by apply Hleaf1.
Qed.

Lemma recompute_spec t leaf stale :
  heap_of TWIG_HEIGHT (tw_nodes t) leaf stale ->
  exists nodes, recompute t = Ok (mkTwig nodes (tw_live t) (tw_dirty t)) /\
    heap_of TWIG_HEIGHT nodes leaf fresh.
Proof.
  intros [Hlen Hleaf _]. unfold recompute. pose proof twig_height_pos as Hp.
  assert (TWIG_SIZE / 2 = 2 ^ (TWIG_HEIGHT - 1))%nat as ->.
  { rewrite twig_size_pow. replace TWIG_HEIGHT with (S (TWIG_HEIGHT - 1)) at 1 by lia.
    cbn [Nat.pow]. rewrite Nat.mul_comm. apply Nat.div_mul. lia. }
  destruct (recompute_levels_spec TWIG_HEIGHT (TWIG_HEIGHT - 1) TWIG_HEIGHT (tw_nodes t))
    as (nodes & -> & Hlen' & Hleaf' & Hc); [lia|done|lia|..].
  { intros j Hj. replace (S (TWIG_HEIGHT - 1)) with TWIG_HEIGHT in Hj by lia. lia. }
  exists nodes. split; [done|]. split; [lia|..].
  - intros i Hi. rewrite Hleaf' by lia. by apply Hleaf.
  - intros j Hj. left. by apply Hc.
Qed.

(** ** New twigs and written leaves *)

Lemma null_level_lookup h : (h <= TWIG_HEIGHT)%nat -> null_level !! h = Some (null_hash h).
Proof.
  intros Hh. unfold null_level. rewrite list_lookup_fmap, lookup_seq_lt by lia. done.
Qed.

Lemma seed_nulls_spec a n nodes :
  (1 <= a)%nat -> (a + n <= length nodes)%nat ->
  exists nodes', seed_nulls null_level (seq a n) nodes = Ok nodes' /\
    length nodes' = length nodes /\
    (forall j, (j < a \/ a + n <= j)%nat -> nodes' !! j = nodes !! j) /\
    (forall j, (a <= j < a + n)%nat -> nodes' !! j = Some (null_hash (TWIG_HEIGHT - Nat.log2 j))).
Proof.
  revert a nodes. induction n as [|n IH]; intros a nodes Ha Hl.
  { exists nodes. split_and!; try done. intros j Hj. lia. }
  cbn [seq seed_nulls]. rewrite (at_index_some _ _ _ (null_level_lookup (TWIG_HEIGHT - Nat.log2 a) (Nat.le_sub_l _ _))).
  cbn [mbind result_bind outcome_bind].
  destruct (lookup_lt_is_Some_2 nodes a) as [x Hx]; [lia|]. rewrite (update_at_some _ _ _ _ Hx).
  cbn [mbind result_bind outcome_bind].
  destruct (IH (S a) (<[a := null_hash (TWIG_HEIGHT - Nat.log2 a)]> nodes))
    as (nodes' & E & Hlen & Hout & Hin); [lia|rewrite length_insert; lia|].
  rewrite length_insert in Hlen. exists nodes'. split_and!; [done|done|..].
  - intros j Hj. rewrite Hout by lia. by rewrite list_lookup_insert_ne by lia.
  - intros j Hj. destruct (decide (j = a)) as [->|Hne]; [|apply Hin; lia].
    rewrite Hout by lia. apply list_lookup_insert_eq. lia.
Qed.

Lemma null_node j :
  (1 <= j < TWIG_SIZE)%nat ->
  null_hash (TWIG_HEIGHT - Nat.log2 j)
  = hash_node (null_hash (TWIG_HEIGHT - Nat.log2 (2 * j))) (null_hash (TWIG_HEIGHT - Nat.log2 (2 * j + 1))).
Proof.
  intros Hj. rewrite Nat.log2_double by lia. rewrite Nat.log2_succ_double by lia.
  rewrite twig_size_pow in Hj.
  assert (Nat.log2 j < TWIG_HEIGHT)%nat by (apply Nat.log2_lt_pow2; lia).
  replace (TWIG_HEIGHT - Nat.log2 j)%nat with (S (TWIG_HEIGHT - S (Nat.log2 j))) by lia. done.
Qed.

Lemma twig_new_spec :
  exists nodes, twig_new null_level = Ok (mkTwig nodes 0 false) /\
    heap_of TWIG_HEIGHT nodes (fun _ => NULL_HASH) fresh.
Proof.
  unfold twig_new. pose proof (pow2_pos TWIG_HEIGHT) as Hp. rewrite <- twig_size_pow in Hp.
  destruct (seed_nulls_spec 1 (TWIG_SIZE - 1) (replicate (2 * TWIG_SIZE) NULL_HASH))
    as (nodes & -> & Hlen & Hout & Hin); [lia|rewrite length_replicate; lia|].
  rewrite length_replicate in Hlen. exists nodes. split; [done|].
  assert (Hall : forall j, (1 <= j < 2 * TWIG_SIZE)%nat ->
    nodes !! j = Some (null_hash (TWIG_HEIGHT - Nat.log2 j))).
  { intros j Hj. destruct (decide (j < TWIG_SIZE)%nat); [apply Hin; lia|].
    rewrite Hout by lia. rewrite lookup_replicate_2 by lia. f_equal.
    assert (TWIG_HEIGHT <= Nat.log2 j)%nat.
    { apply Nat.log2_le_pow2; [lia|]. rewrite <- twig_size_pow. lia. }
    replace (TWIG_HEIGHT - Nat.log2 j)%nat with 0%nat by lia. done. }
  split; rewrite <- ?twig_size_pow; [done|..].
  - intros i Hi. rewrite Hout by lia. apply lookup_replicate_2. lia.
  - intros j Hj. left. unfold consistent. eexists _, _. split_and!; [apply Hall; lia..|].
    rewrite Hall by lia. f_equal. by apply null_node.
Qed.

Lemma heap_of_weaken H nodes leaf (s s' : nat -> Prop) :
  (forall j, s j -> s' j) -> heap_of H nodes leaf s -> heap_of H nodes leaf s'.
Proof. intros Hs [H1 H2 H3]. split; try done. intros j Hj. destruct (H3 j Hj); auto. Qed.

Lemma heap_of_ext H nodes leaf leaf' s :
  (forall i, (i < 2 ^ H)%nat -> leaf i = leaf' i) -> heap_of H nodes leaf s -> heap_of H nodes leaf' s.
Proof. intros Hl [H1 H2 H3]. split; try done. intros i Hi. by rewrite H2, Hl. Qed.

Lemma heap_write_leaf_spec t leaf ls local h :
  heap_of TWIG_HEIGHT (tw_nodes t) leaf (above TWIG_HEIGHT ls) -> (local < TWIG_SIZE)%nat ->
  exists nodes, twig_write_leaf local h t = Ok (mkTwig nodes (tw_live t) true) /\
    heap_of TWIG_HEIGHT nodes (fun i => if decide (i = local) then h else leaf i)
      (above TWIG_HEIGHT (ls ++ [local])).
Proof.
  intros [Hlen Hleaf Hnode] Hl. unfold twig_write_leaf. rewrite twig_size_pow in *.
  rewrite (update_at_some _ _ _ _ (Hleaf local Hl)). cbn [mbind result_bind outcome_bind].
  eexists. split; [done|]. split.
  - by rewrite length_insert.
  - intros i Hi. case_decide as E.
    + subst. apply list_lookup_insert_eq. lia.
    + rewrite list_lookup_insert_ne by lia. by apply Hleaf.
  - intros j Hj. destruct (decide (j = anc TWIG_HEIGHT local 1)) as [->|Hne].
    + right. exists local, 1%nat. split; [|done]. apply elem_of_app. right. by left.
    + assert (Hkids : forall b, (b <= 1)%nat -> (2 ^ TWIG_HEIGHT + local)%nat ≠ (2 * j + b)%nat).
      { intros b Hb E. apply Hne. unfold anc. cbn [Nat.pow]. rewrite Nat.mul_1_r, E.
        apply Nat.div_unique with b; lia. }
      destruct (Hnode j Hj) as [Hc|Ha].
      * left. pose proof (Hkids 0%nat ltac:(lia)). pose proof (Hkids 1%nat ltac:(lia)).
        eapply consistent_same; [..|exact Hc]; apply list_lookup_insert_ne; lia.
      * right. eapply above_mono; [|exact Ha]. intros l Hin. apply elem_of_app. by left.
Qed.

(** ** Sibling paths *)

Lemma sibling_path_spec nodes j idx x n :
  (forall i, (1 <= i < 2 ^ n)%nat -> consistent nodes i) -> j = (2 ^ n + idx)%nat ->
  (idx < 2 ^ n)%nat -> nodes !! j = Some x ->
  exists path, sibling_path n nodes j = Ok path /\ length path = n /\
    nodes !! 1%nat = Some (fold_path x idx path).
Proof.
  revert j idx x. induction n as [|n IH]; intros j idx x Hc Hj Hi Hx.
  { exists []. cbn in Hj, Hi. assert (j = 1)%nat as E by lia. rewrite E in Hx. done. }
  assert (Hjd : j = (2 * Nat.div2 j + Nat.b2n (Nat.odd j))%nat) by apply Nat.div2_odd.
  assert (Hid : idx = (2 * Nat.div2 idx + Nat.b2n (Nat.odd idx))%nat) by apply Nat.div2_odd.
  assert (Hodd : Nat.odd idx = Nat.odd j).
  { rewrite Hj, Nat.pow_succ_r', Nat.add_comm. by rewrite Nat.odd_add_mul_2. }
  set (jd := Nat.div2 j) in *. set (idd := Nat.div2 idx) in *.
  assert (Hjd' : jd = (2 ^ n + idd)%nat).
  { cbn [Nat.pow] in Hj. rewrite Hodd in Hid. lia. }
  assert (Hidd : (idd < 2 ^ n)%nat) by (cbn [Nat.pow] in Hi; lia).
  pose proof (pow2_pos n) as Hp.
  destruct (Hc jd) as (l & r & Hl & Hr & Hn); [cbn [Nat.pow] in *; lia|].
  destruct (IH jd idd (hash_node l r)) as (path & E & Hlen & Hroot); [|done|done|done|].
  { intros i Hi'. apply Hc. cbn [Nat.pow]. lia. }
  cbn [sibling_path]. fold jd. rewrite ShardTree.lxor_one. fold jd.
  destruct (Nat.odd j) eqn:Eo; cbn [Nat.b2n] in *.
  - assert (Nat.even j = false) as -> by (by rewrite <- Nat.negb_odd, Eo).
    assert (nodes !! (2 * jd)%nat = Some l) as Hs by done.
    rewrite (at_index_some _ _ _ Hs). cbn [mbind result_bind outcome_bind]. rewrite E.
    exists (l :: path). split; [done|]. split; [cbn; lia|]. cbn [fold_path].
    assert (Nat.even idx = false) as -> by (by rewrite <- Nat.negb_odd, Hodd).
    fold idd. rewrite Hroot. rewrite Hjd in Hx. congruence.
  - assert (Nat.even j = true) as -> by (by rewrite <- Nat.negb_odd, Eo).
    assert (nodes !! S (2 * jd)%nat = Some r) as Hs by (by rewrite <- Nat.add_1_r).
    rewrite (at_index_some _ _ _ Hs). cbn [mbind result_bind outcome_bind]. rewrite E.
    exists (r :: path). split; [done|]. split; [cbn; lia|]. cbn [fold_path].
    assert (Nat.even idx = true) as -> by (by rewrite <- Nat.negb_odd, Hodd).
    fold idd. rewrite Hroot. rewrite Hjd, Nat.add_0_r in Hx. congruence.
Qed.

(** ** The upper tree *)

Lemma hash_parents_desc nodes m n :
  length nodes = (2 * n)%nat -> (m < n)%nat ->
  (forall j, (m < j < n)%nat -> consistent nodes j) ->
  exists nodes', hash_parents nodes (rev (seq 1 m)) = Ok nodes' /\ length nodes' = length nodes /\
    (forall j, (m < j)%nat -> nodes' !! j = nodes !! j) /\
    (forall j, (1 <= j < n)%nat -> consistent nodes' j).
Proof.
  revert nodes. induction m as [|m IH]; intros nodes Hlen Hm Hc.
  { by exists nodes. }
  rewrite seq_S, rev_app_distr. cbn [rev app]. rewrite Nat.add_1_l.
  destruct (hash_parents_step nodes (S m) (rev (seq 1 m))) as (l & r & Hl & Hr & ->); [lia|].
  set (nodes1 := <[S m := hash_node l r]> nodes).
  assert (Hlen1 : length nodes1 = (2 * n)%nat) by (unfold nodes1; by rewrite length_insert).
  destruct (IH nodes1 Hlen1) as (nodes' & E & Hlen' & Hout & Hall); [lia|..].
  { intros j Hj. destruct (decide (j = S m)) as [->|Hne].
    - exists l, r. unfold nodes1. rewrite !list_lookup_insert_ne by lia.
      rewrite list_lookup_insert_eq by lia. done.
    - eapply consistent_same; [..|apply (Hc j); lia]; apply list_lookup_insert_ne; lia. }
  exists nodes'. split_and!; [done|lia| |done]. intros j Hj. rewrite Hout by lia.
  unfold nodes1. apply list_lookup_insert_ne. lia.
Qed.
End heap.
