(* ===== verification/TwigLog.v ===== *)
(** * The log of a twig tree

    What a twig tree promises, without its data structures: the state is the log
    of the entries ever appended, each with its key and, while it is active, its
    value.  The map of a log, its root and the effect of every operation on a log
    are functions of the log.  The file shows that the operations act on the map
    as an update, a removal or not at all, and that a batch does not depend on the
    order of its operations. *)

From S2P Require Import Prelude Effects Messages BmtCore FlatIndex Twig TwigHeap.

Abbreviation Log := (list (Hash * option bytes)).

Definition live_item (e : Hash * option bytes) : option (Hash * bytes) := pair e.1 <$> e.2.
(** The active entries. *)
Definition live (log : Log) : list (Hash * bytes) := omap live_item log.
Definition log_map (log : Log) : gmap Hash bytes := list_to_map (live log).
(** Every key has at most one active entry. *)
Definition log_ok (log : Log) : Prop := NoDup (live log).*1.

Definition drop_item (k : Hash) (e : Hash * option bytes) : Hash * option bytes :=
  if decide (e.1 = k) then (e.1, None) else e.
Definition log_drop (k : Hash) (log : Log) : Log := drop_item k <$> log.
Definition log_set (k : Hash) (v : bytes) (log : Log) : Log := log_drop k log ++ [(k, Some v)].
Definition log_op (log : Log) (op : batch_op) : Log :=
  match op.2 with Some v => log_set op.1 v log | None => log_drop op.1 log end.
Definition log_batch (ops : list batch_op) (log : Log) : Log :=
  foldl log_op log (sort_by_key fst ops).

(** The entries of twig [i]. *)
Definition twig_log (log : Log) (i : nat) : Log := take TWIG_SIZE (drop (i * TWIG_SIZE) log).
Definition live_in (log : Log) (i : nat) : nat := length (live (twig_log log i)).
Definition twig_count (n : nat) : nat := ((n + (TWIG_SIZE - 1)) / TWIG_SIZE)%nat.

Definition log_sparse (threshold : SpecFloat.spec_float) (log : Log) : list nat :=
  filter (fun i => i ≠ (length log / TWIG_SIZE)%nat /\ live_in log i ≠ 0%nat /\
                   below_threshold threshold (live_in log i) = true)
    (seq 0 (twig_count (length log))).
Definition log_moved (threshold : SpecFloat.spec_float) (log : Log) : list (Hash * bytes) :=
  sort_by_key fst (log_sparse threshold log ≫= fun i => live (twig_log log i)).
Definition log_compact (threshold : SpecFloat.spec_float) (log : Log) : Log :=
  foldl (fun g kv => log_set kv.1 kv.2 g) log (log_moved threshold log).

(** ** Operations and the map *)

Lemma live_app l l' : live (l ++ l') = live l ++ live l'.
Proof. apply omap_app. Qed.

Lemma elem_of_live k v log : (k, v) ∈ live log <-> (k, Some v) ∈ log.
Proof.
  unfold live. rewrite list_elem_of_omap. split.
  - intros ([k' [v'|]] & Hin & E); cbn in E; [|done]. by simplify_eq.
  - intros Hin. by exists (k, Some v).
Qed.

Lemma live_cons e log :
  live (e :: log) = match live_item e with Some kv => kv :: live log | None => live log end.
Proof. done. Qed.

Lemma live_drop k log : live (log_drop k log) = filter (fun kv => kv.1 ≠ k) (live log).
Proof.
  induction log as [|[k' o] log IH]; [done|]. unfold log_drop. rewrite fmap_cons, !live_cons.
  fold (log_drop k log). rewrite IH. unfold drop_item. cbn [fst].
  destruct o as [v|], (decide (k' = k)) as [->|Hne]; cbn [live_item fst snd fmap option_fmap option_map].
  - by rewrite filter_cons_False by (cbn; tauto).
  - by rewrite filter_cons_True by done.
  - done.
  - done.
Qed.

Lemma not_elem_of_dropped k log : k ∉ (live (log_drop k log)).*1.
Proof.
  rewrite live_drop. intros ([k' v] & -> & [Hne _]%list_elem_of_filter)%list_elem_of_fmap. by apply Hne.
Qed.

Lemma fst_filter_sublist {A B} (P : A * B -> Prop) `{!forall x, Decision (P x)} (l : list (A * B)) :
  (filter P l).*1 `sublist_of` l.*1.
Proof. apply fmap_sublist, sublist_filter. Qed.

Lemma log_drop_ok k log : log_ok log -> log_ok (log_drop k log).
Proof. unfold log_ok. rewrite live_drop. intros H. by eapply sublist_NoDup; [|apply fst_filter_sublist]. Qed.

Lemma log_set_ok k v log : log_ok log -> log_ok (log_set k v log).
Proof.
  intros Hok. unfold log_ok, log_set. rewrite live_app, fmap_app. apply NoDup_app. split_and!.
  - by apply log_drop_ok.
  - intros k' Hin Hk. cbn in Hk. apply list_elem_of_singleton in Hk as ->.
    by apply not_elem_of_dropped in Hin.
  - cbn. apply NoDup_singleton.
Qed.

Lemma log_map_drop k log : log_map (log_drop k log) = delete k (log_map log).
Proof.
  unfold log_map. rewrite live_drop. induction (live log) as [|[k' v] l IH]; [symmetry; apply delete_empty|].
  destruct (decide (k' = k)) as [->|Hne].
  - rewrite filter_cons_False by (cbn; tauto). cbn. by rewrite delete_insert_eq, IH.
  - rewrite filter_cons_True by done. cbn. by rewrite delete_insert_ne, IH.
Qed.

Lemma log_map_set k v log : log_map (log_set k v log) = <[k := v]> (log_map log).
Proof.
  unfold log_set. transitivity (<[k := v]> (log_map (log_drop k log))).
  - unfold log_map at 1. rewrite live_app, list_to_map_app. fold (log_map (log_drop k log)). cbn.
    rewrite insert_empty. apply map_eq. intros j. rewrite lookup_union.
    destruct (decide (j = k)) as [->|Hne].
    + rewrite lookup_insert_eq, lookup_singleton_eq. unfold log_map.
      by rewrite not_elem_of_list_to_map_1 by apply not_elem_of_dropped.
    + rewrite lookup_insert_ne, lookup_singleton_ne by done. by destruct (log_map _ !! j).
  - by rewrite log_map_drop, insert_delete_eq.
Qed.

Definition map_op (m : gmap Hash bytes) (op : batch_op) : gmap Hash bytes :=
  match op.2 with Some v => <[op.1 := v]> m | None => delete op.1 m end.

Lemma log_map_op log op : log_map (log_op log op) = map_op (log_map log) op.
Proof. destruct op as [k [v|]]; [apply log_map_set|apply log_map_drop]. Qed.
Lemma log_map_ops log ops : log_map (foldl log_op log ops) = foldl map_op (log_map log) ops.
Proof.
  revert log. induction ops as [|op ops IH]; intros log; cbn [foldl]; [done|].
  by rewrite IH, log_map_op.
Qed.

Lemma log_op_ok log op : log_ok log -> log_ok (log_op log op).
Proof. destruct op as [k [v|]]; [apply log_set_ok|apply log_drop_ok]. Qed.
Lemma log_ops_ok log ops : log_ok log -> log_ok (foldl log_op log ops).
Proof. revert log. induction ops; intros log H; cbn [foldl]; auto using log_op_ok. Qed.

Lemma lookup_live k v log : log_ok log -> log_map log !! k = Some v <-> (k, Some v) ∈ log.
Proof. intros Hok. rewrite <- elem_of_live. symmetry. by apply elem_of_list_to_map. Qed.

(** ** Compaction *)

Lemma moved_live threshold log kv : kv ∈ log_moved threshold log -> kv ∈ live log.
Proof.
  unfold log_moved. rewrite elem_of_sort. intros (i & Hin & _)%list_elem_of_bind.
  destruct kv as [k v]. apply elem_of_live. apply elem_of_live in Hin.
  by eapply subseteq_drop, subseteq_take.
Qed.

Lemma set_same_live log kvs :
  log_ok log -> (forall kv, kv ∈ kvs -> kv ∈ live log) ->
  let log' := foldl (fun g kv => log_set kv.1 kv.2 g) log kvs in
  log_ok log' /\ log_map log' = log_map log.
Proof.
  intros Hok Hkv. cbn zeta. assert (forall g, log_ok g -> log_map g = log_map log ->
    log_ok (foldl (fun g kv => log_set kv.1 kv.2 g) g kvs) /\
    log_map (foldl (fun g kv => log_set kv.1 kv.2 g) g kvs) = log_map log) as H; [|by apply H].
  induction kvs as [|[k v] kvs IH]; intros g Hg Hm; [done|]. cbn [foldl fst snd].
  apply IH; [intros; apply Hkv; by right|by apply log_set_ok|].
  rewrite log_map_set, Hm. apply insert_id. apply elem_of_list_to_map; [done|].
  apply Hkv. left.
Qed.

Lemma log_compact_map threshold log :
  log_ok log -> log_ok (log_compact threshold log) /\ log_map (log_compact threshold log) = log_map log.
Proof. intros Hok. apply set_same_live; [done|]. intros kv. apply moved_live. Qed.

(** ** The order of a batch *)

Lemma insert_sorted_comm {A} (key : A -> N) x y l :
  key x ≠ key y -> insert_sorted key x (insert_sorted key y l) = insert_sorted key y (insert_sorted key x l).
Proof.
  intros Hne. induction l as [|z l IH]; cbn [insert_sorted].
  - destruct (key x <=? key y) eqn:E1, (key y <=? key x) eqn:E2; bool_simpl; try done; lia.
  - destruct (key y <=? key z) eqn:E1, (key x <=? key z) eqn:E2; cbn [insert_sorted];
      rewrite ?E1, ?E2; try by rewrite IH.
    + destruct (key x <=? key y) eqn:E3, (key y <=? key x) eqn:E4; cbn [insert_sorted];
        rewrite ?E1, ?E2; bool_simpl; try done; lia.
    + assert (key x <=? key y = false) as -> by (apply N.leb_gt; bool_simpl; lia). done.
    + assert (key y <=? key x = false) as -> by (apply N.leb_gt; bool_simpl; lia). done.
Qed.

Lemma sort_by_key_perm {A} (key : A -> N) l l' :
  NoDup (key <$> l) -> l ≡ₚ l' -> sort_by_key key l = sort_by_key key l'.
Proof.
  intros Hn Hp. induction Hp as [|x l l' Hp IH|x y l|l l' l'' Hp1 IH1 Hp2 IH2].
  - done.
  - apply NoDup_cons in Hn as [_ Hn]. unfold sort_by_key in *. cbn [foldr]. by rewrite IH.
  - apply NoDup_cons in Hn as [Hn _]. apply insert_sorted_comm.
    intros E. apply Hn. rewrite E. left.
  - rewrite IH1, IH2; [done| |done]. by rewrite <- Hp1.
Qed.

Lemma log_batch_perm ops ops' log :
  NoDup ops.*1 -> ops ≡ₚ ops' -> log_batch ops log = log_batch ops' log.
Proof. intros Hn Hp. unfold log_batch. by rewrite (sort_by_key_perm fst ops ops'). Qed.

Lemma sort_by_key_permutation {A} (key : A -> N) l : sort_by_key key l ≡ₚ l.
Proof.
  assert (Hi : forall x m, insert_sorted key x m ≡ₚ x :: m).
  { intros x. induction m as [|y m IH]; cbn; [done|]. destruct (_ <=? _); [done|].
    rewrite IH. constructor. }
  induction l as [|x l IH]; cbn; [done|]. by rewrite Hi, IH.
Qed.

Lemma insert_sorted_sorted {A} (key : A -> N) x l :
  StronglySorted (fun a b => key a <= key b) l ->
  StronglySorted (fun a b => key a <= key b) (insert_sorted key x l).
Proof.
  induction 1 as [|y l Hs IH Hall]; cbn; [repeat constructor|].
  destruct (key x <=? key y) eqn:E; bool_simpl.
  - constructor; [by constructor|]. constructor; [done|]. eapply Forall_impl; [exact Hall|].
    cbn. intros z. lia.
  - constructor; [done|]. apply Forall_forall. intros z Hz. apply elem_of_insert_sorted in Hz as [->|Hz].
    + lia.
    + by eapply Forall_forall in Hall.
Qed.

Lemma sort_by_key_sorted {A} (key : A -> N) l :
  StronglySorted (fun a b => key a <= key b) (sort_by_key key l).
Proof. induction l as [|x l IH]; cbn; [constructor|]. by apply insert_sorted_sorted. Qed.

Lemma dedup_sorted {A} `{EqDecision A} (R : relation A) l :
  StronglySorted R l -> StronglySorted R (dedup l).
Proof.
  induction 1 as [|x l Hs IH Hall]; [constructor|]. destruct l as [|y l]; [by repeat constructor|].
  change (dedup (x :: y :: l)) with (if decide (x = y) then dedup (y :: l) else x :: dedup (y :: l)).
  case_decide; [done|]. constructor; [done|]. apply Forall_forall. intros z Hz.
  apply (proj1 (elem_of_dedup _ _)) in Hz. by apply (proj1 (Forall_forall _ _) Hall).
Qed.

(** ** The root *)

Section root.
Context {digest : Digest}.

Definition entry_leaf (e : option (Hash * option bytes)) : Hash :=
  match e with Some (k, Some v) => twig_hash_leaf k v | _ => NULL_HASH end.
Definition log_leaf (log : Log) (i l : nat) : Hash := entry_leaf (log !! (i * TWIG_SIZE + l)%nat).
Definition twig_log_root (log : Log) (i : nat) : Hash := subtree (log_leaf log i) TWIG_HEIGHT 0.
Definition upper_leaf (log : Log) (i : nat) : Hash :=
  if (i <? twig_count (length log))%nat then twig_log_root log i else NULL_HASH.
Definition log_root (log : Log) : Hash :=
  match log with
  | [] => NULL_HASH
  | _ => subtree (upper_leaf log) (Nat.log2_up (twig_count (length log))) 0
  end.
End root.
