(* ===== verification/TwigForest.v ===== *)
(** * The twigs over a log

    The twigs of a tree hold the leaves of its log: every twig is a Merkle heap
    over its part of the log in which only the ancestors of touched slots can be
    out of date.  Appending, deactivating and rehashing keep this, and after
    rehashing the roots of the twigs are those of the log. *)

From S2P Require Import Prelude Effects Messages BmtCore FlatIndex FlatIndexTheory.
From S2P Require Import Twig TwigHeap TwigLog.

(** ** Slots and twigs *)

Lemma twig_size_pos : (0 < TWIG_SIZE)%nat.
Proof. rewrite twig_size_pow. pose proof (pow2_pos TWIG_HEIGHT). lia. Qed.

Lemma slot_twig_nat s : slot_twig (N.of_nat s) = (s / TWIG_SIZE)%nat.
Proof. unfold slot_twig. by rewrite N2Nat.inj_div, !Nat2N.id. Qed.
Lemma slot_local_nat s : slot_local (N.of_nat s) = (s mod TWIG_SIZE)%nat.
Proof. unfold slot_local. by rewrite N2Nat.inj_mod, !Nat2N.id. Qed.
Lemma slot_local_lt s : (slot_local s < TWIG_SIZE)%nat.
Proof.
  pose proof twig_size_pos. unfold slot_local. rewrite N2Nat.inj_mod, Nat2N.id.
  apply Nat.mod_upper_bound. lia.
Qed.
Lemma slot_split s : s = (s / TWIG_SIZE * TWIG_SIZE + s mod TWIG_SIZE)%nat.
Proof. pose proof twig_size_pos. pose proof (Nat.div_mod_eq s TWIG_SIZE). lia. Qed.
Lemma slot_of i l : (l < TWIG_SIZE)%nat ->
  ((i * TWIG_SIZE + l) / TWIG_SIZE = i)%nat /\ ((i * TWIG_SIZE + l) mod TWIG_SIZE = l)%nat.
Proof.
  intros Hl. split.
  - symmetry. apply (Nat.div_unique _ _ i l); lia.
  - symmetry. apply (Nat.mod_unique _ _ i l); lia.
Qed.
Lemma slot_mod_lt s : (s mod TWIG_SIZE < TWIG_SIZE)%nat.
Proof. pose proof twig_size_pos. apply Nat.mod_upper_bound. lia. Qed.

Lemma twig_count_S n : twig_count (S n) = S (n / TWIG_SIZE).
Proof.
  pose proof twig_size_pos. unfold twig_count.
  replace (S n + (TWIG_SIZE - 1))%nat with (n + 1 * TWIG_SIZE)%nat by lia.
  rewrite Nat.div_add by lia. lia.
Qed.
Lemma twig_count_le n : (twig_count n <= twig_count (S n))%nat.
Proof. pose proof twig_size_pos. apply Nat.Div0.div_le_mono. lia. Qed.
Lemma twig_count_bound n : (n <= twig_count n * TWIG_SIZE)%nat.
Proof.
  destruct n as [|n]; [lia|]. rewrite twig_count_S. pose proof (slot_split n).
  pose proof (slot_mod_lt n). lia.
Qed.
Lemma twig_count_lt n s : (s < n)%nat -> (s / TWIG_SIZE < twig_count n)%nat.
Proof.
  pose proof twig_size_pos. destruct n as [|n]; [lia|]. intros Hlt. rewrite twig_count_S.
  apply Nat.lt_succ_r, Nat.Div0.div_le_mono. lia.
Qed.
Lemma twig_count_0 n : twig_count n = 0%nat -> n = 0%nat.
Proof. destruct n as [|n]; [done|]. by rewrite twig_count_S. Qed.
Lemma twig_count_zero : twig_count 0 = 0%nat.
Proof. pose proof twig_size_pos. unfold twig_count. apply Nat.div_small. lia. Qed.

(** ** The live entries of the twigs *)

Definition live_one (e : Hash * option bytes) : nat := match e.2 with Some _ => 1%nat | None => 0%nat end.

Lemma length_live_cons e l : length (live (e :: l)) = (live_one e + length (live l))%nat.
Proof. destruct e as [k [v|]]; done. Qed.

Lemma length_live_insert l j e e' :
  l !! j = Some e -> (length (live (<[j := e']> l)) + live_one e = length (live l) + live_one e')%nat.
Proof.
  revert j. induction l as [|x l IH]; intros [|j] H; cbn in H; [done..| |].
  - simplify_eq. change (<[0%nat := e']> (e :: l)) with (e' :: l). rewrite !length_live_cons. lia.
  - change (<[S j := e']> (x :: l)) with (x :: <[j := e']> l). rewrite !length_live_cons.
    specialize (IH j H). lia.
Qed.

Lemma twig_log_insert log s e i :
  twig_log (<[s := e]> log) i =
  if decide (i = s / TWIG_SIZE)%nat then <[(s mod TWIG_SIZE)%nat := e]> (twig_log log i) else twig_log log i.
Proof.
  pose proof (slot_split s) as Hs. pose proof (slot_mod_lt s) as Hm. unfold twig_log.
  case_decide as E.
  - subst i. rewrite drop_insert_ge by lia. rewrite take_insert_lt by lia. f_equal. lia.
  - destruct (decide (i < s / TWIG_SIZE)%nat) as [Hlt|Hge].
    + assert (i * TWIG_SIZE + TWIG_SIZE <= s / TWIG_SIZE * TWIG_SIZE)%nat.
      { replace (i * TWIG_SIZE + TWIG_SIZE)%nat with (S i * TWIG_SIZE)%nat by lia.
        apply Nat.mul_le_mono_r. lia. }
      rewrite drop_insert_ge by lia. by rewrite take_insert_ge by lia.
    + assert (s / TWIG_SIZE * TWIG_SIZE + TWIG_SIZE <= i * TWIG_SIZE)%nat.
      { replace (s / TWIG_SIZE * TWIG_SIZE + TWIG_SIZE)%nat with (S (s / TWIG_SIZE) * TWIG_SIZE)%nat by lia.
        apply Nat.mul_le_mono_r. lia. }
      by rewrite drop_insert_lt by lia.
Qed.

Lemma lookup_twig_log log s e :
  log !! s = Some e -> twig_log log (s / TWIG_SIZE)%nat !! (s mod TWIG_SIZE)%nat = Some e.
Proof.
  intros H. unfold twig_log. rewrite lookup_take_lt by apply slot_mod_lt.
  rewrite lookup_drop, <- slot_split. done.
Qed.

Lemma twig_log_app log e i :
  twig_log (log ++ [e]) i =
  if decide (i = length log / TWIG_SIZE)%nat then twig_log log i ++ [e] else twig_log log i.
Proof.
  set (s := length log). pose proof (slot_split s) as Hs. pose proof (slot_mod_lt s) as Hm.
  unfold twig_log. case_decide as E.
  - subst i. rewrite drop_app_le by lia. rewrite take_app_ge by (rewrite length_drop; lia).
    rewrite length_drop. rewrite (take_ge (drop _ log)) by (rewrite length_drop; lia).
    f_equal. apply take_ge. cbn. lia.
  - destruct (decide (i < s / TWIG_SIZE)%nat) as [Hlt|Hge].
    + assert (i * TWIG_SIZE + TWIG_SIZE <= s / TWIG_SIZE * TWIG_SIZE)%nat.
      { replace (i * TWIG_SIZE + TWIG_SIZE)%nat with (S i * TWIG_SIZE)%nat by lia.
        apply Nat.mul_le_mono_r. lia. }
      rewrite drop_app_le by lia. apply take_app_le. rewrite length_drop. lia.
    + assert (s / TWIG_SIZE * TWIG_SIZE + TWIG_SIZE <= i * TWIG_SIZE)%nat.
      { replace (s / TWIG_SIZE * TWIG_SIZE + TWIG_SIZE)%nat with (S (s / TWIG_SIZE) * TWIG_SIZE)%nat by lia.
        apply Nat.mul_le_mono_r. lia. }
      rewrite !drop_ge; [done|lia|rewrite length_app; cbn; lia].
Qed.

(** How the live count of a twig changes with the log. *)
Lemma live_in_insert log s e e' i :
  log !! s = Some e -> 
  live_in (<[s := e']> log) i =
  if decide (i = s / TWIG_SIZE)%nat then (live_in log i + live_one e' - live_one e)%nat else live_in log i.
Proof.
  intros H. unfold live_in. rewrite twig_log_insert. case_decide; [|done]. subst i.
  pose proof (length_live_insert _ _ _ e' (lookup_twig_log _ _ _ H)). lia.
Qed.

Lemma live_in_app log e i :
  live_in (log ++ [e]) i =
  if decide (i = length log / TWIG_SIZE)%nat then (live_in log i + live_one e)%nat else live_in log i.
Proof.
  unfold live_in. rewrite twig_log_app. case_decide; [|done].
  rewrite live_app, length_app, length_live_cons. cbn. lia.
Qed.

(** The live entries are those of the twigs together. *)
Lemma live_by_twig log n :
  (length log <= n * TWIG_SIZE)%nat -> live log = seq 0 n ≫= fun i => live (twig_log log i).
Proof.
  revert log. induction n as [|n IH]; intros log H; [destruct log; [done|cbn in H; lia]|].
  transitivity (live (take TWIG_SIZE log) ++ live (drop TWIG_SIZE log)).
  { by rewrite <- live_app, take_drop. }
  cbn [seq]. rewrite bind_cons. f_equal.
  rewrite IH by (rewrite length_drop; lia). rewrite <- fmap_S_seq, list_fmap_bind.
  apply list_bind_ext; [|done]. intros i. unfold twig_log. cbn. rewrite drop_drop. done.
Qed.

Section forest.
Context {digest : Digest}.

(** ** One twig and the log *)

Definition locals_of (touched : list N) (i : nat) : list nat :=
  slot_local <$> filter (fun s => slot_twig s = i) touched.

Record twig_rep (log : Log) (touched : list N) (i : nat) (w : TwigHeap) : Prop := {
  tr_heap : heap_of TWIG_HEIGHT (tw_nodes w) (log_leaf log i) (above TWIG_HEIGHT (locals_of touched i));
  tr_live : tw_live w = live_in log i;
  tr_dirty : locals_of touched i ≠ [] -> tw_dirty w = true
}.

Record forest (n : nat) (twigs : list TwigHeap) (touched : list N) (log : Log) : Prop := {
  fo_len : length twigs = n;
  fo_twig : forall i w, twigs !! i = Some w -> twig_rep log touched i w;
  fo_touched : forall s, s ∈ touched -> (slot_twig s < n)%nat
}.

Lemma locals_of_app touched touched' i :
  locals_of (touched ++ touched') i = locals_of touched i ++ locals_of touched' i.
Proof. unfold locals_of. by rewrite filter_app, fmap_app. Qed.

Lemma locals_of_one s i :
  locals_of [s] i = if decide (slot_twig s = i) then [slot_local s] else [].
Proof.
  unfold locals_of. case_decide as E.
  - by rewrite filter_cons_True by done.
  - by rewrite filter_cons_False by done.
Qed.

Lemma elem_of_locals touched i l : l ∈ locals_of touched i <-> exists s, s ∈ touched /\ slot_twig s = i /\ l = slot_local s.
Proof.
  unfold locals_of. rewrite list_elem_of_fmap. split.
  - intros (s & -> & [E Hin]%list_elem_of_filter). eauto.
  - intros (s & Hin & E & ->). exists s. split; [done|]. by apply list_elem_of_filter.
Qed.

Lemma locals_none n twigs touched log i :
  forest n twigs touched log -> (n <= i)%nat -> locals_of touched i = [].
Proof.
  intros Hf Hi. destruct (locals_of touched i) as [|l ls] eqn:E; [done|].
  assert (l ∈ locals_of touched i) as (s & Hs & Et & _)%elem_of_locals by (rewrite E; left).
  apply (fo_touched _ _ _ _ Hf) in Hs. lia.
Qed.

(** ** Pushing twigs and writing leaves *)

Lemma forest_push n twigs touched log :
  forest n twigs touched log -> (length log <= n * TWIG_SIZE)%nat ->
  exists w, twig_new null_level = Ok w /\ forest (S n) (twigs ++ [w]) touched log.
Proof.
  intros Hf Hlen. destruct twig_new_spec as (nodes & E & Hh). eexists. split; [exact E|]. clear E.
  destruct Hf as [Hl Ht Hto]. split.
  - rewrite length_app, Hl. cbn. lia.
  - intros i w Hw. apply lookup_app_Some in Hw as [Hw|[Hge Hw]]; [by apply Ht|].
    apply list_lookup_singleton_Some in Hw as [Hi <-]. assert (i = n) as -> by lia.
    assert (Hno : locals_of touched n = []) by (eapply locals_none; [by split|lia]).
    assert (Hdrop : drop (n * TWIG_SIZE) log = []) by (apply drop_ge; lia).
    split; rewrite ?Hno; cbn [tw_nodes tw_live].
    + apply heap_of_weaken with fresh; [by intros j []|].
      eapply heap_of_ext; [|exact Hh].
      intros j Hj. unfold log_leaf. by rewrite (lookup_ge_None_2 log) by lia.
    + unfold live_in, twig_log. by rewrite Hdrop, take_nil.
    + done.
  - intros s Hs. specialize (Hto s Hs). lia.
Qed.

Lemma push_twigs_spec k n t log :
  tt_null_level t = null_level -> forest n (tt_twigs t) (tt_touched t) log ->
  (length log <= n * TWIG_SIZE)%nat ->
  exists twigs, push_twigs k t = (set_twigs (fun _ => twigs) t, Ok tt) /\
    forest (n + k) twigs (tt_touched t) log.
Proof.
  revert n t. induction k as [|k IH]; intros n t Hn Hf Hlen; cbn [push_twigs].
  { exists (tt_twigs t). rewrite Nat.add_0_r. by destruct t. }
  destruct (forest_push _ _ _ _ Hf Hlen) as (w & E & Hf').
  rewrite bind_state. rewrite Hn. erewrite bind_ok by (unfold try_; by rewrite E).
  erewrite bind_ok by done.
  destruct (IH (S n) (set_twigs (fun l => l ++ [w]) t)) as (twigs & E' & Hf''); [done|done|lia|].
  exists twigs. rewrite E'. split; [done|]. by rewrite Nat.add_succ_r.
Qed.

Lemma on_twig_ok i f t w w' :
  tt_twigs t !! i = Some w -> f w = Ok w' -> on_twig i f t = (set_twigs <[i := w']> t, Ok tt).
Proof.
  intros Hw Hf. unfold on_twig. rewrite bind_state.
  erewrite bind_ok by (unfold try_; by rewrite (at_index_some _ _ _ Hw)).
  erewrite bind_ok by (unfold try_; by rewrite Hf). done.
Qed.

(** The leaf of slot [s] and the live count of its twig change; [log'] is the log
    with that change. *)
Record writes (log log' : Log) (s : nat) (h : Hash) (f : nat -> nat) : Prop := {
  wr_leaf : entry_leaf (log' !! s) = h;
  wr_other : forall j, j ≠ s -> entry_leaf (log' !! j) = entry_leaf (log !! j);
  wr_live : live_in log' (s / TWIG_SIZE)%nat = f (live_in log (s / TWIG_SIZE)%nat);
  wr_live_other : forall i, i ≠ (s / TWIG_SIZE)%nat -> live_in log' i = live_in log i
}.

Lemma forest_write n twigs touched log log' s h f :
  forest n twigs touched log -> (s / TWIG_SIZE < n)%nat -> writes log log' s h f ->
  exists w nodes, twigs !! (s / TWIG_SIZE)%nat = Some w /\
    twig_write_leaf (s mod TWIG_SIZE) h w = Ok (mkTwig nodes (tw_live w) true) /\
    forest n (<[(s / TWIG_SIZE)%nat := mkTwig nodes (f (tw_live w)) true]> twigs)
      (touched ++ [N.of_nat s]) log'.
Proof.
  intros Hf Hs Hwr. destruct Hf as [Hl Ht Hto].
  destruct (lookup_lt_is_Some_2 twigs (s / TWIG_SIZE)) as [w Hw]; [lia|].
  destruct (Ht _ _ Hw) as [Hh Hlv Hd].
  destruct (heap_write_leaf_spec w _ _ (s mod TWIG_SIZE) h Hh (slot_mod_lt s)) as (nodes & E & Hh').
  exists w, nodes. split; [done|]. split; [done|]. split.
  - by rewrite length_insert.
  - intros i w' Hw'. rewrite list_lookup_insert in Hw'. case_decide as Hi.
    + destruct Hi as [<- _]. injection Hw' as <-. split; cbn [tw_nodes tw_live tw_dirty].
      * rewrite locals_of_app, locals_of_one, slot_twig_nat, slot_local_nat, decide_True by done.
        eapply heap_of_ext; [|exact Hh']. intros l Hlt. cbn beta. unfold log_leaf.
        rewrite <- twig_size_pow in Hlt. case_decide as El.
        -- subst l. by rewrite <- slot_split, (wr_leaf _ _ _ _ _ Hwr).
        -- symmetry. apply (wr_other _ _ _ _ _ Hwr). intros E'. apply El. rewrite <- E'.
           by destruct (slot_of (s / TWIG_SIZE) l Hlt) as [_ ->].
      * by rewrite Hlv, (wr_live _ _ _ _ _ Hwr).
      * done.
    + assert (Hne : i ≠ (s / TWIG_SIZE)%nat).
      { intros ->. apply lookup_lt_Some in Hw. tauto. }
      destruct (Ht i w' Hw') as [Hh1 Hl1 Hd1].
      assert (El : locals_of (touched ++ [N.of_nat s]) i = locals_of touched i).
      { rewrite locals_of_app, locals_of_one, slot_twig_nat, decide_False by congruence. apply app_nil_r. }
      split; rewrite ?El; [|by rewrite (wr_live_other _ _ _ _ _ Hwr)|done].
      eapply heap_of_ext; [|exact Hh1]. intros l Hlt. rewrite <- twig_size_pow in Hlt.
      symmetry. apply (wr_other _ _ _ _ _ Hwr). intros <-. apply Hne.
      by destruct (slot_of i l Hlt) as [-> _].
  - intros x [Hx|Hx%list_elem_of_singleton]%elem_of_app; [by apply Hto|]. subst. by rewrite slot_twig_nat.
Qed.

Lemma forest_same n twigs touched log log' :
  (forall j, entry_leaf (log' !! j) = entry_leaf (log !! j)) ->
  (forall i, live_in log' i = live_in log i) ->
  forest n twigs touched log -> forest n twigs touched log'.
Proof.
  intros He Hl [H1 H2 H3]. split; [done| |done]. intros i w Hw. destruct (H2 i w Hw) as [Hh Hv Hd].
  split; [|by rewrite Hl|done]. eapply heap_of_ext; [|exact Hh]. intros l _. symmetry. apply He.
Qed.

Lemma writes_drop log s k v :
  log !! s = Some (k, Some v) -> writes log (<[s := (k, None)]> log) s NULL_HASH (fun n => (n - 1)%nat).
Proof.
  intros H. apply lookup_lt_Some in H as Hlt. split.
  - by rewrite list_lookup_insert_eq.
  - intros j Hj. by rewrite list_lookup_insert_ne.
  - rewrite (live_in_insert _ _ _ _ _ H), decide_True by done. cbn. lia.
  - intros i Hi. by rewrite (live_in_insert _ _ _ _ _ H), decide_False.
Qed.

Lemma writes_append log k v :
  writes log (log ++ [(k, Some v)]) (length log) (twig_hash_leaf k v) (fun n => (n + 1)%nat).
Proof.
  split.
  - by rewrite list_lookup_middle.
  - intros j Hj. destruct (decide (j < length log)%nat).
    + by rewrite lookup_app_l.
    + by rewrite !lookup_ge_None_2 by (rewrite ?length_app; cbn; lia).
  - by rewrite live_in_app, decide_True.
  - intros i Hi. by rewrite live_in_app, decide_False.
Qed.

Lemma append_dead log k :
  (forall j, entry_leaf ((log ++ [(k, None)]) !! j) = entry_leaf (log !! j)) /\
  (forall i, live_in (log ++ [(k, None)]) i = live_in log i).
Proof.
  split.
  - intros j. destruct (decide (j < length log)%nat); [by rewrite lookup_app_l|].
    rewrite (lookup_ge_None_2 log) by lia. destruct (decide (j = length log)) as [->|].
    + by rewrite list_lookup_middle.
    + by rewrite lookup_ge_None_2 by (rewrite length_app; cbn; lia).
  - intros i. rewrite live_in_app. case_decide; [cbn; lia|done].
Qed.

(** ** Rehashing *)

Lemma slot_twig_le s s' : s <= s' -> (slot_twig s <= slot_twig s')%nat.
Proof.
  intros H. pose proof twig_size_pos. unfold slot_twig.
  pose proof (N.Div0.div_le_mono s s' (N.of_nat TWIG_SIZE) H). lia.
Qed.

Lemma span_twig_spec id slots :
  exists g r, span_twig id slots = (g, r) /\ slots = g ++ r /\
    (forall s, s ∈ g -> slot_twig s = id) /\ (forall s r', r = s :: r' -> slot_twig s ≠ id).
Proof.
  induction slots as [|s slots (g & r & E & -> & Hg & Hr)]; cbn [span_twig].
  - exists [], []. split_and!; try done. intros s Hs. by apply not_elem_of_nil in Hs.
  - destruct (Nat.eqb_spec (slot_twig s) id) as [Es|Es].
    + rewrite E. exists (s :: g), r. split; [done|]. split; [done|]. split; [|done].
      intros x [->|Hx]%elem_of_cons; auto.
    + exists [], (s :: g ++ r). split; [done|]. split; [done|]. split.
      * intros x Hx. by apply not_elem_of_nil in Hx.
      * intros x r' [= -> _]. done.
Qed.

(** In a sorted list the first group has all slots of its twig. *)
Lemma span_twig_sorted s slots :
  StronglySorted N.le (s :: slots) ->
  exists g r, span_twig (slot_twig s) (s :: slots) = (g, r) /\ g ≠ [] /\ s :: slots = g ++ r /\
    StronglySorted N.le r /\ locals_of (s :: slots) (slot_twig s) = slot_local <$> g /\
    locals_of r (slot_twig s) = [] /\
    forall i, i ≠ slot_twig s -> locals_of (s :: slots) i = locals_of r i.
Proof.
  intros Hs. destruct (span_twig_spec (slot_twig s) (s :: slots)) as (g & r & E & Ea & Hg & Hr).
  assert (Hr' : forall x, x ∈ r -> slot_twig x ≠ slot_twig s).
  { destruct r as [|y r]; [intros x Hx; by apply not_elem_of_nil in Hx|].
    specialize (Hr y r eq_refl). rewrite Ea in Hs. apply StronglySorted_app in Hs as (Hgr & _ & Hs).
    assert (slot_twig s <= slot_twig y)%nat.
    { destruct g as [|s' g]; cbn in Ea; [by injection Ea as <- _|]. injection Ea as <- _.
      apply slot_twig_le, Hgr; left. }
    intros x [->|Hx]%elem_of_cons; [done|]. apply StronglySorted_inv in Hs as [_ Hs].
    assert (y <= x) as Hle by by eapply Forall_forall in Hs.
    apply slot_twig_le in Hle. lia. }
  assert (Hgl : locals_of g (slot_twig s) = slot_local <$> g).
  { unfold locals_of. f_equal. apply filter_all, Forall_forall. intros x Hx. by apply Hg. }
  assert (Hrl : locals_of r (slot_twig s) = []).
  { destruct (locals_of r _) as [|l ls] eqn:El; [done|].
    assert (l ∈ locals_of r (slot_twig s)) as (x & Hx & Ex & _)%elem_of_locals by (rewrite El; left).
    by apply Hr' in Hx. }
  exists g, r. rewrite Ea. split_and!; try done.
  - by rewrite <- Ea.
  - intros ->. cbn in Ea. subst r. apply (Hr s slots eq_refl). done.
  - rewrite Ea in Hs. by apply StronglySorted_app in Hs as (_ & _ & Hs).
  - by rewrite locals_of_app, Hgl, Hrl, app_nil_r.
  - intros i Hi. rewrite locals_of_app. destruct (locals_of g i) as [|l ls] eqn:El; [done|].
    assert (l ∈ locals_of g i) as (x & Hx & Ex & _)%elem_of_locals by (rewrite El; left).
    apply Hg in Hx. congruence.
Qed.

(** Either way of rehashing a dirty twig. *)
Lemma rehash_twig (b : bool) w leaf ls :
  heap_of TWIG_HEIGHT (tw_nodes w) leaf (above TWIG_HEIGHT ls) -> ls ≠ [] -> tw_dirty w = true ->
  (forall l, l ∈ ls -> (l < TWIG_SIZE)%nat) ->
  exists nodes,
    (if tw_dirty w then
       w' ← (if b then recompute w else fold_batch ls w);
       Ok (mkTwig (tw_nodes w') (tw_live w') false)
     else Ok w) = Ok (mkTwig nodes (tw_live w) false) /\ heap_of TWIG_HEIGHT nodes leaf fresh.
Proof.
  intros Hh Hne Hd Hl. rewrite Hd. destruct b.
  - destruct (recompute_spec _ _ _ Hh) as (nodes & -> & Hf). eauto.
  - destruct (fold_batch_spec _ _ _ Hh Hne Hl) as (nodes & -> & Hf). eauto.
Qed.

Lemma fold_touched_spec fuel slots n t log :
  forest n (tt_twigs t) slots log -> StronglySorted N.le slots -> (length slots <= fuel)%nat ->
  exists twigs, fold_touched fuel slots t = (set_twigs (fun _ => twigs) t, Ok tt) /\
    forest n twigs [] log.
Proof.
  revert slots t. induction fuel as [|fuel IH]; intros [|s slots] t Hf Hs Hlen; cbn in Hlen; try lia;
    cbn [fold_touched].
  1,2: exists (tt_twigs t); by destruct t.
  destruct (span_twig_sorted s slots Hs) as (g & r & E & Hg & Ea & Hsr & Hgl & Hrl & Hoth). rewrite E.
  destruct Hf as [Hl Ht Hto].
  destruct (lookup_lt_is_Some_2 (tt_twigs t) (slot_twig s)) as [w Hw]; [rewrite Hl; apply Hto; left|].
  destruct (Ht _ _ Hw) as [Hh Hlv Hd]. rewrite Hgl in Hh, Hd.
  assert (Hgne : slot_local <$> g ≠ []) by (by destruct g).
  destruct (rehash_twig (TWIG_SIZE <=? length g * TWIG_HEIGHT)%nat w _ _ Hh Hgne (Hd Hgne))
    as (nodes & Er & Hfr).
  { intros l (x & -> & _)%list_elem_of_fmap. apply slot_local_lt. }
  erewrite bind_ok by (eapply on_twig_ok; [exact Hw|exact Er]).
  destruct (IH r (set_twigs <[slot_twig s := mkTwig nodes (tw_live w) false]> t))
    as (twigs & E' & Hf'); [|done| |].
  - split; cbn [tt_twigs set_twigs].
    + by rewrite length_insert.
    + intros i w' Hw'. rewrite list_lookup_insert in Hw'. case_decide as Hi.
      * destruct Hi as [<- _]. injection Hw' as <-. split; cbn; [|done|by rewrite Hrl].
        eapply heap_of_weaken; [|exact Hfr]. by intros j [].
      * assert (Hne : i ≠ slot_twig s) by (intros ->; apply lookup_lt_Some in Hw; tauto).
        destruct (Ht _ _ Hw') as [Hh1 Hl1 Hd1]. rewrite Hoth in Hh1, Hd1 by done. by split.
    + intros x Hx. apply Hto. rewrite Ea. apply elem_of_app. by right.
  - assert (length (s :: slots) = length (g ++ r)) as El by by rewrite Ea.
    rewrite length_app in El. destruct g; [done|]. cbn in El. lia.
  - exists twigs. rewrite E'. done.
Qed.

Lemma forest_fresh n twigs log i w :
  forest n twigs [] log -> twigs !! i = Some w ->
  heap_of TWIG_HEIGHT (tw_nodes w) (log_leaf log i) fresh.
Proof.
  intros Hf Hw. destruct (fo_twig _ _ _ _ Hf _ _ Hw) as [Hh _ _].
  eapply heap_of_weaken; [|exact Hh]. intros j (l & k & Hin & _). by apply not_elem_of_nil in Hin.
Qed.

Lemma forest_touched_weaken n twigs touched touched' log :
  (forall s, s ∈ touched' <-> s ∈ touched) -> forest n twigs touched log -> forest n twigs touched' log.
Proof.
  intros He [H1 H2 H3].
  assert (Hl : forall i l, l ∈ locals_of touched' i <-> l ∈ locals_of touched i).
  { intros i l. rewrite !elem_of_locals. by setoid_rewrite He. }
  split; [done| |intros s Hs; by apply H3, He]. intros i w Hw. destruct (H2 i w Hw) as [Hh Hv Hd].
  split; [|done|].
  - eapply heap_of_weaken; [|exact Hh]. intros j. apply above_mono. intros l. apply Hl.
  - intros Hne. apply Hd. intros E. destruct (locals_of touched' i) as [|l ls] eqn:E'; [done|].
    assert (l ∈ locals_of touched i) as Hin by (apply Hl; rewrite E'; left).
    rewrite E in Hin. by apply not_elem_of_nil in Hin.
Qed.

(** ** The upper tree *)

Lemma copy_roots_spec i twigs upper (root : nat -> Hash) :
  (forall j w, twigs !! j = Some w -> tw_nodes w !! 1%nat = Some (root j)) ->
  (i + length twigs <= length upper)%nat ->
  exists upper', copy_roots i twigs upper = Ok upper' /\ length upper' = length upper /\
    (forall j, (j < length twigs)%nat -> upper' !! (i + j)%nat = Some (root j)) /\
    (forall j, (j < i \/ i + length twigs <= j)%nat -> upper' !! j = upper !! j).
Proof.
  revert i upper root. induction twigs as [|w twigs IH]; intros i upper root Hr Hlen; cbn in Hlen.
  { exists upper. split_and!; try done. intros j Hj. cbn in Hj. lia. }
  cbn [copy_roots]. unfold twig_root. rewrite (at_index_some _ _ _ (Hr 0%nat w eq_refl)).
  cbn [mbind result_bind outcome_bind].
  destruct (lookup_lt_is_Some_2 upper i) as [x Hx]; [lia|]. rewrite (update_at_some _ _ _ _ Hx).
  cbn [mbind result_bind outcome_bind].
  destruct (IH (S i) (<[i := root 0%nat]> upper) (fun j => root (S j))) as (upper' & E & Hl & Hin & Hout).
  { intros j w' Hw. by apply (Hr (S j)). }
  { rewrite length_insert. lia. }
  rewrite length_insert in Hl. exists upper'. split_and!; [done|done|..]; cbn [length].
  - intros [|j] Hj.
    + rewrite Nat.add_0_r, Hout by lia. apply list_lookup_insert_eq. lia.
    + rewrite Nat.add_succ_r. apply Hin. lia.
  - intros j Hj. rewrite Hout by lia. by rewrite list_lookup_insert_ne by lia.
Qed.

Definition upper_rep (t : TwigTree) (log : Log) : Prop :=
  match log with
  | [] => tt_up_cap t = 0%nat
  | _ => tt_up_cap t = next_power_of_two (twig_count (length log)) /\
         heap_of (Nat.log2_up (twig_count (length log))) (tt_upper t) (upper_leaf log) fresh
  end.

Lemma build_upper n twigs log :
  forest n twigs [] log -> n = twig_count (length log) -> (0 < n)%nat ->
  exists upper upper', 
    copy_roots (next_power_of_two n) twigs (replicate (2 * next_power_of_two n) NULL_HASH) = Ok upper /\
    hash_parents upper (rev (seq 1 (next_power_of_two n - 1))) = Ok upper' /\
    heap_of (Nat.log2_up n) upper' (upper_leaf log) fresh.
Proof.
  intros Hf Hn Hpos. pose proof (fo_len _ _ _ _ Hf) as Hl.
  assert (Hcap : (n <= next_power_of_two n)%nat).
  { unfold next_power_of_two. destruct (decide (n = 1)%nat) as [->|]; [done|].
    apply Nat.log2_up_spec. lia. }
  set (cap := next_power_of_two n) in *.
  destruct (copy_roots_spec cap twigs (replicate (2 * cap) NULL_HASH) (twig_log_root log))
    as (upper & E & Hlen & Hin & Hout).
  { intros j w Hw. apply heap_root. by eapply forest_fresh. }
  { rewrite length_replicate. lia. }
  rewrite length_replicate in Hlen.
  destruct (hash_parents_desc upper (cap - 1) cap) as (upper' & E' & Hlen' & Hsame & Hc); [done|lia|intros; lia|].
  exists upper, upper'. split; [done|]. split; [done|]. split; fold (next_power_of_two n); fold cap.
  - lia.
  - intros i Hi. rewrite Hsame by lia. unfold upper_leaf. rewrite <- Hn.
    destruct (i <? n)%nat eqn:Ei; bool_simpl; [apply Hin; lia|].
    rewrite Hout by lia. apply lookup_replicate_2. lia.
  - intros j Hj. left. by apply Hc.
Qed.

Lemma tree_root_spec t log :
  forest (twig_count (length log)) (tt_twigs t) (tt_touched t) log ->
  exists twigs upper cap,
    let t' := set_upper upper cap (set_touched (fun _ => []) (set_twigs (fun _ => twigs) t)) in
    twig_tree_root t = (t', Ok (log_root log)) /\ 
    forest (twig_count (length log)) twigs [] log /\ upper_rep t' log.
Proof.
  intros Hf. unfold twig_tree_root. rewrite bind_state.
  assert (exists twigs,
    (match tt_touched t with
     | [] => mret tt
     | touched =>
         let sorted := dedup (sort_by_key id touched) in
         fold_touched (length sorted) sorted ;; modify (set_touched (fun _ => []))
     end : MW unit) t = (set_touched (fun _ => []) (set_twigs (fun _ => twigs) t), Ok tt) /\
    forest (twig_count (length log)) twigs [] log) as (twigs & E & Hf').
  { destruct (tt_touched t) as [|s l] eqn:Et.
    - exists (tt_twigs t). split; [|done]. destruct t; cbn in *. by subst.
    - rewrite <- Et. cbn zeta. set (sorted := dedup _).
      destruct (fold_touched_spec (length sorted) sorted (twig_count (length log)) t log)
        as (twigs & E & Hf'); [|..|done|].
      + eapply forest_touched_weaken; [|exact Hf]. intros x. unfold sorted.
        by rewrite elem_of_dedup, elem_of_sort, Et.
      + apply dedup_sorted, (sort_by_key_sorted id).
      + exists twigs. split; [|done]. by erewrite bind_ok by exact E. }
  erewrite bind_ok by exact E. rewrite bind_state. cbn [tt_twigs set_twigs set_touched].
  destruct log as [|e log].
  - pose proof (fo_len _ _ _ _ Hf') as Hl. cbn [length] in Hl. rewrite twig_count_zero in Hl.
    destruct twigs as [|? ?]; [|done]. exists [], [], 0%nat. split; [done|]. done.
  - set (log' := e :: log) in *.
    assert (Hpos : (0 < twig_count (length log'))%nat) by (unfold log'; cbn [length]; rewrite twig_count_S; lia).
    destruct (build_upper _ twigs log' Hf' eq_refl Hpos) as (upper & upper' & E1 & E2 & Hh).
    pose proof (fo_len _ _ _ _ Hf') as Hl.
    exists twigs, upper', (next_power_of_two (twig_count (length log'))).
    destruct twigs as [|w ws]; [cbn [length] in Hl; lia|]. rewrite Hl.
    erewrite bind_ok by (unfold try_; by rewrite E1). erewrite bind_ok by (unfold try_; by rewrite E2).
    erewrite bind_ok by (unfold try_; by rewrite (at_index_some _ _ _ (heap_root _ _ _ Hh))).
    split; [done|]. split; [done|]. by split.
Qed.
End forest.
