(* ===== verification/TwigTheory.v ===== *)
(** * A twig tree implements its log

    [tree_rep t log] relates the arrays, the arena, the index and the twigs of a
    tree to the log of its entries.  Every operation of the tree is the operation
    of [TwigLog] on the log, for keys that are told apart by the sixteen bytes
    that are indexed. *)

From S2P Require Import Prelude Effects Messages BmtCore FlatIndex FlatIndexTheory.
From S2P Require Import Twig TwigHeap TwigLog TwigForest.

(** ** Logs with unique active keys *)

Lemma log_ok_unique log i j k v v' :
  log_ok log -> log !! i = Some (k, Some v) -> log !! j = Some (k, Some v') -> i = j.
Proof.
  unfold log_ok. revert i j. induction log as [|e log IH]; intros i j Hok Hi Hj; [done|].
  rewrite live_cons in Hok.
  assert (Hin : forall v0 m, log !! m = Some (k, Some v0) -> k ∈ (live log).*1).
  { intros v0 m Hm. apply list_elem_of_fmap. exists (k, v0). split; [done|].
    apply elem_of_live. by eapply list_elem_of_lookup_2. }
  destruct i as [|i], j as [|j]; cbn in Hi, Hj; simplify_eq.
  - done.
  - apply NoDup_cons in Hok as [Hn _]. by apply Hin in Hj.
  - apply NoDup_cons in Hok as [Hn _]. by apply Hin in Hi.
  - f_equal. eapply IH; [|done..]. destruct (live_item e); [by apply NoDup_cons in Hok as [_ ?]|done].
Qed.

Lemma log_drop_at log i k v :
  log_ok log -> log !! i = Some (k, Some v) -> log_drop k log = <[i := (k, None)]> log.
Proof.
  intros Hok Hi. apply lookup_lt_Some in Hi as Hlt. apply list_eq. intros j. unfold log_drop.
  rewrite list_lookup_fmap. destruct (decide (j = i)) as [->|Hne].
  - rewrite Hi, list_lookup_insert_eq by done. cbn. unfold drop_item. by rewrite decide_True.
  - rewrite list_lookup_insert_ne by done. destruct (log !! j) as [[k' o]|] eqn:Ej; [|done].
    cbn. unfold drop_item. cbn [fst]. case_decide as Ek; [|done]. subst k'.
    destruct o as [v'|]; [|done]. by pose proof (log_ok_unique _ _ _ _ _ _ Hok Ej Hi).
Qed.

Lemma log_drop_absent log k : log_map log !! k = None -> log_drop k log = log.
Proof.
  intros Hn. unfold log_drop. rewrite <- (list_fmap_id log) at 2. apply list_fmap_ext.
  intros i [k' o] Hi. unfold drop_item. cbn [fst id]. case_decide as Ek; [|done]. subst k'.
  destruct o as [v|]; [|done]. apply not_elem_of_list_to_map in Hn. exfalso. apply Hn.
  apply list_elem_of_fmap. exists (k, v). split; [done|]. apply elem_of_live.
  by eapply list_elem_of_lookup_2.
Qed.

Lemma log_drop_length k log : length (log_drop k log) = length log.
Proof. apply length_fmap. Qed.
Lemma log_set_length k v log : length (log_set k v log) = S (length log).
Proof. unfold log_set. rewrite length_app, log_drop_length. cbn. lia. Qed.

(** The slot of an active key. *)
Lemma log_map_slot log k v :
  log_ok log -> log_map log !! k = Some v -> exists i, log !! i = Some (k, Some v).
Proof. intros Hok Hk. apply lookup_live in Hk; [|done]. by apply list_elem_of_lookup in Hk. Qed.

Section theory.
Context {digest : Digest}.

(** ** Entries and values *)

Definition value_of (e : Entry) (arena : bytes) : fresult bytes :=
  arena_slice (N.to_nat (en_voff e)) (N.to_nat (en_voff e) + N.to_nat (en_vlen e)) arena.

Record item_rep (arena : bytes) (e : Entry) (item : Hash * option bytes) : Prop := {
  ir_key : en_key e = item.1;
  ir_active : en_active e = bool_decide (is_Some item.2);
  ir_value : forall v, item.2 = Some v -> value_of e arena = Ok v;
  ir_small : forall v, item.2 = Some v -> N.of_nat (length v) <= u32_max
}.

Definition entries_rep (entries : list Entry) (arena : bytes) (log : Log) : Prop :=
  Forall2 (item_rep arena) entries log.

Lemma arena_slice_app from to arena extra v :
  arena_slice from to arena = Ok v -> arena_slice from to (arena ++ extra) = Ok v.
Proof.
  unfold arena_slice. destruct (from <=? to)%nat eqn:E1; [|done]. bool_simpl. rewrite length_app.
  destruct (to <=? length arena)%nat eqn:E2; [|done]. bool_simpl. cbn [andb].
  intros H. rewrite (proj2 (Nat.leb_le to _)) by lia. rewrite drop_app_le by lia.
  rewrite take_app_le by (rewrite length_drop; lia). done.
Qed.

Lemma arena_slice_new arena v :
  arena_slice (length arena) (length arena + length v) (arena ++ v) = Ok v.
Proof.
  unfold arena_slice. rewrite length_app. rewrite (proj2 (Nat.leb_le _ _)) by lia.
  rewrite (proj2 (Nat.leb_le _ _)) by lia. cbn [andb]. rewrite drop_app_length.
  by rewrite take_ge by lia.
Qed.

Lemma item_rep_extend arena extra e item : item_rep arena e item -> item_rep (arena ++ extra) e item.
Proof. intros [H1 H2 H3 H4]. split; try done. intros v Hv. by apply arena_slice_app, H3. Qed.

Lemma entries_append entries arena log k o v :
  entries_rep entries arena log -> (forall w, o = Some w -> w = v) -> N.of_nat (length v) <= u32_max ->
  entries_rep
    (entries ++ [mkEntry k (N.of_nat (length arena)) (N.of_nat (length v) mod (u32_max + 1))
                   (bool_decide (is_Some o))]) (arena ++ v) (log ++ [(k, o)]).
Proof.
  intros He Ho Hv. apply Forall2_app.
  - eapply Forall2_impl; [exact He|]. intros e item. apply item_rep_extend.
  - constructor; [|constructor]. split; cbn [en_key en_active fst snd]; [done|done|..].
    + intros w Hw. specialize (Ho w Hw). subst w. unfold value_of. cbn [en_voff en_vlen].
      rewrite N.mod_small by lia. rewrite !Nat2N.id. apply arena_slice_new.
    + intros w Hw. by rewrite (Ho w Hw).
Qed.

Lemma entries_drop entries arena log i e k :
  entries_rep entries arena log -> entries !! i = Some e -> en_key e = k ->
  entries_rep (<[i := mkEntry k (en_voff e) (en_vlen e) false]> entries) arena (<[i := (k, None)]> log).
Proof. intros He Hi Hk. apply Forall2_insert; [done|]. by split. Qed.

(** ** The index *)

Definition indexed (log : Log) (p s : N) : Prop :=
  exists i k v, s = N.of_nat i /\ log !! i = Some (k, Some v) /\ key_prefix k = p.

Definition index_rep (f : FlatIndex) (log : Log) : Prop :=
  exists m, flat_rep f m /\ forall p s, m !! p = Some s <-> indexed log p s.

Lemma index_get f log p :
  index_rep f log -> exists o, flat_get f p = Ok o /\ forall s, o = Some s <-> indexed log p s.
Proof. intros (m & Hm & Hi). exists (m !! p). split; [by apply flat_get_spec|]. intros s. apply Hi. Qed.

(** Keys that have different prefixes. *)
Context (P : Hash -> Prop).
Definition distinct_prefixes : Prop :=
  forall k k', P k -> P k' -> key_prefix k = key_prefix k' -> k = k'.
Definition keys_in (log : Log) : Prop := forall k v, (k, Some v) ∈ log -> P k.

Hypothesis prefix_inj : distinct_prefixes.

Lemma keys_in_insert log i k o : keys_in log -> P k -> keys_in (<[i := (k, o)]> log).
Proof.
  intros Hin Hk k' o' (j & Hj)%list_elem_of_lookup. rewrite list_lookup_insert in Hj.
  case_decide; [by simplify_eq|]. by eapply Hin, list_elem_of_lookup_2.
Qed.

Lemma keys_in_drop log k : keys_in log -> keys_in (log_drop k log).
Proof.
  intros Hin k' o ([k'' o'] & E & Hx)%list_elem_of_fmap. unfold drop_item in E. cbn in E.
  case_decide; simplify_eq; by eapply Hin.
Qed.

Lemma keys_in_append log k o : keys_in log -> P k -> keys_in (log ++ [(k, o)]).
Proof.
  intros Hin Hk k' o' [Hx|Hx%list_elem_of_singleton]%elem_of_app; [by eapply Hin|]. by simplify_eq.
Qed.

(** Removing the prefix of an active key goes with dropping its entry. *)
Lemma index_remove f log k i v :
  index_rep f log -> log_ok log -> keys_in log -> P k -> log !! i = Some (k, Some v) ->
  exists f' o, flat_remove (key_prefix k) f = Ok (f', o) /\ index_rep f' (<[i := (k, None)]> log).
Proof.
  intros (m & Hm & Hi) Hok Hin Hk Hlog. apply lookup_lt_Some in Hlog as Hlt.
  destruct (flat_remove_spec f m (key_prefix k) Hm) as (f' & E & Hm').
  exists f', (m !! key_prefix k). split; [done|]. exists (delete (key_prefix k) m). split; [done|].
  intros p s. rewrite lookup_delete_Some, Hi. split.
  - intros [Hp (j & k' & v' & -> & Hj & Hkp)]. exists j, k', v'. split; [done|]. split; [|done].
    rewrite list_lookup_insert_ne; [done|]. intros <-. rewrite Hlog in Hj. simplify_eq.
  - intros (j & k' & v' & -> & Hj & Hkp). rewrite list_lookup_insert in Hj.
    case_decide as Ej; [done|]. split; [|by exists j, k', v'].
    intros Hp. apply Ej. split; [|done].
    assert (k = k') as <-.
    { apply prefix_inj; [done| |congruence]. by eapply Hin, list_elem_of_lookup_2. }
    by eapply log_ok_unique.
Qed.

(** Indexing a new entry; [log] has no active entry of the key but possibly the
    one [old] that was just dropped. *)
Lemma index_insert f log k v old :
  index_rep f old -> keys_in log -> P k -> log_map log !! k = None -> length log = length old ->
  (forall i e, old !! i = Some e -> e.1 ≠ k -> log !! i = Some e) ->
  (forall i k' v', log !! i = Some (k', Some v') -> old !! i = Some (k', Some v')) ->
  keys_in old -> N.of_nat (length log) < TOMB ->
  exists f', flat_insert (key_prefix k) (N.of_nat (length log)) f = Ok f' /\
    index_rep f' (log ++ [(k, Some v)]).
Proof.
  intros (m & Hm & Hi) Hin Hk Habs Hlen Hkeep Hback Hin' Hs.
  destruct (flat_insert_spec f m (key_prefix k) (N.of_nat (length log)) Hm (slot_is_live _ Hs))
    as (f' & E & Hm').
  exists f'. split; [done|]. eexists. split; [exact Hm'|]. intros p s.
  rewrite lookup_insert_Some, Hi. split.
  - intros [[<- <-]|[Hp (j & k' & v' & -> & Hj & Hkp)]].
    + exists (length log), k, v. split_and!; try done. by rewrite list_lookup_middle.
    + exists j, k', v'. split; [done|]. split; [|done]. apply lookup_app_l_Some.
      apply (Hkeep _ _ Hj). cbn. intros ->. done.
  - intros (j & k' & v' & -> & Hj & Hkp). apply lookup_app_Some in Hj as [Hj|[Hge Hj]].
    + right. split; [|exists j, k', v'; split; [done|split; [by apply Hback|done]]].
      intros Hp. assert (k = k') as <-.
      { apply prefix_inj; [done|by eapply Hin, list_elem_of_lookup_2|congruence]. }
      apply not_elem_of_list_to_map in Habs. apply Habs, list_elem_of_fmap. exists (k, v').
      split; [done|]. apply elem_of_live. by eapply list_elem_of_lookup_2.
    + apply list_lookup_singleton_Some in Hj as [Hj [= <- <-]]. left. split; [done|]. f_equal. lia.
Qed.

(** ** The tree *)

(** The entries and the twigs hold [log]. *)
Record body_rep (t : TwigTree) (log : Log) : Prop := {
  bo_entries : entries_rep (tt_entries t) (tt_arena t) log;
  bo_forest : forest (twig_count (length log)) (tt_twigs t) (tt_touched t) log;
  bo_null : tt_null_level t = null_level
}.

Record tree_rep (t : TwigTree) (log : Log) : Prop := {
  re_body : body_rep t log;
  re_next : tt_next_slot t = N.of_nat (length log);
  re_index : index_rep (tt_index t) log;
  re_ok : log_ok log;
  re_keys : keys_in log
}.

Lemma twig_tree_new_rep seed : tree_rep (twig_tree_new seed) [].
Proof.
  split; [split|..]; try done.
  - constructor.
  - split; [symmetry; apply twig_count_zero|done|]. intros s Hs. by apply not_elem_of_nil in Hs.
  - exists ∅. split; [apply flat_new_rep|]. intros p s. split; [done|]. by intros (i & k & v & _ & H & _).
  - apply NoDup_nil_2.
  - intros k o H. by apply not_elem_of_nil in H.
Qed.

(** *** Reading *)

Lemma lookup_present t log k v :
  tree_rep t log -> log_map log !! k = Some v ->
  exists i e, lookup_key t k = Ok (Some (N.of_nat i)) /\ log !! i = Some (k, Some v) /\
    tt_entries t !! i = Some e /\ item_rep (tt_arena t) e (k, Some v).
Proof.
  intros Ht Hv. destruct (log_map_slot _ _ _ (re_ok _ _ Ht) Hv) as [i Hi].
  destruct (Forall2_lookup_r _ _ _ _ _ (bo_entries _ _ (re_body _ _ Ht)) Hi) as (e & He & Hr).
  exists i, e. split; [|done]. unfold lookup_key.
  destruct (index_get _ _ (key_prefix k) (re_index _ _ Ht)) as (o & -> & Ho).
  assert (o = Some (N.of_nat i)) as -> by (apply Ho; by exists i, k, v).
  cbn [mbind result_bind outcome_bind]. rewrite Nat2N.id, (at_index_some _ _ _ He).
  cbn [mbind result_bind outcome_bind]. by rewrite (ir_key _ _ _ Hr), N.eqb_refl.
Qed.

(** A key that is absent is not found, even if its prefix is. *)
Lemma lookup_absent t log k :
  tree_rep t log -> log_map log !! k = None -> lookup_key t k = Ok None.
Proof.
  intros Ht Hv. unfold lookup_key.
  destruct (index_get _ _ (key_prefix k) (re_index _ _ Ht)) as (o & -> & Ho).
  destruct o as [s|]; [|done]. cbn [mbind result_bind outcome_bind].
  destruct (proj1 (Ho s) eq_refl) as (i & k' & v & -> & Hi & _).
  destruct (Forall2_lookup_r _ _ _ _ _ (bo_entries _ _ (re_body _ _ Ht)) Hi) as (e & He & Hr).
  rewrite Nat2N.id, (at_index_some _ _ _ He). cbn [mbind result_bind outcome_bind].
  rewrite (ir_key _ _ _ Hr). cbn [fst]. destruct (N.eqb_spec k' k) as [->|]; [|done].
  assert (log_map log !! k = Some v); [|congruence].
  apply lookup_live; [apply (re_ok _ _ Ht)|]. by eapply list_elem_of_lookup_2.
Qed.

Lemma entry_value_spec t log i e k v :
  tree_rep t log -> tt_entries t !! i = Some e -> item_rep (tt_arena t) e (k, Some v) ->
  entry_value t i = Ok v.
Proof.
  intros Ht He Hr. unfold entry_value. rewrite (at_index_some _ _ _ He).
  cbn [mbind result_bind outcome_bind]. by apply (ir_value _ _ _ Hr).
Qed.

Lemma get_spec t log k :
  tree_rep t log -> twig_get k t = (t, Ok (log_map log !! k)).
Proof.
  intros Ht. unfold twig_get. rewrite bind_state.
  destruct (log_map log !! k) as [v|] eqn:Hv.
  - destruct (lookup_present _ _ _ _ Ht Hv) as (i & e & El & _ & He & Hr).
    erewrite bind_ok by (unfold try_; by rewrite El). cbn beta iota.
    erewrite bind_ok; [done|]. unfold try_. rewrite Nat2N.id. by rewrite (entry_value_spec _ _ _ _ _ _ Ht He Hr).
  - erewrite bind_ok by (unfold try_; by rewrite (lookup_absent _ _ _ Ht Hv)). done.
Qed.

(** *** Writing *)

Lemma write_slot t n touched log log' s h f :
  forest n (tt_twigs t) touched log -> (s / TWIG_SIZE < n)%nat -> writes log log' s h f ->
  exists twigs1 twigs2,
    on_twig (slot_twig (N.of_nat s)) (twig_write_leaf (slot_local (N.of_nat s)) h) t
      = (set_twigs (fun _ => twigs1) t, Ok tt) /\
    on_twig (slot_twig (N.of_nat s)) (fun w => Ok (mkTwig (tw_nodes w) (f (tw_live w)) (tw_dirty w)))
      (set_twigs (fun _ => twigs1) t) = (set_twigs (fun _ => twigs2) t, Ok tt) /\
    forest n twigs2 (touched ++ [N.of_nat s]) log'.
Proof.
  intros Hf Hs Hw. destruct (forest_write _ _ _ _ _ _ _ _ Hf Hs Hw) as (w & nodes & Hl & E & Hf').
  apply lookup_lt_Some in Hl as Hlt. rewrite slot_twig_nat, slot_local_nat.
  eexists _, _. split_and!; [by eapply on_twig_ok| |exact Hf'].
  erewrite on_twig_ok; [|by apply list_lookup_insert_eq|done].
  cbn. unfold set_twigs. cbn. by rewrite list_insert_insert_eq.
Qed.

Lemma deactivate_spec t log i k v :
  body_rep t log -> log !! i = Some (k, Some v) ->
  exists entries twigs,
    let t' := set_twigs (fun _ => twigs) (set_touched (fun l => l ++ [N.of_nat i])
                (set_entries (fun _ => entries) t)) in
    deactivate (N.of_nat i) t = (t', Ok tt) /\ body_rep t' (<[i := (k, None)]> log).
Proof.
  intros [He Hf Hn] Hi. apply lookup_lt_Some in Hi as Hlt.
  destruct (Forall2_lookup_r _ _ _ _ _ He Hi) as (e & Ei & Hr).
  set (t1 := set_touched (fun l => l ++ [N.of_nat i]) (set_entries
    <[i := mkEntry (en_key e) (en_voff e) (en_vlen e) false]> t)).
  destruct (write_slot t1 _ _ _ _ i NULL_HASH _ Hf (twig_count_lt _ _ Hlt) (writes_drop _ _ _ _ Hi))
    as (twigs1 & twigs2 & E1 & E2 & Hf').
  eexists _, twigs2. split.
  - unfold deactivate. rewrite bind_state. rewrite Nat2N.id.
    erewrite bind_ok by (unfold try_; by rewrite (at_index_some _ _ _ Ei)).
    erewrite bind_ok by done. erewrite bind_ok by done. fold t1.
    erewrite bind_ok by exact E1. exact E2.
  - split; cbn; rewrite ?length_insert; [|exact Hf'|done].
    rewrite (ir_key _ _ _ Hr). by apply entries_drop; [..|apply (ir_key _ _ _ Hr)].
Qed.

(** The first step of [set]: the old entry of the key goes. *)
Lemma drop_old_spec t log k :
  tree_rep t log ->
  exists old t1, lookup_key t k = Ok old /\
    (match old with Some slot => deactivate slot | None => mret tt end) t = (t1, Ok tt) /\
    body_rep t1 (log_drop k log) /\ tt_next_slot t1 = tt_next_slot t /\ tt_index t1 = tt_index t /\
    tt_arena t1 = tt_arena t.
Proof.
  intros Ht. destruct (log_map log !! k) as [v|] eqn:Hv.
  - destruct (lookup_present _ _ _ _ Ht Hv) as (i & e & El & Hi & _ & _).
    destruct (deactivate_spec _ _ _ _ _ (re_body _ _ Ht) Hi) as (entries & twigs & E & Hb).
    eexists _, _. split; [exact El|]. cbn beta iota. split; [exact E|].
    rewrite (log_drop_at _ _ _ _ (re_ok _ _ Ht) Hi). done.
  - exists None, t. split; [by apply (lookup_absent _ log)|]. split; [done|].
    rewrite (log_drop_absent _ _ Hv). split; [apply Ht|done].
Qed.

Lemma index_drop_insert t log k v :
  tree_rep t log -> P k -> N.of_nat (length log) < TOMB ->
  exists f', flat_insert (key_prefix k) (N.of_nat (length log)) (tt_index t) = Ok f' /\
    index_rep f' (log_set k v log).
Proof.
  intros Ht Hk Hs. unfold log_set. rewrite <- (log_drop_length k log) in Hs |- *.
  apply (index_insert _ _ _ _ log).
  - apply Ht.
  - apply keys_in_drop, Ht.
  - done.
  - rewrite log_map_drop. apply lookup_delete_eq.
  - apply log_drop_length.
  - intros i e He Hne. unfold log_drop. rewrite list_lookup_fmap, He. cbn. unfold drop_item.
    by rewrite decide_False.
  - intros i k' v' Hi. unfold log_drop in Hi. rewrite list_lookup_fmap in Hi.
    destruct (log !! i) as [[k1 o]|]; [|done]. cbn in Hi. unfold drop_item in Hi. cbn in Hi.
    case_decide; by simplify_eq.
  - apply Ht.
  - done.
Qed.

Lemma set_spec t log k v :
  tree_rep t log -> P k -> N.of_nat (length v) <= u32_max -> N.of_nat (length log) < TOMB ->
  exists t', set_with_leaf k v (twig_hash_leaf k v) t = (t', Ok tt) /\ tree_rep t' (log_set k v log).
Proof.
  intros Ht Hk Hv Hs. destruct (drop_old_spec t log k Ht) as (old & t1 & El & E1 & Hb & Hn & Hi & Ha).
  destruct Hb as [He Hf Hnull]. set (g := log_drop k log) in *.
  assert (Hlen : length g = length log) by apply log_drop_length.
  rewrite (re_next _ _ Ht), <- Hlen in Hn.
  destruct (push_twigs_spec (S (slot_twig (N.of_nat (length g))) - length (tt_twigs t1)) _
    (set_next_slot (N.of_nat (length g) +w 1) t1) g Hnull Hf (twig_count_bound _)) as (twigs & E2 & Hf2).
  pose proof (fo_len _ _ _ _ Hf) as Hl. pose proof (twig_count_le (length g)) as Hle.
  assert (Hcnt : (twig_count (length g) + (S (slot_twig (N.of_nat (length g))) - length (tt_twigs t1))
    = twig_count (S (length g)))%nat).
  { rewrite slot_twig_nat, Hl. rewrite twig_count_S in *. lia. }
  rewrite Hcnt in Hf2.
  set (t2 := set_touched (fun l => l ++ [N.of_nat (length g)])
    (set_twigs (fun _ => twigs) (set_next_slot (N.of_nat (length g) +w 1) t1))).
  destruct (write_slot t2 _ _ _ _ (length g) _ _ Hf2
    (twig_count_lt _ _ (Nat.lt_succ_diag_r _)) (writes_append g k v)) as (w1 & w2 & E3 & E4 & Hf3).
  destruct (index_drop_insert t log k v Ht Hk Hs) as (index & E5 & Hix). rewrite <- Hlen in E5.
  eexists. split.
  - unfold set_with_leaf. rewrite bind_state. erewrite bind_ok by (unfold try_; by rewrite El).
    erewrite bind_ok by exact E1. rewrite bind_state. cbn zeta. rewrite Hn. erewrite bind_ok by done.
    erewrite bind_ok by exact E2. erewrite bind_ok by done. fold t2.
    erewrite bind_ok by exact E3. erewrite bind_ok by exact E4. rewrite bind_state. cbn zeta.
    erewrite bind_ok by done. erewrite bind_ok by done.
    erewrite bind_ok; [done|]. unfold try_. change (tt_index (set_entries _ _)) with (tt_index t1).
    by rewrite Hi, E5.
  - split; [split|..]; cbn.
    + rewrite <- (bool_decide_eq_true_2 (is_Some (Some v))) by done. 
      apply entries_append; [done| |done]. by intros w [= ->].
    + unfold log_set. rewrite length_app. fold g. cbn. rewrite Nat.add_1_r. exact Hf3.
    + done.
    + rewrite log_set_length, Hlen. unfold TOMB in Hs. rewrite u64_wadd_exact; lia.
    + done.
    + apply log_set_ok, Ht.
    + apply keys_in_append; [|done]. apply keys_in_drop, Ht.
Qed.

Lemma delete_spec t log k :
  tree_rep t log ->
  exists t', twig_delete k t = (t', Ok (bool_decide (is_Some (log_map log !! k)))) /\
    tree_rep t' (log_drop k log).
Proof.
  intros Ht. unfold twig_delete. rewrite bind_state. destruct (log_map log !! k) as [v|] eqn:Hv.
  - destruct (lookup_present _ _ _ _ Ht Hv) as (i & e & El & Hi & _ & _).
    destruct Ht as [Hb Hn Hx Hok Hin].
    assert (Hk : P k) by (by eapply Hin, list_elem_of_lookup_2).
    destruct (index_remove _ _ _ _ _ Hx Hok Hin Hk Hi) as (f' & o & Er & Hx').
    assert (Hb' : body_rep (set_index f' t) log) by (destruct Hb; by split).
    destruct (deactivate_spec _ _ _ _ _ Hb' Hi) as (entries & twigs & E & Hb'').
    eexists. split.
    + erewrite bind_ok by (unfold try_; by rewrite El). cbn beta iota.
      erewrite bind_ok by (unfold try_; by rewrite Er). cbn beta iota. erewrite bind_ok by done.
      erewrite bind_ok by exact E. by rewrite bool_decide_eq_true_2 by done.
    + rewrite (log_drop_at _ _ _ _ Hok Hi). split; [done| |done|..].
      * cbn. by rewrite length_insert.
      * rewrite <- (log_drop_at _ _ _ _ Hok Hi). by apply log_drop_ok.
      * by apply keys_in_insert.
  - exists t. erewrite bind_ok by (unfold try_; by rewrite (lookup_absent _ _ _ Ht Hv)).
    rewrite (log_drop_absent _ _ Hv). done.
Qed.
End theory.
