(* ===== verification/TwigCalls.v ===== *)
(** * Batches, roots, compaction and snapshots of a twig tree

    The operations of a tree that make many changes, as operations on its log, and
    the refinement theorem: whatever is called on a tree, the results are those of
    the log, and the values are those of a map. *)

From S2P Require Import Prelude Effects Messages BmtCore FlatIndex FlatIndexTheory.
From S2P Require Import Twig TwigHeap TwigLog TwigForest TwigTheory.

Section calls.
Context {digest : Digest} (P : Hash -> Prop) (prefix_inj : distinct_prefixes P).

(** ** Batches *)

Definition op_ok (op : batch_op) : Prop :=
  forall v, op.2 = Some v -> P op.1 /\ N.of_nat (length v) <= u32_max.

Lemma log_op_length log op : (length log <= length (log_op log op))%nat.
Proof. destruct op as [k [v|]]; cbn; rewrite ?log_set_length, ?log_drop_length; lia. Qed.
Lemma log_ops_length log ops : (length log <= length (foldl log_op log ops))%nat.
Proof.
  revert log. induction ops as [|op ops IH]; intros log; cbn [foldl]; [done|].
  etrans; [apply log_op_length|apply IH].
Qed.

Lemma apply_ops_spec ops t log :
  tree_rep P t log -> Forall op_ok ops -> N.of_nat (length (foldl log_op log ops)) <= TOMB ->
  exists t', apply_ops ops (omap (fun op : batch_op => twig_hash_leaf op.1 <$> op.2) ops) t = (t', Ok tt) /\
    tree_rep P t' (foldl log_op log ops).
Proof.
  revert t log. induction ops as [|[k o] ops IH]; intros t log Ht Hok Hlen; [by exists t|].
  apply Forall_cons in Hok as [Hop Hok]. cbn [foldl] in Hlen |- *.
  pose proof (log_ops_length (log_op log (k, o)) ops) as Hle.
  destruct o as [v|]; cbn [apply_ops].
  - change (log_op log (k, Some v)) with (log_set k v log) in Hle, Hlen |- *.
    rewrite log_set_length in Hle. destruct (Hop v eq_refl) as [Hk Hv].
    destruct (set_spec P prefix_inj t log k v Ht Hk Hv) as (t1 & E1 & Ht1); [lia|].
    destruct (IH t1 _ Ht1 Hok Hlen) as (t2 & E2 & Ht2). exists t2. split; [|done].
    cbn. erewrite bind_ok by exact E1. exact E2.
  - destruct (delete_spec P prefix_inj t log k Ht) as (t1 & E1 & Ht1).
    destruct (IH t1 _ Ht1 Hok Hlen) as (t2 & E2 & Ht2). exists t2. split; [|done].
    erewrite bind_ok by exact E1. exact E2.
Qed.

Lemma apply_batch_spec ops t log :
  tree_rep P t log -> Forall op_ok ops -> N.of_nat (length (log_batch ops log)) <= TOMB ->
  exists t', apply_batch_indexed ops t = (t', Ok tt) /\ tree_rep P t' (log_batch ops log).
Proof.
  intros Ht Hok Hlen. apply apply_ops_spec; [done| |done].
  by rewrite (sort_by_key_permutation fst ops).
Qed.

(** ** The root *)

Lemma root_spec t log :
  tree_rep P t log ->
  exists t', twig_tree_root t = (t', Ok (log_root log)) /\ tree_rep P t' log /\
    tt_touched t' = [] /\ upper_rep t' log.
Proof.
  intros [[He Hf Hn] Hs Hi Hok Hin].
  destruct (tree_root_spec t log Hf) as (twigs & upper & cap & E & Hf' & Hu).
  eexists. split; [exact E|]. split; [|done]. split; [|done..]. by split.
Qed.

(** ** Compaction *)

Lemma omap_unfold {A B} (f : A -> option B) x l :
  omap f (x :: l) = match f x with Some y => y :: omap f l | None => omap f l end.
Proof. done. Qed.

Lemma sparse_from threshold log active a twigs :
  (forall i w, twigs !! i = Some w -> tw_live w = live_in log (a + i)) ->
  omap (fun iw : nat * TwigHeap =>
    if (iw.1 =? active)%nat || (tw_live iw.2 =? 0)%nat then None
    else if below_threshold threshold (tw_live iw.2) then Some iw.1 else None)
    (imap (fun i w => (a + i, w)%nat) twigs)
  = filter (fun i => i ≠ active /\ live_in log i ≠ 0%nat /\
                     below_threshold threshold (live_in log i) = true) (seq a (length twigs)).
Proof.
  revert a. induction twigs as [|w twigs IH]; intros a Hl; [done|].
  cbn [length seq]. rewrite imap_cons, omap_unfold. cbn [fst snd].
  rewrite (Hl 0%nat w eq_refl), Nat.add_0_r.
  assert (E : imap ((fun i w => (a + i, w)%nat) ∘ S) twigs = imap (fun i (w : TwigHeap) => (S a + i, w)%nat) twigs).
  { apply imap_ext. intros i x _. cbn. f_equal. lia. }
  rewrite E, (IH (S a)).
  2:{ intros i x Hx. rewrite (Hl (S i) x Hx). f_equal. lia. }
  destruct (a =? active)%nat eqn:Ea; [apply Nat.eqb_eq in Ea|apply Nat.eqb_neq in Ea]; cbn [orb].
  { by rewrite filter_cons_False by tauto. }
  destruct (live_in log a =? 0)%nat eqn:El; [apply Nat.eqb_eq in El|apply Nat.eqb_neq in El].
  { by rewrite filter_cons_False by tauto. }
  destruct (below_threshold _ _) eqn:Eb.
  - by rewrite filter_cons_True.
  - rewrite filter_cons_False; [done|]. intros (_ & _ & H). congruence.
Qed.

Lemma sparse_spec threshold t log :
  tree_rep P t log -> sparse_twigs threshold t = log_sparse threshold log.
Proof.
  intros [[_ [Hl Ht _] _] Hs _ _ _]. unfold sparse_twigs, log_sparse.
  rewrite Hs, slot_twig_nat, <- Hl. apply (sparse_from threshold log _ 0). intros i w Hw.
  apply (tr_live _ _ _ _ (Ht i w Hw)).
Qed.

Lemma live_entries_app t l l' a b :
  live_entries t l = Ok a -> live_entries t l' = Ok b -> live_entries t (l ++ l') = Ok (a ++ b).
Proof.
  revert a. induction l as [|s l IH]; intros a Ha Hb; cbn [live_entries app] in *.
  { by simplify_eq. }
  destruct (at_index (tt_entries t) s) as [e| | |]; try done. cbn [mbind result_bind outcome_bind] in *.
  destruct (en_active e); [|by apply IH]. destruct (entry_value t s) as [v| | |]; try done.
  cbn [mbind result_bind outcome_bind] in *. destruct (live_entries t l) as [m| | |]; try done.
  cbn [mbind result_bind outcome_bind] in *. rewrite (IH m eq_refl Hb).
  cbn [mbind result_bind outcome_bind]. by simplify_eq.
Qed.

Lemma live_entries_seq t log a n :
  tree_rep P t log -> (a + n <= length log)%nat ->
  live_entries t (seq a n) = Ok (live (take n (drop a log))).
Proof.
  intros Ht. revert a. induction n as [|n IH]; intros a Hn; [done|]. cbn [seq live_entries].
  destruct (lookup_lt_is_Some_2 log a) as [[k o] Ha]; [lia|].
  destruct (Forall2_lookup_r _ _ _ _ _ (bo_entries _ _ (re_body _ _ _ Ht)) Ha) as (e & He & Hr).
  rewrite (at_index_some _ _ _ He). cbn [mbind result_bind outcome_bind].
  rewrite (drop_S _ _ _ Ha), firstn_cons, live_cons. rewrite (IH (S a)) by lia.
  rewrite (ir_active _ _ _ Hr), (ir_key _ _ _ Hr). cbn [fst snd]. destruct o as [v|]; cbn [live_item].
  - rewrite bool_decide_eq_true_2 by done. rewrite (entry_value_spec P t log _ _ _ _ Ht He Hr). done.
  - rewrite bool_decide_eq_false_2; [done|]. by intros [x Hx].
Qed.

Lemma live_entries_spec threshold t log :
  tree_rep P t log ->
  live_entries t (log_sparse threshold log ≫= fun id => seq (id * TWIG_SIZE) TWIG_SIZE)
  = Ok (log_sparse threshold log ≫= fun i => live (twig_log log i)).
Proof.
  intros Ht. assert (Hfull : forall i, i ∈ log_sparse threshold log -> (i * TWIG_SIZE + TWIG_SIZE <= length log)%nat).
  { intros i ((Hne & _) & Hin)%list_elem_of_filter. apply elem_of_seq in Hin.
    destruct log as [|e log]; cbn [length] in *; [rewrite twig_count_zero in Hin; lia|].
    rewrite twig_count_S in Hin. pose proof twig_size_pos.
    assert (length log / TWIG_SIZE <= S (length log) / TWIG_SIZE)%nat by (apply Nat.Div0.div_le_mono; lia).
    assert (Hlt : (S i <= S (length log) / TWIG_SIZE)%nat) by lia.
    apply (Nat.mul_le_mono_r _ _ TWIG_SIZE) in Hlt. pose proof (slot_split (S (length log))). lia. }
  induction (log_sparse threshold log) as [|i l IH]; [done|]. rewrite !bind_cons.
  apply live_entries_app; [|apply IH; intros j Hj; apply Hfull; by right].
  apply live_entries_seq with (log := log); [done|]. apply Hfull. left.
Qed.

Definition item_ok (kv : Hash * bytes) : Prop := P kv.1 /\ N.of_nat (length kv.2) <= u32_max.

Lemma live_ok t log kv : tree_rep P t log -> kv ∈ live log -> item_ok kv.
Proof.
  intros Ht Hkv. destruct kv as [k v]. apply elem_of_live in Hkv. split; [by eapply (re_keys _ _ _ Ht)|].
  apply list_elem_of_lookup in Hkv as [i Hi].
  destruct (Forall2_lookup_r _ _ _ _ _ (bo_entries _ _ (re_body _ _ _ Ht)) Hi) as (e & _ & Hr).
  by apply (ir_small _ _ _ Hr).
Qed.

Lemma sets_length log kvs :
  length (foldl (fun g kv => log_set kv.1 kv.2 g) log kvs) = (length log + length kvs)%nat.
Proof.
  revert log. induction kvs as [|kv kvs IH]; intros log; cbn [foldl length]; [lia|].
  rewrite IH, log_set_length. lia.
Qed.

Lemma set_all_spec kvs t log :
  tree_rep P t log -> Forall item_ok kvs -> N.of_nat (length log + length kvs) <= TOMB ->
  exists t', set_all kvs t = (t', Ok tt) /\ tree_rep P t' (foldl (fun g kv => log_set kv.1 kv.2 g) log kvs).
Proof.
  revert t log. induction kvs as [|[k v] kvs IH]; intros t log Ht Hok Hlen; [by exists t|].
  apply Forall_cons in Hok as [[Hk Hv] Hok]. cbn [length] in Hlen. cbn [set_all foldl fst snd] in *.
  destruct (set_spec P prefix_inj t log k v Ht Hk Hv) as (t1 & E1 & Ht1); [lia|].
  destruct (IH t1 _ Ht1 Hok) as (t2 & E2 & Ht2); [rewrite log_set_length; lia|].
  exists t2. split; [|done]. unfold twig_set. erewrite bind_ok by exact E1. exact E2.
Qed.

Lemma compact_spec threshold t log :
  tree_rep P t log -> N.of_nat (length (log_compact threshold log)) <= TOMB ->
  exists t', twig_compact threshold t = (t', Ok (length (log_moved threshold log))) /\
    tree_rep P t' (log_compact threshold log).
Proof.
  intros Ht Hlen. unfold log_compact in Hlen. rewrite sets_length in Hlen.
  destruct (set_all_spec (log_moved threshold log) t log Ht) as (t' & E & Ht'); [|done|].
  { apply Forall_forall. intros kv Hkv. eapply live_ok; [done|by eapply moved_live]. }
  exists t'. split; [|done]. unfold twig_compact. rewrite bind_state. cbn zeta.
  rewrite (sparse_spec threshold t log Ht).
  erewrite bind_ok by (unfold try_; by rewrite (live_entries_spec threshold t log Ht)).
  fold (log_moved threshold log). erewrite bind_ok by exact E. done.
Qed.

(** ** Sequences of calls *)

Inductive TreeCall : Type :=
| CSet (k : Hash) (v : bytes)
| CDelete (k : Hash)
| CGet (k : Hash)
| CBatch (ops : list batch_op)
| CRoot
| CCompact (threshold : SpecFloat.spec_float).

Inductive TreeReply : Type :=
| RDone
| RFound (b : bool)
| RValue (v : option bytes)
| RRoot (h : Hash)
| RMoved (n : nat).

Definition tree_call (c : TreeCall) : MW TreeReply :=
  match c with
  | CSet k v => twig_set k v ;; mret RDone
  | CDelete k => b ← twig_delete k; mret (RFound b)
  | CGet k => v ← twig_get k; mret (RValue v)
  | CBatch ops => apply_batch_indexed ops ;; mret RDone
  | CRoot => h ← twig_tree_root; mret (RRoot h)
  | CCompact threshold => n ← twig_compact threshold; mret (RMoved n)
  end.

(** The same call on a log. *)
Definition log_next (log : Log) (c : TreeCall) : Log :=
  match c with
  | CSet k v => log_set k v log
  | CDelete k => log_drop k log
  | CBatch ops => log_batch ops log
  | CCompact threshold => log_compact threshold log
  | CGet _ | CRoot => log
  end.
Definition log_reply (log : Log) (c : TreeCall) : TreeReply :=
  match c with
  | CSet _ _ | CBatch _ => RDone
  | CDelete k => RFound (bool_decide (is_Some (log_map log !! k)))
  | CGet k => RValue (log_map log !! k)
  | CRoot => RRoot (log_root log)
  | CCompact threshold => RMoved (length (log_moved threshold log))
  end.

(** And on a map. *)
Definition map_call (m : gmap Hash bytes) (c : TreeCall) : gmap Hash bytes :=
  match c with
  | CSet k v => <[k := v]> m
  | CDelete k => delete k m
  | CBatch ops => foldl map_op m (sort_by_key fst ops)
  | CGet _ | CRoot | CCompact _ => m
  end.

Definition call_ok (c : TreeCall) : Prop :=
  match c with
  | CSet k v => op_ok (k, Some v)
  | CBatch ops => Forall op_ok ops
  | CDelete _ | CGet _ | CRoot | CCompact _ => True
  end.

Fixpoint tree_calls (cs : list TreeCall) : MW (list TreeReply) :=
  match cs with
  | [] => mret []
  | c :: cs => r ← tree_call c; rs ← tree_calls cs; mret (r :: rs)
  end.
Fixpoint log_replies (cs : list TreeCall) (log : Log) : list TreeReply :=
  match cs with
  | [] => []
  | c :: cs => log_reply log c :: log_replies cs (log_next log c)
  end.

Lemma log_next_length log c : (length log <= length (log_next log c))%nat.
Proof.
  destruct c as [k v|k|k|ops| |th]; cbn [log_next].
  - rewrite log_set_length. lia.
  - by rewrite log_drop_length.
  - done.
  - apply log_ops_length.
  - done.
  - unfold log_compact. rewrite sets_length. lia.
Qed.

Lemma log_nexts_length cs log : (length log <= length (foldl log_next log cs))%nat.
Proof.
  revert log. induction cs as [|c cs IH]; intros log; cbn [foldl]; [done|].
  etrans; [apply log_next_length|apply IH].
Qed.

Lemma tree_call_spec c t log :
  tree_rep P t log -> call_ok c -> N.of_nat (length (log_next log c)) <= TOMB ->
  exists t', tree_call c t = (t', Ok (log_reply log c)) /\ tree_rep P t' (log_next log c).
Proof.
  intros Ht Hc Hl. destruct c as [k v|k|k|ops| |th]; cbn [log_next log_reply tree_call call_ok] in *.
  - destruct (Hc v eq_refl) as [Hk Hv]. rewrite log_set_length in Hl.
    destruct (set_spec P prefix_inj t log k v Ht Hk Hv) as (t1 & E & Ht1); [lia|].
    exists t1. split; [|done]. unfold twig_set. by erewrite bind_ok by exact E.
  - destruct (delete_spec P prefix_inj t log k Ht) as (t1 & E & Ht1).
    exists t1. split; [|done]. by erewrite bind_ok by exact E.
  - exists t. split; [|done]. by erewrite bind_ok by exact (get_spec P t log k Ht).
  - destruct (apply_batch_spec ops t log Ht Hc Hl) as (t1 & E & Ht1).
    exists t1. split; [|done]. by erewrite bind_ok by exact E.
  - destruct (root_spec t log Ht) as (t1 & E & Ht1 & _).
    exists t1. split; [|done]. by erewrite bind_ok by exact E.
  - destruct (compact_spec th t log Ht Hl) as (t1 & E & Ht1).
    exists t1. split; [|done]. by erewrite bind_ok by exact E.
Qed.

Lemma tree_calls_spec cs t log :
  tree_rep P t log -> Forall call_ok cs -> N.of_nat (length (foldl log_next log cs)) <= TOMB ->
  exists t', tree_calls cs t = (t', Ok (log_replies cs log)) /\ tree_rep P t' (foldl log_next log cs).
Proof.
  revert t log. induction cs as [|c cs IH]; intros t log Ht Hok Hl; [by exists t|].
  apply Forall_cons in Hok as [Hc Hok]. cbn [tree_calls log_replies foldl] in *.
  pose proof (log_nexts_length cs (log_next log c)) as Hle.
  destruct (tree_call_spec c t log Ht Hc) as (t1 & E1 & Ht1); [lia|].
  destruct (IH t1 _ Ht1 Hok Hl) as (t2 & E2 & Ht2). exists t2. split; [|done].
  erewrite bind_ok by exact E1. by erewrite bind_ok by exact E2.
Qed.

Lemma log_next_map log c :
  log_ok log -> log_ok (log_next log c) /\ log_map (log_next log c) = map_call (log_map log) c.
Proof.
  intros Hok. destruct c as [k v|k|k|ops| |th]; cbn [log_next map_call]; try done.
  - split; [by apply log_set_ok|apply log_map_set].
  - split; [by apply log_drop_ok|apply log_map_drop].
  - split; [by apply log_ops_ok|apply log_map_ops].
  - by apply log_compact_map.
Qed.

Lemma log_nexts_map cs log :
  log_ok log -> log_ok (foldl log_next log cs) /\
    log_map (foldl log_next log cs) = foldl map_call (log_map log) cs.
Proof.
  revert log. induction cs as [|c cs IH]; intros log Hok; cbn [foldl]; [done|].
  destruct (log_next_map log c Hok) as [H1 H2]. rewrite <- H2. by apply IH.
Qed.
End calls.

(** A twig tree is a map with an append-only history.  Whatever sequence of
    [set], [delete], [get], [apply_batch], [root] and [compact] is called on a new
    tree, storing keys whose first sixteen bytes differ and values of at most
    [u32::MAX] bytes, no call panics and every reply is the reply of the log of
    entries: the root is the Merkle root of the log, whichever way dirty twigs
    were rehashed and whatever the seed of the index.  The map of the log is the
    one the calls make of the empty map; compaction leaves it as it is. *)
Theorem twig_tree_refines_log `{Digest} (P : Hash -> Prop) seed cs :
  distinct_prefixes P -> Forall (call_ok P) cs ->
  N.of_nat (length (foldl log_next [] cs)) <= TOMB ->
  exists t, tree_calls cs (twig_tree_new seed) = (t, Ok (log_replies cs [])) /\
    forall k, twig_get k t = (t, Ok (foldl map_call ∅ cs !! k)).
Proof.
  intros Hp Hok Hl.
  destruct (tree_calls_spec P Hp cs _ [] (twig_tree_new_rep P seed) Hok Hl) as (t & E & Ht).
  exists t. split; [done|]. intros k. rewrite (get_spec P t _ k Ht).
  destruct (log_nexts_map cs []) as [_ ->]; [apply NoDup_nil_2|done].
Qed.
