(* ===== verification/TwigSnapshot.v ===== *)
(** * Snapshots of a twig tree

    A snapshot of a tree is its log, and a tree restored from a snapshot holds the
    log of the snapshot.  A snapshot that is not one of a tree is refused: with a
    wrong slot count, with a value that is too long, or with two active entries
    that the index cannot tell apart, which only the comparison of the live
    counters notices. *)

From S2P Require Import Prelude Effects Messages BmtCore FlatIndex FlatIndexTheory.
From S2P Require Import Twig TwigHeap TwigLog TwigForest TwigTheory TwigCalls.

(** ** The live counters *)

Definition prefixes (log : Log) : list N := key_prefix <$> (live log).*1.

Lemma prefixes_app log log' : prefixes (log ++ log') = prefixes log ++ prefixes log'.
Proof. unfold prefixes. by rewrite live_app, !fmap_app. Qed.

Lemma elem_of_prefixes p log :
  p ∈ prefixes log <-> exists i k v, log !! i = Some (k, Some v) /\ key_prefix k = p.
Proof.
  unfold prefixes. rewrite list_elem_of_fmap. split.
  - intros (k & -> & ([k' v] & -> & Hin)%list_elem_of_fmap). apply elem_of_live in Hin.
    apply list_elem_of_lookup in Hin as [i Hi]. eauto.
  - intros (i & k & v & Hi & <-). exists k. split; [done|]. apply list_elem_of_fmap. exists (k, v).
    split; [done|]. apply elem_of_live. by eapply list_elem_of_lookup_2.
Qed.

Lemma size_list_to_set_le (l : list N) : (size (list_to_set l : gset N) <= length l)%nat.
Proof.
  induction l as [|x l IH]; [done|]. cbn [list_to_set length].
  rewrite size_union_alt, size_singleton.
  pose proof (subseteq_size (list_to_set l ∖ {[x]} : gset N) (list_to_set l) ltac:(set_solver)). lia.
Qed.

Lemma size_list_to_set_iff (l : list N) : size (list_to_set l : gset N) = length l <-> NoDup l.
Proof.
  split; [|apply size_list_to_set]. induction l as [|x l IH]; [constructor|].
  cbn [list_to_set length]. intros H. pose proof (size_list_to_set_le l) as Hle.
  destruct (decide (x ∈ l)) as [Hin|Hin].
  - replace ({[x]} ∪ list_to_set l : gset N) with (list_to_set l : gset N) in H by set_solver. lia.
  - apply NoDup_cons. split; [done|]. apply IH. rewrite size_union, size_singleton in H by set_solver. lia.
Qed.

Lemma live_by_entries arena entries log :
  entries_rep entries arena log ->
  length (filter (fun e => en_active e = true) entries) = length (live log).
Proof.
  induction 1 as [|e [k o] entries log [_ Ha _ _] _ IH]; [done|]. rewrite length_live_cons.
  cbn in Ha. destruct o as [v|].
  - rewrite filter_cons_True; [cbn; lia|]. by rewrite Ha, bool_decide_eq_true_2.
  - rewrite filter_cons_False; [cbn; lia|]. rewrite Ha, bool_decide_eq_false_2; [done|]. by intros [x Hx].
Qed.

Lemma live_sum_from log a twigs :
  (forall i w, twigs !! i = Some w -> tw_live w = live_in log (a + i)) ->
  foldr (fun w n => (tw_live w + n)%nat) 0%nat twigs
  = length (seq a (length twigs) ≫= fun i => live (twig_log log i)).
Proof.
  revert a. induction twigs as [|w twigs IH]; intros a Hl; [done|]. cbn [foldr length seq].
  rewrite bind_cons, length_app, (Hl 0%nat w eq_refl), Nat.add_0_r, (IH (S a)); [done|].
  intros i x Hx. rewrite (Hl (S i) x Hx). f_equal. lia.
Qed.

Section snapshot.
Context {digest : Digest}.

Lemma live_by_forest twigs touched log :
  forest (twig_count (length log)) twigs touched log ->
  foldr (fun w n => (tw_live w + n)%nat) 0%nat twigs = length (live log).
Proof.
  intros [Hl Ht _]. rewrite (live_sum_from log 0), Hl.
  - by rewrite <- live_by_twig by apply twig_count_bound.
  - intros i w Hw. apply (tr_live _ _ _ _ (Ht i w Hw)).
Qed.

Lemma index_size f m log :
  flat_rep f m -> (forall p, is_Some (m !! p) <-> p ∈ prefixes log) ->
  flat_len f = size (list_to_set (prefixes log) : gset N).
Proof.
  intros Hm Hd. unfold flat_len. rewrite (fr_size _ _ Hm), <- size_dom. f_equal.
  apply set_eq. intros p. by rewrite elem_of_dom, elem_of_list_to_set, Hd.
Qed.

Lemma length_prefixes log : length (prefixes log) = length (live log).
Proof. unfold prefixes. by rewrite !length_fmap. Qed.

(** The comparison of the counters, for entries and twigs of one log. *)
Lemma check_consistency_spec t log m :
  body_rep t log -> flat_rep (tt_index t) m -> (forall p, is_Some (m !! p) <-> p ∈ prefixes log) ->
  check_consistency t =
  if decide (NoDup (prefixes log)) then Ok tt
  else Err (LiveMismatch (size (list_to_set (prefixes log) : gset N)) (length (live log))
              (length (live log))).
Proof.
  intros Hb Hm Hd. unfold check_consistency.
  rewrite (index_size _ _ _ Hm Hd), (live_by_forest _ _ _ (bo_forest _ _ Hb)),
    (live_by_entries _ _ _ (bo_entries _ _ Hb)).
  pose proof (size_list_to_set_iff (prefixes log)) as Hs. rewrite length_prefixes in Hs.
  case_decide as Hn.
  - by rewrite (proj2 Hs Hn), Nat.eqb_refl.
  - rewrite (proj2 (Nat.eqb_neq _ _)); [done|]. tauto.
Qed.

Lemma prefixes_NoDup (P : Hash -> Prop) log :
  distinct_prefixes P -> log_ok log -> keys_in P log -> NoDup (prefixes log).
Proof.
  intros Hp Hok Hin. unfold prefixes. apply NoDup_fmap_2_strong; [|done].
  assert (Hk : forall k, k ∈ (live log).*1 -> P k).
  { intros k ([k' v] & -> & Hx)%list_elem_of_fmap. eapply Hin. by apply elem_of_live. }
  intros k k' H1 H2 E. apply Hp; auto.
Qed.

Lemma tree_consistent (P : Hash -> Prop) t log :
  distinct_prefixes P -> tree_rep P t log -> check_consistency t = Ok tt.
Proof.
  intros Hp [Hb _ (m & Hm & Hi) Hok Hin]. rewrite (check_consistency_spec t log m Hb Hm).
  - by rewrite decide_True by by eapply prefixes_NoDup.
  - intros p. rewrite elem_of_prefixes. split.
    + intros [s (i & k & v & _ & H)%Hi]. eauto.
    + intros (i & k & v & H & Hk). exists (N.of_nat i). apply Hi. by exists i, k, v.
Qed.

(** ** Taking a snapshot *)

Definition snap_item (e : Hash * option bytes) : EntrySnapshot :=
  mkEntrySnapshot e.1 (default [] e.2) (bool_decide (is_Some e.2)).
Definition item_of (e : EntrySnapshot) : Hash * option bytes :=
  (es_key e, if es_active e then Some (es_value e) else None).
Definition snap_log (l : list EntrySnapshot) : Log := item_of <$> l.

Lemma snap_log_items log : snap_log (snap_item <$> log) = log.
Proof.
  unfold snap_log. rewrite <- list_fmap_compose. rewrite <- (list_fmap_id log) at 2.
  apply list_fmap_ext. intros i [k [v|]] _; done.
Qed.

Lemma snapshot_entries_spec (P : Hash -> Prop) t log a n :
  tree_rep P t log -> (a + n <= length log)%nat ->
  snapshot_entries t (seq a n) = Ok (snap_item <$> take n (drop a log)).
Proof.
  intros Ht. revert a. induction n as [|n IH]; intros a Hn; [done|]. cbn [seq snapshot_entries].
  destruct (lookup_lt_is_Some_2 log a) as [[k o] Ha]; [lia|].
  destruct (Forall2_lookup_r _ _ _ _ _ (bo_entries _ _ (re_body _ _ _ Ht)) Ha) as (e & He & Hr).
  rewrite (at_index_some _ _ _ He). cbn [mbind result_bind outcome_bind].
  rewrite (drop_S _ _ _ Ha), firstn_cons, fmap_cons. rewrite (IH (S a)) by lia.
  rewrite (ir_active _ _ _ Hr), (ir_key _ _ _ Hr). unfold snap_item at 2. cbn [fst snd].
  destruct o as [v|].
  - rewrite bool_decide_eq_true_2 by done. by rewrite (entry_value_spec P t log _ _ _ _ Ht He Hr).
  - rewrite bool_decide_eq_false_2; [done|]. by intros [x Hx].
Qed.

Lemma shard_snapshot_spec (P : Hash -> Prop) t log :
  tree_rep P t log ->
  shard_snapshot t = Ok (mkShardSnapshot (N.of_nat (length log)) (snap_item <$> log)).
Proof.
  intros Ht. unfold shard_snapshot.
  rewrite (Forall2_length _ _ _ (bo_entries _ _ (re_body _ _ _ Ht))).
  rewrite (snapshot_entries_spec P t log 0 (length log) Ht) by lia.
  cbn [mbind result_bind outcome_bind]. rewrite (re_next _ _ _ Ht), drop_0, take_ge by lia. done.
Qed.

(** ** Restoring *)

(** The index while a log is replayed: an entry overwrites an earlier one with the
    same prefix. *)
Definition index_last (f : FlatIndex) (log : Log) : Prop :=
  exists m, flat_rep f m /\ (forall p, is_Some (m !! p) <-> p ∈ prefixes log) /\
    (NoDup (prefixes log) -> forall p s, m !! p = Some s <-> indexed log p s).

Lemma index_last_dead f log k : index_last f log -> index_last f (log ++ [(k, None)]).
Proof.
  intros (m & Hm & Hd & Hi). exists m. rewrite prefixes_app, app_nil_r. split; [done|].
  split; [done|]. intros Hn p s. rewrite (Hi Hn p s). split; intros (i & k' & v & -> & H & Hk).
  - exists i, k', v. split; [done|]. split; [|done]. by apply lookup_app_l_Some.
  - exists i, k', v. split; [done|]. split; [|done]. apply lookup_app_Some in H as [H|[_ H]]; [done|].
    by apply list_lookup_singleton_Some in H as [_ H].
Qed.

Lemma index_last_insert f log k v :
  index_last f log -> N.of_nat (length log) < TOMB ->
  exists f', flat_insert (key_prefix k) (N.of_nat (length log)) f = Ok f' /\
    index_last f' (log ++ [(k, Some v)]).
Proof.
  intros (m & Hm & Hd & Hi) Hs.
  destruct (flat_insert_spec f m (key_prefix k) (N.of_nat (length log)) Hm (slot_is_live _ Hs))
    as (f' & E & Hm').
  exists f'. split; [done|]. eexists. split; [exact Hm'|]. rewrite prefixes_app.
  change (prefixes [(k, Some v)]) with [key_prefix k]. split.
  - intros p. rewrite elem_of_app, list_elem_of_singleton, <- Hd. destruct (decide (p = key_prefix k)) as [->|].
    + rewrite lookup_insert_eq. split; [by right|done].
    + rewrite lookup_insert_ne by done. split; [by left|]. by intros [H|H].
  - intros (Hn & Hx & _)%NoDup_app p s. rewrite lookup_insert_Some, (Hi Hn). split.
    + intros [[<- <-]|[Hp (j & k' & v' & -> & Hj & Hk)]].
      * exists (length log), k, v. split_and!; try done. by rewrite list_lookup_middle.
      * exists j, k', v'. split; [done|]. split; [|done]. by apply lookup_app_l_Some.
    + intros (j & k' & v' & -> & Hj & Hk). apply lookup_app_Some in Hj as [Hj|[Hge Hj]].
      * right. split; [|by exists j, k', v']. intros E'. apply (Hx p); [|by rewrite E'; left].
        apply elem_of_prefixes. eauto.
      * apply list_lookup_singleton_Some in Hj as [Hj [= <- <-]]. left. split; [done|]. f_equal. lia.
Qed.

Lemma restore_entry_spec t log e :
  body_rep t log -> index_last (tt_index t) log -> N.of_nat (length (es_value e)) <= u32_max ->
  N.of_nat (length log) < TOMB ->
  exists t', restore_entry (length log) e t = (t', Ok tt) /\ body_rep t' (log ++ [item_of e]) /\
    index_last (tt_index t') (log ++ [item_of e]) /\ tt_next_slot t' = tt_next_slot t.
Proof.
  intros [He Hf Hnull] Hix Hv Hs. unfold restore_entry. cbn zeta. rewrite bind_state.
  destruct (push_twigs_spec (S (slot_twig (N.of_nat (length log))) - length (tt_twigs t)) _ t log
    Hnull Hf (twig_count_bound _)) as (twigs & E2 & Hf2).
  assert (Hcnt : (twig_count (length log) + (S (slot_twig (N.of_nat (length log))) - length (tt_twigs t))
    = twig_count (S (length log)))%nat).
  { pose proof (twig_count_le (length log)). rewrite slot_twig_nat, (fo_len _ _ _ _ Hf).
    rewrite twig_count_S in *. lia. }
  rewrite Hcnt in Hf2. clear Hcnt. erewrite bind_ok by exact E2. erewrite bind_ok by done.
  destruct e as [k v []]; cbn [es_active es_key es_value] in *.
  - set (t1 := set_arena (fun a => a ++ v) (set_twigs (fun _ => twigs) t)).
    destruct (write_slot t1 _ _ _ _ (length log) _ _ Hf2
      (twig_count_lt _ _ (Nat.lt_succ_diag_r _)) (writes_append log k v)) as (w1 & w2 & E3 & E4 & Hf3).
    destruct (index_last_insert _ _ k v Hix Hs) as (f' & E5 & Hix').
    eexists. split.
    + erewrite bind_ok; [done|]. erewrite bind_ok by exact E3. erewrite bind_ok by exact E4.
      erewrite bind_ok by done. erewrite bind_ok; [done|]. unfold try_.
      change (tt_index (set_touched _ _)) with (tt_index t). by rewrite E5.
    + split_and!; [|done|done]. split; cbn; [|rewrite length_app, Nat.add_1_r; exact Hf3|done].
      rewrite <- (bool_decide_eq_true_2 (is_Some (Some v))) by done.
      apply entries_append; [done| |done]. by intros w [= ->].
  - eexists. split; [by erewrite bind_ok by done|].
    split_and!; [|by apply index_last_dead|done]. split; cbn; [| |done].
    + rewrite <- (bool_decide_eq_false_2 (is_Some (@None bytes))) by (by intros [x Hx]).
      by apply entries_append.
    + rewrite length_app, Nat.add_1_r. destruct (append_dead log k) as [H1 H2].
      by eapply forest_same.
Qed.

(** The first value that is too long. *)
Fixpoint first_large (slot : nat) (l : list EntrySnapshot) : option TwigError :=
  match l with
  | [] => None
  | e :: l =>
      if u32_max <? N.of_nat (length (es_value e)) then Some (ValueTooLarge slot (length (es_value e)))
      else first_large (S slot) l
  end.

Lemma restore_entries_spec l t log :
  body_rep t log -> index_last (tt_index t) log -> N.of_nat (length log + length l) <= TOMB ->
  match first_large (length log) l with
  | Some e => restore_entries (length log) l t = Err e
  | None => exists t', restore_entries (length log) l t = Ok t' /\ body_rep t' (log ++ snap_log l) /\
      index_last (tt_index t') (log ++ snap_log l) /\ tt_next_slot t' = tt_next_slot t
  end.
Proof.
  revert t log. induction l as [|e l IH]; intros t log Hb Hi Hl; cbn [first_large restore_entries].
  { exists t. by rewrite app_nil_r. }
  cbn [length] in Hl. destruct (u32_max <? _) eqn:Ev; [done|]. bool_simpl.
  destruct (restore_entry_spec t log e Hb Hi) as (t1 & -> & Hb1 & Hi1 & Hn1); [lia|lia|].
  cbn [no_error mbind result_bind outcome_bind].
  assert (Hlen : length (log ++ [item_of e]) = S (length log)) by (rewrite length_app; cbn; lia).
  specialize (IH t1 (log ++ [item_of e]) Hb1 Hi1). rewrite Hlen in IH. specialize (IH ltac:(lia)).
  destruct (first_large (S (length log)) l); [done|]. destruct IH as (t' & E & Hb' & Hi' & Hn').
  exists t'. rewrite <- app_assoc in Hb', Hi'. split_and!; [done..|congruence].
Qed.

(** What [restore] complains about. *)
Definition restore_error (snap : ShardSnapshot) : option TwigError :=
  let log := snap_log (ss_entries snap) in
  if negb (ss_next_slot snap =? N.of_nat (length (ss_entries snap)))
  then Some (NextSlotMismatch (ss_next_slot snap) (length (ss_entries snap)))
  else
    match first_large 0 (ss_entries snap) with
    | Some e => Some e
    | None =>
        if decide (NoDup (prefixes log)) then None
        else Some (LiveMismatch (size (list_to_set (prefixes log) : gset N)) (length (live log))
                     (length (live log)))
    end.

Lemma index_last_new seed : index_last (flat_new seed) [].
Proof.
  exists ∅. split; [apply flat_new_rep|]. split.
  - intros p. rewrite lookup_empty, elem_of_prefixes. split; [by intros [? ?]|]. by intros (i & k & v & H & _).
  - intros _ p s. split; [done|]. by intros (i & k & v & _ & H & _).
Qed.

Lemma restore_spec seed snap :
  N.of_nat (length (ss_entries snap)) <= TOMB ->
  match restore_error snap with
  | Some e => twig_restore seed snap = Err e
  | None => exists t, twig_restore seed snap = Ok t /\
      tree_rep (fun k => k ∈ (live (snap_log (ss_entries snap))).*1) t (snap_log (ss_entries snap))
  end.
Proof.
  intros Hl. unfold restore_error, twig_restore. destruct (negb _) eqn:En; [done|]. cbn zeta.
  apply negb_false_iff, N.eqb_eq in En. set (l := ss_entries snap) in *. set (log := snap_log l).
  destruct (twig_tree_new_rep (fun _ => True) seed) as [Hb _ _ _ _].
  pose proof (restore_entries_spec l (set_next_slot (ss_next_slot snap) (twig_tree_new seed)) []) as H.
  cbn [length] in H. destruct (first_large 0 l) as [e|].
  { rewrite H; [done|destruct Hb; by split|apply index_last_new|lia]. }
  destruct H as (t & E & Hb' & (m & Hm & Hd & Hi) & Hn); [destruct Hb; by split|apply index_last_new|lia|].
  rewrite E. cbn [mbind result_bind outcome_bind]. cbn [app] in *. fold log in Hb', Hd, Hi.
  rewrite (check_consistency_spec t log m Hb' Hm Hd). case_decide as Hnd; [|done].
  exists t. split; [done|]. split; [done| |by exists m; auto|..].
  - rewrite Hn. cbn. rewrite En. unfold log, snap_log. by rewrite length_fmap.
  - unfold log_ok. by eapply NoDup_fmap_1.
  - intros k v Hin. apply list_elem_of_fmap. exists (k, v). split; [done|]. by apply elem_of_live.
Qed.

Lemma tree_rep_mono (P Q : Hash -> Prop) t log :
  (forall k, P k -> Q k) -> tree_rep P t log -> tree_rep Q t log.
Proof. intros H [H1 H2 H3 H4 H5]. split; try done. intros k v Hin. eapply H, H5, Hin. Qed.

(** A tree restored from the snapshot of a tree holds its log. *)
Lemma snapshot_restore (P : Hash -> Prop) t log seed :
  distinct_prefixes P -> tree_rep P t log -> N.of_nat (length log) <= TOMB ->
  exists snap t', shard_snapshot t = Ok snap /\ ss_entries snap = snap_item <$> log /\ 
    twig_restore seed snap = Ok t' /\ tree_rep P t' log.
Proof.
  intros Hp Ht Hl. eexists. 
  pose proof (restore_spec seed (mkShardSnapshot (N.of_nat (length log)) (snap_item <$> log))) as Hr.
  cbn [ss_entries ss_next_slot] in Hr. rewrite length_fmap in Hr. specialize (Hr Hl).
  unfold restore_error in Hr. cbn [ss_entries ss_next_slot] in Hr.
  rewrite length_fmap, N.eqb_refl, snap_log_items in Hr. cbn [negb] in Hr.
  assert (Hsmall : forall s l, (forall e, e ∈ l -> N.of_nat (length (es_value e)) <= u32_max) -> first_large s l = None).
  { intros s l. revert s. induction l as [|e l IH]; intros s H; [done|]. cbn [first_large].
    rewrite (proj2 (N.ltb_ge _ _)) by (apply H; left). apply IH. intros x Hx. apply H. by right. }
  rewrite Hsmall in Hr.
  - rewrite decide_True in Hr by (eapply prefixes_NoDup; [done|apply Ht..]).
    destruct Hr as (t' & E & Ht'). exists t'. split; [by eapply shard_snapshot_spec|].
    split; [done|]. split; [done|]. eapply tree_rep_mono; [|exact Ht'].
    intros k ([k' v] & -> & Hin)%list_elem_of_fmap. eapply (re_keys _ _ _ Ht). by apply elem_of_live.
  - intros e ([k o] & -> & Hin)%list_elem_of_fmap. cbn. destruct o as [v|]; [|cbn; unfold u32_max; lia].
    assert (Hlive : (k, v) ∈ live log) by by apply elem_of_live. by destruct (live_ok P t log _ Ht Hlive).
Qed.
End snapshot.
