(* ===== verification/TwigProofs.v ===== *)
(** * Inclusion proofs of a twig tree

    After [root] a proof of every key of the tree can be made and verifies against
    the root; and whatever verifies against the root of a log is an entry of the
    log, if the hash function has no collision on what was hashed and no value has
    31 bytes.  Leaves are hashed without a length and nodes without a prefix, so a
    leaf with a value of 31 bytes is hashed like a node: [forged_leaf] makes a
    proof of an entry that is not in the tree from one with such a value. *)

From S2P Require Import Prelude Effects Messages BmtCore BmtTree BmtArena BmtTheory BmtProofs ShardTree.
From S2P Require Import FlatIndex FlatIndexTheory Twig TwigHeap TwigLog TwigForest TwigTheory.
From S2P Require Import TwigCalls.

Section proofs.
Context {digest : Digest}.

(** ** Paths *)

Lemma fold_path_split n x s p1 p2 :
  length p1 = n ->
  fold_path (fold_path x (s mod 2 ^ n) p1) (s / 2 ^ n) p2 = fold_path x s (p1 ++ p2).
Proof.
  revert x s p1. induction n as [|n IH]; intros x s [|sib p1] Hl; try done; cbn [fold_path app Nat.pow].
  { by rewrite Nat.div_1_r. }
  injection Hl as Hl. pose proof (Nat.pow_nonzero 2 n ltac:(lia)).
  assert (Hs : (s mod (2 * 2 ^ n) = s mod 2 + 2 * (Nat.div2 s mod 2 ^ n))%nat).
  { rewrite Nat.div2_div. apply Nat.Div0.mod_mul_r. }
  assert (He : Nat.even (s mod (2 * 2 ^ n)) = Nat.even s).
  { rewrite Hs, Nat.even_add_mul_2. rewrite (Nat.div_mod_eq s 2) at 2.
    rewrite Nat.add_comm, Nat.even_add_mul_2. done. }
  assert (Hd : Nat.div2 (s mod (2 * 2 ^ n)) = (Nat.div2 s mod 2 ^ n)%nat).
  { rewrite Hs, (Nat.div2_div (_ + _)). symmetry. apply (Nat.div_unique _ _ _ (s mod 2)).
    - apply Nat.mod_upper_bound. lia.
    - lia. }
  rewrite He, Hd. replace (s / (2 * 2 ^ n))%nat with (Nat.div2 s / 2 ^ n)%nat; [by apply IH|].
  rewrite Nat.div2_div. apply Nat.Div0.div_div.
Qed.

Lemma verify_one_path p root :
  length (tp_twig_path p) = TWIG_HEIGHT ->
  twig_verify p root =
  (fold_path (twig_hash_leaf (tp_key p) (tp_value p)) (N.to_nat (tp_slot p))
     (tp_twig_path p ++ tp_upper_path p) =? root).
Proof.
  intros Hl. unfold twig_verify. rewrite <- (N2Nat.id (tp_slot p)) at 1 2.
  rewrite slot_twig_nat, slot_local_nat, twig_size_pow. by rewrite fold_path_split.
Qed.

(** ** Completeness *)

Lemma heap_path H nodes leaf i :
  heap_of H nodes leaf fresh -> (i < 2 ^ H)%nat ->
  exists path, sibling_path H nodes (2 ^ H + i) = Ok path /\ length path = H /\
    fold_path (leaf i) i path = subtree leaf H 0.
Proof.
  intros Hh Hi. destruct (sibling_path_spec nodes (2 ^ H + i) i (leaf i) H) as (path & E & Hl & Hr).
  - intros j Hj. by destruct (ho_node _ _ _ _ Hh j Hj).
  - done.
  - done.
  - by apply (ho_leaf _ _ _ _ Hh).
  - exists path. split; [done|]. split; [done|]. rewrite (heap_root _ _ _ Hh) in Hr. congruence.
Qed.

Lemma prove_spec (P : Hash -> Prop) t log k :
  tree_rep P t log -> tt_touched t = [] -> upper_rep t log ->
  match log_map log !! k with
  | None => twig_prove k t = (t, Ok None)
  | Some v => exists p, twig_prove k t = (t, Ok (Some p)) /\ tp_key p = k /\ tp_value p = v /\
      length (tp_twig_path p) = TWIG_HEIGHT /\ log !! N.to_nat (tp_slot p) = Some (k, Some v) /\
      twig_verify p (log_root log) = true
  end.
Proof.
  intros Ht Hto Hu. unfold twig_prove. rewrite bind_state.
  destruct (log_map log !! k) as [v|] eqn:Hv.
  2:{ by erewrite bind_ok by (unfold try_; by rewrite (lookup_absent _ _ _ _ Ht Hv)). }
  destruct (lookup_present _ _ _ _ _ Ht Hv) as (i & e & El & Hi & He & Hr).
  erewrite bind_ok by (unfold try_; by rewrite El). cbn beta iota.
  erewrite bind_ok.
  2:{ unfold try_. rewrite Nat2N.id. by rewrite (entry_value_spec _ _ _ _ _ _ _ Ht He Hr). }
  apply lookup_lt_Some in Hi as Hlt. pose proof (bo_forest _ _ (re_body _ _ _ Ht)) as Hf.
  rewrite Hto in Hf. pose proof (twig_count_lt _ _ Hlt) as Hc.
  destruct (lookup_lt_is_Some_2 (tt_twigs t) (i / TWIG_SIZE)) as [w Hw].
  { by rewrite (fo_len _ _ _ _ Hf). }
  rewrite slot_twig_nat, slot_local_nat.
  erewrite bind_ok by (unfold try_; by rewrite (at_index_some _ _ _ Hw)).
  destruct (heap_path _ _ _ (i mod TWIG_SIZE) (forest_fresh _ _ _ _ _ Hf Hw)) as (p1 & E1 & Hl1 & Hr1).
  { rewrite <- twig_size_pow. apply slot_mod_lt. }
  erewrite bind_ok by (unfold try_; rewrite twig_size_pow; by rewrite twig_size_pow in E1; rewrite E1).
  destruct log as [|e0 log]; [done|]. destruct Hu as [Hcap Hup]. set (log' := e0 :: log) in *.
  set (u := Nat.log2_up (twig_count (length log'))) in *.
  assert (Hid : (i / TWIG_SIZE < 2 ^ u)%nat).
  { eapply Nat.lt_le_trans; [exact Hc|]. destruct (decide (twig_count (length log') = 1%nat)) as [E|].
    - rewrite E. apply pow2_pos.
    - apply Nat.log2_up_spec. lia. }
  destruct (heap_path _ _ _ (i / TWIG_SIZE) Hup Hid) as (p2 & E2 & Hl2 & Hr2).
  unfold upper_sibling_path. rewrite Hcap. unfold next_power_of_two. fold u.
  assert (Nat.log2 (2 ^ u + i / TWIG_SIZE) = u) as ->.
  { apply Nat.log2_unique; [lia|]. cbn [Nat.pow]. lia. }
  erewrite bind_ok by (unfold try_; by rewrite E2).
  eexists. split; [done|]. cbn [tp_key tp_value tp_twig_path tp_slot]. rewrite Nat2N.id.
  split_and!; try done. rewrite verify_one_path by done.
  cbn [tp_key tp_value tp_twig_path tp_upper_path tp_slot]. rewrite Nat2N.id.
  rewrite <- (fold_path_split TWIG_HEIGHT) by done. rewrite <- twig_size_pow.
  assert (Hleaf : log_leaf log' (i / TWIG_SIZE) (i mod TWIG_SIZE) = twig_hash_leaf k v).
  { unfold log_leaf. by rewrite <- slot_split, Hi. }
  rewrite Hleaf in Hr1. rewrite Hr1. fold (twig_log_root log' (i / TWIG_SIZE)).
  unfold upper_leaf in Hr2 at 1. rewrite (proj2 (Nat.ltb_lt _ _)) in Hr2 by done.
  rewrite Hr2. apply N.eqb_refl.
Qed.
End proofs.

(** ** Soundness *)

(** The tree over a log, with what is hashed for it. *)
Inductive HTree : Type :=
| HNull
| HLeaf (k : Hash) (v : bytes)
| HNode (l r : HTree).

Definition twig_leaf_input (k : Hash) (v : bytes) : bytes := [LEAF_PREFIX] ++ b256_bytes k ++ v.

Section sound.
Context {digest : Digest}.

Fixpoint hhash (t : HTree) : Hash :=
  match t with
  | HNull => NULL_HASH
  | HLeaf k v => twig_hash_leaf k v
  | HNode l r => hash_node (hhash l) (hhash r)
  end.

Fixpoint hinputs (t : HTree) : list bytes :=
  match t with
  | HNull => []
  | HLeaf k v => [twig_leaf_input k v]
  | HNode l r => pair_input (hhash l) (hhash r) :: hinputs l ++ hinputs r
  end.

Fixpoint hleaves (t : HTree) : list (Hash * bytes) :=
  match t with
  | HNull => []
  | HLeaf k v => [(k, v)]
  | HNode l r => hleaves l ++ hleaves r
  end.

(** Keys are hashes and no value has the length that makes a leaf look like a node. *)
Definition hleaf_ok (kv : Hash * bytes) : Prop := is_b256 kv.1 /\ length kv.2 ≠ 31%nat.

Lemma hash_node_input l r : hash_node l r = blake3 (pair_input l r).
Proof. done. Qed.
Lemma hash_leaf_input k v : twig_hash_leaf k v = blake3 (twig_leaf_input k v).
Proof. done. Qed.

Lemma leaf_not_pair k v l r : length v ≠ 31%nat -> twig_leaf_input k v ≠ pair_input l r.
Proof.
  intros Hv E. apply (f_equal length) in E. unfold twig_leaf_input, pair_input in E.
  rewrite !length_app, !length_b256_bytes in E. cbn in E. lia.
Qed.

Lemma twig_leaf_input_inj k v k' v' :
  is_b256 k -> is_b256 k' -> twig_leaf_input k v = twig_leaf_input k' v' -> k = k' /\ v = v'.
Proof.
  intros Hk Hk' E. apply app_inj_len in E as [_ E]; [|done].
  apply app_inj_len in E as [E1 E2]; [|by rewrite !length_b256_bytes].
  split; [by apply b256_bytes_inj|done].
Qed.

(** What is hashed to fold a path. *)
Fixpoint fold_inputs (x : Hash) (idx : nat) (path : list Hash) : list bytes :=
  match path with
  | [] => []
  | sib :: rest =>
      if Nat.even idx
      then pair_input x sib :: fold_inputs (hash_node x sib) (Nat.div2 idx) rest
      else pair_input sib x :: fold_inputs (hash_node sib x) (Nat.div2 idx) rest
  end.

Hypothesis blake3_b256 : forall x, is_b256 (blake3 x).

Lemma hhash_b256 t : is_b256 (hhash t).
Proof. destruct t; [done|apply blake3_b256..]. Qed.

(** If a path leads from [x] to the hash of [t], then [x] is the hash of a subtree. *)
Lemma fold_path_sound xs path x idx t :
  no_collision xs -> hinputs t ⊆ xs -> fold_inputs x idx path ⊆ xs ->
  is_b256 x -> Forall is_b256 path -> Forall hleaf_ok (hleaves t) ->
  fold_path x idx path = hhash t ->
  exists t', hhash t' = x /\ hinputs t' ⊆ xs /\ hleaves t' ⊆ hleaves t.
Proof.
  intros Hc Ht. revert x idx. induction path as [|sib path IH]; intros x idx Hin Hx Hp Hok E.
  { exists t. by split_and!. }
  apply Forall_cons in Hp as [Hs Hp]. cbn [fold_inputs fold_path] in Hin, E.
  assert (exists l r, fold_path (hash_node l r) (Nat.div2 idx) path = hhash t /\
    pair_input l r ∈ xs /\ fold_inputs (hash_node l r) (Nat.div2 idx) path ⊆ xs /\
    is_b256 l /\ is_b256 r /\ (x = l \/ x = r)) as (l & r & E' & Hlr & Hin' & Hl & Hr & Hor).
  { destruct (Nat.even idx); apply list_subseteq_cons_iff in Hin as [H1 H2].
    - exists x, sib. split_and!; auto.
    - exists sib, x. split_and!; auto. }
  destruct (IH _ _ Hin' (blake3_b256 _) Hp Hok E') as (t' & Eh & Hi & Hsub).
  destruct t' as [|k v|tl tr]; cbn [hhash] in Eh.
  - exfalso. apply (proj2 Hc _ Hlr). rewrite <- hash_node_input, <- Eh. done.
  - exfalso. apply (leaf_not_pair k v l r).
    + assert (Hk : (k, v) ∈ hleaves t) by (apply Hsub; left).
      by destruct (proj1 (Forall_forall _ _) Hok _ Hk).
    + apply (proj1 Hc); [apply Hi; left|done|by rewrite <- hash_leaf_input].
  - assert (Ep : pair_input (hhash tl) (hhash tr) = pair_input l r).
    { apply (proj1 Hc); [apply Hi; left|done|done]. }
    apply pair_input_inj in Ep as [El Er]; [|done || apply hhash_b256..].
    cbn [hinputs hleaves] in Hi, Hsub. apply list_subseteq_cons_iff in Hi as [_ Hi].
    apply list_subseteq_app_iff_l in Hi as [Hil Hir].
    apply list_subseteq_app_iff_l in Hsub as [Hsl Hsr].
    destruct Hor as [->| ->]; [by exists tl|by exists tr].
Qed.

Lemma leaf_sound xs path k v idx t :
  no_collision xs -> hinputs t ⊆ xs -> twig_leaf_input k v ∈ xs ->
  fold_inputs (twig_hash_leaf k v) idx path ⊆ xs -> hleaf_ok (k, v) -> Forall is_b256 path ->
  Forall hleaf_ok (hleaves t) -> fold_path (twig_hash_leaf k v) idx path = hhash t ->
  (k, v) ∈ hleaves t.
Proof.
  intros Hc Ht Hkv Hin [Hk Hv] Hp Hok E.
  destruct (fold_path_sound xs path _ idx t Hc Ht Hin (blake3_b256 _) Hp Hok E) as (t' & Eh & Hi & Hsub).
  destruct t' as [|k' v'|l r]; cbn [hhash] in Eh.
  - exfalso. apply (proj2 Hc _ Hkv). rewrite <- hash_leaf_input, <- Eh. done.
  - assert (Ein : twig_leaf_input k' v' = twig_leaf_input k v) by (apply (proj1 Hc); [apply Hi; left|done|done]).
    assert (Hin' : (k', v') ∈ hleaves t) by (apply Hsub; left).
    pose proof (proj1 (Forall_forall _ _) Hok _ Hin') as [Hk' _].
    apply twig_leaf_input_inj in Ein as [-> ->]; done.
  - exfalso. apply (leaf_not_pair k v (hhash l) (hhash r) Hv).
    symmetry. apply (proj1 Hc); [apply Hi; left|done|done].
Qed.

(** *** The tree of a log *)

Fixpoint htree (leaf : nat -> HTree) (h i : nat) : HTree :=
  match h with
  | O => leaf i
  | S h => HNode (htree leaf h (2 * i)) (htree leaf h (2 * i + 1))
  end.

Lemma htree_hash leaf h i : hhash (htree leaf h i) = subtree (fun j => hhash (leaf j)) h i.
Proof. revert i. induction h as [|h IH]; intros i; cbn; [done|]. by rewrite !IH. Qed.

Lemma htree_leaves leaf h i kv :
  kv ∈ hleaves (htree leaf h i) -> exists j, kv ∈ hleaves (leaf j).
Proof.
  revert i. induction h as [|h IH]; intros i; cbn; [eauto|]. rewrite elem_of_app. intros [H|H]; eauto.
Qed.

Definition entry_tree (e : option (Hash * option bytes)) : HTree :=
  match e with Some (k, Some v) => HLeaf k v | _ => HNull end.
Definition twig_tree (log : Log) (i : nat) : HTree :=
  htree (fun l => entry_tree (log !! (i * TWIG_SIZE + l)%nat)) TWIG_HEIGHT 0.
Definition log_tree (log : Log) : HTree :=
  match log with
  | [] => HNull
  | _ => htree (fun i => if (i <? twig_count (length log))%nat then twig_tree log i else HNull)
           (Nat.log2_up (twig_count (length log))) 0
  end.

Lemma twig_tree_hash log i : hhash (twig_tree log i) = twig_log_root log i.
Proof.
  unfold twig_tree, twig_log_root. rewrite htree_hash. apply subtree_ext. intros l. unfold log_leaf.
  by destruct (log !! _) as [[k [v|]]|].
Qed.

Lemma log_tree_hash log : hhash (log_tree log) = log_root log.
Proof.
  unfold log_tree, log_root. destruct log as [|e log]; [done|]. rewrite htree_hash. apply subtree_ext.
  intros i. unfold upper_leaf. destruct (_ <? _)%nat; [apply twig_tree_hash|done].
Qed.

Lemma log_tree_leaves log kv : kv ∈ hleaves (log_tree log) -> kv ∈ live log.
Proof.
  intros Hkv. assert (exists i, kv ∈ hleaves (twig_tree log i)) as [i Hi].
  { unfold log_tree in Hkv. destruct log as [|e log]; [by apply not_elem_of_nil in Hkv|].
    apply htree_leaves in Hkv as [j Hj]. destruct (_ <? _)%nat; [eauto|by apply not_elem_of_nil in Hj]. }
  apply htree_leaves in Hi as [l Hl]. destruct (log !! _) as [[k [v|]]|] eqn:E; cbn in Hl;
    [|by apply not_elem_of_nil in Hl..].
  apply list_elem_of_singleton in Hl as ->. apply elem_of_live. by eapply list_elem_of_lookup_2.
Qed.

(** Everything hashed for a log, and for the verification of a proof. *)
Definition log_inputs (log : Log) : list bytes := hinputs (log_tree log).
Definition twig_proof_inputs (p : TwigProof) : list bytes :=
  twig_leaf_input (tp_key p) (tp_value p) ::
  fold_inputs (twig_hash_leaf (tp_key p) (tp_value p)) (N.to_nat (tp_slot p))
    (tp_twig_path p ++ tp_upper_path p).

(** The types of the fields of a proof. *)
Record twig_proof_typed (p : TwigProof) : Prop := {
  tpt_path : length (tp_twig_path p) = TWIG_HEIGHT;
  tpt_hashes : Forall is_b256 (tp_twig_path p ++ tp_upper_path p);
  tpt_key : is_b256 (tp_key p)
}.

Lemma twig_verify_sound xs p log :
  no_collision xs -> log_inputs log ⊆ xs -> twig_proof_inputs p ⊆ xs -> twig_proof_typed p ->
  length (tp_value p) ≠ 31%nat -> Forall hleaf_ok (live log) -> log_ok log ->
  twig_verify p (log_root log) = true -> log_map log !! tp_key p = Some (tp_value p).
Proof.
  intros Hc Hl Hp [Hlen Hh Hk] Hv Hok Hlog E. rewrite verify_one_path in E by done.
  apply N.eqb_eq in E. rewrite <- log_tree_hash in E. apply list_subseteq_cons_iff in Hp as [Hp1 Hp2].
  apply elem_of_list_to_map; [done|]. apply log_tree_leaves.
  eapply (leaf_sound xs); try done.
  apply Forall_forall. intros kv Hkv. apply (proj1 (Forall_forall _ _) Hok). by apply log_tree_leaves.
Qed.
End sound.

(** ** Values of 31 bytes *)

Section forged.
Context {digest : Digest}.

(** The two halves of the input of a leaf with a value of 31 bytes. *)
Definition left_half (k : Hash) : Hash := be_value (LEAF_PREFIX :: take 31 (b256_bytes k)).
Definition right_half (k : Hash) (v : bytes) : Hash := be_value (drop 31 (b256_bytes k) ++ v).

Lemma b256_bytes_be_value bs :
  length bs = 32%nat -> is_bytes bs -> b256_bytes (be_value bs) = bs.
Proof. intros Hl Hb. unfold b256_bytes. rewrite <- Hl. by apply be_bytes_be_value. Qed.

Lemma leaf_is_node k v :
  length v = 31%nat -> is_bytes v -> twig_hash_leaf k v = hash_node (left_half k) (right_half k v).
Proof.
  intros Hl Hv. rewrite hash_leaf_input, hash_node_input. f_equal. unfold pair_input, twig_leaf_input.
  pose proof (is_bytes_be_bytes 32 k) as Hk. pose proof (length_b256_bytes k) as Hlk.
  fold (b256_bytes k) in Hk. unfold left_half, right_half. rewrite !b256_bytes_be_value.
  - cbn [app]. by rewrite app_assoc, take_drop.
  - rewrite length_app, length_drop. lia.
  - apply is_bytes_app. split; [by apply Forall_drop|done].
  - cbn. rewrite length_take. lia.
  - constructor; [done|by apply Forall_take].
Qed.

(** A proof of [(k, v)] below the leaf of another proof. *)
Definition forge (k : Hash) (v : bytes) (p : TwigProof) : TwigProof :=
  let path := left_half (tp_key p) :: tp_twig_path p ++ tp_upper_path p in
  mkTwigProof k v (2 * tp_slot p + 1) (take TWIG_HEIGHT path) (drop TWIG_HEIGHT path).

Lemma forged_leaf p root k v :
  twig_verify p root = true -> length (tp_twig_path p) = TWIG_HEIGHT ->
  length (tp_value p) = 31%nat -> is_bytes (tp_value p) ->
  twig_hash_leaf k v = right_half (tp_key p) (tp_value p) ->
  twig_verify (forge k v p) root = true.
Proof.
  intros Hv Hl Hlen Hb Hkv. rewrite verify_one_path in Hv by done.
  rewrite verify_one_path by (cbn; rewrite length_take; cbn; rewrite length_app; lia).
  unfold forge. cbn [tp_key tp_value tp_slot tp_twig_path tp_upper_path]. rewrite take_drop.
  cbn [fold_path]. replace (N.to_nat (2 * tp_slot p + 1)) with (S (2 * N.to_nat (tp_slot p))) by lia.
  rewrite Nat.even_succ, <- Nat.negb_even, Nat.even_even. cbn [negb].
  assert (Nat.div2 (S (2 * N.to_nat (tp_slot p))) = N.to_nat (tp_slot p)) as -> by apply Nat.div2_succ_double.
  by rewrite Hkv, <- leaf_is_node.
Qed.
End forged.
