(* ===== verification/ShardedTwigTheory.v ===== *)
(** * What the sharded twig tree promises

    Sixteen twig trees hold sixteen logs, and together one map.  Every operation
    is the operation on the log of the shard of its key; the combined root is a
    function of the logs, a batch gives the same state and root whatever the order
    of its operations and of the shards, snapshots restore the logs, and proofs
    are complete and sound. *)

From S2P Require Import Prelude Effects Messages BmtCore BmtTree BmtArena BmtTheory BmtProofs ShardTree.
From S2P Require Import ShardedBmt ShardedBmtTheory.
From S2P Require Import FlatIndex FlatIndexTheory Twig TwigHeap TwigLog TwigForest TwigTheory.
From S2P Require Import TwigCalls TwigSnapshot TwigProofs.

(** ** Sorting and shards *)

Lemma Forall_filter {A} (R Q : A -> Prop) `{!forall x, Decision (Q x)} l :
  Forall R l -> Forall R (filter Q l).
Proof. rewrite !Forall_forall. intros HR x [_ Hx]%list_elem_of_filter. auto. Qed.

Lemma filter_insert_sorted {A} (key : A -> N) (Q : A -> Prop) `{!forall x, Decision (Q x)} x l :
  StronglySorted (fun a b => key a <= key b) l ->
  filter Q (insert_sorted key x l)
  = if decide (Q x) then insert_sorted key x (filter Q l) else filter Q l.
Proof.
  induction 1 as [|y l Hs IH Hall]; cbn [insert_sorted].
  { case_decide; [by rewrite filter_cons_True|by rewrite filter_cons_False]. }
  destruct (key x <=? key y) eqn:E; bool_simpl.
  - case_decide as Hx; [rewrite filter_cons_True by done|by rewrite filter_cons_False].
    assert (Hle : Forall (fun z => key x <= key z) (filter Q (y :: l))).
    { apply Forall_filter. constructor; [done|]. eapply Forall_impl; [exact Hall|]. cbn. intros; lia. }
    destruct (filter Q (y :: l)) as [|z l']; [done|]. apply Forall_cons in Hle as [Hz _].
    cbn [insert_sorted]. by rewrite (proj2 (N.leb_le _ _)).
  - destruct (decide (Q y)) as [Hy|Hy].
    + rewrite !(filter_cons_True _ y) by done. rewrite IH. case_decide; [|done].
      cbn [insert_sorted]. by rewrite (proj2 (N.leb_gt _ _)).
    + by rewrite !(filter_cons_False _ y) by done.
Qed.

Lemma filter_sort {A} (key : A -> N) (Q : A -> Prop) `{!forall x, Decision (Q x)} l :
  filter Q (sort_by_key key l) = sort_by_key key (filter Q l).
Proof.
  induction l as [|x l IH]; [done|]. unfold sort_by_key in *. cbn [foldr].
  rewrite filter_insert_sorted by apply (sort_by_key_sorted key). rewrite IH.
  destruct (decide (Q x)); [by rewrite filter_cons_True|by rewrite filter_cons_False].
Qed.

Lemma sort_equal {A} (key : A -> N) k l : Forall (fun x => key x = k) l -> sort_by_key key l = l.
Proof.
  induction 1 as [|x l Hx Hl IH]; [done|]. unfold sort_by_key in *. cbn [foldr]. rewrite IH.
  destruct Hl as [|y l Hy _]; [done|]. cbn [insert_sorted]. by rewrite Hx, Hy, N.leb_refl.
Qed.

(** The sort is stable: the operations on one key stay in order. *)
Lemma filter_key_sort (ops : list batch_op) k :
  filter (fun u => u.1 = k) (sort_by_key fst ops) = filter (fun u => u.1 = k) ops.
Proof.
  rewrite filter_sort. eapply sort_equal. apply Forall_forall.
  intros u [Hu _]%list_elem_of_filter. exact Hu.
Qed.

Lemma map_op_put m op : map_op m op = put m op.
Proof. done. Qed.

(** ** The state as logs *)

Definition logs_get (logs : list Log) (k : Hash) : option bytes :=
  logs !! twig_shard_index k ≫= fun log => log_map log !! k.
Definition logs_set (k : Hash) (v : bytes) (logs : list Log) : list Log :=
  alter (log_set k v) (twig_shard_index k) logs.
Definition logs_batch (ops : list batch_op) (logs : list Log) : list Log :=
  imap (fun i => log_batch (ops_of_shard ops i)) logs.

Section spec.
Context {digest : Digest}.
Definition logs_root (logs : list Log) : Hash :=
  default NULL_HASH (shard_tree_root (log_root <$> logs)).
End spec.

Lemma logs_get_set k v logs k' :
  (twig_shard_index k < length logs)%nat ->
  logs_get (logs_set k v logs) k' = if decide (k = k') then Some v else logs_get logs k'.
Proof.
  intros Hl. unfold logs_get, logs_set. rewrite list_lookup_alter. case_decide as E.
  - rewrite E. destruct (lookup_lt_is_Some_2 logs (twig_shard_index k')) as [log Hlog]; [congruence|].
    rewrite Hlog. cbn. rewrite log_map_set. case_decide as Ek.
    + subst. by rewrite lookup_insert_eq.
    + by rewrite lookup_insert_ne.
  - rewrite decide_False; [done|]. by intros ->.
Qed.

Lemma logs_get_batch ops logs (m : gmap Hash bytes) k :
  length logs = SHARD_COUNT -> logs_get logs k = m !! k ->
  logs_get (logs_batch ops logs) k = foldl put m ops !! k.
Proof.
  intros Hl Hk. unfold logs_get, logs_batch in *. rewrite list_lookup_imap.
  destruct (lookup_lt_is_Some_2 logs (twig_shard_index k)) as [log Hlog].
  { rewrite Hl. apply shard_index_lt. }
  rewrite Hlog in Hk |- *. cbn in Hk |- *. unfold log_batch. rewrite log_map_ops.
  rewrite (puts_filter _ _ m k Hk). unfold ops_of_shard. rewrite filter_key_sort.
  rewrite (puts_filter ops m m k eq_refl). f_equal. rewrite list_filter_filter_l; [done|].
  intros u <-. done.
Qed.

Lemma logs_batch_perm ops ops' logs :
  NoDup ops.*1 -> ops ≡ₚ ops' -> logs_batch ops logs = logs_batch ops' logs.
Proof.
  intros Hn Hp. unfold logs_batch. apply imap_ext. intros i log _. apply log_batch_perm.
  - unfold ops_of_shard. by eapply sublist_NoDup; [exact Hn|apply fst_filter_sublist].
  - unfold ops_of_shard. by rewrite Hp.
Qed.

Section sharded.
Context {digest : Digest} (P : Hash -> Prop) (prefix_inj : distinct_prefixes P).

Definition in_shard (i : nat) (log : Log) : Prop := forall k o, (k, o) ∈ log -> twig_shard_index k = i.

Record twigs_rep (s : ShardedTwig) (logs : list Log) : Prop := {
  st_trees : Forall2 (tree_rep P) (sh_shards s) logs;
  st_len : length logs = SHARD_COUNT;
  st_keys : forall i log, logs !! i = Some log -> in_shard i log
}.

Lemma twigs_new_rep seeds :
  (SHARD_COUNT <= length seeds)%nat ->
  twigs_rep (sharded_twig_new seeds) (replicate SHARD_COUNT []).
Proof.
  intros Hl. split.
  - cbn [sharded_twig_new sh_shards]. apply Forall2_fmap_l. 
    assert (Hn : length (take SHARD_COUNT seeds) = SHARD_COUNT) by (rewrite length_take; lia).
    rewrite <- Hn at 2. clear. induction (take SHARD_COUNT seeds) as [|x l IH]; cbn; constructor; [|done].
    apply twig_tree_new_rep.
  - apply length_replicate.
  - intros i log Hi. apply lookup_replicate in Hi as [-> _]. intros k o H. by apply not_elem_of_nil in H.
Qed.

Lemma twigs_shard s logs i :
  twigs_rep s logs -> (i < SHARD_COUNT)%nat ->
  exists t log, sh_shards s !! i = Some t /\ logs !! i = Some log /\ tree_rep P t log.
Proof.
  intros Hr Hi. destruct (lookup_lt_is_Some_2 logs i) as [log Hlog]; [by rewrite (st_len _ _ Hr)|].
  destruct (Forall2_lookup_r _ _ _ _ _ (st_trees _ _ Hr) Hlog) as (t & Ht & Hrep). eauto.
Qed.

Lemma on_tree_ok {A} i (m : ST TwigTree Empty_set A) s t t' a :
  sh_shards s !! i = Some t -> m t = (t', Ok a) ->
  on_tree i m s = (mkShardedTwig (<[i := t']> (sh_shards s)) (sh_version s), Ok a).
Proof. intros Ht Hm. unfold on_tree. by rewrite Ht, Hm. Qed.

Lemma twigs_update s logs i t' log' :
  twigs_rep s logs -> (i < SHARD_COUNT)%nat -> tree_rep P t' log' -> in_shard i log' ->
  twigs_rep (mkShardedTwig (<[i := t']> (sh_shards s)) (sh_version s)) (<[i := log']> logs).
Proof.
  intros [Ht Hl Hk] Hi Ht' Hin. split.
  - by apply Forall2_insert.
  - by rewrite length_insert.
  - intros j log Hj. apply list_lookup_insert_Some in Hj as [(<- & -> & _)|[_ Hj]]; auto.
Qed.

(** ** Reading and writing *)

Lemma twigs_get_spec s logs k :
  twigs_rep s logs -> sharded_twig_get k s = (s, Ok (logs_get logs k)).
Proof.
  intros Hr. destruct (twigs_shard s logs (twig_shard_index k) Hr) as (t & log & Ht & Hl & Hrep).
  { apply shard_index_lt. }
  unfold sharded_twig_get. rewrite (on_tree_ok _ _ _ _ _ _ Ht (get_spec P t log k Hrep)).
  unfold logs_get. rewrite Hl. cbn. rewrite list_insert_id by done. by destruct s.
Qed.

Lemma in_shard_drop i log k : in_shard i log -> in_shard i (log_drop k log).
Proof.
  intros Hin k' o ([k'' o'] & E & Hx)%list_elem_of_fmap. unfold drop_item in E. cbn in E.
  case_decide; simplify_eq; by eapply Hin.
Qed.

Lemma in_shard_op i log op : in_shard i log -> twig_shard_index op.1 = i -> in_shard i (log_op log op).
Proof.
  intros Hin Hop. destruct op as [k [v|]]; cbn in *; [|by apply in_shard_drop].
  intros k' o [Hx|Hx%list_elem_of_singleton]%elem_of_app; [by eapply in_shard_drop|]. by simplify_eq.
Qed.

Lemma in_shard_ops i log ops :
  in_shard i log -> Forall (fun op => twig_shard_index op.1 = i) ops -> in_shard i (foldl log_op log ops).
Proof.
  intros Hin Hops. revert log Hin. induction Hops as [|op ops Hop Hops IH]; intros log Hin; [done|].
  cbn [foldl]. by apply IH, in_shard_op.
Qed.

Lemma twigs_set_spec s logs k v :
  twigs_rep s logs -> P k -> N.of_nat (length v) <= u32_max ->
  (forall log, logs !! twig_shard_index k = Some log -> N.of_nat (length log) < TOMB) ->
  exists s', sharded_twig_set k v s = (s', Ok tt) /\ twigs_rep s' (logs_set k v logs) /\
    sh_version s' = sh_version s.
Proof.
  intros Hr Hk Hv Hs. pose proof (shard_index_lt k) as Hi.
  destruct (twigs_shard s logs (twig_shard_index k) Hr Hi) as (t & log & Ht & Hl & Hrep).
  destruct (set_spec P prefix_inj t log k v Hrep Hk Hv (Hs log Hl)) as (t' & E & Hrep').
  eexists. split; [by eapply on_tree_ok|]. split; [|done]. unfold logs_set.
  replace (alter (log_set k v) (twig_shard_index k) logs)
    with (<[twig_shard_index k := log_set k v log]> logs).
  - apply twigs_update; [done..|]. apply (in_shard_op _ log (k, Some v)); [|done]. by apply (st_keys _ _ Hr).
  - apply list_eq. intros j. rewrite list_lookup_alter. case_decide as E'.
    + subst j. rewrite Hl. apply list_lookup_insert_eq. by apply lookup_lt_Some in Hl.
    + by rewrite list_lookup_insert_ne.
Qed.

(** ** Every shard in turn *)

Lemma each_tree {A} (m : nat -> ST TwigTree Empty_set A) v done rest (Q : nat -> TwigTree -> A -> Prop) :
  (forall j t, rest !! j = Some t -> exists t' a, m (length done + j)%nat t = (t', Ok a) /\ Q j t' a) ->
  exists rest' rs,
    each_shard (fun i => on_tree i (m i)) (seq (length done) (length rest)) (mkShardedTwig (done ++ rest) v)
      = (mkShardedTwig (done ++ rest') v, Ok rs) /\ length rest' = length rest /\
    length rs = length rest /\ (forall j t a, rest' !! j = Some t -> rs !! j = Some a -> Q j t a).
Proof.
  revert done Q. induction rest as [|t rest IH]; intros done Q Hm.
  { exists [], []. by split_and!. }
  destruct (Hm 0%nat t eq_refl) as (t' & a & E & HQ). rewrite Nat.add_0_r in E.
  destruct (IH (done ++ [t']) (fun j => Q (S j))) as (rest' & rs & E' & Hl & Hr & Hall).
  { intros j x Hx. rewrite length_app. cbn. rewrite <- Nat.add_assoc. by apply Hm. }
  exists (t' :: rest'), (a :: rs). rewrite <- !app_assoc in E'. cbn [app] in E'.
  rewrite length_app, Nat.add_1_r in E'. cbn [length seq each_shard]. split_and!; [|lia|lia|].
  - erewrite bind_ok.
    2:{ eapply on_tree_ok; [|exact E]. cbn. by rewrite list_lookup_middle. }
    cbn [sh_shards sh_version]. rewrite insert_app_r_alt, Nat.sub_diag by done.
    change (<[0%nat := t']> (t :: rest)) with (t' :: rest). by erewrite bind_ok by exact E'.
  - intros [|j] x b Hx Hb; cbn in Hx, Hb; [by simplify_eq|]. by apply Hall.
Qed.

(** The cached upper tree is up to date. *)
Definition settled (t : TwigTree) (log : Log) : Prop := tt_touched t = [] /\ upper_rep t log.

Record twigs_settled (s : ShardedTwig) (logs : list Log) : Prop := {
  se_rep : twigs_rep s logs;
  se_trees : Forall2 settled (sh_shards s) logs
}.

(** Operations on every shard that end in [root]. *)
Lemma each_root (m : nat -> ST TwigTree Empty_set Hash) s logs (g : nat -> Log -> Log) :
  twigs_rep s logs ->
  (forall i log, logs !! i = Some log -> in_shard i log -> in_shard i (g i log)) ->
  (forall i t log, logs !! i = Some log -> tree_rep P t log -> exists t',
     m i t = (t', Ok (log_root (g i log))) /\ tree_rep P t' (g i log) /\ settled t' (g i log)) ->
  exists s', each_shard (fun i => on_tree i (m i)) (all_shards s) s
      = (s', Ok (log_root <$> imap g logs)) /\
    twigs_settled s' (imap g logs) /\ sh_version s' = sh_version s.
Proof.
  intros [Htr Hlen Hkeys] Hg Hm. destruct s as [shards v]. cbn [sh_shards all_shards] in *.
  destruct (each_tree m v [] shards (fun j t' a => forall log, logs !! j = Some log ->
    a = log_root (g j log) /\ tree_rep P t' (g j log) /\ settled t' (g j log)))
    as (rest & rs & E & Hl & Hr & Hall).
  { intros j t Ht. destruct (Forall2_lookup_l _ _ _ _ _ Htr Ht) as (log & Hlog & Hrep).
    destruct (Hm j t log Hlog Hrep) as (t' & E & H1 & H2). exists t', (log_root (g j log)).
    split; [done|]. intros log' Hlog'. rewrite Hlog in Hlog'. by injection Hlog' as <-. }
  pose proof (Forall2_length _ _ _ Htr) as Hsl.
  assert (Hpt : forall j t, rest !! j = Some t -> exists log a, logs !! j = Some log /\
    rs !! j = Some a /\ a = log_root (g j log) /\ tree_rep P t (g j log) /\ settled t (g j log)).
  { intros j t Ht. apply lookup_lt_Some in Ht as Hj.
    destruct (lookup_lt_is_Some_2 logs j) as [log Hlog]; [lia|].
    destruct (lookup_lt_is_Some_2 rs j) as [a Ha]; [lia|].
    destruct (Hall j t a Ht Ha log Hlog) as (H1 & H2 & H3). exists log, a. by split_and!. }
  exists (mkShardedTwig rest v). cbn [app length] in E. unfold all_shards. cbn [sh_shards]. split; [|split; [|done]].
  - rewrite E. do 2 f_equal. apply list_eq. intros j. rewrite list_lookup_fmap, list_lookup_imap.
    destruct (rest !! j) as [t|] eqn:Ej.
    + destruct (Hpt j t Ej) as (log & a & -> & -> & -> & _). done.
    + apply lookup_ge_None in Ej. by rewrite !lookup_ge_None_2 by lia.
  - split; [split|]; cbn [sh_shards].
    + apply Forall2_same_length_lookup. split; [rewrite length_imap; lia|].
      intros j t log Ht Hlog. rewrite list_lookup_imap in Hlog.
      destruct (Hpt j t Ht) as (log0 & a & H0 & _ & _ & H1 & _). rewrite H0 in Hlog. by injection Hlog as <-.
    + by rewrite length_imap.
    + intros j log Hlog. rewrite list_lookup_imap in Hlog.
      destruct (logs !! j) as [log0|] eqn:E0; [|done]. injection Hlog as <-. by apply Hg, Hkeys.
    + apply Forall2_same_length_lookup. split; [rewrite length_imap; lia|].
      intros j t log Ht Hlog. rewrite list_lookup_imap in Hlog.
      destruct (Hpt j t Ht) as (log0 & a & H0 & _ & _ & _ & H1). rewrite H0 in Hlog. by injection Hlog as <-.
Qed.

Lemma roots_root logs s :
  length logs = SHARD_COUNT -> combined_root (log_root <$> logs) s = (s, Ok (logs_root logs)).
Proof.
  intros Hl. unfold combined_root, logs_root. rewrite length_fmap, Hl. cbn [negb Nat.eqb SHARD_COUNT].
  destruct (lookup_lt_is_Some_2 (log_root <$> logs) 0) as [h Hh]; [rewrite length_fmap, Hl; unfold SHARD_COUNT; lia|].
  destruct (shard_path_complete 4 (length (log_root <$> logs)) (log_root <$> logs) 0 h)
    as (root & _ & E & _); [by rewrite length_fmap, Hl|rewrite length_fmap, Hl; unfold SHARD_COUNT; lia|done|].
  unfold shard_tree_root. by rewrite E.
Qed.

Lemma imap_self {A} (l : list A) : imap (fun _ x => x) l = l.
Proof. apply list_eq. intros j. rewrite list_lookup_imap. by destruct (l !! j). Qed.

Lemma twigs_root_spec s logs :
  twigs_rep s logs ->
  exists s', sharded_twig_root s = (s', Ok (logs_root logs)) /\ twigs_settled s' logs /\
    sh_version s' = sh_version s.
Proof.
  intros Hr. destruct (each_root (fun _ => twig_tree_root) s logs (fun _ log => log) Hr) as (s' & E & Hs & Hv).
  - done.
  - intros i t log _ Ht. destruct (root_spec P t log Ht) as (t' & E & Ht' & Hto & Hu).
    exists t'. by split_and!.
  - rewrite imap_self in E, Hs. exists s'. split; [|done]. unfold sharded_twig_root. rewrite bind_state.
    erewrite bind_ok by exact E. by rewrite roots_root by apply Hs.
Qed.

Lemma on_tree_bind {A B} i (a : ST TwigTree Empty_set A) (k : A -> ST TwigTree Empty_set B) s :
  on_tree i (a ≫= k) s = (on_tree i a ≫= fun x => on_tree i (k x)) s.
Proof.
  unfold on_tree, mbind, st_bind. destruct (sh_shards s !! i) as [t|] eqn:Ht; [|done].
  destruct (a t) as [t' [x|e| |]]; cbn [sh_shards sh_version]; [|done..].
  rewrite list_lookup_insert_eq by by apply lookup_lt_Some in Ht.
  destruct (k x t'). by rewrite list_insert_insert_eq.
Qed.

Lemma on_tree_ret {A B} i (a : A) (k : A -> ST TwigTree Empty_set B) s :
  (on_tree i (mret a) ≫= fun x => on_tree i (k x)) s = on_tree i (k a) s.
Proof. by rewrite <- on_tree_bind. Qed.

Lemma each_shard_ext {A} (f g : nat -> ST ShardedTwig Empty_set A) ids s :
  (forall i s, f i s = g i s) -> each_shard f ids s = each_shard g ids s.
Proof.
  intros H. revert s. induction ids as [|i ids IH]; intros s; [done|]. cbn [each_shard].
  unfold mbind, st_bind. rewrite H. destruct (g i s) as [s' [a|e| |]]; [|done..]. by rewrite IH.
Qed.

Lemma twigs_batch_spec s logs ops :
  twigs_rep s logs -> Forall (op_ok P) ops ->
  (forall log, log ∈ logs_batch ops logs -> N.of_nat (length log) <= TOMB) ->
  exists s', sharded_twig_apply_batch ops s =
      (s', Ok (sh_version s +w 1, logs_root (logs_batch ops logs))) /\
    twigs_settled s' (logs_batch ops logs) /\ sh_version s' = sh_version s +w 1.
Proof.
  intros Hr Hok Hl.
  set (m := fun i => (match ops_of_shard ops i with [] => mret tt | l => apply_batch_indexed l end ;;
    twig_tree_root) : ST TwigTree Empty_set Hash).
  destruct (each_root m s logs (fun i => log_batch (ops_of_shard ops i)) Hr) as (s' & E & Hs & Hv).
  - intros i log _ Hin. apply in_shard_ops; [done|]. rewrite (sort_by_key_permutation fst).
    apply Forall_forall. by intros op [Hop _]%list_elem_of_filter.
  - intros i t log Hlog Ht.
    assert (exists t1, (match ops_of_shard ops i with [] => mret tt | l => apply_batch_indexed l end) t = (t1, Ok tt) /\
      tree_rep P t1 (log_batch (ops_of_shard ops i) log)) as (t1 & E1 & Ht1).
    { destruct (apply_batch_spec P prefix_inj (ops_of_shard ops i) t log Ht) as (t1 & E1 & Ht1).
      - by apply Forall_filter.
      - apply Hl. apply list_elem_of_lookup. exists i. unfold logs_batch. by rewrite list_lookup_imap, Hlog.
      - destruct (ops_of_shard ops i); [|eauto]. by exists t. }
    destruct (root_spec P t1 _ Ht1) as (t' & E & Ht' & Hto & Hu). exists t'. split; [|by split].
    unfold m. by erewrite bind_ok by exact E1.
  - fold (logs_batch ops logs) in E, Hs. 
    exists (mkShardedTwig (sh_shards s') (sh_version s' +w 1)). rewrite <- Hv.
    split; [|split; [|done]].
    + unfold sharded_twig_apply_batch. rewrite bind_state.
      erewrite bind_ok; [|etrans; [|exact E]].
      * erewrite bind_ok by done. erewrite bind_ok by (apply roots_root; apply Hs). done.
      * apply each_shard_ext. intros i s0. unfold m. rewrite on_tree_bind.
        by destruct (ops_of_shard ops i); [rewrite on_tree_ret|].
    + destruct Hs as [[H1 H2 H3] H4]. by split; [split|].
Qed.

(** ** Reserving *)

Lemma reserve_shards_spec per shards logs :
  Forall2 (tree_rep P) shards logs ->
  exists shards', reserve_shards per shards = Ok shards' /\ Forall2 (tree_rep P) shards' logs.
Proof.
  induction 1 as [|t log shards logs Ht _ (shards' & E & Hall)]; [by exists []|]. cbn [reserve_shards].
  destruct (re_index _ _ _ Ht) as (m & Hm & Hi).
  destruct (flat_reserve_spec _ _ per Hm) as (f & -> & Hf).
  cbn [mbind result_bind outcome_bind]. rewrite E. eexists. split; [done|]. constructor; [|done].
  destruct Ht as [[H1 H2 H3] H4 _ H5 H6]. split; [by split|done|by exists m|done..].
Qed.

Lemma twigs_reserve_spec s logs n :
  twigs_rep s logs ->
  exists s', sharded_twig_reserve n s = (s', Ok tt) /\ twigs_rep s' logs /\ sh_version s' = sh_version s.
Proof.
  intros [Ht Hl Hk]. unfold sharded_twig_reserve. rewrite bind_state.
  destruct (reserve_shards_spec ((n + (SHARD_COUNT - 1)) / SHARD_COUNT) _ _ Ht) as (shards & E & Ht').
  erewrite bind_ok by (unfold try_; by rewrite E). eexists. split; [done|]. split; [by split|done].
Qed.

(** ** Snapshots *)

Definition snap_of (log : Log) : ShardSnapshot :=
  mkShardSnapshot (N.of_nat (length log)) (snap_item <$> log).

Lemma snapshot_spec s logs :
  twigs_rep s logs -> sharded_twig_snapshot s = Ok (mkTwigSnapshot (sh_version s) (snap_of <$> logs)).
Proof.
  intros [Ht _ _]. unfold sharded_twig_snapshot.
  assert (shard_snapshots (sh_shards s) = Ok (snap_of <$> logs)) as ->; [|done].
  induction Ht as [|t log shards logs Ht _ IH]; [done|]. cbn [shard_snapshots].
  rewrite (shard_snapshot_spec P t log Ht). cbn [mbind result_bind outcome_bind]. by rewrite IH.
Qed.

Lemma check_entry_shards_ok i slot l :
  (forall e, e ∈ l -> twig_shard_index (es_key e) = i) -> check_entry_shards i slot l = Ok tt.
Proof.
  revert slot. induction l as [|e l IH]; intros slot Hl; [done|]. cbn [check_entry_shards]. cbn zeta.
  rewrite (Hl e) by left. rewrite Nat.eqb_refl. apply IH. intros x Hx. apply Hl. by right.
Qed.

Lemma check_snapshot_shards_ok i (logs : list Log) :
  (forall j log, logs !! j = Some log -> in_shard (i + j) log) ->
  check_snapshot_shards i (snap_of <$> logs) = Ok tt.
Proof.
  revert i. induction logs as [|log logs IH]; intros i Hl; [done|]. rewrite fmap_cons.
  cbn [check_snapshot_shards snap_of ss_entries]. rewrite check_entry_shards_ok.
  - cbn [mbind result_bind outcome_bind]. apply IH. intros j l Hj. rewrite Nat.add_succ_l, <- Nat.add_succ_r.
    by apply Hl.
  - intros e ([k o] & -> & Hin)%list_elem_of_fmap. cbn. specialize (Hl 0%nat log eq_refl).
    rewrite Nat.add_0_r in Hl. by eapply Hl.
Qed.

Lemma restore_shards_spec i seeds shards logs :
  Forall2 (tree_rep P) shards logs -> Forall (fun log => N.of_nat (length log) <= TOMB) logs ->
  exists shards', restore_shards i seeds (snap_of <$> logs) = Ok shards' /\
    Forall2 (tree_rep P) shards' logs.
Proof.
  intros Ht. revert i seeds. induction Ht as [|t log shards logs Ht _ IH]; intros i seeds Hl; [by exists []|].
  apply Forall_cons in Hl as [Hl Hls]. rewrite fmap_cons. cbn [restore_shards].
  destruct (snapshot_restore P t log (hd 0 seeds) prefix_inj Ht Hl) as (snap & t' & E1 & _ & E2 & Ht').
  rewrite (shard_snapshot_spec P t log Ht) in E1. injection E1 as <-. fold (snap_of log) in E2. rewrite E2.
  destruct (IH (S i) (tl seeds) Hls) as (shards' & -> & Hall). cbn [mbind result_bind outcome_bind].
  eexists. split; [done|]. by constructor.
Qed.

Lemma check_shards_ok i shards logs : Forall2 (tree_rep P) shards logs -> check_shards i shards = Ok tt.
Proof.
  intros Ht. revert i. induction Ht as [|t log shards logs Ht _ IH]; intros i; [done|]. cbn [check_shards].
  by rewrite (tree_consistent P t log prefix_inj Ht).
Qed.

Lemma restore_snapshot_spec s logs seeds :
  twigs_rep s logs -> Forall (fun log => N.of_nat (length log) <= TOMB) logs ->
  exists snap s', sharded_twig_snapshot s = Ok snap /\ sharded_try_from_snapshot seeds snap = Ok s' /\
    twigs_settled s' logs /\ sh_version s' = sh_version s.
Proof.
  intros Hr Hl. eexists. rewrite (snapshot_spec s logs Hr). destruct Hr as [Ht Hlen Hk].
  destruct (restore_shards_spec 0 seeds _ _ Ht Hl) as (shards & E & Ht').
  destruct (twigs_root_spec (mkShardedTwig shards (sh_version s)) logs) as (s' & E' & Hs & Hv).
  { by split. }
  exists s'. split; [done|]. split; [|by split]. unfold sharded_try_from_snapshot.
  cbn [ts_shards ts_version]. rewrite length_fmap, Hlen. cbn [Nat.eqb SHARD_COUNT negb].
  rewrite check_snapshot_shards_ok by (intros j log Hj; by apply Hk). cbn [mbind result_bind outcome_bind].
  rewrite E. cbn [mbind result_bind outcome_bind]. rewrite E'. cbn [no_error mbind result_bind outcome_bind].
  unfold sharded_check_consistency. by rewrite (check_shards_ok 0 _ logs) by apply Hs.
Qed.

(** ** Sequences of calls *)

Inductive StateCall : Type :=
| SSet (k : Hash) (v : bytes)
| SGet (k : Hash)
| SBatch (ops : list batch_op)
| SRoot
| SReserve (n : nat)
| SRestart (seeds : list N).

Inductive StateReply : Type :=
| QDone
| QValue (v : option bytes)
| QCommit (version : N) (root : Hash)
| QRoot (root : Hash)
| QRefused (e : TwigError).

(** Writing a snapshot and starting again from it. *)
Definition restart (seeds : list N) : ST ShardedTwig Empty_set StateReply := fun s =>
  match sharded_twig_snapshot s with
  | Ok snap =>
      match sharded_try_from_snapshot seeds snap with
      | Ok s' => (s', Ok QDone)
      | Err e => (s, Ok (QRefused e))
      | Panic => (s, Panic)
      | OutOfFuel => (s, OutOfFuel)
      end
  | _ => (s, Panic)
  end.

Definition state_call (c : StateCall) : ST ShardedTwig Empty_set StateReply :=
  match c with
  | SSet k v => sharded_twig_set k v ;; mret QDone
  | SGet k => v ← sharded_twig_get k; mret (QValue v)
  | SBatch ops => '(version, root) ← sharded_twig_apply_batch ops; mret (QCommit version root)
  | SRoot => h ← sharded_twig_root; mret (QRoot h)
  | SReserve n => sharded_twig_reserve n ;; mret QDone
  | SRestart seeds => restart seeds
  end.

(** The same call on the logs and the version. *)
Definition logs_next (logs : list Log) (c : StateCall) : list Log :=
  match c with
  | SSet k v => logs_set k v logs
  | SBatch ops => logs_batch ops logs
  | _ => logs
  end.
Definition version_next (version : N) (c : StateCall) : N :=
  match c with SBatch _ => version +w 1 | _ => version end.
Definition logs_reply (logs : list Log) (version : N) (c : StateCall) : StateReply :=
  match c with
  | SGet k => QValue (logs_get logs k)
  | SBatch ops => QCommit (version +w 1) (logs_root (logs_batch ops logs))
  | SRoot => QRoot (logs_root logs)
  | SSet _ _ | SReserve _ | SRestart _ => QDone
  end.

(** What the call does to the map. *)
Definition puts_of (c : StateCall) : list batch_op :=
  match c with
  | SSet k v => [(k, Some v)]
  | SBatch ops => ops
  | _ => []
  end.

Definition state_call_ok (c : StateCall) : Prop :=
  match c with
  | SSet k v => op_ok P (k, Some v)
  | SBatch ops => Forall (op_ok P) ops
  | _ => True
  end.

Definition logs_fit (logs : list Log) : Prop := Forall (fun log => N.of_nat (length log) <= TOMB) logs.

Lemma logs_set_lookup k v logs log :
  logs !! twig_shard_index k = Some log -> log_set k v log ∈ logs_set k v logs.
Proof.
  intros Hl. apply list_elem_of_lookup. exists (twig_shard_index k). unfold logs_set.
  rewrite list_lookup_alter, decide_True by done. by rewrite Hl.
Qed.

Lemma state_call_spec c s logs :
  twigs_rep s logs -> state_call_ok c -> logs_fit (logs_next logs c) ->
  exists s', state_call c s = (s', Ok (logs_reply logs (sh_version s) c)) /\
    twigs_rep s' (logs_next logs c) /\ sh_version s' = version_next (sh_version s) c.
Proof.
  intros Hr Hc Hf.
  destruct c as [k v|k|ops| |n|seeds]; cbn [logs_next logs_reply version_next state_call state_call_ok] in *.
  - destruct (Hc v eq_refl) as [Hk Hv]. destruct (twigs_set_spec s logs k v Hr Hk Hv) as (s' & E & Hr' & Hver).
    { intros log Hl. pose proof (proj1 (Forall_forall _ _) Hf _ (logs_set_lookup k v _ _ Hl)) as H.
      cbn beta in H. rewrite log_set_length in H. lia. }
    exists s'. split; [|done]. by erewrite bind_ok by exact E.
  - exists s. split; [|done]. by erewrite bind_ok by exact (twigs_get_spec s logs k Hr).
  - destruct (twigs_batch_spec s logs ops Hr Hc) as (s' & E & Hs & Hv).
    { intros log Hl. by apply (proj1 (Forall_forall _ _) Hf). }
    exists s'. split; [|split; [apply Hs|done]]. by erewrite bind_ok by exact E.
  - destruct (twigs_root_spec s logs Hr) as (s' & E & Hs & Hv).
    exists s'. split; [|split; [apply Hs|done]]. by erewrite bind_ok by exact E.
  - destruct (twigs_reserve_spec s logs n Hr) as (s' & E & Hs & Hv).
    exists s'. split; [|done]. by erewrite bind_ok by exact E.
  - destruct (restore_snapshot_spec s logs seeds Hr Hf) as (snap & s' & E1 & E2 & Hs & Hv).
    exists s'. unfold restart. rewrite E1, E2. split; [done|]. split; [apply Hs|done].
Qed.

Fixpoint state_calls (cs : list StateCall) : ST ShardedTwig Empty_set (list StateReply) :=
  match cs with
  | [] => mret []
  | c :: cs => r ← state_call c; rs ← state_calls cs; mret (r :: rs)
  end.
Fixpoint logs_replies (cs : list StateCall) (logs : list Log) (version : N) : list StateReply :=
  match cs with
  | [] => []
  | c :: cs =>
      logs_reply logs version c :: logs_replies cs (logs_next logs c) (version_next version c)
  end.

(** Logs only grow. *)
Lemma logs_next_fit logs c : logs_fit (logs_next logs c) -> logs_fit logs.
Proof.
  unfold logs_fit. rewrite !Forall_lookup. intros Hf i log Hi.
  assert (exists log', logs_next logs c !! i = Some log' /\ (length log <= length log')%nat)
    as (log' & Hi' & Hle); [|specialize (Hf i log' Hi'); cbn in Hf; lia].
  destruct c as [k w|k|ops| |n|seeds]; cbn [logs_next]; eauto.
  - unfold logs_set. rewrite list_lookup_alter. case_decide as E; [|eauto]. rewrite E, Hi.
    eexists. split; [done|]. rewrite log_set_length. lia.
  - unfold logs_batch. rewrite list_lookup_imap, Hi. eexists. split; [done|]. apply log_ops_length.
Qed.

Lemma logs_nexts_fit cs logs : logs_fit (foldl logs_next logs cs) -> logs_fit logs.
Proof.
  revert logs. induction cs as [|c cs IH]; intros logs Hf; cbn [foldl] in Hf; [done|].
  by eapply logs_next_fit, IH.
Qed.

Lemma state_calls_spec cs s logs :
  twigs_rep s logs -> Forall state_call_ok cs -> logs_fit (foldl logs_next logs cs) ->
  exists s', state_calls cs s = (s', Ok (logs_replies cs logs (sh_version s))) /\
    twigs_rep s' (foldl logs_next logs cs).
Proof.
  revert s logs. induction cs as [|c cs IH]; intros s logs Hr Hok Hf; [by exists s|].
  apply Forall_cons in Hok as [Hc Hok]. cbn [state_calls logs_replies foldl] in *.
  destruct (state_call_spec c s logs Hr Hc) as (s1 & E1 & Hr1 & Hv1); [by eapply logs_nexts_fit|].
  destruct (IH s1 _ Hr1 Hok Hf) as (s2 & E2 & Hr2). rewrite Hv1 in E2.
  exists s2. split; [|done]. erewrite bind_ok by exact E1. by erewrite bind_ok by exact E2.
Qed.

Lemma logs_next_map logs c (m : gmap Hash bytes) :
  length logs = SHARD_COUNT -> (forall k, logs_get logs k = m !! k) ->
  length (logs_next logs c) = SHARD_COUNT /\
  forall k, logs_get (logs_next logs c) k = foldl put m (puts_of c) !! k.
Proof.
  intros Hl Hm. destruct c as [k w|k|ops| |n|seeds]; cbn [logs_next puts_of foldl]; try done.
  - split; [unfold logs_set; by rewrite length_alter|]. intros k'.
    rewrite logs_get_set by (rewrite Hl; apply shard_index_lt). rewrite Hm, put_lookup. done.
  - split; [unfold logs_batch; by rewrite length_imap|]. intros k. by apply logs_get_batch.
Qed.

Lemma logs_nexts_map cs logs (m : gmap Hash bytes) :
  length logs = SHARD_COUNT -> (forall k, logs_get logs k = m !! k) ->
  forall k, logs_get (foldl logs_next logs cs) k = foldl put m (cs ≫= puts_of) !! k.
Proof.
  revert logs m. induction cs as [|c cs IH]; intros logs m Hl Hm k; cbn [foldl]; [apply Hm|].
  destruct (logs_next_map logs c m Hl Hm) as [Hl1 Hm1]. rewrite bind_cons, foldl_app. by apply IH.
Qed.

(** ** Proofs *)

Lemma cached_root_spec t log :
  tree_rep P t log -> settled t log -> cached_root t = Ok (log_root log).
Proof.
  intros Ht [_ Hu]. unfold cached_root. destruct log as [|e log]; cbn in Hu.
  { by rewrite Hu. }
  destruct Hu as [Hcap Hh]. rewrite Hcap. unfold next_power_of_two.
  rewrite (proj2 (Nat.eqb_neq _ _)) by (by apply Nat.pow_nonzero).
  apply at_index_some. by rewrite (heap_root _ _ _ Hh).
Qed.

Lemma cached_roots_spec shards logs :
  Forall2 (tree_rep P) shards logs -> Forall2 settled shards logs ->
  cached_roots shards = Ok (log_root <$> logs).
Proof.
  induction 1 as [|t log shards logs Ht _ IH]; intros Hs; [done|].
  apply Forall2_cons in Hs as [Hs Hss]. cbn [cached_roots].
  rewrite (cached_root_spec t log Ht Hs). cbn [mbind result_bind outcome_bind]. by rewrite (IH Hss).
Qed.

Lemma shard_path_spec logs i log :
  length logs = SHARD_COUNT -> logs !! i = Some log ->
  exists path, shard_tree_path (log_root <$> logs) i = Some path /\ length path = SHARD_BITS /\
    shard_tree_root_from_path (log_root log) i path = logs_root logs.
Proof.
  intros Hl Hi.
  destruct (shard_path_complete 4 (length (log_root <$> logs)) (log_root <$> logs) i (log_root log))
    as (root & path & E & E' & Hp & Hr).
  - by rewrite length_fmap, Hl.
  - rewrite length_fmap, Hl. unfold SHARD_COUNT. lia.
  - by rewrite list_lookup_fmap, Hi.
  - exists path. unfold logs_root, shard_tree_root. rewrite E. done.
Qed.

Lemma twigs_prove_spec s logs k :
  twigs_settled s logs ->
  match logs_get logs k with
  | None => sharded_twig_prove k s = (s, Ok None)
  | Some v => exists p, sharded_twig_prove k s = (s, Ok (Some p)) /\ tp_value (stp_inner p) = v /\
      sharded_twig_verify_for_key p (logs_root logs) k = Ok tt
  end.
Proof.
  intros [Hr Hs]. pose proof (shard_index_lt k) as Hi.
  destruct (twigs_shard s logs (twig_shard_index k) Hr Hi) as (t & log & Ht & Hl & Hrep).
  assert (Hset : settled t log) by by apply (Forall2_lookup_lr _ _ _ _ _ _ Hs Ht Hl).
  pose proof (prove_spec P t log k Hrep (proj1 Hset) (proj2 Hset)) as Hp.
  unfold logs_get. rewrite Hl. cbn [mbind option_bind].
  assert (Hon : forall a, twig_prove k t = (t, Ok a) ->
    on_tree (twig_shard_index k) (twig_prove k) s = (s, Ok a)).
  { intros a E. rewrite (on_tree_ok _ _ _ _ _ _ Ht E), list_insert_id by done. by destruct s. }
  unfold sharded_twig_prove. cbn zeta. destruct (log_map log !! k) as [v|].
  - destruct Hp as (p & E & Hpk & Hpv & _ & _ & Hver). erewrite bind_ok by exact (Hon _ E).
    cbn beta iota. rewrite bind_state.
    erewrite bind_ok by (unfold try_; by rewrite (cached_roots_spec _ _ (st_trees _ _ Hr) Hs)).
    erewrite bind_ok by (unfold try_; rewrite (at_index_some _ _ (log_root log)) by (by rewrite list_lookup_fmap, Hl); done).
    destruct (shard_path_spec logs _ log (st_len _ _ Hr) Hl) as (path & E' & Hlen & Hroot). rewrite E'.
    eexists. split; [done|]. split; [done|]. unfold sharded_twig_verify_for_key, sharded_twig_verify.
    cbn [stp_inner stp_shard_index stp_shard_root stp_shard_path]. rewrite Hpk, !N.eqb_refl. cbn [negb].
    rewrite (proj2 (N.leb_gt _ _)) by (change (twig_shard_index k) with (shard_index_for_key k); lia).
    rewrite Hver. cbn [negb]. by rewrite Nat2N.id, Hroot, N.eqb_refl.
  - by erewrite bind_ok by exact (Hon _ Hp).
Qed.

(** Everything hashed for the state and for the verification of a proof. *)
Definition logs_inputs (logs : list Log) : list bytes :=
  (logs ≫= log_inputs) ++ level_inputs SHARD_BITS (log_root <$> logs).
Definition sharded_proof_inputs (p : ShardedTwigProof) : list bytes :=
  twig_proof_inputs (stp_inner p) ++
  path_inputs (stp_shard_root p) (N.to_nat (stp_shard_index p)) (stp_shard_path p).

Record sharded_proof_typed (p : ShardedTwigProof) : Prop := {
  spt_inner : twig_proof_typed (stp_inner p);
  spt_len : length (stp_shard_path p) = SHARD_BITS;
  spt_path : Forall is_b256 (stp_shard_path p);
  spt_root : is_b256 (stp_shard_root p)
}.

Lemma log_root_b256 log : (forall x, is_b256 (blake3 x)) -> is_b256 (log_root log).
Proof. intros Hb. rewrite <- log_tree_hash. by apply hhash_b256. Qed.

Lemma twigs_verify_sound xs p logs k :
  (forall x, is_b256 (blake3 x)) -> no_collision xs -> logs_inputs logs ⊆ xs ->
  sharded_proof_inputs p ⊆ xs -> sharded_proof_typed p -> length (tp_value (stp_inner p)) ≠ 31%nat ->
  length logs = SHARD_COUNT -> Forall (fun log => log_ok log /\ Forall hleaf_ok (live log)) logs ->
  sharded_twig_verify_for_key p (logs_root logs) k = Ok tt ->
  logs_get logs k = Some (tp_value (stp_inner p)).
Proof.
  intros Hb Hc Hl Hp [Hin Hlen Hpath Hroot] Hv Hcnt Hok E.
  apply list_subseteq_app_iff_l in Hl as [Hl1 Hl2]. apply list_subseteq_app_iff_l in Hp as [Hp1 Hp2].
  unfold sharded_twig_verify_for_key, sharded_twig_verify in E.
  destruct (tp_key (stp_inner p) =? k) eqn:Ek; [|done]. apply N.eqb_eq in Ek. cbn [negb] in E. cbn zeta in E.
  destruct (stp_shard_index p =? _) eqn:Ei; [|done]. apply N.eqb_eq in Ei. cbn [negb] in E.
  destruct (_ <=? stp_shard_index p); [done|].
  destruct (twig_verify _ _) eqn:Ev; [|done]. cbn [negb] in E.
  destruct (shard_tree_root_from_path _ _ _ =? _) eqn:Er; [|done]. apply N.eqb_eq in Er. clear E.
  rewrite Ei, Nat2N.id in Er, Hp2. pose proof (shard_index_lt k) as Hi.
  assert (Hat : (log_root <$> logs) !! twig_shard_index k = Some (stp_shard_root p)).
  { apply (shard_path_sound Hb 4 (length (log_root <$> logs)) _ _ _ (stp_shard_path p) xs); try done.
    - by rewrite length_fmap, Hcnt.
    - rewrite length_fmap, Hcnt. unfold SHARD_COUNT. lia.
    - apply Forall_fmap, Forall_true. intros log. by apply log_root_b256.
    - rewrite Er. unfold logs_root. fold (shard_tree_root (log_root <$> logs)).
      pose proof (roots_root logs (mkShardedTwig [] 0) Hcnt) as Hc'. unfold combined_root, logs_root in Hc'.
      rewrite length_fmap, Hcnt in Hc'. cbn [Nat.eqb SHARD_COUNT negb] in Hc'.
      by destruct (shard_tree_root (log_root <$> logs)). }
  rewrite list_lookup_fmap in Hat. unfold logs_get.
  destruct (logs !! twig_shard_index k) as [log|] eqn:El; [|done]. cbn in Hat |- *. injection Hat as Hat.
  destruct (proj1 (Forall_lookup _ _) Hok _ _ El) as [Hlog Hlive]. rewrite <- Hat in Ev. rewrite <- Ek.
  eapply twig_verify_sound; try done. intros x Hx. apply Hl1, list_elem_of_bind. exists log.
  split; [done|]. by eapply list_elem_of_lookup_2.
Qed.
End sharded.

(** ** The state after a history *)

Section history.
Context {digest : Digest} (P : Hash -> Prop) (prefix_inj : distinct_prefixes P).

(** The logs of a new tree. *)
Definition no_logs : list Log := replicate SHARD_COUNT [].
Definition history_logs (cs : list StateCall) : list Log := foldl logs_next no_logs cs.
Definition history_map (cs : list StateCall) : gmap Hash bytes := foldl put ∅ (cs ≫= puts_of).

Lemma no_logs_get k : logs_get no_logs k = (∅ : gmap Hash bytes) !! k.
Proof.
  unfold logs_get, no_logs. rewrite lookup_replicate_2 by apply shard_index_lt. done.
Qed.

Lemma history_get cs k : logs_get (history_logs cs) k = history_map cs !! k.
Proof. apply logs_nexts_map; [apply length_replicate|apply no_logs_get]. Qed.

Lemma history_spec seeds cs :
  (SHARD_COUNT <= length seeds)%nat -> Forall (state_call_ok P) cs -> logs_fit (history_logs cs) ->
  exists s, state_calls cs (sharded_twig_new seeds) = (s, Ok (logs_replies cs no_logs 0)) /\
    twigs_rep P s (history_logs cs).
Proof.
  intros Hs Hok Hf. by apply (state_calls_spec P prefix_inj cs _ _ (twigs_new_rep P seeds Hs)).
Qed.

Lemma puts_from (us : list batch_op) (m : gmap Hash bytes) k v :
  foldl put m us !! k = Some v -> (k, Some v) ∈ us \/ m !! k = Some v.
Proof.
  revert m. induction us as [|u us IH]; intros m; [by right|]. cbn [foldl]. intros [H|H]%IH.
  - left. by right.
  - rewrite put_lookup in H. case_decide as E; [|by right]. left. destruct u; cbn in *. subst. left.
Qed.

(** Every active entry comes from a call. *)
Lemma history_live s cs i log kv :
  twigs_rep P s (history_logs cs) -> history_logs cs !! i = Some log -> kv ∈ live log ->
  (kv.1, Some kv.2) ∈ cs ≫= puts_of.
Proof.
  intros Hr Hi Hkv. destruct kv as [k v]. cbn [fst snd].
  destruct (Forall2_lookup_r _ _ _ _ _ (st_trees _ _ _ Hr) Hi) as (t & _ & Ht).
  apply elem_of_live in Hkv as Hin. apply (st_keys _ _ _ Hr i log Hi) in Hin as Hk.
  assert (Hg : logs_get (history_logs cs) k = Some v).
  { unfold logs_get. rewrite Hk, Hi. cbn. apply elem_of_list_to_map; [apply (re_ok _ _ _ Ht)|done]. }
  rewrite history_get in Hg. apply puts_from in Hg as [H|H]; [done|]. by rewrite lookup_empty in H.
Qed.

(** The values a call writes. *)
Definition no_node_values (cs : list StateCall) : Prop :=
  forall k v, (k, Some v) ∈ cs ≫= puts_of -> is_b256 k /\ length v ≠ 31%nat.

Lemma history_logs_ok s cs :
  twigs_rep P s (history_logs cs) -> no_node_values cs ->
  Forall (fun log => log_ok log /\ Forall hleaf_ok (live log)) (history_logs cs).
Proof.
  intros Hr Hv. apply Forall_lookup. intros i log Hi.
  destruct (Forall2_lookup_r _ _ _ _ _ (st_trees _ _ _ Hr) Hi) as (t & _ & Ht).
  split; [apply (re_ok _ _ _ Ht)|]. apply Forall_forall. intros [k v] Hkv.
  by apply Hv, (history_live s cs i log (k, v) Hr Hi).
Qed.
End history.

(** Two histories that differ in the order of operations on different keys within
    a batch, in the seeds a restart chooses and in what is reserved. *)
Inductive same_call : StateCall -> StateCall -> Prop :=
| same_eq c : same_call c c
| same_batch ops ops' : NoDup ops.*1 -> ops ≡ₚ ops' -> same_call (SBatch ops) (SBatch ops')
| same_reserve n n' : same_call (SReserve n) (SReserve n')
| same_restart seeds seeds' : same_call (SRestart seeds) (SRestart seeds').

Lemma same_logs `{Digest} cs cs' logs version :
  Forall2 same_call cs cs' ->
  foldl logs_next logs cs = foldl logs_next logs cs' /\
  logs_replies cs logs version = logs_replies cs' logs version.
Proof.
  intros Hc. revert logs version. induction Hc as [|c c' cs cs' Hc _ IH]; intros logs version; [done|].
  cbn [foldl logs_replies].
  assert (logs_next logs c = logs_next logs c' /\ version_next version c = version_next version c' /\
    logs_reply logs version c = logs_reply logs version c') as (<- & <- & <-).
  { destruct Hc as [c|ops ops' Hn Hp|n n'|x x']; try done. cbn [logs_next version_next logs_reply].
    by rewrite (logs_batch_perm ops ops' logs Hn Hp). }
  destruct (IH (logs_next logs c) (version_next version c)) as [H1 H2]. by rewrite H1, H2.
Qed.

(** C32: the sharded twig tree is one map with a deterministic root.  Whatever
    sequence of [set], [get], [apply_batch], [root], [reserve] and restarts from a
    snapshot is run on a new tree, storing keys whose first sixteen bytes differ and
    values of at most [u32::MAX] bytes, nothing panics or is refused, every reply
    is the one computed from the logs of the shards, and [get] reads what the
    writes in program order make of the empty map, although every batch is sorted
    by key.  A second node that receives the operations of a batch in another
    order, hashes its index with other seeds and restarts with others again gives
    the same replies: the same values, versions and roots. *)
Theorem sharded_twig_refines_map `{Digest} (P : Hash -> Prop) seeds seeds' cs cs' :
  distinct_prefixes P -> (SHARD_COUNT <= length seeds)%nat -> (SHARD_COUNT <= length seeds')%nat ->
  Forall (state_call_ok P) cs -> Forall (state_call_ok P) cs' -> Forall2 same_call cs cs' ->
  logs_fit (history_logs cs) ->
  exists s s', state_calls cs (sharded_twig_new seeds) = (s, Ok (logs_replies cs no_logs 0)) /\
    state_calls cs' (sharded_twig_new seeds') = (s', Ok (logs_replies cs no_logs 0)) /\
    (forall k, sharded_twig_get k s = (s, Ok (history_map cs !! k))) /\
    (forall k, sharded_twig_get k s' = (s', Ok (history_map cs !! k))).
Proof.
  intros Hp Hs Hs' Hok Hok' Hsame Hf. destruct (same_logs cs cs' no_logs 0 Hsame) as [El E].
  fold (history_logs cs) (history_logs cs') in El. symmetry in El.
  destruct (history_spec P Hp seeds cs Hs Hok Hf) as (s & E1 & Hr).
  destruct (history_spec P Hp seeds' cs' Hs' Hok') as (s' & E2 & Hr'); [by rewrite El|].
  exists s, s'. split; [done|]. split; [by rewrite E|]. split; intros k.
  - by rewrite (twigs_get_spec P s _ k Hr), history_get.
  - by rewrite (twigs_get_spec P s' _ k Hr'), El, history_get.
Qed.

(** C33: inclusion proofs are exact.  After any history and a call of [root], the
    proof of every stored key is made, carries its value and is accepted for that
    key against the root, and no proof is made of another key.  Any proof that is
    accepted for a key against that root carries the stored value of the key, if
    blake3 has no collision on what was hashed for the state and for the proof
    and neither the stored values nor that of the proof have 31 bytes. *)
Theorem sharded_twig_proofs_exact `{Digest} (P : Hash -> Prop) seeds cs :
  distinct_prefixes P -> (SHARD_COUNT <= length seeds)%nat ->
  Forall (state_call_ok P) cs -> logs_fit (history_logs cs) ->
  exists s,
    (state_calls cs ;; sharded_twig_root) (sharded_twig_new seeds) = (s, Ok (logs_root (history_logs cs))) /\
    (forall k,
       match history_map cs !! k with
       | None => sharded_twig_prove k s = (s, Ok None)
       | Some v => exists p, sharded_twig_prove k s = (s, Ok (Some p)) /\ tp_value (stp_inner p) = v /\
           sharded_twig_verify_for_key p (logs_root (history_logs cs)) k = Ok tt
       end) /\
    (forall xs p k,
       (forall x, is_b256 (blake3 x)) -> no_collision xs -> logs_inputs (history_logs cs) ⊆ xs ->
       sharded_proof_inputs p ⊆ xs -> sharded_proof_typed p -> no_node_values cs ->
       length (tp_value (stp_inner p)) ≠ 31%nat ->
       sharded_twig_verify_for_key p (logs_root (history_logs cs)) k = Ok tt ->
       history_map cs !! k = Some (tp_value (stp_inner p))).
Proof.
  intros Hp Hs Hok Hf. destruct (history_spec P Hp seeds cs Hs Hok Hf) as (s & E & Hr).
  destruct (twigs_root_spec P s _ Hr) as (s' & E' & Hset & _).
  exists s'. split; [by erewrite bind_ok by exact E|]. split.
  - intros k. rewrite <- history_get. by apply (twigs_prove_spec P).
  - intros xs p k Hb Hc Hl Hpi Ht Hv Hpv Hver. rewrite <- history_get.
    eapply twigs_verify_sound; try done; [apply Hr|]. by eapply history_logs_ok.
Qed.
