(* ===== verification/TwigRestore.v ===== *)
(** * Snapshots from elsewhere

    [try_from_snapshot] reads snapshots that need not come from a tree.  It
    accepts exactly the well-formed ones and otherwise returns an error; it never
    panics.  What it accepts it restores faithfully. *)

From S2P Require Import Prelude Effects Messages BmtCore BmtTree BmtArena BmtTheory BmtProofs ShardTree.
From S2P Require Import ShardedBmt ShardedBmtTheory.
From S2P Require Import FlatIndex FlatIndexTheory Twig TwigHeap TwigLog TwigForest TwigTheory.
From S2P Require Import TwigCalls TwigSnapshot TwigProofs ShardedTwigTheory.

(** Every entry is in its shard, slots are counted, values fit, and no two active
    keys share their first sixteen bytes. *)
Record shard_wf (i : nat) (s : ShardSnapshot) : Prop := {
  wf_shard : Forall (fun e => twig_shard_index (es_key e) = i) (ss_entries s);
  wf_slots : ss_next_slot s = N.of_nat (length (ss_entries s));
  wf_values : Forall (fun e => N.of_nat (length (es_value e)) <= u32_max) (ss_entries s);
  wf_prefixes : NoDup (prefixes (snap_log (ss_entries s)))
}.

Definition snapshot_wf (snap : TwigSnapshot) : Prop :=
  length (ts_shards snap) = SHARD_COUNT /\
  forall i s, ts_shards snap !! i = Some s -> shard_wf i s.

Definition snapshot_logs (snap : TwigSnapshot) : list Log := (fun s => snap_log (ss_entries s)) <$> ts_shards snap.

Definition snapshot_fits (snap : TwigSnapshot) : Prop :=
  Forall (fun s => N.of_nat (length (ss_entries s)) <= TOMB) (ts_shards snap).

(** ** The checks *)

Lemma first_large_none slot l :
  first_large slot l = None <-> Forall (fun e => N.of_nat (length (es_value e)) <= u32_max) l.
Proof.
  revert slot. induction l as [|e l IH]; intros slot; cbn [first_large]; [done|].
  destruct (u32_max <? _) eqn:E; bool_simpl; rewrite Forall_cons.
  - split; [done|]. intros [He _]. lia.
  - rewrite IH. split; [done|]. by intros [_ H].
Qed.

Lemma restore_error_none s :
  restore_error s = None <->
  ss_next_slot s = N.of_nat (length (ss_entries s)) /\
  Forall (fun e => N.of_nat (length (es_value e)) <= u32_max) (ss_entries s) /\
  NoDup (prefixes (snap_log (ss_entries s))).
Proof.
  unfold restore_error. cbn zeta. destruct (N.eqb_spec (ss_next_slot s) (N.of_nat (length (ss_entries s))));
    cbn [negb]; [|naive_solver].
  rewrite <- (first_large_none 0). destruct (first_large 0 (ss_entries s)); [naive_solver|].
  case_decide; naive_solver.
Qed.

Lemma check_entry_shards_cases i slot l :
  Forall (fun e => twig_shard_index (es_key e) = i) l /\ check_entry_shards i slot l = Ok tt \/
  ~ Forall (fun e => twig_shard_index (es_key e) = i) l /\ exists e, check_entry_shards i slot l = Err e.
Proof.
  revert slot. induction l as [|e l IH]; intros slot; cbn [check_entry_shards]; [by left|]. cbn zeta.
  destruct (Nat.eqb_spec (twig_shard_index (es_key e)) i); cbn [negb].
  - destruct (IH (S slot)) as [[H1 H2]|[H1 H2]]; [left|right]; (split; [|done]).
    + by constructor.
    + by intros [_ H]%Forall_cons.
  - right. split; [|eauto]. by intros [H _]%Forall_cons.
Qed.

Lemma check_snapshot_shards_cases i l :
  (forall j s, l !! j = Some s -> Forall (fun e => twig_shard_index (es_key e) = (i + j)%nat) (ss_entries s)) /\
    check_snapshot_shards i l = Ok tt \/
  ~ (forall j s, l !! j = Some s -> Forall (fun e => twig_shard_index (es_key e) = (i + j)%nat) (ss_entries s)) /\
    exists e, check_snapshot_shards i l = Err e.
Proof.
  revert i. induction l as [|s l IH]; intros i; cbn [check_snapshot_shards]; [by left|].
  destruct (check_entry_shards_cases i 0 (ss_entries s)) as [[H1 ->]|[H1 [e ->]]];
    cbn [mbind result_bind outcome_bind].
  - destruct (IH (S i)) as [[H2 H3]|[H2 H3]]; [left|right]; (split; [|done]).
    + intros [|j] x Hx; cbn in Hx; [simplify_eq; by rewrite Nat.add_0_r|].
      rewrite Nat.add_succ_r, <- Nat.add_succ_l. by apply H2.
    + intros H. apply H2. intros j x Hx. rewrite Nat.add_succ_l, <- Nat.add_succ_r. by apply (H (S j)).
  - right. split; [|eauto]. intros H. apply H1. specialize (H 0%nat s eq_refl). by rewrite Nat.add_0_r in H.
Qed.

Section restore.
Context {digest : Digest}.

Definition live_key (log : Log) (k : Hash) : Prop := k ∈ (live log).*1.

Lemma restore_shards_cases i seeds l :
  Forall (fun s => N.of_nat (length (ss_entries s)) <= TOMB) l ->
  (forall s, s ∈ l -> restore_error s = None) /\
    (exists ts, restore_shards i seeds l = Ok ts /\
       Forall2 (fun t s => tree_rep (live_key (snap_log (ss_entries s))) t (snap_log (ss_entries s))) ts l) \/
  ~ (forall s, s ∈ l -> restore_error s = None) /\ exists e, restore_shards i seeds l = Err e.
Proof.
  intros Hl. revert i seeds. induction Hl as [|s l Hs _ IH]; intros i seeds; cbn [restore_shards].
  { left. split; [|by exists []]. intros s H. by apply not_elem_of_nil in H. }
  pose proof (restore_spec (hd 0 seeds) s Hs) as Hr. destruct (restore_error s) as [e|] eqn:Ee.
  { right. rewrite Hr. split; [|eauto]. intros H. rewrite (H s) in Ee by left. done. }
  destruct Hr as (t & -> & Ht). destruct (IH (S i) (tl seeds)) as [[H1 (ts & -> & H2)]|[H1 [e ->]]].
  - left. split; [intros x [->|Hx]%elem_of_cons; auto|]. eexists. split; [done|]. by constructor.
  - right. split; [|by eexists]. intros H. apply H1. intros x Hx. apply H. by right.
Qed.

Lemma same_prefix_shard k k' : key_prefix k = key_prefix k' -> twig_shard_index k = twig_shard_index k'.
Proof.
  intros E. assert (Ht : take 16 (b256_bytes k) = take 16 (b256_bytes k')).
  { assert (Hi : forall x, is_bytes (take 16 (b256_bytes x))) by (intros x; apply Forall_take, is_bytes_be_bytes).
    assert (Hn : forall x, length (take 16 (b256_bytes x)) = 16%nat) by (intros x; by rewrite length_take, length_b256_bytes).
    rewrite <- (le_bytes_le_value _ (Hi k)), <- (le_bytes_le_value _ (Hi k')), !Hn.
    unfold key_prefix in E. by rewrite E. }
  pose proof (lookup_take_lt (b256_bytes k) 16 0 ltac:(lia)) as H1. rewrite Ht in H1.
  rewrite lookup_take_lt in H1 by lia. unfold twig_shard_index, shard_index_for_key.
  do 3 f_equal. by symmetry.
Qed.

Definition state_key (logs : list Log) (k : Hash) : Prop :=
  exists log, logs !! twig_shard_index k = Some log /\ live_key log k.

Lemma NoDup_prefix_inj log k k' :
  NoDup (prefixes log) -> live_key log k -> live_key log k' -> key_prefix k = key_prefix k' -> k = k'.
Proof.
  unfold prefixes, live_key. intros Hn (i & Hi)%list_elem_of_lookup (j & Hj)%list_elem_of_lookup E.
  assert (i = j) as <-; [|congruence]. eapply (NoDup_lookup _ _ _ (key_prefix k) Hn).
  - by rewrite list_lookup_fmap, Hi.
  - by rewrite list_lookup_fmap, Hj, E.
Qed.

Lemma state_key_prefixes logs :
  (forall log, log ∈ logs -> NoDup (prefixes log)) -> distinct_prefixes (state_key logs).
Proof.
  intros Hn k k' (log & Hl & Hk) (log' & Hl' & Hk') E. rewrite <- (same_prefix_shard _ _ E) in Hl'.
  rewrite Hl in Hl'. injection Hl' as <-. eapply NoDup_prefix_inj; [|done..].
  apply Hn. by eapply list_elem_of_lookup_2.
Qed.

(** The restored shards hold the logs of a well-formed snapshot. *)
Lemma restored_rep snap ts :
  snapshot_wf snap ->
  Forall2 (fun t s => tree_rep (live_key (snap_log (ss_entries s))) t (snap_log (ss_entries s)))
    ts (ts_shards snap) ->
  twigs_rep (state_key (snapshot_logs snap)) (mkShardedTwig ts (ts_version snap)) (snapshot_logs snap).
Proof.
  intros [Hlen Hwf] Ht. unfold snapshot_logs.
  assert (Hin : forall i log, ((fun s => snap_log (ss_entries s)) <$> ts_shards snap) !! i = Some log ->
    in_shard i log).
  { intros i log Hi. rewrite list_lookup_fmap in Hi.
    destruct (ts_shards snap !! i) as [s|] eqn:Es; [|done]. injection Hi as <-.
    intros k o ([k' v a] & E & He)%list_elem_of_fmap. unfold item_of in E. cbn in E. simplify_eq.
    apply (proj1 (Forall_forall _ _) (wf_shard _ _ (Hwf i s Es)) _ He). }
  split; [|by rewrite length_fmap|done]. apply Forall2_same_length_lookup. cbn [sh_shards].
  split; [rewrite length_fmap; by eapply Forall2_length|]. intros i t log Hit Hil.
  pose proof (Hin i log Hil) as Hsh. pose proof Hil as Hil'. rewrite list_lookup_fmap in Hil.
  destruct (ts_shards snap !! i) as [s|] eqn:Es; [|done]. injection Hil as <-.
  eapply tree_rep_mono; [|exact (Forall2_lookup_lr _ _ _ _ _ _ Ht Hit Es)].
  intros k Hk. exists (snap_log (ss_entries s)). split; [|done].
  apply list_elem_of_fmap in Hk as ([k' v] & -> & Hkv%elem_of_live). cbn [fst]. by rewrite (Hsh _ _ Hkv).
Qed.

(** C34: [try_from_snapshot] accepts exactly the well-formed snapshots: sixteen
    shards, every entry in the shard of its key, slot counts that match, values of
    at most [u32::MAX] bytes, and active keys that differ in the sixteen bytes the
    index uses, which the comparison of the live counters enforces.  Everything
    else is an error and nothing panics.  The tree it returns has the version of
    the snapshot, reads exactly the active entries and has the root of the log. *)
Theorem twig_restore_exact seeds snap :
  snapshot_fits snap ->
  (snapshot_wf snap -> exists t t', sharded_try_from_snapshot seeds snap = Ok t /\
     sh_version t = ts_version snap /\
     sharded_twig_root t = (t', Ok (logs_root (snapshot_logs snap))) /\
     forall k, sharded_twig_get k t = (t, Ok (logs_get (snapshot_logs snap) k))) /\
  (~ snapshot_wf snap -> exists e, sharded_try_from_snapshot seeds snap = Err e).
Proof.
  intros Hfit. unfold sharded_try_from_snapshot. split.
  - intros Hwf. destruct Hwf as [Hlen Hsh]. rewrite Hlen. cbn [Nat.eqb SHARD_COUNT negb].
    destruct (check_snapshot_shards_cases 0 (ts_shards snap)) as [[_ ->]|[H _]].
    2:{ exfalso. apply H. intros j s Hs. apply (wf_shard _ _ (Hsh j s Hs)). }
    cbn [mbind result_bind outcome_bind].
    destruct (restore_shards_cases 0 seeds _ Hfit) as [[_ (ts & -> & Ht)]|[H _]].
    2:{ exfalso. apply H. intros s [j Hs]%list_elem_of_lookup. apply restore_error_none.
        destruct (Hsh j s Hs) as [_ H1 H2 H3]. done. }
    cbn [mbind result_bind outcome_bind].
    pose proof (restored_rep snap ts (conj Hlen Hsh) Ht) as Hr.
    assert (Hp : distinct_prefixes (state_key (snapshot_logs snap))).
    { apply state_key_prefixes. intros log (s & -> & [j Hs]%list_elem_of_lookup)%list_elem_of_fmap.
      apply (wf_prefixes _ _ (Hsh j s Hs)). }
    destruct (twigs_root_spec _ _ _ Hr) as (s1 & E & [Hr1 _] & Hv). rewrite E.
    cbn [no_error mbind result_bind outcome_bind]. unfold sharded_check_consistency.
    rewrite (check_shards_ok _ Hp 0 _ _ (st_trees _ _ _ Hr1)). cbn [mbind result_bind outcome_bind].
    destruct (twigs_root_spec _ _ _ Hr1) as (s2 & E2 & _ & _).
    exists s1, s2. split_and!; [done|done|done|]. intros k. by apply (twigs_get_spec (state_key (snapshot_logs snap))).
  - intros Hn. destruct (Nat.eqb_spec (length (ts_shards snap)) SHARD_COUNT) as [Hlen|]; cbn [negb]; [|eauto].
    destruct (check_snapshot_shards_cases 0 (ts_shards snap)) as [[H1 ->]|[_ [e ->]]]; [|by exists e].
    cbn [mbind result_bind outcome_bind].
    destruct (restore_shards_cases 0 seeds _ Hfit) as [[H2 _]|[_ [e ->]]]; [|by exists e].
    exfalso. apply Hn. split; [done|]. intros i s Hs.
    destruct (proj1 (restore_error_none s)) as (Ha & Hb & Hc); [apply H2; by eapply list_elem_of_lookup_2|].
    split; [by apply H1|done..].
Qed.
End restore.
