(* ===== verification/TwigState.v ===== *)
(** * The twig state tree ([crates/n42-jmt/src/twig.rs])

    The twig engine behind the interface of the sharded Merkle tree: genesis
    accounts and the diffs of blocks become keyed operations, with the account
    leaves of [ShardedBmt].  The values of a block are staged in one buffer by the
    source; here every operation carries its value.  The verifiers for light
    clients are those of [crates/n42-mobile/src/state_proof.rs]. *)

From S2P Require Import Prelude Effects Messages BmtCore ShardedBmt FlatIndex Twig.

Abbreviation MQ := (ST ShardedTwig SbmtError).

Section state.
Context {digest : Digest}.

(** A method of [self.inner]. *)
Definition on_inner {A} (m : ST ShardedTwig Empty_set A) : MQ A := fun s =>
  let '(s', r) := m s in (s', no_error r).

Definition twig_seed_genesis_account (address : Address) (balance nonce : N) (code_hash : B256)
  (storage : list (N * N)) : MQ unit :=
  on_inner (sharded_twig_set (account_key address) (encode_account_value balance nonce code_hash)) ;;
  for_each (fun '(slot, value) =>
    if value =? 0 then mret tt
    else on_inner (sharded_twig_set (storage_key address slot) (be_bytes 32 value))) storage.

(** [prepare]: the operations of an account follow from its diff and its leaf. *)
Fixpoint twig_prepare (accounts : list (Address * AccountDiff)) : MQ (list batch_op) :=
  match accounts with
  | [] => mret []
  | (address, diff) :: rest =>
      leaf ← on_inner (sharded_twig_get (account_key address));
      ops ← try_ (fun _ => account_updates address diff leaf);
      ops' ← twig_prepare rest;
      mret (ops ++ ops')
  end.

Definition twig_apply_diff (diff : StateDiff) : MQ (N * Hash) :=
  ops ← twig_prepare (sd_accounts diff);
  on_inner (sharded_twig_apply_batch ops).

(** [TwigState::try_from_snapshot] *)
Inductive TwigStateError : Type := InvalidSnapshot (e : TwigError).
Definition twig_state_from_snapshot (seeds : list N) (snap : TwigSnapshot)
  : result TwigStateError ShardedTwig :=
  match sharded_try_from_snapshot seeds snap with
  | Ok s => Ok s
  | Err e => Err (InvalidSnapshot e)
  | Panic => Panic
  | OutOfFuel => OutOfFuel
  end.

(** ** Light clients *)

Definition verify_twig_state_proof (proof : ShardedTwigProof) (state_root : B256)
  : result TwigVerifyError unit := sharded_twig_verify proof state_root.
Definition verify_twig_account_proof (proof : ShardedTwigProof) (state_root : B256) (address : Address)
  : result TwigVerifyError unit :=
  sharded_twig_verify_for_key proof state_root (account_key address).
Definition verify_twig_storage_proof (proof : ShardedTwigProof) (state_root : B256) (address : Address)
  (slot : N) : result TwigVerifyError unit :=
  sharded_twig_verify_for_key proof state_root (storage_key address slot).
End state.
