(* ===== verification/TwigStateTheory.v ===== *)
(** * Two state engines

    The node can keep its state in the sparse Merkle trees of [ShardedBmt] or in
    the twig engine.  For the same genesis, blocks, reads and restarts both accept
    and reject the same diffs, count the same versions and hold the same values. *)

From S2P Require Import Prelude Effects Messages BmtCore BmtTree BmtArena BmtTheory BmtProofs ShardTree.
From S2P Require Import ShardedBmt ShardedBmtTheory StateTree.
From S2P Require Import FlatIndex FlatIndexTheory Twig TwigHeap TwigLog TwigForest TwigTheory.
From S2P Require Import TwigCalls TwigSnapshot TwigProofs ShardedTwigTheory TwigState.

Section engines.
Context {digest : Digest}.

(** ** The same calls on both engines *)

Inductive EngineOp : Type :=
| ESeed (address : Address) (balance nonce : N) (code_hash : B256) (storage : list (N * N))
| EDiff (diff : StateDiff)
| EGet (key : Hash)
| ERestart (order : list (Hash * bytes) -> list (Hash * bytes)) (seeds : list N).

(** What does not depend on how the state is hashed. *)
Inductive EngineReply : Type :=
| ESeeded
| EApplied (version : N)
| ERejected (error : SbmtError)
| ERead (value : option bytes)
| ERestarted (version : N)
| EUnexpected.

Definition to_state_op (op : EngineOp) : StateOp :=
  match op with
  | ESeed address balance nonce code_hash storage => SSeed address balance nonce code_hash storage
  | EDiff diff => SDiff diff
  | EGet key => StateTree.SGet key
  | ERestart order _ => SRestore order
  end.

Definition without_root (r : StateTree.StateReply) : EngineReply :=
  match r with
  | RSeeded => ESeeded
  | RApplied version _ => EApplied version
  | RRejected e => ERejected e
  | RRead v => ERead v
  | RRestored version => ERestarted version
  | _ => EUnexpected
  end.

Definition sbmt_run (ops : list EngineOp) : outcome SbmtError (list EngineReply) :=
  outcome_bind (fun rs : list StateTree.StateReply => Ok (without_root <$> rs))
    (state_run (to_state_op <$> ops) sharded_new).2.

Definition twig_step (op : EngineOp) : MQ EngineReply :=
  match op with
  | ESeed address balance nonce code_hash storage =>
      twig_seed_genesis_account address balance nonce code_hash storage ;; mret ESeeded
  | EDiff diff =>
      r ← catch (twig_apply_diff diff);
      mret (match r with inl e => ERejected e | inr (version, _) => EApplied version end)
  | EGet key => v ← on_inner (sharded_twig_get key); mret (ERead v)
  | ERestart _ seeds => fun s =>
      match sharded_twig_snapshot s with
      | Ok snap =>
          match twig_state_from_snapshot seeds snap with
          | Ok s' => (s', Ok (ERestarted (sh_version s')))
          | _ => (s, Panic)
          end
      | _ => (s, Panic)
      end
  end.
Fixpoint twig_steps (ops : list EngineOp) : MQ (list EngineReply) :=
  match ops with
  | [] => mret []
  | op :: ops => r ← twig_step op; rs ← twig_steps ops; mret (r :: rs)
  end.
Definition twig_run (seeds : list N) (ops : list EngineOp) : outcome SbmtError (list EngineReply) :=
  (twig_steps ops (sharded_twig_new seeds)).2.

Context (P : Hash -> Prop) (prefix_inj : distinct_prefixes P).

(** The keys an operation may write. *)
Definition engine_op_ok (op : EngineOp) : Prop :=
  match op with
  | ESeed address _ _ _ storage =>
      P (account_key address) /\ Forall (fun sv => P (storage_key address sv.1)) storage
  | EDiff diff =>
      Forall (fun ad => P (account_key ad.1) /\
        Forall (fun sc => P (storage_key ad.1 sc.1)) (ad_storage ad.2)) (sd_accounts diff)
  | EGet _ => True
  | ERestart order _ => forall l, order l ≡ₚ l
  end.

(** ** The twig engine and the map *)

Record engine_rep (n : nat) (s : ShardedTwig) (m : gmap Hash bytes) : Prop := {
  en_logs : exists logs, twigs_rep P s logs /\ (forall k, logs_get logs k = m !! k) /\
    Forall (fun log => (length log <= n)%nat) logs
}.

Lemma engine_rep_mono n n' s m : (n <= n')%nat -> engine_rep n s m -> engine_rep n' s m.
Proof.
  intros Hn [(logs & H1 & H2 & H3)]. split. exists logs. split_and!; [done..|].
  eapply Forall_impl; [exact H3|]. cbn. intros; lia.
Qed.

Lemma engine_rep_version n s m v : engine_rep n s m -> engine_rep n (mkShardedTwig (sh_shards s) v) m.
Proof. intros [(logs & [H1 H2 H4] & H5)]. split. exists logs. by split; [split|]. Qed.

Lemma engine_new seeds : (SHARD_COUNT <= length seeds)%nat -> engine_rep 0 (sharded_twig_new seeds) ∅.
Proof.
  intros Hs. split. exists (replicate SHARD_COUNT []). split; [by apply twigs_new_rep|]. split.
  - apply no_logs_get.
  - apply Forall_replicate. done.
Qed.

Lemma on_inner_ok {A} (m : ST ShardedTwig Empty_set A) s s' a :
  m s = (s', Ok a) -> on_inner m s = (s', Ok a).
Proof. intros E. unfold on_inner. by rewrite E. Qed.

Lemma engine_get n s m k : engine_rep n s m -> on_inner (sharded_twig_get k) s = (s, Ok (m !! k)).
Proof. intros [(logs & Hr & Hg & _)]. apply on_inner_ok. by rewrite (twigs_get_spec P s logs k Hr), Hg. Qed.

Lemma engine_set n s m k v :
  engine_rep n s m -> op_ok P (k, Some v) -> N.of_nat n < TOMB ->
  exists s', on_inner (sharded_twig_set k v) s = (s', Ok tt) /\ engine_rep (S n) s' (put m (k, Some v)) /\
    sh_version s' = sh_version s.
Proof.
  intros [(logs & Hr & Hg & Hl)] Hop Hn. destruct (Hop v eq_refl) as [Hk Hv].
  destruct (twigs_set_spec P prefix_inj s logs k v Hr Hk Hv) as (s' & E & Hr' & Hver).
  { intros log Hlog. pose proof (proj1 (Forall_lookup _ _) Hl _ _ Hlog) as H. cbn in H. lia. }
  exists s'. split; [by apply on_inner_ok|]. split; [|done]. split. exists (logs_set k v logs).
  split; [done|]. split.
  - intros k'. rewrite logs_get_set by (rewrite (st_len _ _ _ Hr); apply shard_index_lt).
    by rewrite Hg, put_lookup.
  - apply Forall_lookup. intros i log Hi. unfold logs_set in Hi. rewrite list_lookup_alter in Hi.
    case_decide as Ei.
    + rewrite Ei in Hi. destruct (logs !! i) as [log0|] eqn:E0; [|done]. injection Hi as <-.
      rewrite log_set_length. pose proof (proj1 (Forall_lookup _ _) Hl _ _ E0) as H. cbn in H. lia.
    + pose proof (proj1 (Forall_lookup _ _) Hl _ _ Hi) as H. cbn in H. lia.
Qed.

Lemma log_ops_length_le log ops : (length (foldl log_op log ops) <= length log + length ops)%nat.
Proof.
  revert log. induction ops as [|op ops IH]; intros log; cbn [foldl length]; [lia|].
  specialize (IH (log_op log op)). destruct op as [k [v|]]; cbn [log_op snd fst] in *.
  - rewrite log_set_length in IH. lia.
  - rewrite log_drop_length in IH. lia.
Qed.

Lemma shard_ops_length (ops : list batch_op) i :
  (length (sort_by_key fst (ops_of_shard ops i)) <= length ops)%nat.
Proof.
  etrans; [apply Nat.eq_le_incl, Permutation_length, sort_by_key_permutation|]. apply length_filter.
Qed.

Lemma logs_batch_length ops logs n log :
  Forall (fun log => (length log <= n)%nat) logs -> log ∈ logs_batch ops logs ->
  (length log <= n + length ops)%nat.
Proof.
  intros Hl [i Hi]%list_elem_of_lookup. unfold logs_batch in Hi. rewrite list_lookup_imap in Hi.
  destruct (logs !! i) as [log0|] eqn:E0; [|done]. injection Hi as <-.
  pose proof (proj1 (Forall_lookup _ _) Hl _ _ E0) as H. cbn in H.
  unfold log_batch. etrans; [apply log_ops_length_le|].
  apply Nat.add_le_mono; [done|apply shard_ops_length].
Qed.

Lemma engine_batch n s m ops :
  engine_rep n s m -> Forall (op_ok P) ops -> N.of_nat (n + length ops) <= TOMB ->
  exists s' root, on_inner (sharded_twig_apply_batch ops) s = (s', Ok (sh_version s +w 1, root)) /\
    engine_rep (n + length ops) s' (foldl put m ops) /\ sh_version s' = sh_version s +w 1.
Proof.
  intros [(logs & Hr & Hg & Hl)] Hops Hn.
  destruct (twigs_batch_spec P prefix_inj s logs ops Hr Hops) as (s' & E & Hs & Hv).
  { intros log Hlog. pose proof (logs_batch_length ops logs n log Hl Hlog). lia. }
  exists s', (logs_root (logs_batch ops logs)). split; [by apply on_inner_ok|]. split; [|done]. split.
  exists (logs_batch ops logs). split; [apply Hs|]. split.
  - intros k. apply logs_get_batch; [apply Hr|apply Hg].
  - apply Forall_forall. intros log Hlog. by eapply logs_batch_length.
Qed.

(** ** Genesis and diffs *)

Lemma small_value k v : P k -> (length v <= 72)%nat -> op_ok P (k, Some v).
Proof. intros Hk Hv w [= <-]. split; [done|]. cbn. unfold u32_max. lia. Qed.

Lemma account_value_op address balance nonce code :
  P (account_key address) -> op_ok P (account_key address, Some (encode_account_value balance nonce code)).
Proof.
  intros Hk. apply small_value; [done|]. unfold encode_account_value.
  rewrite !length_app, !length_be_bytes, length_b256_bytes. lia.
Qed.

Lemma engine_sets us n s m :
  engine_rep n s m -> Forall (op_ok P) us -> Forall (fun u : batch_op => is_Some u.2) us ->
  N.of_nat (n + length us) <= TOMB ->
  exists s', for_each (fun u : batch_op => on_inner (sharded_twig_set u.1 (default [] u.2))) us s = (s', Ok tt) /\
    engine_rep (n + length us) s' (foldl put m us) /\ sh_version s' = sh_version s.
Proof.
  revert n s m. induction us as [|[k o] us IH]; intros n s m Hr Hus Hso Hn.
  { exists s. cbn [length foldl]. by rewrite Nat.add_0_r. }
  apply Forall_cons in Hus as [Hu Hus]. apply Forall_cons in Hso as [[v Hv] Hso]. cbn in Hv. subst o.
  cbn [length] in Hn |- *. destruct (engine_set n s m k v Hr Hu) as (s1 & E1 & Hr1 & Hv1); [lia|].
  destruct (IH (S n) s1 _ Hr1 Hus Hso) as (s2 & E2 & Hr2 & Hv2); [lia|].
  exists s2. cbn [for_each foldl fst snd default from_option id]. erewrite bind_ok by exact E1.
  split; [exact E2|]. split; [by rewrite <- Nat.add_succ_comm|congruence].
Qed.

Lemma seed_storage_sets address (storage : list (N * N)) s :
  for_each (fun '(slot, value) =>
    if value =? 0 then mret tt
    else on_inner (sharded_twig_set (storage_key address slot) (be_bytes 32 value))) storage s =
  for_each (fun u : batch_op => on_inner (sharded_twig_set u.1 (default [] u.2)))
    ((fun '(slot, value) => (storage_key address slot, Some (be_bytes 32 value)))
       <$> filter (fun sv => sv.2 ≠ 0) storage) s.
Proof.
  revert s. induction storage as [|[slot value] storage IH]; intros s; [done|].
  rewrite filter_cons. cbn [snd for_each]. destruct (N.eqb_spec value 0) as [->|Hv].
  - rewrite decide_False by tauto. erewrite bind_ok by done. apply IH.
  - rewrite decide_True by done. rewrite fmap_cons. cbn [for_each fst snd default from_option id].
    unfold mbind, st_bind. by destruct (on_inner _ s) as [s' [| | |]].
Qed.

Lemma engine_seed n s m address balance nonce code storage :
  engine_rep n s m -> engine_op_ok (ESeed address balance nonce code storage) ->
  N.of_nat (n + S (length storage)) <= TOMB ->
  exists s', twig_seed_genesis_account address balance nonce code storage s = (s', Ok tt) /\
    engine_rep (n + S (length storage)) s' (foldl put m (genesis_updates address balance nonce code storage)) /\
    sh_version s' = sh_version s.
Proof.
  intros Hr [Hk Hst] Hn. pose (us := genesis_updates address balance nonce code storage : list batch_op).
  assert (Hl : (length us <= S (length storage))%nat).
  { unfold us, genesis_updates. cbn [length]. rewrite length_fmap.
    pose proof (length_filter (fun sv : N * N => sv.2 ≠ 0) storage). lia. }
  destruct (engine_sets us n s m Hr) as (s' & E & Hr' & Hv); [..|lia|].
  - constructor; [by apply account_value_op|]. apply Forall_fmap, Forall_forall.
    intros [slot value] [_ Hin]%list_elem_of_filter. apply small_value; [|rewrite length_be_bytes; lia].
    apply (proj1 (Forall_forall _ _) Hst _ Hin).
  - constructor; [done|]. apply Forall_fmap, Forall_true. intros [slot value]. by eexists.
  - exists s'. split; [|split; [by eapply engine_rep_mono; [apply Nat.add_le_mono_l; exact Hl|exact Hr']|done]].
    rewrite <- E. unfold twig_seed_genesis_account, us, genesis_updates.
    cbn [for_each fst snd default from_option id]. unfold mbind, st_bind.
    destruct (on_inner _ s) as [s1 [| | |]]; [apply seed_storage_sets|done..].
Qed.

Lemma account_updates_ops address diff leaf us :
  P (account_key address) -> Forall (fun sc => P (storage_key address sc.1)) (ad_storage diff) ->
  account_updates address diff leaf = Ok us -> Forall (op_ok P) us.
Proof.
  intros Hk Hst. unfold account_updates.
  assert (Hs : Forall (op_ok P) (storage_updates address (ad_storage diff))).
  { apply Forall_fmap, Forall_forall. intros [slot change] Hin. cbn.
    destruct (vc_to change =? 0); [by intros w Hw|].
    apply small_value; [|rewrite length_be_bytes; lia]. apply (proj1 (Forall_forall _ _) Hst _ Hin). }
  destruct (ad_change_type diff).
  3:{ intros [= <-]. constructor; [by intros w Hw|]. apply Forall_fmap, Forall_true.
      intros [slot change] w Hw. done. }
  all: cbn zeta; destruct (leaf_code_hash address diff leaf); cbn [mbind result_bind outcome_bind]; try done;
    intros [= <-]; constructor; [by apply account_value_op|done].
Qed.

Lemma diff_updates_ops m accounts us :
  Forall (fun ad => P (account_key ad.1) /\
    Forall (fun sc => P (storage_key ad.1 sc.1)) (ad_storage ad.2)) accounts ->
  diff_updates m accounts = Ok us -> Forall (op_ok P) us.
Proof.
  intros Ha. revert us. induction Ha as [|[address diff] rest [Hk Hst] _ IH]; intros us; cbn [diff_updates].
  { intros [= <-]. constructor. }
  destruct (account_updates _ _ _) as [u1| | |] eqn:E1; cbn [mbind result_bind outcome_bind]; try done.
  destruct (diff_updates m rest) as [u2| | |]; cbn [mbind result_bind outcome_bind]; try done.
  intros [= <-]. apply Forall_app. split; [by eapply account_updates_ops|by apply IH].
Qed.

Lemma twig_prepare_spec n s m accounts :
  engine_rep n s m -> twig_prepare accounts s = (s, diff_updates m accounts).
Proof.
  intros Hr. induction accounts as [|[address diff] rest IH]; [done|]. cbn [twig_prepare diff_updates].
  erewrite bind_ok by exact (engine_get n s m _ Hr). unfold mbind at 1, st_bind, try_.
  destruct (account_updates _ _ _) as [us|e| |]; cbn [mbind result_bind outcome_bind]; [|done..].
  unfold mbind, st_bind. rewrite IH. by destruct (diff_updates m rest).
Qed.

(** ** The refinement *)

Hypothesis blake3_b256 : forall x, is_b256 (blake3 x).

Lemma twig_step_spec op n s m :
  engine_rep n s m -> engine_op_ok op -> N.of_nat (n + op_writes (to_state_op op)) <= TOMB ->
  exists s', twig_step op s = (s', Ok (without_root (spec_step (to_state_op op) (m, sh_version s)).2)) /\
    engine_rep (n + op_writes (to_state_op op)) s' (spec_step (to_state_op op) (m, sh_version s)).1.1 /\
    sh_version s' = (spec_step (to_state_op op) (m, sh_version s)).1.2.
Proof.
  intros Hr Hop Hn. destruct op as [address balance nonce code storage|diff|k|order seeds];
    cbn [to_state_op op_writes twig_step spec_step fst snd without_root] in *; rewrite ?Nat.add_0_r in *.
  - destruct (engine_seed n s m address balance nonce code storage Hr Hop Hn) as (s' & E & Hr' & Hv).
    exists s'. by rewrite (bind_ok _ _ _ _ _ E).
  - destruct (diff_updates_total blake3_b256 m (sd_accounts diff)) as [(us & Hd & _ & Hl)|[e Hd]].
    + rewrite <- Hl in *. pose proof (diff_updates_ops m _ us Hop Hd) as Hops.
      destruct (engine_batch n s m us Hr Hops Hn) as (s' & root & E & Hr' & Hv).
      exists s'. rewrite Hd. cbn [fst snd without_root]. split_and!; [|done|done].
      rewrite (bind_ok _ _ s s' (inr (sh_version s +w 1, root))); [done|]. unfold catch, twig_apply_diff.
      erewrite bind_ok by (rewrite (twig_prepare_spec n s m _ Hr), Hd; done). by rewrite E.
    + exists s. rewrite Hd. cbn [fst snd without_root]. split_and!; [|eapply engine_rep_mono; [|done]; lia|done].
      rewrite (bind_ok _ _ s s (inl e)); [done|]. unfold catch, twig_apply_diff.
      by erewrite bind_err by (rewrite (twig_prepare_spec n s m _ Hr), Hd; done).
  - exists s. by rewrite (bind_ok _ _ _ _ _ (engine_get n s m k Hr)).
  - destruct Hr as [(logs & Hr & Hg & Hl)].
    destruct (restore_snapshot_spec P prefix_inj s logs seeds Hr) as (snap & s' & E1 & E2 & Hs & Hv).
    { eapply Forall_impl; [exact Hl|]. cbn. intros; lia. }
    exists s'. rewrite E1. unfold twig_state_from_snapshot. rewrite E2. split_and!; [by rewrite Hv| |done].
    split. exists logs. split; [apply Hs|done].
Qed.

Lemma twig_steps_spec ops n s m :
  engine_rep n s m -> Forall engine_op_ok ops ->
  N.of_nat (n + sum_list_with op_writes (to_state_op <$> ops)) <= TOMB ->
  (twig_steps ops s).2 = Ok (without_root <$> spec_run (to_state_op <$> ops) (m, sh_version s)).
Proof.
  intros Hr Hops. revert n s m Hr. induction Hops as [|op ops Hop _ IH]; intros n s m Hr Hn; [done|].
  rewrite fmap_cons in Hn |- *. cbn [sum_list_with] in Hn.
  destruct (twig_step_spec op n s m Hr Hop) as (s1 & E1 & Hr1 & Hv1); [lia|].
  pose proof (IH _ _ _ Hr1 ltac:(lia)) as H2. rewrite Hv1 in H2. cbn [twig_steps spec_run].
  rewrite (bind_ok _ _ _ _ _ E1). destruct (spec_step _ _) as [[m' v'] r]. cbn [fst snd] in *.
  destruct (twig_steps ops s1) as [s2 r2] eqn:E2. cbn [snd] in H2. subst r2.
  by rewrite (bind_ok _ _ _ _ _ E2).
Qed.
End engines.

(** C35: the twig engine and the sparse Merkle trees are interchangeable.  For any
    genesis accounts, block diffs, reads and restarts from snapshots, both engines
    reply the same: they accept and reject the same diffs with the same errors,
    number the versions alike and return the same values, as long as the keys
    differ in their first sixteen bytes and the trees have room. *)
Theorem state_engines_agree `{Digest} (P : Hash -> Prop) seeds ops :
  (forall x, is_b256 (blake3 x)) -> distinct_prefixes P -> (SHARD_COUNT <= length seeds)%nat ->
  Forall (engine_op_ok P) ops ->
  257 * N.of_nat (sum_list_with op_writes (to_state_op <$> ops)) <= NIL ->
  exists replies, sbmt_run ops = Ok replies /\ twig_run seeds ops = Ok replies.
Proof.
  intros Hb Hp Hs Hops Hn. eexists. split.
  - unfold sbmt_run. rewrite (state_run_refines Hb _ 0 sharded_new ∅ rep_new); [done| |done].
    apply Forall_fmap. eapply Forall_impl; [exact Hops|]. by intros [].
  - apply (twig_steps_spec P Hp Hb _ 0 (sharded_twig_new seeds) ∅); [by apply engine_new|done|].
    assert (NIL <= TOMB) by done. cbn [Nat.add]. lia.
Qed.
