(* ===== verification/TwigWitnesses.v ===== *)
(** * Instances of the theorems about the twig engine

    Small trees with a hash of forty bits in place of blake3. *)

From S2P Require Import Prelude Effects Messages BmtCore BmtTree BmtArena BmtTheory BmtProofs ShardTree.
From S2P Require Import ShardedBmt ShardedBmtTheory StateTree BmtWitnesses.
From S2P Require Import FlatIndex FlatIndexTheory Twig TwigHeap TwigLog TwigForest TwigTheory.
From S2P Require Import TwigCalls TwigSnapshot TwigProofs ShardedTwigTheory TwigRestore TwigState.
From S2P Require Import TwigStateTheory.

#[local] Instance short_digest : Digest := {|
  bincode_changes changes := [N.of_nat (length changes)];
  blake3 b := 1 + foldl (fun acc x => N.land (acc * 1000003 + x) 0xffffffffff) 7 b
|}.

(** ** Keys *)

Definition prefixes_differ (ks : list Hash) : bool :=
  forallb (fun k => forallb (fun k' => negb (key_prefix k =? key_prefix k') || (k =? k')) ks) ks.

Lemma prefixes_differ_ok ks : prefixes_differ ks = true -> distinct_prefixes (fun k => k ∈ ks).
Proof.
  unfold prefixes_differ. rewrite forallb_forall. intros H k k' Hk%list_elem_of_In Hk'%list_elem_of_In E.
  apply H in Hk. rewrite forallb_forall in Hk. apply Hk in Hk'. rewrite E, N.eqb_refl in Hk'.
  by apply N.eqb_eq.
Qed.

Definition op_fits (ks : list Hash) (op : batch_op) : bool :=
  match op.2 with
  | Some v => bool_decide (op.1 ∈ ks) && (N.of_nat (length v) <=? u32_max)
  | None => true
  end.

Lemma op_fits_ok ks op : op_fits ks op = true -> op_ok (fun k => k ∈ ks) op.
Proof.
  unfold op_fits. intros H v E. rewrite E in H. apply andb_true_iff in H as [Hk Hv].
  split; [by apply bool_decide_eq_true_1 in Hk|by apply N.leb_le].
Qed.

Lemma ops_fit_ok ks ops : forallb (op_fits ks) ops = true -> Forall (op_ok (fun k => k ∈ ks)) ops.
Proof.
  rewrite forallb_forall. intros H. apply Forall_forall. intros op Hop%list_elem_of_In.
  by apply op_fits_ok, H.
Qed.

(** The conditions on a concrete list of calls. *)
Ltac by_calls :=
  repeat (apply Forall_cons; split); try apply Forall_nil_2; cbn [call_ok state_call_ok];
  first [exact Logic.I | apply ops_fit_ok; vm_compute; reflexivity | apply op_fits_ok; vm_compute; reflexivity].

Definition three_keys : list Hash := [key_a; key_b; key_c].

Lemma three_keys_differ : distinct_prefixes (fun k => k ∈ three_keys).
Proof. apply prefixes_differ_ok. vm_compute. reflexivity. Qed.

(** ** One tree *)

Definition half : SpecFloat.spec_float := SpecFloat.S754_finite false 1 (-1).

Definition twig_calls : list TreeCall :=
  [CSet key_b [2]; CSet key_a [1; 1]; CRoot; CSet key_b [3]; CDelete key_a; CGet key_b;
   CBatch [(key_c, Some [7]); (key_a, Some []); (key_b, None)]; CCompact half; CDelete key_b; CRoot].

Lemma twig_tree_refines_log_witness :
  exists t, tree_calls twig_calls (twig_tree_new 99) = (t, Ok (log_replies twig_calls [])) /\
    forall k, twig_get k t = (t, Ok (foldl map_call ∅ twig_calls !! k)).
Proof.
  apply (twig_tree_refines_log (fun k => k ∈ three_keys)).
  - exact three_keys_differ.
  - by_calls.
  - vm_compute. discriminate.
Defined.

(** ** The sharded tree *)

(** The second node gets the operations of the batch in another order. *)
Definition first_node : list StateCall :=
  [SSet key_a [1]; SRoot; SBatch [(key_c, Some [7; 8]); (key_b, Some [2]); (key_a, None)];
   SRestart (N.of_nat <$> seq 5 16); SReserve 100; SGet key_b; SBatch [(key_a, Some [9])]].
Definition second_node : list StateCall :=
  [SSet key_a [1]; SRoot; SBatch [(key_a, None); (key_b, Some [2]); (key_c, Some [7; 8])];
   SRestart (N.of_nat <$> seq 70 16); SReserve 3; SGet key_b; SBatch [(key_a, Some [9])]].

Definition some_seeds : list N := N.of_nat <$> seq 40 16.
Definition other_seeds : list N := N.of_nat <$> seq 80 16.

Lemma first_node_fits : logs_fit (history_logs first_node).
Proof.
  unfold logs_fit. apply Forall_forall. intros log Hlog.
  assert (H : forallb (fun log => N.of_nat (length log) <=? TOMB) (history_logs first_node) = true)
    by (vm_compute; reflexivity).
  rewrite forallb_forall in H. by apply N.leb_le, H, list_elem_of_In.
Qed.

Lemma sharded_twig_refines_map_witness :
  exists s s',
    state_calls first_node (sharded_twig_new some_seeds) = (s, Ok (logs_replies first_node no_logs 0)) /\
    state_calls second_node (sharded_twig_new other_seeds) = (s', Ok (logs_replies first_node no_logs 0)) /\
    (forall k, sharded_twig_get k s = (s, Ok (history_map first_node !! k))) /\
    (forall k, sharded_twig_get k s' = (s', Ok (history_map first_node !! k))).
Proof.
  apply (sharded_twig_refines_map (fun k => k ∈ three_keys)).
  - exact three_keys_differ.
  - vm_compute. lia.
  - vm_compute. lia.
  - by_calls.
  - by_calls.
  - repeat (apply Forall2_cons; split); try apply Forall2_nil_2; try apply same_eq.
    + apply same_batch; apply (bool_decide_unpack _); vm_compute; exact Logic.I.
    + apply same_restart.
    + apply same_reserve.
  - exact first_node_fits.
Defined.

(** ** Proofs *)

Lemma short_b256 x : is_b256 (blake3 x).
Proof.
  unfold is_b256, blake3, short_digest.
  assert (H : forall acc l, acc < 2 ^ 40 ->
    foldl (fun acc x => N.land (acc * 1000003 + x) 0xffffffffff) acc l < 2 ^ 40).
  { intros acc l. revert acc. induction l as [|b l IH]; intros acc Ha; cbn [foldl]; [done|].
    apply IH. change 0xffffffffff with (N.ones 40). rewrite N.land_ones. by apply N.mod_lt. }
  assert (2 ^ 40 + 1 <= 256 ^ 32) by done. specialize (H 7 x ltac:(done)). lia.
Qed.

Definition two_entries : list StateCall := [SBatch [(key_a, Some [1; 2]); (key_b, Some [3])]].

(** The hash and the hashed inputs of a tree whose last leaves are null, without
    visiting the null subtrees. *)
Fixpoint null_inputs (h : nat) : list bytes :=
  match h with
  | O => []
  | S h => pair_input (null_hash h) (null_hash h) :: null_inputs h
  end.

Fixpoint sparse_tree (h : nat) (leaves : list HTree) : Hash * list bytes :=
  match leaves with
  | [] => (null_hash h, null_inputs h)
  | leaf :: _ =>
      match h with
      | O => (hhash leaf, hinputs leaf)
      | S h =>
          let '(hl, il) := sparse_tree h (take (2 ^ h) leaves) in
          let '(hr, ir) := sparse_tree h (drop (2 ^ h) leaves) in
          (hash_node hl hr, pair_input hl hr :: il ++ ir)
      end
  end.

Lemma sparse_tree_null leaf h i :
  (forall j, (j < 2 ^ h)%nat -> leaf (i * 2 ^ h + j)%nat = HNull) ->
  hhash (htree leaf h i) = null_hash h /\ hinputs (htree leaf h i) ⊆ null_inputs h.
Proof.
  revert i. induction h as [|h IH]; intros i Hl; cbn [htree null_hash null_inputs].
  { specialize (Hl 0%nat ltac:(cbn; lia)). cbn in Hl. rewrite Nat.mul_1_r, Nat.add_0_r in Hl. by rewrite Hl. }
  cbn [Nat.pow] in Hl.
  destruct (IH (2 * i)%nat) as [H1 H2].
  { intros j Hj. rewrite <- (Hl j) by lia. f_equal. lia. }
  destruct (IH (2 * i + 1)%nat) as [H3 H4].
  { intros j Hj. rewrite <- (Hl (2 ^ h + j)%nat) by lia. f_equal. lia. }
  cbn [hhash hinputs]. rewrite H1, H3. split; [done|].
  intros x [->|[Hx|Hx]%elem_of_app]%elem_of_cons; [left|right; auto..].
Qed.

Lemma sparse_tree_spec leaf h i leaves :
  (length leaves <= 2 ^ h)%nat ->
  (forall j, (j < 2 ^ h)%nat -> leaf (i * 2 ^ h + j)%nat = default HNull (leaves !! j)) ->
  hhash (htree leaf h i) = (sparse_tree h leaves).1 /\ hinputs (htree leaf h i) ⊆ (sparse_tree h leaves).2.
Proof.
  revert i leaves. induction h as [|h IH]; intros i leaves Hn Hl.
  all: destruct leaves as [|l0 leaves]; [by apply sparse_tree_null|cbn [sparse_tree htree]].
  { specialize (Hl 0%nat ltac:(cbn; lia)). cbn in Hl. rewrite Nat.mul_1_r, Nat.add_0_r in Hl. by rewrite Hl. }
  set (ls := l0 :: leaves) in *. cbn [Nat.pow] in Hl, Hn.
  destruct (IH (2 * i)%nat (take (2 ^ h) ls)) as [H1 H2].
  { rewrite length_take. lia. }
  { intros j Hj. rewrite lookup_take_lt, <- (Hl j) by lia. f_equal. lia. }
  destruct (IH (2 * i + 1)%nat (drop (2 ^ h) ls)) as [H3 H4].
  { rewrite length_drop. lia. }
  { intros j Hj. rewrite lookup_drop, <- (Hl (2 ^ h + j)%nat) by lia. f_equal. lia. }
  destruct (sparse_tree h (take _ _)) as [hl il], (sparse_tree h (drop _ _)) as [hr ir].
  cbn [hhash hinputs fst snd] in *. rewrite H1, H3. split; [done|].
  intros x [->|[Hx|Hx]%elem_of_app]%elem_of_cons; [left|right; apply elem_of_app..]; auto.
Qed.

(** The same for the log of a shard with at most one twig. *)
Definition sparse_log (log : Log) : Hash * list bytes :=
  match log with
  | [] => (NULL_HASH, [])
  | _ => sparse_tree TWIG_HEIGHT (entry_tree ∘ Some <$> log)
  end.

Lemma sparse_log_spec log :
  (length log <= TWIG_SIZE)%nat -> log_root log = (sparse_log log).1 /\ log_inputs log ⊆ (sparse_log log).2.
Proof.
  intros Hn. rewrite <- log_tree_hash. unfold log_inputs, sparse_log, log_tree.
  destruct log as [|e log]; [done|]. set (lg := e :: log) in *.
  assert (Hc : twig_count (length lg) = 1%nat).
  { unfold twig_count. symmetry. apply (Nat.div_unique _ _ _ (length lg - 1)); cbn [lg length] in *; lia. }
  rewrite Hc. cbn [Nat.log2_up htree Nat.ltb Nat.leb Nat.compare]. unfold twig_tree.
  apply sparse_tree_spec.
  - by rewrite length_fmap, <- twig_size_pow.
  - intros j _. rewrite !Nat.mul_0_l, !Nat.add_0_l, list_lookup_fmap. by destruct (lg !! j).
Qed.

Definition sparse_roots (logs : list Log) : list Hash := (fun log => (sparse_log log).1) <$> logs.
Definition sparse_inputs (logs : list Log) : list bytes :=
  (logs ≫= fun log => (sparse_log log).2) ++ level_inputs SHARD_BITS (sparse_roots logs).

Lemma sparse_logs_spec logs :
  Forall (fun log => (length log <= TWIG_SIZE)%nat) logs ->
  log_root <$> logs = sparse_roots logs /\ logs_inputs logs ⊆ sparse_inputs logs.
Proof.
  intros Hl. assert (E : log_root <$> logs = sparse_roots logs).
  { apply Forall_fmap_ext_1. eapply Forall_impl; [exact Hl|]. intros log Hn. by apply sparse_log_spec. }
  split; [done|]. unfold logs_inputs, sparse_inputs. rewrite E.
  intros x [Hx|Hx]%elem_of_app; apply elem_of_app; [left|by right].
  apply list_elem_of_bind in Hx as (log & Hx & Hin). apply list_elem_of_bind. exists log. split; [|done].
  apply (sparse_log_spec log); [|done]. by apply (proj1 (Forall_forall _ _) Hl).
Qed.

(** The proof of [key_a], read off the logs: the entry is the first of its shard. *)
Definition sample_logs : list Log := Eval vm_compute in history_logs two_entries.
Definition sample_shard : nat := Eval vm_compute in twig_shard_index key_a.
Definition sample_log : Log := Eval vm_compute in default [] (sample_logs !! sample_shard).
Definition sample_roots : list Hash := Eval vm_compute in sparse_roots sample_logs.
Definition sample_root : Hash := Eval vm_compute in default NULL_HASH (shard_tree_root sample_roots).
Definition sample_proof : ShardedTwigProof := Eval vm_compute in
  mkShardedTwigProof (N.of_nat sample_shard) (default 0 (sample_roots !! sample_shard))
    (default [] (shard_tree_path sample_roots sample_shard))
    (mkTwigProof key_a [1; 2] 0 (log_leaf sample_log 0 1 :: (null_hash <$> seq 1 10)) []).

Definition sample_inputs : list bytes :=
  Eval vm_compute in remove_dups (sparse_inputs sample_logs ++ sharded_proof_inputs sample_proof).

Lemma sample_logs_ok : history_logs two_entries = sample_logs.
Proof. vm_compute. reflexivity. Qed.

Lemma sample_logs_small : Forall (fun log => (length log <= TWIG_SIZE)%nat) sample_logs.
Proof.
  assert (H : Forall (fun log => (length log <= 2)%nat) sample_logs) by (vm_compute; repeat constructor).
  eapply Forall_impl; [exact H|]. intros log Hl. pose proof twig_size_pow as E. rewrite E.
  change 2%nat with (2 ^ 1)%nat in Hl. etrans; [exact Hl|]. apply Nat.pow_le_mono_r; [lia|]. vm_compute. lia.
Qed.

Lemma sample_root_ok : logs_root (history_logs two_entries) = sample_root.
Proof.
  unfold logs_root. rewrite sample_logs_ok, (proj1 (sparse_logs_spec _ sample_logs_small)).
  vm_compute. reflexivity.
Qed.

Lemma all_listed (l xs : list bytes) : forallb (fun x => bool_decide (x ∈ xs)) l = true -> l ⊆ xs.
Proof.
  rewrite forallb_forall. intros H x Hx%list_elem_of_In. by apply H, bool_decide_eq_true_1 in Hx.
Qed.

Lemma two_entries_fit : logs_fit (history_logs two_entries).
Proof.
  unfold logs_fit. apply Forall_forall. intros log Hlog.
  assert (H : forallb (fun log => N.of_nat (length log) <=? TOMB) (history_logs two_entries) = true)
    by (vm_compute; reflexivity).
  rewrite forallb_forall in H. by apply N.leb_le, H, list_elem_of_In.
Qed.

Lemma two_entries_values : no_node_values two_entries.
Proof.
  intros k v Hin. unfold two_entries in Hin. cbn in Hin.
  repeat (apply elem_of_cons in Hin as [[= -> ->]|Hin]; [split; [vm_compute; reflexivity|vm_compute; discriminate]|]).
  by apply not_elem_of_nil in Hin.
Qed.

Lemma sample_typed : sharded_proof_typed sample_proof.
Proof.
  split; [split|..].
  - vm_compute. reflexivity.
  - apply words_ok. vm_compute. reflexivity.
  - apply N.ltb_lt. vm_compute. reflexivity.
  - vm_compute. reflexivity.
  - apply words_ok. vm_compute. reflexivity.
  - apply N.ltb_lt. vm_compute. reflexivity.
Qed.

(** The proof of the first key is made and accepted, and accepted proofs are right. *)
Lemma sharded_twig_proofs_exact_witness :
  exists s p,
    (state_calls two_entries ;; sharded_twig_root) (sharded_twig_new some_seeds) = (s, Ok sample_root) /\
    sharded_twig_prove key_a s = (s, Ok (Some p)) /\ tp_value (stp_inner p) = [1; 2] /\
    sharded_twig_verify_for_key p sample_root key_a = Ok tt /\
    sharded_twig_prove key_c s = (s, Ok None) /\
    history_map two_entries !! key_a = Some (tp_value (stp_inner sample_proof)).
Proof.
  destruct (sharded_twig_proofs_exact (fun k => k ∈ three_keys) some_seeds two_entries three_keys_differ)
    as (s & E & Hcomplete & Hsound).
  - vm_compute. lia.
  - by_calls.
  - exact two_entries_fit.
  - rewrite sample_root_ok in *. pose proof (Hcomplete key_a) as Ha.
    replace (history_map two_entries !! key_a) with (Some [1; 2]) in Ha by (vm_compute; reflexivity).
    destruct Ha as (p & Hp & Hv & Hver). exists s, p. split_and!; [done..| |].
    + pose proof (Hcomplete key_c) as Hc.
      by replace (history_map two_entries !! key_c) with (@None bytes) in Hc by (vm_compute; reflexivity).
    + apply (Hsound sample_inputs sample_proof key_a).
      * exact short_b256.
      * apply collision_free_ok. vm_compute. reflexivity.
      * rewrite sample_logs_ok. etrans; [apply (sparse_logs_spec _ sample_logs_small)|].
        apply all_listed. vm_compute. reflexivity.
      * apply all_listed. vm_compute. reflexivity.
      * exact sample_typed.
      * exact two_entries_values.
      * vm_compute. discriminate.
      * vm_compute. reflexivity.
Defined.

(** ** Snapshots *)

Definition shard_wf_check (i : nat) (s : ShardSnapshot) : bool :=
  forallb (fun e => (twig_shard_index (es_key e) =? i)%nat) (ss_entries s) &&
  (ss_next_slot s =? N.of_nat (length (ss_entries s))) &&
  forallb (fun e => N.of_nat (length (es_value e)) <=? u32_max) (ss_entries s) &&
  bool_decide (NoDup (prefixes (snap_log (ss_entries s)))).

Lemma shard_wf_check_ok i s : shard_wf_check i s = true -> shard_wf i s.
Proof.
  unfold shard_wf_check. rewrite !andb_true_iff, !forallb_forall. intros [[[H1 H2] H3] H4]. split.
  - apply Forall_forall. intros e He%list_elem_of_In. by apply Nat.eqb_eq, H1.
  - by apply N.eqb_eq.
  - apply Forall_forall. intros e He%list_elem_of_In. by apply N.leb_le, H3.
  - by apply bool_decide_eq_true_1 in H4.
Qed.

(** One inactive and two active entries; a copy lost its last shard. *)
Definition some_entries : list EntrySnapshot :=
  [mkEntrySnapshot key_a [] false; mkEntrySnapshot key_b [3] true; mkEntrySnapshot key_a [1; 2] true].
Definition shard_of_entries (i : nat) : ShardSnapshot :=
  let es := filter (fun e => twig_shard_index (es_key e) = i) some_entries in
  mkShardSnapshot (N.of_nat (length es)) es.
Definition whole_snapshot : TwigSnapshot := Eval vm_compute in mkTwigSnapshot 9 (shard_of_entries <$> seq 0 16).
Definition cut_snapshot : TwigSnapshot := Eval vm_compute in mkTwigSnapshot 9 (shard_of_entries <$> seq 0 15).

Lemma whole_snapshot_wf : snapshot_wf whole_snapshot.
Proof.
  split; [reflexivity|]. intros i s Hi. apply shard_wf_check_ok.
  assert (H : forallb (fun p : nat * ShardSnapshot => shard_wf_check p.1 p.2)
    (imap pair (ts_shards whole_snapshot)) = true) by (vm_compute; reflexivity).
  rewrite forallb_forall in H. apply (H (i, s)). apply list_elem_of_In.
  apply (list_elem_of_lookup_2 _ i). by rewrite list_lookup_imap, Hi.
Qed.

Lemma twig_restore_exact_witness :
  (exists t t', sharded_try_from_snapshot some_seeds whole_snapshot = Ok t /\ sh_version t = 9 /\
     sharded_twig_root t = (t', Ok (logs_root (snapshot_logs whole_snapshot))) /\
     sharded_twig_get key_a t = (t, Ok (Some [1; 2])) /\ sharded_twig_get key_c t = (t, Ok None)) /\
  exists e, sharded_try_from_snapshot some_seeds cut_snapshot = Err e.
Proof.
  assert (Hfit : forall snap, length (ts_shards snap ≫= ss_entries) = 3%nat -> snapshot_fits snap).
  { intros snap H. apply Forall_forall. intros s (l1 & l2 & E)%list_elem_of_split.
    rewrite E, bind_app, bind_cons, !length_app in H.
    assert (N.of_nat (length (ss_entries s)) <= 3) by lia. etrans; [eassumption|done]. }
  split.
  - destruct (twig_restore_exact some_seeds whole_snapshot) as [H _]; [by apply Hfit|].
    destruct (H whole_snapshot_wf) as (t & t' & E & Hv & Hr & Hg). exists t, t'. split_and!; [done..| |].
    + rewrite Hg. vm_compute. reflexivity.
    + rewrite Hg. vm_compute. reflexivity.
  - apply (twig_restore_exact some_seeds cut_snapshot); [by apply Hfit|]. intros [H _]. discriminate H.
Defined.

(** ** Both engines *)

Definition engine_ops : list EngineOp :=
  [ESeed alice 100 0 EMPTY_CODE_HASH [(1, 5)]; EDiff (mkStateDiff [(bob, created 7 [(3, 9); (4, 8)])]);
   EDiff (mkStateDiff [(0xdead, paid 1)]); ERestart (@id _) some_seeds;
   EDiff (mkStateDiff [(alice, gone); (bob, paid 55)]); EGet 77].
Definition engine_keys : list Hash := Eval vm_compute in
  [@account_key poly_digest alice; @account_key poly_digest bob; @account_key poly_digest 0xdead] ++
  [@storage_key poly_digest alice 1] ++ (@storage_key poly_digest bob <$> [3; 4]) ++
  [@storage_key poly_digest 0xdead 3].

Lemma state_engines_agree_witness :
  exists replies, @sbmt_run poly_digest engine_ops = Ok replies /\
    @twig_run poly_digest other_seeds engine_ops = Ok replies.
Proof.
  apply (@state_engines_agree poly_digest (fun k => k ∈ engine_keys)).
  - exact poly_b256.
  - apply prefixes_differ_ok. vm_compute. reflexivity.
  - vm_compute. lia.
  - unfold engine_ops. repeat (apply Forall_cons; split); try apply Forall_nil_2; cbn [engine_op_ok sd_accounts].
    all: first [exact Logic.I | intros l; reflexivity | apply (bool_decide_unpack _); vm_compute; exact Logic.I].
  - vm_compute. discriminate.
Defined.
