(* ===== verification/MvMemory.v ===== *)
(** * The multi-version memory of the parallel executor

    [crates/n42-parallel-evm/src/mv_memory.rs] and [types.rs].  The concurrent
    maps are shared by all workers, and another worker may run between any two
    operations on them: a method is the list of its atomic operations
    ([MvOp]), each of which touches the entries of one transaction. *)

From S2P Require Import Prelude.

(** A transaction index within the block. *)
Abbreviation TxIdx := nat (only parsing).

Definition KECCAK_EMPTY : B256 :=
  0xc5d2460186f7233c927e7db2dcc703c0e500b653ca82273b7bfad8045d85a470.

(** revm's [AccountInfo]; the code itself is looked up by its hash. *)
Record AccountInfo : Type := mkAccountInfo {
  ai_balance : N;
  ai_nonce : N;
  ai_code_hash : B256
}.
Definition AccountInfo_default : AccountInfo := mkAccountInfo 0 0 KECCAK_EMPTY.

Inductive LocationKey : Type :=
| KAccount (address : Address)
| KStorage (address : Address) (slot : N).

Record AccountSnapshot : Type := mkAccountSnapshot {
  as_balance : N;
  as_nonce : N;
  as_code_hash : B256
}.
Definition snapshot_of (info : option AccountInfo) : option AccountSnapshot :=
  (fun i => mkAccountSnapshot (ai_balance i) (ai_nonce i) (ai_code_hash i)) <$> info.

Inductive ReadValue : Type :=
| VAccount (snapshot : option AccountSnapshot)
| VStorage (value : N).

Record ReadEntry : Type := mkReadEntry { re_key : LocationKey; re_value : ReadValue }.

Inductive AccountWrite : Type :=
| Updated (info : AccountInfo)
| Recreated (info : AccountInfo)
| DestroyedAccount.

Inductive MvRead (T : Type) : Type :=
| MvValue (source : TxIdx) (value : T)
| NotFound.
Arguments MvValue {T} _ _.
Arguments NotFound {T}.

Inductive WriteKey : Type :=
| WAccount (address : Address)
| WStorage (address : Address) (slot : N)
| WStorageWipe (address : Address).

#[export] Instance account_info_eq_dec : EqDecision AccountInfo.
Proof. solve_decision. Defined.
#[export] Instance account_snapshot_eq_dec : EqDecision AccountSnapshot.
Proof. solve_decision. Defined.
#[export] Instance read_value_eq_dec : EqDecision ReadValue.
Proof. solve_decision. Defined.
#[export] Instance write_key_eq_dec : EqDecision WriteKey.
Proof. solve_decision. Defined.

Record MvMemory : Type := mkMvMemory {
  mv_accounts : gmap Address (gmap TxIdx (option AccountInfo));
  mv_storage : gmap (Address * N) (gmap TxIdx N);
  mv_wipes : gmap Address (gmap TxIdx unit);
  mv_code : gmap B256 bytes;
  mv_tx_writes : gmap TxIdx (list WriteKey);
  mv_bene_deltas : gmap TxIdx N
}.

Definition mv_new : MvMemory := mkMvMemory ∅ ∅ ∅ ∅ ∅ ∅.

(** ** Reads *)

(** [versions.range(..reader).next_back()] *)
Fixpoint latest {V} (versions : gmap TxIdx V) (reader : TxIdx) : option (TxIdx * V) :=
  match reader with
  | O => None
  | S i =>
      match versions !! i with
      | Some v => Some (i, v)
      | None => latest versions i
      end
  end.

Definition latest_of {K V} `{Countable K} (m : gmap K (gmap TxIdx V)) (k : K) (reader : TxIdx)
  : option (TxIdx * V) :=
  versions ← m !! k; latest versions reader.

Definition read_account (mv : MvMemory) (reader : TxIdx) (addr : Address)
  : MvRead (option AccountInfo) :=
  match latest_of (mv_accounts mv) addr reader with
  | Some (src, info) => MvValue src info
  | None => NotFound
  end.

Definition read_storage (mv : MvMemory) (reader : TxIdx) (addr : Address) (slot : N) : MvRead N :=
  let latest_slot := latest_of (mv_storage mv) (addr, slot) reader in
  let latest_wipe := fst <$> latest_of (mv_wipes mv) addr reader in
  match latest_slot, latest_wipe with
  | Some (slot_tx, value), Some wipe_tx =>
      if (slot_tx <? wipe_tx)%nat then MvValue wipe_tx 0 else MvValue slot_tx value
  | Some (slot_tx, value), None => MvValue slot_tx value
  | None, Some wipe_tx => MvValue wipe_tx 0
  | None, None => NotFound
  end.

Definition get_code (mv : MvMemory) (hash : B256) : option bytes := mv_code mv !! hash.

(** [self.code.entry(hash).or_insert(code)] *)
Definition cache_code (hash : B256) (code : bytes) (mv : MvMemory) : MvMemory :=
  mkMvMemory (mv_accounts mv) (mv_storage mv) (mv_wipes mv)
    (match mv_code mv !! hash with Some _ => mv_code mv | None => <[hash := code]> (mv_code mv) end)
    (mv_tx_writes mv) (mv_bene_deltas mv).

(** [U256::saturating_add]; addition commutes, so the order of the iteration
    does not matter. *)
Definition U256_MAX : N := 2 ^ 256 - 1.
Definition u256_sat_add (a b : N) : N := N.min (a + b) U256_MAX.
Definition sum_bene_deltas (mv : MvMemory) : N :=
  map_fold (fun _ delta acc => u256_sat_add acc delta) 0 (mv_bene_deltas mv).

(** ** Atomic operations on the entries of one transaction *)

Inductive MvOp : Type :=
| InsertAccount (addr : Address) (info : option AccountInfo)
| InsertWipe (addr : Address)
| InsertStorage (addr : Address) (slot : N) (value : N)
| LogWrite (key : WriteKey)
| InsertDelta (delta : N)
| RemoveAccount (addr : Address)
| RemoveStorage (addr : Address) (slot : N)
| RemoveWipe (addr : Address)
| RemoveDelta
| RemoveLog.

(** [entry(k).or_insert_with(..).insert(tx, v)] and
    [if let Some(entry) = get(k) { entry.remove(&tx) }] *)
Definition insert_version {K V} `{Countable K} (k : K) (i : TxIdx) (v : V)
  (m : gmap K (gmap TxIdx V)) : gmap K (gmap TxIdx V) :=
  <[k := <[i := v]> (default ∅ (m !! k))]> m.
Definition remove_version {K V} `{Countable K} (k : K) (i : TxIdx)
  (m : gmap K (gmap TxIdx V)) : gmap K (gmap TxIdx V) :=
  alter (delete i) k m.

Definition apply_op (i : TxIdx) (op : MvOp) (mv : MvMemory) : MvMemory :=
  let '(mkMvMemory accounts storage wipes code writes deltas) := mv in
  match op with
  | InsertAccount addr info =>
      mkMvMemory (insert_version addr i info accounts) storage wipes code writes deltas
  | InsertWipe addr =>
      mkMvMemory accounts storage (insert_version addr i tt wipes) code writes deltas
  | InsertStorage addr slot value =>
      mkMvMemory accounts (insert_version (addr, slot) i value storage) wipes code writes deltas
  | LogWrite key =>
      mkMvMemory accounts storage wipes code
        (<[i := default [] (writes !! i) ++ [key]]> writes) deltas
  | InsertDelta delta => mkMvMemory accounts storage wipes code writes (<[i := delta]> deltas)
  | RemoveAccount addr =>
      mkMvMemory (remove_version addr i accounts) storage wipes code writes deltas
  | RemoveStorage addr slot =>
      mkMvMemory accounts (remove_version (addr, slot) i storage) wipes code writes deltas
  | RemoveWipe addr => mkMvMemory accounts storage (remove_version addr i wipes) code writes deltas
  | RemoveDelta => mkMvMemory accounts storage wipes code writes (delete i deltas)
  | RemoveLog => mkMvMemory accounts storage wipes code (delete i writes) deltas
  end.

(** The operations of the methods, in order. *)
Definition write_account (addr : Address) (write : AccountWrite) : list MvOp :=
  let info := match write with
              | Updated info | Recreated info => Some info
              | DestroyedAccount => None
              end in
  [InsertAccount addr info; LogWrite (WAccount addr)] ++
  match write with
  | DestroyedAccount | Recreated _ => [InsertWipe addr; LogWrite (WStorageWipe addr)]
  | Updated _ => []
  end.

Definition write_storage (addr : Address) (slot value : N) : list MvOp :=
  [InsertStorage addr slot value; LogWrite (WStorage addr slot)].

Definition record_bene_delta (delta : N) : list MvOp := [InsertDelta delta].

(** [clear_tx] removes the delta, takes the log and removes what the log lists. *)
Definition clear_write (key : WriteKey) : MvOp :=
  match key with
  | WAccount addr => RemoveAccount addr
  | WStorage addr slot => RemoveStorage addr slot
  | WStorageWipe addr => RemoveWipe addr
  end.
Definition tx_writes_of (mv : MvMemory) (i : TxIdx) : list WriteKey :=
  default [] (mv_tx_writes mv !! i).
Definition clear_tx (i : TxIdx) (mv : MvMemory) : MvMemory :=
  foldl (flip (apply_op i)) mv ([RemoveDelta; RemoveLog] ++ (clear_write <$> tx_writes_of mv i)).

Definition apply_ops (i : TxIdx) (ops : list MvOp) (mv : MvMemory) : MvMemory :=
  foldl (flip (apply_op i)) mv ops.

(** ** What one transaction has in the memory *)

Record Slice : Type := mkSlice {
  sl_accounts : gmap Address (option AccountInfo);
  sl_storage : gmap (Address * N) N;
  sl_wipes : gmap Address unit;
  sl_log : list WriteKey;
  sl_delta : option N
}.

Definition slice (i : TxIdx) (mv : MvMemory) : Slice :=
  mkSlice (omap (lookup i) (mv_accounts mv)) (omap (lookup i) (mv_storage mv))
    (omap (lookup i) (mv_wipes mv)) (tx_writes_of mv i) (mv_bene_deltas mv !! i).

Definition empty_slice : Slice := mkSlice ∅ ∅ ∅ [] None.

Definition slice_op (op : MvOp) (s : Slice) : Slice :=
  let '(mkSlice accounts storage wipes log delta) := s in
  match op with
  | InsertAccount addr info => mkSlice (<[addr := info]> accounts) storage wipes log delta
  | InsertWipe addr => mkSlice accounts storage (<[addr := tt]> wipes) log delta
  | InsertStorage addr slot value =>
      mkSlice accounts (<[(addr, slot) := value]> storage) wipes log delta
  | LogWrite key => mkSlice accounts storage wipes (log ++ [key]) delta
  | InsertDelta d => mkSlice accounts storage wipes log (Some d)
  | RemoveAccount addr => mkSlice (delete addr accounts) storage wipes log delta
  | RemoveStorage addr slot => mkSlice accounts (delete (addr, slot) storage) wipes log delta
  | RemoveWipe addr => mkSlice accounts storage (delete addr wipes) log delta
  | RemoveDelta => mkSlice accounts storage wipes log None
  | RemoveLog => mkSlice accounts storage wipes [] delta
  end.
Definition slice_ops (ops : list MvOp) (s : Slice) : Slice := foldl (flip slice_op) s ops.

Section versions.
Context {K V : Type} `{Countable K}.
Implicit Types m : gmap K (gmap TxIdx V).

Lemma omap_insert_version_eq k i v m :
  omap (lookup i) (insert_version k i v m) = <[k := v]> (omap (lookup i) m).
Proof.
  apply map_eq. intros k'. unfold insert_version. rewrite lookup_omap.
  destruct (decide (k = k')) as [<-|Hk].
  - by rewrite !lookup_insert_eq; cbn; rewrite lookup_insert_eq.
  - by rewrite !lookup_insert_ne, lookup_omap by done.
Qed.

Lemma omap_insert_version_ne k i j v m :
  i ≠ j -> omap (lookup j) (insert_version k i v m) = omap (lookup j) m.
Proof.
  intros Hij. apply map_eq. intros k'. unfold insert_version. rewrite !lookup_omap.
  destruct (decide (k = k')) as [<-|Hk]; [|by rewrite lookup_insert_ne].
  rewrite lookup_insert_eq. cbn. rewrite lookup_insert_ne by done. by destruct (m !! k).
Qed.

Lemma omap_remove_version_eq k i m :
  omap (lookup i) (remove_version k i m) = delete k (omap (lookup i) m).
Proof.
  apply map_eq. intros k'. unfold remove_version. rewrite lookup_omap.
  destruct (decide (k = k')) as [<-|Hk].
  - rewrite lookup_alter_eq, lookup_delete_eq. destruct (m !! k); cbn; [|done].
    by rewrite lookup_delete_eq.
  - by rewrite lookup_alter_ne, lookup_delete_ne, lookup_omap by done.
Qed.

Lemma omap_remove_version_ne k i j m :
  i ≠ j -> omap (lookup j) (remove_version k i m) = omap (lookup j) m.
Proof.
  intros Hij. apply map_eq. intros k'. unfold remove_version. rewrite !lookup_omap.
  destruct (decide (k = k')) as [<-|Hk]; [|by rewrite lookup_alter_ne].
  rewrite lookup_alter_eq. destruct (m !! k); cbn; [|done]. by rewrite lookup_delete_ne.
Qed.

(** Only the versions below the reader count. *)
Lemma latest_ext (v v' : gmap TxIdx V) reader :
  (forall i, (i < reader)%nat -> v !! i = v' !! i) -> latest v reader = latest v' reader.
Proof.
  induction reader as [|i IH]; intros E; [done|]. cbn [latest].
  rewrite (E i) by lia. destruct (v' !! i); [done|]. apply IH. intros j Hj. apply E. lia.
Qed.

Lemma latest_omap k m m' reader :
  (forall i, (i < reader)%nat -> omap (lookup i) m !! k = omap (lookup i) m' !! k) ->
  latest_of m k reader = latest_of m' k reader.
Proof.
  intros E. setoid_rewrite lookup_omap in E.
  assert (Hd : forall o : option (gmap TxIdx V),
    (versions ← o; latest versions reader) = latest (default ∅ o) reader).
  { intros [v|]; [done|]. cbn. symmetry. clear E. induction reader; [done|]. by cbn. }
  unfold latest_of. rewrite !Hd. apply latest_ext. intros i Hi. specialize (E i Hi).
  by destruct (m !! k), (m' !! k); cbn in *.
Qed.
End versions.

Lemma slice_apply_op i op mv : slice i (apply_op i op mv) = slice_op op (slice i mv).
Proof.
  destruct mv as [a s w c l d], op; unfold slice; cbn; unfold tx_writes_of; cbn;
    rewrite ?omap_insert_version_eq, ?omap_remove_version_eq, ?lookup_insert_eq, ?lookup_delete_eq;
    done.
Qed.

Lemma slice_apply_op_ne i j op mv : i ≠ j -> slice j (apply_op i op mv) = slice j mv.
Proof.
  intros Hij. destruct mv as [a s w c l d], op; unfold slice; cbn; unfold tx_writes_of; cbn;
    rewrite ?omap_insert_version_ne, ?omap_remove_version_ne, ?lookup_insert_ne, ?lookup_delete_ne
      by done; done.
Qed.

Lemma slice_apply_ops i ops mv : slice i (apply_ops i ops mv) = slice_ops ops (slice i mv).
Proof.
  revert mv. induction ops as [|op ops IH]; intros mv; [done|]. cbn.
  unfold apply_ops, slice_ops in IH. by rewrite IH, slice_apply_op.
Qed.

Lemma slice_apply_ops_ne i j ops mv : i ≠ j -> slice j (apply_ops i ops mv) = slice j mv.
Proof.
  intros Hij. revert mv. induction ops as [|op ops IH]; intros mv; [done|]. cbn.
  unfold apply_ops in IH. by rewrite IH, slice_apply_op_ne.
Qed.

Lemma code_apply_op i op mv : mv_code (apply_op i op mv) = mv_code mv.
Proof. by destruct mv, op. Qed.

Lemma slice_cache_code i h c mv : slice i (cache_code h c mv) = slice i mv.
Proof. done. Qed.

(** What a transaction reads depends on the transactions before it only. *)
Definition same_below (reader : TxIdx) (mv mv' : MvMemory) : Prop :=
  forall i, (i < reader)%nat -> slice i mv = slice i mv'.

Lemma read_account_below mv mv' reader addr :
  same_below reader mv mv' -> read_account mv reader addr = read_account mv' reader addr.
Proof.
  intros H. unfold read_account.
  rewrite (latest_omap addr (mv_accounts mv) (mv_accounts mv') reader); [done|]. intros i Hi.
  exact (f_equal (fun s => sl_accounts s !! addr) (H i Hi)).
Qed.

Lemma read_storage_below mv mv' reader addr slot :
  same_below reader mv mv' -> read_storage mv reader addr slot = read_storage mv' reader addr slot.
Proof.
  intros H. unfold read_storage. cbv zeta.
  rewrite (latest_omap (addr, slot) (mv_storage mv) (mv_storage mv') reader).
  - rewrite (latest_omap addr (mv_wipes mv) (mv_wipes mv') reader); [done|].
    intros i Hi. exact (f_equal (fun s => sl_wipes s !! addr) (H i Hi)).
  - intros i Hi. exact (f_equal (fun s => sl_storage s !! (addr, slot)) (H i Hi)).
Qed.

(** ** Clearing *)

(** Everything a transaction has in the memory is in its log. *)
Record logged (s : Slice) : Prop := {
  lg_accounts : forall a, is_Some (sl_accounts s !! a) -> WAccount a ∈ sl_log s;
  lg_storage : forall a k, is_Some (sl_storage s !! (a, k)) -> WStorage a k ∈ sl_log s;
  lg_wipes : forall a, is_Some (sl_wipes s !! a) -> WStorageWipe a ∈ sl_log s
}.

Lemma slice_ops_cons op ops s : slice_ops (op :: ops) s = slice_ops ops (slice_op op s).
Proof. done. Qed.

Ltac clear_cases := repeat case_decide; try done; exfalso; set_solver.

Lemma clear_accounts keys s a :
  sl_accounts (slice_ops (clear_write <$> keys) s) !! a =
  if decide (WAccount a ∈ keys) then None else sl_accounts s !! a.
Proof.
  revert s. induction keys as [|key keys IH]; intros s; [done|]. rewrite fmap_cons, slice_ops_cons, IH.
  destruct s, key as [b|b k|b]; cbn; rewrite ?lookup_delete; clear_cases.
Qed.

Lemma clear_storage keys s a k :
  sl_storage (slice_ops (clear_write <$> keys) s) !! (a, k) =
  if decide (WStorage a k ∈ keys) then None else sl_storage s !! (a, k).
Proof.
  revert s. induction keys as [|key keys IH]; intros s; [done|]. rewrite fmap_cons, slice_ops_cons, IH.
  destruct s, key as [b|b l|b]; cbn; rewrite ?lookup_delete; clear_cases.
Qed.

Lemma clear_wipes keys s a :
  sl_wipes (slice_ops (clear_write <$> keys) s) !! a =
  if decide (WStorageWipe a ∈ keys) then None else sl_wipes s !! a.
Proof.
  revert s. induction keys as [|key keys IH]; intros s; [done|]. rewrite fmap_cons, slice_ops_cons, IH.
  destruct s, key as [b|b k|b]; cbn; rewrite ?lookup_delete; clear_cases.
Qed.

Lemma clear_rest keys s :
  sl_log (slice_ops (clear_write <$> keys) s) = sl_log s /\
  sl_delta (slice_ops (clear_write <$> keys) s) = sl_delta s.
Proof.
  revert s. induction keys as [|key keys IH]; intros s; [done|]. rewrite fmap_cons, slice_ops_cons.
  destruct (IH (slice_op (clear_write key) s)) as [-> ->]. by destruct s, key.
Qed.

(** [clear_tx] leaves nothing of a transaction that logged what it wrote. *)
Lemma clear_logged s :
  logged s ->
  slice_ops (clear_write <$> sl_log s) (slice_op RemoveLog (slice_op RemoveDelta s)) = empty_slice.
Proof.
  intros [Ha Hs Hw]. set (s' := slice_op RemoveLog (slice_op RemoveDelta s)).
  destruct (clear_rest (sl_log s) s') as [Hl Hd].
  destruct (slice_ops (clear_write <$> sl_log s) s') as [a st w l d] eqn:E. cbn in Hl, Hd.
  assert (Hrest : sl_log s' = [] /\ sl_delta s' = None) by (by destruct s).
  destruct Hrest as [E1 E2]. rewrite E1 in Hl. rewrite E2 in Hd. subst l d.
  unfold empty_slice. f_equal; apply map_eq.
  - intros x. pose proof (clear_accounts (sl_log s) s' x) as H. rewrite E in H. cbn in H.
    rewrite H, lookup_empty. case_decide as Hx; [done|]. apply eq_None_not_Some. intros Hn.
    apply Hx, Ha. by destruct s.
  - intros [x k]. pose proof (clear_storage (sl_log s) s' x k) as H. rewrite E in H. cbn in H.
    rewrite H, lookup_empty. case_decide as Hx; [done|]. apply eq_None_not_Some. intros Hn.
    apply Hx, Hs. by destruct s.
  - intros x. pose proof (clear_wipes (sl_log s) s' x) as H. rewrite E in H. cbn in H.
    rewrite H, lookup_empty. case_decide as Hx; [done|]. apply eq_None_not_Some. intros Hn.
    apply Hx, Hw. by destruct s.
Qed.
