(* ===== verification/BlockStm.v ===== *)
(** * The parallel executor ([crates/n42-parallel-evm])

    One transaction against the multi-version memory ([execution.rs],
    [parallel_db.rs], [coinbase.rs]), the scheduler ([scheduler.rs]), the worker
    loop ([worker.rs]) and the assembly of the block ([output.rs], [lib.rs]).

    revm is the class [Revm]: a transaction is a deterministic program that asks
    the database and ends with a result.  The workers interleave at every access
    to the shared memory; the calls to the scheduler are atomic in this file, and
    taken apart in [BlockStmRaces]. *)

From S2P Require Import Prelude Effects MvMemory.

(** ** The database and revm *)

(** [DatabaseRef]: [None] is an error. *)
Class BaseDb : Type := {
  basic_ref : Address -> option (option AccountInfo);
  storage_ref : Address -> N -> option N;
  code_by_hash_ref : B256 -> option bytes;
  block_hash_ref : N -> option B256
}.

Record EvmSlot : Type := mkEvmSlot { present_value : N; is_changed : bool }.
Record EvmAccount : Type := mkEvmAccount {
  ea_info : AccountInfo;
  is_touched : bool;
  is_selfdestructed : bool;
  is_created : bool;
  ea_storage : list (N * EvmSlot)
}.
Record EvmResult : Type := mkEvmResult {
  er_gas_used : N;
  er_success : bool;
  er_logs : list bytes;
  er_state : list (Address * EvmAccount)
}.

(** [ExecuteEvm::transact]: [Reject] is its [Err]. *)
Inductive Evm : Type :=
| Halt (r : EvmResult)
| Reject
| Basic (address : Address) (k : option AccountInfo -> Evm)
| Storage (address : Address) (index : N) (k : N -> Evm)
| CodeByHash (code_hash : B256) (k : bytes -> Evm)
| BlockHash (number : N) (k : B256 -> Evm).

Class Revm : Type := {
  TxEnv : Type;
  caller : TxEnv -> Address;
  transact : TxEnv -> Evm
}.

(** ** Outputs *)

Record TxOutputInternal : Type := mkTxOutput {
  to_gas_used : N;
  to_success : bool;
  to_logs : list bytes;
  to_account_writes : list (Address * AccountWrite);
  to_storage_writes : list (Address * N * N);
  to_read_set : list ReadEntry;
  to_bene_delta : option N;
  to_deferred_bene_invalidated : bool
}.

Record TxResult : Type := mkTxResult {
  tr_gas_used : N;
  tr_success : bool;
  tr_logs : list bytes
}.

(** revm's [Account] in the block output: the storage keeps the present value
    and the transaction of a slot. *)
Record Account : Type := mkAccount {
  ac_info : AccountInfo;
  ac_storage : gmap N (N * TxIdx);
  ac_selfdestructed : bool;
  ac_created : bool;
  ac_touched : bool;
  ac_tx : TxIdx
}.
Definition new_not_existing (tx_id : TxIdx) : Account :=
  mkAccount AccountInfo_default ∅ false false false tx_id.

Record ParallelExecutionOutput : Type := mkParallelOutput {
  po_results : list TxResult;
  po_state_changes : gmap Address Account
}.

Inductive ParallelEvmError : Type :=
| Database
| TooManyRounds (rounds : nat)
| BlockTooLarge (tx_count : nat).

Definition merge_account (tx_id : TxIdx) (changes : gmap Address Account)
  (aw : Address * AccountWrite) : gmap Address Account :=
  let account := default (new_not_existing tx_id) (changes !! aw.1) in
  <[aw.1 := match aw.2 with
            | Updated info =>
                mkAccount info (ac_storage account) false (ac_created account) true (ac_tx account)
            | Recreated info => mkAccount info ∅ false true true (ac_tx account)
            | DestroyedAccount =>
                mkAccount (ac_info account) ∅ true (ac_created account) (ac_touched account)
                  (ac_tx account)
            end]> changes.

Definition merge_slot (tx_id : TxIdx) (changes : gmap Address Account) (sw : Address * N * N)
  : gmap Address Account :=
  let '(addr, slot, value) := sw in
  let account := default (new_not_existing tx_id) (changes !! addr) in
  <[addr := mkAccount (ac_info account) (<[slot := (value, tx_id)]> (ac_storage account))
              (ac_selfdestructed account) (ac_created account) (ac_touched account)
              (ac_tx account)]> changes.

Definition merge_tx_state (changes : gmap Address Account) (tx_idx : TxIdx)
  (account_writes : list (Address * AccountWrite)) (storage_writes : list (Address * N * N))
  : gmap Address Account :=
  foldl (merge_slot tx_idx) (foldl (merge_account tx_idx) changes account_writes) storage_writes.

Definition tx_result (out : TxOutputInternal) : TxResult :=
  mkTxResult (to_gas_used out) (to_success out) (to_logs out).

Fixpoint build_output_from (tx_idx : TxIdx) (outputs : list (option TxOutputInternal))
  (acc : ParallelExecutionOutput) : result ParallelEvmError ParallelExecutionOutput :=
  match outputs with
  | [] => Ok acc
  | None :: _ => Err Database
  | Some out :: outputs =>
      build_output_from (S tx_idx) outputs
        (mkParallelOutput (po_results acc ++ [tx_result out])
           (merge_tx_state (po_state_changes acc) tx_idx (to_account_writes out)
              (to_storage_writes out)))
  end.
Definition build_output (outputs : list (option TxOutputInternal))
  : result ParallelEvmError ParallelExecutionOutput :=
  build_output_from 0%nat outputs (mkParallelOutput [] ∅).

(** ** The deferred beneficiary *)

Record DeferredCoinbase : Type := mkDeferredCoinbase {
  dc_bene : Address;
  dc_base : option AccountInfo
}.

Inductive CoinbasePlan : Type :=
| Defer (dc : DeferredCoinbase)
| NoDefer
| Sequential.

Definition extract_delta (cb : DeferredCoinbase) (account : EvmAccount) : option N :=
  let base := default AccountInfo_default (dc_base cb) in
  if (ai_nonce (ea_info account) =? ai_nonce base)
     && (ai_code_hash (ea_info account) =? ai_code_hash base)
  then Some (ai_balance (ea_info account) - ai_balance base)
  else None.

Definition materialize (cb : DeferredCoinbase) (sum : N) (output : ParallelExecutionOutput)
  : ParallelExecutionOutput :=
  if sum =? 0 then output
  else
    let base := default AccountInfo_default (dc_base cb) in
    let info := mkAccountInfo (u256_sat_add (ai_balance base) sum) (ai_nonce base)
                  (ai_code_hash base) in
    let account := default (new_not_existing 0%nat) (po_state_changes output !! dc_bene cb) in
    mkParallelOutput (po_results output)
      (<[dc_bene cb := mkAccount info (ac_storage account) (ac_selfdestructed account)
                         (ac_created account) true (ac_tx account)]> (po_state_changes output)).

(** ** One transaction *)

Definition failed_output (read_set : list ReadEntry) : TxOutputInternal :=
  mkTxOutput 0 false [] [] [] read_set None false.

Definition changed_slots (addr : Address) (account : EvmAccount) : list (Address * N * N) :=
  (fun '(slot, storage) => (addr, slot, present_value storage))
    <$> filter (fun ss => is_changed ss.2 = true) (ea_storage account).

(** The body of the loop over the state that revm returned. *)
Definition extract_account (cb : option DeferredCoinbase) (out : TxOutputInternal)
  (aa : Address * EvmAccount) : TxOutputInternal :=
  let '(addr, account) := aa in
  let '(mkTxOutput gas ok logs aw sw rs delta inv) := out in
  if negb (is_touched account) then out
  else
    let created := mkTxOutput gas ok logs (aw ++ [(addr, Recreated (ea_info account))])
                     (sw ++ changed_slots addr account) rs delta in
    let updated := mkTxOutput gas ok logs (aw ++ [(addr, Updated (ea_info account))])
                     (sw ++ changed_slots addr account) rs delta in
    let destroyed := mkTxOutput gas ok logs (aw ++ [(addr, DestroyedAccount)]) sw rs delta in
    match c ← cb; if dc_bene c =? addr then Some c else None with
    | Some c =>
        if is_selfdestructed account then destroyed true
        else if is_created account then created true
        else match extract_delta c account with
        | Some d =>
            mkTxOutput gas ok logs aw (sw ++ changed_slots addr account) rs (Some d) inv
        | None => updated true
        end
    | None =>
        if is_selfdestructed account then destroyed inv
        else if is_created account then created inv
        else updated inv
    end.

Definition finished_output (cb : option DeferredCoinbase) (r : EvmResult)
  (read_set : list ReadEntry) : TxOutputInternal :=
  foldl (extract_account cb)
    (mkTxOutput (er_gas_used r) (er_success r) (er_logs r) [] [] read_set None false) (er_state r).

(** What the worker publishes for an output, in order. *)
Definition tx_ops (out : TxOutputInternal) : list MvOp :=
  concat ((fun '(addr, write) => write_account addr write) <$> to_account_writes out) ++
  concat ((fun '(addr, slot, value) => write_storage addr slot value) <$> to_storage_writes out) ++
  match to_bene_delta out with Some d => record_bene_delta d | None => [] end.

Section execution.
Context {db : BaseDb}.
Context (cb : option DeferredCoinbase).

(** The queries of [ParallelDb] with what they add to the read set. *)
Definition db_basic (mv : MvMemory) (tx_idx : TxIdx) (address : Address)
  : option (option AccountInfo * list ReadEntry) :=
  if decide (dc_bene <$> cb = Some address) then info ← basic_ref address; Some (info, [])
  else
    info ← match read_account mv tx_idx address with
           | MvValue _ info => Some info
           | NotFound => basic_ref address
           end;
    Some (info, [mkReadEntry (KAccount address) (VAccount (snapshot_of info))]).

Definition db_storage (mv : MvMemory) (tx_idx : TxIdx) (address : Address) (index : N)
  : option (N * list ReadEntry) :=
  value ← match read_storage mv tx_idx address index with
          | MvValue _ value => Some value
          | NotFound => storage_ref address index
          end;
  Some (value, [mkReadEntry (KStorage address index) (VStorage value)]).

Definition db_code_by_hash (mv : MvMemory) (code_hash : B256) : option (bytes * MvMemory) :=
  match get_code mv code_hash with
  | Some code => Some (code, mv)
  | None => code ← code_by_hash_ref code_hash; Some (code, cache_code code_hash code mv)
  end.

Fixpoint run_evm (tx_idx : TxIdx) (evm : Evm) (read_set : list ReadEntry) (mv : MvMemory)
  : MvMemory * TxOutputInternal :=
  match evm with
  | Halt r => (mv, finished_output cb r read_set)
  | Reject => (mv, failed_output read_set)
  | Basic address k =>
      match db_basic mv tx_idx address with
      | Some (info, reads) => run_evm tx_idx (k info) (read_set ++ reads) mv
      | None => (mv, failed_output read_set)
      end
  | Storage address index k =>
      match db_storage mv tx_idx address index with
      | Some (value, reads) => run_evm tx_idx (k value) (read_set ++ reads) mv
      | None => (mv, failed_output read_set)
      end
  | CodeByHash code_hash k =>
      match db_code_by_hash mv code_hash with
      | Some (code, mv') => run_evm tx_idx (k code) read_set mv'
      | None => (mv, failed_output read_set)
      end
  | BlockHash number k =>
      match block_hash_ref number with
      | Some hash => run_evm tx_idx (k hash) read_set mv
      | None => (mv, failed_output read_set)
      end
  end.

Definition validate_entry (tx_idx : TxIdx) (mv : MvMemory) (entry : ReadEntry) : bool :=
  match re_key entry with
  | KAccount addr =>
      let now := match read_account mv tx_idx addr with
                 | MvValue _ info => info
                 | NotFound => default None (basic_ref addr)
                 end in
      bool_decide (re_value entry = VAccount (snapshot_of now))
  | KStorage addr slot =>
      let now := match read_storage mv tx_idx addr slot with
                 | MvValue _ v => v
                 | NotFound => default 0 (storage_ref addr slot)
                 end in
      bool_decide (re_value entry = VStorage now)
  end.

Context {revm : Revm}.

Definition execute_single_tx (tx_idx : TxIdx) (tx : TxEnv) (mv : MvMemory)
  : MvMemory * TxOutputInternal :=
  run_evm tx_idx (transact tx) [] mv.
End execution.

(** ** One after the other *)

Section sequential.
Context {db : BaseDb} {revm : Revm}.

Fixpoint sequential_from (tx_idx : TxIdx) (txs : list TxEnv) (mv : MvMemory)
  (acc : ParallelExecutionOutput) : ParallelExecutionOutput :=
  match txs with
  | [] => acc
  | tx :: txs =>
      let '(mv, out) := execute_single_tx None tx_idx tx mv in
      let mv := apply_ops tx_idx
        (concat ((fun '(addr, write) => write_account addr write) <$> to_account_writes out)) mv in
      let mv := apply_ops tx_idx
        (concat ((fun '(addr, slot, value) => write_storage addr slot value)
                   <$> to_storage_writes out)) mv in
      sequential_from (S tx_idx) txs mv
        (mkParallelOutput (po_results acc ++ [tx_result out])
           (merge_tx_state (po_state_changes acc) tx_idx (to_account_writes out)
              (to_storage_writes out)))
  end.

Definition sequential_execute (txs : list TxEnv) : ParallelExecutionOutput :=
  sequential_from 0%nat txs mv_new (mkParallelOutput [] ∅).

(** [DeferredCoinbase::plan], with the environment's switch. *)
Definition plan (enabled : bool) (txs : list TxEnv) (beneficiary : Address)
  : result ParallelEvmError CoinbasePlan :=
  if negb enabled then Ok NoDefer
  else match basic_ref beneficiary with
  | None => Err Database
  | Some base =>
      let is_sender := existsb (fun t => caller t =? beneficiary) txs in
      let is_eoa := match base with
                    | Some info => ai_code_hash info =? KECCAK_EMPTY
                    | None => true
                    end in
      Ok (if is_sender || negb is_eoa then Sequential
          else Defer (mkDeferredCoinbase beneficiary base))
  end.
End sequential.

(** ** The scheduler *)

Inductive Status : Type := STATUS_PENDING | STATUS_EXECUTED | STATUS_VALIDATED | STATUS_REDO.
#[export] Instance status_eq_dec : EqDecision Status.
Proof. solve_decision. Defined.

Inductive Task : Type :=
| Execute (tx_idx : TxIdx)
| Validate (tx_idx : TxIdx).

(** The queue and its length counter. *)
Record WorkQueue : Type := mkWorkQueue { wq_q : list TxIdx; wq_len : N }.

Definition wq_push (tx_idx : TxIdx) (wq : WorkQueue) : WorkQueue :=
  mkWorkQueue (wq_q wq ++ [tx_idx]) (wq_len wq +w 1).
Definition wq_pop (wq : WorkQueue) : WorkQueue * option TxIdx :=
  if wq_len wq =? 0 then (wq, None)
  else match wq_q wq with
  | [] => (wq, None)
  | v :: q => (mkWorkQueue q (wq_len wq +w u64_max), Some v)
  end.

Record Scheduler : Type := mkScheduler {
  sc_num_txs : nat;
  sc_status : list Status;
  sc_exec_cursor : nat;
  sc_val_cursor : nat;
  sc_validated_count : nat;
  sc_redo : WorkQueue
}.

Definition scheduler_new (num_txs : nat) : Scheduler :=
  mkScheduler num_txs (replicate num_txs STATUS_PENDING) 0 0 0 (mkWorkQueue [] 0).

Definition set_status (i : TxIdx) (st : Status) (s : Scheduler) : Scheduler :=
  mkScheduler (sc_num_txs s) (<[i := st]> (sc_status s)) (sc_exec_cursor s) (sc_val_cursor s)
    (sc_validated_count s) (sc_redo s).
Definition set_exec_cursor (c : nat) (s : Scheduler) : Scheduler :=
  mkScheduler (sc_num_txs s) (sc_status s) c (sc_val_cursor s) (sc_validated_count s) (sc_redo s).
Definition set_val_cursor (c : nat) (s : Scheduler) : Scheduler :=
  mkScheduler (sc_num_txs s) (sc_status s) (sc_exec_cursor s) c (sc_validated_count s) (sc_redo s).
Definition set_count (c : nat) (s : Scheduler) : Scheduler :=
  mkScheduler (sc_num_txs s) (sc_status s) (sc_exec_cursor s) (sc_val_cursor s) c (sc_redo s).
Definition set_redo (wq : WorkQueue) (s : Scheduler) : Scheduler :=
  mkScheduler (sc_num_txs s) (sc_status s) (sc_exec_cursor s) (sc_val_cursor s)
    (sc_validated_count s) wq.

Definition has_status (i : TxIdx) (st : Status) (s : Scheduler) : bool :=
  bool_decide (sc_status s !! i = Some st).

(** The loop ends when the queue is empty. *)
Fixpoint pop_redo_loop (fuel : nat) (s : Scheduler) : Scheduler * option TxIdx :=
  match fuel with
  | O => (s, None)
  | S fuel =>
      let '(wq, cand) := wq_pop (sc_redo s) in
      let s := set_redo wq s in
      match cand with
      | None => (s, None)
      | Some cand =>
          if has_status cand STATUS_REDO s then (set_status cand STATUS_PENDING s, Some cand)
          else pop_redo_loop fuel s
      end
  end.
Definition pop_redo (s : Scheduler) : Scheduler * option TxIdx :=
  pop_redo_loop (S (length (wq_q (sc_redo s)))) s.

(** The claim of the next validation; alone, its compare-exchange succeeds. *)
Definition claim_validation (s : Scheduler) : Scheduler * option Task :=
  let v := sc_val_cursor s in
  if (sc_num_txs s <=? v)%nat then (s, None)
  else if negb (has_status v STATUS_EXECUTED s) then (s, None)
  else if (0 <? v)%nat && negb (has_status (Nat.pred v) STATUS_VALIDATED s) then (s, None)
  else (set_val_cursor (S v) s, Some (Validate v)).

Definition next_task (s : Scheduler) : Scheduler * option Task :=
  let '(s, cand) := pop_redo s in
  match cand with
  | Some i => (s, Some (Execute i))
  | None =>
      let idx := sc_exec_cursor s in
      let s := set_exec_cursor (S idx) s in
      if (idx <? sc_num_txs s)%nat then (s, Some (Execute idx)) else claim_validation s
  end.

Definition finish_execution (tx_idx : TxIdx) (s : Scheduler) : Scheduler :=
  set_status tx_idx STATUS_EXECUTED s.

Definition finish_validation (tx_idx : TxIdx) (s : Scheduler) : Scheduler :=
  if has_status tx_idx STATUS_EXECUTED s
  then set_count (S (sc_validated_count s)) (set_status tx_idx STATUS_VALIDATED s)
  else s.

Definition decrement_validated_count (count : nat) (s : Scheduler) : Scheduler :=
  set_count (sc_validated_count s - count)%nat s.

(** One turn of the loop over the higher transactions. *)
Definition invalidate (sn : Scheduler * nat) (i : TxIdx) : Scheduler * nat :=
  let '(s, invalidated) := sn in
  if has_status i STATUS_EXECUTED s || has_status i STATUS_VALIDATED s then
    (set_redo (wq_push i (sc_redo s)) (set_status i STATUS_REDO s),
     (invalidated + if has_status i STATUS_VALIDATED s then 1 else 0)%nat)
  else (s, invalidated).

Definition abort_and_reschedule (tx_idx : TxIdx) (s : Scheduler) : Scheduler :=
  let invalidated := if has_status tx_idx STATUS_VALIDATED s then 1%nat else 0%nat in
  let s := set_status tx_idx STATUS_REDO s in
  let s := set_redo (wq_push tx_idx (sc_redo s)) s in
  let s := if (tx_idx <? sc_val_cursor s)%nat then set_val_cursor tx_idx s else s in
  let '(s, invalidated) :=
    foldl invalidate (s, invalidated) (seq (S tx_idx) (sc_num_txs s - S tx_idx)%nat) in
  decrement_validated_count invalidated s.

Definition all_done (s : Scheduler) : bool := (sc_num_txs s <=? sc_validated_count s)%nat.

(** ** The workers *)

(** Where a worker is in its loop: [PIdle] before [next_task], then the steps of
    [Task::Execute] and of [Task::Validate]. *)
Inductive Pc : Type :=
| PIdle
| PClear (i : TxIdx)
| PTakeLog (i : TxIdx)
| PClearing (i : TxIdx) (ops : list MvOp)
| PRunning (i : TxIdx) (evm : Evm) (read_set : list ReadEntry)
| PPublishing (i : TxIdx) (ops : list MvOp) (out : TxOutputInternal)
| PStoring (i : TxIdx) (out : TxOutputInternal)
| PExecuted (i : TxIdx)
| PLocking (i : TxIdx)
| PValidating (i : TxIdx) (rest : list ReadEntry)
| PValid (i : TxIdx)
| PInvalid (i : TxIdx).

Record System : Type := mkSystem {
  sy_sched : Scheduler;
  sy_mv : MvMemory;
  sy_outputs : list (option TxOutputInternal);
  sy_workers : list Pc
}.

Definition system_new (num_txs workers : nat) : System :=
  mkSystem (scheduler_new num_txs) mv_new (replicate num_txs None) (replicate workers PIdle).

(** [worker_count]: the threads of the pool and the number of lanes that the
    environment asks for, if it has one that parses, are arguments. *)
Definition worker_count (current_num_threads : nat) (lanes : option nat) (num_txs : nat) : nat :=
  let requested := ((default 8 lanes `max` 6) `min` 8)%nat in
  ((requested `min` current_num_threads `min` num_txs) `max` 1)%nat.

Definition task_pc (task : option Task) : Pc :=
  match task with
  | Some (Execute i) => PClear i
  | Some (Validate i) => PLocking i
  | None => PIdle
  end.

(** The mutex of an output is held while its read set is validated. *)
Definition holds_output (i : TxIdx) (pc : Pc) : bool :=
  match pc with PValidating j _ => bool_decide (i = j) | _ => false end.

Section workers.
Context {db : BaseDb} {revm : Revm}.
Context (cb : option DeferredCoinbase) (txs : list TxEnv).

(** The steps of a worker outside the scheduler, on the shared memory and the
    outputs. *)
Definition data_step (mv : MvMemory) (outputs : list (option TxOutputInternal)) (locked : TxIdx -> bool)
  (pc : Pc) : option (MvMemory * list (option TxOutputInternal) * Pc) :=
  match pc with
  | PClear i => Some (apply_op i RemoveDelta mv, outputs, PTakeLog i)
  | PTakeLog i =>
      Some (apply_op i RemoveLog mv, outputs, PClearing i (clear_write <$> tx_writes_of mv i))
  | PClearing i (op :: ops) => Some (apply_op i op mv, outputs, PClearing i ops)
  | PClearing i [] =>
      tx ← txs !! i;
      Some (mv, outputs, PRunning i (transact tx) [])
  | PRunning i evm rs =>
      let fail := let out := failed_output rs in PPublishing i (tx_ops out) out in
      Some (match evm with
      | Halt r => let out := finished_output cb r rs in (mv, outputs, PPublishing i (tx_ops out) out)
      | Reject => (mv, outputs, fail)
      | Basic address k =>
          (mv, outputs, match db_basic cb mv i address with
                        | Some (info, reads) => PRunning i (k info) (rs ++ reads)
                        | None => fail
                        end)
      | Storage address index k =>
          (mv, outputs, match db_storage mv i address index with
                        | Some (value, reads) => PRunning i (k value) (rs ++ reads)
                        | None => fail
                        end)
      | CodeByHash code_hash k =>
          match db_code_by_hash mv code_hash with
          | Some (code, mv') => (mv', outputs, PRunning i (k code) rs)
          | None => (mv, outputs, fail)
          end
      | BlockHash number k =>
          (mv, outputs, match block_hash_ref number with
                        | Some hash => PRunning i (k hash) rs
                        | None => fail
                        end)
      end)
  | PPublishing i (op :: ops) out => Some (apply_op i op mv, outputs, PPublishing i ops out)
  | PPublishing i [] out => Some (mv, outputs, PStoring i out)
  | PStoring i out =>
      if locked i then None else Some (mv, <[i := Some out]> outputs, PExecuted i)
  | PLocking i =>
      if locked i then None
      else Some (mv, outputs, match outputs !! i with
                              | Some (Some out) => PValidating i (to_read_set out)
                              | _ => PInvalid i
                              end)
  | PValidating i (entry :: rest) =>
      Some (mv, outputs, if validate_entry i mv entry then PValidating i rest else PInvalid i)
  | PValidating i [] => Some (mv, outputs, PValid i)
  | PIdle | PExecuted _ | PValid _ | PInvalid _ => None
  end.

(** The calls to the scheduler. *)
Definition call_step (s : Scheduler) (pc : Pc) : option (Scheduler * Pc) :=
  match pc with
  | PIdle => let '(s', task) := next_task s in Some (s', task_pc task)
  | PExecuted i => Some (finish_execution i s, PIdle)
  | PValid i => Some (finish_validation i s, PIdle)
  | PInvalid i => Some (abort_and_reschedule i s, PIdle)
  | _ => None
  end.

Inductive step : System -> System -> Prop :=
| step_data w pc s mv outputs workers mv' outputs' pc' :
    workers !! w = Some pc ->
    data_step mv outputs (fun i => existsb (holds_output i) workers) pc = Some (mv', outputs', pc') ->
    step (mkSystem s mv outputs workers) (mkSystem s mv' outputs' (<[w := pc']> workers))
| step_call w pc s mv outputs workers s' pc' :
    workers !! w = Some pc -> call_step s pc = Some (s', pc') ->
    step (mkSystem s mv outputs workers) (mkSystem s' mv outputs (<[w := pc']> workers)).

(** A round ends when all workers have left their loops, which they do before
    they take a task. *)
Definition quiescent (sys : System) : Prop := Forall (fun pc => pc = PIdle) (sy_workers sys).

(** What [parallel_execute] returns after its rounds. *)
Definition parallel_result (sys : System) : result ParallelEvmError ParallelExecutionOutput :=
  if negb (all_done (sy_sched sys)) then Ok (sequential_execute txs)
  else if bool_decide (is_Some cb)
          && existsb (fun out => match out with
                                 | Some out => to_deferred_bene_invalidated out
                                 | None => false
                                 end) (sy_outputs sys)
  then Ok (sequential_execute txs)
  else
    output ← build_output (sy_outputs sys);
    Ok (match cb with
        | Some c => materialize c (sum_bene_deltas (sy_mv sys)) output
        | None => output
        end).
End workers.

(** [parallel_execute]; [rounds] are the workers' rounds for a beneficiary plan,
    of which only the final state matters, and the environment's settings are
    arguments. *)
Definition parallel_execute {db : BaseDb} {revm : Revm} (enabled : bool) (parallel_threshold : nat)
  (beneficiary : Address) (rounds : option DeferredCoinbase -> System) (txs : list TxEnv)
  : result ParallelEvmError ParallelExecutionOutput :=
  let num_txs := length txs in
  if (num_txs =? 0)%nat then Ok (mkParallelOutput [] ∅)
  else if u32_max <=? N.of_nat num_txs then Err (BlockTooLarge num_txs)
  else if (num_txs <=? parallel_threshold)%nat then Ok (sequential_execute txs)
  else
    coinbase ← plan enabled txs beneficiary;
    match coinbase with
    | Sequential => Ok (sequential_execute txs)
    | NoDefer => parallel_result None txs (rounds None)
    | Defer dc => parallel_result (Some dc) txs (rounds (Some dc))
    end.
