(* ===== verification/BlockStmTheory.v ===== *)
(** * The parallel executor is serialisable

    With atomic scheduler calls, whatever the workers interleave in the shared
    memory, a block whose transactions are all validated has the outputs of the
    transactions executed one after the other. *)

From S2P Require Import Prelude Effects MvMemory BlockStm.

(** ** One transaction and what it read *)

Lemma snapshot_of_inj info info' : snapshot_of info = snapshot_of info' -> info = info'.
Proof. destruct info as [[]|], info' as [[]|]; cbn; congruence. Qed.

Section execution.
Context {db : BaseDb} (cb : option DeferredCoinbase).

Hypothesis basic_total : forall a, is_Some (basic_ref a).
Hypothesis storage_total : forall a k, is_Some (storage_ref a k).

(** The code cache holds what the database holds. *)
Definition code_ok (mv : MvMemory) : Prop :=
  forall h c, mv_code mv !! h = Some c -> code_by_hash_ref h = Some c.

Lemma code_ok_op i op mv : code_ok mv -> code_ok (apply_op i op mv).
Proof. unfold code_ok. by rewrite code_apply_op. Qed.

Lemma code_ok_ops i ops mv : code_ok mv -> code_ok (apply_ops i ops mv).
Proof. revert mv. induction ops as [|op ops IH]; intros mv H; [done|]. by apply IH, code_ok_op. Qed.

Lemma db_code_spec mv h :
  code_ok mv ->
  match db_code_by_hash mv h with
  | Some (c, mv') => code_by_hash_ref h = Some c /\ code_ok mv' /\ forall i, slice i mv' = slice i mv
  | None => code_by_hash_ref h = None
  end.
Proof.
  intros Hc. unfold db_code_by_hash, get_code. destruct (mv_code mv !! h) as [c|] eqn:E.
  { split_and!; auto. }
  destruct (code_by_hash_ref h) as [c|] eqn:Eb; cbn; [|done]. split_and!; auto.
  intros h' c'. cbn. rewrite E. intros [[-> ->]|[_ H]]%lookup_insert_Some; auto.
Qed.

(** [ran evm rs r]: with the answers recorded in [rs] the program ends with [r]
    ([None] for an error). *)
Inductive ran : Evm -> list ReadEntry -> option EvmResult -> Prop :=
| ran_halt r : ran (Halt r) [] (Some r)
| ran_reject : ran Reject [] None
| ran_basic a k info rs r :
    dc_bene <$> cb ≠ Some a -> ran (k info) rs r ->
    ran (Basic a k) (mkReadEntry (KAccount a) (VAccount (snapshot_of info)) :: rs) r
| ran_blind a k info rs r :
    dc_bene <$> cb = Some a -> basic_ref a = Some info -> ran (k info) rs r -> ran (Basic a k) rs r
| ran_storage a index k v rs r :
    ran (k v) rs r ->
    ran (Storage a index k) (mkReadEntry (KStorage a index) (VStorage v) :: rs) r
| ran_code h k c rs r : code_by_hash_ref h = Some c -> ran (k c) rs r -> ran (CodeByHash h k) rs r
| ran_code_err h k : code_by_hash_ref h = None -> ran (CodeByHash h k) [] None
| ran_block n k h rs r : block_hash_ref n = Some h -> ran (k h) rs r -> ran (BlockHash n k) rs r
| ran_block_err n k : block_hash_ref n = None -> ran (BlockHash n k) [] None.

Definition outcome_output (r : option EvmResult) (rs : list ReadEntry) : TxOutputInternal :=
  match r with
  | Some r => finished_output cb r rs
  | None => failed_output rs
  end.

Lemma validate_below mv mv' i e :
  same_below i mv mv' -> validate_entry i mv e = validate_entry i mv' e.
Proof.
  intros H. unfold validate_entry. destruct (re_key e) as [a|a k].
  - by rewrite (read_account_below mv mv' i a H).
  - by rewrite (read_storage_below mv mv' i a k H).
Qed.

(** A program whose recorded reads are what the memory holds now would run the
    same way now. *)
Lemma ran_valid evm rs r i mv rs0 :
  ran evm rs r -> code_ok mv -> Forall (fun e => validate_entry i mv e = true) rs ->
  (run_evm cb i evm rs0 mv).2 = outcome_output r (rs0 ++ rs).
Proof.
  intros H. revert mv rs0. induction H as [r| |a k info rs r Ha H IH|a k info rs r Ha Hb H IH
    |a index k v rs r H IH|h k c rs r Hc H IH|h k Hc|n k h rs r Hh H IH|n k Hh];
    intros mv rs0 Hco Hv; cbn [run_evm]; rewrite ?app_nil_r; try done.
  - apply Forall_cons in Hv as [He Hv]. unfold validate_entry in He. cbn in He.
    apply bool_decide_eq_true in He. injection He as He. apply snapshot_of_inj in He.
    unfold db_basic. rewrite decide_False by done. destruct (basic_total a) as [base Eb].
    rewrite Eb in *. cbn in He. destruct (read_account mv i a); cbn; subst info;
      rewrite IH, <- app_assoc by done; done.
  - unfold db_basic. rewrite decide_True, Hb by done. cbn. by rewrite app_nil_r, IH.
  - apply Forall_cons in Hv as [He Hv]. unfold validate_entry in He. cbn in He.
    apply bool_decide_eq_true in He. injection He as He.
    unfold db_storage. destruct (storage_total a index) as [base Eb].
    rewrite Eb in *. cbn in He. destruct (read_storage mv i a index); cbn; subst v;
      rewrite IH, <- app_assoc by done; done.
  - pose proof (db_code_spec mv h Hco) as Hd. destruct (db_code_by_hash mv h) as [[c' mv']|].
    + destruct Hd as (Hc' & Hco' & Hs). rewrite Hc in Hc'. injection Hc' as <-. apply IH; [done|].
      eapply Forall_impl; [exact Hv|]. intros e. cbn.
      by rewrite (validate_below mv' mv) by (intros j _; by rewrite Hs).
    + congruence.
  - pose proof (db_code_spec mv h Hco) as Hd. destruct (db_code_by_hash mv h) as [[c' mv']|]; [|done].
    destruct Hd; congruence.
  - rewrite Hh. by apply IH.
  - by rewrite Hh.
Qed.

Lemma db_basic_below mv mv' i a : same_below i mv mv' -> db_basic cb mv i a = db_basic cb mv' i a.
Proof. intros H. unfold db_basic. by rewrite (read_account_below mv mv' i a H). Qed.
Lemma db_storage_below mv mv' i a k : same_below i mv mv' -> db_storage mv i a k = db_storage mv' i a k.
Proof. intros H. unfold db_storage. by rewrite (read_storage_below mv mv' i a k H). Qed.
(** A transaction sees the transactions before it only. *)
Lemma run_evm_below i evm rs mv mv' :
  same_below i mv mv' -> code_ok mv -> code_ok mv' ->
  (run_evm cb i evm rs mv).2 = (run_evm cb i evm rs mv').2.
Proof.
  revert rs mv mv'. induction evm as [r| |a k IH|a index k IH|h k IH|n k IH];
    intros rs mv mv' Hb Hc Hc'; cbn [run_evm]; try done.
  - rewrite (db_basic_below mv mv') by done. destruct (db_basic cb mv' i a) as [[]|]; auto.
  - rewrite (db_storage_below mv mv') by done. destruct (db_storage mv' i a index) as [[]|]; auto.
  - pose proof (db_code_spec mv h Hc) as H1. pose proof (db_code_spec mv' h Hc') as H2.
    destruct (db_code_by_hash mv h) as [[c1 m1]|], (db_code_by_hash mv' h) as [[c2 m2]|];
      try by destruct H1; congruence.
    + destruct H1 as (E1 & Hc1 & Hs1), H2 as (E2 & Hc2 & Hs2). rewrite E1 in E2.
      injection E2 as <-. apply IH; auto. intros j Hj. rewrite Hs1, Hs2. by apply Hb.
    + by destruct H2; congruence.
    + done.
  - destruct (block_hash_ref n); auto.
Qed.

(** Execution changes the code cache only. *)
Lemma run_evm_slices i evm rs mv :
  code_ok mv ->
  code_ok (run_evm cb i evm rs mv).1 /\ forall j, slice j (run_evm cb i evm rs mv).1 = slice j mv.
Proof.
  revert rs mv. induction evm as [r| |a k IH|a index k IH|h k IH|n k IH];
    intros rs mv Hc; cbn [run_evm]; try done.
  - destruct (db_basic cb mv i a) as [[]|]; auto.
  - destruct (db_storage mv i a index) as [[]|]; auto.
  - pose proof (db_code_spec mv h Hc) as H1. destruct (db_code_by_hash mv h) as [[c1 m1]|]; [|done].
    destruct H1 as (E1 & Hc1 & Hs1). destruct (IH c1 rs m1 Hc1) as [H2 H3].
    split; [done|]. intros j. by rewrite H3.
  - destruct (block_hash_ref n); auto.
Qed.
End execution.

(** ** What an output publishes *)

Definition pub (out : TxOutputInternal) : Slice := slice_ops (tx_ops out) empty_slice.

Lemma slice_ops_app ops ops' s : slice_ops (ops ++ ops') s = slice_ops ops' (slice_ops ops s).
Proof. unfold slice_ops. apply foldl_app. Qed.

Lemma logged_write_account a w s : logged s -> logged (slice_ops (write_account a w) s).
Proof.
  intros [H1 H2 H3]. destruct s as [acc st wi log d], w; cbn in *; (split; cbn;
    [intros b [->|Hb]%lookup_insert_is_Some'|intros b k Hb|intros b Hb]);
    rewrite ?elem_of_app, ?elem_of_cons; auto;
    apply lookup_insert_is_Some' in Hb as [->|Hb]; auto.
Qed.

Lemma logged_write_storage a k v s : logged s -> logged (slice_ops (write_storage a k v) s).
Proof.
  intros [H1 H2 H3]. destruct s as [acc st wi log d]; cbn in *. split; cbn.
  - intros b Hb. rewrite elem_of_app. auto.
  - intros b k' [[= -> ->]|Hb]%lookup_insert_is_Some'; rewrite elem_of_app, ?elem_of_cons; auto.
  - intros b Hb. rewrite elem_of_app. auto.
Qed.

Lemma logged_concat {A} (f : A -> list MvOp) l s :
  (forall x s, logged s -> logged (slice_ops (f x) s)) ->
  logged s -> logged (slice_ops (concat (f <$> l)) s).
Proof.
  intros Hf. revert s. induction l as [|x l IH]; intros s Hs; [done|].
  rewrite fmap_cons. cbn [concat]. rewrite slice_ops_app. by apply IH, Hf.
Qed.

Lemma logged_empty : logged empty_slice.
Proof. split; cbn; intros; by destruct H as [? H]; rewrite lookup_empty in H. Qed.

Lemma slice_new i : slice i mv_new = empty_slice.
Proof. unfold slice, tx_writes_of, mv_new. cbn. by rewrite !omap_empty, !lookup_empty. Qed.

Lemma logged_pub out : logged (pub out).
Proof.
  unfold pub, tx_ops. rewrite !slice_ops_app.
  assert (H : logged (slice_ops (concat ((fun '(addr, slot, value) => write_storage addr slot value)
      <$> to_storage_writes out)) (slice_ops (concat ((fun '(addr, write) => write_account addr write)
      <$> to_account_writes out)) empty_slice))).
  { apply logged_concat; [intros [[a k] v]; apply logged_write_storage|].
    apply logged_concat; [intros [a w]; apply logged_write_account|]. apply logged_empty. }
  revert H. generalize (slice_ops (concat ((fun '(addr, slot, value) => write_storage addr slot value)
      <$> to_storage_writes out)) (slice_ops (concat ((fun '(addr, write) => write_account addr write)
      <$> to_account_writes out)) empty_slice)).
  intros s [H1 H2 H3]. destruct (to_bene_delta out); [|by split]. by destruct s; split.
Qed.

Lemma extract_read_set cb l out :
  to_read_set (foldl (extract_account cb) out l) = to_read_set out.
Proof.
  revert out. induction l as [|[a acc] l IH]; intros out; [done|]. cbn [foldl]. rewrite IH.
  destruct out. unfold extract_account. repeat case_match; done.
Qed.

Lemma outcome_read_set cb r rs : to_read_set (outcome_output cb r rs) = rs.
Proof. destruct r as [r|]; [|done]. cbn. unfold finished_output. by rewrite extract_read_set. Qed.

(** ** One after the other *)

Section reference.
Context {db : BaseDb} {revm : Revm} (cb : option DeferredCoinbase) (txs : list TxEnv).

(** The memory before transaction [i], and the output of transaction [i]. *)
Fixpoint seq_mv (i : nat) : MvMemory :=
  match i with
  | O => mv_new
  | S i =>
      match txs !! i with
      | Some tx =>
          let '(mv, out) := execute_single_tx cb i tx (seq_mv i) in apply_ops i (tx_ops out) mv
      | None => seq_mv i
      end
  end.
Definition seq_out (i : nat) : option TxOutputInternal :=
  (fun tx => (execute_single_tx cb i tx (seq_mv i)).2) <$> txs !! i.

Lemma seq_mv_spec i :
  code_ok (seq_mv i) /\
  forall j, slice j (seq_mv i) =
    if decide (j < i)%nat then match seq_out j with Some out => pub out | None => empty_slice end
    else empty_slice.
Proof.
  induction i as [|i [Hc IH]]; [split; [by intros h c; cbn; rewrite lookup_empty|]|].
  { intros j. rewrite decide_False by lia. apply slice_new. }
  cbn [seq_mv]. unfold seq_out in *. destruct (txs !! i) as [tx|] eqn:Ei.
  - unfold execute_single_tx in *. pose proof (run_evm_slices cb i (transact tx) [] (seq_mv i) Hc) as [Hc' Hs].
    destruct (run_evm cb i (transact tx) [] (seq_mv i)) as [mv out] eqn:Er. cbn [fst] in *.
    split; [by apply code_ok_ops|]. intros j. destruct (decide (j = i)) as [->|Hj].
    + rewrite slice_apply_ops, Hs, IH, decide_False, decide_True, Ei by lia. cbn.
      by rewrite Er.
    + rewrite slice_apply_ops_ne, Hs, IH by done. by repeat case_decide; try lia.
  - split; [done|]. intros j. rewrite IH. repeat case_decide; try lia; try done.
    replace j with i by lia. by rewrite Ei.
Qed.
End reference.
