(* ===== verification/BlockStmInvariant.v ===== *)
(** * The invariant of the parallel executor

    All validated transactions form a prefix, at most one validation runs at a
    time and it is the one at the end of that prefix, no transaction is executed
    by two workers, and every output not being rewritten is published and
    explained by its read set. *)

From S2P Require Import Prelude Effects MvMemory BlockStm BlockStmTheory.

Definition exec_of (pc : Pc) : option TxIdx :=
  match pc with
  | PClear i | PTakeLog i | PClearing i _ | PRunning i _ _ | PPublishing i _ _ | PStoring i _
  | PExecuted i => Some i
  | _ => None
  end.
Definition val_of (pc : Pc) : option TxIdx :=
  match pc with
  | PLocking i | PValidating i _ | PValid i | PInvalid i => Some i
  | _ => None
  end.

Section invariant.
Context {db : BaseDb} {revm : Revm} (cb : option DeferredCoinbase) (txs : list TxEnv).
Hypothesis basic_total : forall a, is_Some (basic_ref a).
Hypothesis storage_total : forall a k, is_Some (storage_ref a k).

Definition output_ok (i : TxIdx) (out : TxOutputInternal) : Prop :=
  exists tx r, txs !! i = Some tx /\ ran cb (transact tx) (to_read_set out) r /\
    out = outcome_output cb r (to_read_set out).

Definition published (mv : MvMemory) (outputs : list (option TxOutputInternal)) (i : TxIdx)
  (out : TxOutputInternal) : Prop :=
  outputs !! i = Some (Some out) /\ slice i mv = pub out /\ output_ok i out.

(** What a worker knows at each point of its loop. *)
Definition pc_ok (mv : MvMemory) (outputs : list (option TxOutputInternal)) (pc : Pc) : Prop :=
  match pc with
  | PIdle | PLocking _ | PInvalid _ => True
  | PClear i => logged (slice i mv)
  | PTakeLog i => logged (slice i mv) /\ sl_delta (slice i mv) = None
  | PClearing i ops => slice_ops ops (slice i mv) = empty_slice
  | PRunning i evm rs =>
      slice i mv = empty_slice /\
      exists tx, txs !! i = Some tx /\
        forall rs' r, ran cb evm rs' r -> ran cb (transact tx) (rs ++ rs') r
  | PPublishing i ops out => slice_ops ops (slice i mv) = pub out /\ output_ok i out
  | PStoring i out => slice i mv = pub out /\ output_ok i out
  | PExecuted i => exists out, published mv outputs i out
  | PValidating i rest =>
      exists out done, outputs !! i = Some (Some out) /\ to_read_set out = done ++ rest /\
        Forall (fun e => validate_entry i mv e = true) done
  | PValid i =>
      exists out, outputs !! i = Some (Some out) /\
        Forall (fun e => validate_entry i mv e = true) (to_read_set out)
  end.

(** What holds of a transaction that nobody executes. *)
Definition tx_ok (mv : MvMemory) (outputs : list (option TxOutputInternal)) (i : TxIdx) (st : Status)
  : Prop :=
  match st with
  | STATUS_PENDING | STATUS_REDO => logged (slice i mv)
  | STATUS_EXECUTED => exists out, published mv outputs i out
  | STATUS_VALIDATED => exists out, published mv outputs i out /\ seq_out cb txs i = Some out
  end.

Record sched_inv (s : Scheduler) (workers : list Pc) : Prop := {
  si_num : sc_num_txs s = length txs;
  si_status : length (sc_status s) = length txs;
  si_cursor : (sc_val_cursor s <= length txs)%nat;
  si_below : forall i, (i < sc_val_cursor s)%nat ->
    sc_status s !! i = Some STATUS_VALIDATED \/
    S i = sc_val_cursor s /\ sc_status s !! i = Some STATUS_EXECUTED;
  si_above : forall i, (sc_val_cursor s <= i)%nat -> sc_status s !! i ≠ Some STATUS_VALIDATED;
  si_count : sc_validated_count s =
    match sc_val_cursor s with
    | O => O
    | S c => if decide (sc_status s !! c = Some STATUS_VALIDATED) then S c else c
    end;
  si_fresh : forall i, (sc_exec_cursor s <= i < length txs)%nat ->
    sc_status s !! i = Some STATUS_PENDING;
  si_val : forall w pc i, workers !! w = Some pc -> val_of pc = Some i ->
    S i = sc_val_cursor s /\ sc_status s !! i = Some STATUS_EXECUTED;
  si_val_unique : forall w w' pc pc' i i', workers !! w = Some pc -> workers !! w' = Some pc' ->
    val_of pc = Some i -> val_of pc' = Some i' -> w = w';
  si_exec : forall w pc i, workers !! w = Some pc -> exec_of pc = Some i ->
    sc_status s !! i = Some STATUS_PENDING /\ (i < sc_exec_cursor s)%nat;
  si_exec_unique : forall w w' pc pc' i, workers !! w = Some pc -> workers !! w' = Some pc' ->
    exec_of pc = Some i -> exec_of pc' = Some i -> w = w'
}.

Definition nobody (workers : list Pc) (i : TxIdx) : Prop := Forall (fun pc => exec_of pc ≠ Some i) workers.

Record data_inv (s : Scheduler) (mv : MvMemory) (outputs : list (option TxOutputInternal))
  (workers : list Pc) : Prop := {
  di_len : length outputs = length txs;
  di_code : code_ok mv;
  di_out : forall i, (length txs <= i)%nat -> slice i mv = empty_slice;
  di_pc : Forall (pc_ok mv outputs) workers;
  di_tx : forall i st, sc_status s !! i = Some st -> nobody workers i -> tx_ok mv outputs i st
}.

Definition inv (sys : System) : Prop :=
  sched_inv (sy_sched sys) (sy_workers sys) /\
  data_inv (sy_sched sys) (sy_mv sys) (sy_outputs sys) (sy_workers sys).

Lemma inv_new workers : inv (system_new (length txs) workers).
Proof.
  assert (Hidle : forall w pc, replicate workers PIdle !! w = Some pc -> pc = PIdle).
  { intros w pc H. by apply lookup_replicate in H as [-> _]. }
  split; split; cbn.
  - done.
  - by rewrite length_replicate.
  - lia.
  - lia.
  - intros i _ H. by apply lookup_replicate in H as [? _].
  - done.
  - intros i [_ Hi]. by apply lookup_replicate.
  - intros w pc i ->%Hidle. done.
  - intros w w' pc pc' i i' ->%Hidle. done.
  - intros w pc i ->%Hidle. done.
  - intros w w' pc pc' i ->%Hidle. done.
  - by rewrite length_replicate.
  - intros h c. cbn. by rewrite lookup_empty.
  - intros i _. apply slice_new.
  - apply Forall_replicate. done.
  - intros i st H _. apply lookup_replicate in H as [-> _]. cbn. rewrite slice_new. apply logged_empty.
Qed.

(** ** Framing: a worker that executes a transaction touches its slice only *)

Record frame (j : TxIdx) (mv : MvMemory) (outputs : list (option TxOutputInternal))
  (mv' : MvMemory) (outputs' : list (option TxOutputInternal)) : Prop := {
  fr_slice : forall i, i ≠ j -> slice i mv' = slice i mv;
  fr_outputs : forall i, i ≠ j -> outputs' !! i = outputs !! i;
  fr_len : length outputs' = length outputs;
  fr_code : code_ok mv'
}.

Lemma frame_published j mv outputs mv' outputs' i out :
  frame j mv outputs mv' outputs' -> i ≠ j ->
  published mv outputs i out -> published mv' outputs' i out.
Proof.
  intros [Hs Ho _ _] Hij (H1 & H2 & H3). split_and!; [by rewrite Ho|by rewrite Hs|done].
Qed.

Lemma frame_tx j mv outputs mv' outputs' i st :
  frame j mv outputs mv' outputs' -> i ≠ j -> tx_ok mv outputs i st -> tx_ok mv' outputs' i st.
Proof.
  intros Hf Hij. destruct st; cbn; [by rewrite (fr_slice _ _ _ _ _ Hf)|..|
    by rewrite (fr_slice _ _ _ _ _ Hf)].
  - intros [out H]. exists out. by eapply frame_published.
  - intros (out & H & E). exists out. split; [by eapply frame_published|done].
Qed.

Lemma frame_valid j mv outputs mv' outputs' i rs :
  frame j mv outputs mv' outputs' -> (i <= j)%nat ->
  Forall (fun e => validate_entry i mv e = true) rs ->
  Forall (fun e => validate_entry i mv' e = true) rs.
Proof.
  intros Hf Hij Hrs. eapply Forall_impl; [exact Hrs|]. intros e. cbn.
  rewrite (validate_below mv' mv); [done|]. intros k Hk. apply (fr_slice _ _ _ _ _ Hf). lia.
Qed.

Lemma frame_pc j mv outputs mv' outputs' pc :
  frame j mv outputs mv' outputs' -> exec_of pc ≠ Some j ->
  (forall i, val_of pc = Some i -> (i < j)%nat) ->
  pc_ok mv outputs pc -> pc_ok mv' outputs' pc.
Proof.
  intros Hf He Hv. destruct pc as [|i|i|i ops|i evm rs|i ops out|i out|i|i|i rest|i|i];
    cbn [exec_of val_of pc_ok] in *;
    try done; try (rewrite (fr_slice _ _ _ _ _ Hf) by congruence; done).
  - intros [out H]. exists out. eapply frame_published; [done|congruence|done].
  - intros (out & done & H1 & H2 & H3). specialize (Hv i eq_refl). exists out, done.
    split_and!; [rewrite (fr_outputs _ _ _ _ _ Hf) by lia; done|done|].
    eapply frame_valid; [done|lia|done].
  - intros (out & H1 & H2). specialize (Hv i eq_refl). exists out.
    split; [rewrite (fr_outputs _ _ _ _ _ Hf) by lia; done|]. eapply frame_valid; [done|lia|done].
Qed.

Lemma frame_op j op mv outputs :
  code_ok mv -> frame j mv outputs (apply_op j op mv) outputs.
Proof.
  intros Hc. split; [|done|done|by apply code_ok_op]. intros i Hi. by apply slice_apply_op_ne.
Qed.
Lemma frame_refl j mv outputs : code_ok mv -> frame j mv outputs mv outputs.
Proof. by split. Qed.

(** The program of transaction [j], so far. *)
Definition running (j : TxIdx) (evm : Evm) (rs : list ReadEntry) : Prop :=
  exists tx, txs !! j = Some tx /\
    forall rs' r, ran cb evm rs' r -> ran cb (transact tx) (rs ++ rs') r.

Lemma running_output j evm rs r :
  running j evm rs -> ran cb evm [] r -> output_ok j (outcome_output cb r rs).
Proof.
  intros (tx & Ht & Hr) Hh. exists tx, r. rewrite outcome_read_set. split_and!; [done| |done].
  rewrite <- (app_nil_r rs). by apply Hr.
Qed.

Lemma running_read j evm evm' rs es :
  running j evm rs -> (forall rs' r, ran cb evm' rs' r -> ran cb evm (es ++ rs') r) ->
  running j evm' (rs ++ es).
Proof.
  intros (tx & Ht & Hr) Hk. exists tx. split; [done|]. intros rs' r H.
  rewrite <- app_assoc. by apply Hr, Hk.
Qed.

Lemma running_quiet j evm evm' rs :
  running j evm rs -> (forall rs' r, ran cb evm' rs' r -> ran cb evm rs' r) -> running j evm' rs.
Proof. intros (tx & Ht & Hr) Hk. exists tx. auto. Qed.

Lemma run_step_ok mv outputs locked j evm rs mv' outputs' pc' :
  code_ok mv -> slice j mv = empty_slice -> running j evm rs ->
  data_step cb txs mv outputs locked (PRunning j evm rs) = Some (mv', outputs', pc') ->
  exec_of pc' = Some j /\ val_of pc' = None /\ frame j mv outputs mv' outputs' /\
  pc_ok mv' outputs' pc'.
Proof.
  intros Hc Hs Hrun Hd. cbn [data_step] in Hd.
  assert (Hout : forall r rs0, rs0 = rs -> ran cb evm [] r ->
    pc_ok mv outputs (PPublishing j (tx_ops (outcome_output cb r rs0)) (outcome_output cb r rs0))).
  { intros r rs0 -> Hh. cbn. split; [by rewrite Hs|by eapply running_output]. }
  destruct evm as [r| |a k|a index k|h k|n k].
  - injection Hd as <- <- <-. split_and!; [done|done|by apply frame_refl|].
    apply (Hout (Some r) rs eq_refl). constructor.
  - injection Hd as <- <- <-. split_and!; [done|done|by apply frame_refl|].
    apply (Hout None rs eq_refl). constructor.
  - unfold db_basic in Hd. destruct (basic_total a) as [base Eb]. rewrite Eb in Hd.
    destruct (decide (dc_bene <$> cb = Some a)) as [Ha|Ha]; cbn in Hd.
    + injection Hd as <- <- <-. split_and!; [done|done|by apply frame_refl|]. split; [done|].
      rewrite app_nil_r. eapply running_quiet; [done|]. intros rs' r H. by eapply ran_blind.
    + destruct (read_account mv j a) as [src info|]; cbn in Hd; injection Hd as <- <- <-;
        (split_and!; [done|done|by apply frame_refl|]); (split; [done|]);
        (eapply running_read; [done|]); intros rs' r H; by apply ran_basic.
  - unfold db_storage in Hd. destruct (storage_total a index) as [base Eb]. rewrite Eb in Hd.
    destruct (read_storage mv j a index) as [src v|]; cbn in Hd; injection Hd as <- <- <-;
      (split_and!; [done|done|by apply frame_refl|]); (split; [done|]);
      (eapply running_read; [done|]); intros rs' r H; by apply ran_storage.
  - pose proof (db_code_spec mv h Hc) as Hcode. destruct (db_code_by_hash mv h) as [[c mv1]|].
    + destruct Hcode as (E & Hc1 & Hs1). injection Hd as <- <- <-.
      split_and!; [done|done|by split|]. cbn. rewrite Hs1. split; [done|].
      eapply running_quiet; [done|]. intros rs' r H. by eapply ran_code.
    + injection Hd as <- <- <-. split_and!; [done|done|by apply frame_refl|].
      apply (Hout None rs eq_refl). by apply ran_code_err.
  - destruct (block_hash_ref n) as [b|] eqn:Eb; injection Hd as <- <- <-;
      (split_and!; [done|done|by apply frame_refl|]).
    + split; [done|]. eapply running_quiet; [done|]. intros rs' r H. by eapply ran_block.
    + apply (Hout None rs eq_refl). by apply ran_block_err.
Qed.

(** One step of the execution of transaction [j]. *)
Lemma exec_step_ok mv outputs locked pc j mv' outputs' pc' :
  code_ok mv -> (j < length txs)%nat -> length outputs = length txs -> exec_of pc = Some j ->
  pc_ok mv outputs pc -> data_step cb txs mv outputs locked pc = Some (mv', outputs', pc') ->
  exec_of pc' = Some j /\ val_of pc' = None /\ frame j mv outputs mv' outputs' /\
  pc_ok mv' outputs' pc'.
Proof.
  intros Hc Hj Hlo He Hok Hd.
  destruct pc as [|i|i|i [|op ops]|i evm rs|i [|op ops] out|i out|i|i|i rest|i|i];
    cbn in He; simplify_eq; cbn [data_step] in Hd; cbn [pc_ok] in Hok.
  - injection Hd as <- <- <-. split_and!; [done|done|by apply frame_op|].
    cbn [pc_ok]. rewrite slice_apply_op. destruct Hok as [H1 H2 H3].
    destruct (slice j mv). split; [by split|done].
  - injection Hd as <- <- <-. split_and!; [done|done|by apply frame_op|].
    cbn [pc_ok]. rewrite slice_apply_op. destruct Hok as [Hl Hn].
    rewrite <- (clear_logged _ Hl). change (tx_writes_of mv j) with (sl_log (slice j mv)).
    destruct (slice j mv). cbn in Hn. by subst.
  - apply bind_Some in Hd as (tx & Et & Hd). injection Hd as <- <- <-.
    split_and!; [done|done|by apply frame_refl|]. cbn in Hok |- *. split; [done|]. by exists tx.
  - injection Hd as <- <- <-. split_and!; [done|done|by apply frame_op|].
    cbn. by rewrite slice_apply_op.
  - destruct Hok as [Hs Hrun]. by eapply (run_step_ok mv outputs locked).
  - injection Hd as <- <- <-. split_and!; [done|done|by apply frame_refl|done].
  - injection Hd as <- <- <-. split_and!; [done|done|by apply frame_op|].
    cbn. by rewrite slice_apply_op.
  - destruct (locked j); [done|]. injection Hd as <- <- <-.
    split_and!; [done|done| |].
    + split; [done| |by rewrite length_insert|done]. intros i Hi. by rewrite list_lookup_insert_ne.
    + cbn. exists out. destruct Hok as [H1 H2]. split_and!; [|done|done].
      apply list_lookup_insert_eq. lia.
Qed.

(** ** The workers' tables *)

Lemma nobody_other workers w pc pc' j i :
  workers !! w = Some pc -> exec_of pc = Some j -> i ≠ j ->
  nobody (<[w := pc']> workers) i -> nobody workers i.
Proof.
  intros Hw He Hij Hn. apply Forall_lookup. intros w' x Hx. destruct (decide (w' = w)) as [->|Hne].
  - rewrite Hw in Hx. injection Hx as <-. congruence.
  - apply (proj1 (Forall_lookup _ _) Hn w'). by rewrite list_lookup_insert_ne.
Qed.

Lemma nobody_new workers w pc pc' i :
  workers !! w = Some pc -> exec_of pc = None -> nobody (<[w := pc']> workers) i -> nobody workers i.
Proof.
  intros Hw He Hn. apply Forall_lookup. intros w' x Hx. destruct (decide (w' = w)) as [->|Hne].
  - rewrite Hw in Hx. injection Hx as <-. congruence.
  - apply (proj1 (Forall_lookup _ _) Hn w'). by rewrite list_lookup_insert_ne.
Qed.

Lemma nobody_self workers w pc' i pc :
  workers !! w = Some pc -> nobody (<[w := pc']> workers) i -> exec_of pc' ≠ Some i.
Proof.
  intros Hw Hn. apply (proj1 (Forall_lookup _ _) Hn w). apply list_lookup_insert_eq.
  by eapply lookup_lt_Some.
Qed.

(** The other workers when one of them moves. *)
Lemma others_insert (P : Pc -> Prop) workers w pc pc' :
  workers !! w = Some pc -> (forall w' x, w' ≠ w -> workers !! w' = Some x -> P x) -> P pc' ->
  Forall P (<[w := pc']> workers).
Proof.
  intros Hw Ho Hp. apply Forall_lookup. intros w' x Hx.
  apply list_lookup_insert_Some in Hx as [(-> & <- & _)|[Hne Hx]]; eauto.
Qed.

Lemma sched_inv_move s workers w pc pc' :
  sched_inv s workers -> workers !! w = Some pc ->
  exec_of pc' = exec_of pc -> val_of pc' = val_of pc -> sched_inv s (<[w := pc']> workers).
Proof.
  intros [H1 H2 H3 H4 H5 H6 H7 H8 H9 H10 H11] Hw He Hv.
  assert (Hins : forall w' x, <[w := pc']> workers !! w' = Some x ->
    exists y, workers !! w' = Some y /\ exec_of y = exec_of x /\ val_of y = val_of x).
  { intros w' x Hx. apply list_lookup_insert_Some in Hx as [(-> & <- & _)|[Hne Hx]]; [|by eauto].
    exists pc. done. }
  split; try done.
  - intros w' x i (y & Hy & _ & <-)%Hins. by eapply H8.
  - intros w1 w2 x1 x2 i1 i2 (y1 & Hy1 & _ & <-)%Hins (y2 & Hy2 & _ & <-)%Hins. by eapply H9.
  - intros w' x i (y & Hy & <- & _)%Hins. by eapply H10.
  - intros w1 w2 x1 x2 i (y1 & Hy1 & <- & _)%Hins (y2 & Hy2 & <- & _)%Hins. by eapply H11.
Qed.

(** An executing worker is above the validated prefix. *)
Lemma exec_above s workers w pc j :
  sched_inv s workers -> workers !! w = Some pc -> exec_of pc = Some j ->
  (sc_val_cursor s <= j < length txs)%nat.
Proof.
  intros Hs Hw He. destruct (si_exec _ _ Hs w pc j Hw He) as [Hp _]. split.
  - destruct (decide (j < sc_val_cursor s)%nat) as [Hlt|]; [|lia].
    destruct (si_below _ _ Hs j Hlt) as [H|[_ H]]; congruence.
  - rewrite <- (si_status _ _ Hs). by eapply lookup_lt_Some.
Qed.

Lemma step_data_inv w pc s mv outputs workers mv' outputs' pc' locked :
  inv (mkSystem s mv outputs workers) -> workers !! w = Some pc ->
  data_step cb txs mv outputs locked pc = Some (mv', outputs', pc') ->
  inv (mkSystem s mv' outputs' (<[w := pc']> workers)).
Proof.
  intros [Hs [Hl Hc Hout0 Hp Ht]] Hw Hd. cbn in *.
  pose proof (proj1 (Forall_lookup _ _) Hp w pc Hw) as Hpc.
  destruct (exec_of pc) as [j|] eqn:He.
  - destruct (exec_above _ _ _ _ _ Hs Hw He) as [Hj1 Hj2].
    destruct (exec_step_ok mv outputs locked pc j mv' outputs' pc') as (He' & Hv' & Hf & Hpc'); auto.
    split; cbn.
    + eapply sched_inv_move; [done|done|congruence|]. rewrite Hv'. by destruct pc.
    + split; [by rewrite (fr_len _ _ _ _ _ Hf)|by apply (fr_code _ _ _ _ _ Hf)| | |].
      * intros i Hi. rewrite (fr_slice _ _ _ _ _ Hf) by lia. by apply Hout0.
      * eapply others_insert; [done| |done]. intros w' x Hne Hx.
        eapply frame_pc; [done|..|by apply (proj1 (Forall_lookup _ _) Hp w')].
        -- intros Hx'. apply Hne. by eapply (si_exec_unique _ _ Hs).
        -- intros i Hi. destruct (si_val _ _ Hs w' x i Hx Hi). lia.
      * intros i st Hi Hn. pose proof (nobody_self _ _ _ _ _ Hw Hn) as Hne.
        assert (i ≠ j) by congruence. eapply frame_tx; [done|done|].
        apply Ht; [done|]. by eapply nobody_other.
  - assert (Hstep : mv' = mv /\ outputs' = outputs /\ exec_of pc' = None /\
      val_of pc' = val_of pc /\ pc_ok mv outputs pc').
    { destruct pc as [|i|i|i ops|i evm rs|i ops out|i out|i|i|i [|e rest]|i|i]; try done;
        cbn [data_step] in Hd.
      - destruct (locked i); [done|]. injection Hd as <- <- <-.
        destruct (outputs !! i) as [[out|]|] eqn:Eo; try done. split_and!; try done.
        exists out, []. by rewrite Eo.
      - injection Hd as <- <- <-. split_and!; try done. destruct Hpc as (out & done & H1 & H2 & H3).
        exists out. rewrite app_nil_r in H2. by rewrite H2.
      - injection Hd as <- <- <-. destruct (validate_entry i mv e) eqn:Ev; [|done].
        split_and!; try done. destruct Hpc as (out & done & H1 & H2 & H3).
        exists out, (done ++ [e]). rewrite <- app_assoc. split_and!; [done|done|].
        apply Forall_app. by rewrite Forall_singleton. }
    destruct Hstep as (-> & -> & He' & Hv' & Hpc'). split; cbn.
    + eapply sched_inv_move; [done|done|congruence|done].
    + split; [done|done|done| |].
      * eapply others_insert; [done| |done]. intros w' x _ Hx. by apply (proj1 (Forall_lookup _ _) Hp w').
      * intros i st Hi Hn. apply Ht; [done|]. by eapply nobody_new.
Qed.

(** ** The scheduler's calls *)

Lemma has_status_true i st s : has_status i st s = true <-> sc_status s !! i = Some st.
Proof. apply bool_decide_eq_true. Qed.
Lemma has_status_false i st s : has_status i st s = false <-> sc_status s !! i ≠ Some st.
Proof. apply bool_decide_eq_false. Qed.

(** The redo queue changes nothing but itself and the claimed transaction. *)
Lemma pop_redo_spec s :
  (exists wq, pop_redo s = (set_redo wq s, None)) \/
  (exists wq i, sc_status s !! i = Some STATUS_REDO /\
     pop_redo s = (set_status i STATUS_PENDING (set_redo wq s), Some i)).
Proof.
  unfold pop_redo. generalize (S (length (wq_q (sc_redo s)))) as fuel. intros fuel.
  revert s. induction fuel as [|fuel IH]; intros s.
  { left. exists (sc_redo s). by destruct s. }
  cbn [pop_redo_loop]. destruct (wq_pop (sc_redo s)) as [wq [cand|]]; [|by left; exists wq].
  destruct (has_status cand STATUS_REDO (set_redo wq s)) eqn:Eh.
  - right. exists wq, cand. by apply has_status_true in Eh.
  - destruct (IH (set_redo wq s)) as [[wq' ->]|(wq' & i & Hi & ->)].
    + left. by exists wq'.
    + right. by exists wq', i.
Qed.

(** Starting the execution of a transaction that nobody executes. *)
Lemma start_execution s s' mv outputs workers w pc i :
  inv (mkSystem s mv outputs workers) -> workers !! w = Some pc -> exec_of pc = None ->
  val_of pc = None -> nobody workers i ->
  sc_status s !! i = Some STATUS_REDO /\ (i < sc_exec_cursor s)%nat /\
    sc_exec_cursor s' = sc_exec_cursor s \/
  sc_status s !! i = Some STATUS_PENDING /\ i = sc_exec_cursor s /\ sc_exec_cursor s' = S i ->
  sc_num_txs s' = sc_num_txs s -> sc_status s' = <[i := STATUS_PENDING]> (sc_status s) ->
  sc_val_cursor s' = sc_val_cursor s -> sc_validated_count s' = sc_validated_count s ->
  inv (mkSystem s' mv outputs (<[w := PClear i]> workers)).
Proof.
  intros [Hs [Hl Hc Hout0 Hp Ht]] Hw Hpe Hpv Hno Hcase E1 E2 E3 E4. cbn in *.
  assert (Hi : sc_status s !! i = Some STATUS_REDO \/ sc_status s !! i = Some STATUS_PENDING)
    by naive_solver.
  assert (Hlt : (i < length (sc_status s))%nat) by (destruct Hi; by eapply lookup_lt_Some).
  assert (Hge : (sc_val_cursor s <= i)%nat).
  { destruct (decide (i < sc_val_cursor s)%nat) as [H|]; [|lia].
    destruct (si_below _ _ Hs i H) as [H'|[_ H']]; destruct Hi; congruence. }
  assert (Hne : forall j, (j < sc_val_cursor s)%nat ->
    <[i := STATUS_PENDING]> (sc_status s) !! j = sc_status s !! j).
  { intros j Hj. apply list_lookup_insert_ne. lia. }
  assert (Hexec : (sc_exec_cursor s <= sc_exec_cursor s')%nat /\ (i < sc_exec_cursor s')%nat)
    by (destruct Hcase as [(_ & H & ->)|(_ & -> & ->)]; lia).
  assert (Hot : forall w' x, <[w := PClear i]> workers !! w' = Some x ->
    w' = w /\ x = PClear i \/ workers !! w' = Some x).
  { intros w' x Hx. apply list_lookup_insert_Some in Hx as [(-> & <- & _)|[_ Hx]]; auto. }
  assert (Hnob : forall w' x, workers !! w' = Some x -> exec_of x ≠ Some i).
  { intros w' x Hx. by apply (proj1 (Forall_lookup _ _) Hno w'). }
  split; [split|split]; cbn; rewrite ?E1, ?E2, ?E3, ?E4; try apply Hs.
  - rewrite length_insert. apply Hs.
  - intros j Hj. rewrite Hne by done. by apply (si_below _ _ Hs).
  - intros j Hj. destruct (decide (i = j)) as [<-|Hij].
    + by rewrite list_lookup_insert_eq.
    + rewrite list_lookup_insert_ne by done. by apply (si_above _ _ Hs).
  - rewrite (si_count _ _ Hs). destruct (sc_val_cursor s) as [|c]; [done|].
    by rewrite Hne by lia.
  - intros j Hj. destruct (decide (i = j)) as [<-|Hij]; [by apply list_lookup_insert_eq|].
    rewrite list_lookup_insert_ne by done. apply (si_fresh _ _ Hs). lia.
  - intros w' x j [[-> ->]|Hx]%Hot; [done|]. intros Hv.
    destruct (si_val _ _ Hs w' x j Hx Hv) as [H1 H2]. by rewrite Hne by lia.
  - intros w1 w2 x1 x2 i1 i2 [[-> ->]|H1]%Hot [[-> ->]|H2]%Hot; try done.
    by apply (si_val_unique _ _ Hs).
  - intros w' x j [[-> ->]|Hx]%Hot.
    + intros [= <-]. split; [by apply list_lookup_insert_eq|lia].
    + intros He. destruct (si_exec _ _ Hs w' x j Hx He) as [H1 H2]. split; [|lia].
      rewrite list_lookup_insert_ne; [done|]. intros ->. by eapply Hnob.
  - intros w1 w2 x1 x2 j [[-> ->]|H1]%Hot [[-> ->]|H2]%Hot; try done.
    + intros [= <-] He. by destruct (Hnob w2 x2 H2).
    + intros He [= <-]. by destruct (Hnob w1 x1 H1).
    + by apply (si_exec_unique _ _ Hs).
  - done.
  - done.
  - done.
  - eapply others_insert; [done| |].
    + intros w' x _ Hx. by apply (proj1 (Forall_lookup _ _) Hp w').
    + cbn. destruct Hi as [Hi|Hi]; exact (Ht i _ Hi Hno).
  - intros j st Hj Hn. pose proof (nobody_self _ _ _ _ _ Hw Hn) as Hne'. cbn in Hne'.
    rewrite list_lookup_insert_ne in Hj by congruence. apply Ht; [done|]. by eapply nobody_new.
Qed.

(** Nothing but the redo queue or the overshooting cursor changed. *)
Lemma inv_idle s s' mv outputs workers w pc :
  inv (mkSystem s mv outputs workers) -> workers !! w = Some pc -> exec_of pc = None ->
  val_of pc = None -> sc_num_txs s' = sc_num_txs s -> sc_status s' = sc_status s ->
  sc_val_cursor s' = sc_val_cursor s -> sc_validated_count s' = sc_validated_count s ->
  (sc_exec_cursor s <= sc_exec_cursor s')%nat ->
  inv (mkSystem s' mv outputs (<[w := PIdle]> workers)).
Proof.
  intros [Hs [Hl Hc Hout0 Hp Ht]] Hw Hpe Hpv E1 E2 E3 E4 Hle. cbn in *.
  pose proof (sched_inv_move s workers w pc PIdle Hs Hw (eq_sym Hpe) (eq_sym Hpv)) as Hs'.
  destruct Hs' as [H1 H2 H3 H4 H5 H6 H7 H8 H9 H10 H11].
  split; [split|split]; cbn; rewrite ?E1, ?E2, ?E3, ?E4; try done.
  - intros i Hi. apply H7. lia.
  - intros w' x i Hx He. destruct (H10 w' x i Hx He). split; [done|lia].
  - eapply others_insert; [done| |done]. intros w' x _ Hx. by apply (proj1 (Forall_lookup _ _) Hp w').
  - intros i st Hi Hn. apply Ht; [done|]. by eapply nobody_new.
Qed.

Lemma nobody_status s workers i st :
  sched_inv s workers -> sc_status s !! i = Some st -> st ≠ STATUS_PENDING -> nobody workers i.
Proof.
  intros Hs Hi Hst. apply Forall_lookup. intros w x Hx He.
  destruct (si_exec _ _ Hs w x i Hx He) as [Hp _]. congruence.
Qed.

(** Claiming the validation at the end of the validated prefix. *)
Lemma claim_inv s s' mv outputs workers w pc v :
  inv (mkSystem s mv outputs workers) -> workers !! w = Some pc -> exec_of pc = None ->
  val_of pc = None -> v = sc_val_cursor s -> (v < length txs)%nat ->
  sc_status s !! v = Some STATUS_EXECUTED ->
  (v ≠ 0%nat -> sc_status s !! Nat.pred v = Some STATUS_VALIDATED) ->
  sc_num_txs s' = sc_num_txs s -> sc_status s' = sc_status s -> sc_val_cursor s' = S v ->
  sc_validated_count s' = sc_validated_count s -> (sc_exec_cursor s <= sc_exec_cursor s')%nat ->
  inv (mkSystem s' mv outputs (<[w := PLocking v]> workers)).
Proof.
  intros [Hs [Hl Hc Hout0 Hp Ht]] Hw Hpe Hpv Hv Hlt Hx Hpred E1 E2 E3 E4 Hle. cbn in *.
  assert (Hnov : forall w' x i, workers !! w' = Some x -> val_of x ≠ Some i).
  { intros w' x i Hx' Hi. destruct (si_val _ _ Hs w' x i Hx' Hi) as [Hi1 Hi2].
    rewrite <- Hv in Hi1. rewrite <- Hi1 in Hpred. cbn in Hpred. rewrite Hpred in Hi2; [done|lia]. }
  assert (Hot : forall w' x, <[w := PLocking v]> workers !! w' = Some x ->
    w' = w /\ x = PLocking v \/ workers !! w' = Some x).
  { intros w' x Hx'. apply list_lookup_insert_Some in Hx' as [(-> & <- & _)|[_ Hx']]; auto. }
  split; [split|split]; cbn; rewrite ?E1, ?E2, ?E3, ?E4; try apply Hs; try done.
  - intros i Hi. destruct (decide (i = v)) as [->|Hne]; [by right|]. left.
    destruct (si_below _ _ Hs i) as [H|[H1 H2]]; [lia|done|].
    rewrite <- Hv in H1. rewrite <- H1 in Hpred. cbn in Hpred. apply Hpred. lia.
  - intros i Hi. apply (si_above _ _ Hs). lia.
  - rewrite (si_count _ _ Hs), <- Hv, Hx. rewrite decide_False by done.
    destruct v as [|c]; [done|]. cbn in Hpred. by rewrite decide_True by (apply Hpred; lia).
  - intros i Hi. apply (si_fresh _ _ Hs). lia.
  - intros w' x i [[-> ->]|Hx']%Hot; [intros [= <-]; done|]. intros Hi. by destruct (Hnov w' x i).
  - intros w1 w2 x1 x2 i1 i2 [[-> ->]|H1]%Hot [[-> ->]|H2]%Hot; try done.
    + intros _ Hi. by destruct (Hnov w2 x2 i2).
    + intros Hi _. by destruct (Hnov w1 x1 i1).
    + intros Hi _. by destruct (Hnov w1 x1 i1).
  - intros w' x i [[-> ->]|Hx']%Hot; [done|]. intros He.
    destruct (si_exec _ _ Hs w' x i Hx' He). split; [done|lia].
  - intros w1 w2 x1 x2 i [[-> ->]|H1]%Hot [[-> ->]|H2]%Hot; try done. by apply (si_exec_unique _ _ Hs).
  - eapply others_insert; [done| |done]. intros w' x _ Hx'. by apply (proj1 (Forall_lookup _ _) Hp w').
  - intros i st Hi Hn. apply Ht; [done|]. by eapply nobody_new.
Qed.

Lemma next_task_inv s mv outputs workers w s' task :
  inv (mkSystem s mv outputs workers) -> workers !! w = Some PIdle -> next_task s = (s', task) ->
  inv (mkSystem s' mv outputs (<[w := task_pc task]> workers)).
Proof.
  intros Hi Hw Hn. pose proof Hi as [Hs _]. cbn in Hs. unfold next_task in Hn.
  destruct (pop_redo_spec s) as [[wq E]|(wq & i & Hr & E)]; rewrite E in Hn; cbn in Hn.
  2: { injection Hn as <- <-. eapply (start_execution s); try done.
       - by eapply nobody_status.
       - left. split_and!; [done| |done].
         destruct (decide (sc_exec_cursor s <= i)%nat) as [Hge|]; [|lia].
         rewrite (si_fresh _ _ Hs) in Hr; [done|]. split; [done|].
         rewrite <- (si_status _ _ Hs). by eapply lookup_lt_Some. }
  destruct (Nat.ltb_spec (sc_exec_cursor s) (sc_num_txs s)) as [Hlt|Hge].
  - injection Hn as <- <-. rewrite (si_num _ _ Hs) in Hlt.
    assert (Hpend : sc_status s !! sc_exec_cursor s = Some STATUS_PENDING)
      by (apply (si_fresh _ _ Hs); lia).
    eapply (start_execution s); try done.
    + apply Forall_lookup. intros w' x Hx He. destruct (si_exec _ _ Hs w' x _ Hx He). lia.
    + by right.
    + cbn. by rewrite list_insert_id.
  - unfold claim_validation in Hn. cbn in Hn.
    assert (Hidle : inv (mkSystem (set_exec_cursor (S (sc_exec_cursor s)) (set_redo wq s)) mv outputs
      (<[w := PIdle]> workers))) by (eapply (inv_idle s); try done; cbn; lia).
    destruct (Nat.leb_spec (sc_num_txs s) (sc_val_cursor s)); [by injection Hn as <- <-|].
    match type of Hn with context [has_status ?v STATUS_EXECUTED ?x] =>
      destruct (has_status v STATUS_EXECUTED x) eqn:Ex end; cbn in Hn; [|by injection Hn as <- <-].
    match type of Hn with context [(?b && negb ?c)%bool] =>
      destruct (b && negb c)%bool eqn:Ep end; cbn in Hn; [by injection Hn as <- <-|].
    injection Hn as <- <-. apply has_status_true in Ex.
    eapply (claim_inv s); try done; cbn.
    + rewrite <- (si_num _ _ Hs). lia.
    + intros Hv. apply andb_false_iff in Ep as [Ep|Ep].
      * apply Nat.ltb_ge in Ep. lia.
      * apply negb_false_iff in Ep. by apply has_status_true in Ep.
    + lia.
Qed.

Lemma finish_execution_inv s mv outputs workers w i :
  inv (mkSystem s mv outputs workers) -> workers !! w = Some (PExecuted i) ->
  inv (mkSystem (finish_execution i s) mv outputs (<[w := PIdle]> workers)).
Proof.
  intros [Hs [Hl Hc Hout0 Hp Ht]] Hw. cbn in *.
  destruct (exec_above _ _ _ _ _ Hs Hw eq_refl) as [Hi1 Hi2].
  pose proof (proj1 (Forall_lookup _ _) Hp w _ Hw) as Hpc. cbn in Hpc.
  destruct (si_exec _ _ Hs w _ i Hw eq_refl) as [Hpend Hcur].
  assert (Hlen : (i < length (sc_status s))%nat) by by eapply lookup_lt_Some.
  assert (Hne : forall j, i ≠ j -> <[i := STATUS_EXECUTED]> (sc_status s) !! j = sc_status s !! j).
  { intros j Hj. by apply list_lookup_insert_ne. }
  assert (Hot : forall w' x, <[w := PIdle]> workers !! w' = Some x ->
    x = PIdle \/ w' ≠ w /\ workers !! w' = Some x).
  { intros w' x Hx'. apply list_lookup_insert_Some in Hx' as [(-> & <- & _)|[? Hx']]; auto. }
  split; [split|split]; cbn; try apply Hs; try done.
  - rewrite length_insert. apply Hs.
  - intros j Hj. rewrite Hne by lia. by apply (si_below _ _ Hs).
  - intros j Hj. destruct (decide (i = j)) as [<-|Hij]; [by rewrite list_lookup_insert_eq|].
    rewrite Hne by done. by apply (si_above _ _ Hs).
  - rewrite (si_count _ _ Hs). destruct (sc_val_cursor s) as [|c]; [done|]. by rewrite Hne by lia.
  - intros j Hj. rewrite Hne by lia. by apply (si_fresh _ _ Hs).
  - intros w' x j [->|[_ Hx]]%Hot; [done|]. intros Hv.
    destruct (si_val _ _ Hs w' x j Hx Hv) as [H1 H2]. by rewrite Hne by lia.
  - intros w1 w2 x1 x2 i1 i2 [->|[_ H1]]%Hot [->|[_ H2]]%Hot; try done. by apply (si_val_unique _ _ Hs).
  - intros w' x j [->|[Hne' Hx]]%Hot; [done|]. intros He.
    destruct (si_exec _ _ Hs w' x j Hx He) as [H1 H2]. rewrite Hne; [done|].
    intros ->. apply Hne'. by eapply (si_exec_unique _ _ Hs).
  - intros w1 w2 x1 x2 j [->|[_ H1]]%Hot [->|[_ H2]]%Hot; try done. by apply (si_exec_unique _ _ Hs).
  - eapply others_insert; [done| |done]. intros w' x _ Hx. by apply (proj1 (Forall_lookup _ _) Hp w').
  - intros j st Hj Hn. destruct (decide (i = j)) as [<-|Hij].
    + rewrite list_lookup_insert_eq in Hj by done. by injection Hj as <-.
    + rewrite Hne in Hj by done. apply Ht; [done|]. by eapply nobody_other.
Qed.

(** Below the validation in progress the memory is that of the sequential run. *)
Lemma settled_below s mv outputs workers i :
  inv (mkSystem s mv outputs workers) -> (i <= length txs)%nat ->
  (forall j, (j < i)%nat -> sc_status s !! j = Some STATUS_VALIDATED) ->
  same_below i mv (seq_mv cb txs i).
Proof.
  intros [Hs [Hl Hc Hout0 Hp Ht]] Hi Hv j Hj. cbn in *.
  destruct (Ht j STATUS_VALIDATED) as (out & (_ & Hsl & _) & Hout); [by apply Hv| |].
  { eapply nobody_status; [done|by apply Hv|done]. }
  destruct (seq_mv_spec cb txs i) as [_ Hseq]. by rewrite Hseq, decide_True, Hout, Hsl.
Qed.

(** A passed validation shows the output of the sequential run. *)
Lemma validated_output s mv outputs workers w i :
  inv (mkSystem s mv outputs workers) -> workers !! w = Some (PValid i) ->
  exists out, published mv outputs i out /\ seq_out cb txs i = Some out.
Proof.
  intros Hinv Hw. pose proof Hinv as [Hs [Hl Hc Hout0 Hp Ht]]. cbn in *.
  pose proof (proj1 (Forall_lookup _ _) Hp w _ Hw) as (out & Ho & Hval).
  destruct (si_val _ _ Hs w _ i Hw eq_refl) as [Hcur Hex].
  destruct (Ht i _ Hex) as (out' & Hpub); [by eapply nobody_status|].
  pose proof Hpub as (Ho' & Hsl & tx & r & Htx & Hran & Hout). assert (out' = out) as -> by congruence.
  exists out. split; [done|].
  assert (Hb : same_below i mv (seq_mv cb txs i)).
  { eapply settled_below; [done| |].
    - rewrite <- (si_status _ _ Hs). apply Nat.lt_le_incl. by eapply lookup_lt_Some.
    - intros j Hj. destruct (si_below _ _ Hs j) as [H|[H _]]; [lia|done|lia]. }
  unfold seq_out, execute_single_tx. rewrite Htx. cbn. f_equal.
  rewrite <- (run_evm_below cb i (transact tx) [] mv) by (done || apply seq_mv_spec).
  by rewrite (ran_valid cb basic_total storage_total _ _ r i mv [] Hran Hc Hval).
Qed.

Lemma finish_validation_inv s mv outputs workers w i :
  inv (mkSystem s mv outputs workers) -> workers !! w = Some (PValid i) ->
  inv (mkSystem (finish_validation i s) mv outputs (<[w := PIdle]> workers)).
Proof.
  intros Hinv Hw. destruct (validated_output _ _ _ _ _ _ Hinv Hw) as (out & Hpub & Hseq).
  destruct Hinv as [Hs [Hl Hc Hout0 Hp Ht]]. cbn in *.
  destruct (si_val _ _ Hs w _ i Hw eq_refl) as [Hcur Hex].
  assert (Hlen : (i < length (sc_status s))%nat) by by eapply lookup_lt_Some.
  unfold finish_validation. rewrite (proj2 (has_status_true _ _ _) Hex).
  assert (Hne : forall j, i ≠ j -> <[i := STATUS_VALIDATED]> (sc_status s) !! j = sc_status s !! j).
  { intros j Hj. by apply list_lookup_insert_ne. }
  assert (Hot : forall w' x, <[w := PIdle]> workers !! w' = Some x ->
    x = PIdle \/ w' ≠ w /\ workers !! w' = Some x).
  { intros w' x Hx'. apply list_lookup_insert_Some in Hx' as [(-> & <- & _)|[? Hx']]; auto. }
  assert (Hnov : forall w' x j, w' ≠ w -> workers !! w' = Some x -> val_of x ≠ Some j).
  { intros w' x j Hw' Hx Hj. apply Hw'. by eapply (si_val_unique _ _ Hs). }
  split; [split|split]; cbn; try apply Hs; try done.
  - rewrite length_insert. apply Hs.
  - intros j Hj. left. destruct (decide (i = j)) as [<-|Hij]; [by apply list_lookup_insert_eq|].
    rewrite Hne by done. destruct (si_below _ _ Hs j Hj) as [H|[H _]]; [done|lia].
  - intros j Hj. rewrite Hne by lia. by apply (si_above _ _ Hs).
  - rewrite (si_count _ _ Hs), <- Hcur. rewrite Hex, decide_False by done.
    by rewrite list_lookup_insert_eq, decide_True.
  - intros j Hj. rewrite Hne; [by apply (si_fresh _ _ Hs)|]. intros ->.
    rewrite (si_fresh _ _ Hs) in Hex by done. done.
  - intros w' x j [->|[Hw' Hx]]%Hot; [done|]. intros Hv. by destruct (Hnov w' x j).
  - intros w1 w2 x1 x2 i1 i2 [->|[Hw1 H1]]%Hot; [done|]. intros _ Hv _. by destruct (Hnov w1 x1 i1).
  - intros w' x j [->|[Hne' Hx]]%Hot; [done|]. intros He.
    destruct (si_exec _ _ Hs w' x j Hx He) as [H1 H2]. rewrite Hne; [done|congruence].
  - intros w1 w2 x1 x2 j [->|[_ H1]]%Hot [->|[_ H2]]%Hot; try done. by apply (si_exec_unique _ _ Hs).
  - eapply others_insert; [done| |done]. intros w' x _ Hx. by apply (proj1 (Forall_lookup _ _) Hp w').
  - intros j st Hj Hn. destruct (decide (i = j)) as [<-|Hij].
    + rewrite list_lookup_insert_eq in Hj by done. injection Hj as <-. by exists out.
    + rewrite Hne in Hj by done. apply Ht; [done|]. by eapply nobody_new.
Qed.

(** ** Aborts *)

(** The status of a transaction after the loop over [l]. *)
Definition redone (l : list TxIdx) (status : list Status) (j : TxIdx) : option Status :=
  if decide (j ∈ l /\ (status !! j = Some STATUS_EXECUTED \/ status !! j = Some STATUS_VALIDATED))
  then Some STATUS_REDO else status !! j.

Lemma invalidate_one s k i :
  exists wq, (invalidate (s, k) i).1 =
      (if decide (sc_status s !! i = Some STATUS_EXECUTED \/ sc_status s !! i = Some STATUS_VALIDATED)
       then set_redo wq (set_status i STATUS_REDO s) else s) /\
    (sc_status s !! i ≠ Some STATUS_VALIDATED -> (invalidate (s, k) i).2 = k).
Proof.
  exists (wq_push i (sc_redo s)). unfold invalidate, has_status.
  case_bool_decide as E1; [|case_bool_decide as E2]; cbn [orb fst snd].
  - rewrite decide_True by auto. rewrite bool_decide_eq_false_2 by congruence. split; [done|lia].
  - rewrite decide_True by auto. done.
  - rewrite decide_False by tauto. done.
Qed.

Lemma invalidate_fold l s k :
  let r := foldl invalidate (s, k) l in
  (exists st wq, r.1 = mkScheduler (sc_num_txs s) st (sc_exec_cursor s) (sc_val_cursor s)
                         (sc_validated_count s) wq /\
     length st = length (sc_status s) /\ forall j, st !! j = redone l (sc_status s) j) /\
  ((forall j, j ∈ l -> sc_status s !! j ≠ Some STATUS_VALIDATED) -> r.2 = k).
Proof.
  revert s k. induction l as [|i l IH]; intros s k; cbn [foldl].
  { split; [|done]. exists (sc_status s), (sc_redo s). split_and!; [by destruct s|done|].
    intros j. unfold redone. case_decide as Hd; [|done]. set_solver. }
  destruct (invalidate_one s k i) as (wq & E1 & E2).
  destruct (invalidate (s, k) i) as [s1 k1] eqn:Ei. cbn [fst snd] in E1, E2.
  destruct (IH s1 k1) as [(st & wq' & Er & Hlen & Hst) Hk]. cbn zeta.
  assert (Hs1 : (exists wq, s1 = mkScheduler (sc_num_txs s) (sc_status s1) (sc_exec_cursor s)
      (sc_val_cursor s) (sc_validated_count s) wq) /\ length (sc_status s1) = length (sc_status s) /\
      forall j, sc_status s1 !! j = redone [i] (sc_status s) j).
  { rewrite E1. unfold redone.
    case_decide as Hd; cbn; (split_and!; [by destruct s; eexists|by rewrite ?length_insert|]).
    - intros j. destruct (decide (i = j)) as [<-|Hij].
      + rewrite decide_True by (split; [left|done]). apply list_lookup_insert_eq.
        destruct Hd; by eapply lookup_lt_Some.
      + rewrite list_lookup_insert_ne, decide_False by (done || set_solver). done.
    - intros j. rewrite decide_False; [done|]. by intros [->%list_elem_of_singleton ?]. }
  destruct Hs1 as ([wq1 Es1] & Hlen1 & Hst1). split.
  - exists st, wq'. split_and!; [rewrite Er, Es1; done|lia|].
    intros j. rewrite Hst. unfold redone. rewrite Hst1. unfold redone.
    repeat case_decide; try done; exfalso;
      rewrite ?list_elem_of_singleton, ?elem_of_cons in *; intuition congruence.
  - intros Hno. rewrite Hk; [by apply E2, Hno; left|]. intros j Hj. rewrite Hst1. unfold redone.
    clear E1. case_decide; [done|]. apply Hno. by right.
Qed.

(** An abort of the validation in progress, as one change. *)
Lemma abort_spec s workers w i :
  sched_inv s workers -> workers !! w = Some (PInvalid i) ->
  exists st wq, abort_and_reschedule i s =
      mkScheduler (sc_num_txs s) st (sc_exec_cursor s) i (sc_validated_count s) wq /\
    length st = length (sc_status s) /\
    forall j, st !! j =
      if decide (i <= j)%nat then
        if decide (sc_status s !! j = Some STATUS_EXECUTED) then Some STATUS_REDO
        else sc_status s !! j
      else sc_status s !! j.
Proof.
  intros Hs Hw. destruct (si_val _ _ Hs w _ i Hw eq_refl) as [Hcur Hex].
  assert (Hlen : (i < length (sc_status s))%nat) by by eapply lookup_lt_Some.
  unfold abort_and_reschedule, has_status at 1.
  rewrite bool_decide_eq_false_2 by congruence. cbn [sc_redo set_status sc_val_cursor set_redo sc_num_txs].
  rewrite (proj2 (Nat.ltb_lt _ _)) by lia.
  set (s1 := set_val_cursor i (set_redo (wq_push i (sc_redo s)) (set_status i STATUS_REDO s))).
  destruct (invalidate_fold (seq (S i) (sc_num_txs s1 - S i)) s1 0)
    as [(st & wq & Er & Hlst & Hst) Hk]. cbn zeta in *.
  destruct (foldl invalidate (s1, 0%nat) (seq (S i) (sc_num_txs s1 - S i))) as [s2 k]. cbn [fst snd] in *.
  assert (Hother : forall j, j ≠ i -> sc_status s1 !! j = sc_status s !! j)
    by (intros j Hj; cbn; by rewrite list_lookup_insert_ne).
  rewrite Hk.
  2: { intros j [Hj _]%elem_of_seq. rewrite Hother by lia. apply (si_above _ _ Hs). lia. }
  exists st, wq. rewrite Er. split_and!.
  - unfold decrement_validated_count, set_count. cbn. by rewrite Nat.sub_0_r.
  - rewrite Hlst. cbn. by rewrite length_insert.
  - intros j. rewrite Hst. unfold redone. destruct (decide (j = i)) as [->|Hj].
    + rewrite (decide_True (P := (i <= i)%nat)), (decide_True (P := _ = Some STATUS_EXECUTED)) by done.
      rewrite decide_False by (rewrite elem_of_seq; lia). cbn. by apply list_lookup_insert_eq.
    + rewrite Hother by done. destruct (decide (i <= j)%nat) as [Hle|Hle].
      2: { rewrite decide_False; [done|]. rewrite elem_of_seq. lia. }
      pose proof (si_above _ _ Hs j ltac:(lia)) as Hnv.
      destruct (decide (sc_status s !! j = Some STATUS_EXECUTED)) as [He|He].
      * apply decide_True. split; [|by left]. apply elem_of_seq. apply lookup_lt_Some in He.
        rewrite (si_status _ _ Hs) in He. cbn. rewrite (si_num _ _ Hs). lia.
      * apply decide_False. tauto.
Qed.

Lemma abort_inv s mv outputs workers w i :
  inv (mkSystem s mv outputs workers) -> workers !! w = Some (PInvalid i) ->
  inv (mkSystem (abort_and_reschedule i s) mv outputs (<[w := PIdle]> workers)).
Proof.
  intros [Hs [Hl Hc Hout0 Hp Ht]] Hw. cbn in *.
  destruct (si_val _ _ Hs w _ i Hw eq_refl) as [Hcur Hex].
  destruct (abort_spec s workers w i Hs Hw) as (st & wq & -> & Hlen & Hst).
  assert (Hpend : forall j, sc_status s !! j = Some STATUS_PENDING -> st !! j = Some STATUS_PENDING).
  { intros j Hj. rewrite Hst. by repeat case_decide; congruence. }
  assert (Hot : forall w' x, <[w := PIdle]> workers !! w' = Some x ->
    x = PIdle \/ w' ≠ w /\ workers !! w' = Some x).
  { intros w' x Hx'. apply list_lookup_insert_Some in Hx' as [(-> & <- & _)|[? Hx']]; auto. }
  assert (Hnov : forall w' x j, w' ≠ w -> workers !! w' = Some x -> val_of x ≠ Some j).
  { intros w' x j Hw' Hx Hj. apply Hw'. by eapply (si_val_unique _ _ Hs). }
  assert (Hbelow : forall j, (j < i)%nat -> st !! j = Some STATUS_VALIDATED).
  { intros j Hj. rewrite Hst, decide_False by lia.
    destruct (si_below _ _ Hs j) as [H|[H _]]; [lia|done|lia]. }
  split; [split|split]; cbn; try done.
  - apply Hs.
  - rewrite Hlen. apply Hs.
  - pose proof (si_cursor _ _ Hs). lia.
  - intros j Hj. left. by apply Hbelow.
  - intros j Hj. rewrite Hst, decide_True by done. case_decide; [done|].
    destruct (decide (j = i)) as [->|]; [congruence|]. apply (si_above _ _ Hs). lia.
  - rewrite (si_count _ _ Hs), <- Hcur. rewrite Hex, decide_False by done.
    destruct i as [|c]; [done|]. rewrite Hbelow by lia. by rewrite decide_True.
  - intros j Hj. by apply Hpend, (si_fresh _ _ Hs).
  - intros w' x j [->|[Hw' Hx]]%Hot; [done|]. intros Hv. by destruct (Hnov w' x j).
  - intros w1 w2 x1 x2 i1 i2 [->|[Hw1 H1]]%Hot; [done|]. intros _ Hv _. by destruct (Hnov w1 x1 i1).
  - intros w' x j [->|[Hne' Hx]]%Hot; [done|]. intros He.
    destruct (si_exec _ _ Hs w' x j Hx He) as [H1 H2]. split; [by apply Hpend|done].
  - intros w1 w2 x1 x2 j [->|[_ H1]]%Hot [->|[_ H2]]%Hot; try done. by apply (si_exec_unique _ _ Hs).
  - eapply others_insert; [done| |done]. intros w' x _ Hx. by apply (proj1 (Forall_lookup _ _) Hp w').
  - intros j x Hj Hn. apply (nobody_new _ _ (PInvalid i) _ _ Hw eq_refl) in Hn.
    rewrite Hst in Hj. repeat case_decide; try by apply Ht.
    injection Hj as <-. destruct (Ht j STATUS_EXECUTED) as (out & _ & Hsl & _); [done|done|].
    cbn. rewrite Hsl. apply logged_pub.
Qed.

(** ** Every reachable state *)

Lemma step_inv sys sys' : inv sys -> step cb txs sys sys' -> inv sys'.
Proof.
  intros Hi Hs. destruct Hs as [w pc s mv outputs workers mv' outputs' pc' Hw Hd
                               |w pc s mv outputs workers s' pc' Hw Hc].
  - by eapply step_data_inv.
  - destruct pc as [|i|i|i ops|i evm rs|i ops out|i out|i|i|i rest|i|i]; try done; cbn in Hc.
    + destruct (next_task s) as [s1 task] eqn:En. injection Hc as <- <-. by eapply next_task_inv.
    + injection Hc as <- <-. by apply finish_execution_inv.
    + injection Hc as <- <-. by apply finish_validation_inv.
    + injection Hc as <- <-. by apply abort_inv.
Qed.

Lemma reachable_inv workers sys :
  rtc (step cb txs) (system_new (length txs) workers) sys -> inv sys.
Proof.
  intros Hr. pose proof (inv_new workers) as Hi. revert Hi.
  induction Hr as [|s1 s2 s3 Hstep _ IH]; [done|]. intros Hi. by eapply IH, step_inv.
Qed.

(** When all is done and no worker is at work, the outputs and the deltas are
    those of the sequential run. *)
Lemma done_outputs sys :
  inv sys -> quiescent sys -> all_done (sy_sched sys) = true ->
  sy_outputs sys = seq_out cb txs <$> seq 0 (length txs) /\
  forall i, (i < length txs)%nat -> slice i (sy_mv sys) = match seq_out cb txs i with
                                            | Some out => pub out
                                            | None => empty_slice
                                            end.
Proof.
  destruct sys as [s mv outputs workers]. intros [Hs [Hl Hc Hout0 Hp Ht]] Hq Hd. cbn in *.
  unfold all_done in Hd. apply Nat.leb_le in Hd. rewrite (si_num _ _ Hs) in Hd.
  pose proof (si_cursor _ _ Hs) as Hcur. pose proof (si_count _ _ Hs) as Hcount.
  assert (Hval : forall i, (i < length txs)%nat ->
    exists out, published mv outputs i out /\ seq_out cb txs i = Some out).
  { intros i Hi. apply (Ht i STATUS_VALIDATED).
    - destruct (sc_val_cursor s) as [|c] eqn:Ec; [lia|]. case_decide as Hv; [|lia].
      destruct (si_below _ _ Hs i) as [H|[H1 H2]]; [lia|done|].
      rewrite Ec in H1. injection H1 as ->. done.
    - eapply Forall_impl; [exact Hq|]. by intros x ->. }
  split.
  - apply list_eq. intros i. rewrite list_lookup_fmap.
    destruct (decide (i < length txs)%nat) as [Hi|Hi].
    + destruct (Hval i Hi) as (out & (Ho & _) & E). rewrite lookup_seq_lt by done. cbn.
      by rewrite Ho, E.
    + rewrite !lookup_ge_None_2; [done|rewrite length_seq; lia|lia].
  - intros i Hi. by destruct (Hval i Hi) as (out & (_ & -> & _) & ->).
Qed.
End invariant.
