(* ===== verification/BlockStmSafety.v ===== *)
(** * What parallel execution promises

    When the calls of the scheduler are atomic and the base database can be read,
    the result of a block does not depend on how the workers interleave, and
    without a deferred beneficiary it is the result of sequential execution.
    [BlockStmRaces] takes the calls apart. *)

From S2P Require Import Prelude Effects MvMemory BlockStm BlockStmTheory BlockStmInvariant.

Section reference.
Context {db : BaseDb} {revm : Revm}.

(** The block executed one transaction after the other with the plan [cb]. *)
Definition reference (cb : option DeferredCoinbase) (txs : list TxEnv)
  : result ParallelEvmError ParallelExecutionOutput :=
  let outputs := seq_out cb txs <$> seq 0 (length txs) in
  if bool_decide (is_Some cb)
     && existsb (fun out => match out with
                            | Some out => to_deferred_bene_invalidated out
                            | None => false
                            end) outputs
  then Ok (sequential_execute txs)
  else
    output ← build_output outputs;
    Ok (match cb with
        | Some c => materialize c (sum_bene_deltas (seq_mv cb txs (length txs))) output
        | None => output
        end).

Lemma extract_no_delta l out :
  to_bene_delta (foldl (extract_account None) out l) = to_bene_delta out.
Proof.
  revert out. induction l as [|[a acc] l IH]; intros out; [done|]. cbn [foldl]. rewrite IH.
  destruct out. unfold extract_account. cbn. repeat case_match; done.
Qed.

Lemma run_no_delta i evm rs mv : to_bene_delta (run_evm None i evm rs mv).2 = None.
Proof.
  revert rs mv. induction evm as [r| |a k IH|a index k IH|h k IH|n k IH]; intros rs mv; cbn [run_evm].
  - cbn. unfold finished_output. by rewrite extract_no_delta.
  - done.
  - destruct (db_basic None mv i a) as [[]|]; auto.
  - destruct (db_storage mv i a index) as [[]|]; auto.
  - destruct (db_code_by_hash mv h) as [[]|]; auto.
  - destruct (block_hash_ref n); auto.
Qed.

Lemma sequential_from_spec txs i acc :
  (i <= length txs)%nat ->
  build_output_from i (seq_out None txs <$> seq i (length txs - i)) acc =
  Ok (sequential_from i (drop i txs) (seq_mv None txs i) acc).
Proof.
  intros Hi. remember (length txs - i)%nat as n eqn:En. revert i acc Hi En.
  induction n as [|n IH]; intros i acc Hi En.
  - rewrite drop_ge by lia. done.
  - destruct (lookup_lt_is_Some_2 txs i) as [tx Htx]; [lia|].
    rewrite (drop_S _ _ _ Htx). cbn [seq fmap list_fmap sequential_from].
    unfold seq_out at 1. rewrite Htx. cbn [fmap option_fmap option_map build_output_from].
    destruct (execute_single_tx None i tx (seq_mv None txs i)) as [mv out] eqn:Eo.
    assert (Hmv : seq_mv None txs (S i) = apply_ops i (tx_ops out) mv) by
      (cbn [seq_mv]; by rewrite Htx, Eo).
    pose proof (run_no_delta i (transact tx) [] (seq_mv None txs i)) as Hd.
    unfold execute_single_tx in Eo. rewrite Eo in Hd. cbn [snd] in Hd |- *.
    rewrite IH by lia. unfold tx_ops in Hmv. rewrite Hd, app_nil_r in Hmv.
    unfold apply_ops in *. rewrite foldl_app in Hmv. by rewrite Hmv.
Qed.

Lemma reference_none txs : reference None txs = Ok (sequential_execute txs).
Proof.
  unfold reference, build_output, sequential_execute. cbn zeta.
  rewrite bool_decide_eq_false_2 by by intros []. cbn [andb].
  pose proof (sequential_from_spec txs 0 (mkParallelOutput [] ∅) ltac:(lia)) as H.
  rewrite Nat.sub_0_r in H. rewrite H. done.
Qed.

Lemma deltas_ext mv mv' :
  (forall i, slice i mv = slice i mv') -> mv_bene_deltas mv = mv_bene_deltas mv'.
Proof. intros H. apply map_eq. intros i. exact (f_equal sl_delta (H i)). Qed.

Section total.
Hypothesis basic_total : forall a, is_Some (basic_ref a).
Hypothesis storage_total : forall a k, is_Some (storage_ref a k).

Lemma parallel_result_reference cb txs workers sys :
  rtc (step cb txs) (system_new (length txs) workers) sys -> quiescent sys ->
  parallel_result cb txs sys =
    if all_done (sy_sched sys) then reference cb txs else Ok (sequential_execute txs).
Proof.
  intros Hr Hq. unfold parallel_result. destruct (all_done (sy_sched sys)) eqn:Ed; [|done].
  pose proof (reachable_inv cb txs basic_total storage_total workers sys Hr) as Hi.
  destruct (done_outputs cb txs sys Hi Hq Ed) as [Ho Hsl]. cbn [negb].
  assert (Hd : mv_bene_deltas (sy_mv sys) = mv_bene_deltas (seq_mv cb txs (length txs))).
  { apply deltas_ext. intros i. destruct (seq_mv_spec cb txs (length txs)) as [_ ->].
    destruct Hi as [_ [_ _ Hout _ _]]. case_decide; [by apply Hsl|apply Hout; lia]. }
  rewrite Ho. unfold reference, sum_bene_deltas. by rewrite Hd.
Qed.
End total.
End reference.

Section promises.
Context {db : BaseDb} {revm : Revm}.

(** With atomic calls the result of a block is that of sequential execution,
    or, with a deferred beneficiary, the one the plan has in order. *)
Lemma atomic_calls_serialisable cb txs workers sys :
  (forall a, is_Some (basic_ref a)) -> (forall a k, is_Some (storage_ref a k)) ->
  rtc (step cb txs) (system_new (length txs) workers) sys -> quiescent sys ->
  (cb = None -> parallel_result cb txs sys = Ok (sequential_execute txs)) /\
  (parallel_result cb txs sys = reference cb txs \/
   parallel_result cb txs sys = Ok (sequential_execute txs)).
Proof.
  intros Hb Hs Hr Hq. rewrite (parallel_result_reference Hb Hs cb txs workers sys Hr Hq). split.
  - intros ->. rewrite reference_none. by destruct (all_done _).
  - destruct (all_done _); auto.
Qed.
End promises.
