(* ===== verification/BlockStmRaces.v ===== *)
(** * The scheduler without a lock

    The calls of [scheduler.rs] are sequences of atomic operations on shared
    counters, and other workers run between them.  This file takes the calls
    apart: [call_op] is one operation of a call.  A call that runs alone does
    what the atomic call does ([call_alone]), so that runs whose calls exclude
    each other are runs with atomic calls, and serialisable; interleaved calls
    lose updates. *)

From S2P Require Import Prelude Effects MvMemory BlockStm BlockStmTheory BlockStmInvariant.
From S2P Require Import BlockStmSafety.

(** ** Inside the calls *)

(** The next atomic operation of a call, with the local variables of the call. *)
Inductive CallPc : Type :=
(* next_task *)
| CPopLen
| CPopFront
| CPopDec (cand : TxIdx)
| CClaimRedo (cand : TxIdx)
| CExecCursor
| CLoadVal
| CLoadStatus (v : TxIdx)
| CLoadPred (v : TxIdx)
| CCasVal (v : TxIdx)
(* finish_execution, finish_validation *)
| CStoreExecuted (i : TxIdx)
| CCasValidated (i : TxIdx)
| CAddCount
(* abort_and_reschedule *)
| CSwapRedo (i : TxIdx)
| CPushBack (i invalidated : nat)
| CPushLen (i invalidated : nat)
| CLoadCursor (i invalidated : nat)
| CRewind (i invalidated cur : nat)
| CLoadHigher (higher : list TxIdx) (invalidated : nat)
| CCasHigher (j : TxIdx) (cur : Status) (higher : list TxIdx) (invalidated : nat)
| CPushHigher (j : TxIdx) (higher : list TxIdx) (invalidated : nat)
| CPushHigherLen (higher : list TxIdx) (invalidated : nat)
| CDecrement (invalidated : nat).

Inductive FPc : Type :=
| FData (pc : Pc)
| FCall (c : CallPc).

(** The call a worker is about to make. *)
Definition enter_call (pc : Pc) : option CallPc :=
  match pc with
  | PIdle => Some CPopLen
  | PExecuted i => Some (CStoreExecuted i)
  | PValid i => Some (CCasValidated i)
  | PInvalid i => Some (CSwapRedo i)
  | _ => None
  end.

Definition higher_than (i : TxIdx) (s : Scheduler) : list TxIdx :=
  seq (S i) (sc_num_txs s - S i).

Definition is_status (o : option Status) (st : Status) : bool := bool_decide (o = Some st).

Definition call_op (s : Scheduler) (c : CallPc) : Scheduler * FPc :=
  let idle := FData PIdle in
  match c with
  | CPopLen => (s, FCall (if wq_len (sc_redo s) =? 0 then CExecCursor else CPopFront))
  | CPopFront =>
      match wq_q (sc_redo s) with
      | [] => (s, FCall CExecCursor)
      | cand :: q => (set_redo (mkWorkQueue q (wq_len (sc_redo s))) s, FCall (CPopDec cand))
      end
  | CPopDec cand =>
      (set_redo (mkWorkQueue (wq_q (sc_redo s)) (wq_len (sc_redo s) +w u64_max)) s,
       FCall (CClaimRedo cand))
  | CClaimRedo cand =>
      if has_status cand STATUS_REDO s
      then (set_status cand STATUS_PENDING s, FData (PClear cand))
      else (s, FCall CPopLen)
  | CExecCursor =>
      let idx := sc_exec_cursor s in
      (set_exec_cursor (S idx) s,
       if (idx <? sc_num_txs s)%nat then FData (PClear idx) else FCall CLoadVal)
  | CLoadVal =>
      let v := sc_val_cursor s in
      (s, if (sc_num_txs s <=? v)%nat then idle else FCall (CLoadStatus v))
  | CLoadStatus v => (s, if negb (has_status v STATUS_EXECUTED s) then idle else FCall (CLoadPred v))
  | CLoadPred v =>
      (s, if (0 <? v)%nat && negb (has_status (Nat.pred v) STATUS_VALIDATED s) then idle
          else FCall (CCasVal v))
  | CCasVal v =>
      if (sc_val_cursor s =? v)%nat then (set_val_cursor (S v) s, FData (PLocking v))
      else (s, FCall CLoadVal)
  | CStoreExecuted i => (set_status i STATUS_EXECUTED s, idle)
  | CCasValidated i =>
      if has_status i STATUS_EXECUTED s
      then (set_status i STATUS_VALIDATED s, FCall CAddCount)
      else (s, idle)
  | CAddCount => (set_count (S (sc_validated_count s)) s, idle)
  | CSwapRedo i =>
      (set_status i STATUS_REDO s,
       FCall (CPushBack i (if has_status i STATUS_VALIDATED s then 1 else 0)))
  | CPushBack i n =>
      (set_redo (mkWorkQueue (wq_q (sc_redo s) ++ [i]) (wq_len (sc_redo s))) s, FCall (CPushLen i n))
  | CPushLen i n =>
      (set_redo (mkWorkQueue (wq_q (sc_redo s)) (wq_len (sc_redo s) +w 1)) s, FCall (CLoadCursor i n))
  | CLoadCursor i n => (s, FCall (CRewind i n (sc_val_cursor s)))
  | CRewind i n cur =>
      if (cur <=? i)%nat then (s, FCall (CLoadHigher (higher_than i s) n))
      else if (sc_val_cursor s =? cur)%nat
      then (set_val_cursor i s, FCall (CLoadHigher (higher_than i s) n))
      else (s, FCall (CRewind i n (sc_val_cursor s)))
  | CLoadHigher [] n => (s, FCall (CDecrement n))
  | CLoadHigher (j :: higher) n =>
      (s, FCall (match sc_status s !! j with
                 | Some STATUS_EXECUTED => CCasHigher j STATUS_EXECUTED higher n
                 | Some STATUS_VALIDATED => CCasHigher j STATUS_VALIDATED higher n
                 | _ => CLoadHigher higher n
                 end))
  | CCasHigher j cur higher n =>
      if has_status j cur s
      then (set_status j STATUS_REDO s,
            FCall (CPushHigher j higher
                     (n + if decide (cur = STATUS_VALIDATED) then 1 else 0)%nat))
      else (s, FCall (CLoadHigher (j :: higher) n))
  | CPushHigher j higher n =>
      (set_redo (mkWorkQueue (wq_q (sc_redo s) ++ [j]) (wq_len (sc_redo s))) s,
       FCall (CPushHigherLen higher n))
  | CPushHigherLen higher n =>
      (set_redo (mkWorkQueue (wq_q (sc_redo s)) (wq_len (sc_redo s) +w 1)) s,
       FCall (CLoadHigher higher n))
  | CDecrement n => (decrement_validated_count n s, idle)
  end.

(** ** A call that runs alone *)

Inductive alone : Scheduler * FPc -> Scheduler * FPc -> Prop :=
| alone_op s c : alone (s, FCall c) (call_op s c).

(** Takes the next operation of the call. *)
Ltac op := eapply rtc_l; [apply alone_op|]; cbn [call_op].

Lemma claim_alone s :
  rtc alone (s, FCall CLoadVal)
    ((claim_validation s).1, FData (task_pc (claim_validation s).2)).
Proof.
  unfold claim_validation. op. cbn zeta. destruct (_ <=? _)%nat; [done|].
  op. destruct (negb _); [done|]. op. destruct (_ && _); [done|].
  op. rewrite Nat.eqb_refl. done.
Qed.

Lemma pop_redo_alone fuel s :
  (length (wq_q (sc_redo s)) < fuel)%nat ->
  rtc alone (s, FCall CPopLen)
    ((pop_redo_loop fuel s).1, match (pop_redo_loop fuel s).2 with
                               | Some i => FData (PClear i)
                               | None => FCall CExecCursor
                               end).
Proof.
  revert s. induction fuel as [|fuel IH]; intros s Hf; [lia|].
  cbn [pop_redo_loop]. unfold wq_pop. op.
  destruct (wq_len (sc_redo s) =? 0) eqn:El; [by destruct s|].
  op. destruct (wq_q (sc_redo s)) as [|cand q] eqn:Eq; [by destruct s|].
  op. op. set (s' := set_redo _ _).
  assert (Es : s' = set_redo (mkWorkQueue q (wq_len (sc_redo s) +w u64_max)) s) by done.
  rewrite Es. destruct (has_status cand STATUS_REDO _); [done|].
  apply IH. cbn in Hf |- *. lia.
Qed.

Lemma next_task_alone s :
  rtc alone (s, FCall CPopLen) ((next_task s).1, FData (task_pc (next_task s).2)).
Proof.
  unfold next_task, pop_redo.
  pose proof (pop_redo_alone (S (length (wq_q (sc_redo s)))) s ltac:(lia)) as Hp.
  destruct (pop_redo_loop _ s) as [s1 [i|]]; cbn [fst snd] in *; [done|].
  etrans; [exact Hp|]. op. cbn zeta. destruct (_ <? _)%nat; [done|]. apply claim_alone.
Qed.

Lemma finish_validation_alone i s :
  rtc alone (s, FCall (CCasValidated i)) (finish_validation i s, FData PIdle).
Proof.
  unfold finish_validation. op. destruct (has_status i STATUS_EXECUTED s); [|done]. by op.
Qed.

Lemma invalidate_cases s n j :
  invalidate (s, n) j =
    match sc_status s !! j with
    | Some STATUS_EXECUTED =>
        (set_redo (wq_push j (sc_redo s)) (set_status j STATUS_REDO s), (n + 0)%nat)
    | Some STATUS_VALIDATED =>
        (set_redo (wq_push j (sc_redo s)) (set_status j STATUS_REDO s), (n + 1)%nat)
    | _ => (s, n)
    end.
Proof. unfold invalidate, has_status. by destruct (sc_status s !! j) as [[]|]. Qed.

Lemma invalidate_alone higher n s :
  rtc alone (s, FCall (CLoadHigher higher n))
    (let '(s', n') := foldl invalidate (s, n) higher in (s', FCall (CDecrement n'))).
Proof.
  revert n s. induction higher as [|j higher IH]; intros n s; op; [done|]. cbn [foldl].
  rewrite invalidate_cases. destruct (sc_status s !! j) as [[]|] eqn:Ej; try apply IH.
  all: op; unfold has_status; rewrite Ej, bool_decide_eq_true_2 by done; op; op; apply IH.
Qed.

Lemma abort_alone i s :
  rtc alone (s, FCall (CSwapRedo i)) (abort_and_reschedule i s, FData PIdle).
Proof.
  unfold abort_and_reschedule. op. op. op. op. op.
  set (n := if has_status i STATUS_VALIDATED s then 1%nat else 0%nat).
  cbn [sc_redo set_status set_redo wq_q wq_len sc_val_cursor sc_num_txs]. unfold wq_push.
  set (s1 := set_redo _ (set_redo _ _)).
  assert (E1 : set_redo (mkWorkQueue (wq_q (sc_redo s) ++ [i]) (wq_len (sc_redo s) +w 1))
    (set_status i STATUS_REDO s) = s1) by done. rewrite E1.
  assert (Hrest : forall s2, sc_num_txs s2 = sc_num_txs s ->
    rtc alone (s2, FCall (CLoadHigher (higher_than i s2) n))
      ((let '(s', n') := foldl invalidate (s2, n) (seq (S i) (sc_num_txs s2 - S i)) in
        decrement_validated_count n' s'), FData PIdle)).
  { intros s2 Hs2. etrans; [apply invalidate_alone|]. unfold higher_than.
    destruct (foldl invalidate _ _) as [s' n']. by op. }
  destruct (Nat.leb_spec (sc_val_cursor s) i) as [Hle|Hlt].
  - rewrite (proj2 (Nat.ltb_ge _ _)) by done. by apply Hrest.
  - rewrite (proj2 (Nat.ltb_lt _ _)) by done.
    rewrite Nat.eqb_refl. by apply (Hrest (set_val_cursor i s1)).
Qed.

(** ** Interleaved calls *)

Record FSystem : Type := mkFSystem {
  fs_sched : Scheduler;
  fs_mv : MvMemory;
  fs_outputs : list (option TxOutputInternal);
  fs_workers : list FPc
}.

Definition fsystem_new (num_txs workers : nat) : FSystem :=
  mkFSystem (scheduler_new num_txs) mv_new (replicate num_txs None) (replicate workers (FData PIdle)).

Definition fholds_output (i : TxIdx) (pc : FPc) : bool :=
  match pc with FData pc => holds_output i pc | FCall _ => false end.

Section fine.
Context {db : BaseDb} {revm : Revm} (cb : option DeferredCoinbase) (txs : list TxEnv).

(** One step of worker [w]: an operation of a call, the entry into a call, or a
    step on the shared memory. *)
Definition fstep (w : nat) (sys : FSystem) : option FSystem :=
  let '(mkFSystem s mv outputs workers) := sys in
  pc ← workers !! w;
  match pc with
  | FCall c =>
      let '(s', pc') := call_op s c in
      Some (mkFSystem s' mv outputs (<[w := pc']> workers))
  | FData pc =>
      match enter_call pc with
      | Some c => Some (mkFSystem s mv outputs (<[w := FCall c]> workers))
      | None =>
          '(mv', outputs', pc') ←
            data_step cb txs mv outputs (fun i => existsb (fholds_output i) workers) pc;
          Some (mkFSystem s mv' outputs' (<[w := FData pc']> workers))
      end
  end.

(** [frun [(w1, n1); (w2, n2); ..]]: worker [w1] takes [n1] steps, and so on. *)
Fixpoint fsteps (w n : nat) (sys : FSystem) : option FSystem :=
  match n with
  | O => Some sys
  | S n => sys' ← fstep w sys; fsteps w n sys'
  end.
Fixpoint frun (schedule : list (nat * nat)) (sys : FSystem) : option FSystem :=
  match schedule with
  | [] => Some sys
  | (w, n) :: schedule => sys' ← fsteps w n sys; frun schedule sys'
  end.

Definition fquiescent (sys : FSystem) : bool :=
  forallb (fun pc => match pc with FData PIdle => true | _ => false end) (fs_workers sys).

End fine.

(** What [parallel_execute] sees when the workers have left their loops. *)
Definition joined (sys : FSystem) : System :=
  mkSystem (fs_sched sys) (fs_mv sys) (fs_outputs sys) ((fun _ => PIdle) <$> fs_workers sys).

(** ** Calls that exclude each other *)

Lemma finish_execution_alone i s :
  rtc alone (s, FCall (CStoreExecuted i)) (finish_execution i s, FData PIdle).
Proof. by op. Qed.

(** A call that runs alone does what the atomic call does. *)
Lemma call_alone s pc c :
  enter_call pc = Some c ->
  exists s' pc', call_step s pc = Some (s', pc') /\ rtc alone (s, FCall c) (s', FData pc').
Proof.
  destruct pc; intros [= <-]; cbn [call_step].
  - pose proof (next_task_alone s) as Ha. destruct (next_task s) as [s' task]. by exists s', (task_pc task).
  - eexists _, _. split; [done|]. apply finish_execution_alone.
  - eexists _, _. split; [done|]. apply finish_validation_alone.
  - eexists _, _. split; [done|]. apply abort_alone.
Qed.

Lemma alone_end x s pc s' pc' :
  rtc alone x (s, FData pc) -> rtc alone x (s', FData pc') -> (s, pc) = (s', pc').
Proof.
  intros H1 H2. remember (s, FData pc) as y eqn:Ey. revert Ey.
  induction H1 as [y|x y z Hxy _ IH]; intros ->.
  - inversion H2 as [|? ? ? Hx]; subst; [done|]. inversion Hx.
  - inversion H2 as [|? y' ? Hx Hr]; subst; [inversion Hxy|].
    assert (y' = y) as -> by (inversion Hxy; subst; by inversion Hx). by apply IH.
Qed.

Section exclusive.
Context {db : BaseDb} {revm : Revm} (cb : option DeferredCoinbase) (txs : list TxEnv).

Definition in_call (pc : FPc) : bool := match pc with FCall _ => true | FData _ => false end.

(** At most one worker is inside a call of the scheduler. *)
Definition one_call (sys : FSystem) : Prop :=
  forall w w' pc pc', fs_workers sys !! w = Some pc -> fs_workers sys !! w' = Some pc' ->
    in_call pc = true -> in_call pc' = true -> w = w'.

(** A step of some worker after which the calls still exclude each other; the
    other workers may work on the shared memory during a call. *)
Definition exclusive_step (sys sys' : FSystem) : Prop :=
  (exists w, fstep cb txs w sys = Some sys') /\ one_call sys'.

(** The state with atomic calls: a call that has begun has not happened yet. *)
Inductive simulates : FSystem -> System -> Prop :=
| sim_free s mv outputs workers :
    simulates (mkFSystem s mv outputs (FData <$> workers)) (mkSystem s mv outputs workers)
| sim_call w pc c c' s s' mv outputs workers :
    workers !! w = Some pc -> enter_call pc = Some c -> rtc alone (s, FCall c) (s', FCall c') ->
    simulates (mkFSystem s' mv outputs (<[w := FCall c']> (FData <$> workers)))
      (mkSystem s mv outputs workers).

Lemma simulates_new num_txs workers : simulates (fsystem_new num_txs workers) (system_new num_txs workers).
Proof.
  unfold fsystem_new, system_new.
  replace (replicate workers (FData PIdle)) with (FData <$> replicate workers PIdle)
    by (by rewrite fmap_replicate). constructor.
Qed.

Lemma data_step_ext mv outputs l l' pc :
  (forall i, l i = l' i) -> data_step cb txs mv outputs l pc = data_step cb txs mv outputs l' pc.
Proof. intros Hl. destruct pc; cbn; rewrite ?Hl; done. Qed.

Lemma holds_free i workers :
  existsb (fholds_output i) (FData <$> workers) = existsb (holds_output i) workers.
Proof. induction workers as [|pc workers IH]; cbn; [done|]. by rewrite IH. Qed.

Lemma holds_call i w pc c c' workers :
  workers !! w = Some pc -> enter_call pc = Some c ->
  existsb (fholds_output i) (<[w := FCall c']> (FData <$> workers)) =
  existsb (holds_output i) workers.
Proof.
  revert w. induction workers as [|pc0 workers IH]; intros w Hw Hc; [done|].
  destruct w as [|w]; cbn in Hw.
  - injection Hw as ->. cbn. rewrite holds_free. by destruct pc.
  - change (existsb (fholds_output i) (FData pc0 :: <[w := FCall c']> (FData <$> workers)) =
      existsb (holds_output i) (pc0 :: workers)).
    cbn [existsb]. by rewrite (IH w).
Qed.

Lemma free_step w s mv outputs workers sys' :
  fstep cb txs w (mkFSystem s mv outputs (FData <$> workers)) = Some sys' ->
  exists sys, rtc (step cb txs) (mkSystem s mv outputs workers) sys /\ simulates sys' sys.
Proof.
  cbn [fstep]. intros (pc & Hw & E)%bind_Some. apply list_lookup_fmap_Some in Hw as (pc0 & -> & Hw).
  destruct (enter_call pc0) as [c|] eqn:Ec.
  - injection E as <-. eexists. split; [reflexivity|]. by eapply sim_call.
  - apply bind_Some in E as ([[mv' outputs'] pc'] & Hd & E). injection E as <-.
    rewrite (data_step_ext _ _ _ (fun i => existsb (holds_output i) workers)) in Hd
      by (intros; apply holds_free).
    eexists. split; [by eapply rtc_once, step_data|]. rewrite <- list_fmap_insert. constructor.
Qed.

Lemma call_system_step w w0 pc0 c c' s s' mv outputs workers sys' :
  workers !! w = Some pc0 -> enter_call pc0 = Some c -> rtc alone (s, FCall c) (s', FCall c') ->
  fstep cb txs w0 (mkFSystem s' mv outputs (<[w := FCall c']> (FData <$> workers))) = Some sys' ->
  one_call sys' ->
  exists sys, rtc (step cb txs) (mkSystem s mv outputs workers) sys /\ simulates sys' sys.
Proof.
  intros Hw Hc Ha. cbn [fstep]. intros (pc & Hw0 & E)%bind_Some Hone.
  assert (Hlt : (w < length (FData <$> workers))%nat).
  { rewrite length_fmap. by eapply lookup_lt_Some. }
  destruct (decide (w = w0)) as [<-|Hne].
  - rewrite list_lookup_insert_eq in Hw0 by done. injection Hw0 as <-.
    destruct (call_op s' c') as [s2 pc2] eqn:Eo. injection E as <-. rewrite list_insert_insert_eq.
    assert (Ha2 : rtc alone (s, FCall c) (s2, pc2)).
    { eapply rtc_r; [exact Ha|]. rewrite <- Eo. constructor. }
    destruct pc2 as [pc2|c2].
    + destruct (call_alone s pc0 c Hc) as (s3 & pc3 & Hs & Ha3).
      pose proof (alone_end _ _ _ _ _ Ha2 Ha3) as [= -> ->].
      eexists. split; [by eapply rtc_once, step_call|]. rewrite <- list_fmap_insert. constructor.
    + eexists. split; [reflexivity|]. by eapply sim_call.
  - rewrite list_lookup_insert_ne in Hw0 by done.
    apply list_lookup_fmap_Some in Hw0 as (pc1 & -> & Hw0).
    destruct (enter_call pc1) as [c1|] eqn:Ec1.
    + injection E as <-. exfalso. apply Hne. eapply Hone; cbn [fs_workers].
      * rewrite list_lookup_insert_ne by done. by apply list_lookup_insert_eq.
      * apply list_lookup_insert_eq. rewrite length_insert, length_fmap. by eapply lookup_lt_Some.
      * done.
      * done.
    + apply bind_Some in E as ([[mv' outputs'] pc'] & Hd & E). injection E as <-.
      rewrite (data_step_ext _ _ _ (fun i => existsb (holds_output i) workers)) in Hd
        by (intros; by eapply holds_call).
      eexists. split; [by eapply rtc_once, step_data|].
      rewrite list_insert_insert_ne, <- list_fmap_insert by done.
      eapply sim_call; [|done..]. by rewrite list_lookup_insert_ne.
Qed.

Lemma exclusive_simulated sys sys' csys :
  simulates sys csys -> rtc exclusive_step sys sys' ->
  exists csys', rtc (step cb txs) csys csys' /\ simulates sys' csys'.
Proof.
  intros Hs Hr. revert csys Hs. induction Hr as [sys|sys sys1 sys' [[w Hw] Hone] _ IH]; intros csys Hs.
  { by exists csys. }
  assert (exists csys1, rtc (step cb txs) csys csys1 /\ simulates sys1 csys1) as (csys1 & Hr1 & Hs1).
  { destruct Hs; [by eapply free_step|by eapply call_system_step]. }
  destruct (IH csys1 Hs1) as (csys' & Hr' & Hs'). exists csys'. split; [by etrans|done].
Qed.

Lemma quiescent_simulated sys csys :
  simulates sys csys -> fquiescent sys = true ->
  quiescent csys /\ parallel_result cb txs (joined sys) = parallel_result cb txs csys.
Proof.
  unfold fquiescent, quiescent. rewrite forallb_forall. intros Hs Hq. destruct Hs; cbn in *.
  - split; [|done]. apply Forall_forall. intros pc Hpc.
    specialize (Hq (FData pc)). destruct pc; try done;
      (exfalso; by apply diff_false_true, Hq, list_elem_of_In, list_elem_of_fmap_2).
  - exfalso. apply diff_false_true, (Hq (FCall c')), list_elem_of_In, list_elem_of_lookup.
    exists w. apply list_lookup_insert_eq. rewrite length_fmap. by eapply lookup_lt_Some.
Qed.

(** C27: parallel execution is serialisable when the calls of the scheduler
    exclude each other and the base database can be read.  The workers run as
    in [scheduler.rs], each of its calls a sequence of atomic operations, in any
    interleaving in which at most one worker is inside a call at a time, while
    the others execute, publish and validate; whether or not they converge, a
    block executed without a deferred beneficiary gives exactly the results and
    the state of sequential execution; with a deferred beneficiary it gives the
    one result that the plan has when the transactions run in order, or that of
    sequential execution.  The source does not ensure the exclusion, and
    [Race] shows that it is needed; reads of accounts and storage slots from the
    base database must succeed because a failed read is not in the read set. *)
Theorem parallel_execution_serialisable workers sys :
  (forall a, is_Some (basic_ref a)) -> (forall a k, is_Some (storage_ref a k)) ->
  rtc exclusive_step (fsystem_new (length txs) workers) sys -> fquiescent sys = true ->
  (cb = None -> parallel_result cb txs (joined sys) = Ok (sequential_execute txs)) /\
  (parallel_result cb txs (joined sys) = reference cb txs \/
   parallel_result cb txs (joined sys) = Ok (sequential_execute txs)).
Proof.
  intros Hb Hs Hr Hq.
  destruct (exclusive_simulated _ _ _ (simulates_new (length txs) workers) Hr) as (csys & Hc & Hsim).
  destruct (quiescent_simulated _ _ Hsim Hq) as [Hcq ->].
  by apply (atomic_calls_serialisable cb txs workers).
Qed.
End exclusive.

(** ** A lost dependency

    Three transactions: the first writes an account, the second reads it and
    writes another, the third reads that one. *)
Module Race.

#[export] Instance empty_db : BaseDb := {|
  basic_ref := fun _ => Some None;
  storage_ref := fun _ _ => Some 0;
  code_by_hash_ref := fun _ => Some [];
  block_hash_ref := fun _ => Some 0
|}.

#[export] Instance programs : Revm := {|
  TxEnv := Address * Evm;
  caller := fst;
  transact := snd
|}.

Definition balance_of (info : option AccountInfo) : N := default 0 (ai_balance <$> info).
Definition holding (balance : N) : EvmAccount :=
  mkEvmAccount (mkAccountInfo balance 0 KECCAK_EMPTY) true false false [].
Definition finished (state : list (Address * EvmAccount)) : Evm :=
  Halt (mkEvmResult 21000 true [] state).

(** Six transactions that have nothing to do with each other come first: a block
    must have more than eight transactions to be executed in parallel. *)
Definition chain : list TxEnv :=
  ((fun sender => (sender, finished [(sender, holding 1)])) <$> [94; 95; 96; 97; 98; 99]) ++
  [(100, finished [(1, holding 10)]);
   (101, Basic 1 (fun info => finished [(2, holding (balance_of info + 1))]));
   (102, Basic 2 (fun info => finished [(3, holding (balance_of info + 1))]))].
Definition miner : Address := 9.

(** Worker 0 executes the first six transactions and takes the seventh, the first
    of the three; later it validates all seven.  Worker 5 stalls before it claims
    the validation of the second of the three; workers 1 and 5 then both abort
    it, so that workers 2 and 4 both execute it: worker 4 clears what worker 2
    published while workers 3 and 0 execute and validate the third. *)
Definition race_schedule : list (nat * nat) :=
  [(0, 81); (1, 14); (2, 14); (0, 10); (0, 84); (5, 6); (1, 21); (2, 5); (5, 12); (3, 5); (4, 5);
   (2, 12); (4, 4); (3, 12); (0, 13); (0, 13); (4, 8)]%nat.

Definition balance_in (out : ParallelExecutionOutput) (a : Address) : option N :=
  (fun account => ai_balance (ac_info account)) <$> po_state_changes out !! a.

(** C28: without a lock around the scheduler's calls parallel execution is not
    serialisable.  With the default settings, on a machine of eight cores, a block
    of nine transactions is executed by eight workers; there is an interleaving of
    their atomic operations after which every worker has left its loop and all
    transactions count as validated, and the last transaction has executed
    without the effect of the one before it: its account gets 1 instead of 12. *)
Theorem unlocked_scheduler_not_serialisable :
  exists sys out,
    plan true chain miner = Ok (Defer (mkDeferredCoinbase miner None)) /\
    frun (Some (mkDeferredCoinbase miner None)) chain race_schedule
      (fsystem_new (length chain) (worker_count 8 None (length chain))) = Some sys /\
    fquiescent sys = true /\ all_done (fs_sched sys) = true /\
    parallel_execute true 8 miner (fun _ => joined sys) chain = Ok out /\
    balance_in out 3 = Some 1 /\ balance_in (sequential_execute chain) 3 = Some 12.
Proof.
  do 2 eexists. split; [vm_compute; reflexivity|]. split; [vm_compute; reflexivity|].
  split_and!; vm_compute; reflexivity.
Qed.
End Race.

(** ** A beneficiary that is looked at *)

Section coarse.
Context {db : BaseDb} {revm : Revm} (cb : option DeferredCoinbase) (txs : list TxEnv).

(** A step of worker [w] with atomic calls, and [n] of them. *)
Definition cstep (w : nat) (sys : System) : option System :=
  let '(mkSystem s mv outputs workers) := sys in
  pc ← workers !! w;
  match call_step s pc with
  | Some (s', pc') => Some (mkSystem s' mv outputs (<[w := pc']> workers))
  | None =>
      '(mv', outputs', pc') ←
        data_step cb txs mv outputs (fun i => existsb (holds_output i) workers) pc;
      Some (mkSystem s mv' outputs' (<[w := pc']> workers))
  end.
Fixpoint csteps (w n : nat) (sys : System) : option System :=
  match n with
  | O => Some sys
  | S n => sys' ← cstep w sys; csteps w n sys'
  end.
Fixpoint crun (schedule : list (nat * nat)) (sys : System) : option System :=
  match schedule with
  | [] => Some sys
  | (w, n) :: schedule => sys' ← csteps w n sys; crun schedule sys'
  end.

Lemma cstep_step w sys sys' : cstep w sys = Some sys' -> step cb txs sys sys'.
Proof.
  destruct sys as [s mv outputs workers]. unfold cstep. intros (pc & Hw & H)%bind_Some.
  destruct (call_step s pc) as [[s1 pc1]|] eqn:Ec.
  - injection H as <-. by eapply step_call.
  - apply bind_Some in H as ([[mv1 o1] pc1] & Hd & H). injection H as <-. by eapply step_data.
Qed.

Lemma crun_steps schedule sys sys' : crun schedule sys = Some sys' -> rtc (step cb txs) sys sys'.
Proof.
  revert sys. induction schedule as [|[w n] schedule IH]; intros sys; cbn [crun].
  { by intros [= ->]. }
  intros (sys1 & H1 & H2)%bind_Some. etrans; [|by apply IH]. clear IH H2.
  revert sys H1. induction n as [|n IH]; intros sys H1; cbn [csteps] in H1; [by injection H1 as ->|].
  apply bind_Some in H1 as (sys2 & H1 & H2). eapply rtc_l; [by eapply cstep_step|by apply IH].
Qed.
End coarse.

Module Beneficiary.
Import Race.

Definition fee : N := 5.

(** Eight transactions that pay a fee, and one that pays and keeps the balance
    of the beneficiary that it sees. *)
Definition pays (sender : Address) : TxEnv :=
  (sender, Basic miner (fun info => finished [(miner, holding (balance_of info + fee))])).
Definition looks (sender : Address) : TxEnv :=
  (sender, Basic miner (fun info => finished [(7, holding (balance_of info));
                                              (miner, holding (balance_of info + fee))])).
Definition block : list TxEnv := (pays <$> [11; 12; 13; 14; 15; 16; 17; 18]) ++ [looks 19].

(** C29: the deferred beneficiary is visible to transactions: with the default
    settings a block whose beneficiary is a plain account that sends nothing is
    executed in parallel with the beneficiary's fees deferred, and a transaction
    that reads the beneficiary's balance sees it without the fees of the
    transactions before it (0 instead of 40), so that the state differs from that
    of sequential execution. *)
Theorem deferred_beneficiary_observable :
  exists sys out,
    plan true block miner = Ok (Defer (mkDeferredCoinbase miner None)) /\
    rtc (step (Some (mkDeferredCoinbase miner None)) block) (system_new (length block) 6) sys /\
    quiescent sys /\ parallel_execute true 8 miner (fun _ => sys) block = Ok out /\
    balance_in out 7 = Some 0 /\ balance_in (sequential_execute block) 7 = Some 40.
Proof.
  do 2 eexists. split; [vm_compute; reflexivity|]. split.
  { apply (crun_steps _ _ [(0, 128)%nat]). vm_compute. reflexivity. }
  split; [repeat constructor|]. split_and!; vm_compute; reflexivity.
Qed.
End Beneficiary.
