(* ===== verification/BlockStmWitnesses.v ===== *)
(** * An instance of the theorem about parallel execution

    Two workers on the three dependent transactions of [Race]: the second and the
    third execute first, on stale reads, and are aborted and executed again.  The
    first worker works on the shared memory while the second is inside a call of
    the scheduler, but the calls exclude each other. *)

From S2P Require Import Prelude Effects MvMemory BlockStm BlockStmSafety BlockStmRaces.

Import Race.

Definition dependent : list TxEnv := drop 6 chain.

Definition one_callb (sys : FSystem) : bool :=
  let calling w := match fs_workers sys !! w with Some pc => in_call pc | None => false end in
  let all := seq 0 (length (fs_workers sys)) in
  forallb (fun w => forallb (fun w' => implb (calling w && calling w') (w =? w')%nat) all) all.

Lemma one_callb_sound sys : one_callb sys = true -> one_call sys.
Proof.
  unfold one_callb. intros H w w' pc pc' Hw Hw' Hc Hc'. rewrite forallb_forall in H.
  assert (Hin : forall k x, fs_workers sys !! k = Some x -> In k (seq 0 (length (fs_workers sys)))).
  { intros k x Hk%lookup_lt_Some. apply in_seq. lia. }
  specialize (H w (Hin w pc Hw)). rewrite forallb_forall in H. specialize (H w' (Hin w' pc' Hw')).
  rewrite Hw, Hw', Hc, Hc' in H. by apply Nat.eqb_eq.
Qed.

(** [frun] that checks every step. *)
Fixpoint esteps (w n : nat) (sys : FSystem) : option FSystem :=
  match n with
  | O => Some sys
  | S n =>
      sys' ← fstep None dependent w sys;
      if one_callb sys' then esteps w n sys' else None
  end.
Fixpoint erun (schedule : list (nat * nat)) (sys : FSystem) : option FSystem :=
  match schedule with
  | [] => Some sys
  | (w, n) :: schedule => sys' ← esteps w n sys; erun schedule sys'
  end.

Lemma erun_exclusive schedule sys sys' :
  erun schedule sys = Some sys' -> rtc (exclusive_step None dependent) sys sys'.
Proof.
  revert sys. induction schedule as [|[w n] schedule IH]; intros sys; cbn [erun].
  { by intros [= ->]. }
  intros (sys1 & H1 & H2)%bind_Some. etrans; [|by apply IH]. clear IH H2.
  revert sys H1. induction n as [|n IH]; intros sys H1; cbn [esteps] in H1; [by injection H1 as ->|].
  apply bind_Some in H1 as (sys2 & H1 & H2). destruct (one_callb sys2) eqn:Eo; [|done].
  eapply rtc_l; [split; [by exists w|by apply one_callb_sound]|by apply IH].
Qed.

Definition exclusive_schedule : list (nat * nat) :=
  [(0, 3); (1, 2); (0, 1); (1, 12); (1, 14); (0, 9); (0, 93)]%nat.
Definition final : FSystem := default (fsystem_new 0 0) (erun exclusive_schedule (fsystem_new 3 2)).

Lemma parallel_execution_serialisable_witness :
  parallel_result None dependent (joined final) = Ok (sequential_execute dependent) /\
  all_done (fs_sched final) = true.
Proof.
  split; [|vm_compute; reflexivity].
  apply (parallel_execution_serialisable None dependent 2 final).
  - intros a. by exists None.
  - intros a k. by exists 0.
  - apply (erun_exclusive exclusive_schedule). vm_compute. reflexivity.
  - vm_compute. reflexivity.
  - reflexivity.
Defined.
