(* ===== verification/Transfer.v ===== *)
(** * Plain transfers ([crates/n42-execution/src/fast_transfer.rs])

    A value transfer between accounts without code, applied without the
    interpreter.  The transaction and block environments and [State] are revm's:
    their fields are records here, the two fee methods of a transaction the class
    [RevmTx], and the methods of [State] the class [RevmState] with what is
    documented of them in [RevmStateLaws].  The counters of accepted and refused
    transfers are metrics; a refusal carries the index of its counter. *)

From S2P Require Import Prelude Effects MvMemory.

(** ** Checked arithmetic *)

Definition u128_max : N := 2 ^ 128 - 1.
Definition u256_max : N := 2 ^ 256 - 1.
Definition checked_add (max a b : N) : option N := if a + b <=? max then Some (a + b) else None.
Definition checked_sub (a b : N) : option N := if b <=? a then Some (a - b) else None.
Definition checked_mul (max a b : N) : option N := if a * b <=? max then Some (a * b) else None.

(** ** revm's environments *)

Inductive TxKind : Type :=
| Call (to : Address)
| Create.

Record TxEnv : Type := mkTxEnv {
  tx_type : N;
  tx_caller : Address;
  tx_gas_limit : N;
  tx_gas_price : N;
  tx_kind : TxKind;
  tx_value : N;
  tx_data : bytes;
  tx_nonce : N;
  tx_chain_id : option N;
  tx_access_list : list (Address * list B256);
  tx_gas_priority_fee : option N;
  tx_blob_hashes : list B256;
  tx_authorization_list : list bytes
}.

Class RevmTx : Type := {
  max_balance_spending : TxEnv -> option N;
  effective_gas_price : TxEnv -> N -> N
}.

(** A field [spec_x] is [spec.is_enabled_in(x)]. *)
Record CfgEnv : Type := mkCfgEnv {
  cfg_chain_id : N;
  cfg_tx_gas_limit_cap : N;
  spec_cancun : bool;
  spec_prague : bool;
  spec_amsterdam : bool;
  nonce_check_disabled : bool;
  balance_check_disabled : bool;
  eip3607_disabled : bool;
  fee_charge_disabled : bool;
  base_fee_check_disabled : bool;
  priority_fee_check_disabled : bool;
  block_gas_limit_disabled : bool;
  eip7623_disabled : bool;
  amsterdam_eip8037 : bool;
  amsterdam_eip2780 : bool;
  gas_params_of_spec : bool
}.

Record BlockEnv : Type := mkBlockEnv {
  block_beneficiary : Address;
  block_basefee : N;
  block_gas_limit : N;
  block_prevrandao : option B256;
  block_blob_excess : option N
}.

Record EvmEnv : Type := mkEvmEnv {
  env_cfg : CfgEnv;
  env_block : BlockEnv;
  env_precompile : Address -> bool
}.

(** ** revm's [State] *)

Inductive DbError : Type := DatabaseError.

Definition Db : Type := Address -> result DbError (option AccountInfo).

Record BundleAccount : Type := mkBundleAccount {
  ba_info : option AccountInfo;
  ba_original : option AccountInfo
}.

Record State : Type := mkState {
  st_db : Db;
  st_cache : gmap Address (option AccountInfo);
  st_bundle : gmap Address BundleAccount
}.

(** [State::builder().with_database(db).with_bundle_update().build()] *)
Definition open_state (db : Db) : State := mkState db ∅ ∅.

(** What a read of the state returns. *)
Definition view (s : State) : Db := fun a =>
  match st_cache s !! a with Some info => Ok info | None => st_db s a end.

Definition is_code_hash_empty_or_zero (i : AccountInfo) : bool :=
  (ai_code_hash i =? KECCAK_EMPTY) || (ai_code_hash i =? 0).
Definition info_is_empty (i : AccountInfo) : bool :=
  is_code_hash_empty_or_zero i && (ai_balance i =? 0) && (ai_nonce i =? 0).

(** The accounts a transaction touched, as it left them. *)
Abbreviation EvmState := (gmap Address AccountInfo).

(** [take_bundle] is [merge_transitions] with [BundleRetention::Reverts] and then
    [take_bundle], as the list its map is iterated in. *)
Class RevmState : Type := {
  basic : Address -> State -> State;
  commit : EvmState -> State -> State;
  take_bundle : State -> list (Address * BundleAccount)
}.

(** The states of a database opened at [db]. *)
Inductive from_db `{RevmState} (db : Db) : State -> Prop :=
| from_open : from_db db (open_state db)
| from_basic a s : from_db db s -> from_db db (basic a s)
| from_commit changes s : from_db db s -> from_db db (commit changes s).

(** A read may fill the cache; a commit replaces the touched accounts and removes
    those left empty (EIP-161); the bundle is not changed before it is merged.
    The bundle of a state has every account that differs from what the database
    has of it, with its values there and now. *)
Class RevmStateLaws (revm : RevmState) : Prop := {
  basic_view a s b : view (basic a s) b = view s b;
  basic_bundle a s : st_bundle (basic a s) = st_bundle s;
  commit_view changes s b :
    view (commit changes s) b =
    match changes !! b with
    | Some i => Ok (if info_is_empty i then None else Some i)
    | None => view s b
    end;
  commit_bundle changes s : st_bundle (commit changes s) = st_bundle s;
  take_bundle_nodup s : NoDup (take_bundle s).*1;
  take_bundle_sound db s a ba : from_db db s -> (a, ba) ∈ take_bundle s ->
    db a = Ok (ba_original ba) /\ view s a = Ok (ba_info ba);
  take_bundle_complete db s a o : from_db db s -> db a = Ok o -> view s a ≠ Ok o -> a ∈ (take_bundle s).*1
}.

(** [db.basic(a)?] *)
Definition read {E} `{RevmState} (f : DbError -> E) (a : Address) : ST State E (option AccountInfo) := fun s =>
  (basic a s, match view s a with
              | Ok i => Ok i
              | Err e => Err (f e)
              | Panic => Panic
              | OutOfFuel => OutOfFuel
              end).

(** ** The transfer *)

Definition TRANSFER_GAS : N := 21000.

Definition environment_refusal (env : EvmEnv) : option nat :=
  let cfg := env_cfg env in
  let block := env_block env in
  if negb (spec_cancun cfg) || spec_amsterdam cfg then Some 1%nat
  else if nonce_check_disabled cfg || balance_check_disabled cfg || eip3607_disabled cfg
    || fee_charge_disabled cfg || base_fee_check_disabled cfg || priority_fee_check_disabled cfg
    || block_gas_limit_disabled cfg || eip7623_disabled cfg || amsterdam_eip8037 cfg
    || amsterdam_eip2780 cfg || negb (gas_params_of_spec cfg)
    || negb (bool_decide (is_Some (block_prevrandao block)))
    || negb (bool_decide (is_Some (block_blob_excess block)))
  then Some 2%nat
  else None.

(** The result of a transfer: always a success that stops, without logs or output. *)
Record TransferOutput : Type := mkTransferOutput {
  out_gas_used : N;
  out_floor_gas : N;
  out_state : EvmState
}.

(** [Ok(None)], with the counter that [refused] increments, or the output. *)
Definition refused {S E} (reason : nat) : ST S E (nat + TransferOutput) := mret (inl reason).

Section transfer.
Context {revm_tx : RevmTx} {revm : RevmState}.

(** The transaction's shape. *)
Definition plain_shape (tx : TxEnv) : bool :=
  negb (negb (bool_decide (tx_data tx = []))
    || (2 <? tx_type tx)
    || negb (bool_decide (tx_access_list tx = []))
    || negb (bool_decide (tx_authorization_list tx = []))
    || negb (bool_decide (tx_blob_hashes tx = []))
    || (tx_gas_limit tx <? TRANSFER_GAS)
    || (negb (tx_type tx =? 0) && negb (bool_decide (is_Some (tx_chain_id tx))))).

Definition within_limits (env : EvmEnv) (tx : TxEnv) : bool :=
  negb (match tx_chain_id tx with Some id => negb (id =? cfg_chain_id (env_cfg env)) | None => false end
    || (cfg_tx_gas_limit_cap (env_cfg env) <? tx_gas_limit tx)
    || (block_gas_limit (env_block env) <? tx_gas_limit tx)).

Definition fees_ok (env : EvmEnv) (tx : TxEnv) : bool :=
  negb ((tx_gas_price tx <? block_basefee (env_block env))
    || match tx_gas_priority_fee tx with Some tip => tx_gas_price tx <? tip | None => false end).

(** [recipient], as the checks before the arithmetic want it. *)
Definition recipient_ok (value : N) (recipient : option AccountInfo) : bool :=
  match recipient with
  | Some info =>
      if negb (is_code_hash_empty_or_zero info) then false
      else negb ((value =? 0) && info_is_empty info)
  | None => negb (value =? 0)
  end.

(** The three balances after the transfer, with revm's arithmetic. *)
Definition transfer_balances (env : EvmEnv) (tx : TxEnv) (sender recipient coinbase : N)
  : option (N * N * N) :=
  let basefee := block_basefee (env_block env) in
  let effective_price := effective_gas_price tx basefee in
  gas_cost ← checked_mul u128_max effective_price TRANSFER_GAS;
  after_value ← checked_sub sender (tx_value tx);
  sender_balance ← checked_sub after_value gas_cost;
  recipient_balance ← checked_add u256_max recipient (tx_value tx);
  reward ← checked_mul u128_max (effective_price - basefee) TRANSFER_GAS;
  coinbase_balance ← checked_add u256_max coinbase reward;
  Some (sender_balance, recipient_balance, coinbase_balance).

Definition transfer (env : EvmEnv) (tx : TxEnv) : ST State DbError (nat + TransferOutput) :=
  match tx_kind tx with
  | Create => refused 0
  | Call to =>
      if negb (plain_shape tx) then refused 0
      else
        match environment_refusal env with
        | Some reason => refused reason
        | None =>
            if negb (within_limits env tx) then refused 3
            else if negb (fees_ok env tx) then refused 4
            else
              let caller := tx_caller tx in
              let floor_gas := if spec_prague (env_cfg env) then TRANSFER_GAS else 0 in
              let beneficiary := block_beneficiary (env_block env) in
              if (to =? caller) || (to =? beneficiary) || (caller =? beneficiary) then refused 5
              else if env_precompile env to then refused 5
              else
                found ← read id caller;
                match found with
                | None => refused 6
                | Some sender =>
                    if negb (is_code_hash_empty_or_zero sender) || negb (ai_nonce sender =? tx_nonce tx)
                       || (ai_nonce sender =? u64_max)
                    then refused 6
                    else
                      match max_balance_spending tx with
                      | None => refused 7
                      | Some max_spending =>
                          if ai_balance sender <? max_spending then refused 7
                          else
                            recipient ← read id to;
                            if negb (recipient_ok (tx_value tx) recipient) then refused 8
                            else
                              found ← read id beneficiary;
                              match found with
                              | None => refused 9
                              | Some coinbase =>
                                  if info_is_empty coinbase then refused 9
                                  else
                                    let before := default AccountInfo_default recipient in
                                    match transfer_balances env tx (ai_balance sender)
                                            (ai_balance before) (ai_balance coinbase) with
                                    | None => refused 10
                                    | Some (sender_balance, recipient_balance, coinbase_balance) =>
                                        mret (inr (mkTransferOutput TRANSFER_GAS floor_gas
                                          (<[beneficiary := mkAccountInfo coinbase_balance
                                               (ai_nonce coinbase) (ai_code_hash coinbase)]>
                                           (<[to := mkAccountInfo recipient_balance
                                                (ai_nonce before) (ai_code_hash before)]>
                                            {[caller := mkAccountInfo sender_balance
                                                (ai_nonce sender + 1) (ai_code_hash sender)]}))))
                                    end
                              end
                      end
                end
        end
  end.

(** [transact_raw] of [N42Evm] with the transfer path on, and the commit of its
    result: transactions that all qualify, one after the other. [None]: one of
    them goes to the interpreter. *)
Fixpoint serial_transfers (env : EvmEnv) (txs : list TxEnv) : ST State DbError (option (list TransferOutput)) :=
  match txs with
  | [] => mret (Some [])
  | tx :: rest =>
      done ← transfer env tx;
      match done with
      | inl _ => mret None
      | inr out =>
          modify (commit (out_state out)) ;;
          outs ← serial_transfers env rest;
          mret (cons out <$> outs)
      end
  end.
End transfer.
