(* ===== verification/ParallelTransfer.v ===== *)
(** * Blocks of transfers in parallel
    ([crates/n42-execution/src/parallel_transfer.rs] and [parallel_block.rs])

    Candidate transfers are grouped so that no account spends in two groups, the
    groups are packed into batches that run on their own view of the parent state,
    and the changes of the batches are added together on the block's state.  The
    batches run on a worker pool and share nothing but the slots of their results,
    so here they run one after the other.  The receipts of an executor are the
    outputs handed to it ([commit_preexecuted_transfer]).  Timings, reverts and the
    variant of the graft that leaves the cache empty are not modelled. *)

From S2P Require Import Prelude Effects MvMemory Transfer.

Inductive MergeError : Type :=
| MergeDatabase (e : DbError)
| Arithmetic (address : Address).

Definition apply_delta (info : AccountInfo) (new_balance old_balance new_nonce old_nonce : N)
  (address : Address) : result MergeError AccountInfo :=
  match (if old_balance <=? new_balance
         then checked_add u256_max (ai_balance info) (new_balance - old_balance)
         else checked_sub (ai_balance info) (old_balance - new_balance)) with
  | None => Err (Arithmetic address)
  | Some balance =>
      match (delta ← checked_sub new_nonce old_nonce; checked_add u64_max (ai_nonce info) delta) with
      | None => Err (Arithmetic address)
      | Some nonce => Ok (mkAccountInfo balance nonce (ai_code_hash info))
      end
  end.

Definition add_credit (total new old : N) (address : Address) : result MergeError N :=
  match (delta ← checked_sub new old; checked_add u256_max total delta) with
  | None => Err (Arithmetic address)
  | Some total => Ok total
  end.

Inductive FailReason : Type :=
| IdentityChanged
| ExecutedTwice
| TransferFailed (e : DbError).
Inductive NotParallel : Type :=
| NotATransfer (index : nat)
| TouchesBeneficiary (index : nat)
| Failed (index : nat) (reason : FailReason)
| NoState.

(** ** Disjoint sets *)

(** [Groups]: the vector [parent]. *)
Abbreviation MG := (ST (list nat) NotParallel).

Definition groups_new (n : nat) : list nat := seq 0 n.

Definition parent_of (x : nat) : MG nat := fun parent =>
  (parent, match parent !! x with Some p => Ok p | None => Panic end).

(** [while self.parent[x] != x], with at most as many rounds as there are nodes. *)
Fixpoint find_loop (fuel : nat) (x : nat) : MG nat :=
  match fuel with
  | O => out_of_fuel
  | S fuel =>
      p ← parent_of x;
      if (p =? x)%nat then mret x
      else
        grandparent ← parent_of p;
        modify <[x := grandparent]> ;;
        x ← parent_of x;
        find_loop fuel x
  end.
Definition find (x : nat) : MG nat := fun parent => find_loop (S (length parent)) x parent.

Definition union (a b : nat) : MG unit :=
  a ← find a;
  b ← find b;
  if (a =? b)%nat then mret tt else modify <[a := b]>.

(** The groups of the items [i, i + 1, ..] whose nodes are [nodes]; [group_of] is
    the group of a root, if it has one. *)
Fixpoint place (i : nat) (nodes : list nat) (group_of : list (option nat)) (groups : list (list nat))
  : MG (list (list nat)) :=
  match nodes with
  | [] => mret groups
  | node :: rest =>
      root ← find node;
      match group_of !! root with
      | None => panic
      | Some None =>
          place (S i) rest (<[root := Some (length groups)]> group_of) (groups ++ [[i]])
      | Some (Some g) =>
          match groups !! g with
          | None => panic
          | Some members => place (S i) rest group_of (<[g := members ++ [i]]> groups)
          end
      end
  end.

(** [index_of.entry(a).or_insert(next)] *)
Definition party (a : Address) (index_of : gmap Address nat) : gmap Address nat * nat :=
  match index_of !! a with
  | Some i => (index_of, i)
  | None => (<[a := size index_of]> index_of, size index_of)
  end.

(** The edges between the parties of transfers. *)
Fixpoint transfer_edges (i : nat) (txs : list TxEnv) (beneficiary : Address) (index_of : gmap Address nat)
  : result NotParallel (gmap Address nat * list (nat * nat)) :=
  match txs with
  | [] => Ok (index_of, [])
  | tx :: rest =>
      match tx_kind tx with
      | Create => Err (NotATransfer i)
      | Call to =>
          if negb (bool_decide (tx_data tx = [])) then Err (NotATransfer i)
          else if (tx_caller tx =? beneficiary) || (to =? beneficiary) then Err (TouchesBeneficiary i)
          else
            let '(index_of, a) := party (tx_caller tx) index_of in
            let '(index_of, b) := party to index_of in
            '(index_of, edges) ← transfer_edges (S i) rest beneficiary index_of;
            Ok (index_of, (a, b) :: edges)
      end
  end.

Definition partition (txs : list TxEnv) (beneficiary : Address)
  : result NotParallel (list (list nat) * nat) :=
  '(index_of, edges) ← transfer_edges 0 txs beneficiary ∅;
  let n := size index_of in
  groups ← ((for_each (fun '(a, b) => union a b) edges ;;
             place 0 edges.*1 (replicate n None) []) (groups_new n)).2;
  Ok (groups, n).

Fixpoint index_senders (i : nat) (keys : list (Address * Address)) (beneficiary : Address)
  (sender_index : gmap Address nat) : result NotParallel (gmap Address nat) :=
  match keys with
  | [] => Ok sender_index
  | (sender, to) :: rest =>
      if (sender =? beneficiary) || (to =? beneficiary) then Err (TouchesBeneficiary i)
      else index_senders (S i) rest beneficiary (party sender sender_index).1
  end.

(** [sender_index[sender]] *)
Definition sender_node (sender_index : gmap Address nat) (sender : Address) : MG nat := fun parent =>
  (parent, match sender_index !! sender with Some i => Ok i | None => Panic end).

Fixpoint sender_nodes (sender_index : gmap Address nat) (keys : list (Address * Address)) : MG (list nat) :=
  match keys with
  | [] => mret []
  | (sender, _) :: rest =>
      node ← sender_node sender_index sender;
      nodes ← sender_nodes sender_index rest;
      mret (node :: nodes)
  end.

Definition join_recipient (sender_index : gmap Address nat) (key : Address * Address) : MG unit :=
  match sender_index !! key.2 with
  | Some recipient_sender =>
      sender ← sender_node sender_index key.1;
      union sender recipient_sender
  | None => mret tt
  end.

Definition partition_by_sender (keys : list (Address * Address)) (beneficiary : Address)
  : result NotParallel (list (list nat)) :=
  sender_index ← index_senders 0 keys beneficiary ∅;
  let n := size sender_index in
  ((for_each (join_recipient sender_index) keys ;;
    nodes ← sender_nodes sender_index keys;
    place 0 nodes (replicate n None) []) (groups_new n)).2.

(** ** Batches *)

Definition clamp (x lo hi : nat) : nat := Nat.max lo (Nat.min x hi).

Fixpoint pack (per_batch : nat) (groups : list (list nat)) (current : list (list nat)) (filled : nat)
  : list (list (list nat)) :=
  match groups with
  | [] => if bool_decide (current = []) then [] else [current]
  | group :: rest =>
      let current := current ++ [group] in
      let filled := (filled + length group)%nat in
      if (per_batch <=? filled)%nat then current :: pack per_batch rest [] 0
      else pack per_batch rest current filled
  end.

Definition div_ceil (a b : nat) : nat := ((a + (b - 1)) / b)%nat.

Definition batch_groups (groups : list (list nat)) (total workers : nat) : list (list (list nat)) :=
  let wanted := clamp (total / N.to_nat 2048) 1 (clamp workers 1 32 * 2) in
  pack (Nat.max (div_ceil total wanted) 1) groups [] 0.

(** ** Execution of the batches *)

Section build.
Context {revm_tx : RevmTx} {revm : RevmState}.

(** What a batch keeps: its skipped candidates, the senders it refused, and the
    results, in the slots of their candidates. *)
Record Batch : Type := mkBatch {
  bt_state : State;
  bt_skipped : list nat;
  bt_refused : gset Address;
  bt_slots : gmap nat TransferOutput
}.
Abbreviation MB := (ST Batch NotParallel).

(** The transfer path on the state of the batch. *)
Definition batch_transfer (env : EvmEnv) (i : nat) (tx : TxEnv) : MB (nat + TransferOutput) := fun b =>
  let '(s, r) := transfer env tx (bt_state b) in
  (mkBatch s (bt_skipped b) (bt_refused b) (bt_slots b),
   match r with
   | Ok done => Ok done
   | Err e => Err (Failed i (TransferFailed e))
   | Panic => Panic
   | OutOfFuel => OutOfFuel
   end).

Definition skip (i : nat) (b : Batch) : Batch :=
  mkBatch (bt_state b) (bt_skipped b ++ [i]) (bt_refused b) (bt_slots b).
Definition refuse (sender : Address) (b : Batch) : Batch :=
  mkBatch (bt_state b) (bt_skipped b) ({[sender]} ∪ bt_refused b) (bt_slots b).
Definition accept (i : nat) (out : TransferOutput) (b : Batch) : Batch :=
  mkBatch (commit (out_state out) (bt_state b)) (bt_skipped b) (bt_refused b) (<[i := out]> (bt_slots b)).

Definition same_identity (tx : TxEnv) (key : Address * Address) : bool :=
  (tx_caller tx =? key.1) && match tx_kind tx with Call to => to =? key.2 | Create => false end.

(** One candidate; [convert] gives its transaction. *)
Definition run_candidate (env : EvmEnv) (keys : list (Address * Address)) (convert : nat -> TxEnv) (i : nat)
  : MB unit :=
  b ← get;
  match keys !! i with
  | None => panic
  | Some key =>
      if bool_decide (key.1 ∈ bt_refused b) then modify (skip i)
      else
        let tx := convert i in
        if negb (same_identity tx key) then fail (Failed i IdentityChanged)
        else
          done ← batch_transfer env i tx;
          match done with
          | inr out =>
              if bool_decide (is_Some (bt_slots b !! i)) then
                modify (fun b => mkBatch (commit (out_state out) (bt_state b)) (bt_skipped b)
                                   (bt_refused b) (bt_slots b)) ;;
                fail (Failed i ExecutedTwice)
              else modify (accept i out)
          | inl _ => modify (skip i) ;; modify (refuse (tx_caller tx))
          end
  end.

(** The batches in order, with the slots they share; [open] gives the parent view
    of a batch. *)
Fixpoint run_batches (env : EvmEnv) (keys : list (Address * Address)) (convert : nat -> TxEnv)
  (open : nat -> option Db) (k : nat) (batches : list (list (list nat))) (slots : gmap nat TransferOutput)
  : result NotParallel (list (list nat * list (Address * BundleAccount)) * gmap nat TransferOutput) :=
  match batches with
  | [] => Ok ([], slots)
  | members :: rest =>
      match open k with
      | None => Err NoState
      | Some db =>
          let '(b, r) := for_each (for_each (run_candidate env keys convert)) members
                           (mkBatch (open_state db) [] ∅ slots) in
          _ ← r;
          '(results, slots) ← run_batches env keys convert open (S k) rest (bt_slots b);
          Ok ((bt_skipped b, take_bundle (bt_state b)) :: results, slots)
      end
  end.

Record BuildRun : Type := mkBuildRun {
  br_executed : list (nat * TransferOutput);
  br_skipped : list nat;
  br_bundles : list (list (Address * BundleAccount))
}.

(** [slots.into_iter().filter_map(|slot| slot.into_inner())] *)
Definition filled_slots (n : nat) (slots : gmap nat TransferOutput) : list (nat * TransferOutput) :=
  omap (fun i => pair i <$> slots !! i) (seq 0 n).

Definition execute_for_build (env : EvmEnv) (workers : nat) (keys : list (Address * Address))
  (convert : nat -> TxEnv) (open : nat -> option Db) : result NotParallel BuildRun :=
  groups ← partition_by_sender keys (block_beneficiary (env_block env));
  let batches := batch_groups groups (length keys) (Nat.max workers 1) in
  '(results, slots) ← run_batches env keys convert open 0 batches ∅;
  Ok (mkBuildRun (filled_slots (length keys) slots) (merge_sort Nat.le (mjoin results.*1)) results.*2).

(** ** Adding the bundles together *)

Definition old_values (account : BundleAccount) : N * N :=
  match ba_original account with Some orig => (ai_balance orig, ai_nonce orig) | None => (0, 0) end.

(** An account of [fold_bundles]: the merged changes, with whether the account
    existed, and the credit of the beneficiary. *)
Definition fold_account (beneficiary : Address) (acc : gmap Address (AccountInfo * bool) * N)
  (item : Address * BundleAccount) : ST State MergeError (gmap Address (AccountInfo * bool) * N) :=
  let '(changes, delta) := acc in
  let '(address, account) := item in
  match ba_info account with
  | None => mret acc
  | Some info =>
      let '(old_balance, old_nonce) := old_values account in
      if address =? beneficiary then
        delta ← try_ (fun _ => add_credit delta (ai_balance info) old_balance beneficiary);
        mret (changes, delta)
      else
        '(merged, existed) ←
          match changes !! address with
          | Some (merged, existed) => mret (merged, existed)
          | None =>
              current ← read MergeDatabase address;
              mret (default AccountInfo_default current, bool_decide (is_Some current))
          end;
        merged ← try_ (fun _ =>
          apply_delta merged (ai_balance info) old_balance (ai_nonce info) old_nonce address);
        mret (<[address := (merged, existed)]> changes, delta)
  end.

Fixpoint fold_accounts {A} (f : A -> Address * BundleAccount -> ST State MergeError A) (acc : A)
  (items : list (Address * BundleAccount)) : ST State MergeError A :=
  match items with
  | [] => mret acc
  | item :: rest => acc ← f acc item; fold_accounts f acc rest
  end.

Definition fold_bundles (bundles : list (list (Address * BundleAccount))) (beneficiary : Address)
  : ST State MergeError (gmap Address (AccountInfo * bool) * N) :=
  fold_accounts (fold_account beneficiary) (∅, 0) (mjoin bundles).

Record Graft : Type := mkGraft {
  gr_beneficiary_delta : N;
  gr_beneficiary_original : option AccountInfo;
  gr_accounts : nat;
  gr_slow : EvmState
}.

Definition graft_info (address : Address) (info : AccountInfo) (s : State) : State :=
  mkState (st_db s) (<[address := Some info]> (st_cache s)) (st_bundle s).
Definition graft_bundle (address : Address) (account : BundleAccount) (s : State) : State :=
  mkState (st_db s) (st_cache s) (<[address := account]> (st_bundle s)).

(** One account of [graft_bundles_inner], which keeps the cache; [gr_slow] are
    the accounts to be committed. *)
Definition graft_account (beneficiary : Address) (g : Graft) (item : Address * BundleAccount)
  : ST State MergeError Graft :=
  let '(address, account) := item in
  match ba_info account with
  | None => mret g
  | Some info =>
      let '(old_balance, old_nonce) := old_values account in
      let delta i := apply_delta i (ai_balance info) old_balance (ai_nonce info) old_nonce address in
      if address =? beneficiary then
        let original := match gr_beneficiary_original g with
                        | None => ba_original account
                        | original => original
                        end in
        credit ← try_ (fun _ => add_credit (gr_beneficiary_delta g) (ai_balance info) old_balance beneficiary);
        mret (mkGraft credit original (gr_accounts g) (gr_slow g))
      else
        s ← get;
        match st_bundle s !! address with
        | Some earlier =>
            (match ba_info earlier with
             | Some i =>
                 i ← try_ (fun _ => delta i);
                 modify (graft_bundle address (mkBundleAccount (Some i) (ba_original earlier)))
             | None => mret tt
             end) ;;
            (match st_cache s !! address with
             | Some (Some i) =>
                 i ← try_ (fun _ => delta i);
                 modify (graft_info address i)
             | _ => mret tt
             end) ;;
            mret g
        | None =>
            match st_cache s !! address with
            | Some cached =>
                let merged := match gr_slow g !! address with
                              | Some i => i
                              | None => default AccountInfo_default cached
                              end in
                merged ← try_ (fun _ => delta merged);
                mret (mkGraft (gr_beneficiary_delta g) (gr_beneficiary_original g) (gr_accounts g)
                        (<[address := merged]> (gr_slow g)))
            | None =>
                modify (graft_info address info) ;;
                modify (graft_bundle address account) ;;
                mret (mkGraft (gr_beneficiary_delta g) (gr_beneficiary_original g)
                        (S (gr_accounts g)) (gr_slow g))
            end
        end
  end.

Definition graft_bundles (bundles : list (list (Address * BundleAccount))) (beneficiary : Address)
  : ST State MergeError Graft :=
  g ← fold_accounts (graft_account beneficiary) (mkGraft 0 None 0 ∅) (mjoin bundles);
  modify (fun s => if bool_decide (gr_slow g = ∅) then s else commit (gr_slow g) s) ;;
  mret g.

(** ** The transfer phase of a block *)

Inductive BlockExecutionError : Type :=
| BatchAfterSerial
| GraftFailed (e : MergeError)
| BeneficiaryRead (e : DbError)
| BeneficiaryOverflow
| OrderChanged
| NotParallelFatal (e : NotParallel).

Record Executor : Type := mkExecutor {
  ex_state : State;
  ex_receipts : list TransferOutput
}.
Abbreviation ME := (ST Executor BlockExecutionError).

(** A computation on the executor's state. *)
Definition on_db {E A} (f : E -> BlockExecutionError) (m : ST State E A) : ME A := fun x =>
  let '(s, r) := m (ex_state x) in
  (mkExecutor s (ex_receipts x),
   match r with
   | Ok a => Ok a
   | Err e => Err (f e)
   | Panic => Panic
   | OutOfFuel => OutOfFuel
   end).

Definition credit_beneficiary (g : Graft) (beneficiary : Address) : ME unit :=
  info ← on_db BeneficiaryRead (read id beneficiary);
  info ← match info, gr_beneficiary_original g with
         | None, Some parent_info =>
             on_db BeneficiaryRead (modify (graft_info beneficiary parent_info)) ;; mret (Some parent_info)
         | _, _ => mret info
         end;
  let account := default AccountInfo_default info in
  match checked_add u256_max (ai_balance account) (gr_beneficiary_delta g) with
  | None => fail BeneficiaryOverflow
  | Some balance =>
      on_db BeneficiaryRead (modify (commit
        {[beneficiary := mkAccountInfo balance (ai_nonce account) (ai_code_hash account)]}))
  end.

Definition commit_transfer_batch (run : BuildRun) (beneficiary : Address) : ME Graft :=
  x ← get;
  if negb (bool_decide (ex_receipts x = [])) then fail BatchAfterSerial
  else
    g ← on_db GraftFailed (graft_bundles (br_bundles run) beneficiary);
    (if gr_beneficiary_delta g =? 0 then mret tt else credit_beneficiary g beneficiary) ;;
    modify (fun x => mkExecutor (ex_state x) (ex_receipts x ++ (br_executed run).*2)) ;;
    mret g.

(** The declared gas of the transactions fits, reserving what they use. *)
Fixpoint import_keys (remaining : N) (txs : list TxEnv) : option (list (Address * Address)) :=
  match txs with
  | [] => Some []
  | tx :: rest =>
      match tx_kind tx with
      | Create => None
      | Call to =>
          if remaining <? tx_gas_limit tx then None
          else
            next ← checked_sub remaining 21000;
            keys ← import_keys next rest;
            Some ((tx_caller tx, to) :: keys)
      end
  end.

(** [None]: the block is executed serially. *)
Definition try_commit_import_batch (env : EvmEnv) (workers : nat) (txs : list TxEnv)
  (open : nat -> option Db) : ME (option Graft) :=
  x ← get;
  if bool_decide (txs = []) || negb (bool_decide (ex_receipts x = []))
     || negb (spec_cancun (env_cfg env)) || spec_amsterdam (env_cfg env)
     || negb (bool_decide (st_bundle (ex_state x) = ∅))
  then mret None
  else
    match import_keys (block_gas_limit (env_block env)) txs with
    | None => mret None
    | Some keys =>
        let prestate := st_cache (ex_state x) in
        let open k := (fun db => view (mkState db prestate ∅)) <$> open k in
        match txs with
        | [] => mret None
        | tx0 :: _ =>
            match execute_for_build env workers keys (fun i => default tx0 (txs !! i)) open with
            | Ok run =>
                if negb (bool_decide (br_skipped run = [])) then mret None
                else if negb (bool_decide ((br_executed run).*1 = seq 0 (length txs)))
                then fail OrderChanged
                else g ← commit_transfer_batch run (block_beneficiary (env_block env)); mret (Some g)
            | Err (NotATransfer _) | Err (TouchesBeneficiary _) => mret None
            | Err e => fail (NotParallelFatal e)
            | Panic => panic
            | OutOfFuel => out_of_fuel
            end
        end
    end.
End build.
