(* ===== verification/TransferGroups.v ===== *)
(** * The groups of a block of transfers

    The disjoint sets of [ParallelTransfer], with path halving, never run out of
    the fuel of their loop, and the groups built from them keep together what was
    joined, in the order of the candidates. *)

From S2P Require Import Prelude Effects MvMemory Transfer ParallelTransfer.

(** ** Disjoint sets *)

(** [x] reaches its root in [n] steps. *)
Inductive reaches (p : list nat) : nat -> nat -> nat -> Prop :=
| reach_root x : p !! x = Some x -> reaches p x 0 x
| reach_step x y n r : p !! x = Some y -> y ≠ x -> reaches p y n r -> reaches p x (S n) r.

Lemma reaches_det p x n r n' r' : reaches p x n r -> reaches p x n' r' -> n = n' /\ r = r'.
Proof.
  intros H. revert n' r'. induction H as [x Hx|x y n r Hx Hy _ IH]; intros n' r' H'; destruct H'; simplify_eq; [done|].
  by destruct (IH _ _ H') as [-> ->].
Qed.

Lemma reaches_same p x n r n' r' : reaches p x n r -> reaches p x n' r' -> r = r'.
Proof. intros H H'. by destruct (reaches_det _ _ _ _ _ _ H H'). Qed.

Lemma reaches_root p x n r : reaches p x n r -> p !! r = Some r.
Proof. by induction 1. Qed.

Lemma reaches_lt p x n r : reaches p x n r -> (x < length p)%nat.
Proof. destruct 1; by eapply lookup_lt_Some. Qed.

Lemma reaches_path p x n r :
  reaches p x n r ->
  exists l, length l = S n /\ NoDup l /\ forall y, y ∈ l -> exists m, (m <= n)%nat /\ reaches p y m r.
Proof.
  induction 1 as [x Hx|x y n r Hx Hy H (l & Hl & Hn & Hm)].
  - exists [x]. split_and!; [done|apply NoDup_singleton|]. intros y ->%list_elem_of_singleton.
    exists 0%nat. split; [done|by constructor].
  - assert (Hs : reaches p x (S n) r) by (by econstructor).
    exists (x :: l). split_and!; [cbn; lia| |].
    + constructor; [|done]. intros (m & Hle & Hr)%Hm. destruct (reaches_det _ _ _ _ _ _ Hr Hs). lia.
    + intros z [->|(m & Hle & Hr)%Hm]%elem_of_cons; [by exists (S n)|]. exists m. split; [lia|done].
Qed.

Lemma reaches_bound p x n r : reaches p x n r -> (n < length p)%nat.
Proof.
  intros H. destruct (reaches_path _ _ _ _ H) as (l & Hl & Hn & Hm).
  assert (Hs : l ⊆+ seq 0 (length p)).
  { apply NoDup_submseteq; [done|]. intros y (m & _ & Hr%reaches_lt)%Hm. apply elem_of_seq. lia. }
  apply submseteq_length in Hs. rewrite length_seq in Hs. lia.
Qed.

Definition forest (p : list nat) : Prop := forall x, (x < length p)%nat -> exists n r, reaches p x n r.

(** Every node keeps its root, and no path gets longer. *)
Definition keeps_roots (p p' : list nat) : Prop :=
  length p' = length p /\
  forall z n r, reaches p z n r -> exists n', (n' <= n)%nat /\ reaches p' z n' r.

Lemma keeps_roots_refl p : keeps_roots p p.
Proof. split; [done|]. eauto. Qed.
Lemma keeps_roots_trans p q s : keeps_roots p q -> keeps_roots q s -> keeps_roots p s.
Proof.
  intros [L1 H1] [L2 H2]. split; [congruence|]. intros z n r (n1 & Hn1 & Hr)%H1.
  apply H2 in Hr as (n2 & Hn2 & Hr). exists n2. split; [lia|done].
Qed.
Lemma keeps_roots_forest p q : forest p -> keeps_roots p q -> forest q.
Proof.
  intros Hf [L H] x Hx. rewrite L in Hx. destruct (Hf x Hx) as (n & r & (n' & _ & Hr)%H). eauto.
Qed.

Lemma halving_keeps p x y g :
  p !! x = Some y -> y ≠ x -> p !! y = Some g -> keeps_roots p (<[x := g]> p).
Proof.
  intros Hx Hyx Hy. split; [apply length_insert|]. pose proof (lookup_lt_Some _ _ _ Hx) as Hlt.
  intros z n. revert z. induction (lt_wf n) as [n _ IH]. intros z r Hz.
  destruct (decide (z = x)) as [->|Hzx].
  - inversion Hz as [|? y' n1 ? Hy' _ Hr]; simplify_eq. destruct (decide (g = y)) as [->|Hg].
    + inversion Hr; simplify_eq. exists 1%nat. split; [lia|]. econstructor; [by rewrite list_lookup_insert_eq|done|].
      constructor. by rewrite list_lookup_insert_ne.
    + inversion Hr as [|? g' n2 ? Hg' _ Hr2]; simplify_eq.
      assert (Hgx : g ≠ x). { intros ->. destruct (reaches_det _ _ _ _ _ _ Hz Hr2). lia. }
      destruct (IH n2 ltac:(lia) _ _ Hr2) as (n' & Hle & Hr'). exists (S n'). split; [lia|].
      econstructor; [by rewrite list_lookup_insert_eq|done|done].
  - inversion Hz as [|? y' n1 ? Hy' Hne Hr]; simplify_eq.
    + exists 0%nat. split; [done|]. constructor. by rewrite list_lookup_insert_ne.
    + destruct (IH n1 ltac:(lia) _ _ Hr) as (n' & Hle & Hr'). exists (S n'). split; [lia|].
      econstructor; [by rewrite list_lookup_insert_ne|done|done].
Qed.

Lemma parent_of_ok p x y : p !! x = Some y -> parent_of x p = (p, Ok y).
Proof. intros H. unfold parent_of. by rewrite H. Qed.

Lemma find_loop_spec fuel p x n r :
  reaches p x n r -> (n < fuel)%nat -> exists p', find_loop fuel x p = (p', Ok r) /\ keeps_roots p p'.
Proof.
  revert p x n. induction fuel as [|fuel IH]; intros p x n Hr Hn; [lia|]. cbn [find_loop].
  pose proof Hr as Hr0. destruct Hr as [x Hx|x y n r Hx Hyx Hr].
  - rewrite (bind_ok _ _ _ _ _ (parent_of_ok _ _ _ Hx)), Nat.eqb_refl. exists p. split; [done|apply keeps_roots_refl].
  - rewrite (bind_ok _ _ _ _ _ (parent_of_ok _ _ _ Hx)). destruct (Nat.eqb_spec y x); [done|].
    destruct (p !! y) as [g|] eqn:Hy; [|by destruct Hr; simplify_eq].
    rewrite (bind_ok _ _ _ _ _ (parent_of_ok _ _ _ Hy)). rewrite (bind_ok _ _ _ (<[x := g]> p) tt) by done.
    pose proof (halving_keeps p x y g Hx Hyx Hy) as Hk.
    assert (Hg : (<[x := g]> p) !! x = Some g)
      by (apply list_lookup_insert_eq; by eapply lookup_lt_Some).
    rewrite (bind_ok _ _ _ _ _ (parent_of_ok _ _ _ Hg)).
    assert (exists m, (m < fuel)%nat /\ reaches p g m r) as (m & Hm & Hgr).
    { destruct Hr as [y Hy'|y g' m r Hy' Hg' Hgr]; simplify_eq.
      - exists 0%nat. split; [lia|by constructor].
      - exists m. split; [lia|done]. }
    destruct (proj2 Hk _ _ _ Hgr) as (m' & Hm' & Hgr').
    destruct (IH _ _ _ Hgr' ltac:(lia)) as (p' & E & Hk'). exists p'. split; [done|by eapply keeps_roots_trans].
Qed.

Lemma find_spec p x n r : reaches p x n r -> exists p', find x p = (p', Ok r) /\ keeps_roots p p'.
Proof. intros H. eapply find_loop_spec; [done|]. apply reaches_bound in H. lia. Qed.

(** [x] and [y] have the same root. *)
Definition joined (p : list nat) (x y : nat) : Prop := exists n m r, reaches p x n r /\ reaches p y m r.

Lemma keeps_roots_joined p q x y : keeps_roots p q -> joined p x y -> joined q x y.
Proof. intros [_ H] (n & m & r & (n' & _ & Hx)%H & (m' & _ & Hy)%H). by exists n', m', r. Qed.

Lemma link_reaches p a b :
  p !! a = Some a -> p !! b = Some b -> a ≠ b ->
  forall z n r, reaches p z n r -> exists n', reaches (<[a := b]> p) z n' (if decide (r = a) then b else r).
Proof.
  intros Ha Hb Hab z n r H. pose proof (lookup_lt_Some _ _ _ Ha) as Hlt.
  induction H as [z Hz|z y n r Hz Hy Hr (n' & IH)].
  - case_decide as E; [subst z|].
    + exists 1%nat. econstructor; [by apply list_lookup_insert_eq|done|].
      constructor. by rewrite list_lookup_insert_ne.
    + exists 0%nat. constructor. by rewrite list_lookup_insert_ne.
  - exists (S n'). econstructor; [|done|exact IH]. rewrite list_lookup_insert_ne; [done|]. intros <-. congruence.
Qed.

Lemma union_spec p a b :
  forest p -> (a < length p)%nat -> (b < length p)%nat ->
  exists p', union a b p = (p', Ok tt) /\ length p' = length p /\ forest p' /\
    (forall x y, joined p x y -> joined p' x y) /\ joined p' a b.
Proof.
  intros Hf Ha Hb. destruct (Hf a Ha) as (n & ra & Hra). destruct (find_spec _ _ _ _ Hra) as (p1 & E1 & K1).
  destruct (Hf b Hb) as (m & rb & Hrb). destruct (proj2 K1 _ _ _ Hrb) as (m1 & _ & Hrb1).
  destruct (find_spec _ _ _ _ Hrb1) as (p2 & E2 & K2). pose proof (keeps_roots_trans _ _ _ K1 K2) as K.
  destruct (proj2 K _ _ _ Hra) as (na & _ & Hra2). destruct (proj2 K _ _ _ Hrb) as (nb & _ & Hrb2).
  unfold union. rewrite (bind_ok _ _ _ _ _ E1), (bind_ok _ _ _ _ _ E2).
  destruct (Nat.eqb_spec ra rb) as [<-|Hne].
  - exists p2. split_and!; [done|apply K|by eapply keeps_roots_forest|intros; by eapply keeps_roots_joined|].
    by exists na, nb, ra.
  - pose proof (link_reaches p2 ra rb (reaches_root _ _ _ _ Hra2) (reaches_root _ _ _ _ Hrb2) Hne) as Hlink.
    exists (<[ra := rb]> p2). split_and!; [done|rewrite length_insert; apply K| | |].
    + intros x. rewrite length_insert. intros Hx. destruct (keeps_roots_forest _ _ Hf K x Hx) as (k & r & Hr).
      destruct (Hlink _ _ _ Hr) as (k' & Hr'). eauto.
    + intros x y (k & l & r & Hx & Hy)%(keeps_roots_joined _ _ _ _ K).
      destruct (Hlink _ _ _ Hx) as (k' & Hx'), (Hlink _ _ _ Hy) as (l' & Hy'). eexists k', l', _. done.
    + destruct (Hlink _ _ _ Hra2) as (k' & Hx'), (Hlink _ _ _ Hrb2) as (l' & Hy').
      rewrite decide_True in Hx' by done. rewrite decide_False in Hy' by congruence. by exists k', l', rb.
Qed.

Lemma groups_new_forest n : forest (groups_new n).
Proof.
  intros x Hx. unfold groups_new in *. rewrite length_seq in Hx. exists 0%nat, x. constructor.
  by apply lookup_seq_lt.
Qed.

(** A loop that only joins nodes. *)
Definition joins (m : MG unit) (R : list (nat * nat)) (n : nat) : Prop :=
  forall p, forest p -> length p = n ->
  exists p', m p = (p', Ok tt) /\ length p' = n /\ forest p' /\
    (forall x y, joined p x y -> joined p' x y) /\ Forall (fun e => joined p' e.1 e.2) R.

Lemma joins_for_each {A} (f : A -> MG unit) (R : A -> list (nat * nat)) n l :
  (forall x, x ∈ l -> joins (f x) (R x) n) -> joins (for_each f l) (l ≫= R) n.
Proof.
  induction l as [|x l IH]; intros H p Hf Hp.
  { exists p. split_and!; done. }
  destruct (H x ltac:(by left) p Hf Hp) as (p1 & E1 & L1 & F1 & J1 & R1).
  destruct (IH ltac:(intros y Hy; apply H; by right) p1 F1 L1) as (p2 & E2 & L2 & F2 & J2 & R2).
  exists p2. cbn [for_each]. rewrite (bind_ok _ _ _ _ _ E1). split_and!; [done|done|done|auto|].
  rewrite bind_cons. apply Forall_app. split; [|done]. eapply Forall_impl; [exact R1|]. auto.
Qed.

Lemma joins_union a b n : (a < n)%nat -> (b < n)%nat -> joins (union a b) [(a, b)] n.
Proof.
  intros Ha Hb p Hf Hp. destruct (union_spec p a b Hf) as (p' & E & L & F & J & R); [lia|lia|].
  exists p'. split_and!; [done|lia|done|done|]. by constructor.
Qed.

Lemma joins_none n : joins (mret tt) [] n.
Proof. intros p Hf Hp. exists p. split_and!; try done. Qed.

(** ** Placing items *)

(** The group of item [j]. *)
Definition group_id (nodes : list nat) (rt : nat -> nat) (group_of : list (option nat)) (j : nat) : option nat :=
  node ← nodes !! j; mjoin (group_of !! rt node).

Definition group_lists (gid : nat -> option nat) (k n : nat) : list (list nat) :=
  (fun g => filter (fun j => gid j = Some g) (seq 0 n)) <$> seq 0 k.

Lemma group_lists_length gid k n : length (group_lists gid k n) = k.
Proof. unfold group_lists. by rewrite length_fmap, length_seq. Qed.

Lemma group_lists_lookup gid k n g :
  (g < k)%nat -> group_lists gid k n !! g = Some (filter (fun j => gid j = Some g) (seq 0 n)).
Proof. intros Hg. unfold group_lists. by rewrite list_lookup_fmap, lookup_seq_lt. Qed.

Lemma seq_snoc n : seq 0 (S n) = seq 0 n ++ [n].
Proof. rewrite seq_S. done. Qed.

Lemma group_lists_add gid k n g :
  gid n = Some g -> (g < k)%nat ->
  group_lists gid k (S n) = <[g := filter (fun j => gid j = Some g) (seq 0 n) ++ [n]]> (group_lists gid k n).
Proof.
  intros Hn Hg. apply list_eq. intros h. destruct (decide (h < k)%nat) as [Hh|Hh].
  - rewrite group_lists_lookup, seq_snoc, filter_app by done. destruct (decide (h = g)) as [->|Hne].
    + rewrite list_lookup_insert_eq by (by rewrite group_lists_length).
      rewrite (filter_cons_True _ n) by done. done.
    + rewrite list_lookup_insert_ne, group_lists_lookup by done.
      rewrite (filter_cons_False _ n) by congruence. by rewrite filter_nil, app_nil_r.
  - rewrite !lookup_ge_None_2; [done|..]; rewrite ?length_insert, group_lists_length; lia.
Qed.

Lemma filter_ext_on {A} (P Q : A -> Prop) `{!forall x, Decision (P x)} `{!forall x, Decision (Q x)} (l : list A) :
  (forall x, x ∈ l -> P x <-> Q x) -> filter P l = filter Q l.
Proof.
  induction l as [|x l IH]; intros Hl; [done|]. rewrite !filter_cons, IH by (intros; apply Hl; by right).
  destruct (Hl x ltac:(by left)). repeat case_decide; tauto.
Qed.

Lemma group_lists_ext gid gid' k n :
  (forall j, (j < n)%nat -> gid j = gid' j) -> group_lists gid k n = group_lists gid' k n.
Proof.
  intros H. apply list_eq. intros h. unfold group_lists. rewrite !list_lookup_fmap.
  destruct (seq 0 k !! h); [|done]. cbn. f_equal. apply filter_ext_on.
  intros j Hj%elem_of_seq. by rewrite H by lia.
Qed.

Lemma group_lists_new gid k n :
  (forall j, (j < n)%nat -> gid j ≠ Some k) -> gid n = Some k ->
  group_lists gid (S k) (S n) = group_lists gid k n ++ [[n]].
Proof.
  intros Hold Hn. rewrite (group_lists_add gid (S k) n k Hn) by lia.
  assert (E : filter (fun j => gid j = Some k) (seq 0 n) = []).
  { apply filter_none, Forall_forall. intros j Hj%elem_of_seq. apply Hold. lia. }
  rewrite E. unfold group_lists at 1. rewrite seq_snoc, fmap_app. cbn [fmap list_fmap]. rewrite E.
  rewrite insert_app_r_alt by (rewrite length_fmap, length_seq; lia).
  by rewrite length_fmap, length_seq, Nat.sub_diag.
Qed.

Record placed (nodes : list nat) (rt : nat -> nat) (n i : nat) (group_of : list (option nat))
  (groups : list (list nat)) : Prop := {
  pl_len : length group_of = n;
  pl_groups : groups = group_lists (group_id nodes rt group_of) (length groups) i;
  pl_ids : forall r g, group_of !! r = Some (Some g) -> (g < length groups)%nat;
  pl_all : forall j, (j < i)%nat -> is_Some (group_id nodes rt group_of j)
}.

Lemma place_spec nodes rt n i rest group_of groups p :
  nodes = take i nodes ++ rest -> (i + length rest = length nodes)%nat ->
  Forall (fun x => (x < n)%nat) nodes -> forest p -> length p = n ->
  (forall x, (x < n)%nat -> exists m, reaches p x m (rt x)) ->
  placed nodes rt n i group_of groups ->
  exists p' group_of' groups', place i rest group_of groups p = (p', Ok groups') /\
    placed nodes rt n (length nodes) group_of' groups'.
Proof.
  revert i group_of groups p. induction rest as [|node rest IH]; intros i group_of groups p Hs Hi Hn Hf Hp Hrt Hpl.
  { exists p, group_of, groups. cbn in *. by replace (length nodes) with i by lia. }
  assert (Hnode : nodes !! i = Some node).
  { rewrite Hs, lookup_app_r; rewrite length_take; [|lia]. by replace (i - i `min` length nodes)%nat with 0%nat by lia. }
  assert (Hlt : (node < n)%nat) by (by eapply (proj1 (Forall_lookup _ _) Hn)).
  assert (Hs' : nodes = take (S i) nodes ++ rest).
  { rewrite (take_S_r _ _ _ Hnode), <- app_assoc. exact Hs. }
  destruct (Hrt node Hlt) as (m & Hr). destruct (find_spec _ _ _ _ Hr) as (p1 & E1 & K1).
  assert (Hroot : (rt node < n)%nat) by (rewrite <- Hp; eapply lookup_lt_Some, reaches_root, Hr).
  cbn [place]. rewrite (bind_ok _ _ _ _ _ E1).
  assert (Hrt1 : forall x, (x < n)%nat -> exists m, reaches p1 x m (rt x)).
  { intros x Hx. destruct (Hrt x Hx) as (k & (k' & _ & Hk)%(proj2 K1)). eauto. }
  destruct Hpl as [Hlen Hgr Hids Hall].
  destruct (lookup_lt_is_Some_2 group_of (rt node)) as [o Ho]; [lia|]. rewrite Ho.
  assert (Hid : group_id nodes rt group_of i = o) by (unfold group_id; rewrite Hnode; cbn; by rewrite Ho).
  destruct o as [g|].
  - pose proof (Hids _ _ Ho) as Hg. destruct (lookup_lt_is_Some_2 groups g Hg) as [members Hm]. rewrite Hm.
    apply IH; [done|cbn in Hi; lia|done|by eapply keeps_roots_forest|rewrite (proj1 K1); done|done|].
    assert (Emem : members = filter (fun j => group_id nodes rt group_of j = Some g) (seq 0 i)).
    { rewrite Hgr, group_lists_lookup in Hm by done. by injection Hm. }
    split; [done| |intros r h Hh; rewrite length_insert; by eapply Hids|].
    + rewrite length_insert, (group_lists_add _ _ _ g Hid Hg), <- Hgr, Emem. done.
    + intros j Hj. destruct (decide (j = i)) as [->|]; [by rewrite Hid|apply Hall; lia].
  - set (group_of' := <[rt node := Some (length groups)]> group_of).
    assert (Hold : forall j, (j < i)%nat -> group_id nodes rt group_of' j = group_id nodes rt group_of j).
    { intros j Hj. destruct (Hall j Hj) as [g Hgj]. unfold group_id in Hgj |- *.
      destruct (nodes !! j) as [x|]; [|done]. cbn in *. unfold group_of'.
      rewrite list_lookup_insert_ne; [done|]. intros E. rewrite <- E, Ho in Hgj. done. }
    assert (Hid' : group_id nodes rt group_of' i = Some (length groups)).
    { unfold group_id, group_of'. rewrite Hnode. cbn. by rewrite list_lookup_insert_eq by lia. }
    apply IH; [done|cbn in Hi; lia|done|by eapply keeps_roots_forest|rewrite (proj1 K1); done|done|].
    split; [by unfold group_of'; rewrite length_insert|..].
    + rewrite length_app, Nat.add_1_r. rewrite group_lists_new; [|intros j Hj|done].
      * rewrite (group_lists_ext _ (group_id nodes rt group_of)) by done. by rewrite <- Hgr.
      * rewrite Hold by done. destruct (Hall j Hj) as [g Hgj]. rewrite Hgj. intros [= ->].
        unfold group_id in Hgj. destruct (nodes !! j) as [x|]; [|done]. cbn in Hgj.
        destruct (group_of !! rt x) as [[h|]|] eqn:Ex; [|done..]. cbn in Hgj. simplify_eq.
        apply Hids in Ex. lia.
    + intros r g. rewrite length_app. unfold group_of'. intros Hg.
      destruct (decide (r = rt node)) as [->|Hne].
      * rewrite list_lookup_insert_eq in Hg by lia. simplify_eq. cbn. lia.
      * rewrite list_lookup_insert_ne in Hg by done. apply Hids in Hg. lia.
    + intros j Hj. destruct (decide (j = i)) as [->|]; [by rewrite Hid'|]. rewrite Hold by lia. apply Hall. lia.
Qed.

Lemma place_all nodes n p :
  Forall (fun x => (x < n)%nat) nodes -> forest p -> length p = n ->
  exists p' gid k, place 0 nodes (replicate n None) [] p = (p', Ok (group_lists gid k (length nodes))) /\
    (forall j, (j < length nodes)%nat -> exists g, gid j = Some g /\ (g < k)%nat) /\
    (forall j j' x x', nodes !! j = Some x -> nodes !! j' = Some x' -> joined p x x' -> gid j = gid j').
Proof.
  intros Hn Hf Hp. set (rt x := match (find x p).2 with Ok r => r | _ => 0%nat end).
  assert (Hrt : forall x m r, reaches p x m r -> rt x = r).
  { intros x m r H. unfold rt. by destruct (find_spec _ _ _ _ H) as (p' & -> & _). }
  destruct (place_spec nodes rt n 0 nodes (replicate n None) [] p) as (p' & go & groups & E & [H1 H2 H3 H4]);
    [done|lia|done|done|done| |split|].
  - intros x Hx. rewrite <- Hp in Hx. destruct (Hf x Hx) as (m & r & Hr). exists m. by rewrite (Hrt _ _ _ Hr).
  - apply length_replicate.
  - done.
  - intros r g Hg. apply lookup_replicate in Hg as [? _]. done.
  - intros j Hj. lia.
  - exists p', (group_id nodes rt go), (length groups). split_and!.
    + rewrite E. by rewrite <- H2.
    + intros j [g Hg]%H4. exists g. split; [done|]. unfold group_id in Hg.
      destruct (nodes !! j) as [x|]; [|done]. cbn in Hg.
      destruct (go !! rt x) as [[h|]|] eqn:Ex; [|done..]. cbn in Hg. simplify_eq. by eapply H3.
    + intros j j' x x' Hj Hj' (m & m' & r & Hx & Hx'). unfold group_id. rewrite Hj, Hj'. cbn.
      by rewrite (Hrt _ _ _ Hx), (Hrt _ _ _ Hx').
Qed.

(** ** The partitions *)

Definition ids_bounded (m : gmap Address nat) : Prop := forall a i, m !! a = Some i -> (i < size m)%nat.

Lemma party_spec a m :
  ids_bounded m ->
  ids_bounded (party a m).1 /\ (party a m).1 !! a = Some (party a m).2 /\ m ⊆ (party a m).1.
Proof.
  intros Hb. unfold party. destruct (m !! a) as [i|] eqn:E; cbn; [done|]. split_and!.
  - intros b j. rewrite map_size_insert_None by done. intros [[<- <-]|[_ Hj%Hb]]%lookup_insert_Some; lia.
  - apply lookup_insert_eq.
  - by apply insert_subseteq.
Qed.

Lemma index_senders_spec i keys beneficiary m m' :
  index_senders i keys beneficiary m = Ok m' -> ids_bounded m ->
  ids_bounded m' /\ m ⊆ m' /\
  Forall (fun key => is_Some (m' !! key.1) /\ key.1 ≠ beneficiary /\ key.2 ≠ beneficiary) keys.
Proof.
  revert i m. induction keys as [|[sender to] keys IH]; intros i m; cbn [index_senders].
  { intros [= <-] Hb. done. }
  destruct (_ || _) eqn:E; [done|]. intros Hi Hb. bool_simpl.
  destruct (party_spec sender m Hb) as (H1 & H2 & H3). destruct (IH _ _ Hi H1) as (H4 & H5 & H6).
  split_and!; [done|by etrans|]. constructor; [|done]. cbn. split_and!; [|done|done].
  eexists. by eapply lookup_weaken.
Qed.

Lemma index_senders_total i keys beneficiary m :
  (exists m', index_senders i keys beneficiary m = Ok m') \/
  (exists j, index_senders i keys beneficiary m = Err (TouchesBeneficiary j)) /\
    Exists (fun key => key.1 = beneficiary \/ key.2 = beneficiary) keys.
Proof.
  revert i m. induction keys as [|[sender to] keys IH]; intros i m; cbn [index_senders]; [eauto|].
  destruct (_ || _) eqn:E.
  - right. split; [eauto|]. left. cbn. apply orb_true_iff in E as [?%N.eqb_eq|?%N.eqb_eq]; auto.
  - destruct (IH (S i) (party sender m).1) as [[m' H]|[H1 H2]]; [eauto|]. right. split; [done|by right].
Qed.

Lemma sender_nodes_spec m keys p :
  Forall (fun key => is_Some (m !! key.1)) keys ->
  exists nodes, sender_nodes m keys p = (p, Ok nodes) /\ Forall2 (fun key x => m !! key.1 = Some x) keys nodes.
Proof.
  induction 1 as [|[sender to] keys [x Hx] _ (nodes & E & IH)]; cbn [sender_nodes]; [by exists []|].
  assert (Hs : sender_node m sender p = (p, Ok x)) by (unfold sender_node; cbn in Hx; by rewrite Hx).
  exists (x :: nodes). rewrite (bind_ok _ _ _ _ _ Hs), (bind_ok _ _ _ _ _ E). split; [done|by constructor].
Qed.

(** The nodes that [join_recipient] joins. *)
Definition recipient_edges (m : gmap Address nat) (key : Address * Address) : list (nat * nat) :=
  match m !! key.1, m !! key.2 with Some a, Some b => [(a, b)] | _, _ => [] end.

Lemma join_recipient_joins m key :
  ids_bounded m -> is_Some (m !! key.1) -> joins (join_recipient m key) (recipient_edges m key) (size m).
Proof.
  intros Hb [a Ha]. unfold join_recipient, recipient_edges. rewrite Ha. destruct (m !! key.2) as [b|] eqn:Eb.
  - intros p Hf Hp. rewrite (bind_ok _ _ p p a) by (unfold sender_node; by rewrite Ha).
    by apply (joins_union a b (size m) (Hb _ _ Ha) (Hb _ _ Eb)).
  - apply joins_none.
Qed.

(** Senders, and the recipients that send, are together; groups are in the order
    of the candidates. *)
Record sender_groups (keys : list (Address * Address)) (gid : nat -> option nat) (k : nat) : Prop := {
  sg_all : forall j, (j < length keys)%nat -> exists g, gid j = Some g /\ (g < k)%nat;
  sg_senders : forall j j' key key', keys !! j = Some key -> keys !! j' = Some key' ->
    key.1 = key'.1 \/ key.2 = key'.1 -> gid j = gid j'
}.

(** [partition_by_sender] returns groups exactly when no candidate touches the
    beneficiary; it never panics and its loops end. *)
Lemma partition_by_sender_spec keys beneficiary :
  (exists gid k, partition_by_sender keys beneficiary = Ok (group_lists gid k (length keys)) /\
     sender_groups keys gid k /\
     Forall (fun key => key.1 ≠ beneficiary /\ key.2 ≠ beneficiary) keys) \/
  (exists j, partition_by_sender keys beneficiary = Err (TouchesBeneficiary j)) /\
    Exists (fun key => key.1 = beneficiary \/ key.2 = beneficiary) keys.
Proof.
  unfold partition_by_sender.
  destruct (index_senders_total 0 keys beneficiary ∅) as [[m E]|[[j E] Hx]]; rewrite E;
    cbn [mbind result_bind outcome_bind]; [|right; split; [by exists j|done]]. left.
  destruct (index_senders_spec _ _ _ _ _ E) as (Hb & _ & Hall); [intros a i; by rewrite lookup_empty|].
  assert (Hjoin : joins (for_each (join_recipient m) keys) (keys ≫= recipient_edges m) (size m)).
  { apply joins_for_each. intros key Hkey. apply join_recipient_joins; [done|].
    by apply (proj1 (Forall_forall _ _) Hall). }
  destruct (Hjoin (groups_new (size m))) as (p & E1 & L1 & F1 & _ & R1);
    [apply groups_new_forest|apply length_seq|].
  destruct (sender_nodes_spec m keys p) as (nodes & E2 & Hn); [eapply Forall_impl; [exact Hall|]; naive_solver|].
  rewrite (bind_ok _ _ _ _ _ E1), (bind_ok _ _ _ _ _ E2).
  destruct (place_all nodes (size m) p) as (p' & gid & k & E3 & Hg & Hj); [|done|done|].
  { apply Forall_lookup. intros j x Hx. destruct (Forall2_lookup_r _ _ _ _ _ Hn Hx) as (key & _ & Hk). by eapply Hb. }
  pose proof (Forall2_length _ _ _ Hn) as Hlen. exists gid, k. rewrite E3, Hlen. split; [done|].
  split; [split|eapply Forall_impl; [exact Hall|]; naive_solver].
  - by rewrite Hlen.
  - intros j j' key key' Hk Hk' Hor. destruct (Forall2_lookup_l _ _ _ _ _ Hn Hk) as (x & Hx & Hkx).
    destruct (Forall2_lookup_l _ _ _ _ _ Hn Hk') as (x' & Hx' & Hkx'). eapply Hj; [done|done|].
    assert (Hxlt : (x < length p)%nat) by (rewrite L1; by eapply Hb).
    destruct Hor as [Es|Es].
    + rewrite Es in Hkx. simplify_eq. destruct (F1 x Hxlt) as (n & r & Hr). by exists n, n, r.
    + rewrite Forall_forall in R1. apply (R1 (x, x')). apply list_elem_of_bind. exists key.
      split; [|by eapply list_elem_of_lookup_2]. unfold recipient_edges. rewrite Hkx, Es, Hkx'. by left.
Qed.

Lemma transfer_edges_spec i txs beneficiary m m' edges :
  transfer_edges i txs beneficiary m = Ok (m', edges) -> ids_bounded m ->
  ids_bounded m' /\ m ⊆ m' /\
  Forall2 (fun tx e => exists to, tx_kind tx = Call to /\ m' !! tx_caller tx = Some e.1 /\ m' !! to = Some e.2)
    txs edges.
Proof.
  revert i m edges. induction txs as [|tx txs IH]; intros i m edges; cbn [transfer_edges].
  { intros [= <- <-] Hb. done. }
  destruct (tx_kind tx) as [to|] eqn:Ek; [|done]. destruct (negb _); [done|]. destruct (_ || _); [done|].
  intros He Hb. destruct (party_spec (tx_caller tx) m Hb) as (H1 & H2 & H3).
  destruct (party (tx_caller tx) m) as [m1 a] eqn:E1. cbn in H1, H2, H3.
  destruct (party_spec to m1 H1) as (H4 & H5 & H6). destruct (party to m1) as [m2 b] eqn:E2. cbn in H4, H5, H6.
  destruct (transfer_edges (S i) txs beneficiary m2) as [[m3 es]| | |] eqn:E3; cbn in He; [|done..].
  injection He as <- <-. destruct (IH _ _ _ E3 H4) as (H7 & H8 & H9).
  split_and!; [done|by do 2 (etrans; [done|])|]. constructor; [|done]. exists to. split_and!; [done|..].
  - eapply lookup_weaken; [exact H2|]. by etrans.
  - by eapply lookup_weaken.
Qed.

(** The groups of [partition] share no party. *)
Lemma partition_spec txs beneficiary groups n :
  partition txs beneficiary = Ok (groups, n) ->
  exists gid k, groups = group_lists gid k (length txs) /\
    (forall j, (j < length txs)%nat -> exists g, gid j = Some g /\ (g < k)%nat) /\
    forall j j' tx tx' to to', txs !! j = Some tx -> txs !! j' = Some tx' ->
      tx_kind tx = Call to -> tx_kind tx' = Call to' ->
      tx_caller tx = tx_caller tx' \/ tx_caller tx = to' \/ to = tx_caller tx' \/ to = to' -> gid j = gid j'.
Proof.
  unfold partition. destruct (transfer_edges _ _ _ _) as [[m edges]| | |] eqn:E; cbn [mbind result_bind outcome_bind]; [|done..].
  destruct (transfer_edges_spec _ _ _ _ _ _ E) as (Hb & _ & He); [intros a i; by rewrite lookup_empty|].
  assert (Hlt : Forall (fun e => (e.1 < size m)%nat /\ (e.2 < size m)%nat) edges).
  { apply Forall_lookup. intros j e Hj. destruct (Forall2_lookup_r _ _ _ _ _ He Hj) as (tx & _ & to & _ & H1 & H2).
    split; by eapply Hb. }
  assert (Hjoin : joins (for_each (fun '(a, b) => union a b) edges) (edges ≫= fun e => [e]) (size m)).
  { apply joins_for_each. intros [a b] Hin. apply (proj1 (Forall_forall _ _) Hlt) in Hin as [H1 H2].
    by apply joins_union. }
  destruct (Hjoin (groups_new (size m))) as (p & E1 & L1 & F1 & _ & R1);
    [apply groups_new_forest|apply length_seq|].
  rewrite (bind_ok _ _ _ _ _ E1).
  destruct (place_all edges.*1 (size m) p) as (p' & gid & k & E3 & Hg & Hj); [|done|done|].
  { apply Forall_fmap. eapply Forall_impl; [exact Hlt|]. naive_solver. }
  rewrite E3. cbn. intros [= <- <-]. pose proof (Forall2_length _ _ _ He) as Hlen.
  rewrite length_fmap in Hg |- *. exists gid, k. rewrite Hlen. split_and!; [done|done|].
  intros j j' tx tx' to to' Htx Htx' Hto Hto' Hor.
  destruct (Forall2_lookup_l _ _ _ _ _ He Htx) as ([a b] & Hab & ? & Hk & Ha & Hb').
  rewrite Hto in Hk. injection Hk as <-.
  destruct (Forall2_lookup_l _ _ _ _ _ He Htx') as ([c d] & Hcd & ? & Hk & Hc & Hd).
  rewrite Hto' in Hk. injection Hk as <-. cbn in *.
  assert (Hin : forall i e, edges !! i = Some e -> joined p e.1 e.2).
  { intros i e Hi. rewrite Forall_forall in R1. apply R1, list_elem_of_bind. exists e.
    split; [by left|by eapply list_elem_of_lookup_2]. }
  pose proof (Hin _ _ Hab) as (n1 & n2 & r & Hr1 & Hr2). pose proof (Hin _ _ Hcd) as (n3 & n4 & r' & Hr3 & Hr4).
  cbn in *. eapply (Hj j j' a c); [by rewrite list_lookup_fmap, Hab|by rewrite list_lookup_fmap, Hcd|].
  assert (r = r') as <-; [|by exists n1, n3, r].
  destruct Hor as [Eq|[Eq|[Eq|Eq]]]; rewrite Eq in *; simplify_eq;
    first [exact (reaches_same _ _ _ _ _ _ Hr1 Hr3) | exact (reaches_same _ _ _ _ _ _ Hr1 Hr4)
          |exact (reaches_same _ _ _ _ _ _ Hr2 Hr3) | exact (reaches_same _ _ _ _ _ _ Hr2 Hr4)].
Qed.

(** ** Batches *)

Lemma pack_concat per groups current filled : mjoin (pack per groups current filled) = current ++ groups.
Proof.
  revert current filled. induction groups as [|group groups IH]; intros current filled; cbn [pack].
  { rewrite app_nil_r. case_bool_decide as E; [by rewrite E|]. cbn. by rewrite app_nil_r. }
  destruct (_ <=? _)%nat; [|by rewrite IH, <- app_assoc].
  cbn. rewrite IH. by rewrite <- app_assoc.
Qed.

Lemma batch_groups_concat groups total workers : mjoin (batch_groups groups total workers) = groups.
Proof. apply pack_concat. Qed.

(** ** Properties of the group lists *)

Lemma group_lists_permutation gid k n :
  (forall j, (j < n)%nat -> exists g, gid j = Some g /\ (g < k)%nat) ->
  mjoin (group_lists gid k n) ≡ₚ seq 0 n.
Proof.
  intros H. apply NoDup_Permutation; [|apply NoDup_seq|].
  - unfold group_lists. clear H. assert (Hk : NoDup (seq 0 k)) by apply NoDup_seq.
    induction Hk as [|g l Hg Hl IH]; cbn; [constructor|]. apply NoDup_app. split_and!.
    + apply NoDup_filter, NoDup_seq.
    + intros j [Ej _]%list_elem_of_filter Hj. apply list_elem_of_join in Hj as (l' & Hj & Hl').
      apply list_elem_of_fmap in Hl' as (h & -> & Hh). apply list_elem_of_filter in Hj as [Eh _].
      congruence.
    + done.
  - intros j. rewrite elem_of_seq, list_elem_of_join. split.
    + intros (l & Hj & (g & -> & _)%list_elem_of_fmap). apply list_elem_of_filter in Hj as [_ Hj%elem_of_seq]. lia.
    + intros Hj. destruct (H j ltac:(lia)) as (g & Hg & Hk). eexists. split.
      2:{ apply list_elem_of_fmap. exists g. split; [done|]. apply elem_of_seq. lia. }
      apply list_elem_of_filter. split; [done|]. apply elem_of_seq. lia.
Qed.
