(* ===== verification/TransferTheory.v ===== *)
(** * What a transfer does

    An accepted transfer takes the value and the gas from its sender, counts the
    sender's nonce, and credits the recipient and the beneficiary; nothing else
    changes.  Credits commute; whether a transfer is accepted depends on the
    sender's account, and on the others only through what later credits keep. *)

From S2P Require Import Prelude Effects MvMemory Transfer.

Section theory.
Context {revm_tx : RevmTx} {revm : RevmState} {laws : RevmStateLaws revm}.

(** ** Acceptance *)

(** The checks that do not read the state. *)
Definition static_ok (env : EvmEnv) (tx : TxEnv) (to : Address) : bool :=
  plain_shape tx && bool_decide (environment_refusal env = None) && within_limits env tx && fees_ok env tx
  && negb ((to =? tx_caller tx) || (to =? block_beneficiary (env_block env))
           || (tx_caller tx =? block_beneficiary (env_block env)))
  && negb (env_precompile env to).

Definition sender_ok (tx : TxEnv) (sender : AccountInfo) : bool :=
  negb (negb (is_code_hash_empty_or_zero sender) || negb (ai_nonce sender =? tx_nonce tx)
        || (ai_nonce sender =? u64_max))
  && match max_balance_spending tx with
     | Some max_spending => negb (ai_balance sender <? max_spending)
     | None => false
     end.

Definition with_balance (info : AccountInfo) (balance : N) : AccountInfo :=
  mkAccountInfo balance (ai_nonce info) (ai_code_hash info).

Definition transfer_output (env : EvmEnv) (tx : TxEnv) (to : Address) (sender : AccountInfo)
  (recipient : option AccountInfo) (coinbase : AccountInfo) (balances : N * N * N) : TransferOutput :=
  let '(sender_balance, recipient_balance, coinbase_balance) := balances in
  mkTransferOutput TRANSFER_GAS (if spec_prague (env_cfg env) then TRANSFER_GAS else 0)
    (<[block_beneficiary (env_block env) := with_balance coinbase coinbase_balance]>
     (<[to := with_balance (default AccountInfo_default recipient) recipient_balance]>
      {[tx_caller tx := mkAccountInfo sender_balance (ai_nonce sender + 1) (ai_code_hash sender)]})).

(** [accepted env tx V out]: on accounts [V], the transfer is made with [out]. *)
Record accepted (env : EvmEnv) (tx : TxEnv) (V : Db) (out : TransferOutput) : Prop := {
  ac_parts : exists to sender recipient coinbase balances,
    tx_kind tx = Call to /\ static_ok env tx to = true /\
    V (tx_caller tx) = Ok (Some sender) /\ sender_ok tx sender = true /\
    V to = Ok recipient /\ recipient_ok (tx_value tx) recipient = true /\
    V (block_beneficiary (env_block env)) = Ok (Some coinbase) /\ info_is_empty coinbase = false /\
    transfer_balances env tx (ai_balance sender) (ai_balance (default AccountInfo_default recipient))
      (ai_balance coinbase) = Some balances /\
    out = transfer_output env tx to sender recipient coinbase balances
}.

Lemma accepted_ext env tx V V' out : (forall a, V a = V' a) -> accepted env tx V out -> accepted env tx V' out.
Proof.
  intros H [(to & sender & recipient & coinbase & balances & Hac)].
  split. exists to, sender, recipient, coinbase, balances. by rewrite <- !H.
Qed.

(** A state that reads the same. *)
Definition reads_same (s s' : State) : Prop :=
  (forall b, view s' b = view s b) /\ st_bundle s' = st_bundle s /\
  (forall db, from_db db s -> from_db db s').

Lemma reads_same_refl s : reads_same s s.
Proof. by split_and!. Qed.
Lemma reads_same_basic a s s' : reads_same s s' -> reads_same s (basic a s').
Proof.
  intros (H1 & H2 & H3). split_and!.
  - intros b. by rewrite basic_view.
  - by rewrite basic_bundle.
  - intros db Hdb. constructor. auto.
Qed.

Lemma read_bind {B} a (k : option AccountInfo -> ST State DbError B) s o :
  view s a = Ok o -> (read id a ≫= k) s = k o (basic a s).
Proof. intros H. unfold mbind, st_bind, read. by rewrite H. Qed.

(** [refused] is not an output. *)
Lemma refused_not {S E} reason s s' (out : TransferOutput) :
  @refused S E reason s = (s', Ok (inr out)) -> False.
Proof. unfold refused. by intros [=]. Qed.

Lemma read_cases {B} a (k : option AccountInfo -> ST State DbError B) s s' r :
  (read id a ≫= k) s = (s', Ok r) -> exists o, view s a = Ok o /\ k o (basic a s) = (s', Ok r).
Proof.
  unfold mbind, st_bind, read. destruct (view s a) as [o| | |]; [|done..]. eauto.
Qed.

Lemma transfer_accepted env tx s s' out :
  transfer env tx s = (s', Ok (inr out)) -> accepted env tx (view s) out.
Proof.
  unfold transfer. destruct (tx_kind tx) as [to|] eqn:Ek; [|by intros ?%refused_not].
  destruct (plain_shape tx) eqn:E1; cbn [negb]; [|by intros ?%refused_not].
  destruct (environment_refusal env) eqn:E2; [by intros ?%refused_not|].
  destruct (within_limits env tx) eqn:E3; cbn [negb]; [|by intros ?%refused_not].
  destruct (fees_ok env tx) eqn:E4; cbn [negb]; [|by intros ?%refused_not]. cbn zeta.
  destruct ((to =? _) || _ || _) eqn:E5; [by intros ?%refused_not|].
  destruct (env_precompile env to) eqn:E6; [by intros ?%refused_not|].
  intros (o & Ho & H)%read_cases. destruct o as [sender|]; [|by apply refused_not in H].
  destruct (_ || _ || _) eqn:E7 in H; [by apply refused_not in H|].
  destruct (max_balance_spending tx) as [m|] eqn:E8; [|by apply refused_not in H].
  destruct (_ <? m) eqn:E9; [by apply refused_not in H|].
  apply read_cases in H as (recipient & Hr & H). rewrite basic_view in Hr.
  destruct (recipient_ok _ _) eqn:E10; cbn [negb] in H; [|by apply refused_not in H].
  apply read_cases in H as ([coinbase|] & Hc & H); [|by apply refused_not in H]. rewrite !basic_view in Hc.
  destruct (info_is_empty coinbase) eqn:E11; [by apply refused_not in H|].
  destruct (transfer_balances _ _ _ _ _) as [[[sb rb] cb]|] eqn:E12; [|by apply refused_not in H].
  injection H as _ <-. split. exists to, sender, recipient, coinbase, (sb, rb, cb). split_and!; try done.
  - unfold static_ok. by rewrite E1, E2, E3, E4, E5, E6, bool_decide_true.
  - unfold sender_ok. by rewrite E7, E8, E9.
Qed.

Lemma transfer_reads_same env tx s : reads_same s (transfer env tx s).1.
Proof.
  assert (Href : forall reason s', reads_same s s' -> reads_same s (@refused State DbError reason s').1) by done.
  assert (Hread : forall B a (k : option AccountInfo -> ST State DbError B) s',
    reads_same s s' -> (forall o s'', reads_same s s'' -> reads_same s (k o s'').1) ->
    reads_same s ((read id a ≫= k) s').1).
  { intros B a k s' Hs Hk. unfold mbind, st_bind, read.
    pose proof (reads_same_basic a s s' Hs). destruct (view s' a); auto. }
  pose proof (reads_same_refl s) as H0. unfold transfer. cbn zeta.
  repeat match goal with
  | |- reads_same s ((read id _ ≫= _) _).1 => apply Hread; [done|]; intros ? ? ?
  | |- reads_same s (refused _ _).1 => by apply Href
  | |- reads_same s ((match ?x with _ => _ end) _).1 => destruct x
  | |- reads_same s (mret _ _).1 => done
  end.
Qed.

(** What is accepted is made. *)
Lemma accepted_transfer env tx s out :
  accepted env tx (view s) out -> exists s', transfer env tx s = (s', Ok (inr out)) /\ reads_same s s'.
Proof.
  intros [(to & sender & recipient & coinbase & [[sb rb] cb] & Hk & Hst & Hs & Hso & Hr & Hro & Hc & Hce & Hb & ->)].
  unfold static_ok in Hst. apply andb_true_iff in Hst as [Hst H6]. apply andb_true_iff in Hst as [Hst H5].
  apply andb_true_iff in Hst as [Hst H4]. apply andb_true_iff in Hst as [Hst H3].
  apply andb_true_iff in Hst as [H1 H2%bool_decide_eq_true].
  unfold sender_ok in Hso. apply andb_true_iff in Hso as [Hso Hmax].
  destruct (max_balance_spending tx) as [m|] eqn:Em; [|done].
  apply negb_true_iff in H5, H6, Hso, Hmax.
  pose proof (transfer_reads_same env tx s) as Hsame.
  exists (transfer env tx s).1. split; [|done].
  destruct (transfer env tx s) as [s' r] eqn:E. cbn. f_equal. clear Hsame.
  unfold transfer in E. rewrite Hk, H1, H2, H3, H4 in E. cbn [negb] in E. cbn zeta in E. rewrite H5, H6 in E.
  rewrite (read_bind _ _ _ _ Hs), Hso, Em, Hmax in E.
  rewrite (read_bind _ _ _ recipient) in E by (by rewrite basic_view). rewrite Hro in E. cbn [negb] in E.
  rewrite (read_bind _ _ _ (Some coinbase)) in E by (by rewrite !basic_view). rewrite Hce, Hb in E.
  by injection E as _ <-.
Qed.

(** ** Effects *)

Definition gas_cost (env : EvmEnv) (tx : TxEnv) : N :=
  effective_gas_price tx (block_basefee (env_block env)) * TRANSFER_GAS.
Definition gas_reward (env : EvmEnv) (tx : TxEnv) : N :=
  (effective_gas_price tx (block_basefee (env_block env)) - block_basefee (env_block env)) * TRANSFER_GAS.

(** What [tx] adds to an account it does not send from. *)
Definition credit_of (env : EvmEnv) (a : Address) (tx : TxEnv) : option N :=
  match tx_kind tx with
  | Call to =>
      if a =? to then Some (tx_value tx)
      else if a =? block_beneficiary (env_block env) then Some (gas_reward env tx)
      else None
  | Create => None
  end.

Definition bump (c : N) (o : option AccountInfo) : AccountInfo :=
  let i := default AccountInfo_default o in with_balance i (ai_balance i + c).

Definition spend (env : EvmEnv) (tx : TxEnv) (i : AccountInfo) : AccountInfo :=
  mkAccountInfo (ai_balance i - tx_value tx - gas_cost env tx) (ai_nonce i + 1) (ai_code_hash i).

(** The account [a] after [tx]. *)
Definition effect (env : EvmEnv) (a : Address) (o : option AccountInfo) (tx : TxEnv) : option AccountInfo :=
  if a =? tx_caller tx then spend env tx <$> o
  else match credit_of env a tx with Some c => Some (bump c o) | None => o end.

Definition effects (env : EvmEnv) (a : Address) (txs : list TxEnv) (o : option AccountInfo) : option AccountInfo :=
  foldl (effect env a) o txs.

Definition after (env : EvmEnv) (txs : list TxEnv) (V : Db) : Db := fun a =>
  o ← V a; Ok (effects env a txs o).

Lemma after_nil env V a : after env [] V a = V a.
Proof. unfold after. by destruct (V a). Qed.
Lemma after_app env txs txs' V a : after env (txs ++ txs') V a = after env txs' (after env txs V) a.
Proof. unfold after, effects. destruct (V a); cbn; [|done..]. by rewrite foldl_app. Qed.
Lemma after_ext env txs V V' a : V a = V' a -> after env txs V a = after env txs V' a.
Proof. unfold after. by intros ->. Qed.
Lemma after_ok env txs V a o : V a = Ok o -> after env txs V a = Ok (effects env a txs o).
Proof. unfold after. by intros ->. Qed.

(** The arithmetic of an accepted transfer. *)
Lemma transfer_balances_spec env tx sender recipient coinbase sb rb cb :
  transfer_balances env tx sender recipient coinbase = Some (sb, rb, cb) ->
  gas_cost env tx <= u128_max /\ gas_reward env tx <= u128_max /\
  tx_value tx + gas_cost env tx <= sender /\
  sb = sender - tx_value tx - gas_cost env tx /\
  rb = recipient + tx_value tx /\ rb <= u256_max /\
  cb = coinbase + gas_reward env tx /\ cb <= u256_max.
Proof.
  unfold transfer_balances, checked_mul, checked_sub, checked_add. cbn zeta.
  fold (gas_cost env tx) (gas_reward env tx).
  repeat (match goal with |- ((if ?b then Some ?x else None) ≫= ?f) = _ -> _ =>
    destruct b eqn:?; [change (Some x ≫= f) with (f x); cbn beta|by intros [=]] end).
  bool_simpl. intros [= <- <- <-]. split_and!; lia || done.
Qed.

Lemma transfer_balances_intro env tx sender recipient coinbase :
  gas_cost env tx <= u128_max -> gas_reward env tx <= u128_max ->
  tx_value tx + gas_cost env tx <= sender ->
  recipient + tx_value tx <= u256_max -> coinbase + gas_reward env tx <= u256_max ->
  transfer_balances env tx sender recipient coinbase =
    Some (sender - tx_value tx - gas_cost env tx, recipient + tx_value tx, coinbase + gas_reward env tx).
Proof.
  intros H1 H2 H3 H4 H5. unfold transfer_balances, checked_mul, checked_sub, checked_add. cbn zeta.
  fold (gas_cost env tx) (gas_reward env tx).
  repeat (match goal with |- ((if ?a <=? ?b then Some ?x else None) ≫= ?f) = _ =>
    rewrite (proj2 (N.leb_le a b)) by lia; change (Some x ≫= f) with (f x); cbn beta end). done.
Qed.

(** The three accounts of a transfer are different. *)
Lemma static_parties env tx to :
  static_ok env tx to = true ->
  to ≠ tx_caller tx /\ to ≠ block_beneficiary (env_block env) /\
  tx_caller tx ≠ block_beneficiary (env_block env).
Proof.
  unfold static_ok. intros H. apply andb_true_iff in H as [H _]. apply andb_true_iff in H as [_ H].
  bool_simpl. done.
Qed.

Lemma with_balance_not_empty i b b' :
  info_is_empty (with_balance i b) = false -> b <= b' -> info_is_empty (with_balance i b') = false.
Proof.
  unfold info_is_empty, is_code_hash_empty_or_zero, with_balance. cbn. intros H Hb.
  destruct (_ || _); [|done]. destruct (N.eqb_spec b 0), (N.eqb_spec b' 0); cbn in *; [done|done|lia|done].
Qed.

Lemma with_balance_same i : with_balance i (ai_balance i) = i.
Proof. by destruct i. Qed.

Lemma not_empty_balance i : ai_balance i ≠ 0 -> info_is_empty i = false.
Proof.
  intros H. unfold info_is_empty. apply andb_false_iff. left. apply andb_false_iff. right. by apply N.eqb_neq.
Qed.
Lemma not_empty_nonce i : ai_nonce i ≠ 0 -> info_is_empty i = false.
Proof. intros H. unfold info_is_empty. apply andb_false_iff. right. by apply N.eqb_neq. Qed.

(** The recipient exists after the transfer. *)
Lemma recipient_not_empty value recipient :
  recipient_ok value recipient = true ->
  info_is_empty (bump value recipient) = false.
Proof.
  intros H. destruct (N.eqb_spec value 0) as [->|Hv].
  - unfold recipient_ok in H. destruct recipient as [i|]; [|done].
    destruct (negb _); [done|]. apply negb_true_iff in H. cbn in H.
    unfold bump. cbn [default from_option id]. cbn zeta. by rewrite N.add_0_r, with_balance_same.
  - apply not_empty_balance. unfold bump. cbn. lia.
Qed.

(** Committing the output of an accepted transfer has its effects. *)
Lemma accepted_commit env tx s out :
  accepted env tx (view s) out -> forall a, view (commit (out_state out) s) a = after env [tx] (view s) a.
Proof.
  intros [(to & sender & recipient & coinbase & [[sb rb] cb] & Hk & Hst & Hs & Hso & Hr & Hro & Hc & Hce & Hb & ->)] a.
  destruct (static_parties _ _ _ Hst) as (N1 & N2 & N3).
  destruct (transfer_balances_spec _ _ _ _ _ _ _ _ Hb) as (_ & _ & Hle & -> & -> & _ & -> & _).
  rewrite commit_view. cbn [transfer_output out_state]. unfold after, effects. cbn [foldl]. unfold effect, credit_of.
  rewrite Hk. destruct (N.eqb_spec a (tx_caller tx)) as [->|Ha].
  { rewrite !lookup_insert_ne, lookup_singleton_eq by done. rewrite Hs. cbn [mbind result_bind outcome_bind].
    rewrite not_empty_nonce by (cbn; lia). done. }
  destruct (N.eqb_spec a to) as [->|Hat].
  { rewrite lookup_insert_ne, lookup_insert_eq by done. rewrite Hr. cbn [mbind result_bind outcome_bind].
    pose proof (recipient_not_empty _ _ Hro) as He. unfold bump in *. cbn zeta in *. by rewrite He. }
  destruct (N.eqb_spec a (block_beneficiary (env_block env))) as [->|Hab].
  { rewrite lookup_insert_eq, Hc. cbn [mbind result_bind outcome_bind]. unfold bump. cbn.
    rewrite <- (with_balance_same coinbase) in Hce.
    by rewrite (with_balance_not_empty _ _ _ Hce) by lia. }
  rewrite !lookup_insert_ne, lookup_singleton_ne by done. by destruct (view s a).
Qed.

(** ** Sequences of transfers *)

Fixpoint runs (env : EvmEnv) (V : Db) (txs : list TxEnv) (outs : list TransferOutput) : Prop :=
  match txs, outs with
  | [], [] => True
  | tx :: txs, out :: outs => accepted env tx V out /\ runs env (after env [tx] V) txs outs
  | _, _ => False
  end.

Lemma runs_ext env V V' txs outs : (forall a, V a = V' a) -> runs env V txs outs -> runs env V' txs outs.
Proof.
  revert V V' outs. induction txs as [|tx txs IH]; intros V V' [|out outs] HV; cbn; try done.
  intros [H1 H2]. split; [by eapply accepted_ext|]. eapply IH; [|done]. intros a. by apply after_ext.
Qed.

Lemma runs_length env V txs outs : runs env V txs outs -> length txs = length outs.
Proof.
  revert V outs. induction txs as [|tx txs IH]; intros V [|out outs]; cbn; try done.
  intros [_ H]. by rewrite (IH _ _ H).
Qed.

Lemma runs_snoc env V txs outs tx out :
  runs env V txs outs -> accepted env tx (after env txs V) out -> runs env V (txs ++ [tx]) (outs ++ [out]).
Proof.
  revert V outs. induction txs as [|t txs IH]; intros V [|o outs]; cbn; try done.
  - intros _ H. split; [|done]. eapply accepted_ext; [|done]. intros a. apply after_nil.
  - intros [H1 H2] H. split; [done|]. apply IH; [done|]. eapply accepted_ext; [|done].
    intros a. apply (after_app env [t] txs).
Qed.

(** Acceptance after every prefix. *)
Lemma runs_split env V txs :
  (forall txs1 tx txs2, txs = txs1 ++ tx :: txs2 -> exists out, accepted env tx (after env txs1 V) out) ->
  exists outs, runs env V txs outs.
Proof.
  revert V. induction txs as [|tx txs IH]; intros V H; [by exists []|].
  destruct (H [] tx txs eq_refl) as (out & Ho). destruct (IH (after env [tx] V)) as (outs & Hr).
  { intros txs1 t txs2 ->. destruct (H (tx :: txs1) t txs2 eq_refl) as (out' & Ho'). exists out'.
    eapply accepted_ext; [|done]. intros a. apply (after_app env [tx] txs1). }
  exists (out :: outs). split; [|done]. eapply accepted_ext; [|done]. intros a. apply after_nil.
Qed.

Lemma runs_accepted env V txs1 tx txs2 outs :
  runs env V (txs1 ++ tx :: txs2) outs -> exists out, accepted env tx (after env txs1 V) out.
Proof.
  revert V outs. induction txs1 as [|t txs1 IH]; intros V [|o outs]; cbn; try done.
  - intros [H _]. exists o. eapply accepted_ext; [|done]. intros a. by rewrite after_nil.
  - intros [_ H]. destruct (IH _ _ H) as (out & Ho). exists out. eapply accepted_ext; [|done].
    intros a. symmetry. apply (after_app env [t] txs1).
Qed.

Lemma serial_runs env txs outs s :
  runs env (view s) txs outs ->
  exists s', serial_transfers env txs s = (s', Ok (Some outs)) /\ forall a, view s' a = after env txs (view s) a.
Proof.
  revert s outs. induction txs as [|tx txs IH]; intros s [|out outs]; cbn [runs serial_transfers]; try done.
  { intros _. exists s. split; [done|]. intros a. by rewrite after_nil. }
  intros [Hac Hr]. destruct (accepted_transfer _ _ _ _ Hac) as (s1 & E1 & Hs1 & _).
  rewrite (bind_ok _ _ _ _ _ E1).
  assert (Hv : forall a, view (commit (out_state out) s1) a = after env [tx] (view s) a).
  { intros a. rewrite (accepted_commit env tx s1 out).
    - apply after_ext, Hs1.
    - eapply accepted_ext; [|done]. intros b. by rewrite Hs1. }
  destruct (IH (commit (out_state out) s1) outs) as (s2 & E2 & Hs2).
  { eapply runs_ext; [|done]. intros a. by rewrite Hv. }
  exists s2. split.
  - rewrite (bind_ok _ _ _ (commit (out_state out) s1) tt) by done. by rewrite (bind_ok _ _ _ _ _ E2).
  - intros a. rewrite Hs2. rewrite (after_ext env txs _ _ a (Hv a)).
    symmetry. apply (after_app env [tx] txs).
Qed.
End theory.
