(* ===== verification/ParallelTransferTheory.v ===== *)
(** * A batch of transfers, on its own view

    What a batch executed is a sequence of accepted transfers on the parent, in
    the order of its candidates, and its bundle has their effects. *)

From S2P Require Import Prelude Effects MvMemory Transfer ParallelTransfer TransferGroups TransferTheory.

Section theory.
Context {revm_tx : RevmTx} {revm : RevmState} {laws : RevmStateLaws revm}.

(** ** Effects of independent and of commuting transfers *)

Definition touches (env : EvmEnv) (a : Address) (tx : TxEnv) : Prop :=
  tx_caller tx = a \/ is_Some (credit_of env a tx).
#[export] Instance touches_dec env a tx : Decision (touches env a tx) := _.

Lemma effect_untouched env a o tx : ~ touches env a tx -> effect env a o tx = o.
Proof.
  intros H. unfold effect. destruct (N.eqb_spec a (tx_caller tx)) as [->|Hc]; [by destruct H; left|].
  destruct (credit_of env a tx) eqn:E; [|done]. destruct H. right. by eexists.
Qed.

Lemma effects_filter {A} env a (f : A -> TxEnv) l o :
  effects env a (f <$> l) o = effects env a (f <$> filter (fun i => touches env a (f i)) l) o.
Proof.
  revert o. induction l as [|x l IH]; intros o; [done|]. rewrite filter_cons. cbn [fmap list_fmap].
  unfold effects in *. cbn [foldl]. case_decide; cbn [foldl list_fmap fmap]; rewrite IH; [done|].
  by rewrite effect_untouched.
Qed.

Definition sum_N (cs : list N) : N := foldr N.add 0 cs.

Lemma sum_N_app cs cs' : sum_N (cs ++ cs') = sum_N cs + sum_N cs'.
Proof. unfold sum_N. induction cs; cbn; [done|]. lia. Qed.

Definition credited (cs : list N) (o : option AccountInfo) : option AccountInfo :=
  match cs with [] => o | _ => Some (bump (sum_N cs) o) end.

Lemma bump_bump c c' o : bump c' (Some (bump c o)) = bump (c + c') o.
Proof. unfold bump, with_balance. cbn. f_equal. lia. Qed.

Lemma credited_cons c cs o : credited cs (Some (bump c o)) = credited (c :: cs) o.
Proof.
  unfold credited. destruct cs as [|c' cs]; [cbn; by rewrite N.add_0_r|].
  rewrite bump_bump. done.
Qed.

Lemma credited_app cs cs' o : credited cs' (credited cs o) = credited (cs ++ cs') o.
Proof.
  revert o. induction cs as [|c cs IH]; intros o; [done|]. rewrite <- credited_cons, IH. cbn [app].
  by rewrite credited_cons.
Qed.

Lemma sum_N_perm cs cs' : cs ≡ₚ cs' -> sum_N cs = sum_N cs'.
Proof. unfold sum_N. induction 1; cbn; lia. Qed.

Lemma credited_perm cs cs' o : cs ≡ₚ cs' -> credited cs o = credited cs' o.
Proof.
  intros H. unfold credited. rewrite (sum_N_perm _ _ H).
  destruct cs, cs'; try done; by apply Permutation_length in H.
Qed.

(** Accounts that do not send only get credits. *)
Lemma effects_credited env a txs o :
  Forall (fun tx => tx_caller tx ≠ a) txs -> effects env a txs o = credited (omap (credit_of env a) txs) o.
Proof.
  intros H. revert o. induction H as [|tx txs Hn _ IH]; intros o; [done|]. unfold effects in *. cbn [foldl].
  rewrite IH. unfold effect. destruct (N.eqb_spec a (tx_caller tx)); [congruence|]. cbn [omap list_omap].
  destruct (credit_of env a tx); [apply credited_cons|done].
Qed.

Lemma effects_some env a txs i : exists i', effects env a txs (Some i) = Some i'.
Proof.
  revert i. induction txs as [|tx txs IH]; intros i; [by exists i|]. unfold effects in *. cbn [foldl].
  unfold effect at 2. destruct (_ =? _); [apply IH|]. destruct (credit_of _ _ _); apply IH.
Qed.

Lemma effects_app env a txs txs' o : effects env a (txs ++ txs') o = effects env a txs' (effects env a txs o).
Proof. apply foldl_app. Qed.

#[local] Instance DbError_eq_dec : EqDecision DbError.
Proof. solve_decision. Defined.
#[local] Instance read_eq_dec : EqDecision (result DbError (option AccountInfo)).
Proof. solve_decision. Defined.

(** ** Batches *)

Context (env : EvmEnv) (keys : list (Address * Address)) (convert : nat -> TxEnv).
Abbreviation txs_of X := (convert <$> X).

Definition keyed (i : nat) : Prop := exists key, keys !! i = Some key /\ same_identity (convert i) key = true.

Definition plain_output (out : TransferOutput) : Prop :=
  out_gas_used out = TRANSFER_GAS /\ out_floor_gas out = (if spec_prague (env_cfg env) then TRANSFER_GAS else 0).

Lemma accepted_plain tx V out : accepted env tx V out -> plain_output out.
Proof. intros [(to & sender & recipient & coinbase & [[sb rb] cb] & Hac)]. by destruct_and!; subst. Qed.

(** The candidates [L] have been tried, of which [X] were executed. *)
Record batch_run (db : Db) (slots : gmap nat TransferOutput) (L X : list nat) (outs : list TransferOutput)
  (b : Batch) : Prop := {
  br_db : from_db db (bt_state b);
  br_view : forall a, view (bt_state b) a = after env (txs_of X) db a;
  br_runs : runs env db (txs_of X) outs;
  br_sub : X `sublist_of` L;
  br_perm : X ++ bt_skipped b ≡ₚ L;
  br_keyed : Forall keyed X;
  br_slots : forall i, is_Some (bt_slots b !! i) <-> i ∈ X \/ is_Some (slots !! i);
  br_plain : forall i out, bt_slots b !! i = Some out -> slots !! i = Some out \/ plain_output out
}.

Lemma batch_run_open db slots : batch_run db slots [] [] [] (mkBatch (open_state db) [] ∅ slots).
Proof.
  split; cbn; try done.
  - constructor.
  - intros a. by rewrite after_nil.
  - intros i. set_solver.
  - by left.
Qed.

Lemma batch_run_skip db slots L X outs b b' i :
  batch_run db slots L X outs b -> reads_same (bt_state b) (bt_state b') ->
  bt_skipped b' = bt_skipped b ++ [i] -> bt_slots b' = bt_slots b ->
  batch_run db slots (L ++ [i]) X outs b'.
Proof.
  intros [H1 H2 H3 H4 H5 H6 H7 H8] (S1 & _ & S3) E1 E2. split; rewrite ?E1, ?E2; try done.
  - by apply S3.
  - intros a. by rewrite S1.
  - by apply sublist_inserts_r.
  - by rewrite app_assoc, H5.
Qed.

Lemma batch_run_accept db slots L X outs b s i out key :
  batch_run db slots L X outs b -> reads_same (bt_state b) s ->
  keys !! i = Some key -> same_identity (convert i) key = true ->
  accepted env (convert i) (view s) out ->
  batch_run db slots (L ++ [i]) (X ++ [i]) (outs ++ [out])
    (mkBatch (commit (out_state out) s) (bt_skipped b) (bt_refused b) (<[i := out]> (bt_slots b))).
Proof.
  intros [H1 H2 H3 H4 H5 H6 H7 H8] (S1 & S2 & S3) Hk Hi Hac.
  assert (Hac' : accepted env (convert i) (after env (txs_of X) db) out).
  { eapply accepted_ext; [|done]. intros a. by rewrite S1. }
  split; cbn [bt_state bt_skipped bt_slots].
  - constructor. by apply S3.
  - intros a. rewrite (accepted_commit _ _ _ _ Hac a), fmap_app. cbn [fmap list_fmap].
    rewrite after_app. apply after_ext. by rewrite S1.
  - rewrite fmap_app. by apply runs_snoc.
  - by apply sublist_app.
  - rewrite <- H5. by rewrite <- !app_assoc, (Permutation_app_comm [i]).
  - apply Forall_app. split; [done|]. constructor; [by exists key|done].
  - intros j. rewrite elem_of_app, list_elem_of_singleton. destruct (decide (j = i)) as [->|Hne].
    + rewrite lookup_insert_eq. split; eauto.
    + rewrite lookup_insert_ne, H7 by done. tauto.
  - intros j o [[<- <-]|[_ Hj]]%lookup_insert_Some; [|by apply H8]. right. by eapply accepted_plain.
Qed.

Lemma run_candidate_run db slots L X outs b i b' :
  batch_run db slots L X outs b -> run_candidate env keys convert i b = (b', Ok tt) ->
  exists X' outs', batch_run db slots (L ++ [i]) X' outs' b'.
Proof.
  intros Hb. unfold run_candidate. rewrite (bind_ok get _ b b b) by done.
  destruct (keys !! i) as [key|] eqn:Ek; [|done]. case_bool_decide.
  { intros [= <-]. exists X, outs. eapply batch_run_skip; [done|apply reads_same_refl|done..]. }
  cbn zeta. destruct (same_identity (convert i) key) eqn:Ei; cbn [negb]; [|done].
  pose proof (transfer_reads_same env (convert i) (bt_state b)) as Hs.
  unfold mbind at 1, st_bind at 1, batch_transfer.
  destruct (transfer env (convert i) (bt_state b)) as [s r] eqn:Et. cbn [fst] in Hs.
  destruct r as [[reason|out]| | |]; [..|done|done|done].
  - intros [= <-]. exists X, outs. by eapply batch_run_skip.
  - case_bool_decide; [done|]. intros [= <-]. exists (X ++ [i]), (outs ++ [out]).
    unfold accept. cbn. eapply batch_run_accept; [done..|].
    eapply accepted_ext; [|by eapply transfer_accepted]. intros a. by rewrite (proj1 Hs).
Qed.

Lemma for_each_cons_ok {S E A} (f : A -> ST S E unit) x l s s' :
  for_each f (x :: l) s = (s', Ok tt) -> exists s1, f x s = (s1, Ok tt) /\ for_each f l s1 = (s', Ok tt).
Proof.
  cbn [for_each]. unfold mbind, st_bind. destruct (f x s) as [s1 [[]| | |]]; [|done..]. eauto.
Qed.

Lemma run_candidates_run db slots L X outs b l b' :
  batch_run db slots L X outs b -> for_each (run_candidate env keys convert) l b = (b', Ok tt) ->
  exists X' outs', batch_run db slots (L ++ l) X' outs' b'.
Proof.
  revert L X outs b. induction l as [|i l IH]; intros L X outs b Hb.
  { intros [= <-]. rewrite app_nil_r. eauto. }
  intros (b1 & E1 & E2)%for_each_cons_ok. destruct (run_candidate_run _ _ _ _ _ _ _ _ Hb E1) as (X1 & outs1 & H1).
  destruct (IH _ _ _ _ H1 E2) as (X2 & outs2 & H2). rewrite <- app_assoc in H2. eauto.
Qed.

Lemma run_members_run db slots L X outs b members b' :
  batch_run db slots L X outs b -> for_each (for_each (run_candidate env keys convert)) members b = (b', Ok tt) ->
  exists X' outs', batch_run db slots (L ++ mjoin members) X' outs' b'.
Proof.
  revert L X outs b. induction members as [|l members IH]; intros L X outs b Hb.
  { intros [= <-]. cbn. rewrite app_nil_r. eauto. }
  intros (b1 & E1 & E2)%for_each_cons_ok. destruct (run_candidates_run _ _ _ _ _ _ _ _ Hb E1) as (X1 & outs1 & H1).
  destruct (IH _ _ _ _ H1 E2) as (X2 & outs2 & H2). rewrite <- app_assoc in H2. eauto.
Qed.

(** What is kept of a batch: its executed candidates [X] and its bundle. *)
Definition bundle_of (P : Db) (X : list nat) (bundle : list (Address * BundleAccount)) : Prop :=
  NoDup bundle.*1 /\
  (forall a ba, (a, ba) ∈ bundle -> P a = Ok (ba_original ba) /\ after env (txs_of X) P a = Ok (ba_info ba)) /\
  (forall a, a ∉ bundle.*1 -> after env (txs_of X) P a = P a).

Record batch_result (P : Db) (members : list (list nat)) (X : list nat)
  (res : list nat * list (Address * BundleAccount)) : Prop := {
  bres_bundle : bundle_of P X res.2;
  bres_runs : exists outs, runs env P (txs_of X) outs;
  bres_sub : X `sublist_of` mjoin members;
  bres_perm : X ++ res.1 ≡ₚ mjoin members;
  bres_keyed : Forall keyed X
}.

Definition opens (open : nat -> option Db) (P : Db) : Prop :=
  forall k db, open k = Some db -> forall a, db a = P a.

Lemma batch_run_result db P slots members X outs b :
  (forall a, db a = P a) -> batch_run db slots (mjoin members) X outs b ->
  batch_result P members X (bt_skipped b, take_bundle (bt_state b)).
Proof.
  intros HP [H1 H2 H3 H4 H5 H6 H7 H8].
  assert (Hv : forall a, view (bt_state b) a = after env (txs_of X) P a).
  { intros a. rewrite H2. by apply after_ext. }
  split; try done.
  - split_and!.
    + apply take_bundle_nodup.
    + intros a ba Ha. destruct (take_bundle_sound db _ _ _ H1 Ha) as [Ho Hi].
      by rewrite <- HP, <- Hv.
    + intros a Ha. destruct (P a) as [o| | |] eqn:EP; [|by unfold after; rewrite EP..]. rewrite <- Hv.
      destruct (decide (view (bt_state b) a = Ok o)) as [|Hne]; [done|].
      destruct Ha. eapply take_bundle_complete; [done| |done]. by rewrite HP.
  - exists outs. by eapply runs_ext.
Qed.

Lemma run_batches_results P open k batches slots results slots' :
  opens open P -> run_batches env keys convert open k batches slots = Ok (results, slots') ->
  exists Xs, Forall3 (batch_result P) batches Xs results /\
    (forall i, is_Some (slots' !! i) <-> i ∈ mjoin Xs \/ is_Some (slots !! i)) /\
    (forall i out, slots' !! i = Some out -> slots !! i = Some out \/ plain_output out).
Proof.
  intros HP. revert k slots results. induction batches as [|members batches IH]; intros k slots results.
  { intros [= <- <-]. exists []. split_and!; [constructor| |by left]. set_solver. }
  cbn [run_batches]. destruct (open k) as [db|] eqn:Ek; [|done].
  destruct (for_each _ members _) as [b r] eqn:Eb. destruct r as [[]| | |]; [|done..]. cbn [mbind result_bind outcome_bind].
  destruct (run_batches env keys convert open (S k) batches (bt_slots b)) as [[results' slots1]| | |] eqn:Er; [|done..].
  cbn. intros [= <- <-].
  destruct (run_members_run _ _ _ _ _ _ _ _ (batch_run_open db slots) Eb) as (X & outs & Hb). cbn [app] in Hb.
  destruct (IH _ _ _ Er) as (Xs & HF & Hd & Hp). exists (X :: Xs). split_and!.
  - constructor; [|done]. eapply batch_run_result; [|done]. by eapply HP.
  - intros i. rewrite Hd, (br_slots _ _ _ _ _ _ Hb). cbn. rewrite elem_of_app. tauto.
  - intros i out [Hi|Hi]%Hp; [|by right]. by eapply br_plain.
Qed.
End theory.
