(* ===== verification/TransferGraft.v ===== *)
(** * The batches' bundles, added together

    No account sends in two batches, so an account is changed by one batch only,
    or it only gets credits: adding up what each bundle changed gives the effects
    of all the transfers the batches executed. *)

From S2P Require Import Prelude Effects MvMemory Transfer ParallelTransfer TransferGroups TransferTheory.
From S2P Require Import ParallelTransferTheory.

Section graft.
Context {revm_tx : RevmTx} {revm : RevmState} {laws : RevmStateLaws revm}.
Context (env : EvmEnv) (convert : nat -> TxEnv) (P : Db).
Abbreviation txs_of X := (convert <$> X).
Abbreviation beneficiary := (block_beneficiary (env_block env)).

Definition rewards (X : list nat) : list N := (fun i => gas_reward env (convert i)) <$> X.

(** What the parent state is: a state of 256-bit balances without empty accounts. *)
Record parent_ok : Prop := {
  pa_bound : forall a i, P a = Ok (Some i) -> ai_balance i <= u256_max;
  pa_live : forall a i, P a = Ok (Some i) -> info_is_empty i = false
}.

(** The executed candidates [Xs] of the batches. *)
Record schedule (Xs : list (list nat)) : Prop := {
  sc_runs : forall X, X ∈ Xs -> exists outs, runs env P (txs_of X) outs;
  sc_call : forall i, i ∈ mjoin Xs -> exists to, tx_kind (convert i) = Call to /\
    to ≠ beneficiary /\ tx_caller (convert i) ≠ beneficiary /\
    (tx_value (convert i) = 0 -> exists info, P to = Ok (Some info));
  sc_alone : forall k k' X X' i i' j, Xs !! k = Some X -> Xs !! k' = Some X' -> i ∈ X -> i' ∈ X' ->
    j ∈ mjoin Xs -> touches env (tx_caller (convert j)) (convert i) ->
    touches env (tx_caller (convert j)) (convert i') -> k = k'
}.

Definition passive (Xs : list (list nat)) (a : Address) : Prop := forall i, i ∈ mjoin Xs -> tx_caller (convert i) ≠ a.

Lemma passive_or_sends Xs a :
  passive Xs a \/ exists i, i ∈ mjoin Xs /\ tx_caller (convert i) = a.
Proof.
  destruct (decide (Exists (fun i => tx_caller (convert i) = a) (mjoin Xs))) as [H|H].
  - right. by apply Exists_exists in H.
  - left. intros i Hi Ha. destruct H. apply Exists_exists. eauto.
Qed.

(** ** Effects of one batch on what the others left *)

Lemma effects_none_touch a (X : list nat) o :
  (forall i, i ∈ X -> ~ touches env a (convert i)) -> effects env a (txs_of X) o = o.
Proof.
  intros H. rewrite effects_filter, filter_none; [done|]. by apply Forall_forall.
Qed.

Lemma touches_some a (X : list nat) :
  (exists i, i ∈ X /\ touches env a (convert i)) \/ (forall i, i ∈ X -> ~ touches env a (convert i)).
Proof.
  destruct (decide (Exists (fun i => touches env a (convert i)) X)) as [H|H].
  - left. by apply Exists_exists in H.
  - right. intros i Hi Ha. destruct H. apply Exists_exists. eauto.
Qed.

(** Either [a] is as in the parent before the batch, or the batch credits it. *)
Lemma batch_effect Ys X Zs a o :
  schedule (Ys ++ X :: Zs) ->
  effects env a (txs_of (mjoin Ys)) o = o \/
  exists cs, effects env a (txs_of X) o = credited cs o /\
    effects env a (txs_of X) (effects env a (txs_of (mjoin Ys)) o) =
      credited cs (effects env a (txs_of (mjoin Ys)) o).
Proof.
  intros [_ _ Hal]. destruct (touches_some a (mjoin Ys)) as [(i & Hi & Ht)|Hn]; [|left; by apply effects_none_touch].
  right. destruct (passive_or_sends (Ys ++ X :: Zs) a) as [Hp|(j & Hj & <-)].
  - exists (omap (credit_of env a) (txs_of X)). split; apply effects_credited;
      apply Forall_fmap, Forall_forall; intros i' Hi'; apply Hp;
      rewrite join_app; cbn; set_solver.
  - exists []. cbn [credited].
    assert (Hx : forall i', i' ∈ X -> ~ touches env (tx_caller (convert j)) (convert i')).
    { intros i' Hi' Ht'. apply list_elem_of_join in Hi as (Y & Hi & [k Hk]%list_elem_of_lookup).
      assert (k = length Ys); [|apply lookup_lt_Some in Hk; lia].
      apply (Hal k (length Ys) Y X i i' j); try done.
      - by apply lookup_app_l_Some.
      - by apply list_lookup_middle. }
    split; by apply effects_none_touch.
Qed.

Lemma credited_default cs o i :
  credited cs o = Some i ->
  ai_balance i = ai_balance (default AccountInfo_default o) + sum_N cs /\
  ai_nonce i = ai_nonce (default AccountInfo_default o) /\
  ai_code_hash i = ai_code_hash (default AccountInfo_default o).
Proof.
  unfold credited. destruct cs as [|c cs].
  - intros ->. cbn. split_and!; lia || done.
  - intros [= <-]. by unfold bump.
Qed.

Lemma account_info_eq i i' :
  ai_balance i = ai_balance i' -> ai_nonce i = ai_nonce i' -> ai_code_hash i = ai_code_hash i' -> i = i'.
Proof. destruct i, i'. cbn. congruence. Qed.

Lemma effects_code_hash a txs o i :
  effects env a txs o = Some i -> ai_code_hash i = ai_code_hash (default AccountInfo_default o).
Proof.
  revert o. induction txs as [|tx txs IH]; unfold effects in *; cbn [foldl]; intros o; [by intros ->|].
  intros ->%IH. unfold effect. destruct (_ =? _); [by destruct o|]. by destruct (credit_of _ _ _).
Qed.

Lemma apply_delta_spec info new old new_nonce old_nonce a i :
  apply_delta info new old new_nonce old_nonce a = Ok i ->
  ai_balance i + old = ai_balance info + new /\ ai_nonce i + old_nonce = ai_nonce info + new_nonce /\
  ai_code_hash i = ai_code_hash info /\ (ai_balance info <= u256_max -> ai_balance i <= u256_max).
Proof.
  unfold apply_delta. intros H.
  destruct (if old <=? new then _ else _) as [b|] eqn:Eb; [|done].
  assert (Hb : b + old = ai_balance info + new /\ (ai_balance info <= u256_max -> b <= u256_max)).
  { clear H. unfold checked_add, checked_sub in Eb. destruct (old <=? new) eqn:E1; case_match eqn:E2; simplify_eq; bool_simpl; lia. }
  unfold checked_add, checked_sub in H. destruct (old_nonce <=? new_nonce) eqn:E3; [|done].
  change (Some ?d ≫= ?f) with (f d) in H. cbn beta in H.
  destruct (_ <=? u64_max) eqn:Eu; [|done]. injection H as <-. cbn. bool_simpl. split_and!; lia || tauto.
Qed.

Lemma add_credit_spec total new old a t :
  add_credit total new old a = Ok t -> t + old = total + new /\ t <= u256_max.
Proof.
  unfold add_credit, checked_add, checked_sub. destruct (old <=? new) eqn:E; [|done].
  change (Some ?d ≫= ?f) with (f d). cbn beta. destruct (_ <=? u256_max) eqn:E'; [|done]. intros [= <-].
  bool_simpl. lia.
Qed.

(** What [apply_delta] adds is what the batch did. *)
Lemma delta_effect Ys X Zs a o info i :
  schedule (Ys ++ X :: Zs) -> effects env a (txs_of X) o = Some info ->
  apply_delta (default AccountInfo_default (effects env a (txs_of (mjoin Ys)) o)) (ai_balance info)
    (ai_balance (default AccountInfo_default o)) (ai_nonce info) (ai_nonce (default AccountInfo_default o)) a = Ok i ->
  effects env a (txs_of X) (effects env a (txs_of (mjoin Ys)) o) = Some i.
Proof.
  intros Hs Hx (Hb & Hn & Hc & _)%apply_delta_spec.
  destruct (batch_effect Ys X Zs a o Hs) as [E|(cs & E1 & E2)].
  - rewrite E in *. rewrite Hx. f_equal. apply effects_code_hash in Hx.
    apply account_info_eq; [lia|lia|congruence].
  - rewrite E2. rewrite E1 in Hx. destruct (credited_default _ _ _ Hx) as (H1 & H2 & H3).
    destruct cs as [|c cs].
    + cbn in Hx |- *. subst o. destruct (effects_some env a (txs_of (mjoin Ys)) info) as (i' & Ei).
      rewrite Ei in *. cbn in *. f_equal. apply account_info_eq; [lia|lia|congruence].
    + cbn [credited]. f_equal. apply account_info_eq; unfold bump; cbn [with_balance ai_balance ai_nonce ai_code_hash];
        [lia|lia|congruence].
Qed.

(** A batch that leaves [a] as it was has no effect on it later. *)
Lemma unchanged_effect Ys X Zs a o :
  schedule (Ys ++ X :: Zs) -> effects env a (txs_of X) o = o ->
  effects env a (txs_of X) (effects env a (txs_of (mjoin Ys)) o) = effects env a (txs_of (mjoin Ys)) o.
Proof.
  intros Hs Hx. destruct (batch_effect Ys X Zs a o Hs) as [E|(cs & E1 & E2)]; [by rewrite E|].
  rewrite E2. rewrite E1 in Hx. destruct cs as [|c cs]; [done|]. destruct o as [i|]; [|done].
  destruct (credited_default _ _ _ Hx) as (H1 & _ & _). cbn [default from_option id] in H1.
  destruct (effects_some env a (txs_of (mjoin Ys)) i) as (i' & ->). unfold credited, bump. cbn [default from_option id].
  replace (sum_N (c :: cs)) with 0 by lia. cbn zeta. by rewrite N.add_0_r, with_balance_same.
Qed.

Lemma effects_none a txs o : effects env a txs o = None -> o = None.
Proof. destruct o as [i|]; [|done]. by destruct (effects_some env a txs i) as (i' & ->). Qed.

(** ** The beneficiary *)

Lemma beneficiary_credits Xs X :
  schedule Xs -> (forall i, i ∈ X -> i ∈ mjoin Xs) ->
  omap (credit_of env beneficiary) (txs_of X) = rewards X /\
  Forall (fun tx => tx_caller tx ≠ beneficiary) (txs_of X).
Proof.
  intros [_ Hc _]. induction X as [|i X IH]; intros HX; [done|].
  destruct IH as [IH1 IH2]; [intros i' Hi'; apply HX; by right|].
  destruct (Hc i (HX i ltac:(by left))) as (to & Ht & Hto & Hca & _). split; [|by constructor].
  cbn. unfold credit_of at 1. rewrite Ht. destruct (N.eqb_spec beneficiary to); [done|]. rewrite N.eqb_refl.
  unfold rewards in *. cbn. by f_equal.
Qed.

Lemma beneficiary_effects Xs X o :
  schedule Xs -> (forall i, i ∈ X -> i ∈ mjoin Xs) ->
  effects env beneficiary (txs_of X) o = credited (rewards X) o.
Proof.
  intros Hs HX. destruct (beneficiary_credits Xs X Hs HX) as [E H]. by rewrite effects_credited, E.
Qed.

Lemma runs_beneficiary X outs :
  runs env P (txs_of X) outs -> X = [] \/ exists i, P beneficiary = Ok (Some i) /\ info_is_empty i = false.
Proof.
  destruct X as [|i X]; [by left|]. intros H. right. revert H. destruct outs as [|out outs]; [done|]. cbn.
  intros [[(to & sender & recipient & coinbase & balances & Hac)] _]. destruct_and!. eauto.
Qed.

Lemma beneficiary_unchanged Xs X o :
  schedule Xs -> X ∈ Xs -> P beneficiary = Ok o -> effects env beneficiary (txs_of X) o = o -> sum_N (rewards X) = 0.
Proof.
  intros Hs HX HP He. destruct (sc_runs _ Hs X HX) as (outs & Hr).
  rewrite (beneficiary_effects Xs X o Hs) in He by (intros i Hi; apply list_elem_of_join; eauto).
  destruct (runs_beneficiary X outs Hr) as [->|(i & Hi & _)]; [done|].
  rewrite HP in Hi. injection Hi as ->. apply credited_default in He as [He _]. cbn in He. lia.
Qed.

(** ** What the executed transfers keep *)

Definition bounded (V : Db) : Prop := forall a i, V a = Ok (Some i) -> ai_balance i <= u256_max.

Lemma accepted_bounded tx V out : accepted env tx V out -> bounded V -> bounded (after env [tx] V).
Proof.
  intros [(to & sender & recipient & coinbase & [[sb rb] cb] & Hk & _ & Hs & _ & Hr & _ & Hc & _ & Hb & _)] HV a i.
  destruct (transfer_balances_spec _ _ _ _ _ _ _ _ Hb) as (_ & _ & Hle & -> & -> & H1 & -> & H2).
  unfold after, effects. cbn [foldl]. unfold effect, credit_of. rewrite Hk.
  destruct (N.eqb_spec a (tx_caller tx)) as [->|].
  { rewrite Hs. cbn. intros [= <-]. apply HV in Hs. cbn. lia. }
  destruct (N.eqb_spec a to) as [->|]; [rewrite Hr; cbn; by intros [= <-]|].
  destruct (N.eqb_spec a beneficiary) as [->|]; [rewrite Hc; cbn; by intros [= <-]|].
  destruct (V a) as [o| | |] eqn:Ea; cbn; [|done..]. intros [= ->]. by apply HV in Ea.
Qed.

Lemma runs_bounded V txs outs : runs env V txs outs -> bounded V -> bounded (after env txs V).
Proof.
  revert V outs. induction txs as [|tx txs IH]; intros V [|out outs]; cbn [runs]; try done.
  - intros _ HV a i. rewrite after_nil. apply HV.
  - intros [Ha Hr] HV a i. rewrite (after_app env [tx] txs). apply (IH _ _ Hr), (accepted_bounded _ _ _ Ha HV).
Qed.

(** No executed transfer leaves an empty account. *)
Lemma effects_live Xs X a o i :
  parent_ok -> schedule Xs -> (forall i, i ∈ X -> i ∈ mjoin Xs) -> a ≠ beneficiary -> P a = Ok o ->
  effects env a (txs_of X) o = Some i -> info_is_empty i = false.
Proof.
  intros [_ Hl] [_ Hc _] HX Ha HP.
  assert (Ho : (forall i, o = Some i -> info_is_empty i = false) /\ (o = None -> P a = Ok None)).
  { split; [intros i' ->; by eapply Hl|by intros ->]. }
  clear HP. revert o Ho. unfold effects. induction X as [|j X IH]; cbn [foldl fmap list_fmap]; intros o [Ho1 Ho2]; [apply Ho1|].
  apply IH; [intros i' Hi'; apply HX; by right|]. unfold effect.
  destruct (N.eqb_spec a (tx_caller (convert j))).
  { split; [|by destruct o; auto]. intros i' Hi'. destruct o; [|done]. injection Hi' as <-.
    apply not_empty_nonce. cbn. lia. }
  destruct (Hc j (HX j ltac:(by left))) as (to & Ht & _ & _ & Hz). unfold credit_of. rewrite Ht.
  destruct (N.eqb_spec a to) as [->|]; [|by destruct (N.eqb_spec a beneficiary)].
  split; [|done]. intros i' [= <-]. destruct o as [i0|].
  - eapply (with_balance_not_empty _ (ai_balance i0)); [by rewrite with_balance_same, Ho1|cbn; lia].
  - apply not_empty_balance. cbn. intros E. destruct (Hz E) as (info & Hi). by rewrite (Ho2 eq_refl) in Hi.
Qed.

(** ** The invariant of the graft *)

(** What the state has of [a], with the accounts that are still to be committed. *)
Definition current (g : Graft) (s : State) (a : Address) : result DbError (option AccountInfo) :=
  match gr_slow g !! a with Some i => Ok (Some i) | None => view s a end.

(** The candidates whose effects on [a] have been added are [Z a]. *)
Record graft_inv (Z : Address -> list nat) (g : Graft) (s : State) : Prop := {
  gi_db : forall a, st_cache s !! a = None -> st_db s a = P a;
  gi_current : forall a, a ≠ beneficiary -> current g s a = after env (txs_of (Z a)) P a;
  gi_beneficiary : gr_slow g !! beneficiary = None /\ view s beneficiary = P beneficiary;
  gi_bundle : forall a e, st_bundle s !! a = Some e ->
    exists i, ba_info e = Some i /\ st_cache s !! a = Some (Some i) /\ gr_slow g !! a = None;
  gi_slow : forall a i, gr_slow g !! a = Some i -> is_Some (st_cache s !! a);
  gi_bound : forall a i, a ≠ beneficiary -> current g s a = Ok (Some i) -> ai_balance i <= u256_max;
  gi_delta : gr_beneficiary_delta g = sum_N (rewards (Z beneficiary))
}.

Lemma graft_inv_ext Z Z' g s :
  graft_inv Z g s ->
  (forall a, a ≠ beneficiary -> after env (txs_of (Z a)) P a = after env (txs_of (Z' a)) P a) ->
  sum_N (rewards (Z beneficiary)) = sum_N (rewards (Z' beneficiary)) -> graft_inv Z' g s.
Proof.
  intros [H1 H2 H3 H4 H5 H6 H7] HZ Hb. split; try done.
  - intros a Ha. by rewrite H2, HZ.
  - by rewrite H7.
Qed.

(** [Z] with the effects on [a] of [X] added. *)
Definition add_at (Z : Address -> list nat) (a : Address) (X : list nat) : Address -> list nat := fun b =>
  if decide (b = a) then Z a ++ X else Z b.

Lemma rewards_app X Y : rewards (X ++ Y) = rewards X ++ rewards Y.
Proof. apply fmap_app. Qed.

(** An account other than the beneficiary gets the value [i]. *)
Lemma graft_inv_write Z g s a X i g' s' o :
  graft_inv Z g s -> a ≠ beneficiary -> P a = Ok o ->
  effects env a (txs_of X) (effects env a (txs_of (Z a)) o) = Some i -> ai_balance i <= u256_max ->
  st_db s' = st_db s -> gr_beneficiary_delta g' = gr_beneficiary_delta g ->
  current g' s' a = Ok (Some i) ->
  (forall b, b ≠ a -> st_cache s' !! b = st_cache s !! b /\ st_bundle s' !! b = st_bundle s !! b /\
     gr_slow g' !! b = gr_slow g !! b) ->
  is_Some (st_cache s' !! a) ->
  (forall e, st_bundle s' !! a = Some e ->
     ba_info e = Some i /\ st_cache s' !! a = Some (Some i) /\ gr_slow g' !! a = None) ->
  graft_inv (add_at Z a X) g' s'.
Proof.
  intros [H1 H2 H3 H4 H5 H6 H7] Ha HP Hi Hbd Hdb Hd Hc Hr Hs He.
  assert (Hcur : forall b, b ≠ a -> current g' s' b = current g s b).
  { intros b Hb. unfold current, view. destruct (Hr b Hb) as (-> & _ & ->). by rewrite Hdb. }
  split.
  - intros b Hb. destruct (decide (b = a)) as [->|Hne]; [by rewrite Hb in Hs; destruct Hs|].
    rewrite Hdb. apply H1. by rewrite <- (proj1 (Hr b Hne)).
  - intros b Hb. unfold add_at. case_decide as E; [subst b|by rewrite Hcur, H2].
    rewrite Hc, fmap_app, (after_ok _ _ _ _ _ HP). by rewrite effects_app, Hi.
  - destruct (Hr beneficiary ltac:(done)) as (E1 & _ & E3). unfold view. rewrite E1, E3, Hdb. apply H3.
  - intros b e Hb. destruct (decide (b = a)) as [->|Hne]; [by eauto|].
    destruct (Hr b Hne) as (-> & E2 & ->). rewrite E2 in Hb. by apply H4.
  - intros b j Hb. destruct (decide (b = a)) as [->|Hne]; [done|]. destruct (Hr b Hne) as (-> & _ & E3).
    rewrite E3 in Hb. by eapply H5.
  - intros b j Hb Hj. destruct (decide (b = a)) as [->|Hne]; [congruence|]. rewrite Hcur in Hj by done. by eapply H6.
  - unfold add_at. rewrite decide_False by done. by rewrite Hd.
Qed.

Lemma try_cases {S E A B} (r : result E A) (k : A -> ST S E B) (s s' : S) (b : B) :
  (try_ (fun _ => r) ≫= k) s = (s', Ok b) -> exists a, r = Ok a /\ k a s = (s', Ok b).
Proof. unfold mbind, st_bind, try_. destruct r; [|done..]. eauto. Qed.

Lemma old_values_eq ba :
  old_values ba = (ai_balance (default AccountInfo_default (ba_original ba)),
                   ai_nonce (default AccountInfo_default (ba_original ba))).
Proof. unfold old_values. by destruct (ba_original ba). Qed.

(** What the state has of [a] before the batch [X]. *)
Lemma graft_current Z g s a o :
  graft_inv Z g s -> a ≠ beneficiary -> P a = Ok o -> current g s a = Ok (effects env a (txs_of (Z a)) o).
Proof. intros Hg Ha HP. rewrite (gi_current _ _ _ Hg a Ha). by apply after_ok. Qed.

Lemma delta_bound Z g s a o info new old new_nonce old_nonce i :
  graft_inv Z g s -> a ≠ beneficiary -> P a = Ok o ->
  info = default AccountInfo_default (effects env a (txs_of (Z a)) o) ->
  apply_delta info new old new_nonce old_nonce a = Ok i -> ai_balance i <= u256_max.
Proof.
  intros Hg Ha HP -> (_ & _ & _ & H)%apply_delta_spec. apply H.
  pose proof (graft_current _ _ _ _ _ Hg Ha HP) as Hc.
  destruct (effects env a (txs_of (Z a)) o) as [i0|]; [|done]. by eapply gi_bound.
Qed.

Lemma graft_unchanged Ys X Zs Z g s a o :
  schedule (Ys ++ X :: Zs) -> graft_inv Z g s -> Z a = mjoin Ys -> P a = Ok o ->
  effects env a (txs_of X) o = o -> graft_inv (add_at Z a X) g s.
Proof.
  intros Hs Hg HZ HP Hx. eapply graft_inv_ext; [done|..].
  - intros b Hb. unfold add_at. case_decide as E; [subst b|done].
    rewrite fmap_app, !(after_ok _ _ _ _ _ HP), effects_app, HZ. by rewrite (unchanged_effect Ys X Zs).
  - unfold add_at. case_decide as E; [|done]. rewrite rewards_app, sum_N_app, E.
    subst a. rewrite (beneficiary_unchanged (Ys ++ X :: Zs) X o); [lia|done| |done..].
    apply elem_of_app. right. by left.
Qed.

Lemma graft_credit Ys X Zs Z g s ba info n t :
  schedule (Ys ++ X :: Zs) -> graft_inv Z g s -> P beneficiary = Ok (ba_original ba) ->
  effects env beneficiary (txs_of X) (ba_original ba) = Some info ->
  add_credit (gr_beneficiary_delta g) (ai_balance info)
    (ai_balance (default AccountInfo_default (ba_original ba))) beneficiary = Ok t ->
  graft_inv (add_at Z beneficiary X) (mkGraft t n (gr_accounts g) (gr_slow g)) s.
Proof.
  intros Hs [H1 H2 H3 H4 H5 H6 H7] HP Hx [Ht _]%add_credit_spec. split; try done.
  - intros a Ha. unfold add_at. rewrite decide_False by done. by apply H2.
  - cbn. unfold add_at. rewrite decide_True, rewards_app, sum_N_app, <- H7 by done.
    rewrite (beneficiary_effects (Ys ++ X :: Zs)) in Hx; [|done|].
    + apply credited_default in Hx as [Hx _]. lia.
    + intros i Hi. rewrite join_app. cbn. set_solver.
Qed.

(** The three ways an account is merged, when the batch makes it [i]. *)
Definition moves (Z : Address -> list nat) (a : Address) (X : list nat) (i : AccountInfo) : Prop :=
  exists o, P a = Ok o /\ effects env a (txs_of X) (effects env a (txs_of (Z a)) o) = Some i /\
    ai_balance i <= u256_max.

Lemma graft_merged Z g s a X i earlier :
  graft_inv Z g s -> a ≠ beneficiary -> moves Z a X i -> st_bundle s !! a = Some earlier ->
  graft_inv (add_at Z a X) g
    (graft_info a i (graft_bundle a (mkBundleAccount (Some i) (ba_original earlier)) s)).
Proof.
  intros Hg Ha (o & HP & Hi & Hbd) Eb. destruct (gi_bundle _ _ _ Hg a earlier Eb) as (i0 & E1 & E2 & E3).
  eapply (graft_inv_write Z g s a X i); try done; cbn.
  - unfold current, view. cbn. by rewrite E3, lookup_insert_eq.
  - intros b Hb. by rewrite !lookup_insert_ne.
  - rewrite lookup_insert_eq. by eexists.
  - intros e. rewrite !lookup_insert_eq. by intros [= <-].
Qed.

Lemma graft_slow Z g s a X i cached :
  graft_inv Z g s -> a ≠ beneficiary -> moves Z a X i -> st_bundle s !! a = None ->
  st_cache s !! a = Some cached ->
  graft_inv (add_at Z a X)
    (mkGraft (gr_beneficiary_delta g) (gr_beneficiary_original g) (gr_accounts g) (<[a := i]> (gr_slow g))) s.
Proof.
  intros Hg Ha (o & HP & Hi & Hbd) Eb Ec. eapply (graft_inv_write Z g s a X i); try done; cbn.
  - unfold current. cbn. by rewrite lookup_insert_eq.
  - intros b Hb. by rewrite !lookup_insert_ne.
  - by rewrite Eb.
Qed.

Lemma graft_fresh_slow Z g s a : graft_inv Z g s -> st_cache s !! a = None -> gr_slow g !! a = None.
Proof.
  intros Hg Ec. destruct (gr_slow g !! a) eqn:E; [|done]. apply (gi_slow _ _ _ Hg) in E as [? E]. by rewrite Ec in E.
Qed.

Lemma graft_fresh Z g s a X i account n :
  graft_inv Z g s -> a ≠ beneficiary -> moves Z a X i -> st_cache s !! a = None -> ba_info account = Some i ->
  graft_inv (add_at Z a X)
    (mkGraft (gr_beneficiary_delta g) (gr_beneficiary_original g) n (gr_slow g))
    (graft_bundle a account (graft_info a i s)).
Proof.
  intros Hg Ha (o & HP & Hi & Hbd) Ec Ei. pose proof (graft_fresh_slow _ _ _ _ Hg Ec) as Es.
  eapply (graft_inv_write Z g s a X i); try done; cbn.
  - unfold current, view. cbn. by rewrite Es, lookup_insert_eq.
  - intros b Hb. by rewrite !lookup_insert_ne.
  - rewrite lookup_insert_eq. by eexists.
  - intros e. rewrite !lookup_insert_eq. by intros [= <-].
Qed.

(** Without a cached value, the account is as in the parent. *)
Lemma graft_fresh_moves Ys X Zs Z g s a o info :
  parent_ok -> schedule (Ys ++ X :: Zs) -> graft_inv Z g s -> a ≠ beneficiary -> P a = Ok o ->
  effects env a (txs_of X) o = Some info -> st_cache s !! a = None -> moves Z a X info.
Proof.
  intros Hpa Hs Hg Ha HP HX Ec. exists o. split; [done|].
  pose proof (graft_current _ _ _ _ _ Hg Ha HP) as Hc. unfold current, view in Hc.
  rewrite (graft_fresh_slow _ _ _ _ Hg Ec), Ec, (gi_db _ _ _ Hg a Ec), HP in Hc. injection Hc as Hc.
  split; [by rewrite <- Hc|]. destruct (sc_runs _ Hs X) as (outs & Hr); [apply elem_of_app; right; by left|].
  apply (runs_bounded _ _ _ Hr (pa_bound Hpa) a). by rewrite (after_ok _ _ _ _ _ HP), HX.
Qed.

Lemma graft_account_inv Ys X Zs Z g s a ba g' s' :
  parent_ok -> schedule (Ys ++ X :: Zs) -> graft_inv Z g s -> Z a = mjoin Ys ->
  P a = Ok (ba_original ba) -> after env (txs_of X) P a = Ok (ba_info ba) ->
  graft_account beneficiary g (a, ba) s = (s', Ok g') -> graft_inv (add_at Z a X) g' s'.
Proof.
  intros Hpa Hs Hg HZ HP HX. rewrite (after_ok _ _ _ _ _ HP) in HX. injection HX as HX.
  unfold graft_account. destruct (ba_info ba) as [info|] eqn:Einfo.
  2: { intros [= <- <-]. eapply (graft_unchanged Ys X Zs); [done..|]. rewrite HX. symmetry. by eapply effects_none. }
  rewrite old_values_eq. cbn zeta. destruct (N.eqb_spec a beneficiary) as [->|Ha].
  { intros (t & Ht & [= <- <-])%try_cases. by eapply (graft_credit Ys X Zs). }
  rewrite bind_state. pose proof (graft_current _ _ _ _ _ Hg Ha HP) as Hc.
  assert (Hd : forall i0 i, i0 = default AccountInfo_default (effects env a (txs_of (Z a)) (ba_original ba)) ->
    apply_delta i0 (ai_balance info) (ai_balance (default AccountInfo_default (ba_original ba)))
      (ai_nonce info) (ai_nonce (default AccountInfo_default (ba_original ba))) a = Ok i -> moves Z a X i).
  { intros i0 i -> Hi. exists (ba_original ba). split_and!; [done| |by eapply delta_bound].
    rewrite HZ in *. by eapply (delta_effect Ys X Zs). }
  destruct (st_bundle s !! a) as [earlier|] eqn:Eb.
  { destruct (gi_bundle _ _ _ Hg a earlier Eb) as (i0 & E1 & E2 & E3). rewrite E1, E2. unfold current, view in Hc.
    rewrite E3, E2 in Hc. injection Hc as Hc. unfold mbind, st_bind, try_, modify, mret, st_ret.
    destruct (apply_delta i0 _ _ _ _ _) as [i| | |] eqn:Ei; [|done..]. intros [= <- <-].
    apply (graft_merged _ _ _ _ _ i); [done..| |done]. apply (Hd i0); [by rewrite <- Hc|done]. }
  destruct (st_cache s !! a) as [cached|] eqn:Ec.
  { intros (i & Ei & [= <- <-])%try_cases. eapply graft_slow; [done..| |done|done]. eapply Hd; [|done].
    unfold current, view in Hc. rewrite Ec in Hc. destruct (gr_slow g !! a); injection Hc as <-; done. }
  intros [= <- <-]. eapply graft_fresh; [done..| |done|done]. by eapply (graft_fresh_moves Ys X Zs).
Qed.

(** ** The whole graft *)

Lemma fold_cons_ok {A} (f : A -> Address * BundleAccount -> ST State MergeError A) acc item rest s s' r :
  fold_accounts f acc (item :: rest) s = (s', Ok r) ->
  exists acc1 s1, f acc item s = (s1, Ok acc1) /\ fold_accounts f acc1 rest s1 = (s', Ok r).
Proof.
  cbn [fold_accounts]. unfold mbind, st_bind. destruct (f acc item s) as [s1 [acc1| | |]]; [|done..]. eauto.
Qed.

Lemma fold_app_ok {A} (f : A -> Address * BundleAccount -> ST State MergeError A) acc items rest s s' r :
  fold_accounts f acc (items ++ rest) s = (s', Ok r) ->
  exists acc1 s1, fold_accounts f acc items s = (s1, Ok acc1) /\ fold_accounts f acc1 rest s1 = (s', Ok r).
Proof.
  revert acc s. induction items as [|item items IH]; intros acc s; [by exists acc, s|].
  cbn [app]. intros (acc1 & s1 & E1 & (acc2 & s2 & E2 & E3)%IH)%fold_cons_ok. exists acc2, s2. split; [|done].
  cbn [fold_accounts]. by rewrite (bind_ok _ _ _ _ _ E1).
Qed.

Lemma graft_items_inv Ys X Zs bundle items Z g s g' s' :
  parent_ok -> schedule (Ys ++ X :: Zs) -> bundle_of env convert P X bundle ->
  (forall item, item ∈ items -> item ∈ bundle) -> NoDup items.*1 ->
  graft_inv Z g s -> (forall a, a ∈ items.*1 -> Z a = mjoin Ys) ->
  fold_accounts (graft_account beneficiary) g items s = (s', Ok g') ->
  graft_inv (fun a => if decide (a ∈ items.*1) then mjoin Ys ++ X else Z a) g' s'.
Proof.
  intros Hpa Hs (_ & Hb & _). revert Z g s. induction items as [|[a ba] items IH]; intros Z g s Hin Hnd Hg HZ.
  { intros [= <- <-]. by eapply graft_inv_ext. }
  intros (g1 & s1 & E1 & E2)%fold_cons_ok. cbn in Hnd. apply NoDup_cons in Hnd as [Ha Hnd].
  destruct (Hb a ba (Hin _ ltac:(by left))) as [HP HX].
  assert (Hg1 : graft_inv (add_at Z a X) g1 s1).
  { eapply (graft_account_inv Ys X Zs); [done..| |done|done|done]. apply HZ. by left. }
  eapply IH in E2; [|intros; apply Hin; by right|done|done|].
  - assert (Heq : forall b, (if decide (b ∈ items.*1) then mjoin Ys ++ X else add_at Z a X b) =
      (if decide (b ∈ ((a, ba) :: items).*1) then mjoin Ys ++ X else Z b)).
    { intros b. cbn. unfold add_at. destruct (decide (b = a)) as [->|Hne].
      - rewrite (decide_False (P := a ∈ items.*1)) by done. rewrite decide_True by (by left).
        by rewrite (HZ a) by (by left).
      - destruct (decide (b ∈ items.*1)) as [Hi|Hi]; [by rewrite decide_True by (by right)|].
        rewrite decide_False; [done|]. by intros [?|?]%elem_of_cons. }
    eapply graft_inv_ext; [done|..]; cbn beta; [intros b _|]; by rewrite Heq.
  - intros b Hb'. unfold add_at. rewrite decide_False by (intros ->; done). apply HZ. by right.
Qed.

Lemma graft_bundle_inv Ys X Zs bundle g s g' s' :
  parent_ok -> schedule (Ys ++ X :: Zs) -> bundle_of env convert P X bundle ->
  graft_inv (fun _ => mjoin Ys) g s -> fold_accounts (graft_account beneficiary) g bundle s = (s', Ok g') ->
  graft_inv (fun _ => mjoin (Ys ++ [X])) g' s'.
Proof.
  intros Hpa Hs Hbo Hg E. eapply graft_items_inv in E; [|done..|by destruct Hbo|done|done].
  destruct Hbo as (_ & _ & Hrest). rewrite join_app. cbn. rewrite app_nil_r.
  eapply graft_inv_ext; [done|..].
  - intros a Ha. cbn. case_decide as Hin; [done|]. rewrite fmap_app, after_app.
    specialize (Hrest a Hin). unfold after in *. destruct (P a) as [o| | |]; [|done..]. cbn in *.
    injection Hrest as Hx. by rewrite (unchanged_effect Ys X Zs).
  - cbn. case_decide as Hin; [done|]. rewrite rewards_app, sum_N_app. specialize (Hrest _ Hin).
    assert (HX : X ∈ Ys ++ X :: Zs) by (apply elem_of_app; right; by left).
    destruct (sc_runs _ Hs X HX) as (outs & Hr).
    destruct (runs_beneficiary X outs Hr) as [->|(i & Hi & _)]; [symmetry; apply N.add_0_r|].
    rewrite (after_ok _ _ _ _ _ Hi), Hi in Hrest. injection Hrest as Hx.
    rewrite (beneficiary_unchanged _ X (Some i) Hs HX Hi Hx). symmetry. apply N.add_0_r.
Qed.

Lemma graft_fold_inv Xs bundles Ys g s g' s' :
  parent_ok -> schedule (Ys ++ Xs) -> Forall2 (bundle_of env convert P) Xs bundles ->
  graft_inv (fun _ => mjoin Ys) g s ->
  fold_accounts (graft_account beneficiary) g (mjoin bundles) s = (s', Ok g') ->
  graft_inv (fun _ => mjoin (Ys ++ Xs)) g' s'.
Proof.
  intros Hpa Hs HF. revert Ys g s Hs. induction HF as [|X bundle Xs bundles Hb _ IH]; intros Ys g s Hs Hg.
  { intros [= <- <-]. by rewrite app_nil_r. }
  cbn [mjoin list_join]. intros (g1 & s1 & E1 & E2)%fold_app_ok.
  rewrite cons_middle, app_assoc in *. eapply IH; [done| |done]. eapply graft_bundle_inv; [done| |done..].
  by rewrite <- app_assoc in Hs.
Qed.

(** The state a block starts from: the parent's accounts, and no bundle. *)
Definition fresh_state (s : State) : Prop := (forall a, view s a = P a) /\ st_bundle s = ∅.

Lemma graft_inv_init s :
  parent_ok -> fresh_state s -> graft_inv (fun _ => []) (mkGraft 0 None 0 ∅) s.
Proof.
  intros Hpa [Hv Hb]. split; cbn; try done.
  - intros a Ha. rewrite <- Hv. unfold view. by rewrite Ha.
  - intros a _. unfold current. cbn. by rewrite after_nil, lookup_empty.
  - intros a e. by rewrite Hb, lookup_empty.
  - intros a i _. unfold current. cbn. rewrite lookup_empty, Hv. apply (pa_bound Hpa).
Qed.

(** The graft has the effects of all the batches on every account but the
    beneficiary, and the sum of the rewards. *)
Lemma graft_bundles_spec Xs bundles s s' g :
  parent_ok -> schedule Xs -> Forall2 (bundle_of env convert P) Xs bundles -> fresh_state s ->
  graft_bundles bundles beneficiary s = (s', Ok g) ->
  gr_beneficiary_delta g = sum_N (rewards (mjoin Xs)) /\ view s' beneficiary = P beneficiary /\
  (forall a, a ≠ beneficiary -> view s' a = after env (txs_of (mjoin Xs)) P a) /\
  (forall a i, a ≠ beneficiary -> view s' a = Ok (Some i) -> ai_balance i <= u256_max).
Proof.
  intros Hpa Hs HF Hf. unfold graft_bundles, mbind, st_bind, modify.
  destruct (fold_accounts _ _ _ _) as [s1 [g1| | |]] eqn:E; [|done..]. intros [= <- <-].
  pose proof (graft_fold_inv Xs bundles [] _ _ _ _ Hpa Hs HF (graft_inv_init s Hpa Hf) E) as Hg. cbn [app] in Hg.
  assert (Hcur : forall a, view (if bool_decide (gr_slow g1 = ∅) then s1 else commit (gr_slow g1) s1) a = current g1 s1 a).
  { intros a. unfold current. case_bool_decide as Es; [by rewrite Es, lookup_empty|]. rewrite commit_view.
    destruct (gr_slow g1 !! a) as [i|] eqn:Ei; [|done]. destruct (decide (a = beneficiary)) as [->|Ha].
    { by rewrite (proj1 (gi_beneficiary _ _ _ Hg)) in Ei. }
    pose proof (gi_current _ _ _ Hg a Ha) as Hc. unfold current in Hc. rewrite Ei in Hc.
    destruct (P a) as [o| | |] eqn:EP; unfold after in Hc; rewrite EP in Hc; [|done..]. cbn in Hc. injection Hc as Hc.
    by rewrite (effects_live Xs (mjoin Xs) a o i). }
  split_and!.
  - apply (gi_delta _ _ _ Hg).
  - rewrite Hcur. unfold current. destruct (gi_beneficiary _ _ _ Hg) as [-> ?]. done.
  - intros a Ha. rewrite Hcur. apply (gi_current _ _ _ Hg a Ha).
  - intros a i Ha. rewrite Hcur. by apply (gi_bound _ _ _ Hg).
Qed.
End graft.
