(* ===== verification/TransferOrder.v ===== *)
(** * Parallel execution is serial execution

    The candidates that the batches executed can be executed one after the other,
    in the order of the candidates, and leave the same accounts. *)

From S2P Require Import Prelude Effects MvMemory Transfer ParallelTransfer TransferGroups TransferTheory.
From S2P Require Import ParallelTransferTheory TransferGraft.

(** ** Sorted sublists *)

Lemma sublist_elem {A} (l1 l2 : list A) x : l1 `sublist_of` l2 -> x ∈ l1 -> x ∈ l2.
Proof.
  induction 1 as [|y l1 l2 _ IH|y l1 l2 _ IH]; [done|..]; rewrite !elem_of_cons; intuition auto.
Qed.

Lemma sorted_sublist {A} (R : relation A) (l1 l2 : list A) :
  l1 `sublist_of` l2 -> StronglySorted R l2 -> StronglySorted R l1.
Proof.
  induction 1 as [|x l1 l2 Hl IH|x l1 l2 Hl IH]; intros Hs; [done|..]; apply StronglySorted_inv in Hs as [Hs Hf]; [|auto].
  constructor; [auto|]. rewrite Forall_forall in Hf |- *. intros y Hy. apply Hf. by eapply sublist_elem.
Qed.

Lemma filter_sublist {A} (Q : A -> Prop) `{!forall x, Decision (Q x)} (l1 l2 : list A) :
  l1 `sublist_of` l2 -> filter Q l1 `sublist_of` filter Q l2.
Proof.
  induction 1 as [|x l1 l2 Hl IH|x l1 l2 Hl IH]; [done|..]; rewrite ?filter_cons.
  - case_decide; [by apply sublist_skip|done].
  - case_decide; [by apply sublist_cons|done].
Qed.

Lemma sorted_lt_eq (l1 l2 : list nat) :
  StronglySorted lt l1 -> StronglySorted lt l2 -> (forall x, x ∈ l1 <-> x ∈ l2) -> l1 = l2.
Proof.
  intros H1 H2 Hx.
  assert (Hnd : forall l : list nat, StronglySorted lt l -> NoDup l).
  { induction 1 as [|x l _ IH Hf]; constructor; [|done]. intros Hin. rewrite Forall_forall in Hf. apply Hf in Hin. lia. }
  eapply (StronglySorted_unique_strong lt); [intros; lia|done..|]. apply NoDup_Permutation; auto.
Qed.

Lemma seq_sorted i n : StronglySorted lt (seq i n).
Proof.
  revert i. induction n as [|n IH]; intros i; cbn; constructor; [done|]. apply Forall_forall.
  intros x [? ?]%elem_of_seq. lia.
Qed.

Lemma join_sublist {A} (ll : list (list A)) l : l ∈ ll -> l `sublist_of` mjoin ll.
Proof.
  induction 1 as [l ll|l l' ll _ IH]; cbn; [by apply sublist_inserts_r|by apply sublist_inserts_l].
Qed.

Lemma NoDup_join_lookup {A} (ll : list (list A)) k k' l l' x :
  NoDup (mjoin ll) -> ll !! k = Some l -> ll !! k' = Some l' -> x ∈ l -> x ∈ l' -> k = k'.
Proof.
  revert k k'. induction ll as [|l0 ll IH]; intros k k' Hnd Hk Hk' Hx Hx'; [done|]. cbn in Hnd.
  apply NoDup_app in Hnd as (_ & Hd & Hnd).
  destruct k as [|k], k' as [|k']; simplify_eq/=; [done|..|by rewrite (IH k k')].
  - destruct (Hd x Hx). apply list_elem_of_join. exists l'. split; [done|by eapply list_elem_of_lookup_2].
  - destruct (Hd x Hx'). apply list_elem_of_join. exists l. split; [done|by eapply list_elem_of_lookup_2].
Qed.

Lemma join_join {A} (lll : list (list (list A))) : mjoin (mjoin <$> lll) = mjoin (mjoin lll).
Proof.
  induction lll as [|ll lll IH]; [done|].
  cbn [fmap list_fmap]. change (mjoin ll ++ mjoin (mjoin <$> lll) = mjoin (ll ++ mjoin lll)).
  by rewrite IH, join_app.
Qed.

Lemma filter_group_lists gid k n g :
  StronglySorted lt (filter (fun j => gid j = Some g) (mjoin (group_lists gid k n))).
Proof.
  unfold group_lists. set (F g' := filter (fun j => gid j = Some g') (seq 0 n)).
  assert (Hnd : NoDup (seq 0 k)) by apply NoDup_seq. induction Hnd as [|h hs Hh _ IH]; [constructor|].
  cbn [fmap list_fmap]. change (mjoin (F h :: (F <$> hs))) with (F h ++ mjoin (F <$> hs)).
  rewrite filter_app. destruct (decide (h = g)) as [->|Hne].
  - assert (E : filter (fun j => gid j = Some g) (mjoin (F <$> hs)) = []).
    { apply filter_none, Forall_forall. intros j (l & Hj & (h & -> & Hin)%list_elem_of_fmap)%list_elem_of_join.
      apply list_elem_of_filter in Hj as [Hj _]. rewrite Hj. intros [= ->]. done. }
    rewrite E, app_nil_r. eapply sorted_sublist; [apply sublist_filter|].
    eapply sorted_sublist; [apply sublist_filter|]. apply seq_sorted.
  - rewrite (filter_none _ (F h)); [done|]. apply Forall_forall.
    intros j [Hj _]%list_elem_of_filter. congruence.
Qed.

Section order.
Context {revm_tx : RevmTx} {revm : RevmState} {laws : RevmStateLaws revm}.
Context (env : EvmEnv) (keys : list (Address * Address)) (convert : nat -> TxEnv) (P : Db).
Abbreviation txs_of X := (convert <$> X).
Abbreviation beneficiary := (block_beneficiary (env_block env)).

(** The executed candidates of the batches: what sends from, or credits, an
    account that sends is in one group, and groups are in order. *)
Record ordered (Xs : list (list nat)) (gid : nat -> option nat) : Prop := {
  or_schedule : schedule env convert P Xs;
  or_nodup : NoDup (mjoin Xs);
  or_gid : forall i j, i ∈ mjoin Xs -> j ∈ mjoin Xs -> touches env (tx_caller (convert j)) (convert i) ->
    exists g, gid i = Some g /\ gid j = Some g;
  or_batch : forall k k' X X' i i', Xs !! k = Some X -> Xs !! k' = Some X' -> i ∈ X -> i' ∈ X' ->
    gid i = gid i' -> k = k';
  or_sorted : forall g, StronglySorted lt (filter (fun j => gid j = Some g) (mjoin Xs))
}.

(** ** The batches of a partition by sender are ordered *)

Definition zero_values_live : Prop := forall i to,
  tx_kind (convert i) = Call to -> tx_value (convert i) = 0 -> exists info, P to = Ok (Some info).

Lemma keyed_call i : keyed keys convert i ->
  exists to, keys !! i = Some (tx_caller (convert i), to) /\ tx_kind (convert i) = Call to.
Proof.
  intros ([sender to] & Hk & Hs). unfold same_identity in Hs. cbn in Hs.
  apply andb_true_iff in Hs as [->%N.eqb_eq Hs]. destruct (tx_kind (convert i)); [|done].
  apply N.eqb_eq in Hs as ->. eauto.
Qed.

Lemma keyed_gid gid k i j :
  sender_groups keys gid k -> Forall (fun key => key.1 ≠ beneficiary /\ key.2 ≠ beneficiary) keys ->
  keyed keys convert i -> keyed keys convert j -> touches env (tx_caller (convert j)) (convert i) ->
  exists g, gid i = Some g /\ gid j = Some g.
Proof.
  intros [Ha Hs] Hb (to & Hk & Hc)%keyed_call (to' & Hk' & _)%keyed_call Ht.
  assert (E : gid i = gid j).
  { apply (Hs i j _ _ Hk Hk'). cbn. destruct Ht as [->|[c Ht]]; [by left|]. right.
    unfold credit_of in Ht. rewrite Hc in Ht. destruct (N.eqb_spec (tx_caller (convert j)) to); [done|].
    destruct (N.eqb_spec (tx_caller (convert j)) beneficiary) as [E|]; [|done].
    rewrite Forall_lookup in Hb. by destruct (Hb _ _ Hk'). }
  destruct (Ha i) as (g & Hg & _); [by eapply lookup_lt_Some|]. exists g. by rewrite <- E.
Qed.

Lemma results_join batches Xs results :
  Forall3 (batch_result env keys convert P) batches Xs results ->
  mjoin Xs `sublist_of` mjoin (mjoin batches) /\ mjoin Xs ++ mjoin results.*1 ≡ₚ mjoin (mjoin batches) /\
  Forall (keyed keys convert) (mjoin Xs) /\ Forall2 (bundle_of env convert P) Xs results.*2.
Proof.
  induction 1 as [|members X res batches Xs results [Hb Hr Hs Hp Hk] _ (IH1 & IH2 & IH3 & IH4)]; [done|].
  cbn. rewrite join_app. split_and!.
  - by apply sublist_app.
  - rewrite <- Hp, <- IH2. solve_Permutation.
  - by apply Forall_app.
  - by constructor.
Qed.

Lemma results_lookup batches Xs results k X :
  Forall3 (batch_result env keys convert P) batches Xs results -> Xs !! k = Some X ->
  exists members res, batches !! k = Some members /\ batch_result env keys convert P members X res.
Proof.
  intros HF. revert k. induction HF as [|members X0 res batches Xs results H _ IH]; intros k; [done|].
  destruct k as [|k]; [intros [= <-]; by exists members, res|]. apply IH.
Qed.

Lemma results_batch gid k n batches Xs results :
  (forall j, (j < n)%nat -> exists g, gid j = Some g /\ (g < k)%nat) -> mjoin batches = group_lists gid k n ->
  Forall3 (batch_result env keys convert P) batches Xs results ->
  forall b b' X X' i i', Xs !! b = Some X -> Xs !! b' = Some X' -> i ∈ X -> i' ∈ X' -> gid i = gid i' -> b = b'.
Proof.
  intros Hall Hb HF b b' X X' i i' HX HX' Hi Hi' Hg.
  destruct (results_lookup _ _ _ _ _ HF HX) as (members & res & Hm & [_ _ Hs _ _]).
  destruct (results_lookup _ _ _ _ _ HF HX') as (members' & res' & Hm' & [_ _ Hs' _ _]).
  assert (Hin : forall x l ms bb, batches !! bb = Some ms -> x ∈ l -> l ∈ ms ->
    exists g, l = filter (fun j => gid j = Some g) (seq 0 n) /\ gid x = Some g).
  { intros x l ms bb Hms Hx Hl. assert (Hl' : l ∈ group_lists gid k n).
    { rewrite <- Hb. apply list_elem_of_join. exists ms. split; [done|by eapply list_elem_of_lookup_2]. }
    apply list_elem_of_fmap in Hl' as (g & -> & _). exists g. split; [done|].
    by apply list_elem_of_filter in Hx as [? _]. }
  assert (Hi1 : i ∈ mjoin members) by (by eapply sublist_elem).
  assert (Hi2 : i' ∈ mjoin members') by (by eapply sublist_elem).
  pose proof Hi1 as (l & Hil & Hl)%list_elem_of_join. pose proof Hi2 as (l' & Hil' & Hl')%list_elem_of_join.
  destruct (Hin i l members b Hm Hil Hl) as (g & -> & Eg). destruct (Hin i' l' members' b' Hm' Hil' Hl') as (g' & -> & Eg').
  rewrite Eg, Eg' in Hg. injection Hg as <-.
  eapply (NoDup_join_lookup ((@mjoin list _ nat) <$> batches) b b' (@mjoin list _ nat members) (@mjoin list _ nat members') i'); [..|done].
  - rewrite join_join, Hb, group_lists_permutation by done. apply NoDup_seq.
  - by rewrite list_lookup_fmap, Hm.
  - by rewrite list_lookup_fmap, Hm'.
  - apply list_elem_of_join. eauto.
Qed.

Lemma results_ordered gid k batches Xs results :
  zero_values_live -> sender_groups keys gid k ->
  Forall (fun key => key.1 ≠ beneficiary /\ key.2 ≠ beneficiary) keys ->
  mjoin batches = group_lists gid k (length keys) ->
  Forall3 (batch_result env keys convert P) batches Xs results -> ordered Xs gid.
Proof.
  intros Hz Hsg Hben Hb HF. destruct (results_join _ _ _ HF) as (Hsub & Hperm & Hk & _). rewrite Forall_forall in Hk.
  pose proof (group_lists_permutation gid k (length keys) (sg_all _ _ _ Hsg)) as Hgl. rewrite <- Hb in Hgl.
  assert (Hgid : forall i j, i ∈ mjoin Xs -> j ∈ mjoin Xs -> touches env (tx_caller (convert j)) (convert i) ->
    exists g, gid i = Some g /\ gid j = Some g) by (intros; eapply keyed_gid; eauto).
  pose proof (results_batch gid k (length keys) batches Xs results (sg_all _ _ _ Hsg) Hb HF) as Hbatch.
  split; [|..|done|done|].
  - split.
    + intros X [b HX]%list_elem_of_lookup. destruct (results_lookup _ _ _ _ _ HF HX) as (ms & res & _ & Hr). apply Hr.
    + intros i Hi. destruct (keyed_call i (Hk i Hi)) as (to & Hki & Hc). exists to.
      rewrite Forall_lookup in Hben. destruct (Hben _ _ Hki). split_and!; [done..|]. by apply Hz.
    + intros b b' X X' i i' j HX HX' Hi Hi' Hj Ht Ht'. apply (Hbatch b b' X X' i i'); try done.
      assert (Hin : forall bb Y y, Xs !! bb = Some Y -> y ∈ Y -> y ∈ mjoin Xs).
      { intros bb Y y HY Hy. apply list_elem_of_join. exists Y. split; [done|by eapply list_elem_of_lookup_2]. }
      destruct (Hgid i j) as (g & -> & E); eauto. destruct (Hgid i' j) as (g' & -> & E'); eauto. congruence.
  - assert (Hnd : NoDup (mjoin Xs ++ mjoin results.*1)) by (rewrite Hperm, Hgl; apply NoDup_seq).
    by apply NoDup_app in Hnd as [? _].
  - intros g. eapply sorted_sublist; [by apply filter_sublist|]. rewrite Hb. apply filter_group_lists.
Qed.

(** ** Two orders of the same transfers *)

Definition in_order (a : Address) (l : list nat) : Prop :=
  StronglySorted lt (filter (fun i => touches env a (convert i)) l).

Lemma in_order_sorted a l : StronglySorted lt l -> in_order a l.
Proof. intros H. eapply sorted_sublist; [apply sublist_filter|done]. Qed.

Lemma in_order_sublist Xs gid a j l :
  ordered Xs gid -> j ∈ mjoin Xs -> tx_caller (convert j) = a -> l `sublist_of` mjoin Xs -> in_order a l.
Proof.
  intros Ho Hj <- Hl. destruct (or_gid _ _ Ho j j Hj Hj ltac:(by left)) as (g & Hg & _).
  unfold in_order.
  rewrite (filter_ext_on _ (fun x => touches env (tx_caller (convert j)) (convert x) /\ gid x = Some g)).
  - rewrite <- list_filter_filter. eapply sorted_sublist; [apply sublist_filter|].
    eapply sorted_sublist; [by apply filter_sublist|]. apply (or_sorted _ _ Ho).
  - intros x Hx. split; [|tauto]. intros Ht. split; [done|].
    destruct (or_gid _ _ Ho x j) as (g' & -> & E); [by eapply sublist_elem|done..|congruence].
Qed.

Lemma effects_same a l1 l2 o :
  in_order a l1 -> in_order a l2 -> (forall x, touches env a (convert x) -> x ∈ l1 <-> x ∈ l2) ->
  effects env a (txs_of l1) o = effects env a (txs_of l2) o.
Proof.
  intros H1 H2 Hx. rewrite (effects_filter env a convert l1), (effects_filter env a convert l2).
  rewrite (sorted_lt_eq _ _ H1 H2); [done|]. intros x. rewrite !list_elem_of_filter. specialize (Hx x). tauto.
Qed.

Lemma passive_effects Xs a l o :
  passive convert Xs a -> (forall i, i ∈ l -> i ∈ mjoin Xs) ->
  effects env a (txs_of l) o = credited (omap (credit_of env a) (txs_of l)) o.
Proof.
  intros Hp Hl. apply effects_credited, Forall_fmap, Forall_forall. intros i Hi. by apply Hp, Hl.
Qed.

Lemma order_effects Xs gid E a o :
  ordered Xs gid -> StronglySorted lt E -> E ≡ₚ mjoin Xs ->
  effects env a (txs_of E) o = effects env a (txs_of (mjoin Xs)) o.
Proof.
  intros Ho HE Hp. destruct (passive_or_sends convert Xs a) as [Ha|(j & Hj & Ha)].
  - rewrite !(passive_effects Xs a) by (try done; intros i; by rewrite Hp). apply credited_perm. by rewrite Hp.
  - apply effects_same; [by apply in_order_sorted|by eapply in_order_sublist|]. intros x _. by rewrite Hp.
Qed.

Lemma sorted_split l1 (i : nat) l2 x :
  StronglySorted lt (l1 ++ i :: l2) -> x ∈ l1 ++ i :: l2 -> x ∈ l1 <-> (x < i)%nat.
Proof.
  intros Hs Hx. split.
  - intros H. eapply (StronglySorted_app_1_elem_of lt); [done..|]. by left.
  - intros Hlt. apply elem_of_app in Hx as [|Hx]; [done|].
    apply StronglySorted_app_1_r, StronglySorted_inv in Hs as [_ Hs]. rewrite Forall_forall in Hs.
    apply elem_of_cons in Hx as [->|Hx]; [lia|]. apply Hs in Hx. lia.
Qed.

(** A candidate finds an account that sends as it found it in its batch. *)
Lemma sending_effects Xs gid E E1 E2 X B1 B2 i a j o :
  ordered Xs gid -> StronglySorted lt E -> E ≡ₚ mjoin Xs -> E = E1 ++ i :: E2 ->
  X ∈ Xs -> X = B1 ++ i :: B2 -> j ∈ mjoin Xs -> tx_caller (convert j) = a -> touches env a (convert i) ->
  effects env a (txs_of E1) o = effects env a (txs_of B1) o.
Proof.
  intros Ho HE Hp -> HX -> Hj <- Ht.
  assert (HB : B1 ++ i :: B2 `sublist_of` mjoin Xs) by (by apply join_sublist).
  assert (Hi : i ∈ mjoin Xs) by (eapply sublist_elem; [done|]; apply elem_of_app; right; by left).
  destruct (or_gid _ _ Ho i j Hi Hj Ht) as (g & Hgi & Hgj).
  assert (Hsame : forall x, x ∈ mjoin Xs -> touches env (tx_caller (convert j)) (convert x) -> gid x = Some g).
  { intros x Hx Htx. destruct (or_gid _ _ Ho x j Hx Hj Htx) as (g' & -> & E). congruence. }
  assert (HsB : StronglySorted lt (filter (fun y => gid y = Some g) B1 ++ i :: filter (fun y => gid y = Some g) B2)).
  { rewrite <- (filter_cons_True (fun y => gid y = Some g) i) by done. rewrite <- filter_app.
    eapply sorted_sublist; [by apply filter_sublist|]. apply (or_sorted _ _ Ho). }
  assert (HxB : forall x, gid x = Some g -> x ∈ B1 ++ i :: B2 -> x ∈ B1 <-> (x < i)%nat).
  { intros x Hg Hx. rewrite <- (sorted_split _ _ _ x HsB), list_elem_of_filter; [tauto|].
    rewrite elem_of_app, elem_of_cons, !list_elem_of_filter in *. tauto. }
  apply effects_same.
  - apply in_order_sorted. by eapply StronglySorted_app_1_l.
  - eapply (in_order_sublist Xs gid _ j); [done..|]. etrans; [|done]. by apply sublist_inserts_r.
  - intros x Hx. split.
    + intros HxE. assert (HxE' : x ∈ E1 ++ i :: E2) by (apply elem_of_app; by left).
      apply (sorted_split _ _ _ x HE HxE') in HxE as Hlt. rewrite Hp in HxE'.
      pose proof HxE' as (X' & HxX & [b' HX']%list_elem_of_lookup)%list_elem_of_join.
      apply list_elem_of_lookup in HX as [b HX].
      assert (b = b') as <-.
      { apply (or_batch _ _ Ho b b' _ _ i x HX HX'); [apply elem_of_app; right; by left|done|]. by rewrite Hgi, Hsame. }
      rewrite HX in HX'. injection HX' as <-. apply HxB; [by apply Hsame|done|done].
    + intros HxB1. assert (HxX : x ∈ B1 ++ i :: B2) by (apply elem_of_app; by left).
      assert (Hxm : x ∈ mjoin Xs) by (by eapply sublist_elem).
      apply HxB in HxB1; [|by apply Hsame|done]. rewrite <- Hp in Hxm. by apply (sorted_split _ _ _ x HE Hxm).
Qed.

(** What is credited to an account that does not send stays within the total. *)
Lemma credit_room Xs E E1 i E2 a o c info :
  passive convert Xs a -> E ≡ₚ mjoin Xs -> E = E1 ++ i :: E2 -> credit_of env a (convert i) = Some c ->
  effects env a (txs_of E) o = Some info ->
  ai_balance (default AccountInfo_default (effects env a (txs_of E1) o)) + c <= ai_balance info.
Proof.
  intros Hp Hperm -> Hc. assert (Hin : forall x, x ∈ E1 ++ i :: E2 -> x ∈ mjoin Xs) by (intros x; by rewrite Hperm).
  rewrite (passive_effects Xs a (E1 ++ i :: E2)), (passive_effects Xs a E1)
    by (done || (intros x Hx; apply Hin, elem_of_app; by left)).
  rewrite fmap_app, omap_app. cbn. rewrite Hc. intros [-> _]%credited_default.
  rewrite sum_N_app. cbn. fold (sum_N (omap (credit_of env a) (txs_of E2))).
  destruct (credited (omap (credit_of env a) (txs_of E1)) o) as [i1|] eqn:E1c.
  - apply credited_default in E1c as [E1c _]. cbn. lia.
  - unfold credited in E1c. destruct (omap _ _); [|done]. subst o. cbn. lia.
Qed.
End order.
