(* ===== verification/TransferSerial.v ===== *)
(** * The transfer phase of a block is a serial execution

    The candidates a build executed on the batches' own views, merged into the
    state of the block, give what executing them one after the other gives; and so
    does the import of a block of transfers.  Execution of the batches returns: no
    candidate is executed twice, no index is out of range, and the loops of the
    grouping end. *)

From S2P Require Import Prelude Effects MvMemory Transfer ParallelTransfer TransferGroups TransferTheory.
From S2P Require Import ParallelTransferTheory TransferGraft TransferOrder.

Section serial.
Context {revm_tx : RevmTx} {revm : RevmState} {laws : RevmStateLaws revm}.

Section accepted.
Context (env : EvmEnv) (convert : nat -> TxEnv) (P : Db).
Abbreviation txs_of X := (convert <$> X).
Abbreviation beneficiary := (block_beneficiary (env_block env)).

Lemma after_inv txs V a o' : after env txs V a = Ok o' -> exists o, V a = Ok o /\ effects env a txs o = o'.
Proof. unfold after. destruct (V a) as [o| | |]; [|done..]. cbn. intros [= <-]. eauto. Qed.

Lemma recipient_ok_iff v r :
  recipient_ok v r = true <->
  is_code_hash_empty_or_zero (default AccountInfo_default r) = true /\
  (v = 0 -> exists i, r = Some i /\ info_is_empty i = false).
Proof.
  unfold recipient_ok. destruct r as [i|]; cbn [default from_option id].
  - destruct (is_code_hash_empty_or_zero i); cbn [negb]; [|by split; [|intros []]].
    rewrite negb_true_iff, andb_false_iff, N.eqb_neq. split.
    + intros H. split; [done|]. intros ->. exists i. split; [done|]. by destruct H.
    + intros [_ H]. destruct (N.eq_dec v 0) as [Hv|]; [|by left]. right. by destruct (H Hv) as (? & [= <-] & ?).
  - rewrite negb_true_iff, N.eqb_neq. split; [intros; split; done|]. intros [_ H] Hv. by destruct (H Hv) as (? & ? & _).
Qed.

(** The beneficiary exists when something was executed. *)
Lemma beneficiary_live Xs i :
  schedule env convert P Xs -> i ∈ mjoin Xs -> exists info, P beneficiary = Ok (Some info) /\ info_is_empty info = false.
Proof.
  intros Hs (X & Hi & HX)%list_elem_of_join. destruct (sc_runs _ _ _ _ Hs X HX) as (outs & Hr).
  destruct (runs_beneficiary env convert P X outs Hr) as [->|H]; [by apply elem_of_nil in Hi|done].
Qed.

Lemma passive_beneficiary Xs : schedule env convert P Xs -> passive convert Xs beneficiary.
Proof. intros Hs i Hi. by destruct (sc_call _ _ _ _ Hs i Hi) as (to & _ & _ & ? & _). Qed.

Lemma credited_live cs info :
  info_is_empty info = false -> exists i, credited cs (Some info) = Some i /\ info_is_empty i = false.
Proof.
  intros H. unfold credited. destruct cs as [|c cs]; [by exists info|]. eexists. split; [done|].
  eapply (with_balance_not_empty _ (ai_balance info)); [by rewrite with_balance_same|cbn; lia].
Qed.

(** What was accepted in its batch is accepted in order. *)
Section one.
Context (Xs : list (list nat)) (gid : nat -> option nat) (E E1 E2 : list nat) (i : nat).
Hypothesis Hpa : parent_ok P.
Hypothesis Ho : ordered env convert P Xs gid.
Hypothesis HE : StronglySorted lt E.
Hypothesis Hperm : E ≡ₚ mjoin Xs.
Hypothesis HEi : E = E1 ++ i :: E2.
Hypothesis Hroom : bounded (after env (txs_of E) P).

Lemma in_E1 x : x ∈ E1 -> x ∈ mjoin Xs.
Proof using HEi Hperm. intros Hx. rewrite <- Hperm, HEi. apply elem_of_app. by left. Qed.
Lemma in_i : i ∈ mjoin Xs.
Proof using HEi Hperm. rewrite <- Hperm, HEi. apply elem_of_app. right. by left. Qed.

Lemma passive_credit a c o :
  passive convert Xs a -> P a = Ok o -> credit_of env a (convert i) = Some c ->
  ai_balance (default AccountInfo_default (effects env a (txs_of E1) o)) + c <= u256_max.
Proof using Hroom Hperm HEi.
  intros Hp HP Hc. assert (Hin : forall x, x ∈ E -> x ∈ mjoin Xs) by (intros x; by rewrite Hperm).
  destruct (effects env a (txs_of E) o) as [info|] eqn:Ef.
  - etrans; [by eapply credit_room|]. apply (Hroom a). by rewrite (after_ok _ _ _ _ _ HP), Ef.
  - rewrite (passive_effects env convert Xs a E o Hp Hin), HEi, fmap_app, omap_app in Ef. cbn in Ef. rewrite Hc in Ef.
    unfold credited in Ef. by destruct (omap (credit_of env a) (txs_of E1)).
Qed.

Lemma serial_recipient X B1 B2 to o recipient :
  X ∈ Xs -> X = B1 ++ i :: B2 -> tx_kind (convert i) = Call to -> P to = Ok o ->
  effects env to (txs_of B1) o = recipient -> recipient_ok (tx_value (convert i)) recipient = true ->
  ai_balance (default AccountInfo_default recipient) + tx_value (convert i) <= u256_max ->
  tx_caller (convert i) ≠ to ->
  let recipient' := effects env to (txs_of E1) o in
  recipient_ok (tx_value (convert i)) recipient' = true /\
  ai_balance (default AccountInfo_default recipient') + tx_value (convert i) <= u256_max.
Proof using Hpa Ho HE Hperm HEi Hroom.
  intros HX HXi Hk HP Hr Hro Hb Hne recipient'.
  assert (Hcr : credit_of env to (convert i) = Some (tx_value (convert i))).
  { unfold credit_of. by rewrite Hk, N.eqb_refl. }
  destruct (passive_or_sends convert Xs to) as [Hp|(j & Hj & Hto)].
  - split; [|by apply passive_credit]. apply recipient_ok_iff in Hro as [Hh _]. apply recipient_ok_iff. split.
    + assert (Hcode : forall txs, ai_code_hash (default AccountInfo_default (effects env to txs o)) =
        ai_code_hash (default AccountInfo_default o)).
      { intros txs. destruct (effects env to txs o) eqn:Ee; [by eapply effects_code_hash|].
        apply effects_none in Ee as ->. done. }
      unfold is_code_hash_empty_or_zero in *. unfold recipient'. rewrite Hcode. by rewrite <- Hr, Hcode in Hh.
    + intros Hv. destruct (sc_call _ _ _ _ (or_schedule _ _ _ _ _ Ho) i in_i) as (to' & Hk' & Hben & _ & Hz).
      rewrite Hk in Hk'. injection Hk' as <-. destruct (Hz Hv) as (info & HP'). rewrite HP in HP'. injection HP' as ->.
      destruct (effects_some env to (txs_of E1) info) as (i' & Ei). exists i'. split; [done|].
      eapply (effects_live env convert P Xs E1 to); [done|apply Ho|apply in_E1|done..].
  - unfold recipient'. rewrite (sending_effects env convert P Xs gid E E1 E2 X B1 B2 i to j o); try done; [by rewrite Hr|].
    right. by exists (tx_value (convert i)).
Qed.

Lemma serial_accepted : exists out, accepted env (convert i) (after env (txs_of E1) P) out.
Proof using Hpa Ho HE Hperm HEi Hroom.
  pose proof in_i as Hi. pose proof Hi as (X & HiX & HX)%list_elem_of_join.
  destruct (beneficiary_live Xs i (or_schedule _ _ _ _ _ Ho) Hi) as (ben & HPb & Hbl).
  destruct (sc_runs _ _ _ _ (or_schedule _ _ _ _ _ Ho) X HX) as (outs & Hr).
  apply list_elem_of_split in HiX as (B1 & B2 & HXi). rewrite HXi, fmap_app in Hr. cbn in Hr.
  apply runs_accepted in Hr as (out & [(to & sender & recipient & coinbase & [[sb rb] cb] & Hk & Hst & Hs & Hso & Hrr & Hro & Hc & Hce & Hb & _)]).
  destruct (static_parties _ _ _ Hst) as (N1 & N2 & N3).
  destruct (transfer_balances_spec _ _ _ _ _ _ _ _ Hb) as (G1 & G2 & Hle & _ & -> & H1 & _ & _).
  apply after_inv in Hs as (oc & HPc & Hs). apply after_inv in Hrr as (ot & HPt & Hrr).
  assert (Hs' : effects env (tx_caller (convert i)) (txs_of E1) oc = Some sender).
  { rewrite <- Hs. eapply (sending_effects env convert P Xs gid E E1 E2 X B1 B2 i _ i); try done. by left. }
  destruct (serial_recipient X B1 B2 to ot recipient HX HXi Hk HPt Hrr Hro H1 ltac:(done)) as [R1 R2].
  pose proof (passive_beneficiary Xs (or_schedule _ _ _ _ _ Ho)) as Hpb.
  assert (Hcb : credit_of env beneficiary (convert i) = Some (gas_reward env (convert i))).
  { unfold credit_of. rewrite Hk. destruct (N.eqb_spec beneficiary to); [done|]. by rewrite N.eqb_refl. }
  pose proof (passive_credit beneficiary _ (Some ben) Hpb HPb Hcb) as R3.
  rewrite (passive_effects env convert Xs beneficiary E1 (Some ben) Hpb in_E1) in R3.
  destruct (credited_live (omap (credit_of env beneficiary) (txs_of E1)) ben Hbl) as (coinbase' & Hcc & Hcl).
  rewrite Hcc in R3. cbn in R3.
  eexists. split. exists to, sender, (effects env to (txs_of E1) ot), coinbase'. eexists. split_and!; try done.
  - by rewrite (after_ok _ _ _ _ _ HPc), Hs'.
  - by apply after_ok.
  - by rewrite (after_ok _ _ _ _ _ HPb), (passive_effects env convert Xs _ _ _ Hpb in_E1), Hcc.
  - by apply transfer_balances_intro.
Qed.
End one.

(** ** The commit of the batches *)

Lemma credit_beneficiary_spec g x x' info :
  view (ex_state x) beneficiary = Ok (Some info) -> gr_beneficiary_delta g ≠ 0 ->
  credit_beneficiary g beneficiary x = (x', Ok tt) ->
  ex_receipts x' = ex_receipts x /\ ai_balance info + gr_beneficiary_delta g <= u256_max /\
  view (ex_state x') beneficiary = Ok (Some (bump (gr_beneficiary_delta g) (Some info))) /\
  forall a, a ≠ beneficiary -> view (ex_state x') a = view (ex_state x) a.
Proof.
  intros Hv Hd. unfold credit_beneficiary, mbind, st_bind, on_db, read. rewrite Hv. cbn [mret st_ret].
  destruct (gr_beneficiary_original g) as [original|]; cbn [default from_option id]; unfold checked_add;
    (destruct (_ <=? u256_max) eqn:Eb; [|done]); intros [= <-]; cbn; bool_simpl; (split_and!; [done|lia|..]).
  1,3: rewrite commit_view, lookup_singleton_eq, not_empty_balance by (cbn; lia); done.
  all: intros a Ha; rewrite commit_view, lookup_singleton_ne by done; apply basic_view.
Qed.

Lemma commit_transfer_batch_spec Xs run x x' g :
  parent_ok P -> schedule env convert P Xs -> Forall2 (bundle_of env convert P) Xs (br_bundles run) ->
  fresh_state P (ex_state x) -> commit_transfer_batch run beneficiary x = (x', Ok g) ->
  ex_receipts x = [] /\ ex_receipts x' = (br_executed run).*2 /\
  (forall a, view (ex_state x') a = after env (txs_of (mjoin Xs)) P a) /\ bounded (view (ex_state x')).
Proof.
  intros Hpa Hs HF Hf. unfold commit_transfer_batch. rewrite bind_state. case_bool_decide as Er; cbn [negb]; [|done].
  unfold mbind at 1, st_bind at 1, on_db.
  destruct (graft_bundles (br_bundles run) beneficiary (ex_state x)) as [s1 [g1| | |]] eqn:Eg; [|done..].
  destruct (graft_bundles_spec env convert P Xs _ _ _ _ Hpa Hs HF Hf Eg) as (Hd & Hvb & Hv & Hbd).
  unfold mbind at 1, st_bind at 1. rewrite Er.
  assert (Hben : forall info, P beneficiary = Ok (Some info) ->
    after env (txs_of (mjoin Xs)) P beneficiary = Ok (credited (rewards env convert (mjoin Xs)) (Some info))).
  { intros info Hi. rewrite (after_ok _ _ _ _ _ Hi). by rewrite (beneficiary_effects env convert P Xs). }
  destruct (N.eqb_spec (gr_beneficiary_delta g1) 0) as [E0|E0].
  - intros [= <- <-]. cbn. split_and!; [done|done|..].
    + intros a. destruct (decide (a = beneficiary)) as [->|Ha]; [|by apply Hv]. rewrite Hvb.
      destruct (mjoin Xs) as [|i l] eqn:Ex; [by rewrite after_nil|].
      destruct (beneficiary_live Xs i Hs) as (info & Hi & _); [rewrite Ex; by left|].
      rewrite (Hben info Hi), Hi. f_equal. unfold credited. rewrite Hd in E0. rewrite E0.
      cbn [rewards fmap list_fmap]. unfold bump. cbn [default from_option id]. by rewrite N.add_0_r, with_balance_same.
    + intros a i Hi. destruct (decide (a = beneficiary)) as [->|Ha]; [|by eapply Hbd].
      rewrite Hvb in Hi. by apply (pa_bound _ Hpa) in Hi.
  - assert (Hne : exists i, i ∈ mjoin Xs).
    { destruct (mjoin Xs) as [|i l]; [|exists i; by left]. by rewrite Hd in E0. }
    destruct Hne as (i & Hi). destruct (beneficiary_live Xs i Hs Hi) as (info & Hinfo & _).
    destruct (credit_beneficiary g1 beneficiary _) as [x2 [[]| | |]] eqn:Ec; [|done..]. intros [= <- <-]. cbn.
    eapply credit_beneficiary_spec in Ec as (Hr & Hle & Hv2 & Hv3); [|cbn; by rewrite Hvb|done]. cbn in Hv3. split_and!.
    + done.
    + by rewrite Hr.
    + intros a. destruct (decide (a = beneficiary)) as [->|Ha]; [|by rewrite Hv3, Hv].
      rewrite Hv2, (Hben info Hinfo), Hd. f_equal. unfold credited. rewrite Hd in E0.
      by destruct (rewards env convert (mjoin Xs)).
    + intros a j Hj. destruct (decide (a = beneficiary)) as [->|Ha]; [|rewrite Hv3 in Hj by done; by eapply Hbd].
      rewrite Hv2 in Hj. by injection Hj as <-.
Qed.
End accepted.

(** ** The slots of a build *)

Lemma filled_slots_fst n slots :
  (filled_slots n slots).*1 = filter (fun i => is_Some (slots !! i)) (seq 0 n).
Proof.
  unfold filled_slots. induction (seq 0 n) as [|i l IH]; [done|]. rewrite filter_cons, <- IH.
  cbn [omap list_omap]. destruct (slots !! i) as [out|]; cbn [fmap option_fmap option_map list_fmap].
  - by rewrite decide_True by (by eexists).
  - by rewrite decide_False by (by intros []).
Qed.

Lemma filled_slots_snd n slots out : out ∈ (filled_slots n slots).*2 -> exists i, slots !! i = Some out.
Proof.
  intros ([i out'] & -> & H)%list_elem_of_fmap. unfold filled_slots in H.
  apply list_elem_of_omap in H as (j & _ & H). destruct (slots !! j) eqn:E; [|done]. injection H as <- <-. eauto.
Qed.

Definition out_gas (out : TransferOutput) : N * N := (out_gas_used out, out_floor_gas out).

Lemma plain_gas env outs :
  Forall (plain_output env) outs ->
  out_gas <$> outs = replicate (length outs) (TRANSFER_GAS, if spec_prague (env_cfg env) then TRANSFER_GAS else 0).
Proof. induction 1 as [|out outs [H1 H2] _ IH]; [done|]. cbn. unfold out_gas at 1. by rewrite H1, H2, IH. Qed.

Lemma runs_plain env V txs outs : runs env V txs outs -> Forall (plain_output env) outs.
Proof.
  revert V outs. induction txs as [|tx txs IH]; intros V [|out outs]; cbn; try done. intros [H1 H2].
  constructor; [by eapply accepted_plain|eauto].
Qed.

(** What a build executed. *)
Lemma build_batches env workers keys convert open P run :
  opens open P -> execute_for_build env workers keys convert open = Ok run ->
  exists gid k batches Xs results,
    sender_groups keys gid k /\
    Forall (fun key => key.1 ≠ block_beneficiary (env_block env) /\ key.2 ≠ block_beneficiary (env_block env)) keys /\
    mjoin batches = group_lists gid k (length keys) /\
    Forall3 (batch_result env keys convert P) batches Xs results /\ br_bundles run = results.*2 /\
    StronglySorted lt (br_executed run).*1 /\ (br_executed run).*1 ≡ₚ mjoin Xs /\
    (br_executed run).*1 ++ br_skipped run ≡ₚ seq 0 (length keys) /\
    Forall (plain_output env) (br_executed run).*2.
Proof.
  intros HP. unfold execute_for_build.
  destruct (partition_by_sender_spec keys (block_beneficiary (env_block env)))
    as [(gid & k & Ep & Hsg & Hben)|((j & Ep) & _)]; rewrite Ep; [|done]. cbn [mbind result_bind outcome_bind].
  destruct (run_batches _ _ _ _ _ _ _) as [[results slots]| | |] eqn:Er; [|done..]. cbn. intros [= <-]. cbn.
  destruct (run_batches_results env keys convert P _ _ _ _ _ _ HP Er) as (Xs & HF & Hd & Hpl).
  pose proof (batch_groups_concat (group_lists gid k (length keys)) (length keys) (Nat.max workers 1)) as Hb.
  destruct (results_join env keys convert P _ _ _ HF) as (Hsub & Hpm & _ & Hbo).
  rewrite Hb, (group_lists_permutation gid k _ (sg_all _ _ _ Hsg)) in Hpm.
  exists gid, k. eexists. exists Xs, results. rewrite filled_slots_fst.
  assert (HE : filter (fun i => is_Some (slots !! i)) (seq 0 (length keys)) ≡ₚ mjoin Xs).
  { apply NoDup_Permutation; [apply NoDup_filter, NoDup_seq|..].
    - assert (Hnd : NoDup (mjoin Xs ++ mjoin results.*1)) by (rewrite Hpm; apply NoDup_seq).
      by apply NoDup_app in Hnd as [? _].
    - intros i. rewrite list_elem_of_filter, Hd, lookup_empty. split; [intros [[?|[]%is_Some_None] _]; done|].
      intros Hi. split; [by left|]. rewrite <- Hpm. apply elem_of_app. by left. }
  split_and!; [done|done|exact Hb|done|done| |done| |].
  - eapply sorted_sublist; [apply sublist_filter|apply seq_sorted].
  - by rewrite HE, merge_sort_Permutation.
  - apply Forall_forall. intros out (i & Hi)%filled_slots_snd. by destruct (Hpl i out Hi) as [?%lookup_empty_Some|].
Qed.

Lemma execute_for_build_spec env workers keys convert open P run :
  opens open P -> zero_values_live convert P -> execute_for_build env workers keys convert open = Ok run ->
  exists Xs gid, ordered env convert P Xs gid /\ Forall2 (bundle_of env convert P) Xs (br_bundles run) /\
    StronglySorted lt (br_executed run).*1 /\ (br_executed run).*1 ≡ₚ mjoin Xs /\
    (br_executed run).*1 ++ br_skipped run ≡ₚ seq 0 (length keys) /\
    Forall (plain_output env) (br_executed run).*2.
Proof.
  intros HP Hz (gid & k & batches & Xs & results & Hsg & Hben & Hb & HF & -> & Hrest)%(build_batches _ _ _ _ _ _ _ HP).
  exists Xs, gid. split; [by eapply results_ordered|]. split; [by eapply results_join|done].
Qed.

(** The merged batches are a serial execution. *)
Lemma batches_serial env workers keys convert open P run x x' g :
  opens open P -> parent_ok P -> zero_values_live convert P ->
  execute_for_build env workers keys convert open = Ok run -> fresh_state P (ex_state x) ->
  commit_transfer_batch run (block_beneficiary (env_block env)) x = (x', Ok g) ->
  exists s' outs,
    serial_transfers env (convert <$> (br_executed run).*1) (ex_state x) = (s', Ok (Some outs)) /\
    (forall a, view (ex_state x') a = view s' a) /\
    out_gas <$> ex_receipts x' = out_gas <$> outs /\
    (br_executed run).*1 ++ br_skipped run ≡ₚ seq 0 (length keys).
Proof.
  intros HP Hpa Hz Hrun Hf Hcommit.
  destruct (execute_for_build_spec _ _ _ _ _ _ _ HP Hz Hrun) as (Xs & gid & Ho & Hbo & HE & Hperm & Hall & Hpl).
  destruct (commit_transfer_batch_spec env convert P Xs run x x' g Hpa (or_schedule _ _ _ _ _ Ho) Hbo Hf Hcommit)
    as (_ & Hrec & Hview & Hbd).
  set (E := (br_executed run).*1) in *.
  assert (HvE : forall a, after env (convert <$> E) P a = view (ex_state x') a).
  { intros a. rewrite Hview. unfold after. destruct (P a); [|done..]. cbn. by rewrite (order_effects env convert P Xs gid). }
  destruct (runs_split env P (convert <$> E)) as (outs & Hr).
  { intros txs1 tx txs2 Ht. apply fmap_app_inv in Ht as (E1 & E' & -> & Ht & HE'). symmetry in Ht.
    apply fmap_cons_inv in Ht as (i & E2 & -> & -> & ->).
    apply (serial_accepted env convert P Xs gid E E1 E2 i Hpa Ho HE Hperm HE').
    intros a info. rewrite HvE. apply Hbd. }
  destruct (serial_runs env (convert <$> E) outs (ex_state x)) as (s' & Es & Hs').
  { eapply runs_ext; [|done]. intros a. symmetry. apply Hf. }
  exists s', outs. split_and!; [done| | |done].
  - intros a. rewrite Hs', <- HvE. apply after_ext. symmetry. apply Hf.
  - rewrite Hrec, !(plain_gas env) by (done || by eapply runs_plain). f_equal.
    apply runs_length in Hr. rewrite <- Hr. unfold E. by rewrite !length_fmap.
Qed.

(** ** Import *)

Lemma fmap_lookup_seq {A} (d : A) (l : list A) : (fun i => default d (l !! i)) <$> seq 0 (length l) = l.
Proof.
  apply list_eq. intros i. rewrite list_lookup_fmap. destruct (l !! i) as [x|] eqn:E.
  - rewrite lookup_seq_lt by (by eapply lookup_lt_Some). cbn. by rewrite E.
  - rewrite lookup_seq_ge by (by apply lookup_ge_None). done.
Qed.

(** The views of the import's batches are of the block's own accounts. *)
Lemma import_opens (open : nat -> option Db) s :
  opens open (st_db s) -> opens (fun k => (fun db => view (mkState db (st_cache s) ∅)) <$> open k) (view s).
Proof.
  intros Ho k db Hk a. destruct (open k) as [db'|] eqn:E; [|done]. injection Hk as <-.
  unfold view. cbn. destruct (st_cache s !! a); [done|]. by eapply Ho.
Qed.

(** C37: importing a block of transfers in parallel is importing it serially.  When
    the batch import takes a block, executing its transactions one after the other
    accepts all of them with the same gas and leaves the same accounts; and when it
    declines the block, nothing has been changed, so the serial path starts from the
    same state.  The state the block starts from has 256-bit balances and no empty
    accounts ([parent_ok]), the views of the batches read it ([opens]), and transfers
    of nothing go to accounts it has: to others they are the interpreter's when they
    come first, which the serial execution of plain transfers refuses.  Nothing is
    said of an import that ends with an error. *)
Theorem import_batch_is_serial env workers txs open x :
  opens open (st_db (ex_state x)) -> parent_ok (view (ex_state x)) ->
  (forall tx to, tx ∈ txs -> tx_kind tx = Call to -> tx_value tx = 0 ->
     exists info, view (ex_state x) to = Ok (Some info)) ->
  match try_commit_import_batch env workers txs open x with
  | (x', Ok None) => x' = x
  | (x', Ok (Some _)) =>
      exists s' outs, serial_transfers env txs (ex_state x) = (s', Ok (Some outs)) /\
        (forall a, view (ex_state x') a = view s' a) /\ out_gas <$> ex_receipts x' = out_gas <$> outs
  | _ => True
  end.
Proof.
  intros Ho Hpa Hz. unfold try_commit_import_batch. rewrite bind_state.
  destruct (_ || _) eqn:Eg; [done|]. apply orb_false_iff in Eg as [_ Hbu%negb_false_iff%bool_decide_eq_true].
  destruct (import_keys _ _) as [keys|] eqn:Ek; [|done]. cbn zeta. destruct txs as [|tx0 txs]; [done|].
  remember (tx0 :: txs) as all eqn:Eall. set (convert i := default tx0 (all !! i)).
  destruct (execute_for_build _ _ _ _ _) as [run|e| |] eqn:Er; [|by destruct e|done..].
  case_bool_decide as Hsk; cbn [negb]; [|done]. case_bool_decide as Hord; cbn [negb]; [|done].
  unfold mbind, st_bind.
  destruct (commit_transfer_batch run _ x) as [x' [g| | |]] eqn:Ec; [|done..]. cbn.
  assert (Hzl : zero_values_live convert (view (ex_state x))).
  { intros i to. unfold convert. destruct (all !! i) as [tx|] eqn:Ei; cbn; apply Hz; [|rewrite Eall; by left].
    by eapply list_elem_of_lookup_2. }
  destruct (batches_serial _ _ _ _ _ (view (ex_state x)) _ _ _ _ (import_opens _ _ Ho) Hpa Hzl Er
    (conj (fun a => eq_refl) Hbu) Ec) as (s' & outs & Es & Hv & Hg & _).
  exists s', outs. split; [|done]. rewrite Hord in Es. unfold convert in Es. by rewrite fmap_lookup_seq in Es.
Qed.
End serial.

(** ** The build returns

    On views that can be read, with candidates that are the transactions the
    grouping saw, every batch runs to its end. *)

Section total.
Context {revm_tx : RevmTx} {revm : RevmState} {laws : RevmStateLaws revm}.

Definition readable (V : Db) : Prop := forall a, exists o, V a = Ok o.

Lemma readable_after env txs V : readable V -> readable (after env txs V).
Proof. intros H a. destruct (H a) as (o & Ho). rewrite (after_ok _ _ _ _ _ Ho). eauto. Qed.

Lemma transfer_returns env tx s : readable (view s) -> exists r, (transfer env tx s).2 = Ok r.
Proof.
  assert (Hread : forall B a (k : option AccountInfo -> ST State DbError B) s',
    readable (view s') -> (forall o s'', readable (view s'') -> exists r, (k o s'').2 = Ok r) ->
    exists r, ((read id a ≫= k) s').2 = Ok r).
  { intros B a k s' Hs Hk. destruct (Hs a) as (o & Ho). rewrite (read_bind _ _ _ _ Ho). apply Hk.
    intros b. rewrite basic_view. apply Hs. }
  intros Hs. unfold transfer. cbn zeta.
  repeat match goal with
  | |- exists r, ((read id _ ≫= _) _).2 = Ok r => apply Hread; [done|]; intros ? ? ?
  | |- exists r, (refused _ _).2 = Ok r => by eexists
  | |- exists r, ((match ?x with _ => _ end) _).2 = Ok r => destruct x
  | |- exists r, (mret _ _).2 = Ok r => by eexists
  end.
Qed.

Section batches.
Context (env : EvmEnv) (keys : list (Address * Address)) (convert : nat -> TxEnv).
Hypothesis Hkeyed : forall i, (i < length keys)%nat -> keyed keys convert i.

Lemma run_candidate_returns db slots L X outs b i :
  readable db -> batch_run env keys convert db slots L X outs b -> i ∉ L -> slots !! i = None ->
  (i < length keys)%nat -> exists b', run_candidate env keys convert i b = (b', Ok tt).
Proof using Hkeyed laws.
  intros Hdb Hb HL Hsl Hi. unfold run_candidate. rewrite bind_state.
  destruct (Hkeyed i Hi) as (key & -> & Hid). case_bool_decide; [by eexists|]. cbn zeta. rewrite Hid. cbn [negb].
  unfold mbind at 1, st_bind at 1, batch_transfer.
  destruct (transfer_returns env (convert i) (bt_state b)) as (r & Hr).
  { intros a. rewrite (br_view _ _ _ _ _ _ _ _ _ Hb). by apply readable_after. }
  destruct (transfer env (convert i) (bt_state b)) as [s r']. cbn in Hr. subst r'.
  destruct r as [reason|out]; [by eexists|].
  rewrite bool_decide_false; [by eexists|].
  rewrite (br_slots _ _ _ _ _ _ _ _ _ Hb), Hsl. intros [HX|[]%is_Some_None].
  apply HL. eapply sublist_elem; [by apply (br_sub _ _ _ _ _ _ _ _ _ Hb)|done].
Qed.

Lemma run_candidates_return db slots L X outs b l :
  readable db -> batch_run env keys convert db slots L X outs b -> NoDup (L ++ l) ->
  (forall i, i ∈ l -> slots !! i = None /\ (i < length keys)%nat) ->
  exists b', for_each (run_candidate env keys convert) l b = (b', Ok tt).
Proof using Hkeyed laws.
  intros Hdb. revert L X outs b. induction l as [|i l IH]; intros L X outs b Hb Hnd Hl; [by eexists|].
  destruct (Hl i ltac:(by left)) as [Hs Hi].
  destruct (run_candidate_returns db slots L X outs b i) as (b1 & E1); [done..| |done|done|].
  { apply NoDup_app in Hnd as (_ & Hnd & _). intros HL. apply (Hnd i HL). by left. }
  destruct (run_candidate_run env keys convert _ _ _ _ _ _ _ _ Hb E1) as (X1 & outs1 & Hb1).
  cbn [for_each]. rewrite (bind_ok _ _ _ _ _ E1).
  eapply IH; [exact Hb1|by rewrite <- app_assoc|]. intros j Hj. apply Hl. by right.
Qed.

Lemma run_members_return db slots L X outs b members :
  readable db -> batch_run env keys convert db slots L X outs b -> NoDup (L ++ mjoin members) ->
  (forall i, i ∈ mjoin members -> slots !! i = None /\ (i < length keys)%nat) ->
  exists b', for_each (for_each (run_candidate env keys convert)) members b = (b', Ok tt).
Proof using Hkeyed laws.
  intros Hdb. revert L X outs b. induction members as [|l members IH]; intros L X outs b Hb Hnd Hl; [by eexists|].
  change (mjoin (l :: members)) with (l ++ mjoin members) in *. rewrite app_assoc in Hnd.
  destruct (run_candidates_return db slots L X outs b l) as (b1 & E1); [done|done| | |].
  { by apply NoDup_app in Hnd as [? _]. }
  { intros i Hi. apply Hl, elem_of_app. by left. }
  destruct (run_candidates_run env keys convert _ _ _ _ _ _ _ _ Hb E1) as (X1 & outs1 & Hb1).
  cbn [for_each]. rewrite (bind_ok _ _ _ _ _ E1).
  eapply IH; [exact Hb1|done|]. intros j Hj. apply Hl, elem_of_app. by right.
Qed.

Lemma run_batches_return open k batches slots :
  (forall k, exists db, open k = Some db /\ readable db) -> NoDup (mjoin (mjoin batches)) ->
  (forall i, i ∈ mjoin (mjoin batches) -> slots !! i = None /\ (i < length keys)%nat) ->
  exists r, run_batches env keys convert open k batches slots = Ok r.
Proof using Hkeyed laws.
  intros Hopen. revert k slots. induction batches as [|members batches IH]; intros k slots Hnd Hl; [by eexists|].
  change (mjoin (members :: batches)) with (members ++ mjoin batches) in *. rewrite join_app in Hnd, Hl.
  apply NoDup_app in Hnd as (Hn1 & Hd & Hn2). cbn [run_batches]. destruct (Hopen k) as (db & -> & Hdb).
  destruct (run_members_return db slots [] [] [] _ members Hdb (batch_run_open env keys convert db slots)) as (b & Eb);
    [done|intros i Hi; apply Hl, elem_of_app; by left|].
  rewrite Eb. destruct (run_members_run env keys convert _ _ _ _ _ _ _ _ (batch_run_open env keys convert db slots) Eb)
    as (X & outs & Hb). cbn [app mbind result_bind outcome_bind] in *.
  destruct (IH (S k) (bt_slots b)) as ([results slots'] & ->); [done| |by eexists].
  intros i Hi. destruct (Hl i) as [Hs Hlt]; [apply elem_of_app; by right|]. split; [|done].
  apply eq_None_not_Some. rewrite (br_slots _ _ _ _ _ _ _ _ _ Hb), Hs. intros [HX|[]%is_Some_None].
  apply (Hd i); [|done]. eapply sublist_elem; [by apply (br_sub _ _ _ _ _ _ _ _ _ Hb)|done].
Qed.
End batches.

(** The build returns when no candidate touches the beneficiary, the transaction of
    every candidate is the one the grouping saw, and the parent can be read. *)
Lemma execute_for_build_returns env workers keys convert open parent :
  (forall k, exists db, open k = Some db /\ forall a, db a = parent a) -> readable parent ->
  Forall (fun key => key.1 ≠ block_beneficiary (env_block env) /\ key.2 ≠ block_beneficiary (env_block env)) keys ->
  (forall i key, keys !! i = Some key -> same_identity (convert i) key = true) ->
  exists run, execute_for_build env workers keys convert open = Ok run /\
    (br_executed run).*1 ++ br_skipped run ≡ₚ seq 0 (length keys).
Proof.
  intros Hopen Hpar Hben Hid.
  assert (Hrun : exists run, execute_for_build env workers keys convert open = Ok run).
  { unfold execute_for_build.
    destruct (partition_by_sender_spec keys (block_beneficiary (env_block env)))
      as [(gid & k & Ep & Hsg & _)|(_ & (key & Hin & Hbad)%Exists_exists)].
    2: { rewrite Forall_forall in Hben. destruct (Hben key Hin). by destruct Hbad. }
    rewrite Ep. cbn [mbind result_bind outcome_bind].
    pose proof (batch_groups_concat (group_lists gid k (length keys)) (length keys) (Nat.max workers 1)) as Hb.
    pose proof (group_lists_permutation gid k (length keys) (sg_all _ _ _ Hsg)) as Hperm. rewrite <- Hb in Hperm.
    edestruct (run_batches_return env keys convert) as ([results slots] & Er); [..|rewrite Er; by eexists].
    - intros i [key Hi]%lookup_lt_is_Some. exists key. eauto.
    - intros k'. destruct (Hopen k') as (db & Hdb & Ha). exists db. split; [done|]. intros a. rewrite Ha. apply Hpar.
    - rewrite Hperm. apply NoDup_seq.
    - intros i. rewrite Hperm, elem_of_seq, lookup_empty. intros ?. split; [done|lia]. }
  destruct Hrun as (run & Hrun). exists run. split; [done|].
  eapply (build_batches _ _ _ _ _ parent) in Hrun as (? & ? & ? & ? & ? & Hrun); [by destruct_and! Hrun|].
  intros k db Hk. destruct (Hopen k) as (db' & Hk' & Ha). by simplify_eq.
Qed.

Lemma opens_of open parent : (forall k, exists db, open k = Some db /\ forall a, db a = parent a) -> opens open parent.
Proof. intros H k db Hk. destruct (H k) as (db' & Hk' & Ha). by simplify_eq. Qed.

(** C36: building a block of transfers in parallel returns, and is a serial execution.
    When no candidate touches the beneficiary, the transaction of every candidate is
    the one the grouping saw, and the batches' views are of one parent that can be
    read, the build returns a run: the loops of the grouping end, no index is out of
    range, and every candidate is either executed or skipped, once.  When its bundles
    are then merged into a state that reads as the parent, executing the executed
    candidates one after the other on that state accepts every one of them, with the
    same gas, and leaves every account as the merge left it, the beneficiary's
    included.  The parent has 256-bit balances and no empty accounts ([parent_ok]), and
    transfers of nothing must go to accounts of it: others are the interpreter's. *)
Theorem parallel_build_is_serial env workers keys convert open parent :
  (forall k, exists db, open k = Some db /\ forall a, db a = parent a) -> readable parent -> parent_ok parent ->
  Forall (fun key => key.1 ≠ block_beneficiary (env_block env) /\ key.2 ≠ block_beneficiary (env_block env)) keys ->
  (forall i key, keys !! i = Some key -> same_identity (convert i) key = true) ->
  zero_values_live convert parent ->
  exists run, execute_for_build env workers keys convert open = Ok run /\
    (br_executed run).*1 ++ br_skipped run ≡ₚ seq 0 (length keys) /\
    forall x x' g, fresh_state parent (ex_state x) ->
      commit_transfer_batch run (block_beneficiary (env_block env)) x = (x', Ok g) ->
      exists s' outs,
        serial_transfers env (convert <$> (br_executed run).*1) (ex_state x) = (s', Ok (Some outs)) /\
        (forall a, view (ex_state x') a = view s' a) /\
        out_gas <$> ex_receipts x' = out_gas <$> outs.
Proof.
  intros Hopen Hread Hpa Hben Hid Hz.
  destruct (execute_for_build_returns env workers keys convert open parent Hopen Hread Hben Hid) as (run & Hrun & Hall).
  exists run. split_and!; [done..|]. intros x x' g Hf Hc.
  destruct (batches_serial env workers keys convert open parent run x x' g (opens_of _ _ Hopen) Hpa Hz Hrun Hf Hc)
    as (s' & outs & Es & Hv & Hg & _). eauto.
Qed.
End total.
