(* ===== verification/TransferWitnesses.v ===== *)
(** * Blocks of transfers, evaluated

    A [State] over maps that satisfies what is documented of revm's, and a block of
    three transfers on it: two of one sender, one of another, in two groups. *)

From S2P Require Import Prelude Effects MvMemory Transfer ParallelTransfer TransferGroups TransferTheory.
From S2P Require Import ParallelTransferTheory TransferGraft TransferOrder TransferSerial.

(** ** A state of maps *)

Definition map_basic (a : Address) (s : State) : State :=
  match st_cache s !! a, st_db s a with
  | None, Ok o => mkState (st_db s) (<[a := o]> (st_cache s)) (st_bundle s)
  | _, _ => s
  end.

Definition map_commit (changes : EvmState) (s : State) : State :=
  mkState (st_db s)
    (((fun i => if info_is_empty i then None else Some i) <$> changes) ∪ st_cache s) (st_bundle s).

Definition bundle_entry (db : Db) (entry : Address * option AccountInfo) : option (Address * BundleAccount) :=
  match db entry.1 with
  | Ok original => if bool_decide (entry.2 = original) then None else Some (entry.1, mkBundleAccount entry.2 original)
  | _ => None
  end.

Definition map_take_bundle (s : State) : list (Address * BundleAccount) :=
  omap (bundle_entry (st_db s)) (map_to_list (st_cache s)).

#[local] Instance map_state : RevmState := {
  basic := map_basic; commit := map_commit; take_bundle := map_take_bundle }.

Lemma from_db_st_db db s : from_db db s -> st_db s = db.
Proof.
  induction 1 as [|a s _ IH|changes s _ IH]; [done| |done]. cbn. unfold map_basic.
  by destruct (st_cache s !! a), (st_db s a) eqn:E; cbn.
Qed.

Lemma bundle_entry_key db entry a ba : bundle_entry db entry = Some (a, ba) -> a = entry.1.
Proof. unfold bundle_entry. destruct (db entry.1); [|done..]. case_bool_decide; [done|]. by intros [= <- _]. Qed.

Lemma bundle_entries_nodup db (l : list (Address * option AccountInfo)) :
  NoDup l.*1 -> NoDup (omap (bundle_entry db) l).*1.
Proof.
  induction l as [|entry l IH]; cbn [fmap list_fmap omap list_omap]; [done|]. intros [Hn Hl]%NoDup_cons.
  destruct (bundle_entry db entry) as [[a ba]|] eqn:E; [|auto]. cbn [fmap list_fmap]. constructor; [|auto].
  cbn. rewrite (bundle_entry_key _ _ _ _ E). intros ([a' ba'] & Ha & (entry' & Hin & E')%list_elem_of_omap)%list_elem_of_fmap.
  apply Hn, list_elem_of_fmap. exists entry'. split; [|done]. cbn in Ha. rewrite Ha. by apply bundle_entry_key in E'.
Qed.

#[local] Instance map_state_laws : RevmStateLaws map_state.
Proof.
  split.
  - intros a s b. cbn. unfold map_basic, view. destruct (st_cache s !! a) eqn:Ec; [done|].
    destruct (st_db s a) eqn:Ed; [|done..]. cbn. destruct (decide (b = a)) as [->|Hne].
    + by rewrite lookup_insert_eq, Ec, Ed.
    + by rewrite lookup_insert_ne.
  - intros a s. cbn. unfold map_basic. by destruct (st_cache s !! a), (st_db s a).
  - intros changes s b. cbn. unfold map_commit, view. cbn. rewrite lookup_union, lookup_fmap.
    destruct (changes !! b) as [i|]; cbn; [by destruct (st_cache s !! b)|]. by destruct (st_cache s !! b).
  - done.
  - intros s. apply bundle_entries_nodup, NoDup_fst_map_to_list.
  - intros db s a ba Hs Hin. cbn in Hin. unfold map_take_bundle in Hin. rewrite (from_db_st_db _ _ Hs) in Hin.
    apply list_elem_of_omap in Hin as ([a' info] & Hin & He). pose proof (bundle_entry_key _ _ _ _ He) as ->.
    apply elem_of_map_to_list in Hin. unfold bundle_entry in He. cbn in He. destruct (db a') eqn:Ed; [|done..].
    case_bool_decide; [done|]. injection He as <-. cbn. split; [done|]. unfold view. by rewrite Hin.
  - intros db s a o Hs Hdb Hne. cbn. unfold map_take_bundle. rewrite (from_db_st_db _ _ Hs).
    unfold view in Hne. rewrite (from_db_st_db _ _ Hs) in Hne. destruct (st_cache s !! a) as [info|] eqn:Ec; [|done].
    apply list_elem_of_fmap. exists (a, mkBundleAccount info o). split; [done|].
    apply list_elem_of_omap. exists (a, info). split; [by apply elem_of_map_to_list|].
    unfold bundle_entry. cbn. rewrite Hdb. rewrite bool_decide_false; [done|]. congruence.
Qed.

(** Fees of transactions without blobs. *)
#[local] Instance plain_fees : RevmTx := {
  max_balance_spending tx := checked_add u256_max (tx_value tx) (tx_gas_limit tx * tx_gas_price tx);
  effective_gas_price tx basefee :=
    match tx_gas_priority_fee tx with
    | Some tip => N.min (tx_gas_price tx) (basefee + tip)
    | None => tx_gas_price tx
    end }.

(** ** A block *)

Definition cfg0 : CfgEnv :=
  mkCfgEnv 1 30000000 true true false false false false false false false false false false false true.
Definition env0 : EvmEnv := mkEvmEnv cfg0 (mkBlockEnv 9 7 30000000 (Some 5) (Some 0)) (fun a => a =? 100).

Definition accounts0 : gmap Address AccountInfo :=
  {[ 1 := mkAccountInfo 1000000 0 KECCAK_EMPTY; 2 := mkAccountInfo 2000000 4 KECCAK_EMPTY;
     9 := mkAccountInfo 50 1 KECCAK_EMPTY ]}.
Definition parent0 : Db := fun a => Ok (accounts0 !! a).

Definition tx0 (caller to value nonce : N) : TxEnv :=
  mkTxEnv 2 caller 21000 10 (Call to) value [] nonce (Some 1) [] (Some 2) [] [].
Definition txs0 : list TxEnv := [tx0 1 5 100 0; tx0 2 5 30 4; tx0 1 6 7 1].
Definition convert0 (i : nat) : TxEnv := default (tx0 1 5 100 0) (txs0 !! i).
Definition keys0 : list (Address * Address) := [(1, 5); (2, 5); (1, 6)].
Definition open0 (k : nat) : option Db := Some parent0.
Definition run0 : BuildRun :=
  Eval vm_compute in match execute_for_build env0 4 keys0 convert0 open0 with Ok run => run | _ => mkBuildRun [] [] [] end.
Definition block0 : Executor := mkExecutor (open_state parent0) [].

Lemma accounts0_cases a i : accounts0 !! a = Some i -> ai_balance i <= 2000000 /\ info_is_empty i = false.
Proof.
  unfold accounts0. rewrite !lookup_insert_Some, lookup_singleton_Some.
  intros [[_ <-]|[_ [[_ <-]|[_ [_ <-]]]]]; by split.
Qed.

Lemma parent0_ok : parent_ok parent0.
Proof.
  split; intros a i [= H]; apply accounts0_cases in H as [? ?]; [|done]. etrans; [done|]. by vm_compute.
Qed.

Lemma txs0_values tx to : tx ∈ txs0 -> tx_kind tx = Call to -> tx_value tx ≠ 0.
Proof. intros [->|[->|[->|[]%elem_of_nil]%elem_of_cons]%elem_of_cons]%elem_of_cons; done. Qed.

Lemma zero0 : zero_values_live convert0 parent0.
Proof. intros i to _ Hv. by destruct i as [|[|[|i]]]. Qed.

Lemma pair_ok {S E A} (p : S * result E A) a : p.2 = Ok a -> p = (p.1, Ok a).
Proof. destruct p. cbn. by intros ->. Qed.

Definition graft0 : option Graft :=
  Eval vm_compute in match (commit_transfer_batch run0 9 block0).2 with Ok g => Some g | _ => None end.

Lemma parallel_build_is_serial_witness :
  exists run, execute_for_build env0 4 keys0 convert0 open0 = Ok run /\
    (br_executed run).*1 ++ br_skipped run ≡ₚ seq 0 (length keys0) /\
    forall x x' g, fresh_state parent0 (ex_state x) ->
      commit_transfer_batch run 9 x = (x', Ok g) ->
      exists s' outs, serial_transfers env0 (convert0 <$> (br_executed run).*1) (ex_state x) = (s', Ok (Some outs)) /\
        (forall a, view (ex_state x') a = view s' a) /\ out_gas <$> ex_receipts x' = out_gas <$> outs.
Proof.
  apply (parallel_build_is_serial env0 4 keys0 convert0 open0 parent0).
  - intros k. by exists parent0.
  - intros a. by eexists.
  - apply parent0_ok.
  - by repeat constructor.
  - intros i key. destruct i as [|[|[|i]]]; cbn; by intros [= <-].
  - apply zero0.
Defined.

(** The block's state reads as the parent, and the merge of the run into it succeeds. *)
Example block0_fresh : fresh_state parent0 (ex_state block0).
Proof. split; [|done]. intros a. unfold view. cbn. by rewrite lookup_empty. Qed.
Example block0_merged : is_Some graft0 /\ execute_for_build env0 4 keys0 convert0 open0 = Ok run0 /\
  commit_transfer_batch run0 9 block0 =
    ((commit_transfer_batch run0 9 block0).1, Ok (default (mkGraft 0 None 0 ∅) graft0)).
Proof. split_and!; [by eexists|vm_compute; reflexivity|]. apply pair_ok. vm_compute. reflexivity. Qed.

Lemma import_batch_is_serial_witness :
  match try_commit_import_batch env0 4 txs0 open0 block0 with
  | (x', Ok None) => x' = block0
  | (x', Ok (Some _)) =>
      exists s' outs, serial_transfers env0 txs0 (ex_state block0) = (s', Ok (Some outs)) /\
        (forall a, view (ex_state x') a = view s' a) /\ out_gas <$> ex_receipts x' = out_gas <$> outs
  | _ => True
  end.
Proof.
  apply (import_batch_is_serial env0 4 txs0 open0 block0).
  - by intros k db [= <-].
  - split; intros a i; unfold view; cbn; rewrite lookup_empty; apply parent0_ok.
  - intros tx to Hin Hk Hv. by destruct (txs0_values tx to Hin Hk).
Defined.

(** The three transfers were executed, and the import took the block. *)
Example run0_executed : (br_executed run0).*1 = [0; 1; 2]%nat /\ br_skipped run0 = [].
Proof. done. Qed.
Example import0_taken : exists g, (try_commit_import_batch env0 4 txs0 open0 block0).2 = Ok (Some g).
Proof. eexists. vm_compute. reflexivity. Qed.
