(* ===== verification/Staking.v ===== *)
(** * Staking ([crates/n42-node/src/staking.rs])

    Stakes and registrations read from committed blocks, and the return of stakes
    after the cooldown.  Keccak, the JSON and hex decoders, the transaction envelope
    with its signature recovery, the text of an address and the order in which a
    hash map is iterated are not part of the source: they are the fields of the
    classes below.  [state_file] and the file operations around the persisted state
    are left out. *)

From S2P Require Import Prelude.

(** ** What the source calls *)

Inductive Json : Type :=
| JNull
| JBool (b : bool)
| JNumber (n : N)
| JString (s : bytes)
| JArray (values : list Json)
| JObject (fields : list (bytes * Json)).

Inductive Kind : Type :=
| KCall (to : Address)
| KCreate.

(** The fields of an envelope that are read. *)
Inductive TxEnvelope : Type :=
| Legacy (to : Kind) (value : N) (input : bytes)
| Eip2930 (to : Kind) (value : N) (input : bytes)
| Eip1559 (to : Kind) (value : N) (input : bytes)
| Eip4844 (to : Address) (value : N) (input : bytes)
| Eip7702 (to : Address) (value : N) (input : bytes).

Class Keccak : Type := { keccak256 : bytes -> bytes }.

Class PayloadCodec : Type := {
  json_from_slice : bytes -> option Json;
  hex_decode : bytes -> option bytes;
  rlp_decode : bytes -> option TxEnvelope;
  recover_signer : TxEnvelope -> bytes -> option Address
}.

(** ** Data *)

Definition STAKING_ADDRESS : Address := 66.
Definition MIN_STAKE_WEI : N := 32000000000000000000.
Definition UNSTAKE_COOLDOWN_BLOCKS : N := 21600.
Definition UNSTAKE_SELECTOR : bytes := [45; 239; 102; 32].
Definition stake_max : N := 2 ^ 256 - 1.

(** ["940000000000000000000000000000000000000042"] *)
Definition STAKING_TARGET_RLP_HEX : bytes := [57; 52] ++ replicate 38 48 ++ [52; 50].

Inductive StakeStatus : Type :=
| Active
| Unstaking (initiated_block : N).

Record StakeEntry : Type := mkStakeEntry {
  se_staker : Address;
  se_bls_pubkey : bytes;
  se_amount : N;
  se_staked_at_block : N;
  se_status : StakeStatus
}.

Record RegistrationEntry : Type := mkRegistrationEntry {
  re_evm_address : Address;
  re_bls_pubkey : bytes;
  re_registered_at_block : N
}.

Record Withdrawal : Type := mkWithdrawal {
  wd_index : N;
  wd_validator_index : N;
  wd_address : Address;
  wd_amount : N
}.

Record StakingManager : Type := mkStakingManager {
  stakes : gmap Address StakeEntry;
  registrations : gmap Address RegistrationEntry;
  bls_to_staker : gmap bytes Address;
  reward_to_staker : gmap Address Address;
  pending_returns : list Withdrawal;
  last_scanned_block : N;
  next_withdrawal_index : N
}.

#[export] Instance StakeStatus_eq_dec : EqDecision StakeStatus.
Proof. solve_decision. Defined.

(** The order of a map's iteration. *)
Class StakeOrder : Type := { iter_stakes : gmap Address StakeEntry -> list (Address * StakeEntry) }.
Class StakeOrderLaws (order : StakeOrder) : Prop := {
  iter_stakes_perm m : iter_stakes m ≡ₚ map_to_list m
}.

Definition staking_new : StakingManager := mkStakingManager ∅ ∅ ∅ ∅ [] 0 1000000.

Definition is_active (e : StakeEntry) : bool := bool_decide (se_status e = Active).

(** ** Setters *)

Definition set_stakes (s : gmap Address StakeEntry) (m : StakingManager) : StakingManager :=
  mkStakingManager s (registrations m) (bls_to_staker m) (reward_to_staker m) (pending_returns m)
    (last_scanned_block m) (next_withdrawal_index m).
Definition set_registrations (r : gmap Address RegistrationEntry) (m : StakingManager) : StakingManager :=
  mkStakingManager (stakes m) r (bls_to_staker m) (reward_to_staker m) (pending_returns m)
    (last_scanned_block m) (next_withdrawal_index m).
Definition set_owners (b : gmap bytes Address) (r : gmap Address Address) (m : StakingManager) : StakingManager :=
  mkStakingManager (stakes m) (registrations m) b r (pending_returns m) (last_scanned_block m)
    (next_withdrawal_index m).
Definition set_returns (ws : list Withdrawal) (next : N) (m : StakingManager) : StakingManager :=
  mkStakingManager (stakes m) (registrations m) (bls_to_staker m) (reward_to_staker m) ws
    (last_scanned_block m) next.
Definition set_scanned (n : N) (m : StakingManager) : StakingManager :=
  mkStakingManager (stakes m) (registrations m) (bls_to_staker m) (reward_to_staker m) (pending_returns m)
    n (next_withdrawal_index m).

Section staking.
Context {keccak : Keccak}.

(** [keccak256(pubkey)[12..]] *)
Definition bls_pubkey_to_address (pubkey : bytes) : Address := be_value (drop 12 (keccak256 pubkey)).

(** [bls_to_staker.remove] and [reward_to_staker.remove] of a key *)
Definition disown (pubkey : bytes) (m : StakingManager) : StakingManager :=
  set_owners (delete pubkey (bls_to_staker m)) (delete (bls_pubkey_to_address pubkey) (reward_to_staker m)) m.
(** [bls_to_staker.insert] and [reward_to_staker.insert] of a key *)
Definition own (pubkey : bytes) (a : Address) (m : StakingManager) : StakingManager :=
  set_owners (<[pubkey := a]> (bls_to_staker m)) (<[bls_pubkey_to_address pubkey := a]> (reward_to_staker m)) m.

(** ** Transactions to the staking address *)

Definition owned_by_other (m : StakingManager) (pubkey : bytes) (a : Address) : bool :=
  match (bls_to_staker m !! pubkey : option Address) with Some existing => negb (existing =? a) | None => false end.

Definition handle_stake (staker : Address) (bls_pubkey : bytes) (value block_number : N)
  (m : StakingManager) : StakingManager :=
  if bool_decide (bls_pubkey = replicate 48 0) then m
  else if owned_by_other m bls_pubkey staker then m
  else
    match stakes m !! staker with
    | Some entry =>
        let amount := N.min (se_amount entry + value) stake_max in
        let m := if bool_decide (se_bls_pubkey entry = bls_pubkey) then m
                 else own bls_pubkey staker (disown (se_bls_pubkey entry) m) in
        set_stakes (<[staker := mkStakeEntry (se_staker entry) bls_pubkey amount (se_staked_at_block entry) Active]>
                     (stakes m)) m
    | None =>
        let m := match registrations m !! staker with
                 | Some old_reg =>
                     let m := set_registrations (delete staker (registrations m)) m in
                     if bool_decide (re_bls_pubkey old_reg = bls_pubkey) then m
                     else disown (re_bls_pubkey old_reg) m
                 | None => m
                 end in
        own bls_pubkey staker
          (set_stakes (<[staker := mkStakeEntry staker bls_pubkey value block_number Active]> (stakes m)) m)
    end.

Definition handle_unstake (staker : Address) (block_number : N) (m : StakingManager) : StakingManager :=
  match stakes m !! staker with
  | Some entry =>
      if is_active entry then
        set_stakes (<[staker := mkStakeEntry (se_staker entry) (se_bls_pubkey entry) (se_amount entry)
                                 (se_staked_at_block entry) (Unstaking block_number)]> (stakes m)) m
      else m
  | None => m
  end.

Definition handle_register (sender : Address) (bls_pubkey : bytes) (block_number : N)
  (m : StakingManager) : StakingManager :=
  if bool_decide (bls_pubkey = replicate 48 0) then m
  else if owned_by_other m bls_pubkey sender then m
  else if bool_decide (is_Some (stakes m !! sender)) then m
  else
    match registrations m !! sender with
    | Some existing_reg =>
        if bool_decide (re_bls_pubkey existing_reg = bls_pubkey) then m
        else
          let m := disown (re_bls_pubkey existing_reg) m in
          own bls_pubkey sender
            (set_registrations (<[sender := mkRegistrationEntry (re_evm_address existing_reg) bls_pubkey
                                              (re_registered_at_block existing_reg)]> (registrations m)) m)
    | None =>
        own bls_pubkey sender
          (set_registrations (<[sender := mkRegistrationEntry sender bls_pubkey block_number]> (registrations m)) m)
    end.

Section scan.
Context {codec : PayloadCodec}.

Definition envelope_call (envelope : TxEnvelope) : option (Address * N * bytes) :=
  match envelope with
  | Legacy (KCall to) value input | Eip2930 (KCall to) value input | Eip1559 (KCall to) value input =>
      Some (to, value, input)
  | Legacy KCreate _ _ | Eip2930 KCreate _ _ | Eip1559 KCreate _ _ => None
  | Eip4844 to value input | Eip7702 to value input => Some (to, value, input)
  end.

Definition process_transaction (block_number : N) (tx_bytes : bytes) (m : StakingManager) : StakingManager :=
  match rlp_decode tx_bytes with
  | None => m
  | Some envelope =>
      match envelope_call envelope with
      | None => m
      | Some (to, value, input) =>
          if negb (to =? STAKING_ADDRESS) then m
          else
            match recover_signer envelope tx_bytes with
            | None => m
            | Some sender =>
                if negb (value =? 0) && (length input =? 48)%nat
                then handle_stake sender input value block_number m
                else if (value =? 0) && (4 <=? length input)%nat && bool_decide (take 4 input = UNSTAKE_SELECTOR)
                then handle_unstake sender block_number m
                else if (value =? 0) && (length input =? 48)%nat
                then handle_register sender input block_number m
                else m
            end
      end
  end.

(** [payload_json.windows(n).any(|window| window == pattern)] *)
Fixpoint contains_window (pattern payload : bytes) : bool :=
  bool_decide (take (length pattern) payload = pattern) ||
  match payload with [] => false | _ :: rest => contains_window pattern rest end.
Definition payload_might_contain_staking_transaction (payload_json : bytes) : bool :=
  contains_window STAKING_TARGET_RLP_HEX payload_json.

(** [Value::get] with a key, and [as_array] *)
Definition json_get (key : bytes) (value : Json) : option Json :=
  match value with
  | JObject fields => snd <$> head (filter (fun f => f.1 = key) fields)
  | _ => None
  end.
Definition json_array (value : Json) : option (list Json) :=
  match value with JArray values => Some values | _ => None end.

(** ["transactions"], ["payload"] and ["executionPayload"] *)
Definition TRANSACTIONS : bytes := [116; 114; 97; 110; 115; 97; 99; 116; 105; 111; 110; 115].
Definition PAYLOAD : bytes := [112; 97; 121; 108; 111; 97; 100].
Definition EXECUTION_PAYLOAD : bytes :=
  [101; 120; 101; 99; 117; 116; 105; 111; 110; 80; 97; 121; 108; 111; 97; 100].

Definition payload_transactions (parsed : Json) : option (list Json) :=
  head (omap (fun value => value ≫= json_array)
    [json_get TRANSACTIONS parsed;
     json_get PAYLOAD parsed ≫= json_get TRANSACTIONS;
     json_get EXECUTION_PAYLOAD parsed ≫= json_get TRANSACTIONS]).

(** [s.strip_prefix("0x").unwrap_or(s)] *)
Definition strip_0x (s : bytes) : bytes :=
  match s with 48 :: 120 :: rest => rest | _ => s end.

Definition scan_entry (block_number : N) (tx_hex : Json) (m : StakingManager) : StakingManager :=
  match tx_hex with
  | JString s =>
      match hex_decode (strip_0x s) with
      | Some tx_bytes => process_transaction block_number tx_bytes m
      | None => m
      end
  | _ => m
  end.

Definition scan_committed_block (block_number : N) (payload_json : bytes) (m : StakingManager) : StakingManager :=
  let m := set_scanned block_number m in
  if negb (payload_might_contain_staking_transaction payload_json) then m
  else
    match json_from_slice payload_json with
    | None => m
    | Some parsed =>
        match payload_transactions parsed with
        | None => m
        | Some transactions => foldl (fun m tx_hex => scan_entry block_number tx_hex m) m transactions
        end
    end.
End scan.

(** ** Returns *)

Definition is_matured (current_block : N) (entry : StakeEntry) : bool :=
  match se_status entry with
  | Unstaking initiated_block => initiated_block +w UNSTAKE_COOLDOWN_BLOCKS <=? current_block
  | Active => false
  end.

Definition return_stake (addr : Address) (m : StakingManager) : StakingManager :=
  match stakes m !! addr with
  | None => m
  | Some entry =>
      let m := disown (se_bls_pubkey entry) (set_stakes (delete addr (stakes m)) m) in
      let amount_gwei := N.min (se_amount entry / 1000000000) u64_max in
      let idx := next_withdrawal_index m in
      set_returns (pending_returns m ++ [mkWithdrawal idx 0 (se_staker entry) amount_gwei]) (idx +w 1) m
  end.

Definition check_cooldowns {order : StakeOrder} (current_block : N) (m : StakingManager) : StakingManager :=
  let matured := (filter (fun item => is_matured current_block item.2 = true) (iter_stakes (stakes m))).*1 in
  foldl (fun m addr => return_stake addr m) m matured.

Definition take_pending_returns (max : nat) (m : StakingManager) : StakingManager * list Withdrawal :=
  let count := Nat.min max (length (pending_returns m)) in
  (set_returns (drop count (pending_returns m)) (next_withdrawal_index m) m, take count (pending_returns m)).

(** ** Queries *)

Definition is_staked (m : StakingManager) (bls_pubkey : bytes) : bool :=
  match (staker ← bls_to_staker m !! bls_pubkey; stakes m !! staker) with
  | Some entry => is_active entry && (MIN_STAKE_WEI <=? se_amount entry)
  | None => false
  end.

Definition is_registered (m : StakingManager) (bls_pubkey : bytes) : bool :=
  match bls_to_staker m !! bls_pubkey with
  | Some addr =>
      match stakes m !! addr with
      | Some entry => is_active entry
      | None => bool_decide (is_Some (registrations m !! addr))
      end
  | None => false
  end.

Definition staked_bls_pubkeys (m : StakingManager) : gset bytes :=
  list_to_set (se_bls_pubkey <$>
    filter (fun e => is_active e && (MIN_STAKE_WEI <=? se_amount e) = true) (map_to_list (stakes m)).*2).

Definition staker_address (m : StakingManager) (bls_pubkey : bytes) : option Address := bls_to_staker m !! bls_pubkey.
Definition staker_address_by_reward (m : StakingManager) (reward_addr : Address) : option Address :=
  reward_to_staker m !! reward_addr.

Definition total_staked {order : StakeOrder} (m : StakingManager) : N * N :=
  foldl (fun '(total, count) entry =>
    if is_active entry then (N.min (total + se_amount entry) stake_max, count +w 1) else (total, count))
    (0, 0) (iter_stakes (stakes m)).*2.

(** ** The persisted state *)

Record PersistedWithdrawal : Type := mkPersistedWithdrawal {
  pw_index : N;
  pw_validator_index : N;
  pw_address : bytes;
  pw_amount : N
}.

Record PersistedStakingState : Type := mkPersistedStakingState {
  ps_stakes : list StakeEntry;
  ps_registrations : list RegistrationEntry;
  ps_pending_returns : list PersistedWithdrawal;
  ps_last_scanned_block : N;
  ps_next_withdrawal_index : N
}.
End staking.

(** The text of an address. *)
Class AddressText : Type := {
  format_address : Address -> bytes;
  parse_address : bytes -> option Address
}.
Class AddressTextLaws (text : AddressText) : Prop := {
  parse_format_address a : parse_address (format_address a) = Some a
}.

Section persistence.
Context {keccak : Keccak} {text : AddressText} {order : StakeOrder}.

Definition persist_withdrawal (w : Withdrawal) : PersistedWithdrawal :=
  mkPersistedWithdrawal (wd_index w) (wd_validator_index w) (format_address (wd_address w)) (wd_amount w).
Definition restore_withdrawal (pw : PersistedWithdrawal) : option Withdrawal :=
  addr ← parse_address (pw_address pw);
  Some (mkWithdrawal (pw_index pw) (pw_validator_index pw) addr (pw_amount pw)).

(** What [save] writes. *)
Definition save_state (m : StakingManager) : PersistedStakingState :=
  mkPersistedStakingState (iter_stakes (stakes m)).*2 (map_to_list (registrations m)).*2
    (persist_withdrawal <$> pending_returns m) (last_scanned_block m) (next_withdrawal_index m).

Definition restore_stake (m : StakingManager) (entry : StakeEntry) : StakingManager :=
  let m := own (se_bls_pubkey entry) (se_staker entry) m in
  set_stakes (<[se_staker entry := entry]> (stakes m)) m.
Definition restore_registration (m : StakingManager) (reg : RegistrationEntry) : StakingManager :=
  let m := own (re_bls_pubkey reg) (re_evm_address reg) m in
  set_registrations (<[re_evm_address reg := reg]> (registrations m)) m.

(** What [load] makes of it. *)
Definition load_state (persisted : PersistedStakingState) : StakingManager :=
  let m := mkStakingManager ∅ ∅ ∅ ∅ [] (ps_last_scanned_block persisted) (ps_next_withdrawal_index persisted) in
  let m := foldl restore_stake m (ps_stakes persisted) in
  let m := foldl restore_registration m (ps_registrations persisted) in
  set_returns (omap restore_withdrawal (ps_pending_returns persisted)) (next_withdrawal_index m) m.
End persistence.
