(* ===== verification/StakingTheory.v ===== *)
(** * The staking maps stay in step

    An address has at most one key, as a staker or as a registered verifier, a key
    at most one address, and the two lookup maps have exactly these pairs: as long as
    the addresses derived from the keys in use differ.  Then runs of the manager: what
    a restart reads back, and what is returned of what was staked. *)

From S2P Require Import Prelude Staking.

Section theory.
Context {keccak : Keccak}.

(** The key of an address. *)
Definition key_of (m : StakingManager) (a : Address) : option bytes :=
  match stakes m !! a with
  | Some e => Some (se_bls_pubkey e)
  | None => re_bls_pubkey <$> registrations m !! a
  end.

Definition collision_free (K : bytes -> Prop) : Prop := forall k k',
  K k -> K k' -> bls_pubkey_to_address k = bls_pubkey_to_address k' -> k = k'.

Record staking_wf (K : bytes -> Prop) (m : StakingManager) : Prop := {
  wf_staker : forall a e, stakes m !! a = Some e -> se_staker e = a;
  wf_registered : forall a r, registrations m !! a = Some r -> re_evm_address r = a /\ stakes m !! a = None;
  wf_owner : forall k a, bls_to_staker m !! k = Some a <-> key_of m a = Some k;
  wf_reward : forall r a, reward_to_staker m !! r = Some a <->
    exists k, key_of m a = Some k /\ bls_pubkey_to_address k = r;
  wf_known : forall a k, key_of m a = Some k -> K k
}.

Lemma staking_wf_new K : staking_wf K staking_new.
Proof.
  assert (Hk : forall a, key_of staking_new a = None).
  { intros a. unfold key_of, staking_new. cbn [stakes registrations]. by rewrite !lookup_empty. }
  split.
  - intros a e. unfold staking_new. cbn [stakes]. by rewrite lookup_empty.
  - intros a r. unfold staking_new. cbn [registrations]. by rewrite lookup_empty.
  - intros k a. rewrite Hk. unfold staking_new. cbn [bls_to_staker]. rewrite lookup_empty. by split.
  - intros r a. rewrite Hk. unfold staking_new. cbn [reward_to_staker]. rewrite lookup_empty.
    split; [done|]. by intros (k & ? & _).
  - intros a k. by rewrite Hk.
Qed.

(** Stakes and registrations of other addresses are the same. *)
Definition others_same (a : Address) (m m' : StakingManager) : Prop := forall b, b ≠ a ->
  stakes m' !! b = stakes m !! b /\ registrations m' !! b = registrations m !! b.

(** The entries of [a] in [m'] are those of one address. *)
Definition entries_ok (a : Address) (m' : StakingManager) : Prop :=
  (forall e, stakes m' !! a = Some e -> se_staker e = a) /\
  (forall r, registrations m' !! a = Some r -> re_evm_address r = a /\ stakes m' !! a = None).

Lemma others_key a b m m' : others_same a m m' -> b ≠ a -> key_of m' b = key_of m b.
Proof. intros H Hb. unfold key_of. by destruct (H b Hb) as [-> ->]. Qed.

Section known.
Context (K : bytes -> Prop) (Hcf : collision_free K).

(** Two addresses have different keys. *)
Lemma key_of_inj m a b k : staking_wf K m -> key_of m a = Some k -> key_of m b = Some k -> a = b.
Proof. intros Hw Ha Hb. apply (wf_owner _ _ Hw) in Ha, Hb. congruence. Qed.

(** [a] gets the key [k], and loses the one it had. *)
Lemma staking_wf_set_key a k m m' :
  staking_wf K m -> K k -> owned_by_other m k a = false -> others_same a m m' -> entries_ok a m' ->
  key_of m' a = Some k ->
  bls_to_staker m' = <[k := a]> (match key_of m a with Some k0 => delete k0 (bls_to_staker m) | None => bls_to_staker m end) ->
  reward_to_staker m' = <[bls_pubkey_to_address k := a]>
    (match key_of m a with Some k0 => delete (bls_pubkey_to_address k0) (reward_to_staker m) | None => reward_to_staker m end) ->
  staking_wf K m'.
Proof using Hcf.
  intros Hw Hk Hno Hsame [He1 He2] Hkey Hb Hr.
  assert (Hother : forall b, b ≠ a -> key_of m b ≠ Some k).
  { intros b Hba Hkb. apply (wf_owner _ _ Hw) in Hkb. unfold owned_by_other in Hno. rewrite Hkb in Hno.
    apply negb_false_iff, N.eqb_eq in Hno. done. }
  split.
  - intros b e. destruct (decide (b = a)) as [->|Hba]; [apply He1|]. rewrite (proj1 (Hsame b Hba)). apply (wf_staker _ _ Hw).
  - intros b r. destruct (decide (b = a)) as [->|Hba]; [apply He2|]. destruct (Hsame b Hba) as [-> ->].
    apply (wf_registered _ _ Hw).
  - intros k' b. rewrite Hb. destruct (decide (b = a)) as [->|Hba].
    + rewrite Hkey. destruct (decide (k' = k)) as [->|Hne]; [by rewrite lookup_insert_eq|].
      rewrite lookup_insert_ne by done. split; [|congruence]. destruct (key_of m a) as [k0|] eqn:E0.
      * intros [Hk0 Hk']%lookup_delete_Some. apply (wf_owner _ _ Hw) in Hk'. congruence.
      * intros Hk'%(wf_owner _ _ Hw). congruence.
    + rewrite (others_key a b m m' Hsame Hba), <- (wf_owner _ _ Hw).
      destruct (decide (k' = k)) as [->|Hne].
      * rewrite lookup_insert_eq. split; [congruence|]. intros Hk'%(wf_owner _ _ Hw). by destruct (Hother b Hba).
      * rewrite lookup_insert_ne by done. destruct (key_of m a) as [k0|] eqn:E0; [|done].
        destruct (decide (k0 = k')) as [->|Hk0]; [|by rewrite lookup_delete_ne].
        rewrite lookup_delete_eq. split; [done|]. intros Hk'%(wf_owner _ _ Hw). destruct Hba. by eapply key_of_inj.
  - intros r b. rewrite Hr. destruct (decide (b = a)) as [->|Hba].
    + rewrite Hkey. destruct (decide (r = bls_pubkey_to_address k)) as [->|Hne].
      { rewrite lookup_insert_eq. split; [eauto|done]. }
      rewrite lookup_insert_ne by done. split; [|intros (k' & [= <-] & <-); done].
      destruct (key_of m a) as [k0|] eqn:E0.
      * intros [Hr0 (k' & Hk' & <-)%(wf_reward _ _ Hw)]%lookup_delete_Some. congruence.
      * intros (k' & Hk' & <-)%(wf_reward _ _ Hw). congruence.
    + rewrite (others_key a b m m' Hsame Hba), <- (wf_reward _ _ Hw).
      destruct (decide (r = bls_pubkey_to_address k)) as [->|Hne].
      * rewrite lookup_insert_eq. split; [congruence|]. intros (k' & Hk' & Ek)%(wf_reward _ _ Hw).
        apply Hcf in Ek; [|by eapply wf_known|done]. subst k'. by destruct (Hother b Hba).
      * rewrite lookup_insert_ne by done. destruct (key_of m a) as [k0|] eqn:E0; [|done].
        destruct (decide (bls_pubkey_to_address k0 = r)) as [<-|Hr0]; [|by rewrite lookup_delete_ne].
        rewrite lookup_delete_eq. split; [done|]. intros (k' & Hk' & Ek)%(wf_reward _ _ Hw).
        apply Hcf in Ek; [|by eapply wf_known..]. subst k'. destruct Hba. by eapply key_of_inj.
  - intros b k'. destruct (decide (b = a)) as [->|Hba]; [rewrite Hkey; by intros [= <-]|].
    rewrite (others_key a b m m' Hsame Hba). apply (wf_known _ _ Hw).
Qed.

(** [a] loses its key. *)
Lemma staking_wf_drop_key a k m m' :
  staking_wf K m -> key_of m a = Some k -> others_same a m m' -> entries_ok a m' -> key_of m' a = None ->
  bls_to_staker m' = delete k (bls_to_staker m) ->
  reward_to_staker m' = delete (bls_pubkey_to_address k) (reward_to_staker m) -> staking_wf K m'.
Proof using Hcf.
  intros Hw Hka Hsame [He1 He2] Hkey Hb Hr. split.
  - intros b e. destruct (decide (b = a)) as [->|Hba]; [apply He1|]. rewrite (proj1 (Hsame b Hba)). apply (wf_staker _ _ Hw).
  - intros b r. destruct (decide (b = a)) as [->|Hba]; [apply He2|]. destruct (Hsame b Hba) as [-> ->].
    apply (wf_registered _ _ Hw).
  - intros k' b. rewrite Hb, lookup_delete_Some, (wf_owner _ _ Hw). destruct (decide (b = a)) as [->|Hba].
    + rewrite Hkey. split; [intros [? ?]; congruence|done].
    + rewrite (others_key a b m m' Hsame Hba). split; [by intros [_ ?]|]. intros H. split; [|done].
      intros <-. destruct Hba. by eapply key_of_inj.
  - intros r b. rewrite Hr, lookup_delete_Some, (wf_reward _ _ Hw). destruct (decide (b = a)) as [->|Hba].
    + rewrite Hkey. split; [intros [? (k' & ? & ?)]; congruence|by intros (k' & ? & _)].
    + rewrite (others_key a b m m' Hsame Hba). split; [by intros [_ ?]|]. intros (k' & Hk' & <-). split; [|eauto].
      intros Ek. apply Hcf in Ek; [|by eapply wf_known..]. subst k'. destruct Hba. by eapply key_of_inj.
  - intros b k'. destruct (decide (b = a)) as [->|Hba]; [by rewrite Hkey|].
    rewrite (others_key a b m m' Hsame Hba). apply (wf_known _ _ Hw).
Qed.

(** ** Transactions *)

Lemma key_insert_delete m a k :
  staking_wf K m -> key_of m a = Some k ->
  <[k := a]> (delete k (bls_to_staker m)) = bls_to_staker m /\
  <[bls_pubkey_to_address k := a]> (delete (bls_pubkey_to_address k) (reward_to_staker m)) = reward_to_staker m.
Proof using.
  intros Hw Hk. split; rewrite insert_delete_eq; apply insert_id; [by apply (wf_owner _ _ Hw)|].
  apply (wf_reward _ _ Hw). eauto.
Qed.

Lemma handle_stake_wf staker k value n m :
  staking_wf K m -> K k -> staking_wf K (handle_stake staker k value n m).
Proof using Hcf.
  intros Hw Hk. unfold handle_stake. case_bool_decide; [done|]. destruct (owned_by_other m k staker) eqn:Eo; [done|].
  destruct (stakes m !! staker) as [e|] eqn:Es.
  - assert (Hka : key_of m staker = Some (se_bls_pubkey e)) by (unfold key_of; by rewrite Es).
    apply (staking_wf_set_key staker k m); try done.
    + intros b Hb. by case_bool_decide; cbn; rewrite lookup_insert_ne.
    + split; case_bool_decide; cbn; rewrite ?lookup_insert_eq.
      1,2: intros ? [= <-]; by apply (wf_staker _ _ Hw) in Es.
      all: intros r Hr; apply (wf_registered _ _ Hw) in Hr as [_ Hr]; congruence.
    + unfold key_of. by case_bool_decide; cbn; rewrite lookup_insert_eq.
    + rewrite Hka. case_bool_decide as E; cbn; [|done]. subst k. symmetry. by apply key_insert_delete.
    + rewrite Hka. case_bool_decide as E; cbn; [|done]. subst k. symmetry. by apply key_insert_delete.
  - destruct (registrations m !! staker) as [r|] eqn:Er.
    + assert (Hka : key_of m staker = Some (re_bls_pubkey r)) by (unfold key_of; by rewrite Es, Er).
      apply (staking_wf_set_key staker k m); try done.
      * intros b Hb. by case_bool_decide; cbn; rewrite lookup_insert_ne, lookup_delete_ne.
      * split; case_bool_decide; cbn; rewrite ?lookup_insert_eq, ?lookup_delete_eq; by intros ? [= <-].
      * unfold key_of. by case_bool_decide; cbn; rewrite lookup_insert_eq.
      * rewrite Hka. case_bool_decide as E; cbn; [|done]. subst k. by rewrite insert_delete_eq.
      * rewrite Hka. case_bool_decide as E; cbn; [|done]. subst k. by rewrite insert_delete_eq.
    + assert (Hka : key_of m staker = None) by (unfold key_of; by rewrite Es, Er).
      apply (staking_wf_set_key staker k m); try done; rewrite ?Hka; try done.
      * intros b Hb. cbn. by rewrite lookup_insert_ne.
      * split; cbn; rewrite ?lookup_insert_eq; [by intros ? [= <-]|]. by rewrite Er.
      * unfold key_of. cbn. by rewrite lookup_insert_eq.
Qed.

Lemma handle_unstake_wf staker n m : staking_wf K m -> staking_wf K (handle_unstake staker n m).
Proof using Hcf.
  intros Hw. unfold handle_unstake. destruct (stakes m !! staker) as [e|] eqn:Es; [|done]. destruct (is_active e); [|done].
  assert (Hka : key_of m staker = Some (se_bls_pubkey e)) by (unfold key_of; by rewrite Es).
  apply (staking_wf_set_key staker (se_bls_pubkey e) m); try done.
  - by eapply wf_known.
  - unfold owned_by_other. rewrite (proj2 (wf_owner _ _ Hw _ _) Hka). by rewrite N.eqb_refl.
  - intros b Hb. cbn. by rewrite lookup_insert_ne.
  - split; cbn; rewrite ?lookup_insert_eq; [intros ? [= <-]; by apply (wf_staker _ _ Hw) in Es|].
    intros r Hr. apply (wf_registered _ _ Hw) in Hr as [_ Hr]. congruence.
  - unfold key_of. cbn. by rewrite lookup_insert_eq.
  - rewrite Hka. cbn. symmetry. by apply key_insert_delete.
  - rewrite Hka. cbn. symmetry. by apply key_insert_delete.
Qed.

Lemma handle_register_wf sender k n m :
  staking_wf K m -> K k -> staking_wf K (handle_register sender k n m).
Proof using Hcf.
  intros Hw Hk. unfold handle_register. case_bool_decide; [done|]. destruct (owned_by_other m k sender) eqn:Eo; [done|].
  case_bool_decide as Es; [done|]. apply eq_None_not_Some in Es.
  destruct (registrations m !! sender) as [r|] eqn:Er.
  - case_bool_decide as E; [done|].
    assert (Hka : key_of m sender = Some (re_bls_pubkey r)) by (unfold key_of; by rewrite Es, Er).
    apply (staking_wf_set_key sender k m); try done; rewrite ?Hka; try done.
    + intros b Hb. cbn. by rewrite lookup_insert_ne.
    + split; cbn; rewrite ?lookup_insert_eq; [by rewrite Es|]. intros ? [= <-]. by apply (wf_registered _ _ Hw) in Er as [? _].
    + unfold key_of. cbn. by rewrite Es, lookup_insert_eq.
  - assert (Hka : key_of m sender = None) by (unfold key_of; by rewrite Es, Er).
    apply (staking_wf_set_key sender k m); try done; rewrite ?Hka; try done.
    + intros b Hb. cbn. by rewrite lookup_insert_ne.
    + split; cbn; rewrite ?lookup_insert_eq; [by rewrite Es|]. by intros ? [= <-].
    + unfold key_of. cbn. by rewrite Es, lookup_insert_eq.
Qed.

(** ** Blocks *)

Lemma staking_wf_ext m m' :
  staking_wf K m -> stakes m' = stakes m -> registrations m' = registrations m ->
  bls_to_staker m' = bls_to_staker m -> reward_to_staker m' = reward_to_staker m -> staking_wf K m'.
Proof using.
  intros [H1 H2 H3 H4 H5] E1 E2 E3 E4. split; unfold key_of in *; rewrite ?E1, ?E2, ?E3, ?E4; done.
Qed.

Lemma return_stake_wf a m : staking_wf K m -> staking_wf K (return_stake a m).
Proof using Hcf.
  intros Hw. unfold return_stake. destruct (stakes m !! a) as [e|] eqn:Es; [|done].
  assert (Hr : registrations m !! a = None).
  { destruct (registrations m !! a) eqn:Er; [|done]. apply (wf_registered _ _ Hw) in Er as [_ Er]. congruence. }
  apply (staking_wf_drop_key a (se_bls_pubkey e) m); try done.
  - unfold key_of. by rewrite Es.
  - intros b Hb. cbn. by rewrite lookup_delete_ne.
  - split; cbn; rewrite lookup_delete_eq; [done|]. by rewrite Hr.
  - unfold key_of. cbn. by rewrite lookup_delete_eq, Hr.
Qed.

Lemma check_cooldowns_wf {order : StakeOrder} n m : staking_wf K m -> staking_wf K (check_cooldowns n m).
Proof using Hcf.
  unfold check_cooldowns. generalize ((filter (fun item => is_matured n item.2 = true) (iter_stakes (stakes m))).*1).
  intros l. revert m. induction l as [|a l IH]; intros m Hw; [done|]. cbn. apply IH. by apply return_stake_wf.
Qed.

Lemma take_pending_returns_wf max m : staking_wf K m -> staking_wf K (take_pending_returns max m).1.
Proof using. intros Hw. by eapply staking_wf_ext. Qed.

Section scan.
Context {codec : PayloadCodec}.

(** The transactions of a payload that the scan processes. *)
Definition scan_txs (payload_json : bytes) : list bytes :=
  if negb (payload_might_contain_staking_transaction payload_json) then []
  else
    match (json_from_slice payload_json ≫= payload_transactions) with
    | Some txs => omap (fun tx_hex => match tx_hex with JString s => hex_decode (strip_0x s) | _ => None end) txs
    | None => []
    end.

Lemma scan_as_txs n payload_json m :
  scan_committed_block n payload_json m =
  foldl (fun m tx => process_transaction n tx m) (set_scanned n m) (scan_txs payload_json).
Proof using.
  unfold scan_committed_block, scan_txs. cbn zeta. destruct (negb _); [done|].
  destruct (json_from_slice payload_json) as [parsed|]; [|done]. change (Some parsed ≫= payload_transactions) with (payload_transactions parsed).
  destruct (payload_transactions parsed) as [txs|]; [|done].
  generalize (set_scanned n m). induction txs as [|tx txs IH]; intros m0; [done|].
  cbn [foldl omap list_omap]. rewrite IH. unfold scan_entry. destruct tx; try done.
  by destruct (hex_decode (strip_0x _)).
Qed.

(** The call of a transaction to the staking address, with its sender. *)
Definition staking_call (tx_bytes : bytes) : option (Address * N * bytes) :=
  envelope ← rlp_decode tx_bytes;
  '(to, value, input) ← envelope_call envelope;
  if to =? STAKING_ADDRESS then sender ← recover_signer envelope tx_bytes; Some (sender, value, input) else None.

Lemma process_as_call n tx m :
  process_transaction n tx m =
  match staking_call tx with
  | None => m
  | Some (sender, value, input) =>
      if negb (value =? 0) && (length input =? 48)%nat then handle_stake sender input value n m
      else if (value =? 0) && (4 <=? length input)%nat && bool_decide (take 4 input = UNSTAKE_SELECTOR)
      then handle_unstake sender n m
      else if (value =? 0) && (length input =? 48)%nat then handle_register sender input n m
      else m
  end.
Proof using.
  unfold process_transaction, staking_call. destruct (rlp_decode tx) as [envelope|]; [|done]. cbn.
  destruct (envelope_call envelope) as [[[to value] input]|]; [|done]. cbn.
  destruct (to =? STAKING_ADDRESS); [|done]. by destruct (recover_signer envelope tx).
Qed.

(** The keys of a payload's transactions. *)
Definition payload_keys (payload_json : bytes) : list bytes :=
  omap (fun tx => snd <$> staking_call tx) (scan_txs payload_json).

Lemma process_transaction_wf n tx m :
  (forall input, snd <$> staking_call tx = Some input -> K input) ->
  staking_wf K m -> staking_wf K (process_transaction n tx m).
Proof using Hcf.
  intros Hk Hw. rewrite process_as_call. destruct (staking_call tx) as [[[sender value] input]|]; [|done].
  specialize (Hk input eq_refl). repeat case_match; try done.
  - by apply handle_stake_wf.
  - by apply handle_unstake_wf.
  - by apply handle_register_wf.
Qed.

Lemma scan_committed_block_wf n payload_json m :
  Forall K (payload_keys payload_json) -> staking_wf K m -> staking_wf K (scan_committed_block n payload_json m).
Proof using Hcf.
  intros Hk Hw. rewrite scan_as_txs. unfold payload_keys in Hk.
  assert (Hw' : staking_wf K (set_scanned n m)) by (by eapply staking_wf_ext).
  revert Hw'. generalize (set_scanned n m). induction (scan_txs payload_json) as [|tx txs IH]; intros m0 Hw0; [done|].
  cbn [foldl]. cbn [omap list_omap] in Hk. apply IH.
  - destruct (snd <$> staking_call tx); [by apply Forall_cons in Hk as [_ ?]|done].
  - apply process_transaction_wf; [|done]. intros input E. rewrite E in Hk. by apply Forall_cons in Hk as [? _].
Qed.
End scan.
End known.

(** ** Queries *)

Lemma is_staked_spec K m k : staking_wf K m -> is_staked m k = true <-> k ∈ staked_bls_pubkeys m.
Proof.
  intros Hw. unfold is_staked, staked_bls_pubkeys. rewrite elem_of_list_to_set, list_elem_of_fmap. split.
  - destruct (bls_to_staker m !! k) as [a|] eqn:Eb; [|done]. cbn. destruct (stakes m !! a) as [e|] eqn:Es; [|done].
    intros H. exists e. apply (wf_owner _ _ Hw) in Eb. unfold key_of in Eb. rewrite Es in Eb. injection Eb as <-.
    split; [done|]. apply list_elem_of_filter. split; [done|]. apply list_elem_of_fmap. exists (a, e).
    split; [done|]. by apply elem_of_map_to_list.
  - intros (e & -> & [H ([a e'] & -> & Hin%elem_of_map_to_list)%list_elem_of_fmap]%list_elem_of_filter).
    cbn in *. assert (Hk : key_of m a = Some (se_bls_pubkey e')) by (unfold key_of; by rewrite Hin).
    apply (wf_owner _ _ Hw) in Hk. rewrite Hk. cbn. by rewrite Hin.
Qed.

Lemma reward_resolution K m k :
  collision_free K -> staking_wf K m -> K k ->
  staker_address_by_reward m (bls_pubkey_to_address k) = staker_address m k.
Proof.
  intros Hcf Hw Hk. unfold staker_address_by_reward, staker_address. apply option_eq. intros a.
  rewrite (wf_reward _ _ Hw), (wf_owner _ _ Hw). split; [|by eauto].
  intros (k' & Hk' & E). apply Hcf in E; [by subst|by eapply wf_known|done].
Qed.
End theory.

(** ** Restarts *)

Lemma foldl_insert_lookup {A V} `{Countable K} (f : A -> K) (g : A -> V) (l : list A) (m : gmap K V) k v :
  NoDup (f <$> l) ->
  foldl (fun acc x => <[f x := g x]> acc) m l !! k = Some v <->
  (exists x, x ∈ l /\ f x = k /\ g x = v) \/ (k ∉ f <$> l /\ m !! k = Some v).
Proof.
  revert m. induction l as [|x l IH]; intros m; cbn [foldl fmap list_fmap].
  { intros _. split; [intros ?; right; split; [apply not_elem_of_nil|done]|]. intros [(y & []%elem_of_nil & _)|[_ ?]]. done. }
  intros [Hx Hl]%NoDup_cons. rewrite IH by done. split.
  - intros [(y & Hy & ? & ?)|[Hn [[<- <-]|[Hne ?]]%lookup_insert_Some]].
    + left. exists y. split; [by right|done].
    + left. exists x. split; [by left|done].
    + right. rewrite not_elem_of_cons. done.
  - intros [(y & [->|Hy]%elem_of_cons & <- & <-)|[[Hne Hn]%not_elem_of_cons Hm]].
    + right. split; [done|]. apply lookup_insert_eq.
    + left. eauto.
    + right. split; [done|]. by rewrite lookup_insert_ne.
Qed.

Section runs.
Context {keccak : Keccak} {text : AddressText} {order : StakeOrder} {codec : PayloadCodec}.
Context {text_laws : AddressTextLaws text} {order_laws : StakeOrderLaws order}.

Lemma restore_stakes l m :
  foldl restore_stake m l =
  mkStakingManager (foldl (fun acc e => <[se_staker e := e]> acc) (stakes m) l) (registrations m)
    (foldl (fun acc e => <[se_bls_pubkey e := se_staker e]> acc) (bls_to_staker m) l)
    (foldl (fun acc e => <[bls_pubkey_to_address (se_bls_pubkey e) := se_staker e]> acc) (reward_to_staker m) l)
    (pending_returns m) (last_scanned_block m) (next_withdrawal_index m).
Proof. revert m. induction l as [|e l IH]; intros m; [by destruct m|]. cbn [foldl]. by rewrite IH. Qed.

Lemma restore_registrations l m :
  foldl restore_registration m l =
  mkStakingManager (stakes m) (foldl (fun acc r => <[re_evm_address r := r]> acc) (registrations m) l)
    (foldl (fun acc r => <[re_bls_pubkey r := re_evm_address r]> acc) (bls_to_staker m) l)
    (foldl (fun acc r => <[bls_pubkey_to_address (re_bls_pubkey r) := re_evm_address r]> acc) (reward_to_staker m) l)
    (pending_returns m) (last_scanned_block m) (next_withdrawal_index m).
Proof. revert m. induction l as [|r l IH]; intros m; [by destruct m|]. cbn [foldl]. by rewrite IH. Qed.

Lemma restore_withdrawals (ws : list Withdrawal) : omap restore_withdrawal (persist_withdrawal <$> ws) = ws.
Proof using text_laws.
  induction ws as [|w ws IH]; [done|]. cbn. unfold restore_withdrawal at 1, persist_withdrawal at 1. cbn.
  rewrite parse_format_address. cbn. rewrite IH. by destruct w.
Qed.

Lemma staking_eta m :
  mkStakingManager (stakes m) (registrations m) (bls_to_staker m) (reward_to_staker m) (pending_returns m)
    (last_scanned_block m) (next_withdrawal_index m) = m.
Proof. by destruct m. Qed.

Section restart.
Context (K : bytes -> Prop) (m : StakingManager) (Hcf : collision_free K) (Hw : staking_wf K m).

(** The entries of the file. *)
Definition saved_stakes : list StakeEntry := (iter_stakes (stakes m)).*2.
Definition saved_registrations : list RegistrationEntry := (map_to_list (registrations m)).*2.

Lemma saved_stakes_elem e : e ∈ saved_stakes <-> stakes m !! se_staker e = Some e.
Proof using Hw order_laws.
  unfold saved_stakes. rewrite iter_stakes_perm, list_elem_of_fmap. split.
  - intros ([a e'] & -> & Ha%elem_of_map_to_list). cbn. by rewrite (wf_staker _ _ Hw _ _ Ha).
  - intros He. exists (se_staker e, e). split; [done|]. by apply elem_of_map_to_list.
Qed.
Lemma saved_registrations_elem r : r ∈ saved_registrations <-> registrations m !! re_evm_address r = Some r.
Proof using Hw.
  unfold saved_registrations. rewrite list_elem_of_fmap. split.
  - intros ([a r'] & -> & Ha%elem_of_map_to_list). cbn. by destruct (wf_registered _ _ Hw _ _ Ha) as [-> _].
  - intros Hr. exists (re_evm_address r, r). split; [done|]. by apply elem_of_map_to_list.
Qed.

Lemma saved_stakes_nodup : NoDup (se_staker <$> saved_stakes).
Proof using Hw order_laws.
  unfold saved_stakes. rewrite iter_stakes_perm, <- list_fmap_compose.
  erewrite (list_fmap_ext _ fst); [apply NoDup_fst_map_to_list|].
  intros i [a e] Hin%list_elem_of_lookup_2%elem_of_map_to_list. cbn. by apply (wf_staker _ _ Hw).
Qed.
Lemma saved_registrations_nodup : NoDup (re_evm_address <$> saved_registrations).
Proof using Hw.
  unfold saved_registrations. rewrite <- list_fmap_compose.
  erewrite (list_fmap_ext _ fst); [apply NoDup_fst_map_to_list|].
  intros i [a r] Hin%list_elem_of_lookup_2%elem_of_map_to_list. cbn. by apply (wf_registered _ _ Hw).
Qed.

Lemma saved_stake_key e : e ∈ saved_stakes -> key_of m (se_staker e) = Some (se_bls_pubkey e).
Proof using Hw order_laws. intros He%saved_stakes_elem. unfold key_of. by rewrite He. Qed.
Lemma saved_registration_key r : r ∈ saved_registrations -> key_of m (re_evm_address r) = Some (re_bls_pubkey r).
Proof using Hw.
  intros Hr%saved_registrations_elem. unfold key_of. destruct (wf_registered _ _ Hw _ _ Hr) as [_ ->]. by rewrite Hr.
Qed.

(** A list of entries with different addresses has different keys. *)
Lemma keys_nodup {A} (addr : A -> Address) (key : A -> bytes) (l : list A) :
  NoDup (addr <$> l) -> (forall x, x ∈ l -> key_of m (addr x) = Some (key x)) ->
  NoDup (key <$> l) /\ NoDup ((fun x => bls_pubkey_to_address (key x)) <$> l).
Proof using Hcf Hw.
  intros Hn Hk.
  assert (Hinj : forall x y, x ∈ l -> y ∈ l -> key x = key y -> x = y).
  { intros x y Hx Hy E. apply (NoDup_fmap_1 addr) in Hn as Hl.
    assert (Ha : addr x = addr y).
    { apply (key_of_inj K m _ _ (key x) Hw); [by apply Hk|]. rewrite E. by apply Hk. }
    apply list_elem_of_lookup in Hx as [i Hx], Hy as [j Hy].
    assert (i = j) as ->; [|congruence]. eapply (NoDup_lookup _ _ _ (addr x) Hn); rewrite list_lookup_fmap, ?Hx, ?Hy; cbn; congruence. }
  apply NoDup_fmap_1 in Hn. split; apply (NoDup_fmap_2_strong _ _); try done.
  intros x y Hx Hy E. apply Hinj; [done..|]. apply (Hcf _ _); [..|done]; eapply (wf_known _ _ Hw), Hk; done.
Qed.

(** The pairs of a map restored from the entries. *)
Lemma restored_lookup {C} `{Countable C} (f : bytes -> C) (owners : gmap C Address) c a :
  NoDup ((fun e => f (se_bls_pubkey e)) <$> saved_stakes) ->
  NoDup ((fun r => f (re_bls_pubkey r)) <$> saved_registrations) ->
  (forall c a, owners !! c = Some a <-> exists k, key_of m a = Some k /\ f k = c) ->
  foldl (fun acc r => <[f (re_bls_pubkey r) := re_evm_address r]> acc)
    (foldl (fun acc e => <[f (se_bls_pubkey e) := se_staker e]> acc) (∅ : gmap C Address) saved_stakes) saved_registrations !! c = Some a <->
  owners !! c = Some a.
Proof using Hw order_laws.
  intros N1 N2 Ho. rewrite (foldl_insert_lookup (fun r => f (re_bls_pubkey r)) re_evm_address _ _ _ _ N2).
  rewrite (foldl_insert_lookup (fun e => f (se_bls_pubkey e)) se_staker _ _ _ _ N1), lookup_empty. rewrite Ho. split.
  - intros [(r & Hr & <- & <-)|[_ [(e & He & <- & <-)|[_ ?]]]]; [..|done].
    + exists (re_bls_pubkey r). split; [by apply saved_registration_key|done].
    + exists (se_bls_pubkey e). split; [by apply saved_stake_key|done].
  - intros (k & Hk & Ec). unfold key_of in Hk. destruct (stakes m !! a) as [e|] eqn:Es.
    + injection Hk as <-. pose proof (wf_staker _ _ Hw _ _ Es) as <-.
      assert (He : e ∈ saved_stakes) by (by apply saved_stakes_elem).
      right. split; [|left; by exists e]. intros (r & Er & Hr)%list_elem_of_fmap.
      assert (Hor : owners !! c = Some (re_evm_address r)).
      { apply Ho. exists (re_bls_pubkey r). split; [by apply saved_registration_key|congruence]. }
      assert (Hoe : owners !! c = Some (se_staker e)) by (apply Ho; exists (se_bls_pubkey e); split; [by apply saved_stake_key|done]).
      rewrite Hor in Hoe. injection Hoe as Hoe. apply saved_registrations_elem, (wf_registered _ _ Hw) in Hr as [_ Hr].
      rewrite Hoe in Hr. congruence.
    + destruct (registrations m !! a) as [r|] eqn:Er; [|done]. cbn in Hk. injection Hk as <-.
      destruct (wf_registered _ _ Hw _ _ Er) as [<- _]. left. exists r. split; [|done]. by apply saved_registrations_elem.
Qed.

Lemma load_save : load_state (save_state m) = m.
Proof using Hcf Hw order_laws text_laws.
  unfold load_state, save_state. cbn [ps_stakes ps_registrations ps_pending_returns ps_last_scanned_block ps_next_withdrawal_index].
  fold saved_stakes saved_registrations. cbn zeta. rewrite restore_stakes, restore_registrations, restore_withdrawals.
  cbn [stakes registrations bls_to_staker reward_to_staker pending_returns last_scanned_block next_withdrawal_index].
  destruct (keys_nodup se_staker se_bls_pubkey saved_stakes saved_stakes_nodup saved_stake_key) as [N1 N2].
  destruct (keys_nodup re_evm_address re_bls_pubkey saved_registrations saved_registrations_nodup saved_registration_key)
    as [N3 N4].
  assert (E1 : foldl (fun acc e => <[se_staker e := e]> acc) ∅ saved_stakes = stakes m).
  { apply map_eq. intros a. apply option_eq. intros e.
    rewrite (foldl_insert_lookup se_staker (fun e => e) _ _ _ _ saved_stakes_nodup), lookup_empty. split.
    - intros [(e' & He & <- & <-)|[_ ?]]; [|done]. by apply saved_stakes_elem.
    - intros He. pose proof (wf_staker _ _ Hw _ _ He) as <-. left. exists e. split; [|done]. by apply saved_stakes_elem. }
  assert (E2 : foldl (fun acc r => <[re_evm_address r := r]> acc) ∅ saved_registrations = registrations m).
  { apply map_eq. intros a. apply option_eq. intros r.
    rewrite (foldl_insert_lookup re_evm_address (fun r => r) _ _ _ _ saved_registrations_nodup), lookup_empty. split.
    - intros [(r' & Hr & <- & <-)|[_ ?]]; [|done]. by apply saved_registrations_elem.
    - intros Hr. destruct (wf_registered _ _ Hw _ _ Hr) as [<- _]. left. exists r. split; [|done]. by apply saved_registrations_elem. }
  assert (E3 : foldl (fun acc r => <[re_bls_pubkey r := re_evm_address r]> acc)
    (foldl (fun acc e => <[se_bls_pubkey e := se_staker e]> acc) ∅ saved_stakes) saved_registrations = bls_to_staker m).
  { apply map_eq. intros k. apply option_eq. intros a. apply (restored_lookup (fun k => k) (bls_to_staker m) k a N1 N3).
    intros c a'. rewrite (wf_owner _ _ Hw). split; [by eauto|]. by intros (k' & ? & <-). }
  assert (E4 : foldl (fun acc r => <[bls_pubkey_to_address (re_bls_pubkey r) := re_evm_address r]> acc)
    (foldl (fun acc e => <[bls_pubkey_to_address (se_bls_pubkey e) := se_staker e]> acc) ∅ saved_stakes)
    saved_registrations = reward_to_staker m).
  { apply map_eq. intros k. apply option_eq. intros a.
    apply (restored_lookup bls_pubkey_to_address (reward_to_staker m) k a N2 N4), (wf_reward _ _ Hw). }
  unfold set_returns. cbn [stakes registrations bls_to_staker reward_to_staker last_scanned_block next_withdrawal_index].
  rewrite E1, E2, E3, E4. apply staking_eta.
Qed.
End restart.

(** ** Runs *)

(** What a payload's transactions send to the staking address. *)
Definition payload_deposits (payload_json : bytes) : list (Address * N) :=
  omap (fun tx => fst <$> staking_call tx) (scan_txs payload_json).

(** [staking_run K m ins outs]: [m] is reached with keys in [K] after blocks that
    sent [ins], and has given [outs] to be paid.  A restart loads the file of the
    current manager: one from an older file is not part of a run. *)
Inductive staking_run (K : bytes -> Prop) : StakingManager -> list (Address * N) -> list Withdrawal -> Prop :=
| run_new : staking_run K staking_new [] []
| run_scan n payload_json m ins outs :
    staking_run K m ins outs -> Forall K (payload_keys payload_json) ->
    staking_run K (scan_committed_block n payload_json m) (ins ++ payload_deposits payload_json) outs
| run_cooldowns n m ins outs :
    staking_run K m ins outs -> staking_run K (check_cooldowns n m) ins outs
| run_take max m ins outs :
    staking_run K m ins outs ->
    staking_run K (take_pending_returns max m).1 ins (outs ++ (take_pending_returns max m).2)
| run_restart m ins outs :
    staking_run K m ins outs -> staking_run K (load_state (save_state m)) ins outs.

Lemma staking_run_wf K m ins outs : collision_free K -> staking_run K m ins outs -> staking_wf K m.
Proof using text_laws order_laws.
  intros Hcf. induction 1 as [|n p m ins outs _ IH Hk|n m ins outs _ IH|max m ins outs _ IH|m ins outs _ IH].
  - apply staking_wf_new.
  - by apply scan_committed_block_wf.
  - by apply check_cooldowns_wf.
  - by apply take_pending_returns_wf.
  - by rewrite (load_save K).
Qed.

(** ** Amounts *)

Definition staked_amount (m : StakingManager) (a : Address) : N :=
  match stakes m !! a with Some e => se_amount e | None => 0 end.

Definition deposited (a : Address) (ins : list (Address * N)) : N :=
  foldr (fun d t => if d.1 =? a then d.2 + t else t) 0 ins.
Definition paid (a : Address) (ws : list Withdrawal) : N :=
  foldr (fun w t => if wd_address w =? a then wd_amount w + t else t) 0 ws.

Lemma deposited_app a ins ins' : deposited a (ins ++ ins') = deposited a ins + deposited a ins'.
Proof. unfold deposited. induction ins as [|d ins IH]; cbn; [done|]. destruct (_ =? _); lia. Qed.
Lemma paid_app a ws ws' : paid a (ws ++ ws') = paid a ws + paid a ws'.
Proof. unfold paid. induction ws as [|w ws IH]; cbn; [done|]. destruct (_ =? _); lia. Qed.

Lemma staked_amount_insert m a e b regs bls rw pr ls nx :
  staked_amount (mkStakingManager (<[a := e]> (stakes m)) regs bls rw pr ls nx) b =
  if decide (b = a) then se_amount e else staked_amount m b.
Proof.
  unfold staked_amount. cbn. case_decide as E; [subst; by rewrite lookup_insert_eq|by rewrite lookup_insert_ne].
Qed.

(** A transaction stakes at most its value, for its sender. *)
Lemma handle_stake_amount staker k value n m b :
  pending_returns (handle_stake staker k value n m) = pending_returns m /\
  next_withdrawal_index (handle_stake staker k value n m) = next_withdrawal_index m /\
  staked_amount (handle_stake staker k value n m) b <= staked_amount m b + (if staker =? b then value else 0).
Proof.
  unfold handle_stake. case_bool_decide; [split_and!; [done..|lia]|].
  destruct (owned_by_other m k staker); [split_and!; [done..|lia]|].
  assert (Hm : stakes m !! staker = None -> staked_amount m staker = 0) by (intros E; unfold staked_amount; by rewrite E).
  destruct (stakes m !! staker) as [e|] eqn:Es.
  - assert (Ha : staked_amount m staker = se_amount e) by (unfold staked_amount; by rewrite Es).
    case_bool_decide; (split_and!; [done..|]); unfold set_stakes, own, disown, set_owners;
      cbn [stakes registrations bls_to_staker reward_to_staker pending_returns last_scanned_block next_withdrawal_index];
      rewrite staked_amount_insert; case_decide as E; cbn; subst; rewrite ?N.eqb_refl; try lia.
    all: destruct (N.eqb_spec staker b); [congruence|lia].
  - specialize (Hm eq_refl). destruct (registrations m !! staker); [case_bool_decide|]; (split_and!; [done..|]);
      unfold set_stakes, own, disown, set_owners, set_registrations;
      cbn [stakes registrations bls_to_staker reward_to_staker pending_returns last_scanned_block next_withdrawal_index];
      rewrite staked_amount_insert; case_decide as E; cbn; subst; rewrite ?N.eqb_refl; try lia.
    all: destruct (N.eqb_spec staker b); [congruence|lia].
Qed.

Lemma handle_unstake_amount staker n m b :
  pending_returns (handle_unstake staker n m) = pending_returns m /\
  next_withdrawal_index (handle_unstake staker n m) = next_withdrawal_index m /\
  staked_amount (handle_unstake staker n m) b = staked_amount m b.
Proof.
  unfold handle_unstake. destruct (stakes m !! staker) as [e|] eqn:Es; [|done]. destruct (is_active e); [|done].
  split_and!; [done..|]. unfold set_stakes. rewrite staked_amount_insert. case_decide as E; [subst|done].
  unfold staked_amount. by rewrite Es.
Qed.

Lemma handle_register_amount sender k n m b :
  pending_returns (handle_register sender k n m) = pending_returns m /\
  next_withdrawal_index (handle_register sender k n m) = next_withdrawal_index m /\
  staked_amount (handle_register sender k n m) b = staked_amount m b.
Proof. unfold handle_register. repeat (case_match || case_bool_decide); done. Qed.

Lemma process_transaction_amount n tx m b :
  pending_returns (process_transaction n tx m) = pending_returns m /\
  next_withdrawal_index (process_transaction n tx m) = next_withdrawal_index m /\
  staked_amount (process_transaction n tx m) b <=
    staked_amount m b + match fst <$> staking_call tx with Some d => deposited b [d] | None => 0 end.
Proof.
  rewrite process_as_call. destruct (staking_call tx) as [[[sender value] input]|]; cbn; [|split_and!; [done..|lia]].
  destruct (negb (value =? 0) && _).
  { destruct (handle_stake_amount sender input value n m b) as (-> & -> & H). split_and!; [done..|].
    destruct (sender =? b); lia. }
  destruct (_ && _ && _).
  { destruct (handle_unstake_amount sender n m b) as (-> & -> & ->). split_and!; [done..|]. destruct (sender =? b); lia. }
  destruct (_ && _).
  { destruct (handle_register_amount sender input n m b) as (-> & -> & ->). split_and!; [done..|]. destruct (sender =? b); lia. }
  split_and!; [done..|]. destruct (sender =? b); lia.
Qed.

Lemma scan_amount n payload_json m b :
  pending_returns (scan_committed_block n payload_json m) = pending_returns m /\
  next_withdrawal_index (scan_committed_block n payload_json m) = next_withdrawal_index m /\
  staked_amount (scan_committed_block n payload_json m) b <=
    staked_amount m b + deposited b (payload_deposits payload_json).
Proof.
  rewrite scan_as_txs. unfold payload_deposits.
  change (pending_returns m) with (pending_returns (set_scanned n m)).
  change (next_withdrawal_index m) with (next_withdrawal_index (set_scanned n m)).
  change (staked_amount m b) with (staked_amount (set_scanned n m) b).
  generalize (set_scanned n m). induction (scan_txs payload_json) as [|tx txs IH]; intros m0; [split_and!; [done..|cbn; lia]|].
  cbn [foldl omap list_omap]. destruct (IH (process_transaction n tx m0)) as (E1 & E2 & E3).
  destruct (process_transaction_amount n tx m0 b) as (F1 & F2 & F3). rewrite E1, E2. split_and!; [done..|].
  etrans; [exact E3|]. destruct (fst <$> staking_call tx) as [d|]; [|lia].
  change (d :: ?l) with ([d] ++ l). rewrite deposited_app. lia.
Qed.

(** ** Returns *)

Definition gwei_of (e : StakeEntry) : N := N.min (se_amount e / 1000000000) u64_max.

Lemma gwei_of_le e : 1000000000 * gwei_of e <= se_amount e.
Proof.
  unfold gwei_of. pose proof (N.Div0.mul_div_le (se_amount e) 1000000000).
  pose proof (N.le_min_l (se_amount e / 1000000000) u64_max). nia.
Qed.

Lemma return_stake_amount K a m b :
  staking_wf K m ->
  staked_amount (return_stake a m) b + 1000000000 * paid b (pending_returns (return_stake a m)) <=
  staked_amount m b + 1000000000 * paid b (pending_returns m).
Proof.
  intros Hw. unfold return_stake. destruct (stakes m !! a) as [e|] eqn:Es; [|lia].
  pose proof (wf_staker _ _ Hw _ _ Es) as Ha. cbn [pending_returns set_returns disown set_owners set_stakes].
  rewrite paid_app. fold (gwei_of e). pose proof (gwei_of_le e) as Hle.
  unfold staked_amount at 1. cbn. rewrite Ha. destruct (decide (b = a)) as [->|Hne].
  - rewrite lookup_delete_eq, N.eqb_refl. unfold staked_amount. rewrite Es. lia.
  - rewrite lookup_delete_ne by done. fold (staked_amount m b). destruct (N.eqb_spec a b); [congruence|]. lia.
Qed.

(** The indices of everything returned, from the first on. *)
Definition indexed (ws : list Withdrawal) (next : N) : Prop :=
  1000000 + N.of_nat (length ws) <= u64_max ->
  next = 1000000 + N.of_nat (length ws) /\
  wd_index <$> ws = (fun i => 1000000 + N.of_nat i) <$> seq 0 (length ws).

Lemma indexed_snoc ws next w :
  indexed ws next -> wd_index w = next -> indexed (ws ++ [w]) (next +w 1).
Proof.
  intros Hi Hn Hle. rewrite length_app in *. cbn [length] in *. destruct Hi as [-> Hw]; [lia|]. split.
  - unfold u64_wadd, u64_wrap. rewrite N.mod_small by (unfold u64_modulus; unfold u64_max in Hle; lia). lia.
  - rewrite fmap_app, Hw, Nat.add_1_r, seq_S, fmap_app. cbn. by rewrite Hn.
Qed.

Lemma return_stake_indexed a m outs :
  indexed (outs ++ pending_returns m) (next_withdrawal_index m) ->
  indexed (outs ++ pending_returns (return_stake a m)) (next_withdrawal_index (return_stake a m)).
Proof.
  intros Hi. unfold return_stake. destruct (stakes m !! a) as [e|]; [|done]. cbn. rewrite app_assoc.
  by apply indexed_snoc.
Qed.

Lemma check_cooldowns_amount K n m outs b :
  collision_free K -> staking_wf K m -> indexed (outs ++ pending_returns m) (next_withdrawal_index m) ->
  staked_amount (check_cooldowns n m) b + 1000000000 * paid b (pending_returns (check_cooldowns n m)) <=
    staked_amount m b + 1000000000 * paid b (pending_returns m) /\
  indexed (outs ++ pending_returns (check_cooldowns n m)) (next_withdrawal_index (check_cooldowns n m)).
Proof.
  intros Hcf. unfold check_cooldowns.
  generalize ((filter (fun item => is_matured n item.2 = true) (iter_stakes (stakes m))).*1). intros l. revert m.
  induction l as [|a l IH]; intros m Hw Hi; [done|]. cbn [foldl].
  destruct (IH (return_stake a m)) as [H1 H2]; [by apply return_stake_wf|by apply return_stake_indexed|].
  split; [|done]. pose proof (return_stake_amount K a m b Hw). lia.
Qed.

Lemma take_returns_split max m :
  (take_pending_returns max m).2 ++ pending_returns (take_pending_returns max m).1 = pending_returns m.
Proof. apply take_drop. Qed.

Lemma staking_run_amount K m ins outs :
  collision_free K -> staking_run K m ins outs ->
  (forall b, staked_amount m b + 1000000000 * paid b (outs ++ pending_returns m) <= deposited b ins) /\
  indexed (outs ++ pending_returns m) (next_withdrawal_index m).
Proof using text_laws order_laws.
  intros Hcf Hrun. induction Hrun as [|n p m ins outs Hr [IH1 IH2] Hk|n m ins outs Hr [IH1 IH2]|max m ins outs Hr [IH1 IH2]|m ins outs Hr [IH1 IH2]].
  - split; [|by intros _]. intros b. unfold staked_amount. cbn. by rewrite lookup_empty.
  - split.
    + intros b. destruct (scan_amount n p m b) as (-> & _ & H). rewrite deposited_app. specialize (IH1 b). lia.
    + by destruct (scan_amount n p m 0) as (-> & -> & _).
  - pose proof (staking_run_wf K _ _ _ Hcf Hr) as Hw. split.
    + intros b. destruct (check_cooldowns_amount K n m outs b Hcf Hw IH2) as [H _]. specialize (IH1 b).
      rewrite paid_app in *. lia.
    + apply (check_cooldowns_amount K n m outs 0 Hcf Hw IH2).
  - rewrite <- app_assoc, take_returns_split. split; [apply IH1|apply IH2].
  - rewrite (load_save K) by (done || by eapply staking_run_wf). done.
Qed.
End runs.
