(* ===== verification/MobileReward.v ===== *)
(** * Rewards and withdrawals
    ([crates/n42-node/src/mobile_reward.rs] and [crates/n42-node/src/sinks/mod.rs])

    Attestations are counted per epoch and paid by a logarithmic curve, as
    withdrawals of the blocks that follow; the withdrawals of a block are rewards,
    paid to the stakers of their keys, and returned stakes.  The operations on
    [f64] are the class [F64]; the order of [drain] does not matter, since the
    entries are sorted. *)

From S2P Require Import Prelude Staking.

Class F64 : Type := {
  f64 : Type;
  f64_of_u64 : N -> f64;
  f64_to_u64 : f64 -> N;
  f64_one : f64;
  f64_add : f64 -> f64 -> f64;
  f64_mul : f64 -> f64 -> f64;
  f64_div : f64 -> f64 -> f64;
  f64_ln : f64 -> f64
}.

Definition MAX_REWARD_QUEUE_SIZE : N := 1000000.

Record MobileRewardManager `{F64} : Type := mkMobileRewardManager {
  epoch_attestations : gmap bytes N;
  reward_queue : list Withdrawal;
  last_distribution_block : N;
  blocks_per_epoch : N;
  daily_base_reward_gwei : N;
  curve_k : f64;
  max_rewards_per_block : nat;
  unstaked_reward_ratio : f64
}.

(** Keys in the order of their bytes. *)
Fixpoint bytes_le (a b : bytes) : Prop :=
  match a, b with
  | [], _ => True
  | _ :: _, [] => False
  | x :: a, y :: b => x < y \/ (x = y /\ bytes_le a b)
  end.
#[export] Instance bytes_le_dec a b : Decision (bytes_le a b).
Proof. revert b. induction a as [|x a IH]; intros [|y b]; cbn; apply _. Defined.
Definition entry_le (a b : bytes * N) : Prop := bytes_le a.1 b.1.
#[export] Instance entry_le_dec a b : Decision (entry_le a b) := bytes_le_dec a.1 b.1.

Section rewards.
Context {floats : F64} {keccak : Keccak}.

Definition reward_new (blocks_per_epoch daily_base_reward_gwei : N) (curve_k : f64) (max_per_block : nat)
  (unstaked_reward_ratio : f64) : MobileRewardManager :=
  mkMobileRewardManager _ ∅ [] 0 blocks_per_epoch daily_base_reward_gwei curve_k max_per_block unstaked_reward_ratio.

Definition with_rewards (attestations : gmap bytes N) (queue : list Withdrawal) (last : N)
  (r : MobileRewardManager) : MobileRewardManager :=
  mkMobileRewardManager _ attestations queue last (blocks_per_epoch r) (daily_base_reward_gwei r) (curve_k r)
    (max_rewards_per_block r) (unstaked_reward_ratio r).

Definition record_attestation (pubkey : bytes) (r : MobileRewardManager) : MobileRewardManager :=
  with_rewards (<[pubkey := default 0 (epoch_attestations r !! pubkey) +w 1]> (epoch_attestations r))
    (reward_queue r) (last_distribution_block r) r.

Definition compute_log_reward_inner (attestation_count blocks_per_epoch daily_base_reward_gwei : N) (curve_k : f64) : N :=
  if (attestation_count =? 0) || (blocks_per_epoch =? 0) then 0
  else
    let n := f64_of_u64 (N.min attestation_count blocks_per_epoch) in
    let big_n := f64_of_u64 blocks_per_epoch in
    let numerator := f64_ln (f64_add f64_one (f64_mul curve_k n)) in
    let denominator := f64_ln (f64_add f64_one (f64_mul curve_k big_n)) in
    let ratio := f64_div numerator denominator in
    let reward := f64_mul (f64_of_u64 daily_base_reward_gwei) ratio in
    N.min (f64_to_u64 reward) daily_base_reward_gwei.

(** The reward of one entry of the epoch, if it has one. *)
Definition entry_reward (r : MobileRewardManager) (staked_pubkeys : gset bytes) (entry : bytes * N) : option Withdrawal :=
  let '(pubkey, count) := entry in
  let base_reward_gwei :=
    compute_log_reward_inner count (blocks_per_epoch r) (daily_base_reward_gwei r) (curve_k r) in
  let multiplier := if bool_decide (pubkey ∈ staked_pubkeys) then f64_one else unstaked_reward_ratio r in
  let reward_gwei := f64_to_u64 (f64_mul (f64_of_u64 base_reward_gwei) multiplier) in
  if reward_gwei =? 0 then None
  else
    let address := bls_pubkey_to_address pubkey in
    if address =? 0 then None else Some (mkWithdrawal 0 0 address reward_gwei).

Definition check_epoch_boundary (current_block : N) (staked_pubkeys : gset bytes) (r : MobileRewardManager)
  : MobileRewardManager :=
  if blocks_per_epoch r =? 0 then r
  else
    let current_epoch := current_block / blocks_per_epoch r in
    let last_epoch := last_distribution_block r / blocks_per_epoch r in
    if (current_epoch <=? last_epoch) && (0 <? last_distribution_block r) then r
    else if current_block <? blocks_per_epoch r then r
    else if bool_decide (epoch_attestations r = ∅)
    then with_rewards (epoch_attestations r) (reward_queue r) current_block r
    else if MAX_REWARD_QUEUE_SIZE <=? N.of_nat (length (reward_queue r)) then r
    else
      let entries := merge_sort entry_le (map_to_list (epoch_attestations r)) in
      let remaining_capacity := N.to_nat (MAX_REWARD_QUEUE_SIZE - N.of_nat (length (reward_queue r))) in
      let rewards := omap (entry_reward r staked_pubkeys) (take remaining_capacity entries) in
      with_rewards ∅ (reward_queue r ++ rewards) current_block r.

Definition set_index (base_index : N) (i : nat) (w : Withdrawal) : Withdrawal :=
  mkWithdrawal (base_index +w N.of_nat i) (wd_validator_index w) (wd_address w) (wd_amount w).

Definition take_pending_rewards (block_number : N) (r : MobileRewardManager) : MobileRewardManager * list Withdrawal :=
  let count := Nat.min (length (reward_queue r)) (max_rewards_per_block r) in
  let base_index := block_number *s N.of_nat (max_rewards_per_block r) in
  (with_rewards (epoch_attestations r) (drop count (reward_queue r)) (last_distribution_block r) r,
   imap (set_index base_index) (take count (reward_queue r))).

(** ** The withdrawals of a block *)

Record NodeWithdrawalSource : Type := mkNodeWithdrawalSource {
  ws_reward : option MobileRewardManager;
  ws_staking : option StakingManager
}.

(** [if let Some(addr) = staking.staker_address_by_reward(w.address)] *)
Definition pay_staker (m : StakingManager) (w : Withdrawal) : Withdrawal :=
  match staker_address_by_reward m (wd_address w) with
  | Some addr => mkWithdrawal (wd_index w) (wd_validator_index w) addr (wd_amount w)
  | None => w
  end.

Definition withdrawals_for_block {order : StakeOrder} (next_block_number : N) (src : NodeWithdrawalSource)
  : NodeWithdrawalSource * list Withdrawal :=
  let staked_pubkeys := match ws_staking src with Some m => staked_bls_pubkeys m | None => ∅ end in
  let '(reward, withdrawals) :=
    match ws_reward src with
    | Some r =>
        let '(r, ws) := take_pending_rewards next_block_number (check_epoch_boundary next_block_number staked_pubkeys r) in
        (Some r, ws)
    | None => (None, [])
    end in
  match ws_staking src with
  | Some m =>
      let withdrawals := pay_staker m <$> withdrawals in
      let '(m, returns) := take_pending_returns 8 (check_cooldowns next_block_number m) in
      (mkNodeWithdrawalSource reward (Some m), withdrawals ++ returns)
  | None => (mkNodeWithdrawalSource reward None, withdrawals)
  end.
End rewards.
