(* ===== verification/Withdrawals.v ===== *)
(** * What is returned of stakes

    The staking manager of one node returns no more than was staked; the managers
    of two nodes together return a stake twice. *)

From S2P Require Import Prelude Staking StakingTheory MobileReward.

Section withdrawals.
Context {keccak : Keccak} {text : AddressText} {order : StakeOrder} {codec : PayloadCodec} {floats : F64}.
Context {text_laws : AddressTextLaws text} {order_laws : StakeOrderLaws order}.

(** C38: the staking maps stay in step.  After any committed blocks, cooldowns,
    returns and restarts, as long as no two of the keys in use derive the same reward
    address, a key counts as staked exactly when it is among the staked keys the
    rewards are computed with, a reward address is resolved to the owner of its key,
    an address owns one key and a key one address, and a restart from what was saved
    reads back exactly the same manager, queued returns included. *)
Theorem staking_maps_in_step K m ins outs :
  collision_free K -> staking_run K m ins outs ->
  (forall k, is_staked m k = true <-> k ∈ staked_bls_pubkeys m) /\
  (forall k, K k -> staker_address_by_reward m (bls_pubkey_to_address k) = staker_address m k) /\
  (forall k k' a, staker_address m k = Some a -> staker_address m k' = Some a -> k = k') /\
  (forall a e, stakes m !! a = Some e -> staker_address m (se_bls_pubkey e) = Some a) /\
  (forall a r, registrations m !! a = Some r -> staker_address m (re_bls_pubkey r) = Some a /\ stakes m !! a = None) /\
  load_state (save_state m) = m.
Proof.
  intros Hcf Hrun. pose proof (staking_run_wf K m ins outs Hcf Hrun) as Hw. split_and!.
  - intros k. by apply (is_staked_spec K).
  - intros k Hk. by apply (reward_resolution K).
  - intros k k' a H1%(wf_owner _ _ Hw) H2%(wf_owner _ _ Hw). congruence.
  - intros a e He. apply (wf_owner _ _ Hw). unfold key_of. by rewrite He.
  - intros a r Hr. destruct (wf_registered _ _ Hw _ _ Hr) as [_ Hs]. split; [|done].
    apply (wf_owner _ _ Hw). unfold key_of. by rewrite Hs, Hr.
  - by apply (load_save K).
Qed.

Lemma indexed_nodup ws next : indexed ws next -> 1000000 + N.of_nat (length ws) <= u64_max -> NoDup (wd_index <$> ws).
Proof.
  intros Hi Hle. destruct (Hi Hle) as [_ ->]. apply (NoDup_fmap_2_strong _ _); [|apply NoDup_seq]. intros x y _ _ ?. lia.
Qed.

(** C39: no more is returned than was staked.  In any run of the manager of a node,
    what it gave out for an address, what it still owes it and what is staked under it
    together are at most what that address sent to the staking address, in wei; and
    the withdrawals it gave out have different indices, as long as the 64-bit counter
    does not wrap.  The restarts of a run ([staking_run]) load what the manager last
    was; the source writes its file after a commit only ([state_mgmt.rs]), so that a
    process that dies after handing out returns and before the next commit starts from
    an older file, which is not such a run. *)
Theorem returns_within_deposits K m ins outs :
  collision_free K -> staking_run K m ins outs ->
  (forall a, staked_amount m a + 1000000000 * (paid a outs + paid a (pending_returns m)) <= deposited a ins) /\
  (1000000 + N.of_nat (length (outs ++ pending_returns m)) <= u64_max -> NoDup (wd_index <$> outs)).
Proof.
  intros Hcf Hrun. destruct (staking_run_amount K m ins outs Hcf Hrun) as [H1 H2]. split.
  - intros a. specialize (H1 a). by rewrite paid_app in H1.
  - intros Hle. apply (indexed_nodup _ _ H2) in Hle. rewrite fmap_app in Hle. by apply NoDup_app in Hle as [? _].
Qed.

(** ** Two nodes *)

Definition matured (n : N) (m : StakingManager) : list Address :=
  (filter (fun item => is_matured n item.2 = true) (iter_stakes (stakes m))).*1.

Lemma returns_queued l m :
  NoDup l -> exists ws, pending_returns (foldl (fun m addr => return_stake addr m) m l) = pending_returns m ++ ws /\
    (length ws <= length l)%nat /\
    forall a e, a ∈ l -> stakes m !! a = Some e -> exists w, w ∈ ws /\ wd_address w = se_staker e /\ wd_amount w = gwei_of e.
Proof.
  intros Hl. revert m. induction Hl as [|a0 l Ha0 _ IH]; intros m.
  { exists []. rewrite app_nil_r. split_and!; [done..|]. by intros a e []%elem_of_nil. }
  cbn [foldl]. destruct (IH (return_stake a0 m)) as (ws & E & Hlen & Hin). unfold return_stake in E, Hin.
  destruct (stakes m !! a0) as [e0|] eqn:E0.
  - exists (mkWithdrawal (next_withdrawal_index m) 0 (se_staker e0) (gwei_of e0) :: ws). split_and!.
    + unfold return_stake. rewrite E0, E. cbn. by rewrite <- app_assoc.
    + cbn. lia.
    + intros a e [->|Ha]%elem_of_cons He.
      * eexists. split; [by left|]. rewrite E0 in He. by injection He as <-.
      * destruct (Hin a e Ha) as (w & Hw & ?); [cbn; rewrite lookup_delete_ne; [done|by intros ->]|].
        exists w. split; [by right|done].
  - exists ws. split_and!.
    + unfold return_stake. by rewrite E0.
    + cbn. lia.
    + intros a e [->|Ha]%elem_of_cons He; [congruence|eauto].
Qed.

Lemma matured_nodup n m : NoDup (matured n m).
Proof using order_laws.
  unfold matured. rewrite iter_stakes_perm. apply (NoDup_fmap_2_strong _ _); [|apply NoDup_filter, NoDup_map_to_list].
  intros [a e] [a' e'] [_ H1%elem_of_map_to_list]%list_elem_of_filter [_ H2%elem_of_map_to_list]%list_elem_of_filter E.
  cbn in E. subst a'. congruence.
Qed.

Lemma matured_elem n m a e : stakes m !! a = Some e -> is_matured n e = true -> a ∈ matured n m.
Proof using order_laws.
  intros He Hm. unfold matured. apply list_elem_of_fmap. exists (a, e). split; [done|]. apply list_elem_of_filter.
  split; [done|]. rewrite iter_stakes_perm. by apply elem_of_map_to_list.
Qed.

(** A node that leads after a stake has matured returns it. *)
Lemma leader_returns r m n a e :
  stakes m !! a = Some e -> is_matured n e = true -> pending_returns m = [] -> (length (matured n m) <= 8)%nat ->
  exists w, w ∈ (withdrawals_for_block n (mkNodeWithdrawalSource r (Some m))).2 /\
    wd_address w = se_staker e /\ wd_amount w = gwei_of e.
Proof using order_laws.
  intros He Hm Hp Hlen. destruct (returns_queued (matured n m) m (matured_nodup n m)) as (ws & E & Hws & Hin).
  destruct (Hin a e) as (w & Hw & Ha & Hg); [by eapply matured_elem|done|]. exists w. split; [|done].
  unfold withdrawals_for_block. cbn [ws_staking ws_reward]. destruct (match r with Some _ => _ | None => _ end).
  cbn [take_pending_returns snd]. apply elem_of_app. right. unfold check_cooldowns. fold (matured n m).
  rewrite E, Hp. cbn [app]. rewrite take_ge; [done|]. lia.
Qed.

(** C40: a matured stake is returned by every node that leads.  Two nodes have the same
    staking manager, having scanned the same blocks; a stake has matured.  The leader
    of block [n] pays it back in the withdrawals of that block.  The block is committed
    and scanned, which reads its transactions only; when the other node leads block
    [n + 1], it pays the same amount to the same address again. *)
Theorem matured_stake_returned_twice (r r' : option MobileRewardManager) m n a e payload_json :
  stakes m !! a = Some e -> is_matured n e = true -> pending_returns m = [] ->
  (length (matured (n + 1) m) <= 8)%nat -> scan_txs payload_json = [] ->
  exists w w',
    w ∈ (withdrawals_for_block n (mkNodeWithdrawalSource r (Some m))).2 /\
    w' ∈ (withdrawals_for_block (n + 1)
            (mkNodeWithdrawalSource r' (Some (scan_committed_block n payload_json m)))).2 /\
    wd_address w = se_staker e /\ wd_address w' = se_staker e /\
    wd_amount w = gwei_of e /\ wd_amount w' = gwei_of e.
Proof.
  intros He Hm Hp Hlen Hscan.
  assert (Hmono : forall e', is_matured n e' = true -> is_matured (n + 1) e' = true).
  { intros e'. unfold is_matured. destruct (se_status e'); [done|]. rewrite !N.leb_le. lia. }
  assert (Hlen' : (length (matured n m) <= 8)%nat).
  { etrans; [|exact Hlen]. apply submseteq_length, NoDup_submseteq; [apply matured_nodup|].
    intros b ([b' e'] & -> & [Hb Hin]%list_elem_of_filter)%list_elem_of_fmap.
    eapply matured_elem; [|by apply Hmono]. apply elem_of_map_to_list. by rewrite <- iter_stakes_perm. }
  destruct (leader_returns r m n a e He Hm Hp Hlen') as (w & Hw & Hwa & Hwg).
  rewrite scan_as_txs, Hscan. cbn [foldl].
  destruct (leader_returns r' (set_scanned n m) (n + 1) a e He (Hmono _ Hm) Hp Hlen) as (w' & Hw' & Hwa' & Hwg').
  exists w, w'. done.
Qed.

(** ** Rewards *)

Lemma omap_length_le {A B} (f : A -> option B) (l : list A) : (length (omap f l) <= length l)%nat.
Proof. induction l as [|x l IH]; [done|]. cbn. destruct (f x); cbn; lia. Qed.

(** The queue of rewards never grows beyond its bound. *)
Lemma reward_queue_bounded n staked r :
  N.of_nat (length (reward_queue r)) <= MAX_REWARD_QUEUE_SIZE ->
  N.of_nat (length (reward_queue (check_epoch_boundary n staked r))) <= MAX_REWARD_QUEUE_SIZE.
Proof.
  intros Hr. unfold check_epoch_boundary. repeat (case_match || case_bool_decide); try done. cbn zeta. cbn [reward_queue with_rewards].
  rewrite length_app. bool_simpl.
  match goal with |- context [length (omap ?f ?l)] => pose proof (omap_length_le f l) as H' end.
  rewrite length_take in H'. lia.
Qed.

(** No reward is more than the base reward of a day. *)
Lemma log_reward_bounded count blocks base k : compute_log_reward_inner count blocks base k <= base.
Proof. unfold compute_log_reward_inner. destruct (_ || _); [lia|]. apply N.le_min_r. Qed.
End withdrawals.
