(* ===== verification/StakingWitnesses.v ===== *)
(** * Staking, evaluated

    Concrete decoders and one staker that stakes, unstakes and gets the stake back. *)

From S2P Require Import Prelude Staking StakingTheory MobileReward Withdrawals.

#[local] Instance padded_keccak : Keccak := { keccak256 k := replicate 12 0 ++ k }.
#[local] Instance sorted_order : StakeOrder := { iter_stakes := map_to_list }.
#[local] Instance sorted_order_laws : StakeOrderLaws sorted_order.
Proof. by split. Qed.
#[local] Instance one_word_text : AddressText := {
  format_address a := [a];
  parse_address t := match t with [a] => Some a | _ => None end }.
#[local] Instance one_word_text_laws : AddressTextLaws one_word_text.
Proof. by split. Qed.

(** A payload is the marker and one transaction: sender, value and input. *)
#[local] Instance plain_codec : PayloadCodec := {
  json_from_slice payload := Some (JObject [(TRANSACTIONS, JArray [JString (drop 42 payload)])]);
  hex_decode s := Some s;
  rlp_decode tx := match tx with _ :: value :: input => Some (Legacy (KCall STAKING_ADDRESS) value input) | _ => None end;
  recover_signer _ tx := head tx }.

Definition payload_of (sender value : N) (input : bytes) : bytes := STAKING_TARGET_RLP_HEX ++ sender :: value :: input.
Definition key1 : bytes := replicate 47 0 ++ [1].
Definition keys1 (k : bytes) : Prop := k = key1 \/ k = UNSTAKE_SELECTOR.

Definition staked1 : StakingManager := scan_committed_block 10 (payload_of 7 MIN_STAKE_WEI key1) staking_new.
Definition unstaking1 : StakingManager := scan_committed_block 20 (payload_of 7 0 UNSTAKE_SELECTOR) staked1.
Definition returned1 : StakingManager := (take_pending_returns 8 (check_cooldowns 21620 unstaking1)).1.
Definition paid1 : list Withdrawal := (take_pending_returns 8 (check_cooldowns 21620 unstaking1)).2.
Definition deposits1 : list (Address * N) := [(7, MIN_STAKE_WEI); (7, 0)].

Lemma keys1_free : collision_free keys1.
Proof. intros k k' [->| ->] [->| ->]; by vm_compute. Qed.

Lemma unstaking1_run : staking_run keys1 unstaking1 deposits1 [].
Proof.
  change deposits1 with (([] ++ payload_deposits (payload_of 7 MIN_STAKE_WEI key1)) ++
    payload_deposits (payload_of 7 0 UNSTAKE_SELECTOR)).
  apply run_scan; [apply run_scan; [apply run_new|]|]; (constructor; [|constructor]); [by left|by right].
Qed.

Lemma returned1_run : staking_run keys1 returned1 deposits1 paid1.
Proof. apply (run_take keys1 8 _ _ []), run_cooldowns, unstaking1_run. Qed.

Lemma staking_maps_in_step_witness :
  (forall k, is_staked unstaking1 k = true <-> k ∈ staked_bls_pubkeys unstaking1) /\
  (forall k, keys1 k -> staker_address_by_reward unstaking1 (bls_pubkey_to_address k) = staker_address unstaking1 k) /\
  (forall k k' a, staker_address unstaking1 k = Some a -> staker_address unstaking1 k' = Some a -> k = k') /\
  (forall a e, stakes unstaking1 !! a = Some e -> staker_address unstaking1 (se_bls_pubkey e) = Some a) /\
  (forall a r, registrations unstaking1 !! a = Some r ->
     staker_address unstaking1 (re_bls_pubkey r) = Some a /\ stakes unstaking1 !! a = None) /\
  load_state (save_state unstaking1) = unstaking1.
Proof. apply (staking_maps_in_step keys1 unstaking1 deposits1 []); [apply keys1_free|apply unstaking1_run]. Defined.

Lemma returns_within_deposits_witness :
  (forall a, staked_amount returned1 a + 1000000000 * (paid a paid1 + paid a (pending_returns returned1)) <= deposited a deposits1) /\
  (1000000 + N.of_nat (length (paid1 ++ pending_returns returned1)) <= u64_max -> NoDup (wd_index <$> paid1)).
Proof. apply (returns_within_deposits keys1 returned1 deposits1 paid1); [apply keys1_free|apply returned1_run]. Defined.

(** The stake is paid back in full, in gwei. *)
Example paid1_all : paid1 = [mkWithdrawal 1000000 0 7 32000000000].
Proof. vm_compute. reflexivity. Qed.

(** ** Two leaders *)

#[local] Instance no_floats : F64 := {
  f64 := N; f64_of_u64 n := n; f64_to_u64 n := n; f64_one := 1; f64_add := N.add; f64_mul := N.mul; f64_div := N.div;
  f64_ln n := n }.

Definition entry1 : StakeEntry := mkStakeEntry 7 key1 MIN_STAKE_WEI 10 (Unstaking 20).

Lemma matured_stake_returned_twice_witness :
  exists w w',
    w ∈ (withdrawals_for_block 21620 (mkNodeWithdrawalSource None (Some unstaking1))).2 /\
    w' ∈ (withdrawals_for_block 21621 (mkNodeWithdrawalSource None (Some (scan_committed_block 21620 [] unstaking1)))).2 /\
    wd_address w = 7 /\ wd_address w' = 7 /\ wd_amount w = 32000000000 /\ wd_amount w' = 32000000000.
Proof.
  apply (matured_stake_returned_twice None None unstaking1 21620 7 entry1 []).
  - vm_compute. reflexivity.
  - vm_compute. reflexivity.
  - vm_compute. reflexivity.
  - vm_compute. lia.
  - vm_compute. reflexivity.
Defined.

(** A reward and a returned stake of one block with the same index: at 32 rewards a
    block, rewards of block 31250 are numbered from 1000000, as returned stakes are. *)
Definition rewards1 : MobileRewardManager := record_attestation key1 (reward_new 1 5 1 32 1).
Example withdrawal_indices_collide :
  wd_index <$> (withdrawals_for_block 31250 (mkNodeWithdrawalSource (Some rewards1) (Some unstaking1))).2 =
  [1000000; 1000000].
Proof. vm_compute. reflexivity. Qed.
