(* ===== verification/Witnesses.v ===== *)
(** * Instances of the theorems

    Each theorem with hypotheses, applied to concrete data: the committee of
    [Scenario] for the engine, small inputs elsewhere. *)

From S2P Require Import Prelude Effects Crypto Messages Signing ValidatorSet Epoch EpochTheory.
From S2P Require Import Quorum QuorumTheory Fifo Pacemaker Round VoteLog Engine Authentication.
From S2P Require Import Handlers Machine Refinement Caches HandlerSteps Termination Node Scenario.
From S2P Require Import Rules Progress Agreement Safety.

Import Scenario LinearBlst.

(** ** Agreement *)

Definition one_byzantine : list bool := [false; false; false; true].
Definition base_trace (i : nat) : list SignedFact := signed (base (N.of_nat i)).

Lemma reachable_base (i : nat) : (i < 4)%nat -> reachable (base (N.of_nat i)).
Proof.
  intros Hi. destruct i as [|[|[|[|i]]]]; [| | | |lia].
  - exact reachable_base0.
  - exact reachable_base1.
  - exact reachable_base2.
  - exact reachable_base3.
Qed.

Lemma committee_wf : set_wf committee.
Proof. constructor; [vm_compute; discriminate|]. repeat constructor. Qed.

Lemma base_committee_run : committee_run (L := FileVoteLog) committee one_byzantine base_trace.
Proof.
  constructor; [exact committee_wf|vm_compute; discriminate|discriminate|reflexivity| |].
  - vm_compute. lia.
  - intros i Hi. exists (base (N.of_nat i)). split; [|reflexivity].
    apply reachable_base. apply lookup_lt_Some in Hi. exact Hi.
Qed.

(** The CommitQC the leader built from validators 0, 1 and 2, and the one that
    validators 1, 2 and 3 could build. *)
Definition first_qc (m : list ConsensusMessage) : QuorumCertificate :=
  match m with
  | [MDecide d] => d_commit_qc d
  | [MPrepareQC q] => pqc_qc q
  | _ => genesis
  end.
Definition qc_of (message : bytes) : QuorumCertificate :=
  mkQC 1 block1 (sum ((fun i => sign (secret i) message) <$> [1; 2; 3])) [false; true; true; true].
Definition commit_qc_b : QuorumCertificate := qc_of (commit_message Native 1 block1 0).
Definition prepare_qc_b : QuorumCertificate := qc_of (vote_message Native 1 block1).

Lemma base_attested f signers :
  fact_wf f -> (forall i : nat, (i < 4)%nat -> bool_decide (f ∈ base_trace i) = true) ->
  length signers = 4%nat ->
  attested Native one_byzantine base_trace signers (fact_message Native f).
Proof.
  intros Hw Ht Hl i Hs _. exists f. split_and!; [|done|done].
  apply lookup_lt_Some in Hs. rewrite Hl in Hs. specialize (Ht i Hs).
  by apply bool_decide_eq_true_1 in Ht.
Qed.

Ltac check_traces :=
  let i := fresh in let Hi := fresh in
  intros i Hi; destruct i as [|[|[|[|i]]]]; [vm_compute; reflexivity..|lia].

Lemma commit_agreement_witness :
  qc_block_hash (first_qc decide1) = qc_block_hash commit_qc_b /\ (Native = Native -> 0 = 0).
Proof.
  apply (commit_agreement (L := FileVoteLog) Native committee one_byzantine base_trace
    (first_qc decide1) commit_qc_b 0 0).
  - exact base_committee_run.
  - vm_compute. reflexivity.
  - split_and!; vm_compute; reflexivity.
  - split_and!; vm_compute; reflexivity.
  - vm_compute. reflexivity.
  - vm_compute. reflexivity.
  - apply (base_attested (SCommit 1 block1 0)); [split_and!; vm_compute; reflexivity|check_traces|].
    vm_compute. reflexivity.
  - apply (base_attested (SCommit 1 block1 0)); [split_and!; vm_compute; reflexivity|check_traces|].
    vm_compute. reflexivity.
Defined.

Lemma prepare_agreement_witness :
  qc_block_hash (first_qc prepare1) = qc_block_hash prepare_qc_b.
Proof.
  apply (prepare_agreement (L := FileVoteLog) Native committee one_byzantine base_trace
    (first_qc prepare1) prepare_qc_b).
  - discriminate.
  - exact base_committee_run.
  - vm_compute. reflexivity.
  - split_and!; vm_compute; reflexivity.
  - split_and!; vm_compute; reflexivity.
  - vm_compute. reflexivity.
  - vm_compute. reflexivity.
  - apply (base_attested (SVote 1 block1)); [split_and!; vm_compute; reflexivity|check_traces|].
    vm_compute. reflexivity.
  - apply (base_attested (SVote 1 block1)); [split_and!; vm_compute; reflexivity|check_traces|].
    vm_compute. reflexivity.
Defined.

(** ** The life of a validator *)

Lemma one_vote_per_view_witness :
  NoDup (vote_views (signed (late_voted 0))) /\ NoDup (commit_views (signed (late_voted 0))).
Proof. exact (one_vote_per_view (late_voted 0) reachable_late_voted0). Defined.

Lemma signed_votes_durable_witness :
  (forall v, v ∈ vote_views (signed (late_voted 0)) ->
     v <= (last_vote_views (vote_log (late_voted 0))).1) /\
  (forall v, v ∈ commit_views (signed (late_voted 0)) ->
     v <= (last_vote_views (vote_log (late_voted 0))).2 /\
     v <= lock_view (durable_lock (vote_log (late_voted 0))) /\
     v <= qc_view (locked_qc (round_state (late_voted 0)))).
Proof. exact (signed_votes_durable (late_voted 0) reachable_late_voted0). Defined.

Definition first_proposal : Proposal :=
  match proposal1 with
  | [MProposal p] => p
  | _ => mkProposal 0 0 genesis 0 0 None None None
  end.

Lemma proposal_vote_rule_witness :
  exists new, signed (process_proposal first_proposal (idle 0)).1 = signed (idle 0) ++ new /\
    forall f, f ∈ new ->
      f = SVote (engine_view (idle 0)) (p_block_hash first_proposal) /\
      proposal_accepted (idle 0) first_proposal /\
      forall v, v ∈ commit_views (signed (idle 0)) -> v <= qc_view (p_justify_qc first_proposal).
Proof. exact (proposal_vote_rule (idle 0) first_proposal (reachable_idle 0)). Defined.

Lemma process_event_terminates_witness :
  process_event_body (dispatch_message 5) (BlockReady block1 None) (idle 1) =
    process_event (BlockReady block1 None) (idle 1) /\
  (process_event (BlockReady block1 None) (idle 1)).2 ≠ OutOfFuel.
Proof.
  apply (process_event_terminates (idle 1) (BlockReady block1 None) 5);
    [exact (reachable_idle 1)|exact I|cbn; lia].
Defined.

Lemma process_event_monotone_witness :
  round_le (round_state (idle 1))
    (round_state (process_event (BlockReady block1 None) (idle 1)).1) /\
  signed (idle 1) `prefix_of` signed (process_event (BlockReady block1 None) (idle 1)).1 /\
  outputs (idle 1) `prefix_of` outputs (process_event (BlockReady block1 None) (idle 1)).1.
Proof.
  exact (process_event_monotone (idle 1) (BlockReady block1 None) (reachable_idle 1) I).
Defined.

Lemma outputs_backed_witness :
  Forall (output_signed (signed (base 1))) (outputs (base 1)) /\
  Forall (output_committed (round_state (base 1))) (outputs (base 1)).
Proof. exact (outputs_backed (base 1) reachable_base1). Defined.

Definition first_decide : Decide :=
  match decide1 with [MDecide d] => d | _ => mkDecide 0 0 genesis 0 end.

Lemma decide_spec_witness :
  let '(e', r) := process_event (Message (MDecide first_decide)) (idle 3) in
  (d_view first_decide < engine_view (idle 3) -> e' = idle 3 /\ r = Ok tt) /\
  (engine_view (idle 3) <= d_view first_decide -> ~ decide_valid (idle 3) first_decide ->
     e' = idle 3 /\ exists err, r = Err err) /\
  (engine_view (idle 3) <= d_view first_decide -> r = Ok tt ->
     decide_valid (idle 3) first_decide /\ decided first_decide e').
Proof. exact (decide_spec (idle 3) first_decide (reachable_idle 3)). Defined.

Definition first_new_view : NewView :=
  match new_view3 with [MNewView nv] => nv | _ => mkNewView 0 (mkTC 0 0 [] genesis) 0 0 end.

Lemma new_view_needs_certificate_witness :
  engine_view (timed_out 0) < nv_view first_new_view /\
  new_view_valid (timed_out 0) first_new_view.
Proof.
  apply (new_view_needs_certificate (timed_out 0) first_new_view).
  intros E. apply (f_equal engine_view) in E. vm_compute in E. discriminate E.
Defined.

Definition second_proposal : ConsensusMessage :=
  match proposal2 with [m] => m | _ => MProposal first_proposal end.
Definition second_qc : QuorumCertificate :=
  default genesis (extract_qc_from_message second_proposal).
Abbreviation idle_dispatch := (dispatch_message (replay_fuel (idle 0))).
Abbreviation jump_from_idle := (try_qc_view_jump idle_dispatch second_proposal (idle 0)).


Lemma caches_bounded_witness :
  (length (future_msg_buffer (base 1)) <= MAX_FUTURE_MESSAGES)%nat /\
  (length (imported_block_fifo (base 1)) <= MAX_IMPORTED_BLOCKS)%nat /\
  (forall h, h ∈ imported_blocks (base 1) <-> h ∈ imported_block_fifo (base 1)) /\
  (size (bf_map (pending_changes_hashes (base 1))) <= 64)%nat /\
  (size (bf_map (pending_tx_roots (base 1))) <= 64)%nat /\
  (forall v c, future_timeout_collectors (base 1) !! v = Some c ->
     engine_view (base 1) < v /\ v <= engine_view (base 1) +s FUTURE_VIEW_WINDOW).
Proof. exact (caches_bounded (base 1) reachable_base1). Defined.

(** ** Certificates *)

Definition votes_of (voters : list N) (message : bytes) : VoteCollector :=
  foldl (fun c i => (add_verified_vote i (profile_sign Native (secret i) message) c).1)
    (VoteCollector_new 1 block1 (len committee)) voters.

Lemma votes_of_verified voters message :
  forallb (fun i => i <? 4) voters = true ->
  votes_verified committee Native message (votes_of voters message).
Proof.
  unfold votes_of. assert (H0 : votes_verified committee Native message
    (VoteCollector_new 1 block1 (len committee))) by (intros i sig; cbn; by rewrite lookup_empty).
  revert H0. generalize (VoteCollector_new 1 block1 (len committee)).
  induction voters as [|i voters IH]; intros c Hc Hv; [done|]. cbn [forallb foldl] in *.
  apply andb_true_iff in Hv as [Hi%N.ltb_lt Hv]. apply IH; [|done].
  apply add_verified_vote_sound; [done|]. split; [exact Hi|]. cbn [fst snd].
  apply verify_single_spec. assert (i = 0 \/ i = 1 \/ i = 2 \/ i = 3) as Hc4 by lia.
  destruct Hc4 as [->|[->|[->| ->]]]; [change (key_of committee 0) with (public_key (secret 0))
    |change (key_of committee 1) with (public_key (secret 1))
    |change (key_of committee 2) with (public_key (secret 2))
    |change (key_of committee 3) with (public_key (secret 3))]; apply verify_single_signed.
Qed.

Definition block1_votes (message : bytes) : VoteCollector := votes_of [0; 1; 3] message.

Lemma block1_votes_verified message : votes_verified committee Native message (block1_votes message).
Proof. by apply votes_of_verified. Qed.

Definition view1_timeouts : TimeoutCollector :=
  foldl (fun c i => (add_verified_timeout i
      (profile_sign Native (secret i) (timeout_message Native 1))
      (if i =? 1 then first_qc prepare1 else genesis) c).1)
    (TimeoutCollector_new 1 (len committee)) [0; 1; 3].

Lemma view1_timeouts_verified : timeouts_verified committee Native view1_timeouts.
Proof.
  unfold view1_timeouts, foldl.
  assert (Hsig : forall i (q : QuorumCertificate), i ∈ [0; 1; 3] ->
    entry_valid committee Native (timeout_message Native 1)
      (i, (profile_sign Native (secret i) (timeout_message Native 1), q))).
  { intros i q Hi. repeat (apply elem_of_cons in Hi as [->|Hi]); [..|by apply not_elem_of_nil in Hi];
      (split; vm_compute; reflexivity). }
  do 3 (apply add_verified_timeout_sound; [|apply Hsig; set_solver]).
  intros i x. cbn. by rewrite lookup_empty.
Qed.

(** The entries of the hash maps in the reverse order. *)
Lemma built_certificates_accepted_witness :
  let votes := block1_votes (vote_message Native 1 block1) in
  (exists qc, build_qc_from votes committee (vote_message Native 1 block1) Native
      (reverse (vote_entries votes)) = Ok qc /\
    qc_view qc = 1 /\ qc_block_hash qc = block1 /\ names (qc_signers qc) (vc_votes votes) /\
    verify_qc_with_profile qc committee Native = Ok tt) /\
  (exists tc, build_tc_from view1_timeouts committee Native (reverse (timeout_entries view1_timeouts))
      = Ok tc /\
    tc_view tc = tcl_view view1_timeouts /\ names (tc_signers tc) (tcl_timeouts view1_timeouts) /\
    verify_tc_with_profile tc committee Native = Ok tt).
Proof.
  destruct (built_certificates_accepted (block1_votes (vote_message Native 1 block1)) view1_timeouts
    committee Native 0 (reverse (vote_entries (block1_votes (vote_message Native 1 block1))))
    (reverse (timeout_entries view1_timeouts)) committee_wf) as (Hqc & _ & Htc).
  - apply Nat.ltb_lt. vm_compute. reflexivity.
  - reflexivity.
  - apply Nat.leb_le. vm_compute. reflexivity.
  - reflexivity.
  - apply Nat.leb_le. vm_compute. reflexivity.
  - apply reverse_Permutation.
  - apply reverse_Permutation.
  - split; [apply Hqc, block1_votes_verified|].
    destruct (Htc view1_timeouts_verified) as (tc & H1 & H2 & H3 & H4 & _). eauto.
Defined.

(** The leader of view 1 before the third vote, and before the third commit
    vote. *)
Definition leader_waiting : engine := receive_all (sent is_vote (voted 0)) leader_proposed.
Definition third_vote : Vote :=
  match sent is_vote (voted 2) with [MVote v] => v | _ => mkVote 0 0 0 0 end.
Definition leader_committing : engine :=
  receive_all (sent is_commit_vote (commit_voted 0)) leader_prepared.
Definition third_commit_vote : CommitVote :=
  match sent is_commit_vote (commit_voted 2) with [MCommitVote v] => v | _ => mkCommitVote 0 0 0 0 end.

Lemma third_vote_last :
  last_vote leader_waiting (votes_of [1; 0] (vote_message Native 1 block1))
    (vote_message (signing_profile leader_waiting) (engine_view leader_waiting)
       (v_block_hash third_vote))
    (equivocation_tracker leader_waiting) (v_view third_vote) (v_voter third_vote)
    (v_block_hash third_vote) (v_signature third_vote).
Proof.
  assert (Es : engine_set_for_view leader_waiting (engine_view leader_waiting) = committee)
    by (vm_compute; reflexivity).
  constructor; rewrite ?Es; try (vm_compute; reflexivity).
  - exists 1. split; vm_compute; reflexivity.
  - exact committee_wf.
  - replace (vote_message _ _ _) with (vote_message Native 1 block1) by (vm_compute; reflexivity).
    replace (signing_profile _) with Native by (vm_compute; reflexivity). by apply votes_of_verified.
  - split; [apply Nat.ltb_lt|apply Nat.leb_le]; vm_compute; reflexivity.
  - intros h Hh. vm_compute in Hh. discriminate Hh.
Qed.

Lemma third_commit_vote_last :
  last_vote leader_committing (votes_of [1; 0] (commit_message Native 1 block1 B256_ZERO))
    (commit_message (signing_profile leader_committing) (engine_view leader_committing)
       (cv_block_hash third_commit_vote) B256_ZERO)
    (commit_equivocation_tracker leader_committing) (cv_view third_commit_vote)
    (cv_voter third_commit_vote) (cv_block_hash third_commit_vote) (cv_signature third_commit_vote).
Proof.
  assert (Es : engine_set_for_view leader_committing (engine_view leader_committing) = committee)
    by (vm_compute; reflexivity).
  constructor; rewrite ?Es; try (vm_compute; reflexivity).
  - exists 1. split; vm_compute; reflexivity.
  - exact committee_wf.
  - replace (commit_message _ _ _ _) with (commit_message Native 1 block1 B256_ZERO)
      by (vm_compute; reflexivity).
    replace (signing_profile _) with Native by (vm_compute; reflexivity). by apply votes_of_verified.
  - split; [apply Nat.ltb_lt|apply Nat.leb_le]; vm_compute; reflexivity.
  - intros h Hh. vm_compute in Hh. discriminate Hh.
Qed.

Lemma calm (e : engine) : world e = world (idle 0) <| w_step := w_step (world e) |>
    <| w_outputs := w_outputs (world e) |> <| w_signed := w_signed (world e) |> ->
  channel_open e.
Proof. intros E k. by rewrite E. Qed.

Lemma quorum_vote_completes_witness :
  (exists qc, verify_qc_with_profile qc committee Native = Ok tt /\
    BroadcastMessage (MPrepareQC (mkPrepareQC 1 block1 qc))
      ∈ outputs (process_event (Message (MVote third_vote)) leader_waiting).1) /\
  (exists qc, verify_commit_qc_with_profile qc committee B256_ZERO Native = Ok tt /\
    BlockCommitted 1 block1 qc None
      ∈ outputs (process_event (Message (MCommitVote third_commit_vote)) leader_committing).1).
Proof.
  split.
  - destruct (quorum_vote_completes leader_waiting (votes_of [1; 0] (vote_message Native 1 block1))
      third_vote third_commit_vote) as [Hv _]; [run_reachable|by apply calm; vm_compute|].
    destruct Hv as (qc & H1 & _ & H2); [vm_compute; reflexivity..|exact third_vote_last|].
    exists qc. split; [exact H1|exact H2].
  - destruct (quorum_vote_completes leader_committing
      (votes_of [1; 0] (commit_message Native 1 block1 B256_ZERO)) third_vote third_commit_vote)
      as [_ Hv]; [run_reachable|by apply calm; vm_compute|].
    destruct Hv as (qc & H1 & _ & _ & H2); [vm_compute; reflexivity..|exact third_commit_vote_last|].
    exists qc. split; [exact H1|exact H2].
Defined.

Lemma idle_epoch_wf i : epoch_wf (epoch_manager (idle i)).
Proof. apply epoch_new_wf, committee_wf. Qed.

(** A good vote, a vote with the signature of another validator, a proposal. *)
Definition mixed_batch : list ConsensusMessage :=
  sent is_vote (voted 0) ++
  [MVote (mkVote 1 block1 2 (sign (secret 3) (vote_message Native 1 block1)));
   MTimeout (mkTimeoutMessage 1 genesis 2 0)].

Lemma authenticate_vote_batch_exact_witness :
  authenticate_vote_batch (idle 1) mixed_batch = authenticate_vote (idle 1) <$> mixed_batch.
Proof.
  rewrite (authenticate_vote_batch_exact (idle 1) mixed_batch).
  - rewrite decide_True; [reflexivity|]. apply Nat.leb_le. vm_compute. reflexivity.
  - intros v. apply resolved_wf, idle_epoch_wf.
Defined.

Lemma signing_domains_separate_witness :
  same_fact Native (SVote 3 block1) (SVote 3 block1).
Proof.
  apply (signing_domains_separate Native (SVote 3 block1) (SVote 3 block1)).
  - discriminate.
  - split; vm_compute; reflexivity.
  - split; vm_compute; reflexivity.
  - reflexivity.
Defined.

(** ** Epochs *)

Definition epochs10 : EpochManager := with_epoch_length committee 10.

Lemma epochs10_wf : epoch_wf epochs10.
Proof. apply fresh_epoch_wf; [exact committee_wf|apply clamp_bounds]. Qed.

Lemma epoch_operations_keep_wf_witness :
  (forall info, epoch_wf (propose_add_validator info epochs10).1) /\
  (forall addr, epoch_wf (propose_remove_validator addr epochs10).1) /\
  (forall changes, epoch_wf (replace_pending_from_proposal changes epochs10)) /\
  epoch_wf (commit_pending_changes epochs10).1 /\
  (forall infos f, epoch_wf (stage_next_epoch infos f epochs10).1) /\
  (current_epoch epochs10 < u64_max ->
   epoch_wf (advance_epoch epochs10).1 /\ epoch_wf (carry_epoch_forward epochs10).1).
Proof. exact (epoch_operations_keep_wf epochs10 epochs10_wf). Defined.

Lemma epoch_change_keeps_known_sets_witness :
  known_validator_set_for_view
    (if has_staged_next epochs10 then (advance_epoch epochs10).1
     else (carry_epoch_forward epochs10).1) 7 = Some committee.
Proof.
  apply (epoch_change_keeps_known_sets epochs10 7 committee epochs10_wf).
  - discriminate.
  - vm_compute. reflexivity.
  - left. vm_compute. reflexivity.
  - reflexivity.
Defined.

Definition fifth : ValidatorInfo := mkValidatorInfo 2000 (public_key 555) None.
Definition epochs10_pending : EpochManager := (propose_add_validator fifth epochs10).1.

Lemma commit_pending_spec_witness :
  match commit_pending_changes epochs10_pending with
  | (m', Ok _) =>
      (MIN_VALIDATOR_COUNT <= length (next_validators epochs10_pending))%nat /\
      (quorum_size (current_set epochs10_pending) <=
         overlap_count (current_set epochs10_pending)
           (address_set (next_validators epochs10_pending)))%nat /\
      StronglySorted addr_lt (next_validators epochs10_pending) /\
      (forall a, a ∈ vi_address <$> next_validators epochs10_pending <->
         (a ∈ ve_address <$> validators (current_set epochs10_pending) /\
            a ∉ pending_removes epochs10_pending) \/
         a ∈ vi_address <$> pending_adds epochs10_pending) /\
      exists s, try_new (next_validators epochs10_pending)
          (max_fault_tolerance_for_len (length (next_validators epochs10_pending))) = Ok s /\
        next_set m' = Some s /\ current_set m' = current_set epochs10_pending /\
        has_pending_changes m' = false
  | (m', _) => m' = epochs10_pending
  end.
Proof. apply (commit_pending_spec epochs10_pending). vm_compute. reflexivity. Defined.

Lemma leaders_rotate_witness :
  (forall view, exists l, leader_for_view view committee = Some l /\ l < len committee) /\
  exists k, (k < len committee /\ leader_for_view (7 + k) committee = Some 2) /\
    forall k', k' < len committee -> leader_for_view (7 + k') committee = Some 2 -> k' = k.
Proof. apply (leaders_rotate committee 7 2); [discriminate|vm_compute; reflexivity]. Defined.

(** ** Pacemaker and vote log *)

Lemma vote_log_survives_crash_witness :
  (let '(l', r) := record_vote 7 fresh_log in
   exists x, reopened l' = Some (x, (file_views fresh_log).2) /\
     recorded (file_views fresh_log).1 7 x r) /\
  (let '(l', r) := record_commit_vote 7 fresh_log in
   exists x, reopened l' = Some ((file_views fresh_log).1, x) /\
     recorded (file_views fresh_log).2 7 x r) /\
  (let '(l', r) := record_lock genesis fresh_log in
   exists x, load_durable_lock (fl_lock l') = Some x /\
     reopened l' = Some (file_views fresh_log) /\
     recorded (file_lock fresh_log) (Some genesis) x r).
Proof.
  apply (vote_log_survives_crash fresh_log 7 genesis).
  - split; [reflexivity|]. by exists None.
  - vm_compute. reflexivity.
Defined.
